(* ===== verification/_CoqProject ===== *)
-Q . S2P
Prelude.v
GoStrings.v
Errors.v
Json.v
Http.v
Sha256.v
WebServer.v
Models.v
Matcher.v
Database.v
SpotifyTypes.v
TransferStore.v
Service.v
Worker.v
SpotifyStore.v
SpotifyClient.v
Imports.v
Importing.v
AppleClient.v
AppleConnections.v
Providers.v
SpotifyAccount.v
SpotifyAuth.v
ImportHttp.v
AppleHttp.v
TransferHttp.v
HealthHttp.v
Config.v
Migrations.v
Admin.v
Api.v
Routes.v
Wiring.v
Lifecycle.v
Responses.v
Invariants.v
Sessions.v
Consistency.v
Records.v
Isolation.v
