(* ===== verification/Prelude.v ===== *)
(** * A music-library transfer service

    The program connects a browser session to Spotify and to Apple Music,
    imports Spotify playlists as immutable snapshots, matches the entries of a
    snapshot against the catalogue of a destination (a preview), and carries a
    preview over to a playlist there (a run).  Two processes share one
    PostgreSQL database and a job queue in it (River): the API (cmd/api), which
    answers requests and inserts jobs, and the worker (cmd/worker), which
    executes them.  An administrative command (cmd/admin) migrates the database
    and probes the queue.

    ** The parts, and where they are

    - GoStrings, Errors, Json, Http, Sha256, WebServer: what the program uses of
      Go's standard library, written out (UTF-8, trimming and case, error
      chains, encoding/json on document trees, Retry-After, SHA-256, base64 and
      hex, net/http responses, cookies and query escaping).
    - Models (internal/transfer/models.go, provider.go), SpotifyTypes
      (internal/spotify/playlists.go): the data, with its JSON; the provider
      interface is the record [Models.Provider].
    - Matcher (internal/transfer/matcher.go): text normalisation and the choice
      of the destination track.
    - Database (internal/platform/migrations): the tables as finite maps by
      primary key, transactions, and the faults that statements can meet.
    - TransferStore, Service, Worker (store.go, service.go and worker.go of
      internal/transfer), Providers (providers.go): previews, runs, the transfer
      job and the two adapters.
    - SpotifyStore, SpotifyClient, Imports (store.go, client.go, playlists.go,
      search.go and imports.go of internal/spotify): the encrypted connections,
      the requests with refreshing of tokens, and the import job.
    - AppleClient, AppleConnections (client.go, search.go and store.go of
      internal/applemusic).
    - SpotifyAuth, ImportHttp, AppleHttp, TransferHttp, HealthHttp (auth.go and
      import_http.go of internal/spotify, http.go of internal/applemusic and of
      internal/transfer, internal/httpapi/server.go): the HTTP handlers.
    - Config, Migrations, Admin (internal/config, internal/platform,
      internal/jobs, cmd/admin): configuration, migrations, and the queue.
    - Api, Wiring (cmd/api, cmd/worker): the routes and jobs over one database,
      and how the processes come up.
    - Invariants, Sessions, Consistency: what holds in every state that the
      whole program can reach.  Invariants states what a property of the
      database has to be closed under ([program_keeps]) and proves once that
      every request and job then keeps it; the two others are its instances.

    This file has what all of them share: results, the state-and-error monad
    [M] of the effectful code with its weakest preconditions ([wp]) and
    preserved invariants ([keeps]), sorting, and the tactics of the proofs.

    ** How the code is modelled

    A Go function that only computes is a Rocq function.  One that calls the
    database, a provider or the clock is an action of [M]: it takes the state
    and returns the next one with a value or an error, so that what was done
    before an error stays done.  Handlers are functions to a response and a
    state ([WebServer.Reply]).  Integers are [Z]; where the code could overflow
    (durations, Retry-After, positions) the bounds are proved or the width is
    written out.  A nil slice is told apart from an empty one where JSON shows
    the difference ([Prelude.slice]).

    A statement of the database reads or changes the working copy of the open
    transaction; a schedule of faults says which of the next calls fail and
    which commits take effect without a reply.  Theorems quantify over the
    schedule, so that they hold whatever fails.  Random IDs, sessions and states
    are arguments.  Concurrent requests are sequences of transactions: the row
    locks of the code make those of one session, run or import exclude each
    other.  The pending authorizations, the only memory that requests of one
    process share, are changed in the atomic steps that the mutex makes them,
    and the properties of the flow hold for any interleaving of these.

    The transfer code and its providers use the one database through different
    connections.  In Service and Worker the providers' state is a parameter; in
    Api it is the same database, and [Api.onTransfer] puts the tables of the two
    together again.

    ** What is shown

    - Worker: however often a transfer is attempted and whatever fails, the
      destination gets one playlist with the matched tracks, in order and none
      twice ([Work_exactly_once]); and an attempt that meets no failure
      completes it ([Work_completes]).  Errors become retries, snoozes and
      cancellations as they should ([workError_cases]).
    - Matcher: the decision implements the declarative priority of the criteria
      ([match_spec]), is sound, and does not depend on the order of results.
    - TransferStore, Service: previews are stored and read back field by field,
      in one transaction; runs and jobs stay in step; enqueuing is idempotent;
      sessions only read their own rows; the matching cache is invisible.
    - SpotifyClient, Imports, Providers: a snapshot is complete and faithful or
      it is refused, reading it ends, a published one is what the transfer loads;
      refreshed tokens survive the failure of the request that needed them;
      limits on imports; rate limits reach the queue; adding in batches.
    - SpotifyStore: saving a connection rotates the session atomically.
    - SpotifyAuth, Api, Wiring: an authorization is used once and by the browser
      that started it; mutations need the right origin and a session; cookies
      are protected; every job that the API inserts has a worker.
    - Consistency: in every reachable state the tables refer to each other as
      they should, published snapshots are complete, imports keep their limits,
      and every job in the queue belongs to its import or run and has a worker.
    - Sessions: in every reachable state no session holds connections to both
      providers, and therefore no preview can search Apple Music for the entries
      of a Spotify snapshot.
    - Migrations, Config: migrations are applied completely and once, and an
      edited one is refused; an accepted configuration is a safe one.

    ** Bounds and fuel

    - The worker's search for its playlist has a budget of pages, in place of
      the ten minutes of the job: running out is the expiry of the context.
      [Work_completes] says how much is enough.
    - The loop over the pages of a snapshot has the announced total as its fuel,
      and [ReadSnapshot_bounded] shows that it never runs out: every page that
      is accepted brings at least one item.
    - Batches of tracks have the number of tracks as fuel, the probe of the
      admin command the 240 ticks within its minute.

    ** Parameters

    The network (a function from requests to responses and the next state of
    the outside world), the clock, AES-GCM ([AEAD], with its documented laws and
    an ideal instance that has them), the Unicode tables above Latin-1
    ([Unicode]), ES256 and the parsing of keys ([AppleKeys]), the parsing of
    URLs, addresses and log levels ([GoParsers]), the SQL of the migrations,
    and River's and pgx's connections.

    ** Limits of the model

    Object keys of JSON are matched exactly and once, and no value holds U+0000
    (which jsonb refuses).  Paths and queries are kept before escaping, except
    in the authorization URL.  Contexts that expire are failures of the call
    that meets them.  Two methods have other names here: [Importer.Snapshot] is
    [Imports.ReadPage], and [Client.Profile] is [SpotifyClient.fetchProfile].

    ** Not modelled

    The opening of the connection pool, the listening server, signals, graceful
    shutdown and logging: input and output without decisions of their own.  The
    plan beyond this: transfers over reachable states with both providers'
    destinations as accounts in the sense of Worker, and the isolation of
    sessions over whole runs. *)
From Stdlib Require Export ssreflect.
From stdpp Require Export base tactics gmap strings list fin_maps sorting.
From Stdlib Require Export ZArith Lia.

Declare Scope go_scope.
Delimit Scope go_scope with go.
Local Open Scope Z_scope.

(** ** Results, and the state-and-error monad of the effectful code *)

Inductive res (E A : Type) : Type :=
| Ok (a : A)
| Err (e : E).
Arguments Ok {E A} a.
Arguments Err {E A} e.

#[export] Instance res_eq_dec {E A} `{EqDecision E, EqDecision A} : EqDecision (res E A).
Proof. solve_decision. Defined.

(** A Go call that may change the state [S] and returns a value or an error.
    The state is returned in both cases: an error does not undo an effect. *)
Definition M (S E A : Type) : Type := S → res E A * S.

#[export] Instance M_ret {S E} : MRet (M S E) := λ A a s, (Ok a, s).
#[export] Instance M_bind {S E} : MBind (M S E) := λ A B k m s,
  match m s with
  | (Ok a, s') => k a s'
  | (Err e, s') => (Err e, s')
  end.

(** [return err]. *)
Definition raise {S E A} (e : E) : M S E A := λ s, (Err e, s).

(** [x, err := m] with [err] inspected by the caller. *)
Definition try {S E A} (m : M S E A) : M S E (res E A) := λ s,
  let '(r, s') := m s in (Ok r, s').

(** [_ = m]: the error is dropped. *)
Definition ignore {S E A} (m : M S E A) : M S E unit := λ s,
  let '(_, s') := m s in (Ok tt, s').

(** [defer cleanup] in front of [m]: the cleanup runs however [m] ends, and its
    own result is dropped. *)
Definition defer {S E A} (cleanup : M S E unit) (m : M S E A) : M S E A := λ s,
  let '(r, s') := m s in (r, (cleanup s').2).

Definition lift {S E A} (r : res E A) : M S E A := λ s, (r, s).

(** A weakest-precondition view of the monad: [wp m Q s] says that running [m]
    from [s] ends in a result and a state that satisfy [Q]. *)
Definition wp {S E A} (m : M S E A) (Q : res E A → S → Prop) (s : S) : Prop :=
  Q (m s).1 (m s).2.

Section monad_laws.
Context {S E : Type}.
Implicit Types s : S.

Lemma bind_unfold {A B} (m : M S E A) (k : A → M S E B) s :
  (m ≫= k) s = match m s with
               | (Ok a, s') => k a s'
               | (Err e, s') => (Err e, s')
               end.
Proof. reflexivity. Qed.

Lemma bind_Ok {A B} (m : M S E A) (k : A → M S E B) s a s' :
  m s = (Ok a, s') → (m ≫= k) s = k a s'.
Proof. intros H. by rw bind_unfold H. Qed.

Lemma bind_Err {A B} (m : M S E A) (k : A → M S E B) s e s' :
  m s = (Err e, s') → (m ≫= k) s = (Err e, s').
Proof. intros H. by rw bind_unfold H. Qed.

Lemma bind_assoc {A B C} (m : M S E A) (k : A → M S E B) (j : B → M S E C) s :
  ((m ≫= k) ≫= j) s = (m ≫= (λ a, k a ≫= j)) s.
Proof. rw !bind_unfold. by destruct (m s) as [[a|e] s']. Qed.

Lemma bind_inv {A B} (m : M S E A) (k : A → M S E B) s b s' :
  (m ≫= k) s = (Ok b, s') → ∃ a s1, m s = (Ok a, s1) ∧ k a s1 = (Ok b, s').
Proof. rw bind_unfold. destruct (m s) as [[a|e] s1]; naive_solver. Qed.

Lemma wp_run {A} (m : M S E A) (Q : res E A → S → Prop) s r s' :
  wp m Q s → m s = (r, s') → Q r s'.
Proof. rw /wp => H Hm. by rw Hm in H. Qed.

Lemma wp_ret {A} (a : A) (Q : res E A → S → Prop) s : Q (Ok a) s → wp (mret a) Q s.
Proof. done. Qed.

Lemma wp_raise {A} (e : E) (Q : res E A → S → Prop) s : Q (Err e) s → wp (raise e) Q s.
Proof. done. Qed.

Lemma wp_bind {A B} (m : M S E A) (k : A → M S E B) (Q : res E B → S → Prop) s :
  wp m (λ r s1, match r with Ok a => wp (k a) Q s1 | Err e => Q (Err e) s1 end) s →
  wp (m ≫= k) Q s.
Proof. rw /wp bind_unfold. by destruct (m s) as [[a|e] s']. Qed.

Lemma wp_try {A} (m : M S E A) (Q : res E (res E A) → S → Prop) s :
  wp m (λ r s1, Q (Ok r) s1) s → wp (try m) Q s.
Proof. rw /wp /try. by destruct (m s). Qed.

Lemma wp_ignore {A} (m : M S E A) (Q : res E unit → S → Prop) s :
  wp m (λ _ s1, Q (Ok tt) s1) s → wp (ignore m) Q s.
Proof. rw /wp /ignore. by destruct (m s). Qed.

Lemma wp_defer {A} (cleanup : M S E unit) (m : M S E A) (Q : res E A → S → Prop) s :
  wp m (λ r s1, Q r (cleanup s1).2) s → wp (defer cleanup m) Q s.
Proof. rw /wp /defer. by destruct (m s). Qed.

Lemma run_pair {A} (m : M S E A) s r : (m s).1 = r → m s = (r, (m s).2).
Proof. by intros <-; destruct (m s). Qed.

Lemma wp_mono {A} (m : M S E A) (P Q : res E A → S → Prop) s :
  wp m P s → (∀ r s', P r s' → Q r s') → wp m Q s.
Proof. rw /wp. auto. Qed.
End monad_laws.

(** [costs n m k]: running [m] increases the measure [n] of the state by at
    most [k], however it ends. *)
Definition costs {S E A} (n : S → Z) (m : M S E A) (k : Z) : Prop := ∀ s, (n (m s).2 ≤ n s + k)%Z.

Section costs.
Context {S E : Type} (n : S → Z).
Local Open Scope Z_scope.

Lemma costs_ret {A} (a : A) k : 0 ≤ k → costs (E := E) n (mret a) k.
Proof. intros Hk s. cbn. lia. Qed.

Lemma costs_raise {A} (e : E) k : 0 ≤ k → costs (A := A) n (raise e) k.
Proof. intros Hk s. cbn. lia. Qed.

Lemma costs_lift {A} (r : res E A) k : 0 ≤ k → costs n (lift r) k.
Proof. intros Hk s. cbn. lia. Qed.

Lemma costs_bind {A B} (m : M S E A) (f : A → M S E B) k1 k2 :
  costs n m k1 → (∀ a, costs n (f a) k2) → 0 ≤ k2 → costs n (m ≫= f) (k1 + k2).
Proof.
  intros Hm Hf Hk s. specialize (Hm s). rw bind_unfold. destruct (m s) as [[a|e] s']; cbn in *; [|lia].
  specialize (Hf a s'). lia.
Qed.

Lemma costs_try {A} (m : M S E A) k : costs n m k → costs (E := E) n (try m) k.
Proof. intros Hm s. specialize (Hm s). rw /try. by destruct (m s). Qed.

Lemma costs_weaken {A} (m : M S E A) k k' : costs n m k → k ≤ k' → costs n m k'.
Proof. intros Hm Hk s. specialize (Hm s). lia. Qed.
End costs.

Definition succeeds {E A} (r : res E A) : Prop := match r with Ok _ => True | Err _ => False end.

(** [runs J U L m Q]: [m] stays in [J], however it ends, and a value that it
    returns is in [Q]; where everything works ([U]) it goes on working, and [m]
    succeeds if it is within the limits [L]. *)
Definition runs {S E A} (J U : S → Prop) (L : Prop) (m : M S E A) (Q : A → Prop) : Prop :=
  ∀ s, J s → wp m (λ r s', J s' ∧ (U s → U s' ∧ (L → succeeds r)) ∧ ∀ a, r = Ok a → Q a) s.

Section runs.
Context {S E : Type} (J U : S → Prop) (L : Prop).

Lemma runs_ret {A} (a : A) (Q : A → Prop) : Q a → runs (E := E) J U L (mret a) Q.
Proof. intros Ha s Hs. apply wp_ret. split_and!; [done|done|]. by intros b [= <-]. Qed.
Lemma runs_raise {A} (e : E) (Q : A → Prop) : ¬ L → runs J U L (raise e) Q.
Proof. intros Hl s Hs. by apply wp_raise. Qed.
Lemma runs_bind {A B} (m : M S E A) (k : A → M S E B) P Q :
  runs J U L m P → (∀ a, P a → runs J U L (k a) Q) → runs J U L (m ≫= k) Q.
Proof.
  intros Hm Hk s Hs. apply wp_bind. eapply wp_mono; [by apply Hm|].
  intros [a|e] s1 (Hs1 & Hup & Ha); [|split_and!; [done|naive_solver|done]].
  eapply wp_mono; [by apply (Hk a); [apply Ha|]|]. intros r s2 (Hs2 & Hup2 & Hr). split_and!; naive_solver.
Qed.
Lemma runs_weaken {A} (L' : Prop) (m : M S E A) (P Q : A → Prop) :
  runs J U L' m P → (L → L') → (∀ a, P a → Q a) → runs J U L m Q.
Proof. intros Hm HL HQ s Hs. eapply wp_mono; [by apply Hm|]. naive_solver. Qed.
End runs.

(** [keeps I m]: running [m] preserves [I], however it ends. *)
Definition keeps {S E A} (I : S → Prop) (m : M S E A) : Prop := ∀ s, I s → I (m s).2.

Section keeps.
Context {S E : Type} (I : S → Prop).

Lemma keeps_ret {A} (a : A) : keeps (E := E) I (mret a).
Proof. by intros s Hs. Qed.
Lemma keeps_raise {A} (e : E) : keeps (A := A) I (raise e).
Proof. by intros s Hs. Qed.
Lemma keeps_lift {A} (r : res E A) : keeps I (lift r).
Proof. by intros s Hs. Qed.
Lemma keeps_try {A} (m : M S E A) : keeps I m → keeps (E := E) I (try m).
Proof. intros Hm s Hs. specialize (Hm s Hs). rw /try. by destruct (m s). Qed.
Lemma keeps_ignore {A} (m : M S E A) : keeps I m → keeps I (ignore m).
Proof. intros Hm s Hs. specialize (Hm s Hs). rw /ignore. by destruct (m s). Qed.
Lemma keeps_bind {A B} (m : M S E A) (f : A → M S E B) :
  keeps I m → (∀ a, keeps I (f a)) → keeps I (m ≫= f).
Proof.
  intros Hm Hf s Hs. specialize (Hm s Hs). rw bind_unfold. destruct (m s) as [[a|e] s']; [by apply Hf|done].
Qed.
Lemma keeps_lift_bind {A B} (r : res E A) (f : A → M S E B) :
  (∀ a, r = Ok a → keeps I (f a)) → keeps I (lift r ≫= f).
Proof. intros Hf s Hs. rw bind_unfold /lift. destruct r as [a|]; [by apply (Hf a)|done]. Qed.

(** [yields Q m]: [m] preserves [I], and what it returns satisfies [Q]. *)
Definition yields {A} (Q : A → Prop) (m : M S E A) : Prop :=
  ∀ s, I s → I (m s).2 ∧ ∀ a, (m s).1 = Ok a → Q a.

Lemma yields_keeps {A} Q (m : M S E A) : yields Q m → keeps I m.
Proof. intros Hm s Hs. by apply Hm. Qed.
Lemma keeps_yields {A} (m : M S E A) : keeps I m → yields (λ _, True) m.
Proof. intros Hm s Hs. by split; [apply Hm|]. Qed.
Lemma yields_ret {A} (Q : A → Prop) a : Q a → yields Q (mret a).
Proof. intros Ha s Hs. split; [done|]. by intros ? [= <-]. Qed.
Lemma yields_keeps_bind {A B} Q (m : M S E A) (f : A → M S E B) :
  yields Q m → (∀ a, Q a → keeps I (f a)) → keeps I (m ≫= f).
Proof.
  intros Hm Hf s Hs. specialize (Hm s Hs) as [HI Ha]. rw bind_unfold.
  destruct (m s) as [[a|e] s']; [by apply (Hf a); [apply Ha|]|done].
Qed.
Lemma yields_bind {A B} Q Q' (m : M S E A) (f : A → M S E B) :
  yields Q m → (∀ a, Q a → yields Q' (f a)) → yields Q' (m ≫= f).
Proof.
  intros Hm Hf s Hs. specialize (Hm s Hs) as [HI Ha]. rw bind_unfold.
  destruct (m s) as [[a|e] s']; [by apply (Hf a); [apply Ha|]|done].
Qed.
Lemma yields_try {A} Q (m : M S E A) :
  yields Q m → yields (λ r : res E A, match r with Ok a => Q a | Err _ => True end) (try m).
Proof.
  intros Hm s Hs. specialize (Hm s Hs) as [HI Ha]. rw /try. destruct (m s) as [[a|e] s'];
    (split; [done|]); intros ? [= <-]; [by apply Ha|done].
Qed.
End keeps.

Create HintDb keeps.
#[export] Hint Resolve keeps_ret keeps_raise keeps_lift keeps_try keeps_ignore : keeps.

Create HintDb wp.
#[export] Hint Resolve wp_ret wp_raise wp_try wp_ignore : wp.

(** ** Go's 64-bit [int] *)

Definition min_int : Z := - 2 ^ 63.
Definition max_int : Z := 2 ^ 63 - 1.
Definition is_int (z : Z) : Prop := min_int ≤ z ≤ max_int.
Definition wrap64 (z : Z) : Z := (z + 2 ^ 63) `mod` 2 ^ 64 - 2 ^ 63.

#[export] Instance is_int_dec z : Decision (is_int z).
Proof. unfold is_int. apply _. Defined.

Lemma wrap64_id z : is_int z → wrap64 z = z.
Proof. rw /is_int /min_int /max_int /wrap64 => H. rw Z.mod_small; lia. Qed.

Lemma wrap64_is_int z : is_int (wrap64 z).
Proof.
  rw /is_int /min_int /max_int /wrap64.
  pose proof (Z.mod_pos_bound (z + 2 ^ 63) (2 ^ 64) ltac:(lia)). lia.
Qed.

(** [len] of a slice. *)
Abbreviation len l := (Z.of_nat (length l)).

(** A Go slice: [None] is the nil slice, which ranges like the empty one and is
    encoded as JSON [null]. *)
Abbreviation slice A := (option (list A)).
Definition elems {A} (s : slice A) : list A := default [] s.

(** The byte order on strings, Go's [<]. *)
Definition str_ltb (s t : string) : bool := String.ltb s t.

Lemma str_compare_cons a s b t :
  String.compare (String a s) (String b t) =
  match Ascii.compare a b with Eq => String.compare s t | c => c end.
Proof. reflexivity. Qed.

Lemma str_ltb_spec s t : str_ltb s t = true ↔ String.compare s t = Lt.
Proof. rw /str_ltb /String.ltb. by destruct (String.compare s t). Qed.

Lemma ascii_compare_spec a b : Ascii.compare a b = N.compare (Ascii.N_of_ascii a) (Ascii.N_of_ascii b).
Proof. reflexivity. Qed.

Lemma str_ltb_irrefl s : str_ltb s s = false.
Proof.
  apply not_true_iff_false. rw str_ltb_spec. induction s as [|a s IH]; [done|].
  by rw str_compare_cons ascii_compare_spec N.compare_refl.
Qed.

Lemma str_ltb_trans s t u : str_ltb s t = true → str_ltb t u = true → str_ltb s u = true.
Proof.
  rw !str_ltb_spec. revert t u. induction s as [|a s IH]; intros [|b t] [|c u]; try done.
  rw !str_compare_cons !ascii_compare_spec.
  destruct (N.compare_spec (Ascii.N_of_ascii a) (Ascii.N_of_ascii b)) as [E1|E1|E1]; try done;
  destruct (N.compare_spec (Ascii.N_of_ascii b) (Ascii.N_of_ascii c)) as [E2|E2|E2]; try done;
  destruct (N.compare_spec (Ascii.N_of_ascii a) (Ascii.N_of_ascii c)) as [E3|E3|E3];
    try lia; eauto.
Qed.

Lemma str_ltb_asym s t : str_ltb s t = true → str_ltb t s = false.
Proof.
  intros H1. apply not_true_iff_false => H2.
  pose proof (str_ltb_trans _ _ _ H1 H2) as H. by rw str_ltb_irrefl in H.
Qed.

Lemma str_ltb_total s t : str_ltb s t = true ∨ s = t ∨ str_ltb t s = true.
Proof.
  rw !str_ltb_spec (String.compare_antisym t s).
  destruct (String.compare s t) eqn:E; simpl; auto. right; left. by apply String.compare_eq_iff.
Qed.

(** ** Stable sorting by a key, and [ORDER BY] *)

(** A strict total order given by a boolean test. *)
Class StrictOrderb {K : Type} (lt : K → K → bool) : Prop := {
  ltb_irrefl a : lt a a = false;
  ltb_trans a b c : lt a b = true → lt b c = true → lt a c = true;
  ltb_total a b : lt a b = true ∨ a = b ∨ lt b a = true;
}.

#[export] Instance str_ltb_order : StrictOrderb str_ltb.
Proof. split; [apply str_ltb_irrefl | apply str_ltb_trans | apply str_ltb_total]. Qed.

#[export] Instance Z_ltb_order : StrictOrderb Z.ltb.
Proof. split; intros; lia. Qed.

Section sort_by.
Context {A K : Type} (lt : K → K → bool) (key : A → K).

Fixpoint insert_by (x : A) (l : list A) : list A :=
  match l with
  | [] => [x]
  | y :: l' => if lt (key y) (key x) then y :: insert_by x l' else x :: y :: l'
  end.
(** An element is put in front of the later ones that are not smaller, so
    elements with equal keys keep their order: this is [sort.SliceStable]. *)
Definition sort_by (l : list A) : list A := foldr insert_by [] l.

Definition sorted_by (l : list A) : Prop := StronglySorted (λ a b, lt (key b) (key a) = false) l.

Lemma insert_by_perm x l : insert_by x l ≡ₚ x :: l.
Proof.
  induction l as [|y l IH]; simpl; [done|]. destruct (lt _ _); [|done].
  rw IH. constructor.
Qed.

Lemma sort_by_perm l : sort_by l ≡ₚ l.
Proof. induction l as [|x l IH]; simpl; [done|]. by rw insert_by_perm IH. Qed.

Context `{!StrictOrderb lt}.

Lemma ltb_asym a b : lt a b = true → lt b a = false.
Proof.
  intros H1. apply not_true_iff_false => H2.
  pose proof (ltb_trans _ _ _ H1 H2) as H. by rw ltb_irrefl in H.
Qed.

Lemma ltb_ge_trans a b c : lt b a = false → lt c b = false → lt c a = false.
Proof.
  intros H1 H2. apply not_true_iff_false => H3.
  destruct (ltb_total a b) as [H|[->|H]]; [|congruence..].
  pose proof (ltb_trans _ _ _ H3 H). congruence.
Qed.

Lemma insert_by_sorted x l : sorted_by l → sorted_by (insert_by x l).
Proof.
  induction 1 as [|y l Hl IH Hy]; simpl; [by repeat constructor|].
  destruct (lt (key y) (key x)) eqn:E.
  - constructor; [done|]. rw insert_by_perm. constructor; [by apply ltb_asym|done].
  - constructor; [by constructor|]. constructor; [done|].
    eapply Forall_impl; [exact Hy|]. intros z Hz. by eapply ltb_ge_trans.
Qed.

Lemma sort_by_sorted l : sorted_by (sort_by l).
Proof. induction l as [|x l IH]; simpl; [constructor|]. by apply insert_by_sorted. Qed.

(** With distinct keys a list has one sorted arrangement. *)
Lemma sorted_by_unique l1 l2 :
  NoDup (key <$> l1) → l1 ≡ₚ l2 → sorted_by l1 → sorted_by l2 → l1 = l2.
Proof.
  intros Hnd Hp H1 H2. eapply StronglySorted_unique_strong; [|exact H1|exact H2|exact Hp].
  intros x y Hx Hy Hyx Hxy. rw -Hp in Hy.
  destruct (ltb_total (key x) (key y)) as [H|[H|H]]; [congruence| |congruence].
  apply list_elem_of_lookup in Hx as [i Hi], Hy as [j Hj].
  assert (i = j) as ->.
  { eapply NoDup_lookup; [exact Hnd| |]; rw list_lookup_fmap ?Hi ?Hj //=. by rw H. }
  congruence.
Qed.

Lemma sort_by_unique l1 l2 :
  NoDup (key <$> l1) → l1 ≡ₚ l2 → sort_by l1 = sort_by l2.
Proof.
  intros Hnd Hp. apply sorted_by_unique; [|by rw !sort_by_perm|apply sort_by_sorted..].
  by rw sort_by_perm.
Qed.

Lemma sort_by_id l : NoDup (key <$> l) → sorted_by l → sort_by l = l.
Proof.
  intros Hnd Hs. symmetry. apply sorted_by_unique; [done|by rw sort_by_perm|done|apply sort_by_sorted].
Qed.
End sort_by.

(** ** Lists *)

Section lists.
Context {A : Type} (P : A → Prop) `{∀ x, Decision (P x)}.
Implicit Types l : list A.

Lemma list_filter_all l : Forall P l → filter P l = l.
Proof. induction 1 as [|x l Hx _ IH]; [done|]. by rw filter_cons_True // IH. Qed.

Lemma list_filter_none l : Forall (λ x, ¬ P x) l → filter P l = [].
Proof. induction 1 as [|x l Hx _ IH]; [done|]. by rw filter_cons_False // IH. Qed.

Lemma list_filter_nil l : filter P l = [] → ∀ x, x ∈ l → ¬ P x.
Proof. intros Hf x Hx HP. by eapply filter_nil_not_elem_of. Qed.

Lemma StronglySorted_filter (R : A → A → Prop) l :
  StronglySorted R l → StronglySorted R (filter P l).
Proof.
  induction 1 as [|x l _ IH Hx]; [constructor|]. rw filter_cons.
  case_decide; [|done]. constructor; [done|].
  apply Forall_forall. intros y [_ Hy]%list_elem_of_filter. by apply (proj1 (Forall_forall _ _) Hx).
Qed.
End lists.
