(* ===== verification/GoStrings.v ===== *)
(** The part of Go's [strings], [unicode] and [unicode/utf8] packages that the
    program uses.  A Go string is a sequence of bytes, here a Rocq [string];
    ranging over it decodes UTF-8 and yields U+FFFD for every invalid byte.
    The Latin-1 rows of the Unicode tables are written out, as package
    [unicode] does; the rows above them are the class [Unicode], whose laws
    ([UnicodeLaws]) are facts of the published tables. *)
From stdpp Require Import pretty.
From S2P Require Import Prelude.
Local Open Scope Z_scope.

(** ** Bytes *)

Definition bytes (s : string) : list Z :=
  (λ a, Z.of_N (Ascii.N_of_ascii a)) <$> String.list_ascii_of_string s.
Definition of_bytes (l : list Z) : string :=
  String.string_of_list_ascii ((λ z, Ascii.ascii_of_N (Z.to_N z)) <$> l).

(** [len(s)]: the number of bytes. *)
Definition slen (s : string) : Z := Z.of_nat (String.length s).

(** ** UTF-8 *)

Definition RuneError : Z := 0xFFFD.
Definition between (lo hi b : Z) : bool := (lo <=? b) && (b <=? hi).
Definition cont (b : Z) : bool := between 0x80 0xBF b.

(** [utf8.DecodeRune] on the bytes [b0 :: rest]: the rune and the number of
    bytes of [rest] it takes. *)
Definition decode (b0 : Z) (rest : list Z) : Z * nat :=
  if b0 <? 0x80 then (b0, 0%nat)
  else if between 0xC2 0xDF b0 then
    match rest with
    | b1 :: _ => if cont b1 then ((b0 - 0xC0) * 64 + (b1 - 0x80), 1%nat) else (RuneError, 0%nat)
    | _ => (RuneError, 0%nat)
    end
  else if between 0xE0 0xEF b0 then
    match rest with
    | b1 :: b2 :: _ =>
        if between (if b0 =? 0xE0 then 0xA0 else 0x80) (if b0 =? 0xED then 0x9F else 0xBF) b1 && cont b2
        then ((b0 - 0xE0) * 4096 + (b1 - 0x80) * 64 + (b2 - 0x80), 2%nat) else (RuneError, 0%nat)
    | _ => (RuneError, 0%nat)
    end
  else if between 0xF0 0xF4 b0 then
    match rest with
    | b1 :: b2 :: b3 :: _ =>
        if between (if b0 =? 0xF0 then 0x90 else 0x80) (if b0 =? 0xF4 then 0x8F else 0xBF) b1 && cont b2 && cont b3
        then ((b0 - 0xF0) * 262144 + (b1 - 0x80) * 4096 + (b2 - 0x80) * 64 + (b3 - 0x80), 3%nat)
        else (RuneError, 0%nat)
    | _ => (RuneError, 0%nat)
    end
  else (RuneError, 0%nat).

(** Decoding a whole string: each rune with the bytes it was read from;
    [skip] counts the bytes that belong to the rune just emitted. *)
Fixpoint chunks_from (skip : nat) (l : list Z) : list (Z * list Z) :=
  match l with
  | [] => []
  | b :: l' =>
      match skip with
      | S k => chunks_from k l'
      | O => let '(r, n) := decode b l' in (r, b :: take n l') :: chunks_from n l'
      end
  end.
Definition chunks (l : list Z) : list (Z * list Z) := chunks_from 0 l.
Definition runes (s : string) : list Z := (chunks (bytes s)).*1.

Definition valid_rune (r : Z) : bool := between 0 0xD7FF r || between 0xE000 0x10FFFF r.

(** [utf8.AppendRune]. *)
Definition encode (r : Z) : list Z :=
  if negb (valid_rune r) then [0xEF; 0xBF; 0xBD]
  else if r <? 0x80 then [r]
  else if r <? 0x800 then [0xC0 + r `div` 64; 0x80 + r `mod` 64]
  else if r <? 0x10000 then [0xE0 + r `div` 4096; 0x80 + (r `div` 64) `mod` 64; 0x80 + r `mod` 64]
  else [0xF0 + r `div` 262144; 0x80 + (r `div` 4096) `mod` 64; 0x80 + (r `div` 64) `mod` 64; 0x80 + r `mod` 64].
Definition encode_all (rs : list Z) : list Z := rs ≫= encode.

(** ** Unicode classes *)

Class Unicode := {
  high_letter : Z → bool;
  high_number : Z → bool;
  high_lower : Z → Z;
  high_upper : Z → Z;
}.

(** [unicode.IsSpace]. *)
Definition IsSpace (r : Z) : bool :=
  between 0x9 0xD r || (r =? 0x20) || (r =? 0x85) || (r =? 0xA0) || (r =? 0x1680) ||
  between 0x2000 0x200A r || between 0x2028 0x2029 r || (r =? 0x202F) || (r =? 0x205F) || (r =? 0x3000).

Section unicode.
Context `{Unicode}.

Definition IsLetter (r : Z) : bool :=
  if r <=? 0xFF then
    between 0x41 0x5A r || between 0x61 0x7A r || (r =? 0xAA) || (r =? 0xB5) || (r =? 0xBA) ||
    between 0xC0 0xD6 r || between 0xD8 0xF6 r || between 0xF8 0xFF r
  else high_letter r.
Definition IsNumber (r : Z) : bool :=
  if r <=? 0xFF then
    between 0x30 0x39 r || between 0xB2 0xB3 r || (r =? 0xB9) || between 0xBC 0xBE r
  else high_number r.
Definition ToLowerRune (r : Z) : Z :=
  if r <=? 0xFF then
    if between 0x41 0x5A r || between 0xC0 0xD6 r || between 0xD8 0xDE r then r + 32 else r
  else high_lower r.
Definition ToUpperRune (r : Z) : Z :=
  if r <=? 0xFF then
    if between 0x61 0x7A r || between 0xE0 0xF6 r || between 0xF8 0xFE r then r - 32
    else if r =? 0xB5 then 0x39C else if r =? 0xFF then 0x178 else r
  else high_upper r.
End unicode.

(** ** Package [strings] *)

Fixpoint drop_while {A} (p : A → bool) (cs : list A) : list A :=
  match cs with
  | [] => []
  | c :: cs' => if p c then drop_while p cs' else cs
  end.
Definition trim {A} (p : A → bool) (cs : list A) : list A :=
  reverse (drop_while p (reverse (drop_while p cs))).

Definition TrimSpace (s : string) : string :=
  of_bytes (mjoin (trim (λ c, IsSpace c.1) (chunks (bytes s))).*2).

(** [strings.Map]: a negative rune is dropped. *)
Definition MapRunes (f : Z → Z) (s : string) : string :=
  of_bytes (encode_all (filter (λ r, 0 ≤ r) (f <$> runes s))).

Definition ToLower `{Unicode} : string → string := MapRunes ToLowerRune.
Definition ToUpper `{Unicode} : string → string := MapRunes ToUpperRune.

(** [strings.Fields]: maximal runs of non-space runes; [acc] is the run being
    read. *)
Fixpoint fields_from {A} (space : A → bool) (acc : list A) (cs : list A) : list (list A) :=
  match cs with
  | [] => match acc with [] => [] | _ => [acc] end
  | c :: cs' =>
      if space c then match acc with [] => fields_from space [] cs' | _ => acc :: fields_from space [] cs' end
      else fields_from space (acc ++ [c]) cs'
  end.
Definition Fields (s : string) : list string :=
  (λ cs : list (Z * list Z), of_bytes (mjoin cs.*2)) <$> fields_from (λ c, IsSpace c.1) [] (chunks (bytes s)).

(** [strings.Join]. *)
Definition Join (l : list string) (sep : string) : string := String.concat sep l.

(** [strings.ContainsAny] for a set of ASCII characters. *)
Definition ContainsAny (s : string) (cs : list Z) : bool := existsb (λ b, bool_decide (b ∈ cs)) (bytes s).

(** [strconv.Itoa], and [%d] of [fmt.Sprintf]. *)
Definition Itoa (z : Z) : string := pretty z.

(** ** Encoding and decoding *)

Definition is_byte (b : Z) : Prop := 0 ≤ b < 256.

(** The string that holds the runes [rs]. *)
Definition text (rs : list Z) : string := of_bytes (encode_all rs).

Lemma between_spec lo hi b : between lo hi b = true ↔ lo ≤ b ≤ hi.
Proof. rw /between andb_true_iff !Z.leb_le. lia. Qed.

Lemma between_true lo hi b : lo ≤ b ≤ hi → between lo hi b = true.
Proof. apply between_spec. Qed.

Lemma between_false lo hi b : b < lo ∨ hi < b → between lo hi b = false.
Proof. intros H. apply not_true_iff_false. rw between_spec. lia. Qed.

Lemma of_bytes_bytes s : of_bytes (bytes s) = s.
Proof.
  rw /of_bytes /bytes -list_fmap_compose -{2}(String.string_of_list_ascii_of_string s).
  f_equal. rw -{2}(list_fmap_id (String.list_ascii_of_string s)). apply list_fmap_ext.
  intros _ a _. rw /compose N2Z.id. apply Ascii.ascii_N_embedding.
Qed.

Lemma bytes_of_bytes l : Forall is_byte l → bytes (of_bytes l) = l.
Proof.
  intros Hl. rw /bytes /of_bytes String.list_ascii_of_string_of_list_ascii -list_fmap_compose.
  induction Hl as [|b l Hb _ IH]; [done|]. rw fmap_cons IH. f_equal.
  rw /compose. rw Ascii.N_ascii_embedding; unfold is_byte in *; lia.
Qed.

Lemma bytes_are_bytes s : Forall is_byte (bytes s).
Proof.
  rw /bytes. apply Forall_fmap, Forall_true => a. rw /is_byte /=.
  pose proof (Ascii.N_ascii_bounded a). lia.
Qed.

Lemma of_bytes_inj l1 l2 :
  Forall is_byte l1 → Forall is_byte l2 → of_bytes l1 = of_bytes l2 → l1 = l2.
Proof. intros H1 H2 H. by rw -(bytes_of_bytes l1 H1) -(bytes_of_bytes l2 H2) H. Qed.

Ltac byte_cases :=
  repeat match goal with
  | |- context [if between ?a ?b ?c then _ else _] =>
      first [rw (between_true a b c); [lia|] | rw (between_false a b c); [lia|]]
  | |- context [if ?a <? ?b then _ else _] =>
      first [rw (proj2 (Z.ltb_lt a b)); [lia|] | rw (proj2 (Z.ltb_ge a b)); [lia|]]
  | |- context [if ?a =? ?b then _ else _] => destruct (Z.eqb_spec a b)
  end.

Lemma valid_rune_spec r : valid_rune r = true ↔ 0 ≤ r ≤ 0xD7FF ∨ 0xE000 ≤ r ≤ 0x10FFFF.
Proof. by rw /valid_rune orb_true_iff !between_spec. Qed.

(** Decoding reads back the rune that was encoded, and exactly its bytes. *)
Lemma decode_encode r :
  valid_rune r = true →
  ∃ b t, encode r = b :: t ∧ ∀ l, decode b (t ++ l) = (r, length t).
Proof.
  intros Hv. rw /encode Hv /=. apply valid_rune_spec in Hv.
  destruct (Z.ltb_spec r 0x80); [|destruct (Z.ltb_spec r 0x800); [|destruct (Z.ltb_spec r 0x10000)]].
  - eexists _, _; split; [done|]. intros l. rw /decode. by byte_cases.
  - eexists _, _; split; [done|]. intros l. rw /decode /cont /=.
    Z.div_mod_to_equations. byte_cases. f_equal; lia.
  - eexists _, _; split; [done|]. intros l. rw /decode /cont /=.
    Z.div_mod_to_equations. byte_cases; rw !between_true /=; try lia; f_equal; lia.
  - eexists _, _; split; [done|]. intros l. rw /decode /cont /=.
    Z.div_mod_to_equations. byte_cases; rw !between_true /=; try lia; f_equal; lia.
Qed.

Lemma encode_bytes r : Forall is_byte (encode r).
Proof.
  rw /encode. destruct (valid_rune r) eqn:Hv; simpl; [|by repeat constructor; rw /is_byte].
  apply valid_rune_spec in Hv. unfold is_byte.
  destruct (Z.ltb_spec r 0x80); [|destruct (Z.ltb_spec r 0x800); [|destruct (Z.ltb_spec r 0x10000)]];
    Z.div_mod_to_equations; repeat constructor; lia.
Qed.

Lemma encode_all_bytes rs : Forall is_byte (encode_all rs).
Proof.
  induction rs as [|r rs IH]; [constructor|]. rw /encode_all bind_cons.
  apply Forall_app; split; [apply encode_bytes | apply IH].
Qed.

Lemma chunks_skip t l : chunks_from (length t) (t ++ l) = chunks_from 0 l.
Proof. by induction t. Qed.

Lemma chunks_encode_all rs :
  Forall (λ r, valid_rune r = true) rs →
  chunks (encode_all rs) = (λ r, (r, encode r)) <$> rs.
Proof.
  rw /chunks. induction 1 as [|r rs Hr _ IH]; [done|].
  rw /encode_all bind_cons fmap_cons -/(encode_all rs).
  destruct (decode_encode r Hr) as (b & t & -> & Hd).
  rw /= Hd chunks_skip IH. do 3 f_equal. by rw take_app_length.
Qed.

Lemma bytes_text rs : bytes (text rs) = encode_all rs.
Proof. apply bytes_of_bytes, encode_all_bytes. Qed.

Lemma chunks_text rs :
  Forall (λ r, valid_rune r = true) rs →
  chunks (bytes (text rs)) = (λ r, (r, encode r)) <$> rs.
Proof. intros. by rw bytes_text chunks_encode_all. Qed.

(** UTF-8 round trip on whole strings. *)
Lemma runes_text rs : Forall (λ r, valid_rune r = true) rs → runes (text rs) = rs.
Proof. intros. rw /runes chunks_text // -list_fmap_compose. apply list_fmap_id. Qed.

Lemma decode_valid b l : 0 ≤ b → valid_rune (decode b l).1 = true.
Proof.
  intros Hb. rw valid_rune_spec /decode.
  destruct (Z.ltb_spec b 0x80); simpl; [lia|].
  repeat first
    [ case_match; simplify_eq/=
    | match goal with
      | H : _ && _ = true |- _ => apply andb_true_iff in H as []
      | H : between _ _ _ = true |- _ => apply between_spec in H
      | H : cont _ = true |- _ => apply between_spec in H
      | H : (_ =? _) = true |- _ => apply Z.eqb_eq in H
      | H : (_ =? _) = false |- _ => apply Z.eqb_neq in H
      end ]; simpl; rw /RuneError; lia.
Qed.

Lemma chunks_valid k l : Forall is_byte l → Forall (λ r, valid_rune r = true) (chunks_from k l).*1.
Proof.
  intros Hl. revert k. induction Hl as [|b l Hb _ IH]; intros [|k]; simpl; [done..| |apply IH].
  destruct (decode b l) as [r n] eqn:Hd. constructor; [|apply IH].
  change r with (r, n).1. rw -Hd. apply decode_valid. unfold is_byte in Hb. lia.
Qed.

Lemma runes_valid s : Forall (λ r, valid_rune r = true) (runes s).
Proof. apply chunks_valid, bytes_are_bytes. Qed.

(** ** Trimming, splitting and joining runes *)

Lemma fields_from_fmap {A B} (f : A → B) (p : B → bool) (acc cs : list A) :
  fields_from p (f <$> acc) (f <$> cs) = (λ w : list A, f <$> w) <$> fields_from (λ a, p (f a)) acc cs.
Proof.
  revert acc. induction cs as [|c cs IH]; intros acc; [by destruct acc|].
  rw fmap_cons /=. destruct (p (f c)).
  - destruct acc; simpl; [apply (IH [])|]. f_equal. apply (IH []).
  - rw -IH fmap_app. done.
Qed.

Lemma drop_while_fmap {A B} (f : A → B) (p : B → bool) (cs : list A) :
  drop_while p (f <$> cs) = f <$> drop_while (λ a, p (f a)) cs.
Proof. induction cs as [|c cs IH]; [done|]. rw fmap_cons /=. by destruct (p (f c)). Qed.

Lemma trim_fmap {A B} (f : A → B) (p : B → bool) (cs : list A) :
  trim p (f <$> cs) = f <$> trim (λ a, p (f a)) cs.
Proof. by rw /trim drop_while_fmap -fmap_reverse drop_while_fmap -fmap_reverse. Qed.

Lemma mjoin_chunks rs : mjoin ((λ r, (r, encode r)) <$> rs).*2 = encode_all rs.
Proof. rw -list_fmap_compose. induction rs as [|r rs IH]; [done|]. rw fmap_cons /= IH. done. Qed.

Lemma Fields_text rs :
  Forall (λ r, valid_rune r = true) rs →
  Fields (text rs) = text <$> fields_from IsSpace [] rs.
Proof.
  intros Hrs. rw /Fields chunks_text //.
  rw (fields_from_fmap (λ r, (r, encode r)) (λ c : Z * list Z, IsSpace c.1) []) -list_fmap_compose.
  apply list_fmap_ext. intros _ w _. by rw /compose mjoin_chunks.
Qed.

Lemma TrimSpace_text rs :
  Forall (λ r, valid_rune r = true) rs → TrimSpace (text rs) = text (trim IsSpace rs).
Proof.
  intros Hrs. rw /TrimSpace chunks_text // (trim_fmap _ (λ c : Z * list Z, IsSpace c.1)).
  by rw mjoin_chunks.
Qed.

Lemma encode_all_app r1 r2 : encode_all (r1 ++ r2) = encode_all r1 ++ encode_all r2.
Proof. apply bind_app. Qed.

Lemma string_app_nil_r (s : string) : (s +:+ "")%string = s.
Proof. induction s as [|a s IH]; [done|]. change (String a (s +:+ "") = String a s). by rw IH. Qed.

Lemma of_bytes_app l1 l2 : of_bytes (l1 ++ l2) = (of_bytes l1 +:+ of_bytes l2)%string.
Proof. induction l1 as [|b l1 IH]; [done|]. rw /of_bytes /= in IH |- *. by rw IH. Qed.

Lemma text_app r1 r2 : text (r1 ++ r2) = (text r1 +:+ text r2)%string.
Proof. by rw /text encode_all_app of_bytes_app. Qed.

(** [ws] separated by [sep]. *)
Fixpoint intercalate {A} (sep : list A) (ws : list (list A)) : list A :=
  match ws with
  | [] => []
  | [w] => w
  | w :: ws' => w ++ sep ++ intercalate sep ws'
  end.

Lemma Join_text ws sep : Join (text <$> ws) (text sep) = text (intercalate sep ws).
Proof.
  rw /Join. induction ws as [|w [|w' ws'] IH]; [done..|].
  change (intercalate sep (w :: w' :: ws')) with (w ++ sep ++ intercalate sep (w' :: ws')).
  rw !text_app -IH. done.
Qed.

(** A list of words: non-empty runs without a separator. *)
Definition are_words {A} (space : A → bool) (ws : list (list A)) : Prop :=
  Forall (λ w, w ≠ [] ∧ Forall (λ a, space a = false) w) ws.

Lemma fields_are_words {A} (space : A → bool) cs : are_words space (fields_from space [] cs).
Proof.
  assert (∀ acc, Forall (λ a, space a = false) acc → are_words space (fields_from space acc cs)) as H.
  { induction cs as [|c cs IH]; intros acc Hacc; simpl.
    - destruct acc; repeat constructor; try done; by inversion Hacc.
    - destruct (space c) eqn:Hc.
      + destruct acc; [by apply IH|]. constructor; [done|]. by apply IH.
      + apply IH. apply Forall_app; split; [done|]. by repeat constructor. }
  by apply H.
Qed.

Lemma fields_from_subset {A} (space : A → bool) (P : A → Prop) acc cs :
  Forall P acc → Forall (λ a, space a = false → P a) cs → Forall (Forall P) (fields_from space acc cs).
Proof.
  intros Hacc Hcs. revert acc Hacc. induction Hcs as [|c cs Hc _ IH]; intros acc Hacc; simpl.
  - destruct acc; [constructor|]. constructor; [done|constructor].
  - destruct (space c) eqn:E.
    + destruct acc; [by apply IH|]. constructor; [done|]. by apply IH.
    + apply IH, Forall_app; split; [done|]. repeat constructor. by apply Hc.
Qed.

Lemma fields_from_word {A} (space : A → bool) acc w cs :
  Forall (λ a, space a = false) w → fields_from space acc (w ++ cs) = fields_from space (acc ++ w) cs.
Proof.
  intros Hw. revert acc. induction Hw as [|a w Ha _ IH]; intros acc; [by rw app_nil_r|].
  rw /= Ha IH -app_assoc. done.
Qed.

(** Splitting undoes joining. *)
Lemma fields_intercalate {A} (space : A → bool) sp ws :
  space sp = true → are_words space ws → fields_from space [] (intercalate [sp] ws) = ws.
Proof.
  intros Hsp. induction 1 as [|w ws [Hne Hw] Hws IH]; [done|].
  destruct ws as [|w' ws'].
  - rw /= -(app_nil_r w) fields_from_word // /= app_nil_r. by destruct w.
  - change (intercalate [sp] (w :: w' :: ws')) with (w ++ sp :: intercalate [sp] (w' :: ws')).
    rw fields_from_word // /= Hsp IH. by destruct w.
Qed.

Lemma drop_while_head {A} (p : A → bool) cs :
  (∀ c, head cs = Some c → p c = false) → drop_while p cs = cs.
Proof. destruct cs as [|c cs]; [done|]. intros H. by rw /= (H c). Qed.

Lemma trim_id {A} (p : A → bool) cs :
  (∀ c, head cs = Some c → p c = false) → (∀ c, last cs = Some c → p c = false) → trim p cs = cs.
Proof.
  intros Hh Hl. rw /trim (drop_while_head p cs Hh) (drop_while_head p (reverse cs)) ?reverse_involutive //.
  intros c. by rw head_reverse => /Hl.
Qed.

Lemma intercalate_head {A} (space : A → bool) sep ws c :
  are_words space ws → head (intercalate sep ws) = Some c → space c = false.
Proof.
  intros [|w ws' [Hne Hw] _]; [done|]. destruct w as [|a w]; [done|].
  destruct ws'; simpl; intros [= <-]; by inversion Hw.
Qed.

Lemma intercalate_last {A} (space : A → bool) sep ws c :
  are_words space ws → last (intercalate sep ws) = Some c → space c = false.
Proof.
  intros H. revert c. induction H as [|w ws [Hne Hw] Hws IH]; intros c; [done|].
  destruct ws as [|w' ws'].
  - simpl. intros Hc. apply (proj1 (Forall_forall _ _) Hw). by apply last_Some_elem_of.
  - change (intercalate sep (w :: w' :: ws')) with (w ++ sep ++ intercalate sep (w' :: ws')).
    rw app_assoc last_app. destruct (last (intercalate sep (w' :: ws'))) eqn:E; [by intros [= <-]; apply IH|].
    exfalso. apply last_None in E. inversion Hws as [|?? [Hne' _] _]; subst.
    destruct w'; [done|]. by destruct ws'.
Qed.

(** No two adjacent separators in a list of words joined by one. *)
Lemma intercalate_single {A} (space : A → bool) sp ws i :
  space sp = true → are_words space ws →
  intercalate [sp] ws !! i = Some sp → intercalate [sp] ws !! S i ≠ Some sp.
Proof.
  intros Hsp Hws. revert i. induction Hws as [|w ws [Hne Hw] Hws IH]; intros i; [done|].
  assert (∀ j, w !! j ≠ Some sp) as Hnot.
  { intros j Hj. pose proof (Forall_lookup_1 _ _ _ _ Hw Hj). congruence. }
  destruct ws as [|w' ws']; [by intros ?%Hnot|].
  change (intercalate [sp] (w :: w' :: ws')) with (w ++ sp :: intercalate [sp] (w' :: ws')).
  set (rest := intercalate [sp] (w' :: ws')) in *.
  destruct (decide (i < length w)%nat) as [Hi|Hi].
  { rw lookup_app_l //. by intros ?%Hnot. }
  rw lookup_app_r; [lia|]. rw lookup_app_r; [lia|]. replace (S i - length w)%nat with (S (i - length w)) by lia.
  destruct (i - length w)%nat as [|j]; [intros _|apply IH].
  rw /= -head_lookup. intros Hh. apply (intercalate_head space) in Hh; [congruence|done].
Qed.

(** ** The tables above Latin-1 *)

Class UnicodeLaws `{Unicode} : Prop := {
  high_lower_valid r : 0xFF < r → valid_rune r = true → valid_rune (high_lower r) = true;
  high_lower_idem r : 0xFF < r → valid_rune r = true → ToLowerRune (high_lower r) = high_lower r;
  high_class_not_space r : 0xFF < r → high_letter r || high_number r = true → IsSpace r = false;
}.

(** The tables cut off after Latin-1, for concrete runs. *)
Definition latin1 : Unicode := {|
  high_letter _ := false;
  high_number _ := false;
  high_lower r := r;
  high_upper r := r;
|}.

Lemma latin1_laws : @UnicodeLaws latin1.
Proof.
  split; [done| |done]. intros r Hr _. rw /ToLowerRune.
  by rw (proj2 (Z.leb_gt r 0xFF) Hr).
Qed.

Section unicode_laws.
Context `{UnicodeLaws}.

Ltac range_cases :=
  repeat match goal with
  | H : _ || _ = true |- _ => apply orb_true_iff in H as [|]
  | H : between _ _ _ = true |- _ => apply between_spec in H
  | H : (_ =? _) = true |- _ => apply Z.eqb_eq in H
  end.

Lemma ToLowerRune_valid r : valid_rune r = true → valid_rune (ToLowerRune r) = true.
Proof.
  intros Hr. rw /ToLowerRune. destruct (Z.leb_spec r 0xFF); [|by apply high_lower_valid].
  case_match; [|done]. rw valid_rune_spec. range_cases; lia.
Qed.

Lemma ToLowerRune_idem r : valid_rune r = true → ToLowerRune (ToLowerRune r) = ToLowerRune r.
Proof.
  intros Hr. destruct (Z.leb_spec r 0xFF) as [Hle|Hgt]; cycle 1.
  { rw {2 3}/ToLowerRune (proj2 (Z.leb_gt r 0xFF) Hgt). by apply high_lower_idem. }
  rw {2 3}/ToLowerRune (proj2 (Z.leb_le r 0xFF) Hle).
  destruct (_ || _) eqn:E; rw /ToLowerRune; [|by rw E (proj2 (Z.leb_le r 0xFF) Hle)].
  range_cases; (rw (proj2 (Z.leb_le (r + 32) 0xFF)); [lia|]);
    rw !between_false; first [done | lia].
Qed.

Lemma alnum_not_space r : IsLetter r || IsNumber r = true → IsSpace r = false.
Proof.
  rw /IsLetter /IsNumber. destruct (Z.leb_spec r 0xFF); [|by apply high_class_not_space].
  intros Hc. apply not_true_iff_false => Hs. rw /IsSpace in Hs. range_cases; lia.
Qed.
End unicode_laws.

Lemma space_not_alnum `{Unicode} : IsLetter 32 || IsNumber 32 = false.
Proof. reflexivity. Qed.
