(* ===== verification/Errors.v ===== *)
(** The error values of the program: the sentinels that callers compare with
    [errors.Is], the typed errors they look for with [errors.As], and
    [fmt.Errorf("...: %w", err)], the only wrapping the program does. *)
From S2P Require Import Prelude GoStrings.
Local Open Scope Z_scope.

Inductive error : Type :=
| ErrorString (text : string)                                (* errors.New at the place of use *)
| ErrUnsupportedOperation                                    (* internal/transfer/provider.go *)
| ErrInvalidProvider                                         (* internal/transfer/service.go *)
| ErrPreviewNotFound | ErrRunNotFound | ErrSourceSnapshotNotFound  (* internal/transfer/store.go *)
| ErrPlaylistChanged | ErrPlaylistTooLarge                   (* internal/spotify/playlists.go *)
| ErrImportNotFound | ErrTooManyImports                      (* internal/spotify/imports.go *)
| SpotifyErrNoConnection                                     (* internal/spotify/store.go *)
| AppleErrNoConnection                                       (* internal/applemusic/store.go *)
| SpotifyProviderError (Status RetryAfter : Z) (Reconnect : bool)  (* internal/spotify/client.go *)
| AppleProviderError (Status RetryAfter : Z)                 (* internal/applemusic/client.go *)
| RateLimitError (RetryAfter : Z)                            (* internal/transfer/provider.go *)
| ErrNoRows                                                  (* pgx *)
| DatabaseError (text : string)                              (* any other error of pgx *)
| DeadlineExceeded                                           (* the context of the call *)
| ErrServerClosed                                            (* net/http *)
| Wrapped (text : string) (err : error).                     (* fmt.Errorf("text: %w", err) *)

#[export] Instance error_eq_dec : EqDecision error.
Proof. solve_decision. Defined.

Abbreviation result A := (res error A).

(** [errors.Is(err, target)] for a sentinel [target]. *)
Fixpoint errors_Is (err target : error) : bool :=
  bool_decide (err = target) ||
  match err with Wrapped _ err' => errors_Is err' target | _ => false end.

(** [errors.As(err, &rateLimit)]. *)
Fixpoint errors_As_RateLimit (err : error) : option Z :=
  match err with
  | RateLimitError d => Some d
  | Wrapped _ err' => errors_As_RateLimit err'
  | _ => None
  end.

(** [errors.As(err, &upstream)] for [*spotify.ProviderError]. *)
Fixpoint errors_As_Spotify (err : error) : option (Z * Z * bool) :=
  match err with
  | SpotifyProviderError st ra rc => Some (st, ra, rc)
  | Wrapped _ err' => errors_As_Spotify err'
  | _ => None
  end.

(** [errors.As(err, &upstream)] for [*applemusic.ProviderError]. *)
Fixpoint errors_As_Apple (err : error) : option (Z * Z) :=
  match err with
  | AppleProviderError st ra => Some (st, ra)
  | Wrapped _ err' => errors_As_Apple err'
  | _ => None
  end.

(** What a River worker's [Work] tells the queue. *)
Inductive work_result : Type :=
| WorkDone                         (* nil *)
| WorkRetry (err : error)          (* any other error: River retries with backoff *)
| WorkCancel (err : error)         (* river.JobCancel(err): never retried *)
| WorkSnooze (delay : Z).          (* river.JobSnooze(delay) *)

Definition nanosecond : Z := 1.
Definition Second : Z := 1000000000.
Definition Minute : Z := 60 * Second.

(** [err.Error()].  The delay of a rate limit is shown in whole seconds. *)
Fixpoint errorText (err : error) : string :=
  match err with
  | ErrorString text | DatabaseError text => text
  | ErrUnsupportedOperation => "operation_unsupported"
  | ErrInvalidProvider => "invalid_provider"
  | ErrPreviewNotFound => "transfer_preview_not_found"
  | ErrRunNotFound => "transfer_run_not_found"
  | ErrSourceSnapshotNotFound => "source_snapshot_not_found"
  | ErrPlaylistChanged => "playlist_changed_during_import"
  | ErrPlaylistTooLarge => "playlist_exceeds_import_limit"
  | ErrImportNotFound => "import_not_found"
  | ErrTooManyImports => "too_many_active_imports"
  | SpotifyErrNoConnection => "Spotify session missing or expired"
  | AppleErrNoConnection => "Apple Music connection missing or expired"
  | SpotifyProviderError status _ _ => "Spotify request failed (HTTP " +:+ Itoa status +:+ ")"
  | AppleProviderError status _ => "Apple Music request failed (HTTP " +:+ Itoa status +:+ ")"
  | RateLimitError delay =>
      if delay <=? 0 then "provider_rate_limited"
      else "provider_rate_limited_retry_after_" +:+ Itoa (delay / Second) +:+ "s"
  | ErrNoRows => "no rows in result set"
  | DeadlineExceeded => "context deadline exceeded"
  | ErrServerClosed => "http: Server closed"
  | Wrapped text err => text +:+ ": " +:+ errorText err
  end.

Lemma errors_Is_unfold err target :
  errors_Is err target =
  bool_decide (err = target) || match err with Wrapped _ err' => errors_Is err' target | _ => false end.
Proof. by destruct err. Qed.

Lemma errors_Is_refl err : errors_Is err err = true.
Proof. by rw errors_Is_unfold bool_decide_true. Qed.

Lemma errors_Is_sentinel err target :
  (∀ t e, err ≠ Wrapped t e) → errors_Is err target = bool_decide (err = target).
Proof.
  intros H. rw errors_Is_unfold. destruct err; rw ?orb_false_r //. by destruct (H text err).
Qed.
