(* ===== verification/Json.v ===== *)
(** The part of encoding/json the program uses: documents as trees, the
    coercion of strings to valid UTF-8 that Marshal performs, [omitempty], and
    the field decoders of Unmarshal (a missing field or null leaves the zero
    value, a value of another kind is an error).  Times are kept as the instant
    that their RFC 3339 text denotes. *)
From S2P Require Import Prelude GoStrings Errors.
Local Open Scope string_scope.
Local Open Scope list_scope.
Local Open Scope Z_scope.

Inductive json : Type :=
| JNull
| JBool (b : bool)
| JInt (z : Z)
| JString (s : string)
| JTime (t : Z)
| JArray (l : list json)
| JObject (fields : list (string * json)).

Definition json_error : error := ErrorString "json: cannot unmarshal".

(** ** Encoding *)

(** Marshal replaces every invalid byte by U+FFFD. *)
Definition validText (s : string) : string := text (runes s).
Definition marshalString (s : string) : json := JString (validText s).
Definition marshalSlice {A} (f : A → json) (s : slice A) : json :=
  match s with None => JNull | Some l => JArray (f <$> l) end.
Definition marshalPtr {A} (f : A → json) (p : option A) : json :=
  match p with None => JNull | Some a => f a end.
(** Keys are written in byte order. *)
Definition marshalMap (m : gmap string string) : json :=
  JObject ((λ kv : string * string, (validText kv.1, marshalString kv.2)) <$>
    sort_by str_ltb fst (map_to_list m)).

(** A field tagged [omitempty] is left out when [empty]. *)
Definition omitempty (empty : bool) (k : string) (v : json) : list (string * json) :=
  if empty then [] else [(k, v)].

(** ** Decoding *)

Fixpoint getField (fs : list (string * json)) (k : string) : json :=
  match fs with
  | [] => JNull
  | (k', v) :: fs' => if bool_decide (k' = k) then v else getField fs' k
  end.

Definition unmarshalString (j : json) : result string :=
  match j with JString s => Ok s | JNull => Ok "" | _ => Err json_error end.
Definition unmarshalInt (j : json) : result Z :=
  match j with
  | JInt z => if bool_decide (is_int z) then Ok z else Err json_error
  | JNull => Ok 0
  | _ => Err json_error
  end.
Definition unmarshalBool (j : json) : result bool :=
  match j with JBool b => Ok b | JNull => Ok false | _ => Err json_error end.
Definition unmarshalTime (j : json) : result Z :=
  match j with JTime t => Ok t | JNull => Ok 0 | _ => Err json_error end.

Definition res_bind {A B} (r : result A) (k : A → result B) : result B :=
  match r with Ok a => k a | Err e => Err e end.
Notation "'let*' x := r 'in' k" := (res_bind r (λ x, k))
  (at level 10, x name, k at level 200) : go_scope.
Local Open Scope go_scope.

Fixpoint mapResult {A B} (f : A → result B) (l : list A) : result (list B) :=
  match l with
  | [] => Ok []
  | a :: l' => let* b := f a in let* bs := mapResult f l' in Ok (b :: bs)
  end.

Definition unmarshalSlice {A} (f : json → result A) (j : json) : result (slice A) :=
  match j with
  | JNull => Ok None
  | JArray l => let* xs := mapResult f l in Ok (Some xs)
  | _ => Err json_error
  end.
Definition unmarshalPtr {A} (f : json → result A) (j : json) : result (option A) :=
  match j with JNull => Ok None | _ => let* a := f j in Ok (Some a) end.
Definition unmarshalMap (j : json) : result (gmap string string) :=
  match j with
  | JNull => Ok ∅
  | JObject fs =>
      let* kvs := mapResult (λ kv : string * json, let* v := unmarshalString kv.2 in Ok (kv.1, v)) fs in
      Ok (list_to_map kvs)
  | _ => Err json_error
  end.
(** The fields of a struct; null is the struct's zero value. *)
Definition fieldsOf (j : json) : result (list (string * json)) :=
  match j with JObject fs => Ok fs | JNull => Ok [] | _ => Err json_error end.

(** ** Round trips *)

Lemma res_bind_Ok {A B} (r : result A) (k : A → result B) a b :
  r = Ok a → k a = b → res_bind r k = b.
Proof. by intros ->. Qed.

Lemma res_bind_inv {A B} (r : result A) (k : A → result B) b :
  res_bind r k = Ok b → ∃ a, r = Ok a ∧ k a = Ok b.
Proof. destruct r as [a|]; [by exists a|done]. Qed.

Definition valid_string (s : string) : Prop := validText s = s.

Lemma text_valid rs : Forall (λ r, valid_rune r = true) rs → valid_string (text rs).
Proof. intros Hrs. by rw /valid_string /validText runes_text. Qed.

Lemma validText_valid s : valid_string (validText s).
Proof. apply text_valid, runes_valid. Qed.

Lemma unmarshalString_marshal s : valid_string s → unmarshalString (marshalString s) = Ok s.
Proof. by rw /= => ->. Qed.

Lemma unmarshalInt_marshal z : is_int z → unmarshalInt (JInt z) = Ok z.
Proof. intros. by rw /= bool_decide_true. Qed.

Lemma mapResult_fmap {A B C} (f : B → result C) (g : A → B) (h : A → C) (l : list A) :
  Forall (λ a, f (g a) = Ok (h a)) l → mapResult f (g <$> l) = Ok (h <$> l).
Proof. induction 1 as [|a l Ha _ IH]; [done|]. by rw fmap_cons /= Ha /= IH. Qed.

Lemma unmarshalSlice_marshal {A} (f : A → json) (g : json → result A) (s : slice A) :
  Forall (λ a, g (f a) = Ok a) (elems s) → unmarshalSlice g (marshalSlice f s) = Ok s.
Proof.
  destruct s as [l|]; [|done]. intros Hl. rw /= (mapResult_fmap g f id l Hl) /=.
  by rw list_fmap_id.
Qed.

Lemma unmarshalPtr_marshal {A} (f : A → json) (g : json → result A) (p : option A) :
  (∀ a, p = Some a → f a ≠ JNull ∧ g (f a) = Ok a) → unmarshalPtr g (marshalPtr f p) = Ok p.
Proof.
  destruct p as [a|]; [|done]. intros Ha. destruct (Ha a eq_refl) as [Hn Hg].
  rw /unmarshalPtr /=. destruct (f a) eqn:E; try done; by rw Hg.
Qed.

Definition valid_map (m : gmap string string) : Prop :=
  map_Forall (λ k v, valid_string k ∧ valid_string v) m.

Lemma unmarshalMap_marshal m : valid_map m → unmarshalMap (marshalMap m) = Ok m.
Proof.
  intros Hm. rw /unmarshalMap /marshalMap (mapResult_fmap _ _ id).
  - apply Forall_forall. intros [k v]. rw sort_by_perm elem_of_map_to_list => Hk.
    destruct (Hm k v Hk) as [Hkv Hvv]. by rw /= Hkv Hvv.
  - rw list_fmap_id. cbn [res_bind]. f_equal.
    rw (list_to_map_proper _ (map_to_list m)); [|apply sort_by_perm|apply list_to_map_to_list].
    rw sort_by_perm. apply NoDup_fst_map_to_list.
Qed.

Lemma getField_omit (empty : bool) k v fs k' :
  getField (omitempty empty k v ++ fs) k' =
  if bool_decide (k = k') then if empty then getField fs k' else v else getField fs k'.
Proof. destruct empty; simpl; [by case_bool_decide|done]. Qed.

Lemma getField_cons k v fs k' :
  getField ((k, v) :: fs) k' = if bool_decide (k = k') then v else getField fs k'.
Proof. done. Qed.
