(* ===== verification/Http.v ===== *)
(** HTTP as the two provider clients use it: requests and responses, the
    reading of Retry-After, and the status discipline both clients share.

    A request keeps its query as the pairs given to url.Values, which Encode
    then sorts and escapes, and its path before url.PathEscape.  A response carries what decoding its body (limited
    to one MiB) yields: no document where the text is not JSON. *)
From S2P Require Import Prelude GoStrings Errors Json.
Local Open Scope string_scope.
Local Open Scope list_scope.
Local Open Scope Z_scope.

Inductive RequestBody : Type :=
| NoBody
| FormBody (fields : list (string * string))
| JsonBody (document : json).

Record Request : Type := MkRequest {
  req_method : string;
  req_url : string;
  req_query : list (string * string);
  req_headers : list (string * string);
  req_body : RequestBody;
}.

Record Response : Type := MkResponse {
  resp_status : Z;
  resp_retry_after : string;      (* the Retry-After header, "" when absent *)
  resp_body : option json;
}.

(** ** strconv.Atoi *)

Definition digit (b : Z) : option Z := if between 48 57 b then Some (b - 48) else None.

Fixpoint digits (acc : Z) (bs : list Z) : option Z :=
  match bs with
  | [] => Some acc
  | b :: bs => d ← digit b; digits (acc * 10 + d) bs
  end.

(** The number that [Atoi] returns: 0 on a syntax error, and the nearest
    [int] on a range error. *)
Definition Atoi (s : string) : Z :=
  let unsigned bs := match bs with [] => None | _ => digits 0 bs end in
  let n := match bytes s with
           | 43 :: bs => unsigned bs
           | 45 :: bs => z ← unsigned bs; Some (- z)
           | bs => unsigned bs
           end in
  match n with None => 0 | Some z => Z.max min_int (Z.min max_int z) end.

(** [retry, _ := strconv.Atoi(...); if retry < 0 || retry > 86400 { retry = 0 }]. *)
Definition retryAfter (header : string) : Z :=
  let retry := Atoi header in
  if (retry <? 0) || (86400 <? retry) then 0 else retry.

Lemma retryAfter_bounds header : 0 ≤ retryAfter header ≤ 86400.
Proof. rw /retryAfter. destruct ((_ <? 0) || _) eqn:E; lia. Qed.

Lemma seconds_no_overflow z : 0 ≤ z ≤ 86400 → wrap64 (z * Second) = z * Second.
Proof. intros Hz. apply wrap64_id. rw /is_int /min_int /max_int /Second. lia. Qed.

(** [strings.EqualFold] against a word of ASCII letters that have no folding
    partners outside ASCII. *)
Definition asciiLower (b : Z) : Z := if between 65 90 b then b + 32 else b.
Definition EqualFold (s t : string) : bool := bool_decide (asciiLower <$> bytes s = asciiLower <$> bytes t).

Example Atoi_examples :
  Atoi "120" = 120 ∧ Atoi "-5" = -5 ∧ Atoi "Wed, 21 Oct" = 0 ∧ Atoi "" = 0 ∧
  Atoi "99999999999999999999" = max_int ∧ EqualFold "bearer" "Bearer" = true.
Proof. vm_compute. by split_and!. Qed.
