(* ===== verification/Sha256.v ===== *)
(** crypto/sha256, encoding/hex and encoding/base64 as the sessions and the PKCE
    challenge use them: the hash function of FIPS 180-4 on bytes, and the two
    encodings of its digest. *)
From S2P Require Import Prelude GoStrings.
Local Open Scope list_scope.
Local Open Scope Z_scope.

(** ** 32-bit words *)

Definition word (z : Z) : Z := z `mod` 2 ^ 32.
Definition rotr (x n : Z) : Z := Z.lor (Z.shiftr x n) (word (Z.shiftl x (32 - n))).
Definition xor3 (x y z : Z) : Z := Z.lxor (Z.lxor x y) z.

Definition bigSigma0 x := xor3 (rotr x 2) (rotr x 13) (rotr x 22).
Definition bigSigma1 x := xor3 (rotr x 6) (rotr x 11) (rotr x 25).
Definition smallSigma0 x := xor3 (rotr x 7) (rotr x 18) (Z.shiftr x 3).
Definition smallSigma1 x := xor3 (rotr x 17) (rotr x 19) (Z.shiftr x 10).
Definition Ch x y z := Z.lxor (Z.land x y) (Z.land (Z.lxor x (2 ^ 32 - 1)) z).
Definition Maj x y z := xor3 (Z.land x y) (Z.land x z) (Z.land y z).

(** The constants are the first 32 bits of the fractional parts of roots of the
    first primes; they are computed from this definition. *)
Definition isPrime (n : nat) : bool := forallb (λ d, negb (n mod d =? 0)%nat) (seq 2 (n - 2)).
Definition primesUpTo (n : nat) : list Z := Z.of_nat <$> filter (λ p, isPrime p = true) (seq 2 (n - 1)).

(** The largest [r < 2 ^ bits] above [acc] with [r ^ 3 <= n], bit by bit. *)
Fixpoint cubeRootFrom (bits : nat) (acc n : Z) : Z :=
  match bits with
  | O => acc
  | S b => let r := acc + 2 ^ Z.of_nat b in cubeRootFrom b (if r ^ 3 <=? n then r else acc) n
  end.
Definition cubeRoot (n : Z) : Z := cubeRootFrom 36 0 n.

Definition roundConstants : list Z :=
  Eval vm_compute in (λ p, word (cubeRoot (p * 2 ^ 96))) <$> primesUpTo 311.

(** The eight working variables. *)
Record Digest : Type := MkDigest { h0 : Z; h1 : Z; h2 : Z; h3 : Z; h4 : Z; h5 : Z; h6 : Z; h7 : Z }.
Definition initialDigest : Digest :=
  Eval vm_compute in
  match (λ p, word (Z.sqrt (p * 2 ^ 64))) <$> primesUpTo 19 with
  | [a; b; c; d; e; f; g; h] => MkDigest a b c d e f g h
  | _ => MkDigest 0 0 0 0 0 0 0 0
  end.

(** ** Blocks *)

Definition beWord (bs : list Z) : Z := foldl (λ acc b, 256 * acc + b) 0 bs.
Definition beBytes (n : nat) (z : Z) : list Z :=
  (λ i : nat, Z.shiftr z (8 * Z.of_nat (n - 1 - i)) `mod` 256) <$> seq 0 n.

Fixpoint groups (fuel n : nat) (l : list Z) : list (list Z) :=
  match fuel, l with
  | _, [] => []
  | O, _ => []
  | S fuel, _ => take n l :: groups fuel n (drop n l)
  end.

(** One bit 1, zeros up to 56 modulo 64 bytes, the length in bits. *)
Definition pad (bs : list Z) : list Z :=
  let n := Z.of_nat (length bs) in
  bs ++ [0x80] ++ replicate (Z.to_nat ((55 - n) `mod` 64)) 0 ++ beBytes 8 (8 * n).

(** The message schedule, newest word first. *)
Fixpoint extend (n : nat) (w : list Z) : list Z :=
  match n with
  | O => w
  | S n =>
      let at_ i := nth i w 0 in
      extend n (word (smallSigma1 (at_ 1%nat) + at_ 6%nat + smallSigma0 (at_ 14%nat) + at_ 15%nat) :: w)
  end.
Definition schedule (block : list Z) : list Z := rev (extend 48 (rev (beWord <$> groups 16 4 block))).

Definition round (d : Digest) (kw : Z * Z) : Digest :=
  let '(MkDigest a b c d e f g h) := d in
  let t1 := h + bigSigma1 e + Ch e f g + kw.1 + kw.2 in
  let t2 := bigSigma0 a + Maj a b c in
  MkDigest (word (t1 + t2)) a b c (word (d + t1)) e f g.

Definition compress (d : Digest) (block : list Z) : Digest :=
  let d' := foldl round d (zip roundConstants (schedule block)) in
  MkDigest (word (h0 d + h0 d')) (word (h1 d + h1 d')) (word (h2 d + h2 d')) (word (h3 d + h3 d'))
    (word (h4 d + h4 d')) (word (h5 d + h5 d')) (word (h6 d + h6 d')) (word (h7 d + h7 d')).

Definition digestBytes (d : Digest) : list Z :=
  [h0 d; h1 d; h2 d; h3 d; h4 d; h5 d; h6 d; h7 d] ≫= beBytes 4.

(** [sha256.Sum256]. *)
Definition Sum256 (bs : list Z) : list Z :=
  let padded := pad bs in
  digestBytes (foldl compress initialDigest (groups (length padded) 64 padded)).

(** ** Encodings *)

Definition hexDigit (n : Z) : Z := if n <? 10 then 48 + n else 87 + n.

(** [hex.EncodeToString]. *)
Definition hexEncode (bs : list Z) : string :=
  of_bytes (bs ≫= λ b, [hexDigit (b / 16); hexDigit (b `mod` 16)]).

Definition base64Digit (n : Z) : Z :=
  if n <? 26 then 65 + n else if n <? 52 then 71 + n else if n <? 62 then n - 4 else if n =? 62 then 45 else 95.

(** [base64.RawURLEncoding.EncodeToString]: six bits at a time, no padding. *)
Fixpoint base64Groups (bs : list Z) : list Z :=
  match bs with
  | a :: b :: c :: rest =>
      [a / 4; 16 * (a `mod` 4) + b / 16; 4 * (b `mod` 16) + c / 64; c `mod` 64] ++ base64Groups rest
  | [a; b] => [a / 4; 16 * (a `mod` 4) + b / 16; 4 * (b `mod` 16)]
  | [a] => [a / 4; 16 * (a `mod` 4)]
  | [] => []
  end.
Definition base64RawURL (bs : list Z) : string := of_bytes (base64Digit <$> base64Groups bs).

(** ** Facts *)

Lemma length_beBytes n z : length (beBytes n z) = n.
Proof. by rw /beBytes length_fmap length_seq. Qed.

Lemma length_Sum256 bs : length (Sum256 bs) = 32%nat.
Proof. rw /Sum256 /digestBytes. cbn [mbind list_bind]. by rw !length_app !length_beBytes. Qed.

Lemma length_of_bytes l : String.length (of_bytes l) = length l.
Proof. rw /of_bytes. induction l as [|b l IH]; [done|]. cbn. by f_equal. Qed.

Lemma length_hexEncode bs : String.length (hexEncode bs) = (2 * length bs)%nat.
Proof. rw /hexEncode length_of_bytes. induction bs as [|b bs IH]; [done|]. cbn in *. lia. Qed.

(** The computed constants: as many as there are rounds, and exact roots. *)
Lemma cubeRootFrom_spec bits acc n :
  0 ≤ acc → acc ^ 3 ≤ n < (acc + 2 ^ Z.of_nat bits) ^ 3 →
  let r := cubeRootFrom bits acc n in 0 ≤ r ∧ r ^ 3 ≤ n < (r + 1) ^ 3.
Proof.
  revert acc. induction bits as [|b IH]; intros acc Ha Hn; [done|].
  cbn [cubeRootFrom]. assert (0 < 2 ^ Z.of_nat b) as Hpos by (apply Z.pow_pos_nonneg; lia).
  apply IH; [by destruct (_ <=? n); lia|].
  rw Nat2Z.inj_succ Z.pow_succ_r in Hn; [lia|]. destruct Hn as [Hlo Hhi].
  destruct (Z.leb_spec ((acc + 2 ^ Z.of_nat b) ^ 3) n) as [Hle|Hlt]; [|done]. split; [done|].
  by replace (acc + 2 ^ Z.of_nat b + 2 ^ Z.of_nat b) with (acc + 2 * 2 ^ Z.of_nat b) by lia.
Qed.

Lemma roundConstants_length : length roundConstants = 64%nat.
Proof. reflexivity. Qed.

(** Test vectors of FIPS 180-4 and RFC 7636 (appendix B). *)
Example Sum256_abc :
  hexEncode (Sum256 (bytes "abc")) = "ba7816bf8f01cfea414140de5dae2223b00361a396177a9cb410ff61f20015ad"%string.
Proof. vm_compute. reflexivity. Qed.

Example Sum256_two_blocks :
  hexEncode (Sum256 (bytes "abcdbcdecdefdefgefghfghighijhijkijkljklmklmnlmnomnopnopq")) =
  "248d6a61d20638b8e5c026930c3e6039a33ce45964ff2167f6ecedd419db06c1"%string.
Proof. vm_compute. reflexivity. Qed.

Example challenge_rfc7636 :
  base64RawURL (Sum256 (bytes "dBjftJeZ4CVP-mB92K27uhbUJU1p1r_wW1gFWFOEjXk")) = "E9Melhoa2OwvFrEMTJguCHaoeK1t8URWbuGJSstw-cM"%string.
Proof. vm_compute. reflexivity. Qed.
