(* ===== verification/WebServer.v ===== *)
(** net/http on the server side, as the handlers use it: requests, responses
    and the handlers' control flow; and the helpers that the three HTTP packages
    share in shape (internal/spotify/import_http.go, internal/transfer/http.go,
    internal/applemusic/http.go).

    A handler always answers: it is a function from the state to a response and
    the next state.  A request carries what the handlers read of it.  Its body
    is the first JSON document of the stream with the number of bytes up to the
    document's end, so that a size limit can cut it off. *)
From S2P Require Import Prelude GoStrings Errors Json Http Sha256.
Local Open Scope string_scope.
Local Open Scope list_scope.
Local Open Scope Z_scope.

(** ** Requests *)

Record HttpRequest : Type := MkHttpRequest {
  r_origin : string;                       (* r.Header.Get("Origin") *)
  r_cookies : list (string * string);
  r_query : list (string * string);        (* r.URL.Query(), decoded *)
  r_id : string;                           (* r.PathValue("id") *)
  r_body : option (Z * json);
  r_TLS : bool;                            (* r.TLS != nil *)
}.

Definition firstValue (l : list (string * string)) (key : string) : option string :=
  snd <$> List.find (λ kv, bool_decide (kv.1 = key)) l.

(** [r.Cookie(name)]: the first cookie of that name, or http.ErrNoCookie. *)
Definition r_Cookie (r : HttpRequest) (name : string) : option string := firstValue (r_cookies r) name.
(** [r.URL.Query().Get(key)]. *)
Definition queryGet (r : HttpRequest) (key : string) : string := default "" (firstValue (r_query r) key).

(** [json.NewDecoder(http.MaxBytesReader(w, r.Body, limit)).Decode(&input)]. *)
Definition decodeBody {A} (limit : Z) (decode : json → result A) (r : HttpRequest) : result A :=
  match r_body r with
  | None => Err json_error
  | Some (size, document) => if limit <? size then Err (ErrorString "http: request body too large") else decode document
  end.

(** ** Responses *)

Record Cookie : Type := MkCookie {
  Cookie_Name : string;
  Cookie_Value : string;
  Cookie_Path : string;
  Cookie_MaxAge : Z;
  Cookie_HttpOnly : bool;
  Cookie_Secure : bool;
  Cookie_SameSiteLax : bool;
}.

Inductive ResponseBody : Type :=
| EmptyBody
| TextBody (text : string)
| JsonDocument (document : json)
| LinkBody (url : string).                 (* the short page of http.Redirect *)

Record HttpResponse : Type := MkHttpResponse {
  w_status : Z;
  w_headers : gmap string string;
  w_cookies : list Cookie;
  w_body : ResponseBody;
}.

(** [w.Header().Set(key, value)] before the response is written: a header that
    the response sets itself stays. *)
Definition withHeader (key value : string) (resp : HttpResponse) : HttpResponse :=
  MkHttpResponse (w_status resp) (w_headers resp ∪ {[ key := value ]}) (w_cookies resp) (w_body resp).
(** [http.SetCookie] before the response is written. *)
Definition withCookie (c : Cookie) (resp : HttpResponse) : HttpResponse :=
  MkHttpResponse (w_status resp) (w_headers resp) (c :: w_cookies resp) (w_body resp).

(** [http.Error(w, text, code)]. *)
Definition http_Error (text : string) (code : Z) : HttpResponse :=
  MkHttpResponse code {[ "Content-Type" := "text/plain; charset=utf-8"; "X-Content-Type-Options" := "nosniff" ]} []
    (TextBody text).
(** [http.NotFound(w, r)]. *)
Definition NotFound : HttpResponse := http_Error "404 page not found" 404.
(** [http.Redirect(w, r, url, code)] for a GET request and an absolute URL or path. *)
Definition Redirect (url : string) (code : Z) : HttpResponse :=
  MkHttpResponse code {[ "Content-Type" := "text/html; charset=utf-8"; "Location" := url ]} [] (LinkBody url).
(** [w.WriteHeader(code)] without a body. *)
Definition WriteHeader (code : Z) : HttpResponse := MkHttpResponse code ∅ [] EmptyBody.

(** [writeJSON]; the transfer package also forbids caching. *)
Definition writeJSON (code : Z) (document : json) : HttpResponse :=
  MkHttpResponse code {[ "Content-Type" := "application/json" ]} [] (JsonDocument document).

(** ** Handlers *)

Definition Reply (S : Type) : Type := S → HttpResponse * S.

Definition reply {S} (resp : HttpResponse) : Reply S := λ s, (resp, s).
(** [x, err := m], with both inspected by what follows. *)
Definition call {S A} (m : M S error A) (k : result A → Reply S) : Reply S := λ s,
  let '(r, s') := m s in k r s'.
Definition mapReply {S} (f : HttpResponse → HttpResponse) (h : Reply S) : Reply S := λ s,
  let '(resp, s') := h s in (f resp, s').

(** A handler that keeps an invariant of the state. *)
Definition preserves {S} (I : S → Prop) (h : Reply S) : Prop := ∀ s, I s → I (h s).2.

Section preserves.
Context {S : Type} (I : S → Prop).

Lemma preserves_reply resp : preserves I (reply resp).
Proof. by intros s. Qed.
Lemma preserves_call {A} (m : M S error A) k : keeps I m → (∀ r, preserves I (k r)) → preserves I (call m k).
Proof. intros Hm Hk s Hs. rw /call. specialize (Hm s Hs). destruct (m s) as [r s']. by apply Hk. Qed.
Lemma preserves_map f h : preserves I h → preserves I (mapReply f h).
Proof. intros Hh s Hs. rw /mapReply. specialize (Hh s Hs). by destruct (h s). Qed.
End preserves.

(** A handler all of whose answers satisfy [P]. *)
Definition answers {S} (P : HttpResponse → Prop) (h : Reply S) : Prop := ∀ s, P (h s).1.

Section answers.
Context {S : Type} (P : HttpResponse → Prop).
Implicit Types (h : Reply S).

Lemma answers_reply resp : P resp → answers (S := S) P (reply resp).
Proof. by intros Hp s. Qed.
Lemma answers_call {A} (m : M S error A) k : (∀ r, answers P (k r)) → answers P (call m k).
Proof. intros Hk s. rw /call. destruct (m s) as [r s']. apply Hk. Qed.
Lemma answers_map f h : answers (λ resp, P (f resp)) h → answers P (mapReply f h).
Proof. intros Hh s. specialize (Hh s). rw /mapReply. by destruct (h s). Qed.
Lemma answers_mono Q h : (∀ resp, Q resp → P resp) → answers Q h → answers P h.
Proof. intros Hq Hh s. by apply Hq, Hh. Qed.
End answers.

(** ** Sessions *)

Definition sessionCookie : string := "music_session".

(** [sessionHash] of the spotify package and [hashSession] of the two others:
    the same function. *)
Definition sessionHash (session : string) : string := hexEncode (Sum256 (bytes session)).

Arguments sessionHash : simpl never.

Lemma sessionHash_length session : String.length (sessionHash session) = 64%nat.
Proof. by rw /sessionHash length_hexEncode length_Sum256. Qed.

(** The session of a request: a cookie with a value. *)
Definition requestSession (r : HttpRequest) : option string :=
  session ← r_Cookie r sessionCookie;
  if bool_decide (session = "") then None else Some (sessionHash session).

(** The hash that the cookie of a request names; the empty text where there is
    none ([oldHash] of the handlers that replace a session). *)
Definition requestHash (r : HttpRequest) : string :=
  match r_Cookie r sessionCookie with Some value => sessionHash value | None => "" end.

Lemma requestSession_hash r hash : requestSession r = Some hash → hash = requestHash r.
Proof.
  rw /requestSession /requestHash. destruct (r_Cookie r sessionCookie) as [value|]; [|done]. cbn.
  case_bool_decide; [done|]. by intros [= <-].
Qed.

(** ** Pagination *)

(** [strconv.Atoi] with its error: digits with an optional sign, in the range
    of [int]. *)
Definition AtoiErr (s : string) : option Z :=
  let unsigned bs := match bs with [] => None | _ => digits 0 bs end in
  n ← match bytes s with
      | 43 :: bs => unsigned bs
      | 45 :: bs => z ← unsigned bs; Some (- z)
      | bs => unsigned bs
      end;
  if (min_int <=? n) && (n <=? max_int) then Some n else None.

(** [pagination(w, r, max)] with the package's default limit: the offset and
    the limit, or the response already written. *)
Definition pagination (defaultLimit max : Z) (r : HttpRequest) : HttpResponse + Z * Z :=
  let get key deflt := let raw := queryGet r key in if bool_decide (raw = "") then Some deflt else AtoiErr raw in
  match get "offset" 0 with
  | Some offset =>
      if (offset <? 0) || (100000 <? offset) then inl (http_Error "Invalid offset" 400) else
      match get "limit" defaultLimit with
      | Some limit =>
          if (limit <? 1) || (max <? limit) then inl (http_Error "Invalid limit" 400) else inr (offset, limit)
      | None => inl (http_Error "Invalid limit" 400)
      end
  | None => inl (http_Error "Invalid offset" 400)
  end.

Lemma pagination_bounds defaultLimit max r offset limit :
  pagination defaultLimit max r = inr (offset, limit) → 0 ≤ offset ≤ 100000 ∧ 1 ≤ limit ≤ max.
Proof.
  rw /pagination. repeat case_match; intros [= <- <-]; simplify_eq; lia.
Qed.

Example pagination_examples :
  pagination 50 100 (MkHttpRequest "" [] [("limit", "7"); ("offset", "20")] "" None false) = inr (20, 7) ∧
  pagination 50 100 (MkHttpRequest "" [] [] "" None false) = inr (0, 50) ∧
  pagination 50 100 (MkHttpRequest "" [] [("limit", "101")] "" None false) = inl (http_Error "Invalid limit" 400) ∧
  pagination 50 100 (MkHttpRequest "" [] [("offset", "9x")] "" None false) = inl (http_Error "Invalid offset" 400).
Proof. vm_compute. by split_and!. Qed.

(** ** url.Values.Encode *)

Definition unreserved (b : Z) : bool :=
  between 48 57 b || between 65 90 b || between 97 122 b || bool_decide (b ∈ [45; 46; 95; 126]).
Definition upperHexDigit (n : Z) : Z := if n <? 10 then 48 + n else 55 + n.
Definition QueryEscape (s : string) : string :=
  of_bytes (bytes s ≫= λ b, if unreserved b then [b] else if b =? 32 then [43]
                            else [37; upperHexDigit (b / 16); upperHexDigit (b `mod` 16)]).
(** Sorted by key; every key is given once. *)
Definition Encode (values : list (string * string)) : string :=
  Join ((λ kv, QueryEscape kv.1 +:+ "=" +:+ QueryEscape kv.2) <$> sort_by str_ltb fst values) "&".

Example Encode_example : Encode [("state", "a b"); ("code", "x/y")] = "code=x%2Fy&state=a+b".
Proof. vm_compute. reflexivity. Qed.
