(* ===== verification/Models.v ===== *)
(** The data shared by the transfer package (internal/transfer/models.go) and
    the provider interface (internal/transfer/provider.go).  A [map[string]string]
    is a [gmap]; the program never tells a nil map from an empty one. *)
From S2P Require Import Prelude GoStrings Errors Json.
Local Open Scope string_scope.
Local Open Scope list_scope.
Local Open Scope Z_scope.
Local Open Scope go_scope.

Definition ProviderSpotify : string := "spotify".
Definition ProviderAppleMusic : string := "apple-music".

Inductive MatchStatus : Type :=
| MatchStatusMatched | MatchStatusAmbiguous | MatchStatusMissing | MatchStatusUnsupported.

Record Track : Type := MkTrack {
  Track_Provider : string;
  Track_ID : string;
  Track_Name : string;
  Track_Artists : slice string;
  Track_Album : string;
  Track_DurationMS : Z;
  Track_ISRC : string;
  Track_ProviderIDs : gmap string string;
  Track_URL : string;
}.

Record Playlist : Type := MkPlaylist {
  Playlist_Provider : string;
  Playlist_ID : string;
  Playlist_Name : string;
  Playlist_URL : string;
  Playlist_SnapshotID : string;
}.

(** [PlaylistEntry_CapturedAt] is nanoseconds since Go's zero time; nothing
    under src/ sets it. *)
Record PlaylistEntry : Type := MkPlaylistEntry {
  PlaylistEntry_Position : Z;
  PlaylistEntry_Track : option Track;
  PlaylistEntry_AddedAt : option string;
  PlaylistEntry_Unavailable : bool;
  PlaylistEntry_Unsupported : bool;
  PlaylistEntry_CapturedAt : Z;
}.

Record PreviewEntry : Type := MkPreviewEntry {
  PreviewEntry_Position : Z;
  PreviewEntry_Source : PlaylistEntry;
  PreviewEntry_Status : MatchStatus;
  PreviewEntry_Matched : option Track;
  PreviewEntry_Candidates : slice Track;
  PreviewEntry_Reason : string;
}.

Record TransferPreview : Type := MkTransferPreview {
  TransferPreview_ID : string;
  TransferPreview_Source : Playlist;
  TransferPreview_DestinationProvider : string;
  TransferPreview_State : string;
  TransferPreview_CreatedAt : Z;
  TransferPreview_Entries : list PreviewEntry;
}.

Record TransferRunStatus : Type := MkTransferRunStatus {
  TransferRunStatus_ID : string;
  TransferRunStatus_PreviewID : string;
  TransferRunStatus_State : string;
  TransferRunStatus_ErrorCode : string;
  TransferRunStatus_DestinationPlaylistID : string;
  TransferRunStatus_NextPosition : Z;
  TransferRunStatus_CreatedAt : Z;
  TransferRunStatus_UpdatedAt : Z;
}.

#[export] Instance MatchStatus_eq_dec : EqDecision MatchStatus.
Proof. solve_decision. Defined.
#[export] Instance Track_eq_dec : EqDecision Track.
Proof. solve_decision. Defined.
#[export] Instance Playlist_eq_dec : EqDecision Playlist.
Proof. solve_decision. Defined.
#[export] Instance PlaylistEntry_eq_dec : EqDecision PlaylistEntry.
Proof. solve_decision. Defined.
#[export] Instance PreviewEntry_eq_dec : EqDecision PreviewEntry.
Proof. solve_decision. Defined.

(** ** internal/transfer/provider.go *)

Record PlaylistPage : Type := MkPlaylistPage {
  PlaylistPage_Items : list Playlist;
  PlaylistPage_Total : Z;
  PlaylistPage_Offset : Z;
  PlaylistPage_NextOffset : option Z;
}.

Record EntryPage : Type := MkEntryPage {
  EntryPage_Items : list PlaylistEntry;
  EntryPage_Total : Z;
  EntryPage_Offset : Z;
  EntryPage_NextOffset : option Z;
}.

Record TrackQuery : Type := MkTrackQuery {
  TrackQuery_Name : string;
  TrackQuery_Artists : slice string;
  TrackQuery_ISRC : string;
  TrackQuery_DurationMS : Z;
  TrackQuery_ProviderIDs : gmap string string;
}.

Record CreatePlaylistInput : Type := MkCreatePlaylistInput {
  CreatePlaylistInput_Name : string;
  CreatePlaylistInput_Description : string;
}.

(** The Go interface [Provider]; [R] is everything its methods may read or
    change outside the transfer database (the account, the network, the
    connection store). *)
Record Provider (R : Type) : Type := MkProvider {
  Provider_Name : string;
  ListPlaylists : string → Z → Z → M R error PlaylistPage;
  ReadPlaylistEntries : string → string → Z → Z → M R error EntryPage;
  SearchTracks : string → TrackQuery → Z → M R error (list Track);
  CreatePlaylist : string → CreatePlaylistInput → M R error Playlist;
  AddTracksToPlaylist : string → string → list string → M R error unit;
}.
Arguments Provider_Name {R}.
Arguments ListPlaylists {R}.
Arguments ReadPlaylistEntries {R}.
Arguments SearchTracks {R}.
Arguments CreatePlaylist {R}.
Arguments AddTracksToPlaylist {R}.

(** ** JSON encodings, from the struct tags *)

Definition marshalTrack (t : Track) : json := JObject (
  [("provider", marshalString (Track_Provider t));
   ("id", marshalString (Track_ID t));
   ("name", marshalString (Track_Name t));
   ("artists", marshalSlice marshalString (Track_Artists t))] ++
  omitempty (bool_decide (Track_Album t = "")) "album" (marshalString (Track_Album t)) ++
  omitempty (bool_decide (Track_DurationMS t = 0)) "duration_ms" (JInt (Track_DurationMS t)) ++
  omitempty (bool_decide (Track_ISRC t = "")) "isrc" (marshalString (Track_ISRC t)) ++
  omitempty (bool_decide (Track_ProviderIDs t = ∅)) "provider_ids" (marshalMap (Track_ProviderIDs t)) ++
  omitempty (bool_decide (Track_URL t = "")) "url" (marshalString (Track_URL t)) ++ []).

Definition unmarshalTrack (j : json) : result Track :=
  let* fs := fieldsOf j in
  let* provider := unmarshalString (getField fs "provider") in
  let* id := unmarshalString (getField fs "id") in
  let* name := unmarshalString (getField fs "name") in
  let* artists := unmarshalSlice unmarshalString (getField fs "artists") in
  let* album := unmarshalString (getField fs "album") in
  let* durationMS := unmarshalInt (getField fs "duration_ms") in
  let* isrc := unmarshalString (getField fs "isrc") in
  let* providerIDs := unmarshalMap (getField fs "provider_ids") in
  let* url := unmarshalString (getField fs "url") in
  Ok (MkTrack provider id name artists album durationMS isrc providerIDs url).

Definition marshalPlaylist (p : Playlist) : json := JObject (
  [("provider", marshalString (Playlist_Provider p));
   ("id", marshalString (Playlist_ID p));
   ("name", marshalString (Playlist_Name p))] ++
  omitempty (bool_decide (Playlist_URL p = "")) "url" (marshalString (Playlist_URL p)) ++
  omitempty (bool_decide (Playlist_SnapshotID p = "")) "snapshot_id" (marshalString (Playlist_SnapshotID p)) ++ []).

Definition unmarshalPlaylist (j : json) : result Playlist :=
  let* fs := fieldsOf j in
  let* provider := unmarshalString (getField fs "provider") in
  let* id := unmarshalString (getField fs "id") in
  let* name := unmarshalString (getField fs "name") in
  let* url := unmarshalString (getField fs "url") in
  let* snapshotID := unmarshalString (getField fs "snapshot_id") in
  Ok (MkPlaylist provider id name url snapshotID).

(** [omitempty] has no effect on the struct [CapturedAt]. *)
Definition marshalPlaylistEntry (e : PlaylistEntry) : json := JObject (
  [("position", JInt (PlaylistEntry_Position e))] ++
  omitempty (bool_decide (PlaylistEntry_Track e = None)) "track" (marshalPtr marshalTrack (PlaylistEntry_Track e)) ++
  omitempty (bool_decide (PlaylistEntry_AddedAt e = None)) "added_at" (marshalPtr marshalString (PlaylistEntry_AddedAt e)) ++
  [("unavailable", JBool (PlaylistEntry_Unavailable e));
   ("unsupported", JBool (PlaylistEntry_Unsupported e));
   ("captured_at", JTime (PlaylistEntry_CapturedAt e))]).

Definition unmarshalPlaylistEntry (j : json) : result PlaylistEntry :=
  let* fs := fieldsOf j in
  let* position := unmarshalInt (getField fs "position") in
  let* track := unmarshalPtr unmarshalTrack (getField fs "track") in
  let* addedAt := unmarshalPtr unmarshalString (getField fs "added_at") in
  let* unavailable := unmarshalBool (getField fs "unavailable") in
  let* unsupported := unmarshalBool (getField fs "unsupported") in
  let* capturedAt := unmarshalTime (getField fs "captured_at") in
  Ok (MkPlaylistEntry position track addedAt unavailable unsupported capturedAt).

(** ** Values the encoding preserves: valid UTF-8 and ints *)

Definition wf_track (t : Track) : Prop :=
  valid_string (Track_Provider t) ∧ valid_string (Track_ID t) ∧ valid_string (Track_Name t) ∧
  Forall valid_string (elems (Track_Artists t)) ∧ valid_string (Track_Album t) ∧
  is_int (Track_DurationMS t) ∧ valid_string (Track_ISRC t) ∧ valid_map (Track_ProviderIDs t) ∧
  valid_string (Track_URL t).

Definition wf_playlist (p : Playlist) : Prop :=
  valid_string (Playlist_Provider p) ∧ valid_string (Playlist_ID p) ∧ valid_string (Playlist_Name p) ∧
  valid_string (Playlist_URL p) ∧ valid_string (Playlist_SnapshotID p).

Definition wf_entry (e : PlaylistEntry) : Prop :=
  is_int (PlaylistEntry_Position e) ∧
  (∀ t, PlaylistEntry_Track e = Some t → wf_track t) ∧
  (∀ s, PlaylistEntry_AddedAt e = Some s → valid_string s).

(** Reads every field of an encoded struct. *)
Ltac get_fields :=
  cbn [app fieldsOf res_bind];
  repeat first
    [ rw getField_cons
    | rw getField_omit
    | match goal with
      | |- context [bool_decide (String ?a ?s = String ?b ?t)] =>
          let v := eval vm_compute in (bool_decide (String a s = String b t)) in
          change (bool_decide (String a s = String b t)) with v; cbv iota
      end ].

Lemma omitted_string s : valid_string s →
  unmarshalString (if bool_decide (s = "") then JNull else marshalString s) = Ok s.
Proof. intros Hs. case_bool_decide as He; [by rw He|]. by apply unmarshalString_marshal. Qed.

Lemma omitted_int z : is_int z →
  unmarshalInt (if bool_decide (z = 0) then JNull else JInt z) = Ok z.
Proof. intros Hz. case_bool_decide as He; [by rw He|]. by apply unmarshalInt_marshal. Qed.

Lemma omitted_map m : valid_map m →
  unmarshalMap (if bool_decide (m = ∅) then JNull else marshalMap m) = Ok m.
Proof. intros Hm. case_bool_decide as He; [by rw He|]. by apply unmarshalMap_marshal. Qed.

Lemma strings_roundtrip (s : slice string) : Forall valid_string (elems s) →
  unmarshalSlice unmarshalString (marshalSlice marshalString s) = Ok s.
Proof.
  intros Hs. apply unmarshalSlice_marshal. eapply Forall_impl; [exact Hs|].
  apply unmarshalString_marshal.
Qed.

(** One field of a decoder after the other. *)
Ltac decode_fields :=
  repeat (eapply res_bind_Ok;
    [get_fields;
     first [ by apply unmarshalString_marshal | by apply omitted_string | by apply strings_roundtrip
           | by apply omitted_int | by apply omitted_map | by apply unmarshalInt_marshal | reflexivity
           | by eauto ]
    |cbv beta]).

Lemma Track_roundtrip t : wf_track t → unmarshalTrack (marshalTrack t) = Ok t.
Proof.
  intros (Hp & Hid & Hn & Ha & Hal & Hd & Hi & Hm & Hu). destruct t. simpl in *.
  rw /unmarshalTrack /marshalTrack. cbn [app fieldsOf]. by decode_fields.
Qed.

Lemma Playlist_roundtrip p : wf_playlist p → unmarshalPlaylist (marshalPlaylist p) = Ok p.
Proof.
  intros (Hp & Hid & Hn & Hu & Hs). destruct p. simpl in *.
  rw /unmarshalPlaylist /marshalPlaylist. cbn [app fieldsOf]. by decode_fields.
Qed.

Lemma omitted_ptr {A} `{EqDecision A} (f : A → json) (g : json → result A) (p : option A) :
  (∀ a, p = Some a → f a ≠ JNull ∧ g (f a) = Ok a) →
  unmarshalPtr g (if bool_decide (p = None) then JNull else marshalPtr f p) = Ok p.
Proof. intros Hp. case_bool_decide as He; [by rw He|]. by apply unmarshalPtr_marshal. Qed.

Lemma PlaylistEntry_roundtrip e : wf_entry e → unmarshalPlaylistEntry (marshalPlaylistEntry e) = Ok e.
Proof.
  intros (Hp & Ht & Ha). destruct e as [pos tr added un us cap]. simpl in *.
  assert (unmarshalPtr unmarshalTrack (if bool_decide (tr = None) then JNull else marshalPtr marshalTrack tr) = Ok tr).
  { apply omitted_ptr. intros t Et. split; [done|]. by apply Track_roundtrip, Ht. }
  assert (unmarshalPtr unmarshalString (if bool_decide (added = None) then JNull else marshalPtr marshalString added) = Ok added).
  { apply omitted_ptr. intros s Es. split; [done|]. by apply unmarshalString_marshal, Ha. }
  rw /unmarshalPlaylistEntry /marshalPlaylistEntry. cbn [app fieldsOf]. by decode_fields.
Qed.
