(* ===== verification/Matcher.v ===== *)
(** internal/transfer/matcher.go: text normalisation, candidate
    de-duplication and the decision which destination track, if any, a source
    entry is matched with; the priority of the criteria as a specification. *)
From S2P Require Import Prelude GoStrings Errors Models.
Local Open Scope string_scope.
Local Open Scope list_scope.
Local Open Scope Z_scope.

Definition durationToleranceMS : Z := 2500.

Record MatchResult : Type := MkMatchResult {
  MatchResult_Status : MatchStatus;
  MatchResult_Matched : option Track;
  MatchResult_Candidates : slice Track;
  MatchResult_Reason : string;
}.

#[export] Instance MatchResult_eq_dec : EqDecision MatchResult.
Proof. solve_decision. Defined.

Section matcher.
Context `{Unicode}.

Definition keepRune (r : Z) : Z :=
  if IsLetter r || IsNumber r then r
  else if IsSpace r then 32
  else -1.

Definition NormalizeText (value : string) : string :=
  let value := ToLower (TrimSpace value) in
  let value := MapRunes keepRune value in
  Join (Fields value) " ".

(** [if track.Artists == nil { track.Artists = []string{} }]. *)
Definition nonNilArtists (track : Track) : Track :=
  MkTrack (Track_Provider track) (Track_ID track) (Track_Name track)
    (Some (elems (Track_Artists track))) (Track_Album track) (Track_DurationMS track)
    (Track_ISRC track) (Track_ProviderIDs track) (Track_URL track).

(** The loop of [uniqueTracks]; [seen] holds the IDs already kept. *)
Fixpoint dedupe (seen : gset string) (l : list Track) : list Track :=
  match l with
  | [] => []
  | track :: l' =>
      if bool_decide (Track_ID track = "") || bool_decide (Track_ID track ∈ seen) then dedupe seen l'
      else nonNilArtists track :: dedupe ({[Track_ID track]} ∪ seen) l'
  end.

Definition uniqueTracks (l : list Track) : list Track :=
  sort_by str_ltb Track_ID (dedupe ∅ l).

Definition resolveSingle (reason : string) (options : list Track) : MatchResult :=
  match options with
  | [t] => MkMatchResult MatchStatusMatched (Some t) None reason
  | _ => MkMatchResult MatchStatusAmbiguous None (Some options) (reason +:+ "_ambiguous")
  end.

Definition filterTracks (candidates : list Track) (allow : Track → bool) : list Track :=
  filter (λ t, allow t = true) candidates.

Definition normalizedArtists (l : list string) : list string :=
  filter (λ s, s ≠ "") (NormalizeText <$> l).

(** The lookup [m[k]] of a Go map of strings. *)
Definition mapGet (m : gmap string string) (k : string) : string := default "" (m !! k).

Definition sameProviderID (id destinationProvider : string) (t : Track) : bool :=
  bool_decide (Track_ID t = id) ||
  bool_decide (mapGet (Track_ProviderIDs t) destinationProvider = id).

Definition normISRC (isrc : string) : string := ToUpper (TrimSpace isrc).

Definition sameISRC (norm : string) (t : Track) : bool := bool_decide (normISRC (Track_ISRC t) = norm).

(** The title is the same non-empty text and one artist is in common. *)
Definition sameMetadata (title : string) (artists : list string) (t : Track) : bool :=
  if bool_decide (NormalizeText (Track_Name t) ≠ title) || bool_decide (title = "") then false
  else
    let candidateArtists := normalizedArtists (elems (Track_Artists t)) in
    existsb (λ artist, negb (bool_decide (artist = "")) &&
      existsb (λ candidateArtist, bool_decide (artist = candidateArtist)) candidateArtists) artists.

(** [delta] is computed in 64-bit arithmetic. *)
Definition withinDuration (durationMS : Z) (t : Track) : bool :=
  if Track_DurationMS t <=? 0 then false
  else
    let delta := wrap64 (Track_DurationMS t - durationMS) in
    let delta := if delta <? 0 then wrap64 (delta * -1) else delta in
    delta <=? durationToleranceMS.

Definition unsupportedResult : MatchResult :=
  MkMatchResult MatchStatusUnsupported None None "source_entry_unsupported".

Definition MatchTrack (source : PlaylistEntry) (destinationProvider : string)
    (candidates : list Track) : MatchResult :=
  match PlaylistEntry_Track source with
  | None => unsupportedResult
  | Some track =>
    if PlaylistEntry_Unsupported source || PlaylistEntry_Unavailable source then unsupportedResult else
    match uniqueTracks candidates with
    | [] => MkMatchResult MatchStatusMissing None None "no_candidates"
    | unique =>
      let id := TrimSpace (mapGet (Track_ProviderIDs track) destinationProvider) in
      let matchedID := if bool_decide (id ≠ "")
        then filterTracks unique (sameProviderID id destinationProvider) else [] in
      match matchedID with
      | _ :: _ => resolveSingle "provider_id" matchedID
      | [] =>
        let matchedISRC := if bool_decide (Track_ISRC track ≠ "")
          then filterTracks unique (sameISRC (normISRC (Track_ISRC track))) else [] in
        match matchedISRC with
        | _ :: _ => resolveSingle "isrc" matchedISRC
        | [] =>
          let title := NormalizeText (Track_Name track) in
          let artists := normalizedArtists (elems (Track_Artists track)) in
          let meta := filterTracks unique (sameMetadata title artists) in
          match meta with
          | [] => MkMatchResult MatchStatusMissing None None "no_metadata_match"
          | _ :: _ =>
            let within := if 0 <? Track_DurationMS track
              then filterTracks meta (withinDuration (Track_DurationMS track)) else [] in
            match within with
            | _ :: _ => resolveSingle "metadata_duration" within
            | [] => MkMatchResult MatchStatusAmbiguous None (Some meta) "metadata_without_duration_confidence"
            end
          end
        end
      end
    end
  end.
End matcher.

(** ** [NormalizeText] *)

Section normalize_facts.
Context `{UnicodeLaws}.

Abbreviation valid_text := (Forall (λ r, valid_rune r = true)).

(** A rune of a normalised word: a letter or number in lower case. *)
Definition wordRune (r : Z) : Prop :=
  IsLetter r || IsNumber r = true ∧ ToLowerRune r = r ∧ valid_rune r = true.

(** The words [NormalizeText] keeps of a text given as runes. *)
Definition words (rs : list Z) : list (list Z) :=
  fields_from IsSpace [] (filter (λ r, 0 ≤ r) (keepRune <$> rs)).

Lemma valid_nonneg r : valid_rune r = true → 0 ≤ r.
Proof. rw valid_rune_spec. lia. Qed.

Lemma ToLower_text s : ToLower s = text (ToLowerRune <$> runes s).
Proof.
  rw /ToLower /MapRunes /text. do 2 f_equal. apply list_filter_all.
  apply Forall_fmap, (Forall_impl _ _ _ (runes_valid s)).
  intros r Hr. apply valid_nonneg, ToLowerRune_valid, Hr.
Qed.

Lemma lower_valid s : valid_text (ToLowerRune <$> runes s).
Proof.
  apply Forall_fmap, (Forall_impl _ _ _ (runes_valid s)), ToLowerRune_valid.
Qed.

Lemma keepRune_cases r :
  (IsLetter r || IsNumber r = true ∧ keepRune r = r) ∨ keepRune r = 32 ∨ keepRune r = -1.
Proof. rw /keepRune. repeat case_match; auto. Qed.

Lemma kept_valid rs : valid_text rs → valid_text (filter (λ r, 0 ≤ r) (keepRune <$> rs)).
Proof.
  intros Hrs. apply Forall_forall. intros k [Hk (r & -> & Hr)%list_elem_of_fmap]%list_elem_of_filter.
  destruct (keepRune_cases r) as [[_ ->]|[->|E]]; [|done|lia].
  by apply (proj1 (Forall_forall _ _) Hrs).
Qed.

Lemma NormalizeText_words s :
  NormalizeText s = text (intercalate [32] (words (ToLowerRune <$> runes (TrimSpace s)))).
Proof.
  rw /NormalizeText ToLower_text. set (ls := ToLowerRune <$> _).
  assert (valid_text ls) as Hls by apply lower_valid.
  rw /MapRunes runes_text // -/(text _) Fields_text; [by apply kept_valid|].
  apply (Join_text _ [32]).
Qed.

Lemma words_spec s :
  Forall (λ w, w ≠ [] ∧ Forall wordRune w) (words (ToLowerRune <$> runes s)).
Proof.
  apply Forall_and; split.
  - eapply Forall_impl; [apply fields_are_words|]. by intros w [Hne _].
  - apply fields_from_subset; [done|]. apply Forall_forall.
    intros k [Hk (r & -> & Hr)%list_elem_of_fmap]%list_elem_of_filter Hns.
    apply list_elem_of_fmap in Hr as (r0 & -> & Hr0).
    pose proof (proj1 (Forall_forall _ _) (runes_valid s) _ Hr0) as Hv.
    destruct (keepRune_cases (ToLowerRune r0)) as [[Ha ->]|[E|E]]; [|by rw E in Hns|lia].
    split_and!; [done|by apply ToLowerRune_idem|by apply ToLowerRune_valid].
Qed.

Lemma words_are_words ws : Forall (λ w, w ≠ [] ∧ Forall wordRune w) ws → are_words IsSpace ws.
Proof.
  intros Hws. eapply Forall_impl; [exact Hws|]. intros w [Hne Hw]. split; [done|].
  eapply Forall_impl; [exact Hw|]. intros r [Ha _]. by apply alnum_not_space.
Qed.

Lemma intercalate_Forall (P : Z → Prop) ws :
  P 32 → Forall (Forall P) ws → Forall P (intercalate [32] ws).
Proof.
  intros H32. induction 1 as [|w ws Hw Hws IH]; [constructor|].
  destruct ws as [|w' ws']; [done|]. apply Forall_app; split; [done|].
  apply Forall_app; split; [by repeat constructor|done].
Qed.

Lemma words_valid ws :
  Forall (λ w, w ≠ [] ∧ Forall wordRune w) ws → valid_text (intercalate [32] ws).
Proof.
  intros Hws. apply intercalate_Forall; [done|].
  eapply Forall_impl; [exact Hws|]. intros w [_ Hw].
  eapply Forall_impl; [exact Hw|]. by intros r (_ & _ & ?).
Qed.

(** A text made of normalised words is its own normal form. *)
Lemma NormalizeText_of_words ws :
  Forall (λ w, w ≠ [] ∧ Forall wordRune w) ws →
  NormalizeText (text (intercalate [32] ws)) = text (intercalate [32] ws).
Proof.
  intros Hws. pose proof (words_are_words _ Hws) as Haw. pose proof (words_valid _ Hws) as Hv.
  assert (Forall (λ r, ToLowerRune r = r ∧ keepRune r = r ∧ 0 ≤ r) (intercalate [32] ws)) as Hid.
  { apply intercalate_Forall; [done|].
    eapply Forall_impl; [exact Hws|]. intros w [_ Hw].
    eapply Forall_impl; [exact Hw|]. intros r (Ha & Hl & Hr).
    split_and!; [done| |by apply valid_nonneg]. by rw /keepRune Ha. }
  rw NormalizeText_words TrimSpace_text // trim_id.
  { intros c. by apply intercalate_head. } { intros c. by apply intercalate_last. }
  rw runes_text // /words. set (rs := intercalate [32] ws) in *.
  assert (ToLowerRune <$> rs = rs) as ->.
  { rw -{2}(list_fmap_id rs). apply Forall_fmap_ext_1.
    eapply Forall_impl; [exact Hid|]. by intros r (? & _). }
  assert (keepRune <$> rs = rs) as ->.
  { rw -{2}(list_fmap_id rs). apply Forall_fmap_ext_1.
    eapply Forall_impl; [exact Hid|]. by intros r (_ & ? & _). }
  rw list_filter_all. { eapply Forall_impl; [exact Hid|]. by intros r (_ & _ & ?). }
  by rw /rs fields_intercalate.
Qed.
End normalize_facts.

(** ** Candidate lists *)

Lemma dedupe_ids seen l :
  NoDup (Track_ID <$> dedupe seen l) ∧
  ∀ t, t ∈ dedupe seen l → Track_ID t ≠ "" ∧ Track_ID t ∉ seen.
Proof.
  revert seen. induction l as [|c l IH]; intros seen; simpl; [split; [constructor|by intros t ?%not_elem_of_nil]|].
  destruct (bool_decide_reflect (Track_ID c = "")) as [|Hne]; simpl; [apply IH|].
  destruct (bool_decide_reflect (Track_ID c ∈ seen)) as [|Hns]; simpl; [apply IH|].
  destruct (IH ({[Track_ID c]} ∪ seen)) as [Hnd Hin]. split.
  - apply NoDup_cons; split; [|done]. intros (t & Ht & Hm)%list_elem_of_fmap.
    apply Hin in Hm as [_ Hm]. rw -Ht in Hm. set_solver.
  - intros t [->|Hm]%elem_of_cons; [done|]. apply Hin in Hm. set_solver.
Qed.

(** A track is kept exactly when it is the first candidate with its ID. *)
Lemma elem_of_dedupe seen l t :
  t ∈ dedupe seen l ↔
  Track_ID t ≠ "" ∧ (Track_ID t ∉ seen) ∧
  (∃ i c, list_find (λ c, Track_ID c = Track_ID t) l = Some (i, c) ∧ t = nonNilArtists c).
Proof.
  revert seen. induction l as [|c l IH]; intros seen; simpl.
  { split; [by intros ?%not_elem_of_nil|naive_solver]. }
  destruct (bool_decide_reflect (Track_ID c = "")) as [He|Hne]; simpl.
  { rw IH. split; intros (Hne & Hns & Hf); split_and!; try done.
    - destruct Hf as (i & c' & Hf & ->). exists (S i), c'. rw decide_False ?Hf //. congruence.
    - destruct Hf as (i & c' & Hf & ->). rw decide_False in Hf; [congruence|].
      apply fmap_Some in Hf as ([i' c''] & Hf & [= -> ->]). eauto. }
  destruct (bool_decide_reflect (Track_ID c ∈ seen)) as [Hs|Hns]; simpl.
  { rw IH. split; intros (Hne' & Hns & Hf); split_and!; try done.
    - destruct Hf as (i & c' & Hf & ->). exists (S i), c'. rw decide_False ?Hf //. congruence.
    - destruct Hf as (i & c' & Hf & ->). rw decide_False in Hf; [congruence|].
      apply fmap_Some in Hf as ([i' c''] & Hf & [= -> ->]). eauto. }
  rw elem_of_cons IH. destruct (decide (Track_ID c = Track_ID t)) as [Ht|Ht].
  - split.
    + intros [->|(_ & Hns' & _)]; [|rw Ht in Hns'; set_solver]. eauto 10.
    + intros (_ & _ & i & c' & [= <- <-] & ->). by left.
  - split.
    + intros [->|(Hne' & Hns' & i & c' & Hf & ->)]; [done|]. split_and!; [done|set_solver|].
      rw Hf. eauto.
    + intros (Hne' & Hns' & i & c' & Hf & ->). right. split_and!; [done|set_solver|].
      apply fmap_Some in Hf as ([i' c''] & Hf & [= -> ->]). eauto.
Qed.

Lemma uniqueTracks_perm l : uniqueTracks l ≡ₚ dedupe ∅ l.
Proof. apply sort_by_perm. Qed.

Lemma uniqueTracks_NoDup l : NoDup (Track_ID <$> uniqueTracks l).
Proof. rw uniqueTracks_perm. apply dedupe_ids. Qed.

Lemma elem_of_uniqueTracks l t :
  t ∈ uniqueTracks l ↔
  Track_ID t ≠ "" ∧
  (∃ i c, list_find (λ c, Track_ID c = Track_ID t) l = Some (i, c) ∧ t = nonNilArtists c).
Proof. rw uniqueTracks_perm elem_of_dedupe. set_solver. Qed.

Lemma nonNilArtists_idem t : nonNilArtists (nonNilArtists t) = nonNilArtists t.
Proof. done. Qed.

(** Candidates that agree whenever their IDs do. *)
Definition consistent (l : list Track) : Prop :=
  ∀ a b, a ∈ l → b ∈ l → Track_ID a = Track_ID b → a = b.

Lemma elem_of_uniqueTracks_consistent l t :
  consistent l →
  (t ∈ uniqueTracks l) ↔ (∃ c, c ∈ l ∧ Track_ID c ≠ "" ∧ t = nonNilArtists c).
Proof.
  intros Hc. rw elem_of_uniqueTracks. split.
  - intros (Hne & i & c & (Hi & Hid & _)%list_find_Some & ->). exists c.
    split_and!; [by eapply list_elem_of_lookup_2|by rw Hid|done].
  - intros (c & Hin & Hne & ->). split; [done|].
    destruct (list_find (λ c', Track_ID c' = Track_ID (nonNilArtists c)) l) as [[i c']|] eqn:E.
    + pose proof E as (Hi & Hid & _)%list_find_Some. exists i, c'. split; [done|].
      by rw (Hc c' c (list_elem_of_lookup_2 _ _ _ Hi) Hin Hid).
    + apply list_find_None in E. by destruct (proj1 (Forall_forall _ _) E c Hin).
Qed.

(** The provider's order of results does not matter, nor do repetitions. *)
Lemma uniqueTracks_ext l1 l2 :
  consistent l1 → (∀ t, t ∈ l1 ↔ t ∈ l2) → uniqueTracks l1 = uniqueTracks l2.
Proof.
  intros Hc Heq. apply sort_by_unique; [apply _|apply dedupe_ids|].
  assert (consistent l2) as Hc2. { intros a b; rw -!Heq. apply Hc. }
  apply NoDup_Permutation.
  - apply (NoDup_fmap_1 Track_ID), dedupe_ids.
  - apply (NoDup_fmap_1 Track_ID), dedupe_ids.
  - intros t. rw -!uniqueTracks_perm !elem_of_uniqueTracks_consistent //.
    by setoid_rewrite Heq.
Qed.

Lemma elem_of_filterTracks l allow t : t ∈ filterTracks l allow ↔ allow t = true ∧ t ∈ l.
Proof. apply (list_elem_of_filter (λ t, allow t = true)). Qed.

Lemma filterTracks_filter l f g :
  filterTracks (filterTracks l f) g = filterTracks l (λ t, f t && g t).
Proof.
  rw /filterTracks list_filter_filter. apply list_filter_iff.
  intros t. rw andb_true_iff. tauto.
Qed.

Lemma filterTracks_ids l f : NoDup (Track_ID <$> l) → NoDup (Track_ID <$> filterTracks l f).
Proof. intros Hnd. eapply sublist_NoDup; [exact Hnd|]. apply fmap_sublist, sublist_filter. Qed.

(** ** The specification of the decision

    Criteria in order of confidence; the first one that some candidate meets
    decides, and it decides for a track only when one candidate meets it. *)

Record Criterion : Type := MkCriterion {
  Criterion_Reason : string;
  Criterion_Test : Track → bool;
}.

Section specification.
Context `{Unicode}.

Definition metadataTest (track : Track) : Track → bool :=
  sameMetadata (NormalizeText (Track_Name track)) (normalizedArtists (elems (Track_Artists track))).

Definition criteria (track : Track) (destinationProvider : string) : list Criterion :=
  let id := TrimSpace (mapGet (Track_ProviderIDs track) destinationProvider) in
  (if bool_decide (id ≠ "") then [MkCriterion "provider_id" (sameProviderID id destinationProvider)] else []) ++
  (if bool_decide (Track_ISRC track ≠ "") then [MkCriterion "isrc" (sameISRC (normISRC (Track_ISRC track)))] else []) ++
  (if 0 <? Track_DurationMS track
   then [MkCriterion "metadata_duration" (λ t, metadataTest track t && withinDuration (Track_DurationMS track) t)]
   else []).

Definition hits (unique : list Track) (c : Criterion) : list Track :=
  filterTracks unique (Criterion_Test c).

Definition matchable (source : PlaylistEntry) (track : Track) : Prop :=
  PlaylistEntry_Track source = Some track ∧
  PlaylistEntry_Unsupported source = false ∧ PlaylistEntry_Unavailable source = false.

Inductive match_spec (source : PlaylistEntry) (dest : string) (candidates : list Track) : MatchResult → Prop :=
| spec_unsupported :
    (∀ track, ¬ matchable source track) →
    match_spec source dest candidates unsupportedResult
| spec_no_candidates track :
    matchable source track → uniqueTracks candidates = [] →
    match_spec source dest candidates (MkMatchResult MatchStatusMissing None None "no_candidates")
| spec_decided track (before : list Criterion) c (after : list Criterion) :
    matchable source track →
    criteria track dest = before ++ c :: after →
    Forall (λ c', hits (uniqueTracks candidates) c' = []) before →
    hits (uniqueTracks candidates) c ≠ [] →
    match_spec source dest candidates (resolveSingle (Criterion_Reason c) (hits (uniqueTracks candidates) c))
| spec_no_metadata track :
    matchable source track → uniqueTracks candidates ≠ [] →
    Forall (λ c', hits (uniqueTracks candidates) c' = []) (criteria track dest) →
    filterTracks (uniqueTracks candidates) (metadataTest track) = [] →
    match_spec source dest candidates (MkMatchResult MatchStatusMissing None None "no_metadata_match")
| spec_undecided track meta :
    matchable source track →
    Forall (λ c', hits (uniqueTracks candidates) c' = []) (criteria track dest) →
    filterTracks (uniqueTracks candidates) (metadataTest track) = meta → meta ≠ [] →
    match_spec source dest candidates
      (MkMatchResult MatchStatusAmbiguous None (Some meta) "metadata_without_duration_confidence").
End specification.

Section specification_facts.
Context `{Unicode}.

Fixpoint decideBy (cs : list Criterion) (unique : list Track) : option MatchResult :=
  match cs with
  | [] => None
  | c :: cs' => match hits unique c with
                | [] => decideBy cs' unique
                | ts => Some (resolveSingle (Criterion_Reason c) ts)
                end
  end.

Lemma decideBy_cons_nil c cs unique :
  hits unique c = [] → decideBy (c :: cs) unique = decideBy cs unique.
Proof. simpl. by intros ->. Qed.

Lemma decideBy_skip before cs unique :
  Forall (λ c, hits unique c = []) before → decideBy (before ++ cs) unique = decideBy cs unique.
Proof. induction 1 as [|c before Hc _ IH]; [done|]. by rw /= Hc. Qed.

Lemma decideBy_Some cs unique r :
  decideBy cs unique = Some r →
  ∃ before c after, cs = before ++ c :: after ∧ Forall (λ c, hits unique c = []) before ∧
    hits unique c ≠ [] ∧ r = resolveSingle (Criterion_Reason c) (hits unique c).
Proof.
  induction cs as [|c cs IH]; [done|]. simpl. destruct (hits unique c) eqn:E.
  - intros (before & c' & after & -> & Hb & Hc & ->)%IH.
    exists (c :: before), c', after. split_and!; [done|by constructor|done..].
  - intros [= <-]. exists [], c, cs. rw E. split_and!; [done|constructor|done..].
Qed.

Lemma decideBy_None cs unique :
  decideBy cs unique = None → Forall (λ c, hits unique c = []) cs.
Proof.
  induction cs as [|c cs IH]; [constructor|]. simpl. destruct (hits unique c) eqn:E; [|done].
  intros ?. constructor; [done|auto].
Qed.

(** [MatchTrack] consults the criteria in the order of [criteria]. *)
Lemma MatchTrack_decideBy source track dest candidates :
  matchable source track → uniqueTracks candidates ≠ [] →
  MatchTrack source dest candidates =
  match decideBy (criteria track dest) (uniqueTracks candidates) with
  | Some r => r
  | None => match filterTracks (uniqueTracks candidates) (metadataTest track) with
            | [] => MkMatchResult MatchStatusMissing None None "no_metadata_match"
            | meta => MkMatchResult MatchStatusAmbiguous None (Some meta) "metadata_without_duration_confidence"
            end
  end.
Proof.
  intros (Ht & Hu & Ha) Hne. rw /MatchTrack Ht Hu Ha. cbn [orb].
  generalize dependent (uniqueTracks candidates). intros unique Hne.
  destruct unique as [|t0 ts] eqn:Hq; [done|]. rw -!Hq. clear Hne Hq t0 ts. rw /criteria.
  generalize (TrimSpace (mapGet (Track_ProviderIDs track) dest)). intros id.
  set (m := filterTracks unique (metadataTest track)).
  assert (∀ cs cs', decideBy (cs ++ cs') unique =
    match decideBy cs unique with Some r => Some r | None => decideBy cs' unique end) as Happ.
  { intros cs cs'. induction cs as [|c cs IH]; [done|]. simpl. by destruct (hits unique c). }
  rw !Happ. clear Happ.
  assert (∀ f, filterTracks unique (λ t, metadataTest track t && f t) = filterTracks m f) as Hm.
  { intros f. by rw /m filterTracks_filter. }
  assert (∀ c cs, decideBy (c :: cs) unique = match filterTracks unique (Criterion_Test c) with
    | [] => decideBy cs unique | ts => Some (resolveSingle (Criterion_Reason c) ts) end) as Hcons by done.
  rw -/(metadataTest track) -/m. clearbody m.
  destruct (bool_decide (id ≠ "")); rw ?Hcons; cbn [Criterion_Test Criterion_Reason];
    [destruct (filterTracks unique (sameProviderID _ _)); [|reflexivity]|]; cbn [decideBy];
    (destruct (bool_decide (Track_ISRC track ≠ "")); rw ?Hcons; cbn [Criterion_Test Criterion_Reason];
    [destruct (filterTracks unique (sameISRC _)); [|reflexivity]|]; cbn [decideBy];
    (destruct (0 <? Track_DurationMS track); rw ?Hcons; cbn [Criterion_Test Criterion_Reason]; rw ?Hm;
     destruct m as [|t0 ts]; [reflexivity| |reflexivity..])).
  all: by destruct (filterTracks (t0 :: ts) _).
Qed.
End specification_facts.

Section matcher_properties.
Context `{Unicode}.
Implicit Types (source : PlaylistEntry) (dest : string) (candidates : list Track) (track t : Track).

Lemma MatchTrack_unmatchable source dest candidates :
  (∀ track, ¬ matchable source track) → MatchTrack source dest candidates = unsupportedResult.
Proof.
  intros Hno. rw /MatchTrack. destruct (PlaylistEntry_Track source) as [track|] eqn:Ht; [|done].
  destruct (PlaylistEntry_Unsupported source) eqn:Hu; [done|].
  destruct (PlaylistEntry_Unavailable source) eqn:Ha; [done|].
  by destruct (Hno track).
Qed.

Lemma MatchTrack_no_candidates source track dest candidates :
  matchable source track → uniqueTracks candidates = [] →
  MatchTrack source dest candidates = MkMatchResult MatchStatusMissing None None "no_candidates".
Proof. intros (Ht & Hu & Ha) Hq. by rw /MatchTrack Ht Hu Ha Hq. Qed.

Lemma matchable_dec source : (∃ track, matchable source track) ∨ ∀ track, ¬ matchable source track.
Proof.
  rw /matchable. destruct source as [? [track|] ? [] [] ?]; simpl; try (by right; intros ? (?&?&?)).
  left. by exists track.
Qed.

Lemma matchable_inj source track1 track2 :
  matchable source track1 → matchable source track2 → track1 = track2.
Proof. intros (? & _) (? & _). congruence. Qed.

Lemma match_spec_sound source dest candidates r :
  match_spec source dest candidates r → MatchTrack source dest candidates = r.
Proof.
  intros [Hno|track Hm Hq|track before c after Hm Hc Hb Hne|track Hm Hq Hb Hmeta|track meta Hm Hb Hmeta Hne].
  - by apply MatchTrack_unmatchable.
  - by eapply MatchTrack_no_candidates.
  - rw (MatchTrack_decideBy _ _ _ _ Hm). { intros E. by rw /hits E in Hne. }
    rw Hc decideBy_skip //. cbn [decideBy]. by destruct (hits _ c).
  - rw (MatchTrack_decideBy _ _ _ _ Hm) //. rw -(app_nil_r (criteria track dest)) decideBy_skip //.
    cbn [decideBy]. by rw Hmeta.
  - rw (MatchTrack_decideBy _ _ _ _ Hm). { intros E. by rw E in Hmeta; subst meta. }
    rw -(app_nil_r (criteria track dest)) decideBy_skip // Hmeta.
    cbn [decideBy]. by destruct meta.
Qed.

Lemma match_spec_complete source dest candidates :
  match_spec source dest candidates (MatchTrack source dest candidates).
Proof.
  destruct (matchable_dec source) as [[track Hm]|Hno].
  2: { rw MatchTrack_unmatchable //. by constructor. }
  destruct (uniqueTracks candidates) as [|t0 ts] eqn:Hq.
  { rw (MatchTrack_no_candidates _ track) //. by econstructor. }
  assert (uniqueTracks candidates ≠ []) as Hne by by rw Hq.
  rw (MatchTrack_decideBy _ _ _ _ Hm Hne).
  destruct (decideBy _ _) as [r|] eqn:Hd.
  - apply decideBy_Some in Hd as (before & c & after & Hc & Hb & Hh & ->). by econstructor.
  - apply decideBy_None in Hd.
    destruct (filterTracks _ _) as [|m ms] eqn:Hmeta; by econstructor.
Qed.
End matcher_properties.

(** ** Properties *)

Section claims.
Context `{UL : UnicodeLaws}.

(** A normalised text consists of lower-case letters and numbers and of
    single spaces between them: no other rune, no space at either end, no
    two spaces in a row. *)
Theorem NormalizeText_normal s :
  let rs := runes (NormalizeText s) in
  Forall (λ r, r = 32 ∨ (IsLetter r || IsNumber r = true ∧ ToLowerRune r = r)) rs ∧
  head rs ≠ Some 32 ∧ last rs ≠ Some 32 ∧
  (∀ i, rs !! i = Some 32 → rs !! S i ≠ Some 32).
Proof.
  rw NormalizeText_words. pose proof (words_spec (TrimSpace s)) as Hws.
  set (ws := words _) in *. pose proof (words_are_words _ Hws) as Haw.
  rw runes_text; [by apply words_valid|]. cbv zeta. split_and!.
  - apply intercalate_Forall; [by left|].
    eapply Forall_impl; [exact Hws|]. intros w [_ Hw].
    eapply Forall_impl; [exact Hw|]. intros r (? & ? & _). by right.
  - by intros ?%(intercalate_head IsSpace).
  - by intros ?%(intercalate_last IsSpace).
  - intros i. by apply (intercalate_single IsSpace).
Qed.

(** Normalising twice is normalising once, so the comparison of two
    names in the matcher does not depend on either being normalised
    already. *)
Theorem NormalizeText_idempotent s : NormalizeText (NormalizeText s) = NormalizeText s.
Proof. rw (NormalizeText_words s). apply NormalizeText_of_words, words_spec. Qed.
End claims.

(** C26: the matcher's control flow implements the declarative specification
    [match_spec]: criteria are tried in the order provider ID, ISRC, metadata
    with duration; the first that any candidate meets decides, with a match
    when exactly one does; every branch of the code is one of the rules and
    the specification leaves no freedom. *)
Theorem MatchTrack_refines_spec `{Unicode} source dest candidates r :
  match_spec source dest candidates r ↔ MatchTrack source dest candidates = r.
Proof.
  split; [apply match_spec_sound|]. intros <-. apply match_spec_complete.
Qed.

(** C12: a match is never invented and never ambiguous: the entry is a
    supported, available track; the matched track is the first candidate with
    its non-empty ID, unchanged but for nil artists; it meets the criterion
    that the reason names; and no other candidate meets that criterion. *)
Theorem MatchTrack_matched_sound `{Unicode} source dest candidates :
  MatchResult_Status (MatchTrack source dest candidates) = MatchStatusMatched →
  ∃ track c t,
    matchable source track ∧ c ∈ criteria track dest ∧
    MatchTrack source dest candidates = MkMatchResult MatchStatusMatched (Some t) None (Criterion_Reason c) ∧
    Track_ID t ≠ "" ∧
    (∃ i cand, list_find (λ x, Track_ID x = Track_ID t) candidates = Some (i, cand) ∧ t = nonNilArtists cand) ∧
    Criterion_Test c t = true ∧
    ∀ t', t' ∈ uniqueTracks candidates → Criterion_Test c t' = true → t' = t.
Proof.
  pose proof (match_spec_complete source dest candidates) as Hs.
  destruct Hs as [Hno|track Hm Hq|track before c after Hm Hc Hb Hne|track Hm Hq Hb Hmeta|track meta Hm Hb Hmeta Hne];
    try discriminate.
  destruct (hits (uniqueTracks candidates) c) as [|t [|]] eqn:Ht; [done| |done]. intros _.
  assert (∀ t', t' ∈ uniqueTracks candidates ∧ Criterion_Test c t' = true ↔ t' = t) as Hhit.
  { intros t'. rw -(list_elem_of_singleton t' t) -Ht elem_of_filterTracks. tauto. }
  destruct (proj2 (Hhit t) eq_refl) as [Hin Htest].
  apply elem_of_uniqueTracks in Hin as [Hid Hfind].
  exists track, c, t. split_and!; try done.
  - rw Hc. set_solver.
  - intros t' ??. by apply Hhit.
Qed.


(** The candidates shown for an ambiguous entry are at least two or carry
    no duration evidence; they are distinct, non-empty IDs in ascending byte
    order, each the first candidate with its ID. *)
Theorem MatchTrack_ambiguous_candidates `{Unicode} source dest candidates :
  MatchResult_Status (MatchTrack source dest candidates) = MatchStatusAmbiguous →
  ∃ ts, MatchTrack source dest candidates =
      MkMatchResult MatchStatusAmbiguous None (Some ts) (MatchResult_Reason (MatchTrack source dest candidates)) ∧
    ts ≠ [] ∧ NoDup (Track_ID <$> ts) ∧ sorted_by str_ltb Track_ID ts ∧
    (∀ t, t ∈ ts → t ∈ uniqueTracks candidates) ∧
    (MatchResult_Reason (MatchTrack source dest candidates) = "metadata_without_duration_confidence" ∨
     (2 ≤ length ts)%nat).
Proof.
  assert (∀ f, let ts := filterTracks (uniqueTracks candidates) f in
    NoDup (Track_ID <$> ts) ∧ sorted_by str_ltb Track_ID ts ∧ (∀ t, t ∈ ts → t ∈ uniqueTracks candidates)) as Hf.
  { intros f. split_and!.
    - apply filterTracks_ids, uniqueTracks_NoDup.
    - apply StronglySorted_filter, (sort_by_sorted str_ltb Track_ID).
    - by intros t [_ ?]%elem_of_filterTracks. }
  pose proof (match_spec_complete source dest candidates) as Hs.
  destruct Hs as [Hno|track Hm Hq|track before c after Hm Hc Hb Hne|track Hm Hq Hb Hmeta|track meta Hm Hb Hmeta Hne];
    try discriminate.
  - rw /hits in Hne |- *. destruct (Hf (Criterion_Test c)) as (? & ? & ?).
    destruct (filterTracks _ _) as [|t [|t' ts]] eqn:Ht; [done..|]. intros _.
    exists (t :: t' :: ts). split_and!; try done. right. simpl. lia.
  - intros _. exists meta. subst meta. destruct (Hf (metadataTest track)) as (? & ? & ?).
    split_and!; try done. by left.
Qed.

(** C30: the duration test is |candidate - source| <= 2500 ms: for durations
    that fit Go's int and a positive source duration the 64-bit subtraction
    and negation do not overflow. *)
Theorem withinDuration_exact durationMS t :
  0 < durationMS → is_int durationMS → is_int (Track_DurationMS t) →
  withinDuration durationMS t = true ↔
  0 < Track_DurationMS t ∧ Z.abs (Track_DurationMS t - durationMS) ≤ durationToleranceMS.
Proof.
  intros Hd Hi Hi'. rw /withinDuration /durationToleranceMS.
  destruct (Z.leb_spec (Track_DurationMS t) 0); [split; [done|lia]|].
  rw wrap64_id. { unfold is_int, min_int, max_int in *. lia. }
  destruct (Z.ltb_spec (Track_DurationMS t - durationMS) 0).
  - rw wrap64_id. { unfold is_int, min_int, max_int in *. lia. } rw Z.leb_le. lia.
  - rw Z.leb_le. lia.
Qed.

(** A source ISRC of white space only is compared as the empty text: the
    guard tests the raw value, so a lone candidate without ISRC is reported as
    an ISRC match whatever its title and artists are. *)
Theorem MatchTrack_blank_isrc `{Unicode} source track dest candidates t :
  matchable source track →
  TrimSpace (mapGet (Track_ProviderIDs track) dest) = "" →
  Track_ISRC track ≠ "" → normISRC (Track_ISRC track) = "" →
  uniqueTracks candidates = [t] → normISRC (Track_ISRC t) = "" →
  MatchTrack source dest candidates = MkMatchResult MatchStatusMatched (Some t) None "isrc".
Proof.
  intros Hm Hid Hne Hblank Hu Ht.
  set (c := MkCriterion "isrc" (sameISRC (normISRC (Track_ISRC track)))).
  assert (sameISRC (normISRC (Track_ISRC track)) t = true) as Htest.
  { rw /sameISRC Hblank Ht. by apply bool_decide_true. }
  assert (hits (uniqueTracks candidates) c = [t]) as Hhits.
  { rw /hits Hu. by apply (filter_singleton_True (λ x, Criterion_Test c x = true)). }
  apply match_spec_sound. change (MkMatchResult _ _ _ _) with (resolveSingle (Criterion_Reason c) [t]).
  rw -Hhits. eapply (spec_decided source dest candidates track [] _ _ Hm).
  - rw /criteria Hid bool_decide_false; [by intros []|]. by rw bool_decide_true.
  - constructor.
  - by rw Hhits.
Qed.

(** ** Witnesses *)

Definition exTrack (id name : string) (durationMS : Z) (isrc : string) : Track :=
  MkTrack ProviderAppleMusic id name (Some ["Artist"]) "" durationMS isrc ∅ "".
Definition exSource (isrc : string) : PlaylistEntry :=
  MkPlaylistEntry 0 (Some (exTrack "sp1" "Track" 180000 isrc)) None false false 0.

Lemma NormalizeText_normal_witness :
  let rs := runes (@NormalizeText latin1 "  A, b!! ") in
  rs = [97; 32; 98] ∧ head rs ≠ Some 32 ∧ last rs ≠ Some 32.
Proof.
  pose proof (@NormalizeText_normal latin1 latin1_laws "  A, b!! ") as (_ & Hh & Hl & _).
  split; [vm_compute; reflexivity|]. exact (conj Hh Hl).
Defined.

Lemma NormalizeText_idempotent_witness :
  @NormalizeText latin1 (@NormalizeText latin1 " Hi  There!") = @NormalizeText latin1 " Hi  There!" ∧
  @NormalizeText latin1 " Hi  There!" = "hi there".
Proof.
  split; [exact (@NormalizeText_idempotent latin1 latin1_laws " Hi  There!")|vm_compute; reflexivity].
Defined.

Lemma MatchTrack_matched_sound_witness :
  ∃ c t, Criterion_Reason c = "isrc" ∧
    @MatchTrack latin1 (exSource "aa11") ProviderAppleMusic [exTrack "x" "Other" 1 "AA11"; exTrack "y" "Track" 2 ""] =
      MkMatchResult MatchStatusMatched (Some t) None (Criterion_Reason c) ∧ Track_ID t ≠ "".
Proof.
  assert (MatchResult_Status (@MatchTrack latin1 (exSource "aa11") ProviderAppleMusic
    [exTrack "x" "Other" 1 "AA11"; exTrack "y" "Track" 2 ""]) = MatchStatusMatched) as Hm by (vm_compute; reflexivity).
  destruct (@MatchTrack_matched_sound latin1 _ _ _ Hm) as (track & c & t & _ & _ & Hr & Hid & _).
  exists c, t. split; [|by split].
  assert (MatchResult_Reason (@MatchTrack latin1 (exSource "aa11") ProviderAppleMusic
    [exTrack "x" "Other" 1 "AA11"; exTrack "y" "Track" 2 ""]) = "isrc") as Hreason by (vm_compute; reflexivity).
  by rw Hr in Hreason.
Defined.


Lemma MatchTrack_ambiguous_candidates_witness :
  ∃ ts, MatchResult_Candidates (@MatchTrack latin1 (exSource "") ProviderAppleMusic
    [exTrack "b" "Track" 181000 ""; exTrack "a" "Track" 179500 ""]) = Some ts ∧ NoDup (Track_ID <$> ts).
Proof.
  assert (MatchResult_Status (@MatchTrack latin1 (exSource "") ProviderAppleMusic
    [exTrack "b" "Track" 181000 ""; exTrack "a" "Track" 179500 ""]) = MatchStatusAmbiguous) as Hm
    by (vm_compute; reflexivity).
  destruct (@MatchTrack_ambiguous_candidates latin1 _ _ _ Hm) as (ts & Hr & _ & Hnd & _).
  exists ts. split; [by rw Hr|done].
Defined.

Lemma withinDuration_exact_witness :
  withinDuration 180000 (exTrack "a" "Track" 182500 "") = true.
Proof. apply withinDuration_exact; vm_compute; intuition discriminate. Defined.

Lemma MatchTrack_blank_isrc_witness :
  @MatchTrack latin1 (exSource " ") ProviderAppleMusic [exTrack "x" "Unrelated" 1 ""] =
  MkMatchResult MatchStatusMatched (Some (exTrack "x" "Unrelated" 1 "")) None "isrc".
Proof.
  apply (@MatchTrack_blank_isrc latin1 (exSource " ") (exTrack "sp1" "Track" 180000 " "));
    [by repeat split|vm_compute; reflexivity|done|vm_compute; reflexivity..].
Defined.
