(* ===== verification/Database.v ===== *)
(** The PostgreSQL database: the tables of internal/platform/migrations and
    River's job table, and the transactions the stores run on them.

    A statement reads or changes the working copy of the open transaction;
    Commit publishes it, Rollback drops it.  Every statement may fail: what the
    next calls do is the schedule [w_faults] of the world (an empty schedule is
    a healthy database), and after a failed statement the transaction is
    aborted, so that only a rollback can follow.  A reply can also be lost after
    a commit took effect. *)
From S2P Require Import Prelude Errors Json Models.
Local Open Scope string_scope.
Local Open Scope list_scope.
Local Open Scope Z_scope.

(** ** Rows, from migrations/*.sql *)

Record ConnectionRow : Type := MkConnectionRow {
  conn_encrypted_credentials : string;
  conn_expires_at : Z;
  conn_created_at : Z;
  conn_updated_at : Z;
}.

Record ImportRow : Type := MkImportRow {
  imp_session_hash : string;
  imp_playlist_id : string;
  imp_river_job_id : Z;
  imp_error_code : string;
  imp_created_at : Z;
}.

Record SnapshotRow : Type := MkSnapshotRow {
  snap_playlist_id : string;
  snap_snapshot_id : string;
  snap_name : string;
  snap_spotify_url : string;
  snap_item_count : Z;
  snap_created_at : Z;
}.

Record PreviewRow : Type := MkPreviewRow {
  prev_session_hash : string;
  prev_source_provider : string;
  prev_source_snapshot_id : string;
  prev_source_playlist : json;
  prev_destination_provider : string;
  prev_destination_playlist_name : string;
  prev_state : string;
  prev_created_at : Z;
}.

Record PreviewEntryRow : Type := MkPreviewEntryRow {
  pe_source_entry : json;
  pe_status : MatchStatus;   (* the column's CHECK admits these four *)
  pe_matched_track : json;
  pe_candidate_tracks : json;
  pe_reason : string;
}.

Record RunRow : Type := MkRunRow {
  run_preview_id : string;
  run_session_hash : string;
  run_river_job_id : Z;
  run_state : string;
  run_error_code : string;
  run_destination_playlist_id : string;
  run_next_position : Z;
  run_created_at : Z;
  run_updated_at : Z;
}.

(** River's job states. *)
Inductive JobState : Type :=
| JobAvailable | JobPending | JobRunning | JobRetryable | JobScheduled
| JobCancelled | JobCompleted | JobDiscarded.

#[export] Instance JobState_eq_dec : EqDecision JobState.
Proof. solve_decision. Defined.

(** [j.state IN ('available','pending','running','retryable','scheduled')]. *)
Definition job_active (s : JobState) : bool :=
  match s with JobCancelled | JobCompleted | JobDiscarded => false | _ => true end.

Record JobRow : Type := MkJobRow {
  job_kind : string;
  job_args : string;      (* the opaque ID in the arguments *)
  job_state : JobState;
  job_max_attempts : Z;
}.

(** Tables keyed by their primary key.  The two entry tables, with key
    (owner, position), are grouped by owner. *)
Record DB : Type := MkDB {
  spotify_connections : gmap string ConnectionRow;
  spotify_imports : gmap string ImportRow;
  spotify_snapshots : gmap string SnapshotRow;
  spotify_snapshot_entries : gmap string (gmap Z json);
  apple_connections : gmap string ConnectionRow;
  transfer_previews : gmap string PreviewRow;
  transfer_preview_entries : gmap string (gmap Z PreviewEntryRow);
  transfer_runs : gmap string RunRow;
  river_job : gmap Z JobRow;
  river_next_id : Z;
}.

Definition emptyDB : DB := MkDB ∅ ∅ ∅ ∅ ∅ ∅ ∅ ∅ ∅ 1.

(** Updates of one table. *)
Definition set_connections f db := MkDB (f (spotify_connections db)) (spotify_imports db) (spotify_snapshots db)
  (spotify_snapshot_entries db) (apple_connections db) (transfer_previews db)
  (transfer_preview_entries db) (transfer_runs db) (river_job db) (river_next_id db).
Definition set_imports f db := MkDB (spotify_connections db) (f (spotify_imports db)) (spotify_snapshots db)
  (spotify_snapshot_entries db) (apple_connections db) (transfer_previews db)
  (transfer_preview_entries db) (transfer_runs db) (river_job db) (river_next_id db).
Definition set_snapshots f db := MkDB (spotify_connections db) (spotify_imports db) (f (spotify_snapshots db))
  (spotify_snapshot_entries db) (apple_connections db) (transfer_previews db)
  (transfer_preview_entries db) (transfer_runs db) (river_job db) (river_next_id db).
Definition set_snapshot_entries f db := MkDB (spotify_connections db) (spotify_imports db) (spotify_snapshots db)
  (f (spotify_snapshot_entries db)) (apple_connections db) (transfer_previews db)
  (transfer_preview_entries db) (transfer_runs db) (river_job db) (river_next_id db).
Definition set_apple_connections f db := MkDB (spotify_connections db) (spotify_imports db) (spotify_snapshots db)
  (spotify_snapshot_entries db) (f (apple_connections db)) (transfer_previews db)
  (transfer_preview_entries db) (transfer_runs db) (river_job db) (river_next_id db).
Definition set_previews f db := MkDB (spotify_connections db) (spotify_imports db) (spotify_snapshots db)
  (spotify_snapshot_entries db) (apple_connections db) (f (transfer_previews db))
  (transfer_preview_entries db) (transfer_runs db) (river_job db) (river_next_id db).
Definition set_preview_entries f db := MkDB (spotify_connections db) (spotify_imports db) (spotify_snapshots db)
  (spotify_snapshot_entries db) (apple_connections db) (transfer_previews db)
  (f (transfer_preview_entries db)) (transfer_runs db) (river_job db) (river_next_id db).
Definition set_runs f db := MkDB (spotify_connections db) (spotify_imports db) (spotify_snapshots db)
  (spotify_snapshot_entries db) (apple_connections db) (transfer_previews db)
  (transfer_preview_entries db) (f (transfer_runs db)) (river_job db) (river_next_id db).

Definition set_jobs f db := MkDB (spotify_connections db) (spotify_imports db) (spotify_snapshots db)
  (spotify_snapshot_entries db) (apple_connections db) (transfer_previews db)
  (transfer_preview_entries db) (transfer_runs db) (f (river_job db)) (river_next_id db).

(** River's [InsertTx]: a new available job with the next ID. *)
Definition insert_job (kind args : string) (maxAttempts : Z) (db : DB) : Z * DB :=
  (river_next_id db,
   MkDB (spotify_connections db) (spotify_imports db) (spotify_snapshots db) (spotify_snapshot_entries db)
     (apple_connections db) (transfer_previews db) (transfer_preview_entries db) (transfer_runs db)
     (<[river_next_id db := MkJobRow kind args JobAvailable maxAttempts]> (river_job db))
     (river_next_id db + 1)).

(** [CHECK (length(session_hash) = 64)]. *)
Definition check_hash (hash : string) : bool := Z.of_nat (String.length hash) =? 64.
(** A value of an [integer] column with [CHECK (position >= 0)]. *)
Definition check_position (p : Z) : bool := (0 <=? p) && (p <=? 2147483647).

(** [ORDER BY position] over the entries of one owner. *)
Definition ordered {A} (m : gmap Z A) : list (Z * A) := sort_by Z.ltb fst (map_to_list m).

(** ** Transactions *)

Inductive fault : Type :=
| Healthy
| Fails (text : string)        (* the call has no effect and returns an error *)
| LosesReply (text : string).  (* a commit takes effect and still returns an error *)

Record world (R : Type) : Type := MkWorld {
  w_db : DB;                    (* committed *)
  w_tx : option (DB * bool);    (* the open transaction: working copy, aborted? *)
  w_faults : list fault;
  w_now : Z;                    (* now() *)
  w_remote : R;                 (* everything outside the database *)
}.
Arguments MkWorld {R}.
Arguments w_db {R}.
Arguments w_tx {R}.
Arguments w_faults {R}.
Arguments w_now {R}.
Arguments w_remote {R}.

Section sql.
Context {R : Type}.
Implicit Types w : world R.

Definition set_tx (tx : option (DB * bool)) w : world R :=
  MkWorld (w_db w) tx (w_faults w) (w_now w) (w_remote w).
Definition set_db (db : DB) w : world R :=
  MkWorld db (w_tx w) (w_faults w) (w_now w) (w_remote w).
Definition set_remote (r : R) w : world R :=
  MkWorld (w_db w) (w_tx w) (w_faults w) (w_now w) r.

(** What the next database call does. *)
Definition next_fault w : fault * world R :=
  match w_faults w with
  | [] => (Healthy, w)
  | f :: fs => (f, MkWorld (w_db w) (w_tx w) fs (w_now w) (w_remote w))
  end.

(** [pool.Begin(ctx)]. *)
Definition begin : M (world R) error unit := λ w,
  let '(f, w) := next_fault w in
  match f with
  | Healthy => (Ok tt, set_tx (Some (w_db w, false)) w)
  | Fails t | LosesReply t => (Err (DatabaseError t), w)
  end.

(** One statement of the transaction: it reads the working copy and the time,
    and returns a new working copy or a constraint violation. *)
Definition tx_stmt {A} (stmt : Z → DB → result (A * DB)) : M (world R) error A := λ w,
  let '(f, w) := next_fault w in
  match w_tx w with
  | None => (Err (DatabaseError "tx is closed"), w)
  | Some (db, true) => (Err (DatabaseError "current transaction is aborted"), w)
  | Some (db, false) =>
      match f with
      | Healthy =>
          match stmt (w_now w) db with
          | Ok (a, db') => (Ok a, set_tx (Some (db', false)) w)
          | Err e => (Err e, set_tx (Some (db, true)) w)
          end
      | Fails t | LosesReply t => (Err (DatabaseError t), set_tx (Some (db, true)) w)
      end
  end.

(** A query of the transaction. *)
Definition tx_query {A} (q : Z → DB → A) : M (world R) error A :=
  tx_stmt (λ now db, Ok (q now db, db)).

(** An update without result. *)
Definition tx_exec (u : Z → DB → result DB) : M (world R) error unit :=
  tx_stmt (λ now db, match u now db with Ok db' => Ok (tt, db') | Err e => Err e end).

(** [tx.Commit(ctx)]: committing an aborted transaction rolls it back. *)
Definition commit : M (world R) error unit := λ w,
  let '(f, w) := next_fault w in
  match w_tx w with
  | None => (Err (DatabaseError "tx is closed"), w)
  | Some (_, true) => (Err (DatabaseError "commit unexpectedly resulted in rollback"), set_tx None w)
  | Some (db, false) =>
      match f with
      | Healthy => (Ok tt, set_tx None (set_db db w))
      | Fails t => (Err (DatabaseError t), set_tx None w)
      | LosesReply t => (Err (DatabaseError t), set_tx None (set_db db w))
      end
  end.

(** [defer tx.Rollback(...)]: whatever was not committed is dropped. *)
Definition defer_rollback {A} (body : M (world R) error A) : M (world R) error A := λ w,
  let '(r, w) := body w in (r, set_tx None w).

(** [pool.Begin], then the body under the deferred rollback. *)
Definition with_tx {A} (body : M (world R) error A) : M (world R) error A :=
  begin ;; defer_rollback body.

(** A statement run on the pool, in a transaction of its own. *)
Definition pool_query {A} (q : Z → DB → A) : M (world R) error A := λ w,
  let '(f, w) := next_fault w in
  match f with
  | Healthy => (Ok (q (w_now w) (w_db w)), w)
  | Fails t | LosesReply t => (Err (DatabaseError t), w)
  end.

Definition pool_exec (u : Z → DB → result DB) : M (world R) error unit := λ w,
  let '(f, w) := next_fault w in
  match f with
  | Fails t => (Err (DatabaseError t), w)
  | _ =>
      match u (w_now w) (w_db w) with
      | Err e => (Err e, w)
      | Ok db' => (match f with LosesReply t => Err (DatabaseError t) | _ => Ok tt end, set_db db' w)
      end
  end.

(** A call outside the database. *)
Definition remote {A} (m : M R error A) : M (world R) error A := λ w,
  let '(r, s) := m (w_remote w) in (r, set_remote s w).
End sql.

(** ** Reasoning about transactions, whatever the faults *)

Section sql_rules.
Context {R : Type}.
Implicit Types (D d : DB) (fs : list fault) (now : Z) (r : R).

Lemma wp_tx_stmt {A} D d ab fs now r (stmt : Z → DB → result (A * DB)) Q :
  (∀ fs' a d', ab = false → stmt now d = Ok (a, d') → Q (Ok a) (MkWorld D (Some (d', false)) fs' now r)) →
  (∀ fs' e, (∃ t, e = DatabaseError t) ∨ stmt now d = Err e → Q (Err e) (MkWorld D (Some (d, true)) fs' now r)) →
  wp (tx_stmt stmt) Q (MkWorld D (Some (d, ab)) fs now r).
Proof.
  intros Hok Herr. rw /wp /tx_stmt /next_fault /=.
  destruct fs as [|[] fs]; simpl; destruct ab; simpl; eauto.
  all: destruct (stmt now d) as [[a d']|e] eqn:E; simpl; eauto.
Qed.

Lemma wp_tx_query {A} D d ab fs now r (q : Z → DB → A) Q :
  (∀ fs', ab = false → Q (Ok (q now d)) (MkWorld D (Some (d, false)) fs' now r)) →
  (∀ fs' t, Q (Err (DatabaseError t)) (MkWorld D (Some (d, true)) fs' now r)) →
  wp (tx_query q) Q (MkWorld D (Some (d, ab)) fs now r).
Proof.
  intros Hok Herr. apply wp_tx_stmt.
  - intros fs' a d' Hab [= <- <-]. auto.
  - intros fs' e [[t ->]|[=]]. auto.
Qed.

Lemma wp_tx_exec D d ab fs now r (u : Z → DB → result DB) Q :
  (∀ fs' d', ab = false → u now d = Ok d' → Q (Ok tt) (MkWorld D (Some (d', false)) fs' now r)) →
  (∀ fs' e, (∃ t, e = DatabaseError t) ∨ u now d = Err e → Q (Err e) (MkWorld D (Some (d, true)) fs' now r)) →
  wp (tx_exec u) Q (MkWorld D (Some (d, ab)) fs now r).
Proof.
  intros Hok Herr. apply wp_tx_stmt.
  - intros fs' [] d' Hab. destruct (u now d) eqn:E; [|done]. intros [= <-]. auto.
  - intros fs' e [[t ->]|He]; [eauto|]. apply Herr. right.
    by destruct (u now d); simplify_eq.
Qed.

Lemma wp_commit D d ab fs now r Q :
  (∀ fs', ab = false → Q (Ok tt) (MkWorld d None fs' now r)) →
  (∀ fs' D' t, D' = D ∨ (ab = false ∧ D' = d) → Q (Err (DatabaseError t)) (MkWorld D' None fs' now r)) →
  wp commit Q (MkWorld D (Some (d, ab)) fs now r).
Proof.
  intros Hok Herr. rw /wp /commit /next_fault /=.
  destruct fs as [|[] fs]; simpl; destruct ab; simpl; eauto.
Qed.

(** The same rules where it matters whether anything went wrong: without
    faults only the statement itself can fail. *)
Lemma wp_tx_query_healthy {A} D d fs now r (q : Z → DB → A) Q :
  (∀ fs', (fs = [] → fs' = []) → Q (Ok (q now d)) (MkWorld D (Some (d, false)) fs' now r)) →
  (∀ fs' t, fs ≠ [] → Q (Err (DatabaseError t)) (MkWorld D (Some (d, true)) fs' now r)) →
  wp (tx_query q) Q (MkWorld D (Some (d, false)) fs now r).
Proof.
  intros Hok Herr. rw /wp /tx_query /tx_stmt /next_fault /=.
  destruct fs as [|[] fs]; simpl; first [by apply Hok|by apply Herr].
Qed.

Lemma wp_tx_exec_healthy D d fs now r (u : Z → DB → result DB) Q :
  (∀ fs' d', (fs = [] → fs' = []) → u now d = Ok d' → Q (Ok tt) (MkWorld D (Some (d', false)) fs' now r)) →
  (∀ fs' e, fs ≠ [] ∨ u now d = Err e → Q (Err e) (MkWorld D (Some (d, true)) fs' now r)) →
  wp (tx_exec u) Q (MkWorld D (Some (d, false)) fs now r).
Proof.
  intros Hok Herr. rw /wp /tx_exec /tx_stmt /next_fault /=.
  destruct fs as [|[] fs]; simpl; try (apply Herr; by left);
    (destruct (u now d) eqn:E; [by apply Hok|apply Herr; by right]).
Qed.

Lemma wp_commit_healthy D d fs now r Q :
  (∀ fs', (fs = [] → fs' = []) → Q (Ok tt) (MkWorld d None fs' now r)) →
  (∀ fs' D' t, fs ≠ [] → D' = D ∨ D' = d → Q (Err (DatabaseError t)) (MkWorld D' None fs' now r)) →
  wp commit Q (MkWorld D (Some (d, false)) fs now r).
Proof.
  intros Hok Herr. rw /wp /commit /next_fault /=.
  destruct fs as [|[] fs]; simpl; first [by apply Hok|by apply Herr; auto].
Qed.

Lemma wp_with_tx_healthy {A} D fs now r (body : M (world R) error A) Q :
  (∀ fs', (fs = [] → fs' = []) → wp body (λ res w, Q res (set_tx None w)) (MkWorld D (Some (D, false)) fs' now r)) →
  (∀ fs' t, fs ≠ [] → Q (Err (DatabaseError t)) (MkWorld D None fs' now r)) →
  wp (with_tx body) Q (MkWorld D None fs now r).
Proof.
  intros Hbody Herr. apply wp_bind. rw /wp /begin /next_fault /=.
  destruct fs as [|[|t|t] fs]; simpl; [| |by apply Herr|by apply Herr];
    [specialize (Hbody [])|specialize (Hbody fs)];
    rw /wp /defer_rollback /set_tx /= in Hbody |- *; destruct (body _); by apply Hbody.
Qed.

Lemma wp_remote {A} D tx fs now r (m : M R error A) Q :
  wp m (λ res r', Q res (MkWorld D tx fs now r')) r →
  wp (remote m) Q (MkWorld D tx fs now r).
Proof. rw /wp /remote /=. by destruct (m r). Qed.

Lemma wp_with_tx {A} D tx fs now r (body : M (world R) error A) Q :
  (∀ fs', wp body (λ res w, Q res (set_tx None w)) (MkWorld D (Some (D, false)) fs' now r)) →
  (∀ fs' t, Q (Err (DatabaseError t)) (MkWorld D tx fs' now r)) →
  wp (with_tx body) Q (MkWorld D tx fs now r).
Proof.
  intros Hbody Herr. apply wp_bind. rw /wp /begin /next_fault /=.
  destruct fs as [|[|t|t] fs]; simpl; [| |by apply Herr|by apply Herr];
    [specialize (Hbody [])|specialize (Hbody fs)];
    rw /wp /defer_rollback /set_tx /= in Hbody |- *; by destruct (body _).
Qed.

Lemma wp_pool_query {A} D tx fs now r (q : Z → DB → A) Q :
  (∀ fs', Q (Ok (q now D)) (MkWorld D tx fs' now r)) →
  (∀ fs' t, Q (Err (DatabaseError t)) (MkWorld D tx fs' now r)) →
  wp (pool_query q) Q (MkWorld D tx fs now r).
Proof. intros Hok Herr. rw /wp /pool_query /next_fault /=. destruct fs as [|[] fs]; simpl; eauto. Qed.

(** Two databases that answer a query alike are told apart neither by the query
    nor by the faults. *)
Lemma tx_query_twin {A} D1 D2 ab fs now r (q : Z → DB → A) :
  q now D1 = q now D2 →
  ∃ res ab' fs', (res = Ok (q now D1) ∨ ∃ e, res = Err e) ∧
    tx_query q (MkWorld D1 (Some (D1, ab)) fs now r) = (res, MkWorld D1 (Some (D1, ab')) fs' now r) ∧
    tx_query q (MkWorld D2 (Some (D2, ab)) fs now r) = (res, MkWorld D2 (Some (D2, ab')) fs' now r).
Proof.
  intros Hq. rw /tx_query /tx_stmt /next_fault. cbn. destruct fs as [|[] fs]; cbn; destruct ab; cbn; rw -?Hq; eauto 10.
Qed.

Lemma commit_twin D1 D2 ab fs now r :
  (commit (MkWorld D1 (Some (D1, ab)) fs now r)).1 = (commit (MkWorld D2 (Some (D2, ab)) fs now r)).1.
Proof. rw /commit /next_fault. cbn. by destruct fs as [|[] fs]; cbn; destruct ab. Qed.

Lemma with_tx_twin {A} D1 D2 fs now r (body : M (world R) error A) :
  (∀ fs', (body (MkWorld D1 (Some (D1, false)) fs' now r)).1 = (body (MkWorld D2 (Some (D2, false)) fs' now r)).1) →
  (with_tx body (MkWorld D1 None fs now r)).1 = (with_tx body (MkWorld D2 None fs now r)).1.
Proof.
  intros Hbody. rw /with_tx !bind_unfold /begin /next_fault. cbn.
  destruct fs as [|[|t|t] fs]; cbn; rw /defer_rollback /set_tx /=; [| |done|done];
    [specialize (Hbody [])|specialize (Hbody fs)];
    by destruct (body (MkWorld D1 _ _ _ _)), (body (MkWorld D2 _ _ _ _)).
Qed.
End sql_rules.

(** ** Invariants of the database and of the world outside *)

(** At time [T], [P] holds of the committed database and [J] of the world
    outside: while a transaction may be open, where [P] holds of its working copy
    too, and between transactions. *)
Section invariants.
Context {R : Type} (T : Z) (P : DB → Prop) (J : R → Prop).

Definition during (w : world R) : Prop :=
  P (w_db w) ∧ (∀ d b, w_tx w = Some (d, b) → P d) ∧ J (w_remote w) ∧ w_now w = T.
Definition between (w : world R) : Prop := w_tx w = None ∧ P (w_db w) ∧ J (w_remote w) ∧ w_now w = T.

Lemma yields_tx_stmt {A} (Q : A → Prop) (stmt : Z → DB → result (A * DB)) :
  (∀ d a d', P d → stmt T d = Ok (a, d') → P d' ∧ Q a) → yields during Q (tx_stmt stmt).
Proof.
  intros Hs w (HP & Ht & HJ & HT). rw /tx_stmt /next_fault.
  destruct (w_faults w) as [|[] fs]; cbn; destruct (w_tx w) as [[db []]|] eqn:Etx; cbn;
    try (split; [split_and!; naive_solver|done]);
    rw HT; destruct (stmt T db) as [[a d']|e] eqn:Es; cbn;
    (split; [split_and!|]; naive_solver).
Qed.
Lemma during_tx_stmt {A} (stmt : Z → DB → result (A * DB)) :
  (∀ d a d', P d → stmt T d = Ok (a, d') → P d') → keeps during (tx_stmt stmt).
Proof. intros Hs. apply (yields_keeps _ (λ _, True)), yields_tx_stmt. eauto. Qed.
Lemma yields_tx_query {A} (Q : A → Prop) (q : Z → DB → A) : (∀ d, P d → Q (q T d)) → yields during Q (tx_query q).
Proof. intros Hq. apply yields_tx_stmt. intros d a d' Hd [= <- <-]. auto. Qed.
Lemma during_tx_query {A} (q : Z → DB → A) : keeps during (tx_query q).
Proof. apply during_tx_stmt. naive_solver. Qed.
Lemma during_tx_exec u : (∀ d d', P d → u T d = Ok d' → P d') → keeps during (tx_exec u).
Proof. intros Hu. apply during_tx_stmt. intros d [] d' Hd. specialize (Hu d). destruct (u T d); naive_solver. Qed.
Lemma during_commit : keeps during commit.
Proof.
  intros w (HP & Ht & HJ & HT). rw /commit /next_fault.
  destruct (w_faults w) as [|[] fs]; cbn; destruct (w_tx w) as [[db []]|] eqn:Etx; cbn; split_and!; naive_solver.
Qed.
Lemma during_remote {A} (m : M R error A) : keeps J m → keeps during (remote m).
Proof. intros Hm w (HP & Ht & HJ & HT). specialize (Hm _ HJ). rw /remote. by destruct (m (w_remote w)). Qed.

Lemma between_with_tx {A} (body : M (world R) error A) : keeps during body → keeps between (with_tx body).
Proof.
  intros Hb w (Htx & HP & HJ & HT). rw /with_tx bind_unfold /begin /next_fault.
  assert (∀ fs, between (defer_rollback body (MkWorld (w_db w) (Some (w_db w, false)) fs (w_now w) (w_remote w))).2) as Hbody.
  { intros fs. rw /defer_rollback.
    specialize (Hb (MkWorld (w_db w) (Some (w_db w, false)) fs (w_now w) (w_remote w))).
    destruct (body _) as [res w']. destruct Hb as (HP' & _ & HJ' & HT'); [|by split_and!].
    split_and!; [done|by intros d b [= <- _]|done|done]. }
  destruct (w_faults w) as [|[] fs]; cbn; [apply Hbody|apply Hbody|by split_and!..].
Qed.
Lemma yields_pool_query {A} (Q : A → Prop) (q : Z → DB → A) : (∀ d, P d → Q (q T d)) → yields between Q (pool_query q).
Proof.
  intros Hq w (Htx & HP & HJ & HT). rw /pool_query /next_fault.
  destruct (w_faults w) as [|[] fs]; cbn; (split; [done|]); rw ?HT; naive_solver.
Qed.
Lemma between_pool_query {A} (q : Z → DB → A) : keeps between (pool_query q).
Proof. apply (yields_keeps _ (λ _, True)), yields_pool_query. auto. Qed.
Lemma between_pool_exec u : (∀ d d', P d → u T d = Ok d' → P d') → keeps between (pool_exec u).
Proof.
  intros Hu w (Htx & HP & HJ & HT). rw /pool_exec /next_fault.
  destruct (w_faults w) as [|[] fs]; cbn; try done; rw HT; destruct (u T (w_db w)) eqn:Eu; cbn; split_and!; naive_solver.
Qed.
Lemma between_remote {A} (m : M R error A) : keeps J m → keeps between (remote m).
Proof. intros Hm w (Htx & HP & HJ & HT). specialize (Hm _ HJ). rw /remote. by destruct (m (w_remote w)). Qed.
End invariants.

(** [P] of the database between transactions, whatever is outside. *)
Abbreviation idle T P := (between T P (λ _, True)).

#[export] Hint Resolve during_tx_query during_commit during_remote between_pool_query between_remote : keeps.

(** ** Ordered entries *)

Lemma ordered_elem {A} (m : gmap Z A) k v : (k, v) ∈ ordered m ↔ m !! k = Some v.
Proof. by rw /ordered sort_by_perm elem_of_map_to_list. Qed.

Lemma ordered_NoDup {A} (m : gmap Z A) : NoDup (ordered m).*1.
Proof. rw /ordered sort_by_perm. apply NoDup_fst_map_to_list. Qed.

Lemma ordered_sorted {A} (m : gmap Z A) : sorted_by Z.ltb fst (ordered m).
Proof. apply (sort_by_sorted Z.ltb fst). Qed.

(** Rows inserted in ascending positions come back in that order. *)
Lemma ordered_list_to_map {A} (l : list (Z * A)) :
  NoDup l.*1 → sorted_by Z.ltb fst l → ordered (list_to_map l) = l.
Proof.
  intros Hnd Hs. rw -{2}(sort_by_id Z.ltb fst l Hnd Hs) /ordered.
  apply (sort_by_unique Z.ltb fst); [apply NoDup_fst_map_to_list|].
  by rw map_to_list_to_map.
Qed.
