(* ===== verification/SpotifyTypes.v ===== *)
(** The data of internal/spotify/playlists.go: playlists, snapshot entries and
    the normalisation of one playlist occurrence, with the JSON encoding of
    the entries kept in [spotify_snapshot_entries]. *)
From S2P Require Import Prelude GoStrings Errors Json Models.
Local Open Scope string_scope.
Local Open Scope list_scope.
Local Open Scope Z_scope.
Local Open Scope go_scope.

Definition maxSnapshotItems : Z := 10000.

(** [Items] and [Tracks] are the two optional summaries that carry a total. *)
Record SpotifyPlaylist : Type := MkSpotifyPlaylist {
  SpotifyPlaylist_ID : string;
  SpotifyPlaylist_Name : string;
  SpotifyPlaylist_SnapshotID : string;
  SpotifyPlaylist_URL : string;
  SpotifyPlaylist_Items : option Z;
  SpotifyPlaylist_Tracks : option Z;
}.

Definition count (p : SpotifyPlaylist) : result Z :=
  match SpotifyPlaylist_Items p with
  | Some total => Ok total
  | None => match SpotifyPlaylist_Tracks p with
            | Some total => Ok total
            | None => Err (ErrorString "missing_playlist_item_count")
            end
  end.

(** The exported page: an offset, never a URL of the provider. *)
Record Page (T : Type) : Type := MkPage {
  Page_Items : list T;
  Page_Total : Z;
  Page_Offset : Z;
  Page_NextOffset : option Z;
}.
Arguments MkPage {T}.
Arguments Page_Items {T}.
Arguments Page_Total {T}.
Arguments Page_Offset {T}.
Arguments Page_NextOffset {T}.

Record providerPage (T : Type) : Type := MkproviderPage {
  providerPage_Items : slice T;
  providerPage_Total : Z;
  providerPage_Offset : Z;
}.
Arguments MkproviderPage {T}.
Arguments providerPage_Items {T}.
Arguments providerPage_Total {T}.
Arguments providerPage_Offset {T}.

Record Artist : Type := MkArtist {
  Artist_ID : string;
  Artist_Name : string;
}.

Record Entry : Type := MkEntry {
  Entry_Position : Z;
  Entry_AddedAt : option string;
  Entry_Type : string;
  Entry_ID : string;
  Entry_URI : string;
  Entry_Name : string;
  Entry_Artists : slice Artist;
  Entry_Album : string;
  Entry_DurationMS : Z;
  Entry_ISRC : string;
  Entry_SpotifyURL : string;
  Entry_LinkedFromID : string;
  Entry_IsLocal : bool;
  Entry_Unavailable : bool;
  Entry_Unsupported : bool;
  Entry_IsPlayable : option bool;
}.

Record mediaItem : Type := MkmediaItem {
  mediaItem_Type : string;
  mediaItem_ID : string;
  mediaItem_URI : string;
  mediaItem_Name : string;
  mediaItem_Artists : slice Artist;
  mediaItem_AlbumName : string;
  mediaItem_DurationMS : Z;
  mediaItem_ISRC : string;
  mediaItem_SpotifyURL : string;
  mediaItem_LinkedFromID : string;
  mediaItem_IsLocal : bool;
  mediaItem_IsPlayable : option bool;
}.

Record playlistOccurrence : Type := MkplaylistOccurrence {
  playlistOccurrence_AddedAt : option string;
  playlistOccurrence_IsLocal : bool;
  playlistOccurrence_Item : option mediaItem;
  playlistOccurrence_Track : option mediaItem;
}.

#[export] Instance Artist_eq_dec : EqDecision Artist.
Proof. solve_decision. Defined.
#[export] Instance Entry_eq_dec : EqDecision Entry.
Proof. solve_decision. Defined.

Definition entry (o : playlistOccurrence) (position : Z) : Entry :=
  let m := match playlistOccurrence_Item o with
           | Some m => Some m
           | None => playlistOccurrence_Track o
           end in
  match m with
  | None =>
      MkEntry position (playlistOccurrence_AddedAt o) "" "" "" "" (Some []) "" 0 "" "" ""
        (playlistOccurrence_IsLocal o) true false None
  | Some m =>
      let isLocal := playlistOccurrence_IsLocal o || mediaItem_IsLocal m in
      MkEntry position (playlistOccurrence_AddedAt o)
        (mediaItem_Type m) (mediaItem_ID m) (mediaItem_URI m) (mediaItem_Name m)
        (match mediaItem_Artists m with Some l => Some l | None => Some [] end)
        (mediaItem_AlbumName m) (mediaItem_DurationMS m) (mediaItem_ISRC m)
        (mediaItem_SpotifyURL m) (mediaItem_LinkedFromID m)
        isLocal
        (negb isLocal && (bool_decide (mediaItem_ID m = "") ||
          match mediaItem_IsPlayable m with Some playable => negb playable | None => false end))
        (negb (bool_decide (mediaItem_Type m = "track")))
        (mediaItem_IsPlayable m)
  end.

Definition validPlaylistID (id : string) : bool :=
  if (slen id =? 0) || (128 <? slen id) then false
  else forallb (λ ch, between 0x41 0x5A ch || between 0x61 0x7A ch || between 0x30 0x39 ch) (runes id).

(** ** JSON of [Entry] *)

Definition marshalArtist (a : Artist) : json :=
  JObject [("id", marshalString (Artist_ID a)); ("name", marshalString (Artist_Name a))].
Definition unmarshalArtist (j : json) : result Artist :=
  let* fs := fieldsOf j in
  let* id := unmarshalString (getField fs "id") in
  let* name := unmarshalString (getField fs "name") in
  Ok (MkArtist id name).

Definition marshalEntry (e : Entry) : json := JObject (
  [("position", JInt (Entry_Position e));
   ("added_at", marshalPtr marshalString (Entry_AddedAt e));
   ("type", marshalString (Entry_Type e));
   ("id", marshalString (Entry_ID e));
   ("uri", marshalString (Entry_URI e));
   ("name", marshalString (Entry_Name e));
   ("artists", marshalSlice marshalArtist (Entry_Artists e));
   ("album", marshalString (Entry_Album e));
   ("duration_ms", JInt (Entry_DurationMS e));
   ("isrc", marshalString (Entry_ISRC e));
   ("spotify_url", marshalString (Entry_SpotifyURL e))] ++
  omitempty (bool_decide (Entry_LinkedFromID e = "")) "linked_from_id" (marshalString (Entry_LinkedFromID e)) ++
  [("is_local", JBool (Entry_IsLocal e));
   ("unavailable", JBool (Entry_Unavailable e));
   ("unsupported", JBool (Entry_Unsupported e));
   ("is_playable", marshalPtr JBool (Entry_IsPlayable e))]).

Definition unmarshalEntry (j : json) : result Entry :=
  let* fs := fieldsOf j in
  let* position := unmarshalInt (getField fs "position") in
  let* addedAt := unmarshalPtr unmarshalString (getField fs "added_at") in
  let* type := unmarshalString (getField fs "type") in
  let* id := unmarshalString (getField fs "id") in
  let* uri := unmarshalString (getField fs "uri") in
  let* name := unmarshalString (getField fs "name") in
  let* artists := unmarshalSlice unmarshalArtist (getField fs "artists") in
  let* album := unmarshalString (getField fs "album") in
  let* durationMS := unmarshalInt (getField fs "duration_ms") in
  let* isrc := unmarshalString (getField fs "isrc") in
  let* spotifyURL := unmarshalString (getField fs "spotify_url") in
  let* linkedFromID := unmarshalString (getField fs "linked_from_id") in
  let* isLocal := unmarshalBool (getField fs "is_local") in
  let* unavailable := unmarshalBool (getField fs "unavailable") in
  let* unsupported := unmarshalBool (getField fs "unsupported") in
  let* isPlayable := unmarshalPtr unmarshalBool (getField fs "is_playable") in
  Ok (MkEntry position addedAt type id uri name artists album durationMS isrc spotifyURL
        linkedFromID isLocal unavailable unsupported isPlayable).

Definition wf_artist (a : Artist) : Prop := valid_string (Artist_ID a) ∧ valid_string (Artist_Name a).

Definition wf_spotify_entry (e : Entry) : Prop :=
  is_int (Entry_Position e) ∧ (∀ s, Entry_AddedAt e = Some s → valid_string s) ∧
  valid_string (Entry_Type e) ∧ valid_string (Entry_ID e) ∧ valid_string (Entry_URI e) ∧
  valid_string (Entry_Name e) ∧ Forall wf_artist (elems (Entry_Artists e)) ∧
  valid_string (Entry_Album e) ∧ is_int (Entry_DurationMS e) ∧ valid_string (Entry_ISRC e) ∧
  valid_string (Entry_SpotifyURL e) ∧ valid_string (Entry_LinkedFromID e).

Lemma Artist_roundtrip a : wf_artist a → unmarshalArtist (marshalArtist a) = Ok a.
Proof.
  intros [Hid Hn]. destruct a. simpl in *. rw /unmarshalArtist /marshalArtist.
  cbn [fieldsOf]. by decode_fields.
Qed.

Lemma Entry_roundtrip e : wf_spotify_entry e → unmarshalEntry (marshalEntry e) = Ok e.
Proof.
  intros (Hp & Ha & Ht & Hid & Hu & Hn & Hart & Hal & Hd & Hi & Hs & Hl).
  destruct e as [pos added ty id uri name artists album dur isrc url linked local unav unsup playable]. simpl in *.
  assert (unmarshalSlice unmarshalArtist (marshalSlice marshalArtist artists) = Ok artists).
  { apply unmarshalSlice_marshal. eapply Forall_impl; [exact Hart|]. apply Artist_roundtrip. }
  assert (unmarshalPtr unmarshalString (marshalPtr marshalString added) = Ok added).
  { apply unmarshalPtr_marshal. intros s Es. split; [done|]. by apply unmarshalString_marshal, Ha. }
  assert (unmarshalPtr unmarshalBool (marshalPtr JBool playable) = Ok playable) by by destruct playable.
  rw /unmarshalEntry /marshalEntry. cbn [app fieldsOf]. by decode_fields.
Qed.
