(* ===== verification/TransferStore.v ===== *)
(** internal/transfer/store.go: reading an imported snapshot, saving and
    loading previews, enqueuing runs and their progress.  The random IDs
    ([rand.Text]) and the process clock are arguments. *)
From S2P Require Import Prelude GoStrings Errors Json Models SpotifyTypes Database.
Local Open Scope string_scope.
Local Open Scope list_scope.
Local Open Scope Z_scope.
Local Open Scope go_scope.

Definition fromSpotifyEntry (e : Entry) : PlaylistEntry :=
  let track :=
    if bool_decide (Entry_ID e = "") && bool_decide (Entry_Name e = "") then None
    else Some (MkTrack
      (if Entry_Unsupported e then Entry_Type e else ProviderSpotify)
      (Entry_ID e) (Entry_Name e) (Some (Artist_Name <$> elems (Entry_Artists e)))
      (Entry_Album e) (Entry_DurationMS e) (Entry_ISRC e)
      {[ ProviderSpotify := if bool_decide (Entry_LinkedFromID e ≠ "") then Entry_LinkedFromID e else Entry_ID e ]}
      (Entry_SpotifyURL e)) in
  MkPlaylistEntry (Entry_Position e) track (Entry_AddedAt e) (Entry_Unavailable e) (Entry_Unsupported e) 0.

(** [id[:8]] when the ID is longer than 8 bytes. *)
Definition shortID (id : string) : string := String.substring 0 8 id.

Section store.
Context {R : Type}.
Abbreviation Mw := (M (world R) error).

(** ** LoadSpotifySnapshot *)

Definition selectSnapshot (importID hash : string) (now : Z) (db : DB) : option SnapshotRow :=
  snap ← spotify_snapshots db !! importID;
  imp ← spotify_imports db !! importID;
  if bool_decide (imp_session_hash imp = hash) then
    conn ← spotify_connections db !! imp_session_hash imp;
    if now <? conn_expires_at conn then Some snap else None
  else None.

Definition selectSnapshotEntries (importID : string) (now : Z) (db : DB) : list json :=
  (ordered (default ∅ (spotify_snapshot_entries db !! importID))).*2.

Definition decodeSnapshotEntry (body : json) : result PlaylistEntry :=
  let* raw := unmarshalEntry body in Ok (fromSpotifyEntry raw).

Definition LoadSpotifySnapshot (hash importID : string) : Mw (Playlist * list PlaylistEntry) :=
  with_tx (
    row ← tx_query (selectSnapshot importID hash);
    match row with
    | None => raise ErrSourceSnapshotNotFound
    | Some snap =>
        let source := MkPlaylist ProviderSpotify (snap_playlist_id snap) (snap_name snap)
                        (snap_spotify_url snap) (snap_snapshot_id snap) in
        items ← tx_query (selectSnapshotEntries importID);
        entries ← lift (mapResult decodeSnapshotEntry items);
        commit ;; mret (source, entries)
    end).

(** ** SavePreview *)

Definition previewKey (row : PreviewRow) : string * string * string * string :=
  (prev_session_hash row, prev_source_provider row, prev_source_snapshot_id row, prev_destination_provider row).

Definition findPreview (key : string * string * string * string) (db : DB) : option (string * PreviewRow) :=
  head (filter (λ kv : string * PreviewRow, previewKey kv.2 = key) (map_to_list (transfer_previews db))).

(** [INSERT INTO transfer_previews ... ON CONFLICT (...) DO UPDATE SET
    created_at = now() RETURNING id, state, created_at]. *)
Definition upsertPreview (id : string) (row : PreviewRow) (now : Z) (db : DB) : result (string * string * Z * DB) :=
  if negb (check_hash (prev_session_hash row)) then Err (DatabaseError "check_violation") else
  match findPreview (previewKey row) db with
  | Some (id', old) =>
      let row' := MkPreviewRow (prev_session_hash old) (prev_source_provider old) (prev_source_snapshot_id old)
        (prev_source_playlist old) (prev_destination_provider old) (prev_destination_playlist_name old)
        (prev_state old) now in
      Ok (id', prev_state old, now, set_previews <[id' := row']> db)
  | None =>
      match transfer_previews db !! id with
      | Some _ => Err (DatabaseError "unique_violation")
      | None => Ok (id, prev_state row, prev_created_at row, set_previews <[id := row]> db)
      end
  end.

(** The queued insert of one preview entry, with its JSON columns. *)
Definition previewEntryRow (e : PreviewEntry) : PreviewEntryRow :=
  MkPreviewEntryRow (marshalPlaylistEntry (PreviewEntry_Source e)) (PreviewEntry_Status e)
    (marshalPtr marshalTrack (PreviewEntry_Matched e))
    (marshalSlice marshalTrack (PreviewEntry_Candidates e)) (PreviewEntry_Reason e).

Definition upsertPreviewEntry (previewID : string) (e : PreviewEntry) (now : Z) (db : DB) : result DB :=
  if negb (check_position (PreviewEntry_Position e)) then Err (DatabaseError "check_violation") else
  match transfer_previews db !! previewID with
  | None => Err (DatabaseError "foreign_key_violation")
  | Some _ =>
      Ok (set_preview_entries
            (λ t, <[previewID := <[PreviewEntry_Position e := previewEntryRow e]> (default ∅ (t !! previewID))]> t) db)
  end.

Fixpoint sendBatch (previewID : string) (entries : list PreviewEntry) : Mw unit :=
  match entries with
  | [] => mret tt
  | e :: es => tx_exec (upsertPreviewEntry previewID e) ;; sendBatch previewID es
  end.

Definition SavePreview (id : string) (clock : Z) (hash sourceSnapshotID destinationProvider : string)
    (source : Playlist) (entries : list PreviewEntry) : Mw TransferPreview :=
  let suffix := if 8 <? slen id then shortID id else id in
  let destinationName := Playlist_Name source +:+ " (transfer " +:+ suffix +:+ ")" in
  with_tx (
    ret ← tx_stmt (upsertPreview id (MkPreviewRow hash (Playlist_Provider source) sourceSnapshotID
             (marshalPlaylist source) destinationProvider destinationName "ready" clock));
    let '(id', state, createdAt) := ret in
    sendBatch id' entries ;;
    commit ;;
    mret (MkTransferPreview id' source destinationProvider state createdAt entries)).

(** ** LoadPreview *)

Definition decodePreviewEntry (p : Z * PreviewEntryRow) : result PreviewEntry :=
  let row := p.2 in
  let* source := unmarshalPlaylistEntry (pe_source_entry row) in
  let* matched := unmarshalPtr unmarshalTrack (pe_matched_track row) in
  let* candidates := unmarshalSlice unmarshalTrack (pe_candidate_tracks row) in
  Ok (MkPreviewEntry p.1 source (pe_status row) matched candidates (pe_reason row)).

Definition selectPreview (previewID hash : string) (now : Z) (db : DB) : option PreviewRow :=
  row ← transfer_previews db !! previewID;
  if bool_decide (prev_session_hash row = hash) then Some row else None.

Definition selectPreviewEntries (previewID : string) (now : Z) (db : DB) : list (Z * PreviewEntryRow) :=
  ordered (default ∅ (transfer_preview_entries db !! previewID)).

(** [position >= offset ORDER BY position LIMIT limit]. *)
Definition selectPreviewPage (previewID : string) (offset limit now : Z) (db : DB) : list (Z * PreviewEntryRow) :=
  take (Z.to_nat limit) (filter (λ p : Z * PreviewEntryRow, offset ≤ p.1) (selectPreviewEntries previewID now db)).

Definition LoadPreview (hash previewID : string) (offset limit : Z) : Mw TransferPreview :=
  if (offset <? 0) || (limit <? 1) || (500 <? limit) then raise (ErrorString "invalid_preview_pagination") else
  row ← pool_query (selectPreview previewID hash);
  match row with
  | None => raise ErrPreviewNotFound
  | Some row =>
      source ← lift (unmarshalPlaylist (prev_source_playlist row));
      rows ← pool_query (selectPreviewPage previewID offset limit);
      entries ← lift (mapResult decodePreviewEntry rows);
      mret (MkTransferPreview previewID source (prev_destination_provider row) (prev_state row)
              (prev_created_at row) entries)
  end.

(** ** Runs *)

Definition runStatus (id : string) (row : RunRow) : TransferRunStatus :=
  MkTransferRunStatus id (run_preview_id row) (run_state row) (run_error_code row)
    (run_destination_playlist_id row) (run_next_position row) (run_created_at row) (run_updated_at row).

Definition selectRunOfPreview (previewID hash : string) (now : Z) (db : DB) : option (string * RunRow) :=
  head (filter (λ kv : string * RunRow, run_preview_id kv.2 = previewID ∧ run_session_hash kv.2 = hash)
          (map_to_list (transfer_runs db))).

(** [INSERT INTO transfer_runs]: primary key, [UNIQUE (preview_id)], the
    reference to the preview and the check on the hash. *)
Definition insertRun (id previewID hash : string) (jobID : Z) (now : Z) (db : DB) : result (TransferRunStatus * DB) :=
  let row := MkRunRow previewID hash jobID "queued" "" "" 0 now now in
  if negb (check_hash hash) then Err (DatabaseError "check_violation")
  else if bool_decide (transfer_previews db !! previewID = None) then Err (DatabaseError "foreign_key_violation")
  else if bool_decide (is_Some (transfer_runs db !! id)) then Err (DatabaseError "unique_violation")
  else if existsb (λ kv : string * RunRow, bool_decide (run_preview_id kv.2 = previewID)) (map_to_list (transfer_runs db))
  then Err (DatabaseError "unique_violation")
  else Ok (runStatus id row, set_runs <[id := row]> db).

Definition EnqueueRun (freshID hash previewID : string) : Mw TransferRunStatus :=
  with_tx (
    previewExists ← tx_query (selectPreview previewID hash);
    match previewExists with
    | None => raise ErrPreviewNotFound
    | Some _ =>
        existing ← tx_query (selectRunOfPreview previewID hash);
        match existing with
        | Some (id, row) => commit ;; mret (runStatus id row)
        | None =>
            jobID ← tx_stmt (λ _ db, Ok (insert_job "transfer_run" freshID 10 db));
            result ← tx_stmt (insertRun freshID previewID hash jobID);
            commit ;; mret result
        end
    end).

Definition LoadRunStatus (hash runID : string) : Mw TransferRunStatus :=
  row ← pool_query (λ _ db, row ← transfer_runs db !! runID;
          if bool_decide (run_session_hash row = hash) then Some row else None);
  match row with
  | None => raise ErrRunNotFound
  | Some row => mret (runStatus runID row)
  end.

Definition selectRunForUpdate (runID : string) (now : Z) (db : DB) : option (RunRow * PreviewRow) :=
  run ← transfer_runs db !! runID;
  preview ← transfer_previews db !! run_preview_id run;
  Some (run, preview).

Definition loadPreviewEntriesTx (previewID : string) : Mw (list PreviewEntry) :=
  rows ← tx_query (selectPreviewEntries previewID);
  lift (mapResult decodePreviewEntry rows).

Definition loadRunForUpdate (runID : string) : Mw (TransferRunStatus * TransferPreview * string) :=
  row ← tx_query (selectRunForUpdate runID);
  match row with
  | None => raise ErrRunNotFound
  | Some (run, preview) =>
      source ← lift (unmarshalPlaylist (prev_source_playlist preview));
      entries ← loadPreviewEntriesTx (run_preview_id run);
      mret (runStatus runID run,
            MkTransferPreview (run_preview_id run) source (prev_destination_provider preview)
              (prev_state preview) (prev_created_at preview) entries,
            prev_session_hash preview)
  end.

Definition setRunState (state errorCode playlistID : string) (nextPosition now : Z) (row : RunRow) : RunRow :=
  MkRunRow (run_preview_id row) (run_session_hash row) (run_river_job_id row) state errorCode playlistID
    nextPosition (run_created_at row) now.

(** An error of the statement comes back wrapped. *)
Definition updateRunState (runID state errorCode playlistID : string) (nextPosition : Z) : Mw unit :=
  r ← try (tx_exec (λ now db, Ok (set_runs (alter (setRunState state errorCode playlistID nextPosition now) runID) db)));
  match r with
  | Ok _ => mret tt
  | Err err => raise (Wrapped "update transfer run" err)
  end.

Definition updateRunProgress (runID state errorCode playlistID : string) (nextPosition : Z) : Mw unit :=
  with_tx (updateRunState runID state errorCode playlistID nextPosition ;; commit).
End store.

(** ** What the store promises *)

(** The batch of a preview, as one update of the database. *)
Fixpoint applyBatch (previewID : string) (entries : list PreviewEntry) (now : Z) (db : DB) : result DB :=
  match entries with
  | [] => Ok db
  | e :: es => let* db' := upsertPreviewEntry previewID e now db in applyBatch previewID es now db'
  end.

(** SavePreview without transactions and faults: the returned preview and the
    database it leaves. *)
Definition savedPreview (id : string) (clock : Z) (hash sourceSnapshotID destinationProvider : string)
    (source : Playlist) (entries : list PreviewEntry) (now : Z) (db : DB) : result (TransferPreview * DB) :=
  let suffix := if 8 <? slen id then shortID id else id in
  let destinationName := Playlist_Name source +:+ " (transfer " +:+ suffix +:+ ")" in
  let* ret := upsertPreview id (MkPreviewRow hash (Playlist_Provider source) sourceSnapshotID
             (marshalPlaylist source) destinationProvider destinationName "ready" clock) now db in
  let* db' := applyBatch ret.1.1.1 entries now ret.2 in
  Ok (MkTransferPreview ret.1.1.1 source destinationProvider ret.1.1.2 ret.1.2 entries, db').

(** The rows that one session may see: its connection, its imports with their
    snapshots, its previews with their entries, its runs. *)
Definition owns_preview (hash : string) (db : DB) (id : string) : bool :=
  match transfer_previews db !! id with Some row => bool_decide (prev_session_hash row = hash) | None => false end.
Definition owns_import (hash : string) (db : DB) (id : string) : bool :=
  match spotify_imports db !! id with Some row => bool_decide (imp_session_hash row = hash) | None => false end.

Definition restrict {A} (own : string → bool) (m : gmap string A) : gmap string A :=
  filter (λ kv : string * A, own kv.1) m.

Definition session_view (hash : string) (db : DB) :=
  (spotify_connections db !! hash,
   restrict (owns_import hash db) (spotify_imports db),
   restrict (owns_import hash db) (spotify_snapshots db),
   restrict (owns_import hash db) (spotify_snapshot_entries db),
   restrict (owns_preview hash db) (transfer_previews db),
   restrict (owns_preview hash db) (transfer_preview_entries db),
   filter (λ kv : string * RunRow, run_session_hash kv.2 = hash) (transfer_runs db)).

(** Runs belong to previews of their session, at most one per preview, and are
    worked by a job of their own. *)
Record runs_ok (db : DB) : Prop := {
  runs_preview id run : transfer_runs db !! id = Some run →
    ∃ preview, transfer_previews db !! run_preview_id run = Some preview ∧
      prev_session_hash preview = run_session_hash run;
  runs_job id run : transfer_runs db !! id = Some run →
    ∃ job, river_job db !! run_river_job_id run = Some job ∧
      job_kind job = "transfer_run" ∧ job_args job = id;
  runs_unique id1 id2 run1 run2 :
    transfer_runs db !! id1 = Some run1 → transfer_runs db !! id2 = Some run2 →
    run_preview_id run1 = run_preview_id run2 → id1 = id2;
  runs_job_ids n job : river_job db !! n = Some job → n < river_next_id db;
}.

(** The preview entries that the JSON columns preserve. *)
Definition wf_preview_entry (e : PreviewEntry) : Prop :=
  wf_entry (PreviewEntry_Source e) ∧
  (∀ t, PreviewEntry_Matched e = Some t → wf_track t) ∧
  Forall wf_track (elems (PreviewEntry_Candidates e)).

Definition ascending (entries : list PreviewEntry) : Prop :=
  StronglySorted Z.lt (PreviewEntry_Position <$> entries).

(** ** Proofs: saving a preview *)

Section save_facts.
Context {R : Type}.
Implicit Types (D d : DB) (w : world R).

Lemma wp_sendBatch pid entries D d fs now (r : R) Q :
  (∀ fs' d', applyBatch pid entries now d = Ok d' → Q (Ok tt) (MkWorld D (Some (d', false)) fs' now r)) →
  (∀ fs' d' e, Q (Err e) (MkWorld D (Some (d', true)) fs' now r)) →
  wp (sendBatch pid entries) Q (MkWorld D (Some (d, false)) fs now r).
Proof.
  revert d fs. induction entries as [|e es IH]; intros d fs Hok Herr; cbn [sendBatch]; [by apply Hok|].
  apply wp_bind, wp_tx_exec; [|auto]. intros fs' d' _ Hd'. apply IH; [|done].
  intros fs2 d2 Hd2. apply Hok. by rw /= Hd'.
Qed.

Lemma sendBatch_healthy pid entries D d now (r : R) d' :
  applyBatch pid entries now d = Ok d' →
  sendBatch pid entries (MkWorld D (Some (d, false)) [] now r) = (Ok tt, MkWorld D (Some (d', false)) [] now r).
Proof.
  revert d. induction entries as [|e es IH]; intros d; cbn [sendBatch applyBatch]; [by intros [= ->]|].
  destruct (upsertPreviewEntry pid e now d) as [d1|err] eqn:E; [|done]. cbn [res_bind]. intros Hd'.
  rw bind_unfold /tx_exec /tx_stmt /= E /set_tx /=. by apply IH.
Qed.

Lemma wp_SavePreview id clock hash ssid dest source entries D fs now (r : R) Q :
  (∀ fs' p d', savedPreview id clock hash ssid dest source entries now D = Ok (p, d') →
    Q (Ok p) (MkWorld d' None fs' now r)) →
  (∀ fs' e D', D' = D ∨ (∃ p, savedPreview id clock hash ssid dest source entries now D = Ok (p, D')) →
    Q (Err e) (MkWorld D' None fs' now r)) →
  wp (SavePreview id clock hash ssid dest source entries) Q (MkWorld D None fs now r).
Proof.
  intros Hok Herr. rw /SavePreview. cbv zeta. apply wp_with_tx; [|auto]. intros fs1.
  apply wp_bind, wp_tx_stmt; [|intros; apply Herr; auto].
  intros fs2 [[id' state] createdAt] d1 _ Hup. apply wp_bind, wp_sendBatch; [|intros; apply Herr; auto].
  intros fs3 d2 Hbatch.
  assert (savedPreview id clock hash ssid dest source entries now D =
    Ok (MkTransferPreview id' source dest state createdAt entries, d2)) as Hs.
  { rw /savedPreview Hup. cbn [res_bind fst snd]. by rw Hbatch. }
  apply wp_bind, wp_commit; [intros fs4 _; by apply Hok|].
  intros fs4 D' t [->|[_ ->]]; apply Herr; eauto.
Qed.

Lemma LoadSpotifySnapshot_Ok hash importID D fs now (r : R) loaded w' :
  LoadSpotifySnapshot hash importID (MkWorld D None fs now r) = (Ok loaded, w') →
  is_Some (selectSnapshot importID hash now D) ∧ ∃ fs', w' = MkWorld D None fs' now r.
Proof.
  intros Hrun. pose (Q (res : result (Playlist * list PlaylistEntry)) (w : world R) := match res with
    | Ok _ => is_Some (selectSnapshot importID hash now D) ∧ ∃ fs', w = MkWorld D None fs' now r
    | Err _ => True
    end).
  enough (wp (LoadSpotifySnapshot hash importID) Q (MkWorld D None fs now r)) as Hwp by by rw /wp Hrun in Hwp.
  apply wp_with_tx; [|done]. intros fs1.
  apply wp_bind, wp_tx_query; [|done]. intros fs2 _. destruct (selectSnapshot _ _ _ _) as [snap|]; [|done].
  cbv zeta. apply wp_bind, wp_tx_query; [|done]. intros fs3 _.
  apply wp_bind. rw /wp /lift. destruct (mapResult _ _); [|done]. cbn [fst snd].
  apply wp_bind, wp_commit; [|done]. intros fs4 _. apply wp_ret. split; [done|]. by exists fs4.
Qed.

Lemma SavePreview_healthy id clock hash ssid dest source entries D now (r : R) p d' :
  savedPreview id clock hash ssid dest source entries now D = Ok (p, d') →
  SavePreview id clock hash ssid dest source entries (MkWorld D None [] now r) = (Ok p, MkWorld d' None [] now r).
Proof.
  rw /savedPreview /SavePreview. cbv zeta.
  destruct (upsertPreview _ _ now D) as [[[[id' state] createdAt] d1]|err] eqn:Hup; [|done]. cbn [res_bind fst snd].
  destruct (applyBatch id' entries now d1) as [d2|err] eqn:Hb; [|done]. cbn [res_bind]. intros [= <- <-].
  rw /with_tx bind_unfold /begin /= /defer_rollback bind_unfold /tx_stmt /= Hup /set_tx /=.
  by rw bind_unfold (sendBatch_healthy _ _ _ _ _ _ _ Hb).
Qed.

Lemma SavePreview_Ok id clock hash ssid dest source entries D fs now (r : R) p w' :
  SavePreview id clock hash ssid dest source entries (MkWorld D None fs now r) = (Ok p, w') →
  savedPreview id clock hash ssid dest source entries now D = Ok (p, w_db w').
Proof.
  intros Hrun. refine (wp_run _ (λ res w', ∀ p, res = Ok p → _ = Ok (p, w_db w')) _ _ _ _ Hrun p eq_refl).
  apply wp_SavePreview; [by intros ???? ? [= <-]|done].
Qed.

Lemma SavePreview_entries id clock hash ssid dest source entries (w : world R) p w' :
  SavePreview id clock hash ssid dest source entries w = (Ok p, w') → TransferPreview_Entries p = entries.
Proof.
  rw /SavePreview. cbv zeta. intros ([] & w1 & _ & Hrun)%bind_inv. rw /defer_rollback in Hrun.
  match type of Hrun with context [match ?b ?w with _ => _ end] => destruct (b w) as [res w2] eqn:Hb end.
  injection Hrun as -> _. apply bind_inv in Hb as ([[id' state] createdAt] & w3 & _ & Hb).
  apply bind_inv in Hb as (? & w4 & _ & Hb). by apply bind_inv in Hb as (? & w5 & _ & [= <- _]).
Qed.
End save_facts.

(** ** Proofs: the saved rows, and loading them *)

Definition addEntries (es : list PreviewEntry) (m : gmap Z PreviewEntryRow) : gmap Z PreviewEntryRow :=
  foldl (λ m e, <[PreviewEntry_Position e := previewEntryRow e]> m) m es.

Lemma applyBatch_tables pid es now db db' :
  applyBatch pid es now db = Ok db' →
  (∃ f, db' = set_preview_entries f db) ∧
  default ∅ (transfer_preview_entries db' !! pid) = addEntries es (default ∅ (transfer_preview_entries db !! pid)) ∧
  (∀ pid', pid' ≠ pid → transfer_preview_entries db' !! pid' = transfer_preview_entries db !! pid').
Proof.
  revert db. induction es as [|e es IH]; intros db; cbn [applyBatch].
  { intros [= ->]. split_and!; [|done..]. exists id. by destruct db'. }
  rw /upsertPreviewEntry. destruct (negb _); [done|].
  destruct (transfer_previews db !! pid); [|done]. cbn [res_bind].
  intros ((f & Hf) & Hpid & Hother)%IH. cbn in Hpid, Hother. split_and!.
  - subst db'. cbn. by eexists (λ t, f _).
  - by rw Hpid lookup_insert_eq.
  - intros pid' Hne. by rw Hother // lookup_insert_ne.
Qed.

Lemma addEntries_union es m :
  NoDup (PreviewEntry_Position <$> es) →
  addEntries es m = list_to_map ((λ e, (PreviewEntry_Position e, previewEntryRow e)) <$> es) ∪ m.
Proof.
  revert m. induction es as [|e es IH]; intros m; [by rw left_id_L|].
  rw fmap_cons NoDup_cons. intros [Hnin Hnd]. rw /addEntries /= -/(addEntries es _) IH // /=.
  rw -insert_union_r ?insert_union_l //. apply not_elem_of_list_to_map_1. by rw -list_fmap_compose.
Qed.

Lemma ascending_NoDup es : ascending es → NoDup (PreviewEntry_Position <$> es).
Proof.
  rw /ascending. induction 1 as [|p ps _ IH Hp]; [constructor|]. constructor; [|done].
  intros Hin. pose proof (proj1 (Forall_forall _ _) Hp p Hin). lia.
Qed.

Lemma ordered_saved es :
  ascending es →
  ordered (addEntries es ∅) = (λ e, (PreviewEntry_Position e, previewEntryRow e)) <$> es.
Proof.
  intros Hasc. rw addEntries_union; [by apply ascending_NoDup|]. rw right_id_L.
  apply ordered_list_to_map.
  - rw -list_fmap_compose. by apply ascending_NoDup.
  - rw /sorted_by. induction es as [|e es IH]; [constructor|]. rw /ascending fmap_cons in Hasc.
    apply StronglySorted_inv in Hasc as [Hasc He]. rw fmap_cons. constructor; [by apply IH|].
    rw Forall_fmap in He. rw Forall_fmap. eapply Forall_impl; [exact He|]. cbn. lia.
Qed.

Lemma decode_saved e : wf_preview_entry e →
  decodePreviewEntry (PreviewEntry_Position e, previewEntryRow e) = Ok e.
Proof.
  intros (Hs & Hm & Hc). rw /decodePreviewEntry /=.
  eapply res_bind_Ok; [by apply PlaylistEntry_roundtrip|].
  eapply res_bind_Ok.
  { apply unmarshalPtr_marshal. intros t Ht. split; [done|]. by apply Track_roundtrip, Hm. }
  eapply res_bind_Ok.
  { apply unmarshalSlice_marshal. eapply Forall_impl; [exact Hc|]. apply Track_roundtrip. }
  by destruct e.
Qed.

Lemma decode_all_saved es : Forall wf_preview_entry es →
  mapResult decodePreviewEntry ((λ e, (PreviewEntry_Position e, previewEntryRow e)) <$> es) = Ok es.
Proof.
  intros Hes. rw (mapResult_fmap _ _ id); [|by rw list_fmap_id].
  eapply Forall_impl; [exact Hes|]. intros e He. by apply decode_saved.
Qed.

Lemma filter_saved offset (es : list PreviewEntry) :
  filter (λ p : Z * PreviewEntryRow, offset ≤ p.1) ((λ e, (PreviewEntry_Position e, previewEntryRow e)) <$> es) =
  (λ e, (PreviewEntry_Position e, previewEntryRow e)) <$> filter (λ e, offset ≤ PreviewEntry_Position e) es.
Proof.
  induction es as [|e es IH]; [done|]. rw fmap_cons !filter_cons /=.
  by case_decide; rw ?fmap_cons IH.
Qed.

(** A first save stores one preview row and the rows of its entries. *)
Lemma savedPreview_fresh id clock hash ssid dest source es now db p db' :
  savedPreview id clock hash ssid dest source es now db = Ok (p, db') →
  findPreview (hash, Playlist_Provider source, ssid, dest) db = None →
  p = MkTransferPreview id source dest "ready" clock es ∧
  (∃ name, transfer_previews db' = <[id := MkPreviewRow hash (Playlist_Provider source) ssid
     (marshalPlaylist source) dest name "ready" clock]> (transfer_previews db)) ∧
  default ∅ (transfer_preview_entries db' !! id) = addEntries es (default ∅ (transfer_preview_entries db !! id)) ∧
  transfer_runs db' = transfer_runs db ∧ river_job db' = river_job db ∧ river_next_id db' = river_next_id db.
Proof.
  rw /savedPreview /upsertPreview /previewKey. cbv zeta. cbn [prev_session_hash prev_source_provider prev_source_snapshot_id prev_destination_provider].
  intros Hs Hfind. rw Hfind in Hs.
  destruct (negb _) in Hs; [done|]. destruct (transfer_previews db !! id) in Hs; [done|].
  cbn [res_bind fst snd prev_state prev_created_at] in Hs. destruct (applyBatch _ _ _ _) as [d2|] eqn:Hb; [|done].
  cbn [res_bind] in Hs. injection Hs as <- <-.
  apply applyBatch_tables in Hb as ((f & ->) & He & _). cbn in *. split_and!; eauto.
Qed.

Lemma LoadPreview_healthy {R} hash id offset limit D now (r : R) row source es :
  0 ≤ offset → 1 ≤ limit ≤ 500 →
  transfer_previews D !! id = Some row → prev_session_hash row = hash →
  unmarshalPlaylist (prev_source_playlist row) = Ok source →
  mapResult decodePreviewEntry (selectPreviewPage id offset limit now D) = Ok es →
  LoadPreview hash id offset limit (MkWorld D None [] now r) =
  (Ok (MkTransferPreview id source (prev_destination_provider row) (prev_state row) (prev_created_at row) es),
   MkWorld D None [] now r).
Proof.
  intros Ho Hl Hrow Hh Hs Hes. rw /LoadPreview.
  assert ((offset <? 0) || (limit <? 1) || (500 <? limit) = false) as -> by lia.
  rw bind_unfold /pool_query /= /selectPreview Hrow /= bool_decide_true //.
  by rw bind_unfold /lift Hs bind_unfold /= bind_unfold Hes.
Qed.

(** ** Proofs: runs *)

Section run_facts.
Context {R : Type}.

Definition enqueued (freshID hash previewID : string) (now : Z) (D D' : DB) (st : TransferRunStatus) : Prop :=
  is_Some (selectPreview previewID hash now D) ∧
  match selectRunOfPreview previewID hash now D with
  | Some (id, row) => D' = D ∧ st = runStatus id row
  | None => insertRun freshID previewID hash (river_next_id D) now (insert_job "transfer_run" freshID 10 D).2 = Ok (st, D')
  end.

Lemma wp_EnqueueRun freshID hash previewID D fs now (r : R) Q :
  (∀ fs' st D', enqueued freshID hash previewID now D D' st → Q (Ok st) (MkWorld D' None fs' now r)) →
  (∀ fs' e D', D' = D ∨ (∃ st, enqueued freshID hash previewID now D D' st) → Q (Err e) (MkWorld D' None fs' now r)) →
  wp (EnqueueRun freshID hash previewID) Q (MkWorld D None fs now r).
Proof.
  intros Hok Herr. apply wp_with_tx; [|auto]. intros fs1.
  apply wp_bind, wp_tx_query; [|intros; apply Herr; auto]. intros fs2 _.
  destruct (selectPreview _ _ _ D) eqn:Hp; [|apply Herr; auto].
  apply wp_bind, wp_tx_query; [|intros; apply Herr; auto]. intros fs3 _.
  destruct (selectRunOfPreview _ _ _ D) as [[id row]|] eqn:Hrun.
  - assert (enqueued freshID hash previewID now D D (runStatus id row)) as He by (by rw /enqueued Hp Hrun).
    apply wp_bind, wp_commit; [intros; by apply Hok|]. intros fs4 D' t [->|[_ ->]]; apply Herr; auto.
  - apply wp_bind, wp_tx_stmt; [|intros; apply Herr; auto]. intros fs4 jobID d1 _ [= <- <-].
    apply wp_bind, wp_tx_stmt; [|intros; apply Herr; auto]. intros fs5 st d2 _ Hins.
    assert (enqueued freshID hash previewID now D d2 st) as He by (by rw /enqueued Hp Hrun).
    apply wp_bind, wp_commit; [intros; by apply Hok|].
    intros fs6 D' t [->|[_ ->]]; apply Herr; eauto.
Qed.

Lemma EnqueueRun_Ok freshID hash previewID D fs now (r : R) st w' :
  EnqueueRun freshID hash previewID (MkWorld D None fs now r) = (Ok st, w') →
  enqueued freshID hash previewID now D (w_db w') st.
Proof.
  intros Hrun. refine (wp_run _ (λ res w', ∀ st, res = Ok st → enqueued _ _ _ _ _ (w_db w') st) _ _ _ _ Hrun st eq_refl).
  apply wp_EnqueueRun; [by intros ???? ? [= <-]|done].
Qed.

Lemma insertRun_inv id pid hash jobID now db st db' :
  insertRun id pid hash jobID now db = Ok (st, db') →
  let row := MkRunRow pid hash jobID "queued" "" "" 0 now now in
  st = runStatus id row ∧ db' = set_runs <[id := row]> db ∧ transfer_runs db !! id = None ∧
  is_Some (transfer_previews db !! pid) ∧
  (∀ id' row', transfer_runs db !! id' = Some row' → run_preview_id row' ≠ pid).
Proof.
  rw /insertRun. cbv zeta. destruct (negb _); [done|]. case_bool_decide as Hp; [done|].
  case_bool_decide as Hid; [done|]. destruct (existsb _ _) eqn:Hex; [done|]. intros [= <- <-].
  split_and!; [done|done|by apply eq_None_not_Some|by destruct (transfer_previews db !! pid)|].
  intros id' row' Hrow Hpid. apply not_true_iff_false in Hex. apply Hex, existsb_exists.
  exists (id', row'). rw -list_elem_of_In elem_of_map_to_list. split; [done|]. by apply bool_decide_eq_true.
Qed.

Lemma selectRunOfPreview_Some pid hash now db id row :
  selectRunOfPreview pid hash now db = Some (id, row) →
  transfer_runs db !! id = Some row ∧ run_preview_id row = pid ∧ run_session_hash row = hash.
Proof.
  rw /selectRunOfPreview => Hh. apply head_Some_elem_of in Hh.
  apply list_elem_of_filter in Hh as [[Hp Hs] Hh]. cbn in *. by apply elem_of_map_to_list in Hh.
Qed.

(** The one run of a preview is the one that is found. *)
Lemma selectRunOfPreview_unique pid hash now db id row :
  transfer_runs db !! id = Some row → run_preview_id row = pid → run_session_hash row = hash →
  (∀ id' row', transfer_runs db !! id' = Some row' → run_preview_id row' = pid → id' = id) →
  selectRunOfPreview pid hash now db = Some (id, row).
Proof.
  intros Hrow Hp Hs Huniq. destruct (selectRunOfPreview pid hash now db) as [[id' row']|] eqn:E.
  - apply selectRunOfPreview_Some in E as (Hrow' & Hp' & _).
    assert (id' = id) as -> by eauto. congruence.
  - rw /selectRunOfPreview in E. apply head_None in E.
    by destruct (list_filter_nil _ _ E (id, row)) as []; [apply elem_of_map_to_list|].
Qed.

Lemma enqueued_again freshID freshID2 hash pid now now2 D D' D'' st st2 :
  enqueued freshID hash pid now D D' st → enqueued freshID2 hash pid now2 D' D'' st2 →
  st2 = st ∧ D'' = D'.
Proof.
  intros [_ H1] [_ H2].
  destruct (selectRunOfPreview pid hash now D) as [[id row]|] eqn:Hrun.
  - destruct H1 as [-> ->].
    assert (selectRunOfPreview pid hash now2 D = Some (id, row)) as Hr by done.
    rw Hr in H2. naive_solver.
  - apply insertRun_inv in H1 as (-> & -> & Hfresh & _ & Hother).
    rw (selectRunOfPreview_unique pid hash now2 _ freshID (MkRunRow pid hash (river_next_id D) "queued" "" "" 0 now now)) in H2;
      [by rw /= lookup_insert_eq|done|done| |naive_solver].
    intros id' row'. cbn. intros [[-> _]|[_ Hrow]]%lookup_insert_Some Hp; [done|]. by destruct (Hother id' row').
Qed.

Lemma enqueued_runs_ok freshID hash pid now D D' st :
  runs_ok D → enqueued freshID hash pid now D D' st → runs_ok D'.
Proof.
  intros [Hpre Hjob Huniq Hids] [[row Hsel] He].
  destruct (selectRunOfPreview pid hash now D) as [[id run]|]; [destruct He as [-> _]; by split|].
  apply insertRun_inv in He as (_ & -> & Hfresh & _ & Hother). cbn in Hfresh, Hother.
  rw /selectPreview in Hsel. apply bind_Some in Hsel as (row' & Hrow & Hhash).
  case_bool_decide as Hh; [|done]. injection Hhash as ->.
  split; cbn.
  - intros id run [[<- <-]|[_ Hrun]]%lookup_insert_Some; [by exists row|by apply (Hpre id)].
  - intros id run [[<- <-]|[_ Hrun]]%lookup_insert_Some.
    + eexists. by rw lookup_insert_eq.
    + destruct (Hjob id run Hrun) as (job & Hj & Hk). exists job. split; [|done].
      rw lookup_insert_ne //. apply Hids in Hj. lia.
  - intros id1 id2 run1 run2 [[<- <-]|[_ H1]]%lookup_insert_Some [[<- <-]|[_ H2]]%lookup_insert_Some Hp; cbn in Hp;
      [done|by destruct (Hother id2 run2)|by destruct (Hother id1 run1)|by eapply Huniq].
  - intros n job [[<- _]|[_ Hj]]%lookup_insert_Some; [|apply Hids in Hj]; lia.
Qed.
End run_facts.

(** ** Proofs: one session cannot observe another *)

Section isolation.
Context (hash : string) (D1 D2 : DB).
Context (Hview : session_view hash D1 = session_view hash D2).

Lemma restrict_lookup {A} (own : string → bool) (m : gmap string A) k :
  restrict own m !! k = if own k then m !! k else None.
Proof.
  rw /restrict map_lookup_filter. destruct (m !! k); cbn; [|by destruct (own k)].
  by destruct (own k).
Qed.

Lemma restrict_agree {A} (own1 own2 : string → bool) (m1 m2 : gmap string A) k :
  own1 k = true → own1 k = own2 k → restrict own1 m1 = restrict own2 m2 → m1 !! k = m2 !! k.
Proof.
  intros H1 H2 Hm. assert (restrict own1 m1 !! k = restrict own2 m2 !! k) as H by by rw Hm.
  by rw !restrict_lookup -H2 H1 in H.
Qed.

Lemma view_previews id :
  owns_preview hash D1 id = owns_preview hash D2 id ∧
  (owns_preview hash D1 id = true → transfer_previews D1 !! id = transfer_previews D2 !! id ∧
     transfer_preview_entries D1 !! id = transfer_preview_entries D2 !! id).
Proof.
  injection Hview as _ _ _ _ Hp He _.
  assert (owns_preview hash D1 id = owns_preview hash D2 id) as Hown.
  { assert (restrict (owns_preview hash D1) (transfer_previews D1) !! id =
            restrict (owns_preview hash D2) (transfer_previews D2) !! id) as Hid by by rw Hp.
    rw !restrict_lookup in Hid. rw /owns_preview in Hid |- *.
    destruct (transfer_previews D1 !! id), (transfer_previews D2 !! id); repeat case_bool_decide; naive_solver. }
  split; [done|]. intros Hid.
  split_and!; by eapply restrict_agree.
Qed.

Lemma view_imports id :
  owns_import hash D1 id = owns_import hash D2 id ∧
  (owns_import hash D1 id = true → spotify_imports D1 !! id = spotify_imports D2 !! id ∧
     spotify_snapshots D1 !! id = spotify_snapshots D2 !! id ∧
     spotify_snapshot_entries D1 !! id = spotify_snapshot_entries D2 !! id).
Proof.
  injection Hview as _ Hi Hs He _ _ _.
  assert (owns_import hash D1 id = owns_import hash D2 id) as Hown.
  { assert (restrict (owns_import hash D1) (spotify_imports D1) !! id =
            restrict (owns_import hash D2) (spotify_imports D2) !! id) as Hid by by rw Hi.
    rw !restrict_lookup in Hid. rw /owns_import in Hid |- *.
    destruct (spotify_imports D1 !! id), (spotify_imports D2 !! id); repeat case_bool_decide; naive_solver. }
  split; [done|]. intros Hid.
  split_and!; by eapply restrict_agree.
Qed.

Lemma view_selectPreview id now : selectPreview id hash now D1 = selectPreview id hash now D2.
Proof.
  destruct (view_previews id) as [Hown Heq]. rw /selectPreview.
  destruct (owns_preview hash D1 id) eqn:Hid; [by destruct (Heq eq_refl) as [-> _]|].
  symmetry in Hown. rw /owns_preview in Hid Hown.
  destruct (transfer_previews D1 !! id), (transfer_previews D2 !! id); cbn in *; by rw ?Hid ?Hown.
Qed.

Lemma selectPreview_owned id now D row : selectPreview id hash now D = Some row → owns_preview hash D id = true.
Proof.
  rw /selectPreview /owns_preview. destruct (transfer_previews D !! id); [|done]. cbn.
  by case_bool_decide.
Qed.

Lemma view_page id offset limit now row :
  selectPreview id hash now D1 = Some row →
  selectPreviewPage id offset limit now D1 = selectPreviewPage id offset limit now D2.
Proof.
  intros Hrow%selectPreview_owned. destruct (view_previews id) as [_ Heq].
  destruct (Heq Hrow) as [_ He]. by rw /selectPreviewPage /selectPreviewEntries He.
Qed.

Lemma view_run id :
  (row ← transfer_runs D1 !! id; if bool_decide (run_session_hash row = hash) then Some row else None) =
  (row ← transfer_runs D2 !! id; if bool_decide (run_session_hash row = hash) then Some row else None).
Proof.
  injection Hview as _ _ _ _ _ _ Hr.
  assert (filter (λ kv : string * RunRow, run_session_hash kv.2 = hash) (transfer_runs D1) !! id =
          filter (λ kv : string * RunRow, run_session_hash kv.2 = hash) (transfer_runs D2) !! id) as Hid by by rw Hr.
  rw !map_lookup_filter in Hid.
  destruct (transfer_runs D1 !! id), (transfer_runs D2 !! id); cbn in *; repeat case_guard; repeat case_bool_decide; naive_solver.
Qed.

Lemma view_selectSnapshot id now : selectSnapshot id hash now D1 = selectSnapshot id hash now D2.
Proof.
  assert (∀ D, selectSnapshot id hash now D =
    if owns_import hash D id then
      (snap ← spotify_snapshots D !! id; conn ← spotify_connections D !! hash;
       if now <? conn_expires_at conn then Some snap else None) else None) as Hsel.
  { intros D. rw /selectSnapshot /owns_import. destruct (spotify_snapshots D !! id); cbn.
    - destruct (spotify_imports D !! id); [|done]. cbn. case_bool_decide as Hh; [by rw Hh|done].
    - by destruct (spotify_imports D !! id); [case_bool_decide|]. }
  rw !Hsel. destruct (view_imports id) as [<- Heq]. destruct (owns_import hash D1 id); [|done].
  destruct (Heq eq_refl) as (_ & -> & _). by injection Hview as -> _.
Qed.

Lemma selectSnapshot_owned id now D snap : selectSnapshot id hash now D = Some snap → owns_import hash D id = true.
Proof.
  rw /selectSnapshot /owns_import. destruct (spotify_snapshots D !! id); [|done]. cbn.
  destruct (spotify_imports D !! id); [|done]. cbn. by case_bool_decide.
Qed.

Lemma LoadSpotifySnapshot_view {R} importID fs now (r : R) :
  (LoadSpotifySnapshot hash importID (MkWorld D1 None fs now r)).1 =
  (LoadSpotifySnapshot hash importID (MkWorld D2 None fs now r)).1.
Proof.
  apply with_tx_twin. intros fs1. rw !bind_unfold.
  destruct (tx_query_twin D1 D2 false fs1 now r (selectSnapshot importID hash)) as (res & ab & fs2 & Hres & -> & ->);
    [apply view_selectSnapshot|].
  destruct Hres as [->|[e ->]]; [|done].
  destruct (selectSnapshot importID hash now D1) as [snap|] eqn:Hsnap; [|done].
  destruct (view_imports importID) as [_ Heq].
  destruct (Heq (selectSnapshot_owned _ _ _ _ Hsnap)) as (_ & _ & He).
  cbv beta iota zeta. rw !bind_unfold.
  destruct (tx_query_twin D1 D2 ab fs2 now r (selectSnapshotEntries importID)) as (res & ab' & fs3 & Hres & -> & ->);
    [by rw /selectSnapshotEntries He|].
  destruct Hres as [->|[e ->]]; [|done]. cbv beta iota zeta. rw !bind_unfold /lift.
  destruct (mapResult _ _) as [entries|]; [|done]. cbv beta iota zeta. rw !bind_unfold.
  pose proof (commit_twin D1 D2 ab' fs3 now r) as Hc.
  destruct (commit (MkWorld D1 _ _ _ _)) as [[]], (commit (MkWorld D2 _ _ _ _)) as [[]]; cbn in *; congruence.
Qed.
End isolation.

(** ** Properties *)

(** SavePreview is one transaction: whatever database calls fail, it leaves
    either the database it found or the one that stores the whole preview;
    success means the latter, and without faults it reports exactly what the
    statements yield.  No transaction stays open. *)
Theorem SavePreview_atomic {R} id clock hash ssid dest source entries (w : world R) :
  w_tx w = None →
  let saved := savedPreview id clock hash ssid dest source entries (w_now w) (w_db w) in
  let '(r, w') := SavePreview id clock hash ssid dest source entries w in
  w_tx w' = None ∧
  match r with
  | Ok p => saved = Ok (p, w_db w')
  | Err _ => w_db w' = w_db w ∨ ∃ p, saved = Ok (p, w_db w')
  end ∧
  (w_faults w = [] → ∀ p db', saved = Ok (p, db') → r = Ok p).
Proof.
  destruct w as [D tx fs now r]. cbn [w_tx w_now w_db w_faults]. intros ->. cbv zeta.
  pose proof (wp_SavePreview id clock hash ssid dest source entries D fs now r
    (λ res w', w_tx w' = None ∧
      match res with
      | Ok p => savedPreview id clock hash ssid dest source entries now D = Ok (p, w_db w')
      | Err _ => w_db w' = D ∨ ∃ p, savedPreview id clock hash ssid dest source entries now D = Ok (p, w_db w')
      end)) as Hwp.
  rw /wp in Hwp. destruct (SavePreview _ _ _ _ _ _ _ _) as [res w'] eqn:E. cbn in Hwp.
  destruct Hwp as [Htx Hdb]; [by intros; cbn|by intros; cbn|]. split_and!; [done|done|].
  intros -> p db' Hs. apply (SavePreview_healthy _ _ _ _ _ _ _ _ now r) in Hs. congruence.
Qed.

(** C7: a saved preview is what is loaded: the first save of a preview whose
    strings are valid UTF-8 and whose entries are in ascending positions is
    paged back by LoadPreview field by field, through the JSON columns. *)
Theorem SavePreview_LoadPreview_roundtrip {R} id clock hash ssid dest source entries (w w' : world R) p offset limit now :
  w_tx w = None →
  findPreview (hash, Playlist_Provider source, ssid, dest) (w_db w) = None →
  transfer_preview_entries (w_db w) !! id = None →
  wf_playlist source → Forall wf_preview_entry entries → ascending entries →
  0 ≤ offset → 1 ≤ limit ≤ 500 →
  SavePreview id clock hash ssid dest source entries w = (Ok p, w') →
  LoadPreview hash (TransferPreview_ID p) offset limit (MkWorld (w_db w') None [] now (w_remote w')) =
  (Ok (MkTransferPreview id source dest "ready" clock
         (take (Z.to_nat limit) (filter (λ e, offset ≤ PreviewEntry_Position e) entries))),
   MkWorld (w_db w') None [] now (w_remote w')).
Proof.
  destruct w as [D tx fs t r]. cbn [w_tx w_db]. intros -> Hfind Hnone Hsrc Hes Hasc Ho Hl Hsave.
  apply SavePreview_Ok, savedPreview_fresh in Hsave as (-> & (name & Hprev) & Hent & _); [|done].
  rw Hnone /= in Hent. cbn [TransferPreview_ID].
  apply (LoadPreview_healthy hash id offset limit _ now _
    (MkPreviewRow hash (Playlist_Provider source) ssid (marshalPlaylist source) dest name "ready" clock));
    [done..|by rw Hprev lookup_insert_eq|done|by apply Playlist_roundtrip|].
  rw /selectPreviewPage /selectPreviewEntries Hent ordered_saved // filter_saved -fmap_take.
  apply decode_all_saved, Forall_take, Forall_forall. intros e [_ He]%list_elem_of_filter.
  by apply (proj1 (Forall_forall _ _) Hes).
Qed.

(** C24: starting the same preview again returns the same run and changes
    nothing: at most one run and one job per preview, whatever the faults of
    the two requests and however much time lies between them. *)
Theorem EnqueueRun_idempotent {R} freshID1 freshID2 hash previewID (w1 w2 w3 w4 : world R) st1 st2 :
  w_tx w1 = None → w_tx w3 = None → w_db w3 = w_db w2 →
  EnqueueRun freshID1 hash previewID w1 = (Ok st1, w2) →
  EnqueueRun freshID2 hash previewID w3 = (Ok st2, w4) →
  st2 = st1 ∧ w_db w4 = w_db w2.
Proof.
  destruct w1 as [D1 tx1 fs1 t1 r1], w3 as [D3 tx3 fs3 t3 r3]. cbn [w_tx w_db]. intros -> -> -> H1 H2.
  apply EnqueueRun_Ok in H1, H2. by eapply enqueued_again.
Qed.


Lemma reads_view {R} hash D1 D2 fs now (r : R) :
  session_view hash D1 = session_view hash D2 →
  (∀ previewID offset limit,
    (LoadPreview hash previewID offset limit (MkWorld D1 None fs now r)).1 =
    (LoadPreview hash previewID offset limit (MkWorld D2 None fs now r)).1) ∧
  (∀ runID, (LoadRunStatus hash runID (MkWorld D1 None fs now r)).1 =
            (LoadRunStatus hash runID (MkWorld D2 None fs now r)).1) ∧
  (∀ importID, (LoadSpotifySnapshot hash importID (MkWorld D1 None fs now r)).1 =
               (LoadSpotifySnapshot hash importID (MkWorld D2 None fs now r)).1).
Proof.
  intros Hview. split_and!.
  - intros pid offset limit. rw /LoadPreview. case_match; [done|]. rw !bind_unfold /pool_query /=.
    pose proof (view_selectPreview hash D1 D2 Hview pid now) as Hsel.
    destruct fs as [|[] fs]; cbn; rw -?Hsel; [..|done|done];
      (destruct (selectPreview pid hash now D1) as [row|] eqn:Hrow; [|done];
       pose proof (view_page hash D1 D2 Hview pid offset limit now row Hrow) as Hpage;
       rw !bind_unfold /lift; destruct (unmarshalPlaylist _); [|done]; rw !bind_unfold).
    + cbn. rw -Hpage !bind_unfold. by destruct (mapResult _ _).
    + destruct fs as [|[] fs]; cbn; rw -?Hpage; [..|done|done]; rw !bind_unfold; by destruct (mapResult _ _).
  - intros runID. rw /LoadRunStatus !bind_unfold /pool_query /=.
    pose proof (view_run hash D1 D2 Hview runID) as Hsel.
    destruct fs as [|[] fs]; cbn; rw ?Hsel; [..|done|done]; by case: (_ ≫= _).
  - intros importID. by apply LoadSpotifySnapshot_view.
Qed.

(** A session's reads depend on its own rows only: two databases that agree
    on the session's connection, imports, previews and runs give the same
    answers to LoadPreview, LoadRunStatus and LoadSpotifySnapshot, errors
    included, whatever the other sessions hold. *)
Theorem reads_session_isolated {R} hash D1 D2 fs now (r : R) :
  session_view hash D1 = session_view hash D2 →
  (∀ previewID offset limit,
    (LoadPreview hash previewID offset limit (MkWorld D1 None fs now r)).1 =
    (LoadPreview hash previewID offset limit (MkWorld D2 None fs now r)).1) ∧
  (∀ runID, (LoadRunStatus hash runID (MkWorld D1 None fs now r)).1 =
            (LoadRunStatus hash runID (MkWorld D2 None fs now r)).1) ∧
  (∀ importID, (LoadSpotifySnapshot hash importID (MkWorld D1 None fs now r)).1 =
               (LoadSpotifySnapshot hash importID (MkWorld D2 None fs now r)).1).
Proof. apply reads_view. Qed.

(** ** Concrete inputs *)

Definition exHash : string := Nat.iter 64 (λ s, "a" +:+ s) "".
Definition exPlaylist : Playlist := MkPlaylist ProviderSpotify "p1" "Mix" "" "snap".
Definition exSong : Track := MkTrack ProviderAppleMusic "a1" "Song" (Some ["Artist"]) "" 1000 "" ∅ "".
Definition exEntries : list PreviewEntry :=
  [MkPreviewEntry 0 (MkPlaylistEntry 0 (Some exSong) None false false 0) MatchStatusMatched (Some exSong) None "isrc";
   MkPreviewEntry 1 (MkPlaylistEntry 1 None None true false 0) MatchStatusUnsupported None None "source_track_unsupported"].
Definition exStart : world unit := MkWorld emptyDB None [] 7 tt.
Definition exSave : M (world unit) error TransferPreview :=
  SavePreview "0123456789" 5 exHash "import" ProviderAppleMusic exPlaylist exEntries.
Definition exSaved : world unit := (exSave exStart).2.

Lemma exPlaylist_wf : wf_playlist exPlaylist.
Proof. rw /wf_playlist. split_and!; vm_compute; reflexivity. Qed.

Lemma exSong_wf : wf_track exSong.
Proof.
  split_and!; [vm_compute; reflexivity..| |vm_compute; reflexivity| |vm_compute; reflexivity| |vm_compute; reflexivity].
  - repeat constructor; vm_compute; reflexivity.
  - rw /is_int /min_int /max_int /=. lia.
  - apply map_Forall_empty.
Qed.

Lemma exEntries_wf : Forall wf_preview_entry exEntries.
Proof.
  assert (∀ z : Z, z = 0 ∨ z = 1 → is_int z) as Hint by (rw /is_int /min_int /max_int; lia).
  assert (∀ t, Some exSong = Some t → wf_track t) as Hsong by (intros t [= <-]; apply exSong_wf).
  apply Forall_cons; split.
  - split; [split; [apply Hint; by left|split; [exact Hsong|intros s [=]]]|]. split; [exact Hsong|constructor].
  - apply Forall_cons; split; [|constructor].
    split; [split; [apply Hint; by right|split; [intros t [=]|intros s [=]]]|]. split; [intros t [=]|constructor].
Qed.

Lemma exEntries_ascending : ascending exEntries.
Proof. rw /ascending. change (StronglySorted Z.lt [0; 1]). repeat constructor. Qed.

Lemma SavePreview_atomic_witness :
  ∃ p, (exSave exStart).1 = Ok p ∧ w_tx (exSave exStart).2 = None ∧
    savedPreview "0123456789" 5 exHash "import" ProviderAppleMusic exPlaylist exEntries 7 emptyDB = Ok (p, w_db (exSave exStart).2).
Proof.
  pose proof (SavePreview_atomic "0123456789" 5 exHash "import" ProviderAppleMusic exPlaylist exEntries exStart eq_refl) as H.
  cbv zeta in H. rw -/exSave in H. destruct (exSave exStart) as [r w'] eqn:E. destruct H as (Htx & Hdb & _).
  destruct r as [p|e]; [by exists p|]. exfalso. revert E. vm_compute. discriminate.
Defined.

Lemma SavePreview_LoadPreview_roundtrip_witness :
  (LoadPreview exHash "0123456789" 1 50 (MkWorld (w_db exSaved) None [] 9 tt)).1 =
  Ok (MkTransferPreview "0123456789" exPlaylist ProviderAppleMusic "ready" 5 (drop 1 exEntries)).
Proof.
  assert (∃ p, exSave exStart = (Ok p, exSaved) ∧ TransferPreview_ID p = "0123456789") as (p & Hp & Hid).
  { rw /exSaved. destruct (exSave exStart) as [[p|e] w'] eqn:E; [exists p; split; [done|]|exfalso];
      revert E; vm_compute; [by intros [= <- _]|discriminate]. }
  rw -{1}Hid. change tt with (w_remote exSaved).
  rw (SavePreview_LoadPreview_roundtrip "0123456789" 5 exHash "import" ProviderAppleMusic exPlaylist exEntries exStart exSaved p 1 50 9);
    [reflexivity|vm_compute; reflexivity|reflexivity|apply exPlaylist_wf|apply exEntries_wf|apply exEntries_ascending
    |lia|lia|exact Hp|reflexivity].
Defined.

(** The preview "0123456789" of [exSaved], started twice. *)
Definition exEnqueue (freshID : string) : M (world unit) error TransferRunStatus :=
  EnqueueRun freshID exHash "0123456789".

Definition exQueued : TransferRunStatus :=
  MkTransferRunStatus "run1" "0123456789" "queued" "" "" 0 7 7.

Lemma EnqueueRun_idempotent_witness :
  (exEnqueue "run1" exSaved).1 = Ok exQueued ∧
  w_db (exEnqueue "run2" (exEnqueue "run1" exSaved).2).2 = w_db (exEnqueue "run1" exSaved).2.
Proof.
  assert ((exEnqueue "run1" exSaved).1 = Ok exQueued) as H1 by (vm_compute; reflexivity).
  assert ((exEnqueue "run2" (exEnqueue "run1" exSaved).2).1 = Ok exQueued) as H2 by (vm_compute; reflexivity).
  assert (w_tx (exEnqueue "run1" exSaved).2 = None) as Htx by (vm_compute; reflexivity).
  split; [exact H1|].
  apply (EnqueueRun_idempotent "run1" "run2" exHash "0123456789" exSaved (exEnqueue "run1" exSaved).2
    (exEnqueue "run1" exSaved).2 (exEnqueue "run2" (exEnqueue "run1" exSaved).2).2 exQueued exQueued
    ltac:(vm_compute; reflexivity) Htx eq_refl (run_pair _ _ _ H1) (run_pair _ _ _ H2)).
Defined.

Lemma emptyDB_runs_ok db :
  transfer_runs db = ∅ → river_job db = ∅ → runs_ok db.
Proof. intros Hr Hj. split; rw ?Hr ?Hj; intros *; rw !lookup_empty; done. Qed.


(** The rows of another session make no difference. *)
Lemma reads_session_isolated_witness :
  (LoadRunStatus "other" "run1" (MkWorld (w_db (exEnqueue "run1" exSaved).2) None [] 0 tt)).1 =
  (LoadRunStatus "other" "run1" (MkWorld emptyDB None [] 0 tt)).1.
Proof.
  apply (reads_session_isolated "other" (w_db (exEnqueue "run1" exSaved).2) emptyDB [] 0 tt).
  vm_compute. reflexivity.
Defined.

(** When the queue has given up the job of a run, the run still says that it is
    queued, and starting it again neither fails nor inserts another job: it can
    never end. *)
Definition exDiscarded : DB :=
  set_jobs (fmap (λ job, MkJobRow (job_kind job) (job_args job) JobDiscarded (job_max_attempts job)))
    (w_db (exEnqueue "run1" exSaved).2).

Example EnqueueRun_discarded :
  exEnqueue "run2" (MkWorld exDiscarded None [] 9 tt) = (Ok exQueued, MkWorld exDiscarded None [] 9 tt).
Proof. vm_compute. reflexivity. Qed.
