(* ===== verification/Service.v ===== *)
(** internal/transfer/service.go: creating a preview by matching every source
    entry against the destination's search, with a cache of the outcomes. *)
From S2P Require Import Prelude GoStrings Errors Json Models Matcher SpotifyTypes Database TransferStore.
Local Open Scope string_scope.
Local Open Scope list_scope.
Local Open Scope Z_scope.

(** The providers by name; the store of a [Service] is the database of the
    world. *)
Record Service (R : Type) : Type := MkService {
  providers : gmap string (Provider R);
}.
Arguments MkService {R}.
Arguments providers {R}.

Definition NewService {R} (ps : list (Provider R)) : Service R :=
  MkService (foldl (λ m p, <[Provider_Name p := p]> m) ∅ ps).

Lemma NewService_provider {R} (ps : list (Provider R)) name p :
  providers (NewService ps) !! name = Some p → p ∈ ps ∧ name = Provider_Name p.
Proof.
  induction ps as [|q ps IH] using rev_ind; [done|]. rw /NewService /= foldl_snoc in IH |- *.
  intros [[<- <-]|[_ [Hin Hn]%IH]]%lookup_insert_Some; set_solver.
Qed.

Definition matchingKey (track : Track) : string :=
  let artists := Join (elems (Track_Artists track)) "|" in
  Track_ID track +:+ "|" +:+ Track_Name track +:+ "|" +:+ artists +:+ "|" +:+
  Track_ISRC track +:+ "|" +:+ Itoa (Track_DurationMS track).

Definition trackQuery (track : Track) : TrackQuery :=
  MkTrackQuery (Track_Name track) (Track_Artists track) (Track_ISRC track)
    (Track_DurationMS track) (Track_ProviderIDs track).

(** The entry of the preview for the outcome of one source entry. *)
Definition previewEntry (source : PlaylistEntry) (r : MatchResult) : PreviewEntry :=
  MkPreviewEntry (PlaylistEntry_Position source) source (MatchResult_Status r)
    (MatchResult_Matched r) (MatchResult_Candidates r) (MatchResult_Reason r).

Section service.
Context `{Unicode} {R : Type}.
Abbreviation Mw := (M (world R) error).
Implicit Types (s : Service R) (destination : Provider R).

Definition searchUnsupported : MatchResult :=
  MkMatchResult MatchStatusUnsupported None None "destination_search_unsupported".

(** The search of the destination and the outcome for one source entry. *)
Definition searchAndMatch destination (hash destinationProvider : string)
    (source : PlaylistEntry) (track : Track) : Mw MatchResult :=
  r ← try (remote (SearchTracks destination hash (trackQuery track) 10));
  match r with
  | Err err => if errors_Is err ErrUnsupportedOperation then mret searchUnsupported else raise err
  | Ok candidates => mret (MatchTrack source destinationProvider candidates)
  end.

(** The loop over the source entries; [cache] maps matching keys to outcomes. *)
Fixpoint matchEntries destination (hash destinationProvider : string)
    (cache : gmap string MatchResult) (sourceEntries : list PlaylistEntry) : Mw (list PreviewEntry) :=
  match sourceEntries with
  | [] => mret []
  | source :: rest =>
      match PlaylistEntry_Track source with
      | Some track =>
          if PlaylistEntry_Unsupported source || PlaylistEntry_Unavailable source then
            results ← matchEntries destination hash destinationProvider cache rest;
            mret (previewEntry source unsupportedResult :: results)
          else
            match cache !! matchingKey track with
            | Some cached =>
                results ← matchEntries destination hash destinationProvider cache rest;
                mret (previewEntry source cached :: results)
            | None =>
                result ← searchAndMatch destination hash destinationProvider source track;
                results ← matchEntries destination hash destinationProvider
                            (<[matchingKey track := result]> cache) rest;
                mret (previewEntry source result :: results)
            end
      | None =>
          results ← matchEntries destination hash destinationProvider cache rest;
          mret (previewEntry source unsupportedResult :: results)
      end
  end.

(** [id] is the random ID and [clock] the time that [SavePreview] draws. *)
Definition CreatePreview s (id : string) (clock : Z)
    (hash sourceProvider sourceSnapshotID destinationProvider : string) : Mw TransferPreview :=
  if bool_decide (sourceProvider ≠ ProviderSpotify) then raise ErrInvalidProvider else
  match providers s !! destinationProvider with
  | None => raise ErrInvalidProvider
  | Some destination =>
      loaded ← LoadSpotifySnapshot hash sourceSnapshotID;
      let '(sourcePlaylist, sourceEntries) := loaded in
      results ← matchEntries destination hash destinationProvider ∅ sourceEntries;
      SavePreview id clock hash sourceSnapshotID destinationProvider sourcePlaylist results
  end.

Definition Preview (hash previewID : string) (offset limit : Z) : Mw TransferPreview :=
  LoadPreview hash previewID offset limit.
Definition RunStatus (hash runID : string) : Mw TransferRunStatus := LoadRunStatus hash runID.

(** ** The matching loop without its cache *)

(** What a deterministic search [find] makes of one entry. *)
Definition outcome (find : TrackQuery → result (list Track)) (destinationProvider : string)
    (source : PlaylistEntry) : result MatchResult :=
  match PlaylistEntry_Track source with
  | None => Ok unsupportedResult
  | Some track =>
      if PlaylistEntry_Unsupported source || PlaylistEntry_Unavailable source then Ok unsupportedResult
      else match find (trackQuery track) with
           | Err err => if errors_Is err ErrUnsupportedOperation then Ok searchUnsupported else Err err
           | Ok candidates => Ok (MatchTrack source destinationProvider candidates)
           end
  end.

Definition matchAll (find : TrackQuery → result (list Track)) (destinationProvider : string)
    (sources : list PlaylistEntry) : result (list PreviewEntry) :=
  mapResult (λ source, res_bind (outcome find destinationProvider source)
                         (λ r, Ok (previewEntry source r))) sources.

(** The matching key determines the query: what the cache relies on. *)
Definition keys_determine_queries (sources : list PlaylistEntry) : Prop :=
  ∀ e1 e2 t1 t2, e1 ∈ sources → e2 ∈ sources → matchable e1 t1 → matchable e2 t2 →
    matchingKey t1 = matchingKey t2 → trackQuery t1 = trackQuery t2.

Lemma MatchTrack_query e1 e2 t1 t2 dest candidates :
  matchable e1 t1 → matchable e2 t2 → trackQuery t1 = trackQuery t2 →
  MatchTrack e1 dest candidates = MatchTrack e2 dest candidates.
Proof.
  intros (Ht1 & Hu1 & Ha1) (Ht2 & Hu2 & Ha2) [= Hn Har Hi Hd Hp].
  rw /MatchTrack Ht1 Ht2 Hu1 Hu2 Ha1 Ha2. cbn [orb]. by rw Hn Har Hi Hd Hp.
Qed.

Lemma outcome_query find dest e1 e2 t1 t2 :
  matchable e1 t1 → matchable e2 t2 → trackQuery t1 = trackQuery t2 →
  outcome find dest e1 = outcome find dest e2.
Proof.
  intros Hm1 Hm2 Hq. pose proof (MatchTrack_query e1 e2 t1 t2 dest) as HM.
  destruct Hm1 as (Ht1 & Hu1 & Ha1), Hm2 as (Ht2 & Hu2 & Ha2).
  rw /outcome Ht1 Ht2 Hu1 Hu2 Ha1 Ha2. cbn [orb]. rw Hq. destruct (find (trackQuery t2)); [|done].
  f_equal. apply HM; [by split_and!..|done].
Qed.
End service.

Section matching_loop.
Context `{Unicode} {R : Type}.
Context (destination : Provider R) (hash dest : string) (find : TrackQuery → result (list Track)).

(** The destination's answers depend on the query only. *)
Context (search_find : ∀ q r, (SearchTracks destination hash q 10 r).1 = find q).

Lemma searchAndMatch_outcome source track (w : world R) :
  matchable source track →
  (searchAndMatch destination hash dest source track w).1 = outcome find dest source.
Proof.
  intros (Ht & Hu & Ha). rw /outcome Ht Hu Ha. cbn [orb].
  pose proof (search_find (trackQuery track) (w_remote w)) as Hf.
  rw /searchAndMatch bind_unfold /try /remote.
  destruct (SearchTracks _ _ _ _ _) as [r r']. cbn in Hf. rw -Hf.
  destruct r as [cs|err]; [done|]. by destruct (errors_Is err _).
Qed.

(** Every cached outcome is the outcome of some entry with that key. *)
Definition cache_ok (sources : list PlaylistEntry) (cache : gmap string MatchResult) : Prop :=
  ∀ k r, cache !! k = Some r →
    ∃ e t, e ∈ sources ∧ matchable e t ∧ matchingKey t = k ∧ outcome find dest e = Ok r.

Lemma matchEntries_all sources cache todo (w : world R) :
  keys_determine_queries sources → todo ⊆ sources → cache_ok sources cache →
  (matchEntries destination hash dest cache todo w).1 = matchAll find dest todo.
Proof.
  intros Hk. revert cache w. induction todo as [|e todo IH]; intros cache w Hsub Hc; [done|].
  assert (e ∈ sources) as He by set_solver. assert (todo ⊆ sources) as Hsub' by set_solver.
  assert (∀ cache' r w', cache_ok sources cache' → outcome find dest e = Ok r →
    ((matchEntries destination hash dest cache' todo ≫= λ results, mret (previewEntry e r :: results)) w').1 =
    matchAll find dest (e :: todo)) as Hstep.
  { intros cache' r w' Hc' Hr. rw bind_unfold. specialize (IH cache' w' Hsub' Hc').
    rw /matchAll /= Hr. cbn [res_bind]. rw -/(matchAll find dest todo) -IH.
    by destruct (matchEntries _ _ _ cache' todo w') as [[]]. }
  cbn [matchEntries]. destruct (PlaylistEntry_Track e) as [t|] eqn:Ht.
  2: { apply Hstep; [done|]. by rw /outcome Ht. }
  destruct (PlaylistEntry_Unsupported e || PlaylistEntry_Unavailable e) eqn:Hf.
  { apply Hstep; [done|]. by rw /outcome Ht Hf. }
  assert (matchable e t) as Hm by (apply orb_false_iff in Hf; by split_and!; try apply Hf).
  destruct (cache !! matchingKey t) as [r|] eqn:Hcache.
  { apply Hstep; [done|]. apply Hc in Hcache as (e' & t' & He' & Hm' & Hkey & <-).
    by apply (outcome_query find dest e e' t t'), (Hk e e' t t'). }
  rw bind_unfold. pose proof (searchAndMatch_outcome e t w Hm) as Ho.
  destruct (searchAndMatch _ _ _ _ _ w) as [[r|err] w'] eqn:Hs; cbn in Ho.
  - apply Hstep; [|done]. intros k r' [[<- <-]|[_ Hr']]%lookup_insert_Some; [by exists e, t|by apply Hc].
  - by rw /matchAll /= -Ho.
Qed.
End matching_loop.

(** ** Properties *)

(** C31: with a search that depends on the query only, and on a snapshot where
    equal matching keys mean equal queries, the cache of CreatePreview is
    invisible: every entry gets the outcome that a search of its own would
    give, and the first search error aborts the loop exactly as without a
    cache. *)
Theorem matchEntries_cache_transparent `{Unicode} {R} (destination : Provider R) hash dest find sources (w : world R) :
  (∀ q r, (SearchTracks destination hash q 10 r).1 = find q) →
  keys_determine_queries sources →
  (matchEntries destination hash dest ∅ sources w).1 = matchAll find dest sources.
Proof.
  intros Hf Hk. apply (matchEntries_all destination hash dest find Hf sources); [done..|].
  by intros k r ?%lookup_empty_Some.
Qed.

Section preview_shape.
Context `{Unicode} {R : Type}.

(** A matched entry carries a track with a non-empty ID, and no other does. *)
Definition wf_result (r : MatchResult) : Prop :=
  MatchResult_Status r = MatchStatusMatched ↔ ∃ t, MatchResult_Matched r = Some t ∧ Track_ID t ≠ "".

Lemma resolveSingle_wf reason ts :
  (∀ t, t ∈ ts → Track_ID t ≠ "") → wf_result (resolveSingle reason ts).
Proof.
  intros Hid. rw /wf_result. destruct ts as [|t [|]]; cbn; [naive_solver| |naive_solver].
  split; [|done]. intros _. exists t. split; [done|]. apply Hid. set_solver.
Qed.

Lemma MatchTrack_wf source dest candidates : wf_result (MatchTrack source dest candidates).
Proof.
  pose proof (match_spec_complete source dest candidates) as Hs.
  destruct Hs; try (rw /wf_result; cbn; naive_solver).
  apply resolveSingle_wf. intros t [_ Ht]%elem_of_filterTracks.
  by apply elem_of_uniqueTracks in Ht as [? _].
Qed.

Lemma searchAndMatch_wf destination hash dest source track (w : world R) r w' :
  searchAndMatch destination hash dest source track w = (Ok r, w') → wf_result r.
Proof.
  intros (res & w1 & Htry & Hk)%bind_inv. destruct res as [cs|err].
  - injection Hk as <- <-. apply MatchTrack_wf.
  - destruct (errors_Is err _); [|done]. injection Hk as <- <-. rw /wf_result. cbn. naive_solver.
Qed.

(** What the entries of a preview are made of. *)
Definition entries_for (sources : list PlaylistEntry) (results : list PreviewEntry) : Prop :=
  Forall2 (λ source e, ∃ r, e = previewEntry source r ∧ wf_result r ∧
    ((∀ track, ¬ matchable source track) → r = unsupportedResult)) sources results.

Lemma entries_for_step (m : M (world R) error (list PreviewEntry)) source todo r results w w' :
  (∀ rs w1, m w = (Ok rs, w1) → entries_for todo rs) →
  wf_result r → ((∀ track, ¬ matchable source track) → r = unsupportedResult) →
  (m ≫= λ results, mret (previewEntry source r :: results)) w = (Ok results, w') →
  entries_for (source :: todo) results.
Proof.
  intros Hm Hwf Hun (rs & w1 & Hrs & [= <- <-])%bind_inv.
  constructor; [by exists r|by eapply Hm].
Qed.

Lemma matchEntries_shape destination hash dest cache sources (w : world R) results w' :
  (∀ k r, cache !! k = Some r → wf_result r) →
  matchEntries destination hash dest cache sources w = (Ok results, w') →
  entries_for sources results.
Proof.
  assert (wf_result unsupportedResult) as Hun by (rw /wf_result; cbn; naive_solver).
  revert cache w results w'. induction sources as [|e todo IH]; intros cache w results w' Hc.
  { intros [= <- <-]. constructor. }
  cbn [matchEntries].
  destruct (PlaylistEntry_Track e) as [t|] eqn:Ht; [|apply entries_for_step; eauto].
  destruct (PlaylistEntry_Unsupported e || PlaylistEntry_Unavailable e) eqn:Hf; [apply entries_for_step; eauto|].
  assert (matchable e t) as Hm by (apply orb_false_iff in Hf; by split_and!; try apply Hf).
  assert (∀ r : MatchResult, (∀ track, ¬ matchable e track) → r = unsupportedResult) as Hno by (intros r Hn; by destruct (Hn t)).
  destruct (cache !! matchingKey t) as [r|] eqn:Hr; [apply entries_for_step; eauto|].
  intros (r & w1 & Hs & Hrest)%bind_inv. eapply entries_for_step; [|by eapply searchAndMatch_wf|apply Hno|exact Hrest].
  intros rs w2. apply IH. intros k r' [[_ <-]|[_ Hr']]%lookup_insert_Some; [by eapply searchAndMatch_wf|eauto].
Qed.

(** A destination that refuses every search gives a preview only of entries
    that need none. *)
Lemma matchEntries_refused destination hash dest sources (w : world R) results w' :
  (∀ q, ∃ e r', SearchTracks destination hash q 10 (w_remote w) = (Err e, r') ∧
     errors_Is e ErrUnsupportedOperation = false) →
  matchEntries destination hash dest ∅ sources w = (Ok results, w') →
  Forall (λ e, PreviewEntry_Status e = MatchStatusUnsupported) results.
Proof.
  intros Hrefused. revert results w'. induction sources as [|e todo IH]; intros results w'; [by intros [= <- _]|].
  assert (∀ results w', (matchEntries destination hash dest ∅ todo ≫= λ results, mret (previewEntry e unsupportedResult :: results)) w =
    (Ok results, w') → Forall (λ e, PreviewEntry_Status e = MatchStatusUnsupported) results) as Hskip.
  { intros results1 w1 (rs & w2 & Hrs & [= <- _])%bind_inv. constructor; [done|]. by eapply IH. }
  cbn [matchEntries]. destruct (PlaylistEntry_Track e) as [t|]; [|apply Hskip].
  destruct (_ || _); [apply Hskip|]. rw lookup_empty. intros (r & w1 & Hs & _)%bind_inv.
  destruct (Hrefused (trackQuery t)) as (err & r' & Hsearch & Herr).
  rw /searchAndMatch bind_unfold /try /remote Hsearch Herr in Hs. done.
Qed.
End preview_shape.

(** A preview lists every source entry once, in order and at its position;
    an entry that is no supported, available track is unsupported; and an entry
    is matched exactly when it carries a track with a non-empty ID. *)
Theorem matchEntries_preserves_order `{Unicode} {R} (destination : Provider R) hash dest sources w results w' :
  matchEntries destination hash dest ∅ sources w = (Ok results, w') →
  PreviewEntry_Source <$> results = sources ∧
  PreviewEntry_Position <$> results = PlaylistEntry_Position <$> sources ∧
  Forall (λ e,
    ((∀ track, ¬ matchable (PreviewEntry_Source e) track) → PreviewEntry_Status e = MatchStatusUnsupported) ∧
    (PreviewEntry_Status e = MatchStatusMatched ↔ ∃ t, PreviewEntry_Matched e = Some t ∧ Track_ID t ≠ "")) results.
Proof.
  intros Hrun. apply matchEntries_shape in Hrun; [|by intros k r ?%lookup_empty_Some].
  induction Hrun as [|source e sources results (r & -> & Hwf & Hun) _ (IHs & IHp & IHf)]; [done|].
  split_and!; [by rw fmap_cons IHs|by rw !fmap_cons IHp|]. constructor; [|done].
  split; [|done]. intros Hno. by rw /= Hun.
Qed.

(** The matching key is not injective: the separator may occur in a name,
    so that moving the text after it into the artists gives the same key. *)
Theorem matchingKey_collision provider id name1 name2 artist album durationMS isrc ids url :
  matchingKey (MkTrack provider id (name1 +:+ "|" +:+ name2) (Some [artist]) album durationMS isrc ids url) =
  matchingKey (MkTrack provider id name1 (Some [name2; artist]) album durationMS isrc ids url).
Proof.
  assert (∀ a b c : string, (a +:+ b) +:+ c = a +:+ (b +:+ c)) as Hassoc.
  { intros a b c. induction a as [|x a IH]; [done|]. change (String x ((a +:+ b) +:+ c) = String x (a +:+ (b +:+ c))). by rw IH. }
  rw /matchingKey. cbn [Track_ID Track_Name Track_Artists Track_ISRC Track_DurationMS elems default Join String.concat].
  rw !Hassoc. done.
Qed.

(** ** Concrete inputs *)

(** A destination that answers every search with the same tracks. *)
Definition exDestination (found : list Track) : Provider unit :=
  MkProvider unit ProviderAppleMusic
    (λ _ _ _, raise ErrUnsupportedOperation) (λ _ _ _ _, raise ErrUnsupportedOperation)
    (λ _ _ _, mret found) (λ _ _, raise ErrUnsupportedOperation) (λ _ _ _, raise ErrUnsupportedOperation).
Definition exWorld : world unit := MkWorld emptyDB None [] 0 tt.
Definition exSources : list PlaylistEntry := [exSource "aa11"; MkPlaylistEntry 1 None None true false 0; exSource "aa11"].

Lemma matchEntries_cache_transparent_witness :
  (@matchEntries latin1 unit (exDestination [exTrack "x" "Other" 1 "AA11"]) "hash" ProviderAppleMusic ∅ exSources exWorld).1 =
  @matchAll latin1 (λ _, Ok [exTrack "x" "Other" 1 "AA11"]) ProviderAppleMusic exSources.
Proof.
  apply (@matchEntries_cache_transparent latin1 unit); [done|].
  assert (∀ e t, e ∈ exSources → matchable e t → t = exTrack "sp1" "Track" 180000 "aa11") as Ht.
  { intros e t He (Ht & _). apply list_elem_of_In in He as [<-|[<-|[<-|[]]]];
      cbn [PlaylistEntry_Track exSource] in Ht; congruence. }
  intros e1 e2 t1 t2 H1 H2 M1 M2 _. by rw (Ht _ _ H1 M1) (Ht _ _ H2 M2).
Defined.

Lemma matchEntries_preserves_order_witness :
  ∃ results w', @matchEntries latin1 unit (exDestination [exTrack "x" "Other" 1 "AA11"]) "hash" ProviderAppleMusic ∅ exSources exWorld =
      (Ok results, w') ∧
    PreviewEntry_Source <$> results = exSources.
Proof.
  destruct (@matchEntries latin1 unit (exDestination [exTrack "x" "Other" 1 "AA11"]) "hash" ProviderAppleMusic ∅ exSources exWorld)
    as [[results|e] w'] eqn:E.
  - exists results, w'. split; [done|]. by apply (@matchEntries_preserves_order latin1 unit) in E as (Hs & _).
  - exfalso. revert E. vm_compute. discriminate.
Defined.
