(* ===== verification/Worker.v ===== *)
(** internal/transfer/worker.go: the job that carries a preview over to the
    destination.  One attempt runs in one transaction that holds the run's row;
    the calls to the destination provider are not undone when it rolls back, so
    an attempt first reads what earlier ones left behind. *)
From S2P Require Import Prelude GoStrings Errors Json Models Matcher SpotifyTypes Database TransferStore Service.
Local Open Scope string_scope.
Local Open Scope list_scope.
Local Open Scope Z_scope.

(** ** The worker *)

(** What [runWorker.Work] makes of the error of [runOnce]. *)
Definition workError (err : error) : work_result :=
  match errors_As_RateLimit err with
  | Some retryAfter =>
      let delay := if retryAfter <=? 0 then 30 * Second else retryAfter in
      WorkSnooze delay
  | None =>
      if errors_Is err ErrUnsupportedOperation then WorkCancel err
      else if errors_Is err ErrRunNotFound then WorkCancel err
      else WorkRetry err
  end.

Section worker.
Context {R : Type}.
Abbreviation Mw := (M (world R) error).
Implicit Types (s : Service R) (provider : Provider R).

(** The loop over the pages; [budget] bounds the pages that are fetched before
    the job's context expires (10 minutes). *)
Fixpoint findPlaylistFrom provider (hash name : string) (offset : Z) (budget : nat) : Mw string :=
  match budget with
  | O => raise DeadlineExceeded
  | S budget =>
      page ← remote (ListPlaylists provider hash offset 50);
      match List.find (λ playlist, bool_decide (Playlist_Name playlist = name)) (PlaylistPage_Items page) with
      | Some playlist => mret (Playlist_ID playlist)
      | None =>
          match PlaylistPage_NextOffset page with
          | None => mret ""
          | Some next => findPlaylistFrom provider hash name next budget
          end
      end
  end.

Definition findPlaylistByName provider (budget : nat) (hash name : string) : Mw string :=
  findPlaylistFrom provider hash name 0 budget.

Definition ensureEntryState provider (hash playlistID : string) (position : Z) (trackID : string) : Mw unit :=
  page ← remote (ReadPlaylistEntries provider hash playlistID position 1);
  match EntryPage_Items page with
  | item :: _ =>
      match PlaylistEntry_Track item with
      | Some track =>
          if bool_decide (Track_ID track = trackID) then mret tt
          else raise (ErrorString "destination_playlist_unexpected_order")
      | None => remote (AddTracksToPlaylist provider hash playlistID [trackID])
      end
  | [] => remote (AddTracksToPlaylist provider hash playlistID [trackID])
  end.

(** The tracks of the matched entries, in the order of the entries. *)
Definition matchedTracks (entries : list PreviewEntry) : list Track :=
  omap (λ e, match PreviewEntry_Status e with
             | MatchStatusMatched => PreviewEntry_Matched e
             | _ => None
             end) entries.

(** The playlist name of a transfer. *)
Definition destinationName (preview : TransferPreview) (previewID : string) : string :=
  let name := Playlist_Name (TransferPreview_Source preview) in
  if 8 <? slen previewID then name +:+ " (transfer " +:+ shortID previewID +:+ ")" else name.

(** Recording a failure, best effort, before giving up. *)
Definition failRun (runID code playlistID : string) (next : Z) {A} : Mw A :=
  ignore (updateRunState runID "failed" code playlistID next) ;;
  ignore commit ;;
  raise ErrUnsupportedOperation.

(** The loop over the entries from [next] on; [todo] are the tracks left. *)
Fixpoint reconcile provider (hash runID playlistID : string) (next : Z) (todo : list Track) : Mw Z :=
  match todo with
  | [] => mret next
  | track :: todo =>
      r ← try (ensureEntryState provider hash playlistID next (Track_ID track));
      match r with
      | Err err =>
          if errors_Is err ErrUnsupportedOperation
          then failRun runID "destination_reconciliation_unsupported" playlistID next
          else raise err
      | Ok _ => reconcile provider hash runID playlistID (next + 1) todo
      end
  end.

(** The destination playlist of a run that has none recorded: the one with the
    transfer's name, else a new one. *)
Definition obtainPlaylist provider (budget : nat) (hash runID : string)
    (status : TransferRunStatus) (preview : TransferPreview) : Mw string :=
  let name := destinationName preview (TransferRunStatus_PreviewID status) in
  let unsupported := failRun runID "destination_playlist_create_unsupported" "" (TransferRunStatus_NextPosition status) in
  r ← try (findPlaylistByName provider budget hash name);
  match r with
  | Err err => if errors_Is err ErrUnsupportedOperation then unsupported else raise err
  | Ok existing =>
      if bool_decide (existing ≠ "") then mret existing
      else
        r ← try (remote (CreatePlaylist provider hash (MkCreatePlaylistInput name
               ("Created by transfer preview " +:+ TransferRunStatus_PreviewID status))));
        match r with
        | Err err => if errors_Is err ErrUnsupportedOperation then unsupported else raise err
        | Ok playlist => mret (Playlist_ID playlist)
        end
  end.

(** A negative position would be an index out of range, a panic that River
    turns into an error. *)
Definition runOnce s (budget : nat) (runID : string) : Mw unit :=
  with_tx (
    loaded ← loadRunForUpdate runID;
    let '(status, preview, hash) := loaded in
    if bool_decide (TransferRunStatus_State status = "completed") then commit else
    match providers s !! TransferPreview_DestinationProvider preview with
    | None =>
        failRun runID "destination_provider_unavailable"
          (TransferRunStatus_DestinationPlaylistID status) (TransferRunStatus_NextPosition status)
    | Some provider =>
        let playlistID := TransferRunStatus_DestinationPlaylistID status in
        playlistID ←
          (if bool_decide (playlistID = "") then obtainPlaylist provider budget hash runID status preview
           else mret playlistID);
        let matched := matchedTracks (TransferPreview_Entries preview) in
        let next := TransferRunStatus_NextPosition status in
        if (next <? 0) && (next <? len matched) then raise (ErrorString "index out of range") else
        next ← reconcile provider hash runID playlistID next (drop (Z.to_nat next) matched);
        updateRunState runID "completed" "" playlistID next ;;
        commit
    end).

Definition Work s (budget : nat) (runID : string) (w : world R) : work_result * world R :=
  match runOnce s budget runID w with
  | (Ok _, w') => (WorkDone, w')
  | (Err err, w') => (workError err, w')
  end.
End worker.

(** ** What the worker relies on: a destination account *)

Record DestPlaylist : Type := MkDest {
  dest_id : string;
  dest_name : string;
  dest_tracks : list string;
}.

#[export] Instance DestPlaylist_eq_dec : EqDecision DestPlaylist.
Proof. solve_decision. Defined.

Definition appendTo (id : string) (ids : list string) (d : DestPlaylist) : DestPlaylist :=
  if bool_decide (dest_id d = id) then MkDest (dest_id d) (dest_name d) (dest_tracks d ++ ids) else d.

(** The ID that a playlist entry shows. *)
Definition entryTrackID (e : PlaylistEntry) : string :=
  match PlaylistEntry_Track e with Some t => Track_ID t | None => "" end.

(** The documented behaviour of a provider seen through the account of one
    session, as far as the worker uses it.  Any call may fail; a call that
    creates or adds may fail after it took effect.  Where the provider is
    [dest_up], calls within its limits succeed. *)
Class Destination {R} (provider : Provider R) (hash : string) : Type := {
  dest_view : R → list DestPlaylist;
  dest_inv : R → Prop;
  dest_up : R → Prop;
  dest_accepts : CreatePlaylistInput → Prop;   (* what a playlist can be created with *)
  dest_takes : string → Prop;                  (* the IDs of tracks that can be added *)
  dest_reach : Z;                              (* how many playlists can be listed *)
  dest_size : Z;                               (* how many tracks of a playlist can be read *)

  dest_ids r : dest_inv r → NoDup (dest_id <$> dest_view r) ∧ Forall (λ d, dest_id d ≠ "") (dest_view r);
  dest_takes_id id : dest_takes id → id ≠ "";

  (* A page lists the playlists from its offset on and says where to go on. *)
  dest_list r offset : dest_inv r → 0 ≤ offset ≤ len (dest_view r) →
    wp (ListPlaylists provider hash offset 50) (λ res r',
      dest_inv r' ∧ dest_view r' = dest_view r ∧ (dest_up r → dest_up r' ∧ (offset ≤ dest_reach → succeeds res)) ∧
      match res with
      | Ok page => ∃ n, let rest := drop (Z.to_nat offset) (dest_view r) in
          (λ p, (Playlist_ID p, Playlist_Name p)) <$> PlaylistPage_Items page =
            (λ d, (dest_id d, dest_name d)) <$> take n rest ∧
          match PlaylistPage_NextOffset page with
          | None => (length rest ≤ n)%nat
          | Some next => next = offset + Z.of_nat n ∧ (0 < n ≤ length rest)%nat
          end
      | Err _ => True
      end) r;

  (* The entry at a position of a playlist of the account. *)
  dest_read r d position : dest_inv r → d ∈ dest_view r → 0 ≤ position ≤ len (dest_tracks d) →
    wp (ReadPlaylistEntries provider hash (dest_id d) position 1) (λ res r',
      dest_inv r' ∧ dest_view r' = dest_view r ∧ (dest_up r → dest_up r' ∧ (len (dest_tracks d) ≤ dest_size → succeeds res)) ∧
      match res with
      | Ok page =>
          match dest_tracks d !! Z.to_nat position with
          | None => EntryPage_Items page = []
          | Some id => ∃ e es, EntryPage_Items page = e :: es ∧ entryTrackID e = id
          end
      | Err _ => True
      end) r;

  (* A new playlist is empty, has the name asked for and an ID of its own. *)
  dest_create r input : dest_inv r → dest_accepts input →
    wp (CreatePlaylist provider hash input) (λ res r',
      dest_inv r' ∧ (dest_up r → dest_up r' ∧ succeeds res) ∧
      let created id := ∃ l1 l2, dest_view r = l1 ++ l2 ∧
        dest_view r' = l1 ++ MkDest id (CreatePlaylistInput_Name input) [] :: l2 in
      match res with
      | Ok playlist => created (Playlist_ID playlist)
      | Err _ => dest_view r' = dest_view r ∨ ∃ id, created id
      end) r;

  (* A track is added at the end of the playlist. *)
  dest_add r d track : dest_inv r → d ∈ dest_view r → dest_takes track →
    wp (AddTracksToPlaylist provider hash (dest_id d) [track]) (λ res r',
      dest_inv r' ∧ (dest_up r → dest_up r' ∧ succeeds res) ∧
      let added := dest_view r' = appendTo (dest_id d) [track] <$> dest_view r in
      match res with Ok _ => added | Err _ => dest_view r' = dest_view r ∨ added end) r;
}.

(** ** The run seen from outside *)

(** What an attempt reads: the pure part of [loadRunForUpdate]. *)
Definition loadedRun (runID : string) (db : DB) : result (TransferRunStatus * TransferPreview * string) :=
  match transfer_runs db !! runID with
  | None => Err ErrRunNotFound
  | Some run =>
      match transfer_previews db !! run_preview_id run with
      | None => Err ErrRunNotFound
      | Some preview =>
          match unmarshalPlaylist (prev_source_playlist preview) with
          | Err e => Err e
          | Ok source =>
              match mapResult decodePreviewEntry (selectPreviewEntries (run_preview_id run) 0 db) with
              | Err e => Err e
              | Ok entries =>
                  Ok (runStatus runID run,
                      MkTransferPreview (run_preview_id run) source (prev_destination_provider preview)
                        (prev_state preview) (prev_created_at preview) entries,
                      prev_session_hash preview)
              end
          end
      end
  end.

Section run_state.
Context {R : Type} {provider : Provider R} {hash : string} {dest : Destination provider hash}.

Definition named (name : string) (r : R) : list DestPlaylist :=
  filter (λ d, dest_name d = name) (dest_view r).
Definition unnamed (name : string) (r : R) : list DestPlaylist :=
  filter (λ d, dest_name d ≠ name) (dest_view r).

(** The destination holds no playlist of the transfer's name, or exactly one
    with the first [k] of the tracks [ids]; what the run row records agrees. *)
Inductive progress (name : string) (ids : list string) (status : TransferRunStatus) (r : R) : Prop :=
| progress_none :
    named name r = [] →
    TransferRunStatus_DestinationPlaylistID status = "" →
    TransferRunStatus_NextPosition status = 0 →
    TransferRunStatus_State status ≠ "completed" →
    progress name ids status r
| progress_some id k :
    named name r = [MkDest id name (take k ids)] → (k ≤ length ids)%nat →
    TransferRunStatus_DestinationPlaylistID status = "" ∧ TransferRunStatus_NextPosition status = 0 ∨
      TransferRunStatus_DestinationPlaylistID status = id ∧ 0 ≤ TransferRunStatus_NextPosition status ≤ Z.of_nat k →
    (TransferRunStatus_State status = "completed" →
      TransferRunStatus_DestinationPlaylistID status = id ∧ k = length ids ∧
      TransferRunStatus_NextPosition status = Z.of_nat k) →
    progress name ids status r.
End run_state.

(** ** Proofs: the destination *)

Section destination_facts.
Context {R : Type} {provider : Provider R} {hash : string} {dest : Destination provider hash}.
Implicit Types (r : R) (D : DB) (fs : list fault) (tx : option (DB * bool)).

Lemma find_page (name : string) (items : list Playlist) (ds : list DestPlaylist) :
  (λ p, (Playlist_ID p, Playlist_Name p)) <$> items = (λ d, (dest_id d, dest_name d)) <$> ds →
  Playlist_ID <$> List.find (λ p, bool_decide (Playlist_Name p = name)) items =
  dest_id <$> List.find (λ d, bool_decide (dest_name d = name)) ds.
Proof.
  revert ds. induction items as [|p items IH]; intros [|d ds]; [done..|].
  rw !fmap_cons. intros [= Hid Hn Hrest]. cbn. rw Hn. case_bool_decide; [by cbn; f_equal|auto].
Qed.

Lemma find_app {A} (f : A → bool) l1 l2 :
  List.find f (l1 ++ l2) = match List.find f l1 with Some x => Some x | None => List.find f l2 end.
Proof. induction l1 as [|x l1 IH]; cbn; [done|]. by destruct (f x). Qed.

(** The search finds the first playlist of that name, whatever the page sizes;
    with enough budget only an error of the provider stops it. *)
Lemma wp_findPlaylistFrom name offset budget D tx fs now r Q :
  dest_inv r → 0 ≤ offset ≤ len (dest_view r) →
  (∀ r' id, dest_inv r' → dest_view r' = dest_view r → (dest_up r → dest_up r') →
    id = default "" (dest_id <$> List.find (λ d, bool_decide (dest_name d = name)) (drop (Z.to_nat offset) (dest_view r))) →
    Q (Ok id) (MkWorld D tx fs now r')) →
  (∀ r' e, dest_inv r' → dest_view r' = dest_view r →
    ¬ (dest_up r ∧ (length (drop (Z.to_nat offset) (dest_view r)) < budget)%nat ∧ len (dest_view r) ≤ dest_reach) →
    Q (Err e) (MkWorld D tx fs now r')) →
  wp (findPlaylistFrom provider hash name offset budget) Q (MkWorld D tx fs now r).
Proof.
  revert offset r. induction budget as [|budget IH]; intros offset r Hinv Hoff Hok Herr; cbn [findPlaylistFrom].
  { apply wp_raise, Herr; [done..|lia]. }
  apply wp_bind, wp_remote. eapply wp_mono; [by apply dest_list|].
  intros [page|e] r' (Hinv' & Hview & Hup & Hpage).
  2: { apply Herr; [done..|]. intros (Hu & _ & Hreach). apply Hup in Hu as [_ Hs]. apply Hs. lia. }
  destruct Hpage as (n & Hitems & Hnext). cbv zeta in Hitems, Hnext.
  set (rest := drop (Z.to_nat offset) (dest_view r)) in *.
  pose proof (find_page name _ _ Hitems) as Hfind.
  assert (List.find (λ d, bool_decide (dest_name d = name)) rest =
    match List.find (λ d, bool_decide (dest_name d = name)) (take n rest) with
    | Some x => Some x | None => List.find (λ d, bool_decide (dest_name d = name)) (drop n rest) end) as Hsplit
    by by rw -find_app take_drop.
  destruct (List.find _ (PlaylistPage_Items page)) as [p|].
  { apply wp_ret, Hok; [done|done|naive_solver|]. rw Hsplit.
    destruct (List.find _ (take n rest)); cbn in *; congruence. }
  destruct (List.find _ (take n rest)); [done|].
  destruct (PlaylistPage_NextOffset page) as [next|].
  - destruct Hnext as (-> & Hn). assert (Z.to_nat (offset + Z.of_nat n) = Z.to_nat offset + n)%nat as Hto by lia.
    assert (length rest = length (dest_view r) - Z.to_nat offset)%nat as Hrest by apply length_drop.
    apply IH; [done|rw Hview; lia|..].
    + intros r2 id Hinv2 Hview2 Hup2. rw Hto Hview -drop_drop -/rest => Hid.
      apply Hok; [done|congruence|naive_solver|by rw Hsplit].
    + intros r2 e Hinv2 Hview2. rw Hto Hview -drop_drop -/rest => Hno.
      apply Herr; [done|congruence|]. intros (Hu & Hb & Hreach). apply Hno. split; [naive_solver|].
      rw length_drop. lia.
  - apply wp_ret, Hok; [done|done|naive_solver|]. rw Hsplit drop_ge //.
Qed.

Lemma named_append name id xs ts r r' :
  dest_inv r → named name r = [MkDest id name ts] → dest_view r' = appendTo id xs <$> dest_view r →
  named name r' = [MkDest id name (ts ++ xs)] ∧ unnamed name r' = unnamed name r.
Proof.
  intros [Hnd _]%dest_ids Hnamed Hview. rw /named /unnamed Hview.
  assert (∀ d, dest_name (appendTo id xs d) = dest_name d) as Hname by (intros d; rw /appendTo; by case_bool_decide).
  assert (∀ (P : string → Prop) `{∀ x, Decision (P x)} (l : list DestPlaylist),
    filter (λ d, P (dest_name d)) (appendTo id xs <$> l) = appendTo id xs <$> filter (λ d, P (dest_name d)) l) as Hf.
  { intros P ? l. induction l as [|d l IH]; [done|]. rw fmap_cons !filter_cons Hname.
    by case_decide; rw ?fmap_cons IH. }
  split.
  - etrans; [exact (Hf (λ n, n = name) _ _)|]. rw /named in Hnamed. by rw Hnamed /appendTo /= bool_decide_true.
  - etrans; [exact (Hf (λ n, n ≠ name) _ _)|]. etrans; [apply (list_fmap_ext _ Datatypes.id)|apply list_fmap_id].
    intros n d [Hd Hin]%list_elem_of_lookup_2%list_elem_of_filter. rw /appendTo bool_decide_false //. intros Hid. apply Hd.
    assert (MkDest id name ts ∈ dest_view r) as Hin'.
    { assert (MkDest id name ts ∈ named name r) as H by (rw Hnamed; set_solver).
      by apply list_elem_of_filter in H as [_ ?]. }
    apply list_elem_of_lookup in Hin as [i Hi], Hin' as [j Hj].
    assert (i = j) as Hij; [|rw Hij Hj in Hi; by injection Hi as <-].
    eapply NoDup_lookup; [exact Hnd|by rw list_lookup_fmap Hi|by rw list_lookup_fmap Hj /= Hid].
Qed.

Lemma named_created name id r r' :
  named name r = [] →
  (∃ l1 l2, dest_view r = l1 ++ l2 ∧ dest_view r' = l1 ++ MkDest id name [] :: l2) →
  named name r' = [MkDest id name []] ∧ unnamed name r' = unnamed name r.
Proof.
  rw /named /unnamed. intros Hno (l1 & l2 & Hv & ->). rw Hv in Hno |- *.
  rw filter_app in Hno. apply app_nil in Hno as [H1 H2].
  rw !filter_app !filter_cons H1 H2. rw decide_True // decide_False; [naive_solver|done].
Qed.

(** The account with the first [k] tracks of the transfer in its playlist, and
    its other playlists [others]. *)
Definition reached (name : string) (ids : list string) (others : list DestPlaylist) (id : string) (k : nat) r : Prop :=
  dest_inv r ∧ named name r = [MkDest id name (take k ids)] ∧ (k ≤ length ids)%nat ∧ unnamed name r = others.

(** The transfer of [ids] meets no failure of the provider. *)
Definition ready (ids : list string) r : Prop := dest_up r ∧ len ids ≤ dest_size.
(** The account's playlists can be searched within [budget] pages. *)
Definition searchable (budget : nat) r : Prop := (length (dest_view r) < budget)%nat ∧ len (dest_view r) ≤ dest_reach.

Lemma ready_up ids r r' : (dest_up r → dest_up r') → ready ids r → ready ids r'.
Proof. intros Hup [? ?]. split; auto. Qed.

Lemma reached_elem name ids others id k r :
  reached name ids others id k r → MkDest id name (take k ids) ∈ dest_view r.
Proof.
  intros (_ & Hn & _). assert (MkDest id name (take k ids) ∈ named name r) as H by (rw Hn; set_solver).
  by apply list_elem_of_filter in H as [_ ?].
Qed.

Lemma reached_same name ids others id k r r' :
  reached name ids others id k r → dest_inv r' → dest_view r' = dest_view r → reached name ids others id k r'.
Proof. rw /reached /named /unnamed => H Hinv ->. naive_solver. Qed.

Lemma reached_append name ids others id k r r' track :
  reached name ids others id k r → dest_inv r' → ids !! k = Some track →
  dest_view r' = appendTo id [track] <$> dest_view r → reached name ids others id (S k) r'.
Proof.
  intros (Hinv & Hn & Hk & Ho) Hinv' Htrack Hview.
  destruct (named_append _ _ _ _ _ _ Hinv Hn Hview) as [Hn' Ho'].
  apply lookup_lt_Some in Htrack as Hlt. split_and!; [done| |lia|congruence].
  by rw Hn' (take_S_r _ _ _ Htrack).
Qed.

(** Position [next] is either in place already or the next one to add: it is
    in place afterwards, and it is never put there twice. *)
Lemma wp_ensureEntryState name ids others id k (next : nat) track D tx fs now r Q :
  reached name ids others id k r → (next ≤ k)%nat → ids !! next = Some track → dest_takes track →
  (∀ r' k', reached name ids others id k' r' → (next < k')%nat → (ready ids r → dest_up r') →
    Q (Ok tt) (MkWorld D tx fs now r')) →
  (∀ r' k' e, reached name ids others id k' r' → (next ≤ k')%nat → ¬ ready ids r →
    Q (Err e) (MkWorld D tx fs now r')) →
  wp (ensureEntryState provider hash id (Z.of_nat next) track) Q (MkWorld D tx fs now r).
Proof.
  intros Hr Hnext Htrack Htakes Hok Herr. pose proof Hr as (Hinv & _ & Hk & _).
  apply wp_bind, wp_remote. eapply wp_mono.
  { apply (dest_read r (MkDest id name (take k ids)) (Z.of_nat next)); [done|by eapply reached_elem|cbn; rw length_take; lia]. }
  intros [page|e] r' (Hinv' & Hview & Hup & Hpage).
  2: { eapply Herr; [by eapply reached_same|done|]. intros [[_ Hs]%Hup Hsize]. apply Hs. cbn. rw length_take. lia. }
  assert (ready ids r → dest_up r') as Hready by by intros [[? _]%Hup _].
  assert (reached name ids others id k r') as Hr' by by eapply reached_same.
  rw Nat2Z.id in Hpage. cbn [dest_tracks] in Hpage.
  destruct (decide (next < k)%nat) as [Hlt|Hge].
  - rw lookup_take_lt // Htrack in Hpage. destruct Hpage as (e & es & -> & He).
    apply dest_takes_id in Htakes as Hid. rw /entryTrackID in He. destruct (PlaylistEntry_Track e) as [t|]; [|by destruct Hid].
    rw bool_decide_true //. apply wp_ret. by eapply Hok.
  - assert (next = k) as -> by lia. rw lookup_take_ge // in Hpage. rw Hpage.
    apply wp_remote. eapply wp_mono.
    { apply (dest_add r' (MkDest id name (take k ids)) track); [done|by eapply reached_elem|done]. }
    intros [[]|e] r2 (Hinv2 & Hup2 & Hadded); cbn in Hadded.
    + eapply Hok; [by eapply reached_append|lia|]. by intros [? _]%Hready%Hup2.
    + assert (¬ ready ids r) as Hdown by by intros [_ ?]%Hready%Hup2.
      destruct Hadded as [Hsame|Hadded].
      * eapply Herr; [by eapply reached_same|done|done].
      * eapply (Herr _ (S k)); [by eapply reached_append|lia|done].
Qed.

(** From position [next] on the loop completes the playlist, or stops at an
    error with a prefix that contains every position it has passed. *)
Lemma wp_reconcile runID name ids others id todo k (next : nat) D tx fs now r Q :
  reached name ids others id k r → (next ≤ k)%nat → Track_ID <$> todo = drop next ids → Forall dest_takes ids →
  (∀ r', reached name ids others id (length ids) r' → (ready ids r → dest_up r') →
    Q (Ok (len ids)) (MkWorld D tx fs now r')) →
  (∀ r' k' e, reached name ids others id k' r' → (next ≤ k')%nat → ¬ ready ids r → Q (Err e) (MkWorld D tx fs now r')) →
  (∀ r' k' (next' : nat), reached name ids others id k' r' → (next ≤ next' ≤ k')%nat → ¬ ready ids r →
    wp (failRun runID "destination_reconciliation_unsupported" id (Z.of_nat next')) Q (MkWorld D tx fs now r')) →
  wp (reconcile provider hash runID id (Z.of_nat next) todo) Q (MkWorld D tx fs now r).
Proof.
  revert k next r. induction todo as [|t todo IH]; intros k next r Hr Hnext Htodo Htakes Hok Herr Hfail; cbn [reconcile].
  { pose proof Hr as (_ & _ & Hk & _).
    assert (length (drop next ids) = 0%nat) as Hlen by by rw -Htodo.
    rw length_drop in Hlen. assert (next = length ids) as -> by lia. assert (k = length ids) as -> by lia.
    apply wp_ret. apply Hok; [done|]. by intros [? _]. }
  assert (ids !! next = Some (Track_ID t)) as Ht.
  { rw -(Nat.add_0_r next) -lookup_drop -Htodo. done. }
  apply wp_bind, wp_try. eapply wp_ensureEntryState; [done..|by eapply Forall_lookup_1| |].
  - intros r' k' Hr' Hlt Hup'. assert (ready ids r → ready ids r') as Hup by (intros Hr0; split; [auto|apply Hr0]).
    assert (Z.of_nat next + 1 = Z.of_nat (S next)) as -> by lia.
    eapply IH; [exact Hr'|lia| |done|naive_solver|..].
    + rw -(Nat.add_1_r next) -drop_drop -Htodo. done.
    + intros r2 k2 e Hr2 Hle Hdown. eapply Herr; [exact Hr2|lia|naive_solver].
    + intros r2 k2 next2 Hr2 Hle Hdown. eapply Hfail; [exact Hr2|lia|naive_solver].
  - intros r' k' e Hr' Hle Hdown. destruct (errors_Is e ErrUnsupportedOperation).
    + eapply Hfail; [done|lia|done].
    + apply wp_raise. by eapply Herr.
Qed.

(** The account before or after the playlist was created. *)
Definition account (name : string) (ids : list string) (others : list DestPlaylist) r : Prop :=
  dest_inv r ∧ unnamed name r = others ∧ (named name r = [] ∨ ∃ id k, reached name ids others id k r).

Lemma account_same name ids others r r' :
  account name ids others r → dest_inv r' → dest_view r' = dest_view r → account name ids others r'.
Proof.
  intros (_ & Ho & Hn) Hinv' Hview. rw /account /named /unnamed Hview. split_and!; [done..|].
  destruct Hn as [Hn|(id & k & Hr)]; [by left|right]. exists id, k. by eapply reached_same.
Qed.

Lemma reached_account name ids others id k r : reached name ids others id k r → account name ids others r.
Proof. intros Hr. pose proof Hr as (? & _ & _ & ?). split_and!; eauto. Qed.

Lemma created_reached name ids others id r r' :
  dest_inv r' → named name r = [] → unnamed name r = others →
  (∃ l1 l2, dest_view r = l1 ++ l2 ∧ dest_view r' = l1 ++ MkDest id name [] :: l2) →
  reached name ids others id 0 r'.
Proof.
  intros Hinv Hno Ho Hc. destruct (named_created _ _ _ _ Hno Hc) as [Hn' Ho'].
  split_and!; [done|by rw Hn'|lia|congruence].
Qed.

Lemma find_named name r : List.find (λ d, bool_decide (dest_name d = name)) (dest_view r) = head (named name r).
Proof.
  rw /named. induction (dest_view r) as [|d l IH]; [done|]. cbn [List.find]. rw filter_cons.
  case_bool_decide; [by rw decide_True|by rw decide_False].
Qed.

(** A run without a recorded playlist finds the one of an earlier attempt
    instead of creating a second one. *)
Lemma wp_obtainPlaylist budget runID status preview ids others D tx fs now r Q :
  let name := destinationName preview (TransferRunStatus_PreviewID status) in
  account name ids others r →
  dest_accepts (MkCreatePlaylistInput name ("Created by transfer preview " +:+ TransferRunStatus_PreviewID status)) →
  (∀ r' id k, reached name ids others id k r' → (dest_up r → dest_up r') → Q (Ok id) (MkWorld D tx fs now r')) →
  (∀ r' e, account name ids others r' → ¬ (dest_up r ∧ searchable budget r) →
    Q (Err e) (MkWorld D tx fs now r')) →
  (∀ r', account name ids others r' → ¬ (dest_up r ∧ searchable budget r) →
    wp (failRun runID "destination_playlist_create_unsupported" "" (TransferRunStatus_NextPosition status)) Q
      (MkWorld D tx fs now r')) →
  wp (obtainPlaylist provider budget hash runID status preview) Q (MkWorld D tx fs now r).
Proof.
  intros name Hacc Haccepts Hok Herr Hfail. rw /obtainPlaylist -/name. cbv zeta.
  assert (∀ r' e (Hdown : ¬ (dest_up r ∧ searchable budget r)), account name ids others r' →
    wp (if errors_Is e ErrUnsupportedOperation
        then failRun runID "destination_playlist_create_unsupported" "" (TransferRunStatus_NextPosition status)
        else raise e) Q (MkWorld D tx fs now r')) as Hgiveup.
  { intros r' e Hdown Hacc'. destruct (errors_Is _ _); [by apply Hfail|]. apply wp_raise. by apply Herr. }
  pose proof Hacc as (Hinv & Ho & Hn).
  apply wp_bind, wp_try, wp_findPlaylistFrom; [done|lia|..]; change (Z.to_nat 0) with 0%nat; rw drop_0.
  2: { intros r' e Hinv' Hview Hdown. apply Hgiveup; [rw /searchable; naive_solver|]. by eapply account_same. }
  intros r' existing Hinv' Hview Hup ->. rw find_named.
  destruct Hn as [Hno|(id & k & Hr)].
  - rw Hno. cbn [head fmap option_fmap option_map default].
    assert (named name r' = []) as Hno' by by rw /named Hview.
    apply wp_bind, wp_try, wp_remote. eapply wp_mono; [by apply dest_create|].
    intros [p|e] r2 (Hinv2 & Hup2 & Hc); cbv zeta in Hc.
    + apply wp_ret. eapply Hok; [eapply created_reached; [done|exact Hno'| |exact Hc]|naive_solver].
      by rw /unnamed Hview.
    + apply Hgiveup; [naive_solver|]. destruct Hc as [Hsame|[id Hc]].
      * eapply account_same; [exact Hacc|done|congruence].
      * eapply reached_account, created_reached; [done|exact Hno'| |exact Hc]. by rw /unnamed Hview.
  - pose proof Hr as (_ & -> & _). cbn [head fmap option_fmap option_map default dest_id].
    assert (id ≠ "") as Hid.
    { apply dest_ids in Hinv as [_ Hne]. rw Forall_forall in Hne.
      apply (Hne (MkDest id name (take k ids))). by eapply reached_elem. }
    rw bool_decide_true //. apply wp_ret. eapply Hok; [by eapply reached_same|done].
Qed.
End destination_facts.

(** ** Proofs: the row of a run *)

Section run_row.
Context {R : Type} (runID : string) {preview : TransferPreview} {hash : string}.
Implicit Types (r : R) (D : DB) (fs : list fault) (status : TransferRunStatus).

Definition updated (state code playlistID : string) (next now : Z) D : DB :=
  set_runs (alter (setRunState state code playlistID next now) runID) D.

Lemma loadedRun_updated D status state code playlistID next now :
  loadedRun runID D = Ok (status, preview, hash) →
  loadedRun runID (updated state code playlistID next now D) =
  Ok (MkTransferRunStatus (TransferRunStatus_ID status) (TransferRunStatus_PreviewID status) state code playlistID
        next (TransferRunStatus_CreatedAt status) now, preview, hash).
Proof.
  rw /loadedRun /updated /=. rw lookup_alter_eq. destruct (transfer_runs D !! runID) as [run|]; [|done]. cbn.
  destruct (transfer_previews D !! run_preview_id run) as [row|]; [|done].
  destruct (unmarshalPlaylist _); [|done]. rw /selectPreviewEntries /=.
  destruct (mapResult _ _); [|done]. by intros [= <- <- <-].
Qed.

Lemma wp_updateRunState state code playlistID next D fs now r Q :
  (∀ fs', (fs = [] → fs' = []) →
    Q (Ok tt) (MkWorld D (Some (updated state code playlistID next now D, false)) fs' now r)) →
  (∀ fs' e, fs ≠ [] → Q (Err e) (MkWorld D (Some (D, true)) fs' now r)) →
  wp (updateRunState runID state code playlistID next) Q (MkWorld D (Some (D, false)) fs now r).
Proof.
  intros Hok Herr. apply wp_bind, wp_try, wp_tx_exec_healthy.
  - intros fs' d' Hfs [= <-]. by apply wp_ret, Hok.
  - intros fs' e [Hfs|[=]]. by apply wp_raise, Herr.
Qed.

Lemma wp_failRun {A} code playlistID next D fs now r (Q : result A → world R → Prop) :
  (∀ fs' D', D' = D ∨ D' = updated "failed" code playlistID next now D →
    Q (Err ErrUnsupportedOperation) (MkWorld D' None fs' now r)) →
  wp (failRun runID code playlistID next) Q (MkWorld D (Some (D, false)) fs now r).
Proof.
  intros HQ. apply wp_bind, wp_ignore, wp_updateRunState.
  - intros fs1 _. apply wp_bind, wp_ignore, wp_commit; [intros; apply wp_raise, HQ; by right|].
    intros fs2 D' t [->|[_ ->]]; apply wp_raise, HQ; auto.
  - intros fs1 e _. apply wp_bind, wp_ignore, wp_commit; [done|].
    intros fs2 D' t [->|[[=] _]]. apply wp_raise, HQ. by left.
Qed.

Lemma wp_loadRunForUpdate D fs now r status Q :
  loadedRun runID D = Ok (status, preview, hash) →
  (∀ fs', (fs = [] → fs' = []) → Q (Ok (status, preview, hash)) (MkWorld D (Some (D, false)) fs' now r)) →
  (∀ fs' e, fs ≠ [] → Q (Err e) (MkWorld D (Some (D, true)) fs' now r)) →
  wp (loadRunForUpdate runID) Q (MkWorld D (Some (D, false)) fs now r).
Proof.
  intros Hload Hok Herr. apply wp_bind, wp_tx_query_healthy; [|auto]. intros fs1 Hfs1.
  rw /loadedRun in Hload. rw /selectRunForUpdate.
  destruct (transfer_runs D !! runID) as [run|]; [|done]. cbn [mbind option_bind].
  destruct (transfer_previews D !! run_preview_id run) as [row|]; [|done]. cbn [mbind option_bind].
  apply wp_bind. rw /wp /lift. destruct (unmarshalPlaylist _) as [source|]; [|done]. cbn [fst snd].
  apply wp_bind, wp_bind, wp_tx_query_healthy; [|naive_solver]. intros fs2 Hfs2.
  change (selectPreviewEntries (run_preview_id run) now D) with (selectPreviewEntries (run_preview_id run) 0 D).
  rw /wp /lift. destruct (mapResult _ _) as [entries|]; [|done]. cbn [fst snd].
  injection Hload as <- <- <-. apply wp_ret, Hok. auto.
Qed.
End run_row.

(** ** Proofs: one attempt *)

Section attempt.
Context {R : Type} (s : Service R) {provider : Provider R} {hash : string} {dest : Destination provider hash}.
Context (runID previewID : string) (preview : TransferPreview) (others : list DestPlaylist).
Implicit Types (r : R) (D : DB) (fs : list fault) (status : TransferRunStatus).

Definition transferName : string := destinationName preview previewID.
Definition transferInput : CreatePlaylistInput :=
  MkCreatePlaylistInput transferName ("Created by transfer preview " +:+ previewID).
Definition transferIDs : list string := Track_ID <$> matchedTracks (TransferPreview_Entries preview).

Abbreviation account' := (account transferName transferIDs others).
Abbreviation reached' := (reached transferName transferIDs others).
Abbreviation progress' := (progress transferName transferIDs).

(** The run row and the account agree. *)
Definition run_ok D r : Prop :=
  ∃ status, loadedRun runID D = Ok (status, preview, hash) ∧ TransferRunStatus_PreviewID status = previewID ∧
    account' r ∧ progress' status r.

Definition run_completed D r : Prop :=
  ∃ status id, loadedRun runID D = Ok (status, preview, hash) ∧ TransferRunStatus_State status = "completed" ∧
    TransferRunStatus_DestinationPlaylistID status = id ∧
    TransferRunStatus_NextPosition status = len transferIDs ∧
    named transferName r = [MkDest id transferName transferIDs].

Lemma progress_recorded status r id k :
  reached' id k r → TransferRunStatus_State status ≠ "completed" →
  TransferRunStatus_DestinationPlaylistID status = "" ∧ TransferRunStatus_NextPosition status = 0 ∨
    TransferRunStatus_DestinationPlaylistID status = id ∧ 0 ≤ TransferRunStatus_NextPosition status ≤ Z.of_nat k →
  progress' status r.
Proof. intros (_ & Hn & Hk & _) Hs Hp. by eapply progress_some. Qed.

Lemma progress_unrecorded status r :
  account' r → TransferRunStatus_State status ≠ "completed" →
  TransferRunStatus_DestinationPlaylistID status = "" → TransferRunStatus_NextPosition status = 0 →
  progress' status r.
Proof.
  intros (_ & _ & [Hno|(id & k & Hr)]) Hs Hd Hnext; [by apply progress_none|].
  eapply progress_recorded; eauto.
Qed.

Lemma progress_inv status r :
  account' r → TransferRunStatus_State status ≠ "completed" → progress' status r →
  (TransferRunStatus_DestinationPlaylistID status = "" ∧ TransferRunStatus_NextPosition status = 0) ∨
  (TransferRunStatus_DestinationPlaylistID status ≠ "" ∧ ∃ k,
     reached' (TransferRunStatus_DestinationPlaylistID status) k r ∧
     0 ≤ TransferRunStatus_NextPosition status ≤ Z.of_nat k).
Proof.
  intros Hacc Hs [_ Hd Hn _|id k Hn Hk [Hd|[Hd Hnext]] _]; [by left|by left|right].
  pose proof Hacc as (Hinv & Ho & _). subst id.
  assert (reached' (TransferRunStatus_DestinationPlaylistID status) k r) as Hr by by split_and!.
  split; [|by exists k]. apply dest_ids in Hinv as [_ Hne]. rw Forall_forall in Hne.
  apply (Hne _ (reached_elem _ _ _ _ _ _ Hr)).
Qed.

Lemma progress_completed status r :
  progress' status r → TransferRunStatus_State status = "completed" →
  TransferRunStatus_NextPosition status = len transferIDs ∧
  named transferName r = [MkDest (TransferRunStatus_DestinationPlaylistID status) transferName transferIDs].
Proof.
  intros [_ _ _ Hs|id k Hn Hk _ Hc] Hstate; [done|].
  destruct (Hc Hstate) as (-> & -> & ->). split; [done|]. by rw Hn firstn_all.
Qed.

Context (Hprovider : providers s !! TransferPreview_DestinationProvider preview = Some provider).
Context (Haccepts : dest_accepts transferInput) (Htakes : Forall dest_takes transferIDs).

(** What an attempt leaves: the run and the account agree, whether the commit
    was lost or not, and a success is a completed transfer. *)
Definition attempt_post (healthy : Prop) (res : result unit) (w : world R) : Prop :=
  w_tx w = None ∧ run_ok (w_db w) (w_remote w) ∧
  (res = Ok tt → run_completed (w_db w) (w_remote w)) ∧ (healthy → res = Ok tt).

Lemma failed_run_ok D r status code playlistID next now id k :
  loadedRun runID D = Ok (status, preview, hash) → TransferRunStatus_PreviewID status = previewID →
  reached' id k r → (playlistID = "" ∧ next = 0 ∨ playlistID = id ∧ 0 ≤ next ≤ Z.of_nat k) →
  run_ok (updated runID "failed" code playlistID next now D) r.
Proof.
  intros Hload Hpid Hr Hp. eexists. split_and!; [by apply loadedRun_updated|done|by eapply reached_account|].
  by eapply progress_recorded.
Qed.

(** Finishing a run whose playlist is known. *)
Lemma wp_finish healthy D fs now r status id k (next : nat) todo :
  loadedRun runID D = Ok (status, preview, hash) → TransferRunStatus_PreviewID status = previewID →
  reached' id k r → (next ≤ k)%nat → Track_ID <$> todo = drop next transferIDs →
  (∀ k' r', reached' id k' r' → (next ≤ k')%nat → progress' status r') →
  (healthy → fs = [] ∧ ready transferIDs r) →
  wp (next ← reconcile provider hash runID id (Z.of_nat next) todo;
      updateRunState runID "completed" "" id next ;; commit)
    (λ res w, attempt_post healthy res (set_tx None w)) (MkWorld D (Some (D, false)) fs now r).
Proof.
  intros Hload Hpid Hr Hnext Htodo Hprog Hhealthy.
  assert (healthy → fs = []) as Hfaults by by intros [? _]%Hhealthy.
  assert (¬ ready transferIDs r → ¬ healthy) as Hfail by by intros Hr0 [_ ?]%Hhealthy.
  apply wp_bind. eapply wp_reconcile; [done..| | |].
  - intros r' Hr' Hup. apply wp_bind.
    assert (run_ok D r') as Hok.
    { exists status. split_and!; [done|done|by eapply reached_account|]. eapply Hprog; [done|].
      destruct Hr as (_ & _ & ? & _). lia. }
    pose proof (loadedRun_updated runID D status "completed" "" id (len transferIDs) now Hload) as Hload'.
    assert (run_completed (updated runID "completed" "" id (len transferIDs) now D) r') as Hdone.
    { eexists _, id. split_and!; [exact Hload'|done..|]. destruct Hr' as (_ & -> & _). by rw firstn_all. }
    assert (run_ok (updated runID "completed" "" id (len transferIDs) now D) r') as Hok'.
    { eexists. split_and!; [exact Hload'|done|by eapply reached_account|].
      destruct Hr' as (_ & Hn & Hk & _). eapply progress_some; [exact Hn|done|right; split; [done|cbn; lia]|done]. }
    apply wp_updateRunState.
    + intros fs1 Hfs1. apply wp_commit_healthy; [done|].
      intros fs2 D' t Hfs2 [->| ->]; split_and!; try done; naive_solver.
    + intros fs1 e Hfs1. split_and!; try done; naive_solver.
  - intros r' k' e Hr' Hle Hdown. split_and!; [done| |done|by intros ?%Hfail].
    exists status. split_and!; [done|done|by eapply reached_account|by eapply Hprog].
  - intros r' k' next' Hr' Hle Hdown. apply wp_failRun. intros fs' D' HD'. split_and!; [done| |done|by intros ?%Hfail].
    destruct HD' as [->| ->].
    + exists status. split_and!; [done|done|by eapply reached_account|]. eapply Hprog; [done|lia].
    + eapply failed_run_ok; [done..|]. right. split; [done|lia].
Qed.

Lemma attempt_unchanged D r (healthy : Prop) fs fs' now e :
  run_ok D r → (healthy → fs = []) → fs ≠ [] →
  attempt_post healthy (Err e) (MkWorld D None fs' now r).
Proof. intros Hok Hh Hfs. split_and!; [done|done|done|naive_solver]. Qed.

Lemma reconcile_nonneg (next n : Z) : 0 ≤ next → (next <? 0) && (next <? n) = false.
Proof. intros Hn. by assert ((next <? 0) = false) as -> by lia. Qed.

Lemma wp_runOnce budget D fs now r :
  run_ok D r →
  wp (runOnce s budget runID)
    (attempt_post (fs = [] ∧ ready transferIDs r ∧ searchable budget r)) (MkWorld D None fs now r).
Proof.
  intros Hok. pose proof Hok as (status & Hload & Hpid & Hacc & Hprog).
  set (healthy := fs = [] ∧ _). assert (healthy → fs = []) as Hh by by intros [? _].
  assert (¬ (dest_up r ∧ searchable budget r) → ¬ healthy) as Hdown' by by intros Hn (_ & [? _] & ?); destruct Hn.
  apply wp_with_tx_healthy; [|intros; by eapply attempt_unchanged]. intros fs1 Hfs1.
  apply wp_bind. eapply wp_loadRunForUpdate; [exact Hload|..].
  2: { intros fs2 e Hfs2. eapply attempt_unchanged; [done| |exact Hfs2]. auto. }
  intros fs2 Hfs2. case_bool_decide as Hstate.
  { assert (run_completed D r) as Hdone.
    { destruct (progress_completed _ _ Hprog Hstate) as [Hnext Hnamed]. by exists status, (TransferRunStatus_DestinationPlaylistID status). }
    apply wp_commit_healthy; [done|].
    intros fs3 D' t Hfs3 HD'. assert (D' = D) as -> by naive_solver. eapply attempt_unchanged; [done| |exact Hfs3]. auto. }
  rw Hprovider. apply wp_bind.
  destruct (progress_inv _ _ Hacc Hstate Hprog) as [[Hdest Hnext]|(Hdest & k & Hr & Hnext)].
  - rw bool_decide_true // Hnext. eapply wp_obtainPlaylist; cbv zeta; rw ?Hpid; [exact Hacc|exact Haccepts|..].
    + intros r' id k Hr' Hup. cbv zeta.
      rw reconcile_nonneg //.
      eapply (wp_finish healthy _ _ _ _ _ _ _ 0); [done|done|exact Hr'|lia|done|..].
      * intros k' r2 Hr2 _. eapply progress_recorded; [done|done|]. by left.
      * intros (Hf & Hr2 & _). split; [auto|]. by eapply ready_up.
    + intros r' e Hacc' Hdown. split_and!; [done| |done|by intros ?%Hdown'].
      exists status. split_and!; [done|done|done|by apply progress_unrecorded].
    + intros r' Hacc' Hdown. apply wp_failRun. intros fs' D' HD'. split_and!; [done| |done|by intros ?%Hdown'].
      destruct HD' as [->| ->]; [by exists status; split_and!; [..|apply progress_unrecorded]|].
      eexists. split_and!; [by apply loadedRun_updated|done|done|by apply progress_unrecorded].
  - rw bool_decide_false //. apply wp_ret. cbv zeta. rw reconcile_nonneg; [lia|].
    set (next := Z.to_nat (TransferRunStatus_NextPosition status)).
    assert (TransferRunStatus_NextPosition status = Z.of_nat next) as Hn by lia. rw Hn.
    eapply wp_finish; [done|done|exact Hr|lia| |..|by intros (Hf & ? & _); split; [auto|]].
    + by rw /transferIDs -fmap_drop.
    + intros k' r' Hr' Hle. eapply progress_recorded; [done|done|]. right. split; [done|lia].
Qed.
End attempt.

(** ** A destination kept in memory *)

(** The account of the worker's tests: a list of playlists, with a schedule of
    failures and IDs that grow with every playlist. *)
Record memory : Type := MkMemory {
  mem_playlists : list DestPlaylist;
  mem_created : nat;
  mem_faults : list fault;
}.

Definition mem_next_fault (m : memory) : fault * memory :=
  match mem_faults m with
  | [] => (Healthy, m)
  | f :: fs => (f, MkMemory (mem_playlists m) (mem_created m) fs)
  end.

Definition mem_read {A} (f : list DestPlaylist → result A) : M memory error A := λ m,
  match mem_next_fault m with
  | (Healthy, m) => (f (mem_playlists m), m)
  | (Fails t, m) | (LosesReply t, m) => (Err (ErrorString t), m)
  end.

Definition mem_write {A} (f : nat → list DestPlaylist → A * list DestPlaylist) : M memory error A := λ m,
  match mem_next_fault m with
  | (Fails t, m) => (Err (ErrorString t), m)
  | (ft, m) =>
      let '(a, ps) := f (mem_created m) (mem_playlists m) in
      (match ft with LosesReply t => Err (ErrorString t) | _ => Ok a end,
       MkMemory ps (S (mem_created m)) (mem_faults m))
  end.

Definition mem_id (n : nat) : string := Nat.iter (S n) (String.append "p") "".
Definition mem_playlist (d : DestPlaylist) : Playlist :=
  MkPlaylist ProviderAppleMusic (dest_id d) (dest_name d) "" "".
Definition mem_entry (position : Z) (id : string) : PlaylistEntry :=
  MkPlaylistEntry position (Some (MkTrack ProviderAppleMusic id "" None "" 0 "" ∅ "")) None false false 0.

Definition memoryProvider : Provider memory := MkProvider memory ProviderAppleMusic
  (λ _ offset limit, mem_read (λ ps,
     let items := take (Z.to_nat limit) (drop (Z.to_nat offset) ps) in
     let next := offset + len items in
     Ok (MkPlaylistPage (mem_playlist <$> items) (len ps) offset
           (if next <? len ps then Some next else None))))
  (λ _ id offset limit, mem_read (λ ps,
     match List.find (λ d, bool_decide (dest_id d = id)) ps with
     | None => Err (ErrorString "not found")
     | Some d =>
         let items := take (Z.to_nat limit) (drop (Z.to_nat offset) (dest_tracks d)) in
         Ok (MkEntryPage (mem_entry offset <$> items) (len (dest_tracks d)) offset None)
     end))
  (λ _ _ _, mem_read (λ _, Ok []))
  (λ _ input, mem_write (λ n ps,
     let d := MkDest (mem_id n) (CreatePlaylistInput_Name input) [] in (mem_playlist d, d :: ps)))
  (λ _ id ids, mem_write (λ _ ps, (tt, appendTo id ids <$> ps))).

Definition mem_ok (m : memory) : Prop :=
  NoDup (dest_id <$> mem_playlists m) ∧
  Forall (λ d, (0 < String.length (dest_id d) ≤ mem_created m)%nat) (mem_playlists m).

Lemma mem_id_length n : String.length (mem_id n) = S n.
Proof.
  rw /mem_id. assert (∀ k, String.length (Nat.iter k (String.append "p") "") = k) as H; [|apply H].
  induction k as [|k IH]; [done|]. by apply (f_equal S) in IH.
Qed.

Lemma appendTo_id id ids d : dest_id (appendTo id ids d) = dest_id d.
Proof. rw /appendTo. by case_bool_decide. Qed.

Lemma mem_ok_grow ps n n' fs fs' : mem_ok (MkMemory ps n fs) → (n ≤ n')%nat → mem_ok (MkMemory ps n' fs').
Proof.
  intros [Hnd Hl] Hn. split; [done|]. eapply Forall_impl; [exact Hl|]. cbn. lia.
Qed.

Lemma mem_ok_create ps n fs name : mem_ok (MkMemory ps n fs) → mem_ok (MkMemory (MkDest (mem_id n) name [] :: ps) (S n) fs).
Proof.
  intros [Hnd Hl]. cbn in *. split; cbn.
  - constructor; [|done]. intros (d & Hd & Hin)%list_elem_of_fmap.
    pose proof (proj1 (Forall_forall _ _) Hl d Hin) as H. cbn in H. rw -Hd mem_id_length in H. lia.
  - constructor; [cbn; rw mem_id_length; lia|]. eapply Forall_impl; [exact Hl|]. cbn. lia.
Qed.

Lemma mem_ok_append ps n fs id ids : mem_ok (MkMemory ps n fs) → mem_ok (MkMemory (appendTo id ids <$> ps) (S n) fs).
Proof.
  intros [Hnd Hl]. cbn in *. split; cbn.
  - rw -list_fmap_compose. erewrite list_fmap_ext; [exact Hnd|]. intros ???. apply appendTo_id.
  - rw Forall_fmap. eapply Forall_impl; [exact Hl|]. cbn. intros d. rw appendTo_id. lia.
Qed.

Lemma wp_mem_read {A} (f : list DestPlaylist → result A) ps n fs Q :
  (∀ fs', (fs = [] → fs' = []) → Q (f ps) (MkMemory ps n fs')) →
  (∀ fs' t, fs ≠ [] → Q (Err (ErrorString t)) (MkMemory ps n fs')) →
  wp (mem_read f) Q (MkMemory ps n fs).
Proof.
  intros Hok Herr. rw /wp /mem_read /mem_next_fault /=.
  destruct fs as [|[] fs]; cbn; first [by apply Hok|by apply Herr].
Qed.

Lemma wp_mem_write {A} (f : nat → list DestPlaylist → A * list DestPlaylist) ps n fs Q :
  (∀ fs', (fs = [] → fs' = []) → Q (Ok (f n ps).1) (MkMemory (f n ps).2 (S n) fs')) →
  (∀ fs' t, fs ≠ [] → Q (Err (ErrorString t)) (MkMemory ps n fs')) →
  (∀ fs' t, fs ≠ [] → Q (Err (ErrorString t)) (MkMemory (f n ps).2 (S n) fs')) →
  wp (mem_write f) Q (MkMemory ps n fs).
Proof.
  intros Hok Herr Hlost. rw /wp /mem_write /mem_next_fault /=.
  destruct (f n ps) as [a ps'] eqn:E. cbn in *.
  destruct fs as [|[] fs]; cbn; rw ?E; cbn; first [by apply Hok|by apply Herr|by apply Hlost].
Qed.

#[export] Program Instance memory_destination (hash : string) : Destination memoryProvider hash := {|
  dest_view := mem_playlists;
  dest_inv := mem_ok;
  dest_up m := mem_faults m = [];
  dest_accepts _ := True;
  dest_takes id := id ≠ "";
  dest_reach := 100000;
  dest_size := 10000;
|}.
Next Obligation.
  intros hash [ps n fs] [Hnd Hl]. cbn in *. split; [done|]. eapply Forall_impl; [exact Hl|].
  intros d Hd Hid. rw Hid in Hd. cbn in Hd. lia.
Qed.
Next Obligation. done. Qed.
Next Obligation.
  intros hash [ps n fs] offset Hok Hoff. cbn in Hoff. apply wp_mem_read.
  - intros fs' Hfs. cbn. split_and!; [done|done|naive_solver|].
    exists (Nat.min 50 (length (drop (Z.to_nat offset) ps))). split.
    + rw -list_fmap_compose /=. f_equal. rw -{1}(firstn_all (drop _ ps)) take_take. reflexivity.
    + rw length_take length_drop. change (Z.to_nat 50) with 50%nat.
      destruct (Z.ltb_spec (offset + Z.of_nat (50 `min` (length ps - Z.to_nat offset))) (len ps)); cbn -[Nat.min]; [split; [done|lia]|lia].
  - intros fs' t Hfs. cbn. naive_solver.
Qed.
Next Obligation.
  intros hash [ps n fs] d position Hok Hd Hpos. apply wp_mem_read.
  - intros fs' Hfs. cbn in *. destruct Hok as [Hnd Hl].
    assert (List.find (λ d', bool_decide (dest_id d' = dest_id d)) ps = Some d) as ->.
    { clear Hl Hfs. cbn in Hnd. induction ps as [|x ps IH]; [by apply not_elem_of_nil in Hd|].
      rw fmap_cons NoDup_cons in Hnd. destruct Hnd as [Hx Hnd]. cbn.
      apply elem_of_cons in Hd as [->|Hd]; [by rw bool_decide_true|].
      rw bool_decide_false; [|by apply IH]. intros He. apply Hx. rw He. by apply list_elem_of_fmap_2. }
    split_and!; [done|done|naive_solver|].
    destruct (dest_tracks d !! Z.to_nat position) as [id|] eqn:E; cbn.
    + rw (drop_S _ _ _ E) /=. by eexists _, _.
    + by rw drop_ge; [apply lookup_ge_None|].
  - intros fs' t Hfs. cbn. naive_solver.
Qed.
Next Obligation.
  intros hash [ps n fs] input Hok _. apply wp_mem_write; cbn.
  - intros fs' Hfs. split_and!; [by eapply mem_ok_create|naive_solver|]. by exists [], ps.
  - intros fs' t Hfs. split_and!; [by eapply mem_ok_grow|naive_solver|]. by left.
  - intros fs' t Hfs. split_and!; [by eapply mem_ok_create|naive_solver|]. right. by exists (mem_id n), [], ps.
Qed.
Next Obligation.
  intros hash [ps n fs] d track Hok Hd Ht. apply wp_mem_write; cbn.
  - intros fs' Hfs. split_and!; [by eapply mem_ok_append|naive_solver|done].
  - intros fs' t Hfs. split_and!; [by eapply mem_ok_grow|naive_solver|by left].
  - intros fs' t Hfs. split_and!; [by eapply mem_ok_append|naive_solver|by right].
Qed.

(** ** Any number of attempts *)

(** One attempt of the job: River runs it with a budget, the database and the
    provider fail as they like, and time has passed. *)
Inductive attempt {R} (s : Service R) (runID : string) : world R → world R → Prop :=
| attempt_intro D r fs0 fs now0 now budget :
    attempt s runID (MkWorld D None fs0 now0 r) (Work s budget runID (MkWorld D None fs now r)).2.

Lemma Work_post {R} (s : Service R) {provider : Provider R} {hash} {dest : Destination provider hash}
    runID previewID preview others budget D fs now r :
  providers s !! TransferPreview_DestinationProvider preview = Some provider →
  dest_accepts (transferInput previewID preview) → Forall dest_takes (transferIDs preview) →
  run_ok runID previewID preview others D r →
  let '(res, w') := Work s budget runID (MkWorld D None fs now r) in
  w_tx w' = None ∧ run_ok runID previewID preview others (w_db w') (w_remote w') ∧
  (res = WorkDone → run_completed runID previewID preview (w_db w') (w_remote w')) ∧
  (fs = [] ∧ ready (transferIDs preview) r ∧ searchable budget r → res = WorkDone).
Proof.
  intros Hp Ha Ht Hok. pose proof (wp_runOnce s runID previewID preview others Hp Ha Ht budget D fs now r Hok) as H.
  rw /wp in H. rw /Work. destruct (runOnce _ _ _ _) as [[[]|e] w']; cbn in H; destruct H as (Htx & Hok' & Hd & Hh).
  - split_and!; [done|done|auto|auto].
  - split_and!; [done|done| |naive_solver]. intros He. exfalso. revert He. rw /workError.
    destruct (errors_As_RateLimit e); [done|]. by repeat case_match.
Qed.

Lemma attempts_run_ok {R} (s : Service R) {provider : Provider R} {hash} {dest : Destination provider hash}
    runID previewID preview others (w w' : world R) :
  providers s !! TransferPreview_DestinationProvider preview = Some provider →
  dest_accepts (transferInput previewID preview) → Forall dest_takes (transferIDs preview) →
  rtc (attempt s runID) w w' →
  w_tx w = None → run_ok runID previewID preview others (w_db w) (w_remote w) →
  w_tx w' = None ∧ run_ok runID previewID preview others (w_db w') (w_remote w').
Proof.
  intros Hp Ha Ht. induction 1 as [w|w w1 w' Hstep _ IH]; [done|]. intros Htx Hok. apply IH.
  all: destruct Hstep as [D r fs0 fs now0 now budget]; cbn in Hok;
    pose proof (Work_post s runID previewID preview others budget D fs now r Hp Ha Ht Hok) as H;
    destruct (Work _ _ _ _) as [res w1]; by destruct H as (? & ? & _).
Qed.

(** A run that no attempt has worked on yet. *)
Definition run_fresh {R} {provider : Provider R} {hash} {dest : Destination provider hash}
    (runID : string) (status : TransferRunStatus) (preview : TransferPreview) (D : DB) (r : R) : Prop :=
  loadedRun runID D = Ok (status, preview, hash) ∧
  TransferRunStatus_State status = "queued" ∧ TransferRunStatus_DestinationPlaylistID status = "" ∧
  TransferRunStatus_NextPosition status = 0 ∧
  dest_inv r ∧ named (transferName (TransferRunStatus_PreviewID status) preview) r = [].

Lemma run_fresh_ok {R} {provider : Provider R} {hash} {dest : Destination provider hash} runID status preview D (r : R) :
  run_fresh runID status preview D r →
  run_ok runID (TransferRunStatus_PreviewID status) preview
    (unnamed (transferName (TransferRunStatus_PreviewID status) preview) r) D r.
Proof.
  intros (Hload & Hs & Hd & Hn & Hinv & Hno). exists status. split_and!; [done|done|by split_and!; auto|].
  apply progress_none; [done..|by rw Hs].
Qed.

(** ** Properties *)

(** C1: a transfer is carried over exactly once.  Start from a run that no
    attempt has worked on and an account without a playlist of the transfer's
    name, and let the job be attempted any number of times, while any database
    call and any provider call may fail, before or after it took effect.  Then
    the other playlists of the account are untouched, there is at most one
    playlist of that name, and it holds a prefix of the matched tracks, in
    order and without repetition; as soon as some attempt has reported success
    it holds all of them, and the run's row says so. *)
Theorem Work_exactly_once {R} (s : Service R) {provider : Provider R} {hash} {dest : Destination provider hash}
    runID status preview (w w1 : world R) :
  providers s !! TransferPreview_DestinationProvider preview = Some provider →
  let name := transferName (TransferRunStatus_PreviewID status) preview in
  let ids := transferIDs preview in
  dest_accepts (transferInput (TransferRunStatus_PreviewID status) preview) → Forall dest_takes ids →
  w_tx w = None → run_fresh runID status preview (w_db w) (w_remote w) →
  rtc (attempt s runID) w w1 →
  unnamed name (w_remote w1) = unnamed name (w_remote w) ∧
  (named name (w_remote w1) = [] ∨
   ∃ id k, (k ≤ length ids)%nat ∧ named name (w_remote w1) = [MkDest id name (take k ids)]) ∧
  (∀ budget fs now w2, Work s budget runID (MkWorld (w_db w1) None fs now (w_remote w1)) = (WorkDone, w2) →
    run_completed runID (TransferRunStatus_PreviewID status) preview (w_db w2) (w_remote w2)).
Proof.
  intros Hp name ids Ha Ht Htx Hfresh%run_fresh_ok Hrtc.
  destruct (attempts_run_ok s runID _ preview _ w w1 Hp Ha Ht Hrtc Htx Hfresh) as [_ Hok].
  split_and!.
  - by destruct Hok as (status' & _ & _ & (_ & Ho & _) & _).
  - destruct Hok as (status' & _ & _ & (_ & _ & [Hn|(id & k & Hr)]) & _); [by left|right].
    exists id, k. by destruct Hr as (_ & ? & ? & _).
  - intros budget fs now w2 Hwork.
    pose proof (Work_post s runID _ preview _ budget _ fs now _ Hp Ha Ht Hok) as H. rw Hwork in H.
    destruct H as (_ & _ & Hd & _). by apply Hd.
Qed.

(** C2: the transfer is not only safe, it finishes: after any number of failed
    attempts, one attempt in which the database and the provider work and the
    budget covers the account's playlists reports success. *)
Theorem Work_completes {R} (s : Service R) {provider : Provider R} {hash} {dest : Destination provider hash}
    runID status preview (w w1 : world R) budget now :
  providers s !! TransferPreview_DestinationProvider preview = Some provider →
  dest_accepts (transferInput (TransferRunStatus_PreviewID status) preview) → Forall dest_takes (transferIDs preview) →
  w_tx w = None → run_fresh runID status preview (w_db w) (w_remote w) →
  rtc (attempt s runID) w w1 →
  ready (transferIDs preview) (w_remote w1) → searchable budget (w_remote w1) →
  (Work s budget runID (MkWorld (w_db w1) None [] now (w_remote w1))).1 = WorkDone.
Proof.
  intros Hp Ha Ht Htx Hfresh%run_fresh_ok Hrtc Hup Hbudget.
  destruct (attempts_run_ok s runID _ preview _ w w1 Hp Ha Ht Hrtc Htx Hfresh) as [_ Hok].
  pose proof (Work_post s runID _ preview _ budget _ [] now _ Hp Ha Ht Hok) as H.
  destruct (Work _ _ _ _). by apply H.
Qed.

(** C32: what the queue does with an error: it snoozes, for a positive time that
    is the provider's or 30 seconds, exactly on a rate limit; it gives up for
    good exactly on an unsupported operation or a missing run; it retries
    everything else. *)
Theorem workError_cases err :
  (∀ d, workError err = WorkSnooze d ↔
     ∃ retryAfter, errors_As_RateLimit err = Some retryAfter ∧
       d = (if retryAfter <=? 0 then 30 * Second else retryAfter) ∧ 0 < d) ∧
  (∀ e, workError err = WorkCancel e ↔
     e = err ∧ errors_As_RateLimit err = None ∧
     (errors_Is err ErrUnsupportedOperation = true ∨ errors_Is err ErrRunNotFound = true)) ∧
  workError err ≠ WorkDone ∧
  (workError err = WorkRetry err ↔
     errors_As_RateLimit err = None ∧ errors_Is err ErrUnsupportedOperation = false ∧ errors_Is err ErrRunNotFound = false).
Proof.
  assert (∀ z, 0 < (if z <=? 0 then 30 * Second else z)) as Hpos.
  { intros z. destruct (Z.leb_spec z 0); [by rw /Second|lia]. }
  rw /workError. destruct (errors_As_RateLimit err) as [z|].
  - split_and!; [intros d|intros e|done|]; split; naive_solver.
  - destruct (errors_Is err ErrUnsupportedOperation), (errors_Is err ErrRunNotFound); naive_solver.
Qed.

(** Without a registered destination the account is never touched and the
    job is cancelled for good; when the database works, the run's row says
    failed, with the code destination_provider_unavailable. *)
Theorem Work_provider_unavailable {R} (s : Service R) budget runID status preview hash D now (r : R) fs :
  loadedRun runID D = Ok (status, preview, hash) →
  TransferRunStatus_State status ≠ "completed" →
  providers s !! TransferPreview_DestinationProvider preview = None →
  let '(res, w') := Work s budget runID (MkWorld D None fs now r) in
  w_remote w' = r ∧ res ≠ WorkDone ∧
  (fs = [] → res = WorkCancel ErrUnsupportedOperation ∧
     loadedRun runID (w_db w') = Ok (MkTransferRunStatus (TransferRunStatus_ID status) (TransferRunStatus_PreviewID status)
       "failed" "destination_provider_unavailable" (TransferRunStatus_DestinationPlaylistID status)
       (TransferRunStatus_NextPosition status) (TransferRunStatus_CreatedAt status) now, preview, hash)).
Proof.
  intros Hload Hstate Hp.
  set (Q := λ (res : result unit) w', w_remote w' = r ∧ res ≠ Ok tt ∧ (fs = [] → res = Err ErrUnsupportedOperation ∧
    w_db w' = updated runID "failed" "destination_provider_unavailable" (TransferRunStatus_DestinationPlaylistID status)
       (TransferRunStatus_NextPosition status) now D)).
  assert (wp (runOnce s budget runID) Q (MkWorld D None fs now r)) as H.
  { apply wp_with_tx_healthy; [|by intros]. intros fs1 Hfs1. apply wp_bind.
    eapply wp_loadRunForUpdate; [exact Hload| |intros fs2 e Hfs2; split_and!; [done|done|naive_solver]].
    intros fs2 Hfs2. rw bool_decide_false // Hp.
    apply wp_bind, wp_ignore, wp_updateRunState.
    - intros fs3 Hfs3. apply wp_bind, wp_ignore, wp_commit_healthy.
      + intros fs4 _. by apply wp_raise.
      + intros fs4 D' t Hfs4 _. apply wp_raise. split_and!; [done|done|naive_solver].
    - intros fs3 e Hfs3. apply wp_bind, wp_ignore, wp_commit; [done|].
      intros fs4 D' t _. apply wp_raise. split_and!; [done|done|naive_solver]. }
  rw /wp in H. rw /Work. destruct (runOnce _ _ _ _) as [[[]|e] w']; cbn in H; destruct H as (Hr & Hres & Hh); [done|].
  split_and!; [done| |].
  - rw /workError. destruct (errors_As_RateLimit e); [done|]. by repeat case_match.
  - intros Hfs. destruct (Hh Hfs) as [[= ->] ->]. split; [done|]. by apply loadedRun_updated.
Qed.

(** An occupied position whose entry carries no track is taken for a free one:
    the track is added again at the end. *)
Lemma ensureEntryState_unreadable {R} (provider : Provider R) hash id position track page item items
    (r r1 r2 : R) res D tx fs now :
  ReadPlaylistEntries provider hash id position 1 r = (Ok page, r1) →
  EntryPage_Items page = item :: items → PlaylistEntry_Track item = None →
  AddTracksToPlaylist provider hash id [track] r1 = (res, r2) →
  ensureEntryState provider hash id position track (MkWorld D tx fs now r) = (res, MkWorld D tx fs now r2).
Proof.
  intros Hread Hitems Htrack Hadd. rw /ensureEntryState bind_unfold /remote /= Hread /= Hitems Htrack.
  by rw Hadd.
Qed.

(** ** Concrete inputs *)

(** The saved preview of [exSave], enqueued; the account answers the first
    listing, then creates the playlist but the reply is lost. *)
Definition exAccount : memory :=
  MkMemory [MkDest "q" "Other" ["z"]] 1 [Healthy; LosesReply "connection reset"].
Definition exRunDB : DB :=
  w_db (EnqueueRun "run1" exHash "0123456789"
    (SavePreview "0123456789" 5 exHash "import" ProviderAppleMusic exPlaylist exEntries
      (MkWorld emptyDB None [] 7 exAccount)).2).2.
Definition exRun : world memory := MkWorld exRunDB None [] 7 exAccount.
Definition exRunStatus : TransferRunStatus := MkTransferRunStatus "run1" "0123456789" "queued" "" "" 0 7 7.
Definition exPreview : TransferPreview :=
  MkTransferPreview "0123456789" exPlaylist ProviderAppleMusic "ready" 5 exEntries.
Definition exService : Service memory := NewService [memoryProvider].

(** The world after a first attempt, which fails. *)
Definition exRetry : world memory := (Work exService 5 "run1" (MkWorld exRunDB None [] 8 exAccount)).2.

Lemma exRun_loaded : loadedRun "run1" exRunDB = Ok (exRunStatus, exPreview, exHash).
Proof. vm_compute. reflexivity. Qed.

Lemma exAccount_ok : mem_ok exAccount.
Proof. split; repeat constructor; cbn; try lia; try by intros ?%not_elem_of_nil. Qed.

Lemma exRun_fresh : @run_fresh _ _ _ (memory_destination exHash) "run1" exRunStatus exPreview exRunDB exAccount.
Proof. split_and!; [apply exRun_loaded|done..|apply exAccount_ok|vm_compute; reflexivity]. Qed.

Lemma exRun_attempt : attempt exService "run1" exRun exRetry.
Proof. apply (attempt_intro exService "run1" exRunDB exAccount [] [] 7 8 5). Qed.

Lemma exTakes : Forall (@dest_takes _ _ _ (memory_destination exHash)) (transferIDs exPreview).
Proof. repeat constructor; discriminate. Qed.

(** The first attempt left an empty playlist, the second one completes it. *)
Lemma Work_exactly_once_witness :
  named (dest := memory_destination exHash) "Mix (transfer 01234567)" (w_remote exRetry) =
    [MkDest "pp" "Mix (transfer 01234567)" []] ∧
  (Work exService 5 "run1" (MkWorld (w_db exRetry) None [] 9 (w_remote exRetry))).1 = WorkDone ∧
  run_completed (dest := memory_destination exHash) "run1" "0123456789" exPreview
    (w_db (Work exService 5 "run1" (MkWorld (w_db exRetry) None [] 9 (w_remote exRetry))).2)
    (w_remote (Work exService 5 "run1" (MkWorld (w_db exRetry) None [] 9 (w_remote exRetry))).2).
Proof.
  split; [vm_compute; reflexivity|].
  assert ((Work exService 5 "run1" (MkWorld (w_db exRetry) None [] 9 (w_remote exRetry))).1 = WorkDone) as Hdone
    by (vm_compute; reflexivity).
  split; [exact Hdone|].
  eapply (@Work_exactly_once memory exService memoryProvider exHash (memory_destination exHash) "run1" exRunStatus exPreview
    exRun exRetry eq_refl I exTakes eq_refl exRun_fresh (rtc_once _ _ exRun_attempt)).
  rw -Hdone. apply surjective_pairing.
Defined.

Lemma Work_completes_witness :
  (Work exService 5 "run1" (MkWorld (w_db exRetry) None [] 9 (w_remote exRetry))).1 = WorkDone.
Proof.
  apply (@Work_completes memory exService memoryProvider exHash (memory_destination exHash) "run1" exRunStatus exPreview
    exRun exRetry 5 9 eq_refl I exTakes eq_refl exRun_fresh (rtc_once _ _ exRun_attempt));
    split; vm_compute; try reflexivity; try discriminate; lia.
Defined.

Lemma Work_provider_unavailable_witness :
  (Work (NewService []) 5 "run1" (MkWorld exRunDB None [] 9 exAccount)).1 = WorkCancel ErrUnsupportedOperation.
Proof.
  pose proof (Work_provider_unavailable (NewService []) 5 "run1" exRunStatus exPreview exHash exRunDB 9 exAccount []
    exRun_loaded ltac:(discriminate) eq_refl) as H.
  destruct (Work (NewService []) 5 "run1" _) as [res w']. destruct H as (_ & _ & H). by apply H.
Defined.
