(* ===== verification/SpotifyStore.v ===== *)
(** internal/spotify/store.go: the encrypted account connections, one per
    browser session, and the interface through which the client uses them.
    AES-GCM is a parameter: its laws are the documented ones (what was sealed
    under some associated data opens under it, and under no other). *)
From S2P Require Import Prelude GoStrings Errors Json Models Database.
Local Open Scope string_scope.
Local Open Scope list_scope.
Local Open Scope Z_scope.
Local Open Scope go_scope.

Record Profile : Type := MkProfile {
  Profile_ID : string;
  Profile_AccountID : string;
  Profile_DisplayName : string;
}.

(** [Tokens_ExpiresAt] is an instant in nanoseconds. *)
Record Tokens : Type := MkTokens {
  Tokens_AccessToken : string;
  Tokens_RefreshToken : string;
  Tokens_ExpiresAt : Z;
  Tokens_Scope : string;
}.

Record Connection : Type := MkConnection {
  Connection_Profile : Profile;
  Connection_Tokens : Tokens;
}.

Definition setTokens (tokens : Tokens) (c : Connection) : Connection :=
  MkConnection (Connection_Profile c) tokens.

(** ** JSON *)

Definition marshalProfile (p : Profile) : json := JObject
  [("id", marshalString (Profile_ID p)); ("account_id", marshalString (Profile_AccountID p));
   ("display_name", marshalString (Profile_DisplayName p))].
Definition unmarshalProfile (j : json) : result Profile :=
  let* fs := fieldsOf j in
  let* id := unmarshalString (getField fs "id") in
  let* accountID := unmarshalString (getField fs "account_id") in
  let* displayName := unmarshalString (getField fs "display_name") in
  Ok (MkProfile id accountID displayName).

Definition marshalTokens (t : Tokens) : json := JObject
  [("access_token", marshalString (Tokens_AccessToken t)); ("refresh_token", marshalString (Tokens_RefreshToken t));
   ("expires_at", JTime (Tokens_ExpiresAt t)); ("scope", marshalString (Tokens_Scope t))].
Definition unmarshalTokens (j : json) : result Tokens :=
  let* fs := fieldsOf j in
  let* access := unmarshalString (getField fs "access_token") in
  let* refresh := unmarshalString (getField fs "refresh_token") in
  let* expiresAt := unmarshalTime (getField fs "expires_at") in
  let* scope := unmarshalString (getField fs "scope") in
  Ok (MkTokens access refresh expiresAt scope).

Definition marshalConnection (c : Connection) : json := JObject
  [("profile", marshalProfile (Connection_Profile c)); ("tokens", marshalTokens (Connection_Tokens c))].
Definition unmarshalConnection (j : json) : result Connection :=
  let* fs := fieldsOf j in
  let* profile := unmarshalProfile (getField fs "profile") in
  let* tokens := unmarshalTokens (getField fs "tokens") in
  Ok (MkConnection profile tokens).

(** ** Encryption *)

(** [cipher.AEAD] on the encoded documents.  The fresh random nonce of every
    encryption is part of the function: nothing depends on which one it is. *)
Class AEAD : Type := {
  Seal : json → string → string;            (* plaintext, associated data *)
  Open : string → string → option json;     (* ciphertext, associated data *)
}.

Class AEADLaws `{AEAD} : Prop := {
  Open_Seal plain ad : Open (Seal plain ad) ad = Some plain;
  Open_other plain ad ad' : ad ≠ ad' → Open (Seal plain ad) ad' = None;
}.

Section sealing.
Context `{AEAD}.

Definition seal (hash : string) (connection : Connection) : string := Seal (marshalConnection connection) hash.

Definition open (hash encrypted : string) : result Connection :=
  match Open encrypted hash with
  | None => Err (ErrorString "cannot decrypt Spotify connection")
  | Some plain =>
      match unmarshalConnection plain with
      | Ok connection => Ok connection
      | Err _ => Err (ErrorString "invalid stored Spotify connection")
      end
  end.
End sealing.

(** ** The store interface *)

(** The Go interface [Store].  The function given to [Update] changes the
    connection in place and may set variables of its caller: it returns the new
    connection and those values. *)
Class Store (W : Type) : Type := {
  store_Save : string → string → Connection → Z → M W error unit;
  store_Update : ∀ {A : Type}, string → (Connection → M W error (Connection * A)) → M W error A;
  store_Delete : string → M W error unit;
}.

(** [Update] runs its function at most once: whatever the function costs is
    all that an update costs. *)
Class UpdateOnce {W : Type} `{!Store W} (n : W → Z) : Prop :=
  update_once : ∀ (A : Type) hash (f : Connection → M W error (Connection * A)) k,
    0 ≤ k → (∀ c, costs n (f c) k) → costs n (store_Update hash f) k.

(** ** PostgresStore *)

(** Deleting connections removes what belongs to them ([ON DELETE CASCADE]):
    their imports, the snapshots of these and the entries of those. *)
Definition deleteConnections (doomed : string → ConnectionRow → bool) (db : DB) : DB :=
  let kept : gmap string ConnectionRow :=
    filter (λ kv : string * ConnectionRow, doomed kv.1 kv.2 = false) (spotify_connections db) in
  let imports : gmap string ImportRow :=
    filter (λ kv : string * ImportRow, is_Some (kept !! imp_session_hash kv.2)) (spotify_imports db) in
  let snapshots : gmap string SnapshotRow :=
    filter (λ kv : string * SnapshotRow, is_Some (imports !! kv.1)) (spotify_snapshots db) in
  let entries : gmap string (gmap Z json) :=
    filter (λ kv : string * gmap Z json, is_Some (snapshots !! kv.1)) (spotify_snapshot_entries db) in
  set_connections (λ _, kept) (set_imports (λ _, imports) (set_snapshots (λ _, snapshots)
    (set_snapshot_entries (λ _, entries) db))).

Definition insertConnection (hash encrypted : string) (expires now : Z) (db : DB) : result DB :=
  if negb (check_hash hash) then Err (DatabaseError "check_violation") else
  match spotify_connections db !! hash with
  | Some _ => Err (DatabaseError "unique_violation")
  | None => Ok (set_connections <[hash := MkConnectionRow encrypted expires now now]> db)
  end.

(** [... WHERE session_hash = $1 AND expires_at > now() FOR UPDATE]. *)
Definition selectConnection (hash : string) (now : Z) (db : DB) : option ConnectionRow :=
  row ← spotify_connections db !! hash;
  if now <? conn_expires_at row then Some row else None.

Definition setCredentials (encrypted : string) (now : Z) (row : ConnectionRow) : ConnectionRow :=
  MkConnectionRow encrypted (conn_expires_at row) (conn_created_at row) now.

Section postgres.
Context `{AEAD} {R : Type}.
Abbreviation Mw := (M (world R) error).

Definition Save (hash oldHash : string) (connection : Connection) (expires : Z) : Mw unit :=
  let encrypted := seal hash connection in
  with_tx (
    tx_exec (λ now db, Ok (deleteConnections (λ h row, bool_decide (h = oldHash) || (conn_expires_at row <=? now)) db)) ;;
    tx_exec (insertConnection hash encrypted expires) ;;
    commit).

Definition Update {A} (hash : string) (update : Connection → Mw (Connection * A)) : Mw A :=
  with_tx (
    row ← tx_query (selectConnection hash);
    match row with
    | None => raise SpotifyErrNoConnection
    | Some row =>
        connection ← lift (open hash (conn_encrypted_credentials row));
        ret ← update connection;
        let '(connection, a) := ret in
        tx_exec (λ now db, Ok (set_connections (alter (setCredentials (seal hash connection) now) hash) db)) ;;
        commit ;;
        mret a
    end).

Definition Delete (hash : string) : Mw unit :=
  pool_exec (λ now db, Ok (deleteConnections (λ h _, bool_decide (h = hash)) db)).

#[export] Instance PostgresStore : Store (world R) := {|
  store_Save := Save;
  store_Update := @Update;
  store_Delete := Delete;
|}.
End postgres.

(** ** What the store promises *)

(** Every import belongs to a connection, every snapshot to an import, every
    entry to a snapshot. *)
Record refs_ok (db : DB) : Prop := {
  refs_import id row : spotify_imports db !! id = Some row → is_Some (spotify_connections db !! imp_session_hash row);
  refs_snapshot id row : spotify_snapshots db !! id = Some row → is_Some (spotify_imports db !! id);
  refs_entries id m : spotify_snapshot_entries db !! id = Some m → is_Some (spotify_snapshots db !! id);
}.

Definition wf_connection (c : Connection) : Prop :=
  valid_string (Profile_ID (Connection_Profile c)) ∧ valid_string (Profile_AccountID (Connection_Profile c)) ∧
  valid_string (Profile_DisplayName (Connection_Profile c)) ∧
  valid_string (Tokens_AccessToken (Connection_Tokens c)) ∧ valid_string (Tokens_RefreshToken (Connection_Tokens c)) ∧
  valid_string (Tokens_Scope (Connection_Tokens c)).

(** The connection a session's credentials hold. *)
Definition stored `{AEAD} (hash : string) (db : DB) : option Connection :=
  row ← spotify_connections db !! hash;
  match open hash (conn_encrypted_credentials row) with Ok c => Some c | Err _ => None end.

(** ** Proofs *)

Lemma Connection_roundtrip c : wf_connection c → unmarshalConnection (marshalConnection c) = Ok c.
Proof.
  intros (H1 & H2 & H3 & H4 & H5 & H6). destruct c as [[id acc dn] [at_ rt ea sc]]. cbn in *.
  assert (unmarshalProfile (marshalProfile (MkProfile id acc dn)) = Ok (MkProfile id acc dn)) as Hp.
  { rw /unmarshalProfile /marshalProfile. cbn [app fieldsOf]. by decode_fields. }
  assert (unmarshalTokens (marshalTokens (MkTokens at_ rt ea sc)) = Ok (MkTokens at_ rt ea sc)) as Ht.
  { rw /unmarshalTokens /marshalTokens. cbn [app fieldsOf]. by decode_fields. }
  rw /unmarshalConnection /marshalConnection. cbn [app fieldsOf Connection_Profile Connection_Tokens res_bind].
  eapply res_bind_Ok; [get_fields; exact Hp|]. eapply res_bind_Ok; [get_fields; exact Ht|done].
Qed.

Lemma open_seal `{AEAD, !AEADLaws} hash c : wf_connection c → open hash (seal hash c) = Ok c.
Proof. intros Hc. by rw /open /seal Open_Seal Connection_roundtrip. Qed.

Lemma deleteConnections_refs doomed db : refs_ok (deleteConnections doomed db).
Proof.
  split; cbn; intros id row [_ ?]%map_lookup_filter_Some; done.
Qed.

Lemma deleteConnections_lookup doomed db hash :
  spotify_connections (deleteConnections doomed db) !! hash =
  row ← spotify_connections db !! hash; if doomed hash row then None else Some row.
Proof.
  cbn. rw map_lookup_filter. destruct (spotify_connections db !! hash) as [row|]; cbn; [|done].
  destruct (doomed hash row); cbn; [by rw option_guard_False|by rw option_guard_True].
Qed.

Lemma deleteConnections_imports doomed db id row :
  spotify_imports (deleteConnections doomed db) !! id = Some row ↔
  spotify_imports db !! id = Some row ∧
  is_Some (spotify_connections (deleteConnections doomed db) !! imp_session_hash row).
Proof. cbn. by rw map_lookup_filter_Some. Qed.

Lemma insertConnection_inv hash enc expires now db db' :
  insertConnection hash enc expires now db = Ok db' →
  db' = set_connections <[hash := MkConnectionRow enc expires now now]> db ∧ spotify_connections db !! hash = None.
Proof. rw /insertConnection. destruct (negb _); [done|]. destruct (spotify_connections db !! hash) eqn:E; naive_solver. Qed.

Lemma set_connections_refs f db :
  (∀ h, is_Some (spotify_connections db !! h) → is_Some (f (spotify_connections db) !! h)) →
  refs_ok db → refs_ok (set_connections f db).
Proof. intros Hf [H1 H2 H3]. split; cbn; eauto. Qed.

Section postgres_facts.
Context `{AEAD} {R : Type}.
Implicit Types (D : DB) (fs : list fault) (r : R).

Definition saved (hash oldHash : string) (c : Connection) (expires now : Z) D : result DB :=
  insertConnection hash (seal hash c) expires now
    (deleteConnections (λ h row, bool_decide (h = oldHash) || (conn_expires_at row <=? now)) D).

Lemma wp_Save hash oldHash c expires D fs now r Q :
  (∀ fs' D', saved hash oldHash c expires now D = Ok D' → Q (Ok tt) (MkWorld D' None fs' now r)) →
  (∀ fs' e D', D' = D ∨ saved hash oldHash c expires now D = Ok D' → Q (Err e) (MkWorld D' None fs' now r)) →
  wp (Save hash oldHash c expires) Q (MkWorld D None fs now r).
Proof.
  intros Hok Herr. apply wp_with_tx; [|auto]. intros fs1.
  apply wp_bind, wp_tx_exec; [|intros; apply Herr; auto]. intros fs2 d1 _ [= <-].
  apply wp_bind, wp_tx_exec; [|intros; apply Herr; auto]. intros fs3 d2 _ Hd2.
  apply wp_commit; [intros; by apply Hok|]. intros fs4 D' t [->|[_ ->]]; apply Herr; auto.
Qed.

Definition restored (hash : string) (c : Connection) (now : Z) D : DB :=
  set_connections (alter (setCredentials (seal hash c) now) hash) D.

Lemma wp_Update {A} hash (g : Connection → M R error (Connection * A)) D fs now r Q :
  (∀ fs' e, Q (Err e) (MkWorld D None fs' now r)) →
  (∀ row c, selectConnection hash now D = Some row → open hash (conn_encrypted_credentials row) = Ok c →
    wp (g c) (λ res r', match res with
      | Err e => ∀ fs', Q (Err e) (MkWorld D None fs' now r')
      | Ok (c', a) => ∀ fs',
          Q (Ok a) (MkWorld (restored hash c' now D) None fs' now r') ∧
          ∀ e D', D' = D ∨ D' = restored hash c' now D → Q (Err e) (MkWorld D' None fs' now r')
      end) r) →
  wp (Update hash (λ c, remote (g c))) Q (MkWorld D None fs now r).
Proof.
  intros Hearly Hrun. apply wp_with_tx; [|auto]. intros fs1.
  apply wp_bind, wp_tx_query; [|intros; apply Hearly]. intros fs2 _.
  destruct (selectConnection hash now D) as [row|] eqn:Hrow; [|apply Hearly].
  apply wp_bind. rw /wp /lift. destruct (open hash _) as [c|e] eqn:Hopen; cbn [fst snd]; [|apply Hearly].
  apply wp_bind, wp_remote. eapply wp_mono; [by apply (Hrun row c)|]. intros [[c' a]|e] r' HQ; [|apply HQ].
  apply wp_bind, wp_tx_exec; [|intros; apply HQ; auto]. intros fs3 d2 _ [= <-].
  apply wp_bind, wp_commit; [intros; apply wp_ret, HQ|].
  intros fs4 D' t [->|[_ ->]]; apply HQ; auto.
Qed.
End postgres_facts.

(** The cost of what happens outside the database. *)
#[export] Instance PostgresStore_once `{AEAD} {R : Type} (n : R → Z) :
  UpdateOnce (W := world R) (λ w, n (w_remote w)).
Proof.
  intros A hash f k Hk Hf. rw -(Z.add_0_l k). apply costs_bind; [|intros _|done].
  { intros w. rw /begin /next_fault. destruct (w_faults w) as [|[] fs]; cbn; lia. }
  assert (∀ (B : Type) (stmt : Z → DB → result (B * DB)), costs (λ w : world R, n (w_remote w)) (tx_stmt stmt) 0) as Hstmt.
  { intros B stmt w. rw /tx_stmt /next_fault.
    destruct (w_faults w) as [|[] fs]; cbn; destruct (w_tx w) as [[db []]|]; cbn; try lia;
      destruct (stmt (w_now w) db) as [[]|]; cbn; lia. }
  assert (costs (λ w : world R, n (w_remote w)) commit 0) as Hcommit.
  { intros w. rw /commit /next_fault.
    destruct (w_faults w) as [|[] fs]; cbn; destruct (w_tx w) as [[db []]|]; cbn; lia. }
  intros w. rw /defer_rollback.
  assert (costs (λ w : world R, n (w_remote w)) (tx_query (selectConnection hash) ≫= λ row,
    match row with
    | None => raise SpotifyErrNoConnection
    | Some row =>
        connection ← lift (open hash (conn_encrypted_credentials row));
        ret ← f connection;
        let '(connection, a) := ret in
        tx_exec (λ now db, Ok (set_connections (alter (setCredentials (seal hash connection) now) hash) db)) ;;
        commit ;; mret a
    end) k) as Hbody.
  { rw -(Z.add_0_l k). apply costs_bind; [apply Hstmt| |done]. intros [row|]; [|by apply costs_raise].
    rw -(Z.add_0_l k). apply costs_bind; [by apply costs_lift| |done]. intros c.
    rw -(Z.add_0_r k). apply costs_bind; [apply Hf| |done]. intros [c' a].
    rw -(Z.add_0_l 0). apply costs_bind; [apply Hstmt| |done]. intros _.
    rw -(Z.add_0_l 0). apply costs_bind; [apply Hcommit| |done]. intros _. by apply costs_ret. }
  specialize (Hbody w). by destruct ((tx_query _ ≫= _) w) as [res w'].
Qed.

(** ** Properties *)


(** ** Concrete inputs: an ideal cipher *)

(** Documents and texts as numbers, numbers as texts: a cipher that keeps the
    plaintext and the associated data, and checks the latter. *)
Fixpoint json_tree (j : json) : gen_tree (bool + Z + string) :=
  match j with
  | JNull => GenNode 0 []
  | JBool b => GenNode 1 [GenLeaf (inl (inl b))]
  | JInt z => GenNode 2 [GenLeaf (inl (inr z))]
  | JString s => GenNode 3 [GenLeaf (inr s)]
  | JTime t => GenNode 4 [GenLeaf (inl (inr t))]
  | JArray l => GenNode 5 (map json_tree l)
  | JObject fs => GenNode 6 (map (λ kv : string * json, GenNode 7 [GenLeaf (inr kv.1); json_tree kv.2]) fs)
  end.

Fixpoint tree_json (t : gen_tree (bool + Z + string)) : json :=
  match t with
  | GenNode 1 [GenLeaf (inl (inl b))] => JBool b
  | GenNode 2 [GenLeaf (inl (inr z))] => JInt z
  | GenNode 3 [GenLeaf (inr s)] => JString s
  | GenNode 4 [GenLeaf (inl (inr t))] => JTime t
  | GenNode 5 l => JArray (map tree_json l)
  | GenNode 6 l => JObject (map (λ t, match t with GenNode 7 [GenLeaf (inr k); v] => (k, tree_json v) | _ => ("", JNull) end) l)
  | _ => JNull
  end.

Fixpoint tree_json_tree (j : json) : tree_json (json_tree j) = j.
Proof.
  destruct j as [|b|z|s|t|l|fs]; cbn; [done..| |].
  - f_equal. induction l as [|j l IH]; cbn; [done|]. by rw tree_json_tree IH.
  - f_equal. induction fs as [|[k j] fs IH]; cbn; [done|]. by rw tree_json_tree IH.
Qed.

Definition exCode (plain : json) (ad : string) : positive := countable.encode (json_tree plain, ad).

Fixpoint bits (p : positive) : string :=
  match p with xH => "" | xO p => String.append "0" (bits p) | xI p => String.append "1" (bits p) end.
Fixpoint unbits (s : string) : positive :=
  match s with
  | EmptyString => xH
  | String a s => if bool_decide (String a "" = "1") then xI (unbits s) else xO (unbits s)
  end.
Lemma unbits_bits p : unbits (bits p) = p.
Proof.
  induction p as [p IH|p IH|]; [..|done].
  - by apply (f_equal xI) in IH.
  - by apply (f_equal xO) in IH.
Qed.

#[export] Instance idealAEAD : AEAD := {|
  Seal plain ad := bits (exCode plain ad);
  Open c ad := match countable.decode (unbits c) with
               | Some (t, ad') => if bool_decide (ad' = ad) then Some (tree_json t) else None
               | None => None
               end;
|}.

#[export] Instance idealAEAD_laws : AEADLaws.
Proof.
  split; intros plain ad; [|intros ad' Hne]; cbn; rw unbits_bits /exCode countable.decode_encode.
  - by rw bool_decide_true // tree_json_tree.
  - by rw bool_decide_false.
Qed.

Definition exHash1 : string := Nat.iter 64 (λ s, "1" +:+ s) "".
Definition exHash2 : string := Nat.iter 64 (λ s, "2" +:+ s) "".
Definition exConnection : Connection :=
  MkConnection (MkProfile "u" "acct" "User") (MkTokens "access" "refresh" 100 "scope").
Definition exConnected : world unit := (Save exHash1 "" exConnection 1000 (MkWorld emptyDB None [] 7 tt)).2.

Lemma exConnection_wf : wf_connection exConnection.
Proof. split_and!; vm_compute; reflexivity. Qed.

