(* ===== verification/SpotifyClient.v ===== *)
(** internal/spotify/client.go, playlists.go and search.go: the requests to
    Spotify, with refreshing of tokens, paging and the versioned snapshot of a
    playlist.  The network ([http_Do]) and the clock are parameters, and so is
    the connection store behind its interface. *)
From S2P Require Import Prelude GoStrings Errors Json Http Models SpotifyTypes Database SpotifyStore.
Local Open Scope string_scope.
Local Open Scope list_scope.
Local Open Scope Z_scope.
Local Open Scope go_scope.

Record Client : Type := MkClient {
  clientID : string;
  redirectURI : string;
  authorizeURL : string;
  tokenURL : string;
  profileURL : string;
  apiURL : string;
}.

Definition NewClient (clientID redirectURI : string) : Client :=
  MkClient clientID redirectURI
    "https://accounts.spotify.com/authorize" "https://accounts.spotify.com/api/token"
    "https://api.spotify.com/v1/me" "https://api.spotify.com/v1".

(** ** Decoding the documents of the API *)

Definition unmarshalTotal (j : json) : result Z :=
  let* fs := fieldsOf j in unmarshalInt (getField fs "total").
Definition unmarshalSpotifyURL (j : json) : result string :=
  let* fs := fieldsOf j in unmarshalString (getField fs "spotify").

Definition unmarshalSpotifyPlaylist (j : json) : result SpotifyPlaylist :=
  let* fs := fieldsOf j in
  let* id := unmarshalString (getField fs "id") in
  let* name := unmarshalString (getField fs "name") in
  let* snapshotID := unmarshalString (getField fs "snapshot_id") in
  let* url := unmarshalSpotifyURL (getField fs "external_urls") in
  let* items := unmarshalPtr unmarshalTotal (getField fs "items") in
  let* tracks := unmarshalPtr unmarshalTotal (getField fs "tracks") in
  Ok (MkSpotifyPlaylist id name snapshotID url items tracks).

Definition unmarshalNested (field : string) (j : json) : result string :=
  let* fs := fieldsOf j in unmarshalString (getField fs field).

Definition unmarshalMediaItem (j : json) : result mediaItem :=
  let* fs := fieldsOf j in
  let* type := unmarshalString (getField fs "type") in
  let* id := unmarshalString (getField fs "id") in
  let* uri := unmarshalString (getField fs "uri") in
  let* name := unmarshalString (getField fs "name") in
  let* artists := unmarshalSlice unmarshalArtist (getField fs "artists") in
  let* album := unmarshalNested "name" (getField fs "album") in
  let* durationMS := unmarshalInt (getField fs "duration_ms") in
  let* isrc := unmarshalNested "isrc" (getField fs "external_ids") in
  let* url := unmarshalNested "spotify" (getField fs "external_urls") in
  let* linkedFrom := unmarshalNested "id" (getField fs "linked_from") in
  let* isLocal := unmarshalBool (getField fs "is_local") in
  let* isPlayable := unmarshalPtr unmarshalBool (getField fs "is_playable") in
  Ok (MkmediaItem type id uri name artists album durationMS isrc url linkedFrom isLocal isPlayable).

Definition unmarshalOccurrence (j : json) : result playlistOccurrence :=
  let* fs := fieldsOf j in
  let* addedAt := unmarshalPtr unmarshalString (getField fs "added_at") in
  let* isLocal := unmarshalBool (getField fs "is_local") in
  let* item := unmarshalPtr unmarshalMediaItem (getField fs "item") in
  let* track := unmarshalPtr unmarshalMediaItem (getField fs "track") in
  Ok (MkplaylistOccurrence addedAt isLocal item track).

Definition unmarshalProviderPage {T} (f : json → result T) (j : json) : result (providerPage T) :=
  let* fs := fieldsOf j in
  let* items := unmarshalSlice f (getField fs "items") in
  let* total := unmarshalInt (getField fs "total") in
  let* offset := unmarshalInt (getField fs "offset") in
  Ok (MkproviderPage items total offset).

Record tokenBody : Type := MktokenBody {
  tokenBody_AccessToken : string;
  tokenBody_RefreshToken : string;
  tokenBody_TokenType : string;
  tokenBody_ExpiresIn : Z;
  tokenBody_Scope : string;
}.
Definition unmarshalTokenBody (j : json) : result tokenBody :=
  let* fs := fieldsOf j in
  let* access := unmarshalString (getField fs "access_token") in
  let* refresh := unmarshalString (getField fs "refresh_token") in
  let* type := unmarshalString (getField fs "token_type") in
  let* expiresIn := unmarshalInt (getField fs "expires_in") in
  let* scope := unmarshalString (getField fs "scope") in
  Ok (MktokenBody access refresh type expiresIn scope).

(** The OAuth error code of an error body; decoding errors are ignored. *)
Definition oauthError (body : option json) : string :=
  match body with
  | Some (JObject fs) => match getField fs "error" with JString s => s | _ => "" end
  | _ => ""
  end.

(** ** Requests *)

Section client.
Context {W : Type} (http_Do : Request → M W error Response) (clock : W → Z) `{!Store W} (c : Client).
Abbreviation Mw := (M W error).

Definition Now : Mw Z := λ w, (Ok (clock w), w).
Definition bearer (accessToken : string) : list (string * string) := [("Authorization", "Bearer " +:+ accessToken)].

(** Without a [destination], or without content, the body is not read and the
    destination keeps its zero value. *)
Definition requestWithStatus {A} (req : Request) (zero : A) (destination : option (json → result A))
    (accepted : list Z) : Mw A :=
  r ← try (http_Do req);
  match r with
  | Err _ => raise (ErrorString "Spotify request could not be completed")
  | Ok resp =>
      if negb (bool_decide (resp_status resp ∈ accepted)) then
        raise (SpotifyProviderError (resp_status resp) (retryAfter (resp_retry_after resp))
                 (bool_decide (oauthError (resp_body resp) = "invalid_grant")))
      else match destination with
      | None => mret zero
      | Some decode =>
          if resp_status resp =? 204 then mret zero
          else match resp_body resp with
               | None => raise (ErrorString "invalid Spotify response")
               | Some j => match decode j with
                           | Ok a => mret a
                           | Err _ => raise (ErrorString "invalid Spotify response")
                           end
               end
      end
  end.

Definition request {A} (req : Request) (zero : A) (decode : json → result A) : Mw A :=
  requestWithStatus req zero (Some decode) [200].

Definition emptyTokenBody : tokenBody := MktokenBody "" "" "" 0 "".

Definition token (form : list (string * string)) : Mw Tokens :=
  let form := form ++ [("client_id", clientID c)] in
  body ← request (MkRequest "POST" (tokenURL c) [] [("Content-Type", "application/x-www-form-urlencoded")] (FormBody form))
           emptyTokenBody unmarshalTokenBody;
  if bool_decide (tokenBody_AccessToken body = "") || negb (EqualFold (tokenBody_TokenType body) "Bearer") ||
     (tokenBody_ExpiresIn body <=? 0) || (86400 <? tokenBody_ExpiresIn body)
  then raise (ErrorString "invalid Spotify token response")
  else
    now ← Now;
    mret (MkTokens (tokenBody_AccessToken body) (tokenBody_RefreshToken body)
            (now + wrap64 (tokenBody_ExpiresIn body * Second)) (tokenBody_Scope body)).

Definition Exchange (code verifier : string) : Mw Tokens :=
  t ← token [("grant_type", "authorization_code"); ("code", code); ("redirect_uri", redirectURI c); ("code_verifier", verifier)];
  if bool_decide (Tokens_RefreshToken t = "") then raise (ErrorString "Spotify did not return a refresh token")
  else mret t.

(** What a refresh keeps of the previous tokens. *)
Definition mergeTokens (previous t : Tokens) : Tokens :=
  MkTokens (Tokens_AccessToken t)
    (if bool_decide (Tokens_RefreshToken t = "") then Tokens_RefreshToken previous else Tokens_RefreshToken t)
    (Tokens_ExpiresAt t)
    (if bool_decide (Tokens_Scope t = "") then Tokens_Scope previous else Tokens_Scope t).

Definition Refresh (previous : Tokens) : Mw Tokens :=
  t ← token [("grant_type", "refresh_token"); ("refresh_token", Tokens_RefreshToken previous)];
  mret (mergeTokens previous t).

Definition fetchProfile (accessToken : string) : Mw Profile :=
  profile ← request (MkRequest "GET" (profileURL c) [] (bearer accessToken) NoBody) (MkProfile "" "" "") unmarshalProfile;
  if bool_decide (Profile_AccountID profile = "") then raise (ErrorString "Spotify profile has no stable account ID")
  else mret profile.

(** ** Connections *)

Definition unauthorized (r : result unit) : bool :=
  match r with
  | Ok _ => false
  | Err err => match errors_As_Spotify err with Some (status, _, _) => status =? 401 | None => false end
  end.
Definition dropValue {A} (r : result A) : result unit := match r with Ok _ => Ok tt | Err e => Err e end.

(** What a successful resource call makes of the connection it was given. *)
Definition changed {A} (effect : A → Connection → Connection) (resource : result A) (connection : Connection) : Connection :=
  match resource with Ok a => effect a connection | Err _ => connection end.

(** The function that [withConnection] hands to the store: it returns the
    connection to keep and the outcome of the resource request. *)
Definition useConnection {A} (effect : A → Connection → Connection) (call : Connection → Mw A) (connection : Connection) : Mw (Connection * result A) :=
  now ← Now;
  fresh ←
    (if Tokens_ExpiresAt (Connection_Tokens connection) <=? now + Minute then
       tokens ← Refresh (Connection_Tokens connection);
       mret (setTokens tokens connection, true)
     else mret (connection, false));
  let '(connection, refreshed) := fresh in
  resource ← try (call connection);
  if negb refreshed && unauthorized (dropValue resource) then
    tokens ← Refresh (Connection_Tokens connection);
    let connection := setTokens tokens connection in
    resource ← try (call connection);
    mret (changed effect resource connection, resource)
  else mret (changed effect resource connection, resource).

Definition withConnectionChanged {A} (effect : A → Connection → Connection) (hash : string) (call : Connection → Mw A) : Mw A :=
  resource ← store_Update hash (useConnection effect call);
  lift resource.

(** Most calls only read the connection. *)
Definition unchanged {A} (_ : A) (connection : Connection) : Connection := connection.
Definition withConnection {A} (hash : string) (call : Connection → Mw A) : Mw A :=
  withConnectionChanged unchanged hash call.

Definition playlistGET {A} (hash path : string) (q : list (string * string)) (zero : A) (decode : json → result A) : Mw A :=
  withConnection hash (λ connection,
    request (MkRequest "GET" (apiURL c +:+ path) q (bearer (Tokens_AccessToken (Connection_Tokens connection))) NoBody)
      zero decode).

(** ** Playlists *)

Definition emptyPage {T} : providerPage T := MkproviderPage None 0 0.

Definition Playlists (hash : string) (offset limit : Z) : Mw (Page SpotifyPlaylist) :=
  if (offset <? 0) || (100000 <? offset) || (limit <? 1) || (50 <? limit) then raise (ErrorString "invalid_pagination") else
  page ← playlistGET hash "/me/playlists" [("offset", Itoa offset); ("limit", Itoa limit)]
           emptyPage (unmarshalProviderPage unmarshalSpotifyPlaylist);
  let items := elems (providerPage_Items page) in
  if negb (providerPage_Offset page =? offset) || (providerPage_Total page <? 0) || (limit <? len items) ||
     ((len items =? 0) && (offset <? providerPage_Total page))
  then raise (ErrorString "invalid_playlist_page")
  else
    let next := offset + len items in
    mret (MkPage items (providerPage_Total page) offset (if next <? providerPage_Total page then Some next else None)).

Definition emptyPlaylist : SpotifyPlaylist := MkSpotifyPlaylist "" "" "" "" None None.

Definition playlist (hash id : string) : Mw SpotifyPlaylist :=
  if negb (validPlaylistID id) then raise (ErrorString "invalid_playlist_id") else
  p ← playlistGET hash ("/playlists/" +:+ id) [] emptyPlaylist unmarshalSpotifyPlaylist;
  if bool_decide (SpotifyPlaylist_ID p ≠ id) || bool_decide (SpotifyPlaylist_SnapshotID p = "")
  then raise (ErrorString "invalid_playlist_metadata")
  else mret p.

(** [entries = append(entries, item.entry(len(entries)))] for every item. *)
Definition appendEntries (entries : list Entry) (items : list playlistOccurrence) : list Entry :=
  foldl (λ entries item, entries ++ [entry item (len entries)]) entries items.

Definition itemsQuery (offset : Z) : list (string * string) :=
  [("offset", Itoa offset); ("limit", "50"); ("additional_types", "track,episode")].

(** The loop over the pages; every page brings at least one item, so that
    [fuel] for the missing ones is enough. *)
Fixpoint readItems (fuel : nat) (hash id : string) (total offset : Z) (entries : list Entry) : Mw (list Entry) :=
  if offset <? total then
    match fuel with
    | O => raise DeadlineExceeded
    | S fuel =>
        page ← playlistGET hash ("/playlists/" +:+ id +:+ "/items") (itemsQuery offset) emptyPage
                 (unmarshalProviderPage unmarshalOccurrence);
        let items := elems (providerPage_Items page) in
        if negb (providerPage_Total page =? total) then raise ErrPlaylistChanged
        else if negb (providerPage_Offset page =? offset) || (len items =? 0) || (50 <? len items) ||
                (total <? offset + len items)
        then raise (ErrorString "invalid_playlist_items_page")
        else readItems fuel hash id total (offset + len items) (appendEntries entries items)
    end
  else mret entries.

Definition ReadSnapshot (hash id : string) : Mw (SpotifyPlaylist * list Entry) :=
  before ← playlist hash id;
  match count before with
  | Err _ => raise (ErrorString "invalid_playlist_item_count")
  | Ok total =>
      if total <? 0 then raise (ErrorString "invalid_playlist_item_count") else
      if maxSnapshotItems <? total then raise ErrPlaylistTooLarge else
      entries ← readItems (Z.to_nat total) hash id total 0 [];
      after ← playlist hash id;
      match count after with
      | Err _ => raise ErrPlaylistChanged
      | Ok afterTotal =>
          if bool_decide (SpotifyPlaylist_SnapshotID after ≠ SpotifyPlaylist_SnapshotID before) || negb (afterTotal =? total)
          then raise ErrPlaylistChanged
          else mret (before, entries)
      end
  end.

Definition CreatePlaylist (hash name description : string) : Mw SpotifyPlaylist :=
  let name := TrimSpace name in
  let description := TrimSpace description in
  if bool_decide (name = "") || (100 <? slen name) || (300 <? slen description)
  then raise (ErrorString "invalid_playlist_input") else
  created ← withConnection hash (λ connection,
    let body := JObject ([("name", marshalString name); ("public", JBool false); ("collaborative", JBool false)] ++
                  omitempty (bool_decide (description = "")) "description" (marshalString description)) in
    requestWithStatus (MkRequest "POST" (apiURL c +:+ "/me/playlists") []
        (bearer (Tokens_AccessToken (Connection_Tokens connection)) ++ [("Content-Type", "application/json")]) (JsonBody body))
      emptyPlaylist (Some unmarshalSpotifyPlaylist) [201; 200]);
  if bool_decide (SpotifyPlaylist_ID created = "") || negb (validPlaylistID (SpotifyPlaylist_ID created))
  then raise (ErrorString "invalid_created_playlist")
  else mret created.

Definition AddTracksToPlaylist (hash playlistID : string) (trackIDs : list string) : Mw unit :=
  if negb (validPlaylistID playlistID) || (len trackIDs =? 0) || (100 <? len trackIDs)
  then raise (ErrorString "invalid_playlist_tracks_request") else
  if negb (forallb validPlaylistID trackIDs) then raise (ErrorString "invalid_track_id") else
  let body := JObject [("uris", JArray ((λ id, marshalString ("spotify:track:" +:+ id)) <$> trackIDs))] in
  withConnection hash (λ connection,
    requestWithStatus (MkRequest "POST" (apiURL c +:+ "/playlists/" +:+ playlistID +:+ "/items") []
        (bearer (Tokens_AccessToken (Connection_Tokens connection)) ++ [("Content-Type", "application/json")]) (JsonBody body))
      tt None [201; 200; 204]).

(** ** Search *)

Definition unmarshalSearch (j : json) : result (slice mediaItem) :=
  let* fs := fieldsOf j in
  let* tracks := fieldsOf (getField fs "tracks") in
  unmarshalSlice unmarshalMediaItem (getField tracks "items").

Definition SearchTracks (hash query : string) (limit : Z) : Mw (list Entry) :=
  if bool_decide (query = "") || (limit <? 1) || (50 <? limit) then raise (ErrorString "invalid_search_request") else
  items ← playlistGET hash "/search" [("q", query); ("type", "track"); ("limit", Itoa limit)] None unmarshalSearch;
  mret (imap (λ idx track, entry (MkplaylistOccurrence None false (Some track) None) (Z.of_nat idx)) (elems items)).
End client.

(** ** Proofs: the snapshot of a playlist *)

Lemma appendEntries_imap entries items :
  appendEntries entries items = entries ++ imap (λ i o, entry o (len entries + Z.of_nat i)) items.
Proof.
  revert entries. induction items as [|o items IH]; intros entries; [by rw /= app_nil_r|].
  change (appendEntries entries (o :: items)) with (appendEntries (entries ++ [entry o (len entries)]) items).
  rw IH imap_cons -app_assoc /=. f_equal. rw Z.add_0_r. f_equal. apply imap_ext. intros i o' _.
  rw length_app /=. f_equal. lia.
Qed.

Lemma entry_position o p : Entry_Position (entry o p) = p.
Proof. rw /entry. by destruct (match playlistOccurrence_Item o with Some m => Some m | None => _ end). Qed.

(** Entry [i] of a snapshot of the occurrences [os]. *)
Definition snapshotOf (os : list playlistOccurrence) : list Entry := imap (λ i o, entry o (Z.of_nat i)) os.

Lemma snapshotOf_app os os' :
  snapshotOf (os ++ os') = appendEntries (snapshotOf os) os'.
Proof.
  rw appendEntries_imap /snapshotOf imap_app. f_equal. apply imap_ext. intros i o _. rw length_imap /=. f_equal. lia.
Qed.

Lemma snapshotOf_length os : length (snapshotOf os) = length os.
Proof. apply length_imap. Qed.

Lemma snapshotOf_positions os : Entry_Position <$> snapshotOf os = seqZ 0 (len os).
Proof.
  apply list_eq. intros i. rw list_lookup_fmap /snapshotOf list_lookup_imap.
  destruct (os !! i) as [o|] eqn:E; cbn.
  - rw entry_position. symmetry. apply lookup_seqZ. apply lookup_lt_Some in E. lia.
  - symmetry. apply lookup_seqZ_ge. apply lookup_ge_None in E. lia.
Qed.

Section snapshot_facts.
Context {W : Type} (http_Do : Request → M W error Response) (clock : W → Z) `{!Store W} (c : Client).

Abbreviation getItems hash id offset :=
  (playlistGET http_Do clock c hash ("/playlists/" +:+ id +:+ "/items") (itemsQuery offset) emptyPage
     (unmarshalProviderPage unmarshalOccurrence)).

(** The loop returns the occurrences of the pages, one after the other, as many
    as were announced. *)
Lemma readItems_snapshot fuel hash id total os w entries w' :
  len os ≤ total →
  readItems http_Do clock c fuel hash id total (len os) (snapshotOf os) w = (Ok entries, w') →
  ∃ os', entries = snapshotOf (os ++ os') ∧ len (os ++ os') = total.
Proof.
  revert os w. induction fuel as [|fuel IH]; intros os w Hle; cbn [readItems];
    (destruct (Z.ltb_spec (len os) total) as [Hlt|Hge]; [|intros [= <- _]; exists []; rw app_nil_r; split; [done|lia]]); [done|].
  intros (page & w1 & Hpage & Hrun)%bind_inv. cbv zeta in Hrun.
  destruct (negb (_ =? _)); [done|]. destruct (_ || _) eqn:Hvalid; [done|]. apply orb_false_iff in Hvalid as [Hvalid Hfit].
  set (items := elems (providerPage_Items page)) in *.
  assert (len os + len items = len (os ++ items)) as Hlen by (rw length_app; lia).
  rw Hlen -snapshotOf_app in Hrun. apply IH in Hrun as (os' & -> & Htot); [|lia].
  exists (items ++ os'). by rw app_assoc.
Qed.

(** Where every page is a piece of [all] at its offset, so is the result. *)
Lemma readItems_faithful fuel hash id total (all os : list playlistOccurrence) w entries w' :
  (∀ offset w page w', getItems hash id offset w = (Ok page, w') →
     ∃ n, elems (providerPage_Items page) = take n (drop (Z.to_nat offset) all)) →
  os = take (length os) all →
  readItems http_Do clock c fuel hash id total (len os) (snapshotOf os) w = (Ok entries, w') →
  entries = snapshotOf (take (length entries) all).
Proof.
  intros Hserver. revert os w. induction fuel as [|fuel IH]; intros os w Hos; cbn [readItems];
    (destruct (Z.ltb_spec (len os) total) as [Hlt|Hge]; [|intros [= <- _]; by rw snapshotOf_length -Hos]); [done|].
  intros (page & w1 & Hpage & Hrun)%bind_inv. cbv zeta in Hrun.
  destruct (negb (_ =? _)); [done|]. destruct (_ || _); [done|].
  apply Hserver in Hpage as [n Hitems]. rw Nat2Z.id in Hitems.
  set (items := elems (providerPage_Items page)) in *.
  assert (len os + len items = len (os ++ items)) as Hlen by (rw length_app; lia).
  rw Hlen -snapshotOf_app in Hrun. eapply IH; [|exact Hrun].
  rw length_app -take_take_drop -Hos. f_equal. rw Hitems length_take.
  destruct (decide (n ≤ length (drop (length os) all))%nat).
  - by rw Nat.min_l.
  - rw Nat.min_r; [lia|]. rw !take_ge //; lia.
Qed.

(** More fuel than missing entries changes nothing. *)
Lemma readItems_fuel extra fuel hash id total offset entries w :
  (Z.to_nat (total - offset) ≤ fuel)%nat →
  readItems http_Do clock c (fuel + extra) hash id total offset entries w =
  readItems http_Do clock c fuel hash id total offset entries w.
Proof.
  revert offset entries w. induction fuel as [|fuel IH]; intros offset entries w Hfuel.
  { destruct extra; cbn [Nat.add readItems]; destruct (Z.ltb_spec offset total); [lia|done|lia|done]. }
  cbn [Nat.add readItems]. destruct (Z.ltb_spec offset total) as [Hlt|]; [|done]. rw !bind_unfold.
  destruct (getItems hash id offset w) as [[page|e] w1]; [|done]. cbv zeta.
  destruct (negb (_ =? _)); [done|]. destruct (_ || _) eqn:Hvalid; [done|].
  apply orb_false_iff in Hvalid as [Hvalid _]. apply orb_false_iff in Hvalid as [Hvalid _].
  apply orb_false_iff in Hvalid as [_ Hempty]. apply IH. lia.
Qed.

Lemma playlist_Ok hash id w p w' :
  playlist http_Do clock c hash id w = (Ok p, w') → SpotifyPlaylist_ID p = id ∧ SpotifyPlaylist_SnapshotID p ≠ "".
Proof.
  rw /playlist. destruct (negb _); [done|]. intros (p' & w1 & _ & Hrun)%bind_inv.
  destruct (_ || _) eqn:E; [done|]. injection Hrun as -> _. apply orb_false_iff in E as [E1 E2].
  by apply bool_decide_eq_false in E1, E2; apply dec_stable in E1.
Qed.

Lemma ReadSnapshot_inv hash id w p entries w' :
  ReadSnapshot http_Do clock c hash id w = (Ok (p, entries), w') →
  ∃ total w1 w2 after, playlist http_Do clock c hash id w = (Ok p, w1) ∧ count p = Ok total ∧
    0 ≤ total ≤ maxSnapshotItems ∧
    readItems http_Do clock c (Z.to_nat total) hash id total 0 [] w1 = (Ok entries, w2) ∧
    playlist http_Do clock c hash id w2 = (Ok after, w') ∧
    SpotifyPlaylist_SnapshotID after = SpotifyPlaylist_SnapshotID p ∧ count after = Ok total.
Proof.
  rw /ReadSnapshot. intros (before & w1 & Hbefore & Hrun)%bind_inv.
  destruct (count before) as [total|] eqn:Hcount; [|done].
  destruct (Z.ltb_spec total 0); [done|]. destruct (Z.ltb_spec maxSnapshotItems total); [done|].
  apply bind_inv in Hrun as (es & w2 & Hitems & Hrun). apply bind_inv in Hrun as (after & w3 & Hafter & Hrun).
  destruct (count after) as [afterTotal|] eqn:Hcount'; [|done].
  destruct (_ || _) eqn:E; [done|]. injection Hrun as -> -> ->. apply orb_false_iff in E as [E1 E2].
  apply bool_decide_eq_false in E1. apply dec_stable in E1. apply negb_false_iff, Z.eqb_eq in E2. subst afterTotal.
  exists total, w1, w2, after. by split_and!.
Qed.

(** A snapshot that is returned holds the announced number of occurrences. *)
Lemma ReadSnapshot_entries hash id w p entries w' :
  ReadSnapshot http_Do clock c hash id w = (Ok (p, entries), w') →
  ∃ os, entries = snapshotOf os ∧ count p = Ok (len os) ∧ len os ≤ maxSnapshotItems.
Proof.
  intros (total & w1 & w2 & after & _ & Hcount & Htotal & Hitems & _)%ReadSnapshot_inv.
  apply (readItems_snapshot _ _ _ _ []) in Hitems as (os & -> & Hlen); [|cbn; lia].
  exists os. cbn [app] in *. rw Hlen. by split_and!; try lia.
Qed.

(** Whatever single requests through a connection preserve, reading a snapshot
    preserves. *)
Lemma keeps_ReadSnapshot (I : W → Prop) hash id :
  (∀ A path q (zero : A) decode, keeps I (playlistGET http_Do clock c hash path q zero decode)) →
  keeps I (ReadSnapshot http_Do clock c hash id).
Proof.
  intros Hget.
  assert (keeps I (playlist http_Do clock c hash id)) as Hpl.
  { rw /playlist. destruct (negb _); [auto with keeps|]. apply keeps_bind; [apply Hget|].
    intros p. destruct (_ || _); auto with keeps. }
  assert (∀ fuel total offset entries, keeps I (readItems http_Do clock c fuel hash id total offset entries)) as Hitems.
  { induction fuel as [|fuel IH]; intros total offset entries; cbn [readItems];
      (destruct (offset <? total); [|auto with keeps]); [auto with keeps|].
    apply keeps_bind; [apply Hget|]. intros page. cbv zeta.
    destruct (negb _); [auto with keeps|]. destruct (_ || _); [auto with keeps|apply IH]. }
  apply keeps_bind; [apply Hpl|]. intros before. destruct (count before) as [total|]; [|auto with keeps].
  destruct (_ <? _); [auto with keeps|]. destruct (_ <? _); [auto with keeps|].
  apply keeps_bind; [apply Hitems|]. intros entries. apply keeps_bind; [apply Hpl|]. intros after.
  destruct (count after); [|auto with keeps]. destruct (_ || _); auto with keeps.
Qed.
End snapshot_facts.

(** ** Proofs: how many requests are made *)

Section request_count.
Context {W : Type} (http_Do : Request → M W error Response) (clock : W → Z) `{!Store W} (c : Client).
Context (n : W → Z) `{!UpdateOnce n} (Hdo : ∀ req, costs n (http_Do req) 1).

Lemma costs_requestWithStatus {A} req (zero : A) destination accepted :
  costs n (requestWithStatus http_Do req zero destination accepted) 1.
Proof.
  rw -(Z.add_0_r 1). apply costs_bind; [by apply costs_try| |done].
  intros [resp|e]; [|by apply costs_raise]. destruct (negb _); [by apply costs_raise|].
  destruct destination as [decode|]; [|by apply costs_ret]. destruct (_ =? 204); [by apply costs_ret|].
  destruct (resp_body resp) as [j|]; [|by apply costs_raise].
  destruct (decode j); [by apply costs_ret|by apply costs_raise].
Qed.

Lemma costs_Now : costs n (Now clock) 0.
Proof. intros w. cbn. lia. Qed.

Lemma costs_Refresh previous : costs n (Refresh http_Do clock c previous) 1.
Proof.
  rw -(Z.add_0_r 1). apply costs_bind; [|intros t; by apply costs_ret|done].
  rw /token -(Z.add_0_r 1). apply costs_bind; [apply costs_requestWithStatus| |done].
  intros body. destruct (_ || _); [by apply costs_raise|].
  rw -(Z.add_0_r 0). apply costs_bind; [apply costs_Now|intros; by apply costs_ret|done].
Qed.

(** At most one refresh, and a second attempt only where there was no refresh
    before the first. *)
Lemma costs_useConnection {A} effect (call : Connection → M W error A) k connection :
  0 ≤ k → (∀ conn, costs n (call conn) k) →
  costs n (useConnection http_Do clock c effect call connection) (2 * k + 1).
Proof.
  intros Hk Hcall w. rw /useConnection bind_unfold {1}/Now. cbv beta iota.
  destruct (_ <=? _).
  - enough (costs n ((Refresh http_Do clock c (Connection_Tokens connection) ≫= λ tokens, mret (setTokens tokens connection, true)) ≫=
      λ fresh, let '(connection, refreshed) := fresh in
        resource ← try (call connection);
        if negb refreshed && unauthorized (dropValue resource)
        then tokens ← Refresh http_Do clock c (Connection_Tokens connection);
             let connection := setTokens tokens connection in
             resource ← try (call connection); mret (changed effect resource connection, resource)
        else mret (changed effect resource connection, resource)) (1 + k)) as H by (etrans; [exact (H w)|lia]).
    intros s. rw bind_assoc. revert s.
    apply costs_bind; [apply costs_Refresh| |done]. intros tokens s. rw bind_unfold. cbn [fst snd mret M_ret]. revert s.
    rw -(Z.add_0_r k). apply costs_bind; [by apply costs_try| |done]. intros resource. by apply costs_ret.
  - rw bind_unfold. cbn [mret M_ret]. revert w. change (costs n (resource ← try (call connection);
        if negb false && unauthorized (dropValue resource)
        then tokens ← Refresh http_Do clock c (Connection_Tokens connection);
             let connection := setTokens tokens connection in
             resource ← try (call connection); mret (changed effect resource connection, resource)
        else mret (changed effect resource connection, resource)) (2 * k + 1)).
    apply (costs_weaken _ _ (k + (1 + (k + 0)))); [|lia].
    apply costs_bind; [by apply costs_try| |lia]. intros resource. destruct (negb false && _); [|by apply costs_ret; lia].
    apply costs_bind; [apply costs_Refresh| |lia]. intros tokens. cbv zeta.
    apply costs_bind; [by apply costs_try| |done]. intros resource'. by apply costs_ret.
Qed.

Lemma costs_withConnectionChanged {A} effect hash (call : Connection → M W error A) k :
  0 ≤ k → (∀ conn, costs n (call conn) k) → costs n (withConnectionChanged http_Do clock c effect hash call) (2 * k + 1).
Proof.
  intros Hk Hcall. rw -(Z.add_0_r (2 * k + 1)). apply costs_bind; [|intros; by apply costs_lift|done].
  apply update_once; [lia|]. intros conn. by apply costs_useConnection.
Qed.

Lemma costs_playlistGET {A} hash path q (zero : A) decode :
  costs n (playlistGET http_Do clock c hash path q zero decode) 3.
Proof. apply (costs_withConnectionChanged unchanged _ _ 1); [done|]. intros conn. apply costs_requestWithStatus. Qed.

Lemma costs_playlist hash id : costs n (playlist http_Do clock c hash id) 3.
Proof.
  rw /playlist. destruct (negb _); [by apply costs_raise|].
  rw -(Z.add_0_r 3). apply costs_bind; [apply costs_playlistGET| |done].
  intros p. destruct (_ || _); [by apply costs_raise|by apply costs_ret].
Qed.

Lemma costs_readItems fuel hash id total offset entries :
  costs n (readItems http_Do clock c fuel hash id total offset entries) (3 * Z.of_nat fuel).
Proof.
  revert offset entries. induction fuel as [|fuel IH]; intros offset entries; cbn [readItems];
    (destruct (offset <? total); [|apply costs_ret; lia]); [by apply costs_raise|].
  apply (costs_weaken _ _ (3 + 3 * Z.of_nat fuel)); [|lia].
  apply costs_bind; [apply costs_playlistGET| |lia]. intros page. cbv zeta.
  destruct (negb _); [apply costs_raise; lia|]. destruct (_ || _); [apply costs_raise; lia|]. apply IH.
Qed.

Lemma costs_ReadSnapshot hash id :
  costs n (ReadSnapshot http_Do clock c hash id) (3 * (maxSnapshotItems + 2)).
Proof.
  apply (costs_weaken _ _ (3 + 3 * (maxSnapshotItems + 1))); [|lia]. rw /ReadSnapshot.
  apply costs_bind; [apply costs_playlist| |by rw /maxSnapshotItems]. intros before.
  assert (0 ≤ 3 * (maxSnapshotItems + 1)) as Hpos by by rw /maxSnapshotItems.
  destruct (count before) as [total|]; [|by apply costs_raise].
  destruct (Z.ltb_spec total 0); [by apply costs_raise|].
  destruct (Z.ltb_spec maxSnapshotItems total); [by apply costs_raise|].
  apply (costs_weaken _ _ (3 * Z.of_nat (Z.to_nat total) + (3 + 0))); [|lia].
  apply costs_bind; [apply costs_readItems| |done]. intros entries.
  apply costs_bind; [apply costs_playlist| |done]. intros after.
  destruct (count after); [|by apply costs_raise]. destruct (_ || _); [by apply costs_raise|by apply costs_ret].
Qed.
End request_count.

(** ** Proofs: connections in PostgreSQL *)

Section postgres_connection.
Context `{AEAD} {R : Type} (net : Request → M R error Response) (clk : R → Z) (c : Client).
Implicit Types (w : world R) (r : R) (D : DB).

Definition netDo : Request → M (world R) error Response := λ req, remote (net req).
Definition netClock : world R → Z := λ w, clk (w_remote w).

(** Calls that stay outside the database. *)
Definition is_remote {A} (m : M (world R) error A) (m' : M R error A) : Prop := ∀ w, m w = remote m' w.

Lemma is_remote_bind {A B} (m : M (world R) error A) m' (k : A → M (world R) error B) k' :
  is_remote m m' → (∀ a, is_remote (k a) (k' a)) → is_remote (m ≫= k) (m' ≫= k').
Proof.
  intros Hm Hk w. rw bind_unfold Hm /remote bind_unfold. destruct (m' (w_remote w)) as [[a|e] r]; [|done].
  rw Hk /remote. cbn. destruct (k' a r). by destruct w.
Qed.

Lemma is_remote_ret {A} (a : A) : is_remote (mret a) (mret a).
Proof. by intros []. Qed.
Lemma is_remote_raise {A} e : is_remote (A := A) (raise e) (raise e).
Proof. by intros []. Qed.
Lemma is_remote_try {A} (m : M (world R) error A) m' : is_remote m m' → is_remote (try m) (try m').
Proof. intros Hm w. rw /try Hm /remote. by destruct (m' (w_remote w)). Qed.
Lemma is_remote_Now : is_remote (Now netClock) (Now clk).
Proof. by intros []. Qed.

Create HintDb is_remote.
#[local] Hint Resolve is_remote_ret is_remote_raise is_remote_try is_remote_Now : is_remote.

Lemma Update_ext {A} hash (f : Connection → M (world R) error (Connection * A)) g w :
  (∀ conn, is_remote (f conn) (g conn)) →
  Update hash f w = Update hash (λ conn, remote (g conn)) w.
Proof.
  intros Hf. rw /Update /with_tx !bind_unfold. destruct (begin w) as [[[]|e] w1]; [|done].
  rw /defer_rollback !bind_unfold. destruct (tx_query _ w1) as [[[row|]|e] w2]; [|done..].
  rw !bind_unfold. destruct (lift _ w2) as [[conn|e] w3]; [|done]. by rw !bind_unfold Hf.
Qed.

Lemma is_remote_requestWithStatus {A} req (zero : A) destination accepted :
  is_remote (requestWithStatus netDo req zero destination accepted) (requestWithStatus net req zero destination accepted).
Proof.
  apply is_remote_bind; [by apply is_remote_try|]. intros [resp|e]; repeat case_match; auto with is_remote.
Qed.

Lemma is_remote_Refresh t : is_remote (Refresh netDo netClock c t) (Refresh net clk c t).
Proof.
  apply is_remote_bind; [|auto with is_remote]. apply is_remote_bind; [apply is_remote_requestWithStatus|].
  intros body. destruct (_ || _); [auto with is_remote|]. apply is_remote_bind; auto with is_remote.
Qed.

Lemma is_remote_useConnection {A} effect (call : Connection → M (world R) error A) call' conn :
  (∀ conn, is_remote (call conn) (call' conn)) →
  is_remote (useConnection netDo netClock c effect call conn) (useConnection net clk c effect call' conn).
Proof.
  intros Hcall. apply is_remote_bind; [auto with is_remote|]. intros now. apply is_remote_bind.
  { destruct (_ <=? _); [|auto with is_remote]. apply is_remote_bind; [apply is_remote_Refresh|auto with is_remote]. }
  intros [conn' refreshed]. apply is_remote_bind; [auto with is_remote|]. intros resource.
  destruct (_ && _); [|auto with is_remote]. apply is_remote_bind; [apply is_remote_Refresh|]. intros t.
  apply is_remote_bind; auto with is_remote.
Qed.

(** Requests through a connection of the database change only credentials. *)
Lemma keeps_withConnectionChanged T (P : DB → Prop) {A} effect hash (call : Connection → M (world R) error A) call' :
  (∀ conn now D, P D → P (restored hash conn now D)) → (∀ conn, is_remote (call conn) (call' conn)) →
  keeps (idle T P) (withConnectionChanged netDo netClock c effect hash call).
Proof.
  intros HP Hcall. apply keeps_bind; [|auto with keeps]. intros [D tx fs now r] (Htx & HD & _ & HT). cbn in Htx, HD, HT. subst tx now.
  cbn [store_Update PostgresStore].
  rw (Update_ext _ _ _ _ (λ conn, is_remote_useConnection effect _ _ conn Hcall)).
  apply (wp_Update hash _ D fs T r (λ _ w, idle T P w)); [done|].
  intros row conn _ _. rw /wp. destruct (useConnection _ _ _ _ _ _ _) as [[[conn' a]|e] r']; [|done].
  intros fs'. split; [by split_and!; [|apply HP|..]|]. intros e D' [->| ->]; split_and!; try done. by apply HP.
Qed.

Lemma keeps_withRequest T (P : DB → Prop) {A} hash (req : Connection → Request) (zero : A) destination accepted :
  (∀ conn now D, P D → P (restored hash conn now D)) →
  keeps (idle T P)
    (withConnection netDo netClock c hash (λ conn, requestWithStatus netDo (req conn) zero destination accepted)).
Proof.
  intros HP. eapply keeps_withConnectionChanged; [done|]. intros conn. apply is_remote_requestWithStatus.
Qed.

Lemma keeps_playlistGET T (P : DB → Prop) {A} hash path q (zero : A) decode :
  (∀ conn now D, P D → P (restored hash conn now D)) →
  keeps (idle T P) (playlistGET netDo netClock c hash path q zero decode).
Proof. apply keeps_withRequest. Qed.

Lemma is_remote_fetchProfile t : is_remote (fetchProfile netDo c t) (fetchProfile net c t).
Proof.
  apply is_remote_bind; [apply is_remote_requestWithStatus|]. intros p. destruct (bool_decide _); auto with is_remote.
Qed.

(** Without database faults an update runs its function on the stored
    connection and stores what it returns. *)
Lemma Update_healthy {A} hash (f : Connection → M (world R) error (Connection * A)) g D now r row conn :
  (∀ conn, is_remote (f conn) (g conn)) →
  selectConnection hash now D = Some row → open hash (conn_encrypted_credentials row) = Ok conn →
  Update hash f (MkWorld D None [] now r) =
  match g conn r with
  | (Ok (conn', a), r') => (Ok a, MkWorld (restored hash conn' now D) None [] now r')
  | (Err e, r') => (Err e, MkWorld D None [] now r')
  end.
Proof.
  intros Hf Hrow Hopen. rw /Update /with_tx bind_unfold /begin /= /defer_rollback bind_unfold /tx_query /tx_stmt /=.
  rw Hrow bind_unfold /lift Hopen bind_unfold Hf /remote /=. destruct (g conn r) as [[[conn' a]|e] r']; [|done].
  by rw bind_unfold /tx_exec /tx_stmt /=.
Qed.
End postgres_connection.

(** What a request through a connection returns, some call returned. *)
Lemma useConnection_call {W A} (http_Do : Request → M W error Response) clock c effect (call : Connection → M W error A)
    conn w conn' resource w' :
  useConnection http_Do clock c effect call conn w = (Ok (conn', resource), w') →
  ∃ conn1 w1 w2, call conn1 w1 = (resource, w2).
Proof.
  assert (∀ conn w r w', try (call conn) w = (Ok r, w') → ∃ w2, call conn w = (r, w2)) as Htry.
  { intros conn1 w1 r w2. rw /try. destruct (call conn1 w1); naive_solver. }
  rw /useConnection. intros (now & w1 & _ & Hrun)%bind_inv. apply bind_inv in Hrun as ([conn1 refreshed] & w2 & _ & Hrun).
  apply bind_inv in Hrun as (r & w3 & Hr%Htry & Hrun). destruct (_ && _).
  - apply bind_inv in Hrun as (t & w4 & _ & Hrun). apply bind_inv in Hrun as (r' & w5 & Hr'%Htry & [= _ <- _]).
    destruct Hr'. eauto.
  - injection Hrun as _ <- _. destruct Hr. eauto.
Qed.

(** ** Properties *)

(** C9: an imported snapshot is complete: it has the asked-for playlist's ID
    and a version, exactly as many entries as the playlist announces, at most
    10000, and entry [i] has position [i]. *)
Theorem ReadSnapshot_complete {W} (http_Do : Request → M W error Response) clock `{!Store W} c hash id w p entries w' :
  ReadSnapshot http_Do clock c hash id w = (Ok (p, entries), w') →
  SpotifyPlaylist_ID p = id ∧ SpotifyPlaylist_SnapshotID p ≠ "" ∧
  count p = Ok (len entries) ∧ len entries ≤ 10000 ∧
  Entry_Position <$> entries = seqZ 0 (len entries).
Proof.
  intros Hrun. pose proof (ReadSnapshot_inv _ _ _ _ _ _ _ _ _ Hrun) as (total & w1 & w2 & after & Hbefore & _).
  apply playlist_Ok in Hbefore as [Hid Hsnap].
  apply ReadSnapshot_entries in Hrun as (os & -> & Hcount & Hlen).
  rw snapshotOf_positions snapshotOf_length. by split_and!.
Qed.

(** C33: and it is faithful: if the pages that Spotify returns are pieces of one
    list of occurrences, whatever their sizes, then the entries are these
    occurrences in order, none lost, repeated or moved. *)
Theorem ReadSnapshot_faithful {W} (http_Do : Request → M W error Response) clock `{!Store W} c hash id
    (all : list playlistOccurrence) w p entries w' :
  (∀ offset w page w',
     playlistGET http_Do clock c hash ("/playlists/" +:+ id +:+ "/items") (itemsQuery offset) emptyPage
       (unmarshalProviderPage unmarshalOccurrence) w = (Ok page, w') →
     ∃ n, elems (providerPage_Items page) = take n (drop (Z.to_nat offset) all)) →
  ReadSnapshot http_Do clock c hash id w = (Ok (p, entries), w') →
  entries = imap (λ i o, entry o (Z.of_nat i)) (take (length entries) all).
Proof.
  intros Hserver (total & w1 & w2 & after & _ & _ & _ & Hitems & _)%ReadSnapshot_inv.
  by apply (readItems_faithful _ _ _ _ _ _ _ all []) in Hitems.
Qed.

(** C34: reading a snapshot ends after a bounded number of requests, however
    Spotify answers: at most three per page (one refresh, one repetition), at
    most one page per entry, for at most 10000 entries and the two reads of
    the playlist; and the page budget of the loop never cuts it short. *)
Theorem ReadSnapshot_bounded {W} (http_Do : Request → M W error Response) clock `{!Store W} c (n : W → Z) :
  UpdateOnce n → (∀ req w, n (http_Do req w).2 ≤ n w + 1) →
  (∀ hash id w, n (ReadSnapshot http_Do clock c hash id w).2 ≤ n w + 30006) ∧
  (∀ extra hash id total w, readItems http_Do clock c (Z.to_nat total + extra) hash id total 0 [] w =
                            readItems http_Do clock c (Z.to_nat total) hash id total 0 [] w).
Proof.
  intros Honce Hdo. split.
  - intros hash id. apply (costs_ReadSnapshot http_Do clock c n Hdo).
  - intros extra hash id total w. apply readItems_fuel. lia.
Qed.


(** Paging through the playlists makes progress: a page keeps its offset,
    holds at most [limit] playlists, and names a next offset exactly when
    playlists are left, which then lies beyond this page and below the total. *)
Theorem Playlists_page {W} (http_Do : Request → M W error Response) clock `{!Store W} c hash offset limit w page w' :
  Playlists http_Do clock c hash offset limit w = (Ok page, w') →
  Page_Offset page = offset ∧ len (Page_Items page) ≤ limit ∧ 0 ≤ Page_Total page ∧
  match Page_NextOffset page with
  | Some next => next = offset + len (Page_Items page) ∧ offset < next < Page_Total page
  | None => Page_Total page ≤ offset + len (Page_Items page)
  end.
Proof.
  rw /Playlists. destruct (_ || _) eqn:Hargs; [done|]. intros (pp & w1 & _ & Hrun)%bind_inv. cbv zeta in Hrun.
  destruct (_ || _) eqn:Hvalid in Hrun; [done|]. injection Hrun as <- _. cbn.
  destruct (Z.ltb_spec (offset + len (elems (providerPage_Items pp))) (providerPage_Total pp)); split_and!; lia.
Qed.

(** The errors of a request are controlled: a provider error carries a
    status that was not accepted and a delay between 0 and 86400 seconds; every
    other error is one of two fixed texts, whatever the network or the body
    says. *)
Theorem requestWithStatus_errors {W A} (http_Do : Request → M W error Response) req (zero : A) destination accepted w e w' :
  requestWithStatus http_Do req zero destination accepted w = (Err e, w') →
  e = ErrorString "Spotify request could not be completed" ∨ e = ErrorString "invalid Spotify response" ∨
  ∃ status retry reconnect, e = SpotifyProviderError status retry reconnect ∧ (status ∉ accepted) ∧ 0 ≤ retry ≤ 86400.
Proof.
  rw /requestWithStatus bind_unfold. destruct (try (http_Do req) w) as [[[resp|e']|e'] w1] eqn:Htry;
    [|intros [= <- _]; by left|rw /try in Htry; by destruct (http_Do req w)].
  destruct (negb (bool_decide _)) eqn:Hstatus.
  { intros [= <- _]. right; right. eexists _, _, _. split_and!; [done| |apply retryAfter_bounds..].
    apply negb_true_iff in Hstatus. by apply bool_decide_eq_false in Hstatus. }
  destruct destination as [decode|]; [|done]. destruct (_ =? 204); [done|].
  destruct (resp_body resp) as [j|]; [destruct (decode j); [done|]|]; intros [= <- _]; auto.
Qed.

(** ** Concrete inputs *)

(** A Spotify with one playlist of two tracks, which it serves one at a time;
    the state counts the requests.  The store keeps one connection. *)
Record rig : Type := MkRig { rig_connection : Connection; rig_requests : Z }.

#[export] Instance rig_store : Store rig := {|
  store_Save _ _ c _ := λ w, (Ok tt, MkRig c (rig_requests w));
  store_Update A _ f := λ w,
    match f (rig_connection w) w with
    | (Ok (c, a), w') => (Ok a, MkRig c (rig_requests w'))
    | (Err e, w') => (Err e, w')
    end;
  store_Delete _ := λ w, (Ok tt, w);
|}.

#[export] Instance rig_once : UpdateOnce rig_requests.
Proof.
  intros A hash f k Hk Hf w. specialize (Hf (rig_connection w) w). cbn [store_Update rig_store].
  by destruct (f _ w) as [[[c a]|e] w'].
Qed.

Definition exItem (id : string) : json :=
  JObject [("track", JObject [("type", JString "track"); ("id", JString id); ("name", JString ("Song " +:+ id))])].
Definition exPage (offset : Z) (items : list json) : json :=
  JObject [("items", JArray items); ("total", JInt 2); ("offset", JInt offset)].
Definition exMeta : json :=
  JObject [("id", JString "pl"); ("name", JString "Mix"); ("snapshot_id", JString "v1"); ("tracks", JObject [("total", JInt 2)])].

Definition rig_respond (req : Request) : Response :=
  MkResponse 200 "" (Some (
    match req_query req with
    | [] => exMeta
    | (_, offset) :: _ =>
        if bool_decide (offset = "0") then exPage 0 [exItem "a"]
        else if bool_decide (offset = "1") then exPage 1 [exItem "b"]
        else exPage 2 []
    end)).
Definition rig_Do (req : Request) : M rig error Response :=
  λ w, (Ok (rig_respond req), MkRig (rig_connection w) (rig_requests w + 1)).
Definition exRig : rig :=
  MkRig (MkConnection (MkProfile "u" "acct" "User") (MkTokens "access" "refresh" (1000 * Minute) "scope")) 0.
Definition exClient : Client := NewClient "client" "http://127.0.0.1/callback".
Definition exRead := ReadSnapshot rig_Do (λ _, 0) exClient "hash" "pl" exRig.

Lemma exRead_Ok : ∃ p entries w', exRead = (Ok (p, entries), w') ∧ len entries = 2.
Proof. do 3 eexists. split; [vm_compute; reflexivity|reflexivity]. Qed.

Lemma ReadSnapshot_complete_witness :
  ∃ p entries w', exRead = (Ok (p, entries), w') ∧ count p = Ok 2 ∧ Entry_Position <$> entries = [0; 1].
Proof.
  destruct exRead_Ok as (p & entries & w' & Hrun & Hlen). exists p, entries, w'.
  destruct (ReadSnapshot_complete rig_Do (λ _, 0) exClient "hash" "pl" exRig p entries w' Hrun) as (_ & _ & Hc & _ & Hp).
  rw Hlen in Hc, Hp. split; [exact Hrun|]. by split.
Defined.

Definition exOccurrence (id : string) : playlistOccurrence :=
  MkplaylistOccurrence None false None
    (Some (MkmediaItem "track" id "" ("Song " +:+ id) None "" 0 "" "" "" false None)).

Lemma rig_serves offset page w w' :
  playlistGET rig_Do (λ _, 0) exClient "hash" ("/playlists/" +:+ "pl" +:+ "/items") (itemsQuery offset) emptyPage
    (unmarshalProviderPage unmarshalOccurrence) w = (Ok page, w') →
  ∃ n, elems (providerPage_Items page) = take n (drop (Z.to_nat offset) [exOccurrence "a"; exOccurrence "b"]).
Proof.
  intros (resource & w1 & Hrun & [= -> ->])%bind_inv. cbn [store_Update rig_store] in Hrun.
  destruct (useConnection _ _ _ _ _ _ _) as [[[c r]|e] w2] eqn:Huse; [|done]. injection Hrun as -> _.
  apply useConnection_call in Huse as (conn & w3 & w4 & Hcall).
  rw /request /requestWithStatus bind_unfold /try /rig_Do /rig_respond in Hcall. cbn [req_query itemsQuery] in Hcall.
  destruct (bool_decide (Itoa offset = "0")) eqn:H0; [|destruct (bool_decide (Itoa offset = "1")) eqn:H1].
  - apply bool_decide_eq_true, (inj Itoa _ 0) in H0. subst offset. exists 1%nat. vm_compute in Hcall. injection Hcall as <- _. vm_compute. reflexivity.
  - apply bool_decide_eq_true, (inj Itoa _ 1) in H1. subst offset. exists 1%nat. vm_compute in Hcall. injection Hcall as <- _. vm_compute. reflexivity.
  - exists 0%nat. vm_compute in Hcall. injection Hcall as <- _. vm_compute. reflexivity.
Qed.

Lemma ReadSnapshot_faithful_witness :
  ∃ p entries w', exRead = (Ok (p, entries), w') ∧ entries = [entry (exOccurrence "a") 0; entry (exOccurrence "b") 1].
Proof.
  destruct exRead_Ok as (p & entries & w' & Hrun & Hlen). exists p, entries, w'. split; [exact Hrun|].
  rw (ReadSnapshot_faithful rig_Do (λ _, 0) exClient "hash" "pl" [exOccurrence "a"; exOccurrence "b"] exRig p entries w'
    (λ offset w page w', rig_serves offset page w w') Hrun).
  assert (length entries = 2%nat) as -> by lia. reflexivity.
Defined.

Lemma ReadSnapshot_bounded_witness :
  rig_requests (ReadSnapshot rig_Do (λ _, 0) exClient "hash" "pl" exRig).2 ≤ 30006 ∧
  rig_requests (ReadSnapshot rig_Do (λ _, 0) exClient "hash" "pl" exRig).2 = 4.
Proof.
  split; [|vm_compute; reflexivity].
  destruct (ReadSnapshot_bounded rig_Do (λ _, 0) exClient rig_requests rig_once) as [H _].
  - intros req w. cbn. lia.
  - apply (H "hash" "pl" exRig).
Defined.

(** A server that answers every request alike. *)
Definition always {W} (resp : Response) (req : Request) : M W error Response := λ w, (Ok resp, w).

Lemma requestWithStatus_errors_witness :
  ∃ retry, requestWithStatus (W := unit) (always (MkResponse 429 "7" None)) (MkRequest "GET" "u" [] [] NoBody) tt None [200] tt =
    (Err (SpotifyProviderError 429 retry false), tt) ∧ 0 ≤ retry ≤ 86400.
Proof.
  exists 7. split; [vm_compute; reflexivity|].
  destruct (requestWithStatus_errors (W := unit) (always (MkResponse 429 "7" None)) (MkRequest "GET" "u" [] [] NoBody) tt None [200] tt
    (SpotifyProviderError 429 7 false) tt ltac:(vm_compute; reflexivity)) as [[=]|[[=]|(status & retry & rc & [= _ -> _] & _ & Hb)]].
  exact Hb.
Defined.

Definition exPlaylists : M rig error (Page SpotifyPlaylist) :=
  Playlists (always (MkResponse 200 "" (Some (JObject [("items", JArray [exMeta]); ("total", JInt 3); ("offset", JInt 1)]))))
    (λ _, 0) exClient "hash" 1 10.
Definition exPlaylistsPage : Page SpotifyPlaylist := MkPage [MkSpotifyPlaylist "pl" "Mix" "v1" "" None (Some 2)] 3 1 (Some 2).

Lemma Playlists_page_witness : exPlaylists exRig = (Ok exPlaylistsPage, exRig) ∧ 1 < 2 < Page_Total exPlaylistsPage.
Proof.
  assert (exPlaylists exRig = (Ok exPlaylistsPage, exRig)) as Hrun by (vm_compute; reflexivity).
  split; [exact Hrun|].
  destruct (Playlists_page _ (λ _, 0) exClient "hash" 1 10 exRig exPlaylistsPage exRig Hrun) as (_ & _ & _ & _ & H).
  exact H.
Defined.

(** The stored token of [exConnected] has expired; Spotify issues a new one and
    then answers 404. *)
Definition exToken : json :=
  JObject [("access_token", JString "new"); ("token_type", JString "bearer"); ("expires_in", JInt 3600)].
Definition exRefreshed : Tokens := MkTokens "new" "refresh" (1000 + 3600 * Second) "scope".
Definition exGone : error := SpotifyProviderError 404 0 false.
Definition exFail {W} (conn : Connection) : M W error unit := λ w, (Err exGone, w).

