(* ===== verification/Imports.v ===== *)
(** internal/spotify/imports.go: importing a playlist.  A request and its River
    job are enqueued together; the job reads a snapshot and publishes it in one
    transaction; a failure leaves only a controlled code. *)
From S2P Require Import Prelude GoStrings Errors Json Http Models SpotifyTypes Database TransferStore SpotifyStore SpotifyClient.
Local Open Scope string_scope.
Local Open Scope list_scope.
Local Open Scope Z_scope.
Local Open Scope go_scope.

Record ImportStatus : Type := MkImportStatus {
  ImportStatus_ID : string;
  ImportStatus_PlaylistID : string;
  ImportStatus_State : string;
  ImportStatus_ErrorCode : string;
}.

Record Snapshot : Type := MkSnapshot {
  Snapshot_ImportID : string;
  Snapshot_PlaylistID : string;
  Snapshot_SnapshotID : string;
  Snapshot_Name : string;
  Snapshot_SpotifyURL : string;
  Snapshot_Total : Z;
  Snapshot_CreatedAt : Z;
  Snapshot_Offset : Z;
  Snapshot_NextOffset : option Z;
  Snapshot_Items : list Entry;
}.

(** [j.state::text]. *)
Definition jobStateText (s : JobState) : string :=
  match s with
  | JobAvailable => "available" | JobPending => "pending" | JobRunning => "running"
  | JobRetryable => "retryable" | JobScheduled => "scheduled" | JobCancelled => "cancelled"
  | JobCompleted => "completed" | JobDiscarded => "discarded"
  end.

(** ** The statements *)

(** An import whose River job is still to be worked. *)
Definition importActive (db : DB) (row : ImportRow) : bool :=
  match river_job db !! imp_river_job_id row with Some job => job_active (job_state job) | None => false end.

Definition activeImports (hash : string) (db : DB) : list (string * ImportRow) :=
  filter (λ kv : string * ImportRow, imp_session_hash kv.2 = hash ∧ importActive db kv.2 = true)
    (map_to_list (spotify_imports db)).

Definition selectActiveImport (hash playlistID : string) (now : Z) (db : DB) : option string :=
  fst <$> head (filter (λ kv : string * ImportRow, imp_playlist_id kv.2 = playlistID) (activeImports hash db)).

Definition countActiveImports (hash : string) (now : Z) (db : DB) : Z := len (activeImports hash db).

Definition insertImport (id hash playlistID : string) (jobID now : Z) (db : DB) : result DB :=
  match spotify_imports db !! id, spotify_connections db !! hash with
  | Some _, _ => Err (DatabaseError "unique_violation")
  | None, None => Err (DatabaseError "foreign_key_violation")
  | None, Some _ => Ok (set_imports <[id := MkImportRow hash playlistID jobID "" now]> db)
  end.

Definition selectImport (id : string) (now : Z) (db : DB) : option ImportRow :=
  row ← spotify_imports db !! id;
  conn ← spotify_connections db !! imp_session_hash row;
  if now <? conn_expires_at conn then Some row else None.

Definition importStatus (hash id : string) (now : Z) (db : DB) : option ImportStatus :=
  row ← selectImport id now db;
  if bool_decide (imp_session_hash row = hash) then
    let state :=
      match spotify_snapshots db !! id with
      | Some _ => "completed"
      | None => match river_job db !! imp_river_job_id row with
                | Some job => jobStateText (job_state job)
                | None => "expired"
                end
      end in
    Some (MkImportStatus id (imp_playlist_id row) state (imp_error_code row))
  else None.

(** [ON CONFLICT (import_id) DO NOTHING]: whether a row was inserted. *)
Definition insertSnapshot (id : string) (row : SnapshotRow) (now : Z) (db : DB) : result (bool * DB) :=
  if snap_item_count row <? 0 then Err (DatabaseError "check_violation") else
  match spotify_snapshots db !! id with
  | Some _ => Ok (false, db)
  | None =>
      match spotify_imports db !! id with
      | None => Err (DatabaseError "foreign_key_violation")
      | Some _ => Ok (true, set_snapshots <[id := row]> db)
      end
  end.

Definition insertSnapshotEntry (id : string) (e : Entry) (now : Z) (db : DB) : result DB :=
  if negb (check_position (Entry_Position e)) then Err (DatabaseError "check_violation") else
  match spotify_snapshots db !! id, default ∅ (spotify_snapshot_entries db !! id) !! Entry_Position e with
  | None, _ => Err (DatabaseError "foreign_key_violation")
  | Some _, Some _ => Err (DatabaseError "unique_violation")
  | Some _, None =>
      Ok (set_snapshot_entries
            (λ t, <[id := <[Entry_Position e := marshalEntry e]> (default ∅ (t !! id))]> t) db)
  end.

Definition setCode (code : string) (row : ImportRow) : ImportRow :=
  MkImportRow (imp_session_hash row) (imp_playlist_id row) (imp_river_job_id row) code (imp_created_at row).
Definition setErrorCode (id code : string) (now : Z) (db : DB) : result DB :=
  Ok (set_imports (alter (setCode code) id) db).

(** ** The importer *)

Section importer.
Context `{AEAD} {R : Type} (net : Request → M R error Response) (clk : R → Z) (client : Client).
Abbreviation Mw := (M (world R) error).

Definition Enqueue (freshID hash playlistID : string) : Mw string :=
  with_tx (
    owner ← tx_query (selectConnection hash);
    match owner with
    | None => raise SpotifyErrNoConnection
    | Some _ =>
        existing ← tx_query (selectActiveImport hash playlistID);
        match existing with
        | Some id => commit ;; mret id
        | None =>
            active ← tx_query (countActiveImports hash);
            if 10 <=? active then raise ErrTooManyImports else
            jobID ← tx_stmt (λ _ db, Ok (insert_job "spotify_playlist_import" freshID 5 db));
            tx_exec (insertImport freshID hash playlistID jobID) ;;
            commit ;; mret freshID
        end
    end).

Definition Status (hash id : string) : Mw ImportStatus :=
  row ← pool_query (importStatus hash id);
  match row with None => raise ErrImportNotFound | Some status => mret status end.

(** [position >= offset ORDER BY position LIMIT limit]. *)
Definition selectSnapshotPage (id : string) (offset limit now : Z) (db : DB) : list json :=
  (take (Z.to_nat limit) (filter (λ p : Z * json, offset ≤ p.1)
     (ordered (default ∅ (spotify_snapshot_entries db !! id))))).*2.

Definition ReadPage (hash id : string) (offset limit : Z) : Mw Snapshot :=
  with_tx (
    row ← tx_query (selectSnapshot id hash);
    match row with
    | None => raise ErrImportNotFound
    | Some snap =>
        bodies ← tx_query (selectSnapshotPage id offset limit);
        items ← lift (mapResult unmarshalEntry bodies);
        let next := offset + len items in
        commit ;;
        mret (MkSnapshot id (snap_playlist_id snap) (snap_snapshot_id snap) (snap_name snap) (snap_spotify_url snap)
                (snap_item_count snap) (snap_created_at snap) offset
                (if next <? snap_item_count snap then Some next else None) items)
    end).

Fixpoint sendEntries (id : string) (entries : list Entry) : Mw unit :=
  match entries with
  | [] => mret tt
  | e :: es => tx_exec (insertSnapshotEntry id e) ;; sendEntries id es
  end.

Definition saveSnapshot (id hash : string) (playlist : SpotifyPlaylist) (entries : list Entry) : Mw unit :=
  with_tx (
    owner ← tx_query (selectConnection hash);
    match owner with
    | None => raise SpotifyErrNoConnection
    | Some _ =>
        inserted ← tx_stmt (λ now, insertSnapshot id
          (MkSnapshotRow (SpotifyPlaylist_ID playlist) (SpotifyPlaylist_SnapshotID playlist)
             (SpotifyPlaylist_Name playlist) (SpotifyPlaylist_URL playlist) (len entries) now) now);
        if negb inserted then commit else
        sendEntries id entries ;;
        tx_exec (setErrorCode id "") ;;
        commit
    end).

Definition Run (id : string) : Mw unit :=
  r ← try (pool_query (λ now db, row ← selectImport id now db; Some (row, spotify_snapshots db !! id)));
  match r with
  | Err _ => raise (ErrorString "import_database_unavailable")
  | Ok None => raise SpotifyErrNoConnection
  | Ok (Some (_, Some _)) => mret tt
  | Ok (Some (row, None)) =>
      read ← ReadSnapshot (netDo net) (netClock clk) client (imp_session_hash row) (imp_playlist_id row);
      let '(playlist, entries) := read in
      saved ← try (saveSnapshot id (imp_session_hash row) playlist entries);
      match saved with
      | Ok _ => mret tt
      | Err err => if errors_Is err SpotifyErrNoConnection then raise err else raise (ErrorString "snapshot_save_failed")
      end
  end.

(** The controlled code of an error, and whether it is permanent. *)
Definition importCode (err : error) : string * bool :=
  let '(code, permanent) :=
    match errors_As_Spotify err with
    | Some (status, _, reconnect) =>
        if reconnect || (status =? 401) then ("reconnect_spotify", true)
        else if status =? 403 then ("playlist_access_denied", true)
        else if status =? 404 then ("playlist_not_found", true)
        else if status =? 429 then ("spotify_rate_limited", false)
        else ("import_failed", false)
    | None => ("import_failed", false)
    end in
  let '(code, permanent) :=
    if errors_Is err SpotifyErrNoConnection then ("connection_expired_or_removed", true) else (code, permanent) in
  let '(code, permanent) :=
    if errors_Is err ErrPlaylistTooLarge then ("playlist_exceeds_import_limit", true) else (code, permanent) in
  if errors_Is err ErrPlaylistChanged then ("playlist_changed_during_import", permanent) else (code, permanent).

(** What the queue is told. *)
Definition importResult (err : error) : work_result :=
  let '(code, permanent) := importCode err in
  if permanent then WorkCancel (ErrorString code) else
  match errors_As_Spotify err with
  | Some (status, retry, _) =>
      if status =? 429 then
        let delay := if retry <? 1 then 30 else retry in
        WorkSnooze (wrap64 (delay * Second))
      else WorkRetry (ErrorString code)
  | None => WorkRetry (ErrorString code)
  end.

Definition ImportWork (id : string) (w : world R) : work_result * world R :=
  match Run id w with
  | (Ok _, w') => (WorkDone, w')
  | (Err err, w') =>
      let '(_, w'') := pool_exec (setErrorCode id (importCode err).1) w' in
      (importResult err, w'')
  end.
End importer.

(** ** What importing promises *)

(** Every published snapshot is whole: it has as many entries as it says, at
    the positions from 0 on; and nothing is left of anything unpublished. *)
Definition snapshot_rows (es : list Entry) : list (Z * json) := (λ e, (Entry_Position e, marshalEntry e)) <$> es.

Record snapshots_ok (db : DB) : Prop := {
  snapshots_whole id snap : spotify_snapshots db !! id = Some snap →
    ∃ es, Entry_Position <$> es = seqZ 0 (snap_item_count snap) ∧
      default ∅ (spotify_snapshot_entries db !! id) = list_to_map (snapshot_rows es);
  snapshots_only id m : spotify_snapshot_entries db !! id = Some m → is_Some (spotify_snapshots db !! id);
}.

(** The codes that a failed import can have. *)
Definition importCodes : list string :=
  ["reconnect_spotify"; "playlist_access_denied"; "playlist_not_found"; "spotify_rate_limited";
   "connection_expired_or_removed"; "playlist_exceeds_import_limit"; "playlist_changed_during_import"; "import_failed"].

(** Imports never outnumber what a session may have. *)
Record imports_ok (db : DB) : Prop := {
  imports_limit hash : len (activeImports hash db) ≤ 10;
  imports_one hash playlistID :
    (length (filter (λ kv : string * ImportRow, imp_playlist_id kv.2 = playlistID) (activeImports hash db)) ≤ 1)%nat;
  imports_jobs id row : spotify_imports db !! id = Some row → imp_river_job_id row < river_next_id db;
}.

(** ** Proofs: publishing a snapshot *)

Fixpoint applyEntries (id : string) (entries : list Entry) (now : Z) (db : DB) : result DB :=
  match entries with
  | [] => Ok db
  | e :: es => let* db' := insertSnapshotEntry id e now db in applyEntries id es now db'
  end.

Definition snapshotRow (playlist : SpotifyPlaylist) (entries : list Entry) (now : Z) : SnapshotRow :=
  MkSnapshotRow (SpotifyPlaylist_ID playlist) (SpotifyPlaylist_SnapshotID playlist)
    (SpotifyPlaylist_Name playlist) (SpotifyPlaylist_URL playlist) (len entries) now.

(** [saveSnapshot] as one update of the database. *)
Definition published (id : string) (playlist : SpotifyPlaylist) (entries : list Entry) (now : Z) (db : DB) : result DB :=
  let* ret := insertSnapshot id (snapshotRow playlist entries now) now db in
  if negb ret.1 then Ok ret.2
  else let* db' := applyEntries id entries now ret.2 in setErrorCode id "" now db'.

Section save_snapshot.
Context {R : Type}.
Implicit Types (D d : DB) (r : R).

Lemma wp_sendEntries id entries D d fs now r Q :
  (∀ fs' d', applyEntries id entries now d = Ok d' → Q (Ok tt) (MkWorld D (Some (d', false)) fs' now r)) →
  (∀ fs' d' e, Q (Err e) (MkWorld D (Some (d', true)) fs' now r)) →
  wp (sendEntries id entries) Q (MkWorld D (Some (d, false)) fs now r).
Proof.
  revert d fs. induction entries as [|e es IH]; intros d fs Hok Herr; cbn [sendEntries]; [by apply Hok|].
  apply wp_bind, wp_tx_exec; [|auto]. intros fs' d' _ Hd'. apply IH; [|done].
  intros fs2 d2 Hd2. apply Hok. by rw /= Hd'.
Qed.

Lemma wp_saveSnapshot id hash playlist entries D fs now r Q :
  (∀ fs' D', published id playlist entries now D = Ok D' → Q (Ok tt) (MkWorld D' None fs' now r)) →
  (∀ fs' e D', D' = D ∨ published id playlist entries now D = Ok D' → Q (Err e) (MkWorld D' None fs' now r)) →
  wp (saveSnapshot id hash playlist entries) Q (MkWorld D None fs now r).
Proof.
  intros Hok Herr. rw /saveSnapshot. apply wp_with_tx; [|auto]. intros fs1.
  apply wp_bind, wp_tx_query; [|intros; apply Herr; auto]. intros fs2 _.
  destruct (selectConnection hash now D); [|apply Herr; auto].
  apply wp_bind, wp_tx_stmt; [|intros; apply Herr; auto]. intros fs3 inserted d1 _ Hins.
  destruct (negb inserted) eqn:Hneg.
  { assert (published id playlist entries now D = Ok d1) as Hp by (by rw /published Hins /= Hneg).
    apply wp_commit; [intros; by apply Hok|]. intros fs4 D' t [->|[_ ->]]; apply Herr; auto. }
  apply wp_bind, wp_sendEntries; [|intros; apply Herr; auto]. intros fs4 d2 Hd2.
  apply wp_bind, wp_tx_exec; [|intros; apply Herr; auto]. intros fs5 d3 _ Hd3.
  assert (published id playlist entries now D = Ok d3) as Hp by (by rw /published Hins /= Hneg Hd2).
  apply wp_commit; [intros; by apply Hok|]. intros fs6 D' t [->|[_ ->]]; apply Herr; auto.
Qed.
End save_snapshot.

Lemma insertSnapshotEntry_inv id e now db db' :
  insertSnapshotEntry id e now db = Ok db' →
  db' = set_snapshot_entries (λ t, <[id := <[Entry_Position e := marshalEntry e]> (default ∅ (t !! id))]> t) db ∧
  default ∅ (spotify_snapshot_entries db !! id) !! Entry_Position e = None.
Proof.
  rw /insertSnapshotEntry. destruct (negb _); [done|]. destruct (spotify_snapshots db !! id); [|done].
  destruct (default ∅ (spotify_snapshot_entries db !! id) !! Entry_Position e) eqn:E; [done|]. by intros [= <-].
Qed.

Lemma applyEntries_tables id es now db db' :
  NoDup (Entry_Position <$> es) →
  applyEntries id es now db = Ok db' →
  (∃ f, db' = set_snapshot_entries f db) ∧
  default ∅ (spotify_snapshot_entries db' !! id) =
    list_to_map (snapshot_rows es) ∪ default ∅ (spotify_snapshot_entries db !! id) ∧
  (∀ id', id' ≠ id → spotify_snapshot_entries db' !! id' = spotify_snapshot_entries db !! id').
Proof.
  revert db. induction es as [|e es IH]; intros db Hnd; cbn [applyEntries].
  { intros [= <-]. split_and!; [by exists Datatypes.id; destruct db|by rw left_id_L|done]. }
  rw fmap_cons NoDup_cons in Hnd. destruct Hnd as [Hnin Hnd].
  destruct (insertSnapshotEntry id e now db) as [db1|] eqn:E; [|done]. cbn [res_bind].
  apply insertSnapshotEntry_inv in E as [-> Hnew]. intros ((f & ->) & Hid & Hother)%IH; [|done].
  cbn in Hid, Hother. split_and!.
  - by eexists (λ t, f _).
  - cbn. rw Hid lookup_insert_eq /=. rw -insert_union_r ?insert_union_l //.
    apply not_elem_of_list_to_map_1. by rw /snapshot_rows -list_fmap_compose.
  - intros id' Hne. cbn. rw Hother //. by rw lookup_insert_ne.
Qed.

Lemma snapshot_rows_fst es : (snapshot_rows es).*1 = Entry_Position <$> es.
Proof. by rw /snapshot_rows -list_fmap_compose. Qed.

(** Publishing the first time. *)
Lemma published_fresh id playlist es now db db' :
  NoDup (Entry_Position <$> es) → published id playlist es now db = Ok db' → spotify_snapshots db !! id = None →
  spotify_snapshots db' = <[id := snapshotRow playlist es now]> (spotify_snapshots db) ∧
  default ∅ (spotify_snapshot_entries db' !! id) =
    list_to_map (snapshot_rows es) ∪ default ∅ (spotify_snapshot_entries db !! id) ∧
  (∀ id', id' ≠ id → spotify_snapshot_entries db' !! id' = spotify_snapshot_entries db !! id') ∧
  spotify_connections db' = spotify_connections db ∧
  (∀ id' row, spotify_imports db !! id' = Some row →
     ∃ row', spotify_imports db' !! id' = Some row' ∧ imp_session_hash row' = imp_session_hash row) ∧
  is_Some (spotify_imports db !! id).
Proof.
  intros Hnd Hp Hnew. rw /published /insertSnapshot Hnew in Hp.
  destruct (_ <? 0) in Hp; [done|]. destruct (spotify_imports db !! id) as [row|] eqn:Himp; [|done]. cbn in Hp.
  destruct (applyEntries _ _ _ _) as [d|] eqn:Ha in Hp; [|done]. cbn in Hp. injection Hp as <-.
  apply applyEntries_tables in Ha as ((f & ->) & Hid & Hother); [|done]. cbn in *. split_and!; eauto.
  intros id' row' Hrow. destruct (decide (id' = id)) as [->|Hne].
  - eexists. rw lookup_alter_eq Hrow /=. done.
  - eexists. by rw lookup_alter_ne.
Qed.

Lemma published_again id playlist es now db db' snap :
  published id playlist es now db = Ok db' → spotify_snapshots db !! id = Some snap → db' = db.
Proof.
  intros Hp Hold. rw /published /insertSnapshot Hold in Hp. destruct (_ <? 0) in Hp; [done|].
  cbn in Hp. by injection Hp as <-.
Qed.

(** The tables that publishing changes. *)
Lemma published_tables id playlist os now db db' :
  published id playlist (snapshotOf os) now db = Ok db' →
  db' = db ∨
  ∃ snap f, is_Some (spotify_imports db !! id) ∧
    db' = set_imports (alter (setCode "") id) (set_snapshot_entries f (set_snapshots <[id := snap]> db)).
Proof.
  intros Hp. destruct (spotify_snapshots db !! id) as [snap|] eqn:Hold; [left; by eapply published_again|right].
  rw /published /insertSnapshot Hold in Hp.
  destruct (_ <? 0) in Hp; [done|]. destruct (spotify_imports db !! id) as [row|] eqn:Himp; [|done]. cbn in Hp.
  destruct (applyEntries _ _ _ _) as [d|] eqn:Ha in Hp; [|done]. cbn in Hp. injection Hp as <-.
  apply applyEntries_tables in Ha as ((f & ->) & _); [|rw snapshotOf_positions; apply NoDup_seqZ]. by eexists _, f.
Qed.

(** Publishing leaves the other imports alone. *)
Lemma published_others id playlist os now db db' id' :
  published id playlist (snapshotOf os) now db = Ok db' → id' ≠ id →
  spotify_imports db' !! id' = spotify_imports db !! id' ∧ spotify_snapshots db' !! id' = spotify_snapshots db !! id' ∧
  spotify_snapshot_entries db' !! id' = spotify_snapshot_entries db !! id'.
Proof.
  intros Hp Hne. destruct (spotify_snapshots db !! id) as [snap|] eqn:Hold; [by rw (published_again _ _ _ _ _ _ _ Hp Hold)|].
  pose proof (published_tables _ _ _ _ _ _ Hp) as Ht.
  apply published_fresh in Hp as (Hsnaps & _ & Hother & _); [|rw snapshotOf_positions; apply NoDup_seqZ|done].
  split_and!; [|by rw Hsnaps lookup_insert_ne|by apply Hother].
  destruct Ht as [->|(snap & f & _ & ->)]; [done|]. cbn. by rw lookup_alter_ne.
Qed.

Lemma published_ok id playlist es now db db' :
  Entry_Position <$> es = seqZ 0 (len es) → snapshots_ok db → published id playlist es now db = Ok db' → snapshots_ok db'.
Proof.
  intros Hpos Hok Hp. destruct (spotify_snapshots db !! id) as [snap|] eqn:Hold.
  { by rw (published_again _ _ _ _ _ _ _ Hp Hold). }
  assert (NoDup (Entry_Position <$> es)) as Hnd by (rw Hpos; apply NoDup_seqZ).
  apply published_fresh in Hp as (Hsnaps & Hid & Hother & _); [|done..]. destruct Hok as [Hwhole Honly].
  assert (default ∅ (spotify_snapshot_entries db !! id) = (∅ : gmap Z json)) as Hempty.
  { destruct (spotify_snapshot_entries db !! id) as [m|] eqn:E; [|done].
    apply Honly in E. rw Hold in E. by destruct E. }
  rw Hempty right_id_L in Hid. split; rw Hsnaps.
  - intros id' snap' [[<- <-]|[Hne Hsnap]]%lookup_insert_Some; [by exists es|].
    rw Hother; [done|]. by apply (Hwhole id').
  - intros id' m Hm. destruct (decide (id' = id)) as [->|Hne]; [rw lookup_insert_eq; eauto|].
    rw lookup_insert_ne //. rw Hother // in Hm. by eapply Honly.
Qed.

Lemma snapshots_ok_restored `{AEAD} hash conn now D : snapshots_ok D → snapshots_ok (restored hash conn now D).
Proof. intros [H1 H2]. by split. Qed.

Lemma snapshots_ok_published id playlist os now D D' :
  snapshots_ok D → published id playlist (snapshotOf os) now D = Ok D' → snapshots_ok D'.
Proof. intros Hok. apply published_ok; [|done]. by rw snapshotOf_positions snapshotOf_length. Qed.

Lemma snapshots_ok_error id code now D D' : snapshots_ok D → setErrorCode id code now D = Ok D' → snapshots_ok D'.
Proof. intros [H1 H2] [= <-]. by split. Qed.

Lemma importCode_elem err : (importCode err).1 ∈ importCodes.
Proof.
  rw /importCode. destruct (errors_As_Spotify err) as [[[status retry] reconnect]|];
    repeat match goal with |- context [if ?b then _ else _] => destruct b end; cbn; rw /importCodes; set_solver +.
Qed.

(** What the statements of the import [id] keep, its job keeps; it acts for the
    session of the import. *)
Section run_facts.
Context `{AEAD} {R : Type} (net : Request → M R error Response) (clk : R → Z) (client : Client).
Context (acts : string → Prop) (T : Z) (P : DB → Prop) (id : string).
Context (Hrestored : ∀ hash conn now D, acts hash → P D → P (restored hash conn now D)).
Context (Himport : ∀ row D, P D → spotify_imports D !! id = Some row → acts (imp_session_hash row)).
Context (Hpublished : ∀ playlist os D D', P D → published id playlist (snapshotOf os) T D = Ok D' → P D').
Context (Herror : ∀ code D D', code ∈ importCodes → P D → setErrorCode id code T D = Ok D' → P D').

Lemma idle_saveSnapshot hash playlist os : keeps (idle T P) (saveSnapshot (R := R) id hash playlist (snapshotOf os)).
Proof.
  intros [D tx fs now r] (Htx & HD & _ & HT). cbn in Htx, HD, HT. subst tx now.
  apply (wp_saveSnapshot id hash playlist (snapshotOf os) D fs T r (λ _ w, idle T P w)).
  - intros fs' D' Hp. by split_and!; [|eapply Hpublished|..].
  - intros fs' e D' [->|Hp]; split_and!; try done. by eapply Hpublished.
Qed.

Lemma idle_ReadSnapshot hash playlistID :
  acts hash → keeps (idle T P) (ReadSnapshot (netDo net) (netClock clk) client hash playlistID).
Proof. intros Ha. apply keeps_ReadSnapshot. intros A path q zero decode. apply keeps_playlistGET. auto. Qed.

Lemma idle_Run : keeps (idle T P) (Run net clk client id).
Proof.
  eapply yields_keeps_bind.
  { apply yields_try, (yields_pool_query _ _ _ (λ r : option (ImportRow * option SnapshotRow),
      match r with Some (row, _) => acts (imp_session_hash row) | None => True end)).
    intros d Hd. rw /selectImport. destruct (spotify_imports d !! id) as [row|] eqn:Hrow; cbn; [|done].
    destruct (spotify_connections d !! imp_session_hash row) as [conn|]; cbn; [|done].
    destruct (_ <? _); [|done]. by eapply Himport. }
  intros [[[row [snap|]]|]|e]; [auto with keeps| |auto with keeps..]. intros Hacts.
  intros w HI. rw bind_unfold. apply (idle_ReadSnapshot (imp_session_hash row) (imp_playlist_id row) Hacts) in HI.
  destruct (ReadSnapshot _ _ _ _ _ w) as [[[playlist entries]|e] w1] eqn:Hrun; cbn [fst snd] in HI; [|done].
  apply ReadSnapshot_entries in Hrun as (os & -> & _). revert w1 HI.
  apply (keeps_bind (idle T P) (try (saveSnapshot id (imp_session_hash row) playlist (snapshotOf os)))).
  - apply keeps_try, idle_saveSnapshot.
  - intros [[]|err]; [auto with keeps|]. destruct (errors_Is _ _); auto with keeps.
Qed.

Lemma idle_ImportWork w : idle T P w → idle T P (ImportWork net clk client id w).2.
Proof.
  intros HI%idle_Run. rw /ImportWork. destruct (Run net clk client id w) as [[[]|err] w1]; [done|].
  pose proof (between_pool_exec (R := R) T P (λ _, True) (setErrorCode id (importCode err).1) (λ D D', Herror _ D D' (importCode_elem err)) w1 HI) as H'.
  by destruct (pool_exec _ w1).
Qed.
End run_facts.

(** ** Proofs: enqueuing *)

Lemma map_to_list_insert_filter {A} (P : string * A → Prop) `{∀ x, Decision (P x)} (m : gmap string A) k v :
  m !! k = None →
  filter P (map_to_list (<[k:=v]> m)) ≡ₚ (if bool_decide (P (k, v)) then [(k, v)] else []) ++ filter P (map_to_list m).
Proof.
  intros Hk. rw map_to_list_insert // filter_cons. by case_decide; [rw bool_decide_true|rw bool_decide_false].
Qed.

Lemma list_filter_ext {A} (P Q : A → Prop) `{∀ x, Decision (P x), ∀ x, Decision (Q x)} (l : list A) :
  (∀ x, x ∈ l → P x ↔ Q x) → filter P l = filter Q l.
Proof.
  induction l as [|x l IH]; [done|]. intros Hl. rw !filter_cons.
  rw (IH (λ y Hy, Hl y (list_elem_of_further _ _ _ Hy))).
  pose proof (Hl x (list_elem_of_here _ _)). by repeat case_decide; tauto || auto.
Qed.

Definition enqueuedImport (freshID hash playlistID : string) (now : Z) (D D' : DB) (id : string) : Prop :=
  is_Some (selectConnection hash now D) ∧
  match selectActiveImport hash playlistID now D with
  | Some existing => D' = D ∧ id = existing
  | None => countActiveImports hash now D < 10 ∧ id = freshID ∧
      insertImport freshID hash playlistID (river_next_id D) now (insert_job "spotify_playlist_import" freshID 5 D).2 = Ok D'
  end.

Lemma wp_Enqueue {R} freshID hash playlistID D fs now (r : R) Q :
  (∀ fs' id D', enqueuedImport freshID hash playlistID now D D' id → Q (Ok id) (MkWorld D' None fs' now r)) →
  (∀ fs' e D', D' = D ∨ (∃ id, enqueuedImport freshID hash playlistID now D D' id) → Q (Err e) (MkWorld D' None fs' now r)) →
  wp (Enqueue freshID hash playlistID) Q (MkWorld D None fs now r).
Proof.
  intros Hok Herr. apply wp_with_tx; [|auto]. intros fs1.
  apply wp_bind, wp_tx_query; [|intros; apply Herr; auto]. intros fs2 _.
  destruct (selectConnection hash now D) eqn:Hconn; [|apply Herr; auto].
  apply wp_bind, wp_tx_query; [|intros; apply Herr; auto]. intros fs3 _.
  destruct (selectActiveImport _ _ _ D) as [id|] eqn:Hex.
  - assert (enqueuedImport freshID hash playlistID now D D id) as He by (by rw /enqueuedImport Hconn Hex).
    apply wp_bind, wp_commit; [intros; by apply Hok|]. intros fs4 D' t [->|[_ ->]]; apply Herr; auto.
  - apply wp_bind, wp_tx_query; [|intros; apply Herr; auto]. intros fs4 _.
    destruct (Z.leb_spec 10 (countActiveImports hash now D)); [apply Herr; auto|].
    apply wp_bind, wp_tx_stmt; [|intros; apply Herr; auto]. intros fs5 jobID d1 _ [= <- <-].
    apply wp_bind, wp_tx_exec; [|intros; apply Herr; auto]. intros fs6 d2 _ Hins.
    assert (enqueuedImport freshID hash playlistID now D d2 freshID) as He by (by rw /enqueuedImport Hconn Hex).
    apply wp_bind, wp_commit; [intros; by apply Hok|]. intros fs7 D' t [->|[_ ->]]; apply Herr; eauto.
Qed.

Lemma insertImport_inv id hash playlistID jobID now db db' :
  insertImport id hash playlistID jobID now db = Ok db' →
  db' = set_imports <[id := MkImportRow hash playlistID jobID "" now]> db ∧ spotify_imports db !! id = None.
Proof.
  rw /insertImport. destruct (spotify_imports db !! id); [done|]. destruct (spotify_connections db !! hash); [|done].
  by intros [= <-].
Qed.

Lemma enqueuedImport_active freshID hash playlistID now D D' hash' :
  imports_ok D →
  insertImport freshID hash playlistID (river_next_id D) now (insert_job "spotify_playlist_import" freshID 5 D).2 = Ok D' →
  ∃ row, imp_playlist_id row = playlistID ∧
    activeImports hash' D' ≡ₚ (if bool_decide (hash' = hash) then [(freshID, row)] else []) ++ activeImports hash' D.
Proof.
  intros Hok [-> Hfresh]%insertImport_inv. cbn in Hfresh.
  set (row := MkImportRow hash playlistID (river_next_id D) "" now). exists row. split; [done|].
  rw /activeImports. cbn [set_imports insert_job snd spotify_imports].
  rw map_to_list_insert_filter //. rw /importActive. cbn [set_imports insert_job snd river_job imp_session_hash imp_river_job_id row].
  rw lookup_insert_eq. cbn [job_state job_active]. f_equiv.
  - destruct (decide (hash' = hash)) as [->|Hne]; [by rw !bool_decide_true|].
    rw !bool_decide_false //. by intros [? _].
  - apply reflexive_eq, list_filter_ext. intros [id' row'] Hin. apply elem_of_map_to_list, (imports_jobs _ Hok) in Hin. cbn.
    rw lookup_insert_ne //. lia.
Qed.

Lemma enqueuedImport_ok freshID hash playlistID now D D' id :
  imports_ok D → enqueuedImport freshID hash playlistID now D D' id → imports_ok D'.
Proof.
  intros Hok [_ He]. destruct (selectActiveImport hash playlistID now D) eqn:Hex; [by destruct He as [-> _]|].
  destruct He as (Hcount & -> & Hins). pose proof Hok as [Hlimit Hone Hjobs]. split.
  - intros hash'. destruct (enqueuedImport_active _ _ _ _ _ _ hash' Hok Hins) as (row & _ & Hperm).
    apply Permutation_length in Hperm. rw Hperm length_app. specialize (Hlimit hash').
    case_bool_decide as Hh; cbn; [|lia]. subst hash'. rw /countActiveImports in Hcount. lia.
  - intros hash' pl. destruct (enqueuedImport_active _ _ _ _ _ _ hash' Hok Hins) as (row & Hpl & Hperm).
    assert (length (filter (λ kv : string * ImportRow, imp_playlist_id kv.2 = pl) (activeImports hash' D')) =
      length (filter (λ kv : string * ImportRow, imp_playlist_id kv.2 = pl)
        ((if bool_decide (hash' = hash) then [(freshID, row)] else []) ++ activeImports hash' D))) as Hlen
      by (apply Permutation_length; by rw Hperm).
    rw Hlen filter_app length_app. specialize (Hone hash' pl). case_bool_decide as Hh; [|cbn; lia].
    rw filter_cons. case_decide as Hp; [|cbn; lia]. cbn in Hp. subst hash' pl.
    rw /selectActiveImport -Hpl in Hex. apply fmap_None in Hex. apply head_None in Hex. rw Hex. cbn. lia.
  - apply insertImport_inv in Hins as [-> _]. cbn. intros id' row' [[_ <-]|[_ Hrow]]%lookup_insert_Some; [cbn; lia|].
    apply Hjobs in Hrow. lia.
Qed.

(** ** Proofs: reading back *)

Lemma seqZ_sorted m n : StronglySorted Z.lt (seqZ m n).
Proof.
  destruct (decide (0 ≤ n)) as [Hn|Hn]; [|rw seqZ_nil; [lia|constructor]].
  revert m. pattern n. apply natlike_ind; [| |done]; [intros m; rw seqZ_nil //; constructor|].
  intros k Hk IH m. rw seqZ_cons; [lia|]. rw Z.pred_succ. constructor; [apply IH|].
  apply Forall_forall. intros z. rw elem_of_seqZ. lia.
Qed.

Lemma snapshot_rows_ordered es :
  Entry_Position <$> es = seqZ 0 (len es) → ordered (list_to_map (snapshot_rows es)) = snapshot_rows es.
Proof.
  intros Hpos. apply ordered_list_to_map; [rw snapshot_rows_fst Hpos; apply NoDup_seqZ|].
  assert (StronglySorted Z.lt (snapshot_rows es).*1) as Hs by (rw snapshot_rows_fst Hpos; apply seqZ_sorted).
  rw /sorted_by. induction (snapshot_rows es) as [|p ps IH]; [constructor|]. rw fmap_cons in Hs.
  apply StronglySorted_inv in Hs as [Hs Hp]. constructor; [by apply IH|].
  rw Forall_fmap in Hp. eapply Forall_impl; [exact Hp|]. cbn. lia.
Qed.

Lemma decode_snapshot_rows es : Forall wf_spotify_entry es →
  mapResult decodeSnapshotEntry (snapshot_rows es).*2 = Ok (fromSpotifyEntry <$> es).
Proof.
  intros Hes. rw /snapshot_rows -list_fmap_compose. apply mapResult_fmap. eapply Forall_impl; [exact Hes|].
  intros e He. cbn. by rw /decodeSnapshotEntry Entry_roundtrip.
Qed.

Lemma LoadSpotifySnapshot_healthy {R} hash id D now (r : R) snap es :
  selectSnapshot id hash now D = Some snap →
  mapResult decodeSnapshotEntry (selectSnapshotEntries id now D) = Ok es →
  (LoadSpotifySnapshot hash id (MkWorld D None [] now r)).1 =
  Ok (MkPlaylist ProviderSpotify (snap_playlist_id snap) (snap_name snap) (snap_spotify_url snap) (snap_snapshot_id snap), es).
Proof.
  intros Hsnap Hes. rw /LoadSpotifySnapshot /with_tx bind_unfold /begin /= /defer_rollback bind_unfold /tx_query /tx_stmt /=.
  rw Hsnap bind_unfold /= bind_unfold /lift Hes. by rw bind_unfold /commit /=.
Qed.

(** What has been published is what the transfer store loads. *)
Lemma published_load {R} id hash playlist entries t D D' imp conn now fs (r : R) :
  spotify_imports D !! id = Some imp → imp_session_hash imp = hash →
  spotify_connections D !! hash = Some conn → now < conn_expires_at conn →
  spotify_snapshots D !! id = None → spotify_snapshot_entries D !! id = None →
  Entry_Position <$> entries = seqZ 0 (len entries) → Forall wf_spotify_entry entries →
  published id playlist entries t D = Ok D' → fs = [] →
  (LoadSpotifySnapshot hash id (MkWorld D' None fs now r)).1 =
  Ok (MkPlaylist ProviderSpotify (SpotifyPlaylist_ID playlist) (SpotifyPlaylist_Name playlist)
        (SpotifyPlaylist_URL playlist) (SpotifyPlaylist_SnapshotID playlist),
      fromSpotifyEntry <$> entries).
Proof.
  intros Himp Hhash Hconn Hnow Hnone Hempty Hpos Hwf Hp ->.
  assert (NoDup (Entry_Position <$> entries)) as Hnd by (rw Hpos; apply NoDup_seqZ).
  apply published_fresh in Hp as (Hsnaps & Hid & _ & Hconns & Himps & _); [|done..].
  destruct (Himps id imp Himp) as (imp' & Himp' & Hhash').
  rw Hempty right_id_L in Hid. cbn [default] in Hid.
  apply (LoadSpotifySnapshot_healthy hash id D' now _ (snapshotRow playlist entries t)).
  - rw /selectSnapshot Hsnaps lookup_insert_eq Himp'. cbn. rw bool_decide_true; [congruence|].
    rw Hconns Hhash' Hhash Hconn. cbn. by rw (proj2 (Z.ltb_lt _ _) Hnow).
  - rw /selectSnapshotEntries Hid snapshot_rows_ordered //. by apply decode_snapshot_rows.
Qed.

(** ** Properties *)

(** C8: a snapshot is published whole or not at all: whatever Spotify answers
    and whatever database calls fail, after an attempt of the import job every
    published snapshot has exactly the entries it announces, at the positions
    0, 1, 2 and so on, and no entry belongs to an unpublished one. *)
Theorem ImportWork_publishes_whole `{AEAD} {R} (net : Request → M R error Response) clk client id (w : world R) :
  w_tx w = None → snapshots_ok (w_db w) →
  let w' := (ImportWork net clk client id w).2 in
  w_tx w' = None ∧ snapshots_ok (w_db w').
Proof.
  intros Htx Hok. assert (idle (w_now w) snapshots_ok w) as Hw by by split_and!.
  enough (idle (w_now w) snapshots_ok (ImportWork net clk client id w).2) as (? & ? & _) by done.
  apply (idle_ImportWork net clk client (λ _, True)); [auto using snapshots_ok_restored|done| | |done].
  - intros *. apply snapshots_ok_published.
  - intros code D D' _. apply snapshots_ok_error.
Qed.

(** What was imported is what a transfer reads: a snapshot that has been
    saved is loaded by the transfer store, entry by entry and in order, as long
    as its session lives. *)
Theorem saveSnapshot_LoadSpotifySnapshot {R} id hash playlist entries (w w' : world R) imp conn now :
  w_tx w = None →
  spotify_imports (w_db w) !! id = Some imp → imp_session_hash imp = hash →
  spotify_connections (w_db w) !! hash = Some conn → now < conn_expires_at conn →
  spotify_snapshots (w_db w) !! id = None → spotify_snapshot_entries (w_db w) !! id = None →
  Entry_Position <$> entries = seqZ 0 (len entries) → Forall wf_spotify_entry entries →
  saveSnapshot id hash playlist entries w = (Ok tt, w') →
  (LoadSpotifySnapshot hash id (MkWorld (w_db w') None [] now (w_remote w'))).1 =
  Ok (MkPlaylist ProviderSpotify (SpotifyPlaylist_ID playlist) (SpotifyPlaylist_Name playlist)
        (SpotifyPlaylist_URL playlist) (SpotifyPlaylist_SnapshotID playlist),
      fromSpotifyEntry <$> entries).
Proof.
  destruct w as [D tx fs t r]. cbn [w_tx w_db]. intros -> Himp Hhash Hconn Hnow Hnone Hempty Hpos Hwf Hsave.
  eapply (published_load id hash playlist entries t D); try done.
  refine (wp_run _ (λ res w', res = Ok tt → published _ _ _ _ _ = Ok (w_db w')) _ _ _ _ Hsave eq_refl).
  by apply wp_saveSnapshot.
Qed.

(** Enqueuing respects the limits, whatever fails: a session never has more
    than ten active imports, nor two of one playlist. *)
Theorem Enqueue_limits {R} freshID hash playlistID (w : world R) :
  w_tx w = None → imports_ok (w_db w) →
  imports_ok (w_db (Enqueue freshID hash playlistID w).2).
Proof.
  destruct w as [D tx fs now r]. cbn [w_tx w_db]. intros -> Hok.
  apply (wp_Enqueue freshID hash playlistID D fs now r (λ _ w', imports_ok (w_db w'))).
  - intros fs' id D' He. by eapply enqueuedImport_ok.
  - intros fs' e D' [->|[id He]]; [done|by eapply enqueuedImport_ok].
Qed.


(** Once a snapshot is published the job is over: further deliveries of it
    report success without asking Spotify again or changing the database. *)
Theorem ImportWork_published_noop `{AEAD} {R} (net : Request → M R error Response) clk client id D now (r : R) imp snap :
  selectImport id now D = Some imp → spotify_snapshots D !! id = Some snap →
  ImportWork net clk client id (MkWorld D None [] now r) = (WorkDone, MkWorld D None [] now r).
Proof.
  intros Himp Hsnap. rw /ImportWork /Run bind_unfold /try /pool_query /=. by rw Himp Hsnap.
Qed.

(** ** Concrete inputs *)

(** The connected session of [exConnected] imports the playlist that the rig
    serves. *)
Definition exNet (req : Request) : M unit error Response :=
  λ w, (Ok (if bool_decide (req_method req = "POST") then MkResponse 200 "" (Some exToken) else rig_respond req), w).
Definition exImportDB : DB := w_db (Enqueue "imp1" exHash1 "pl" (MkWorld (w_db exConnected) None [] 8 tt)).2.
Definition exImport : world unit := MkWorld exImportDB None [] 9 tt.
Definition exImported : world unit := (ImportWork exNet (λ _, 0) exClient "imp1" exImport).2.

Lemma empty_imports_ok db : spotify_imports db = ∅ → imports_ok db.
Proof.
  intros H. assert (∀ hash, activeImports hash db = []) as Ha by (intros hash; by rw /activeImports H map_to_list_empty).
  split; intros *; rw ?Ha ?H; [done|cbn; lia|by rw lookup_empty].
Qed.

Lemma empty_snapshots_ok db : spotify_snapshots db = ∅ → spotify_snapshot_entries db = ∅ → snapshots_ok db.
Proof. intros Hs He. split; intros *; rw ?Hs ?He lookup_empty; done. Qed.

Lemma Enqueue_limits_witness :
  imports_ok (w_db (Enqueue "imp1" exHash1 "pl" (MkWorld (w_db exConnected) None [] 8 tt)).2) ∧
  (Enqueue "imp1" exHash1 "pl" (MkWorld (w_db exConnected) None [] 8 tt)).1 = Ok "imp1".
Proof.
  split; [|vm_compute; reflexivity].
  apply (Enqueue_limits "imp1" exHash1 "pl" (MkWorld (w_db exConnected) None [] 8 tt)); [reflexivity|].
  apply empty_imports_ok. vm_compute. reflexivity.
Defined.

Lemma ImportWork_publishes_whole_witness :
  (ImportWork exNet (λ _, 0) exClient "imp1" exImport).1 = WorkDone ∧ snapshots_ok (w_db exImported) ∧
  is_Some (spotify_snapshots (w_db exImported) !! "imp1").
Proof.
  split; [vm_compute; reflexivity|]. split; [|vm_compute; eauto].
  apply (ImportWork_publishes_whole exNet (λ _, 0) exClient "imp1" exImport eq_refl).
  apply empty_snapshots_ok; vm_compute; reflexivity.
Defined.

Definition exSnapshotEntries : list Entry := snapshotOf [exOccurrence "a"; exOccurrence "b"].
Definition exSpotifyPlaylist : SpotifyPlaylist := MkSpotifyPlaylist "pl" "Mix" "v1" "" None (Some 2).

Lemma exSnapshotEntries_wf : Forall wf_spotify_entry exSnapshotEntries.
Proof.
  assert (∀ z, z = 0 ∨ z = 1 → is_int z) as Hint by (rw /is_int /min_int /max_int; lia).
  change (Forall wf_spotify_entry [entry (exOccurrence "a") 0; entry (exOccurrence "b") 1]).
  constructor; [|constructor; [|constructor]].
  all: rw /wf_spotify_entry; split_and!.
  1, 13: apply Hint; vm_compute; auto.
  1, 12: intros s [=].
  5, 15: constructor.
  6, 15: apply Hint; by left.
  all: vm_compute; reflexivity.
Qed.

Lemma saveSnapshot_LoadSpotifySnapshot_witness :
  (LoadSpotifySnapshot exHash1 "imp1"
     (MkWorld (w_db (saveSnapshot "imp1" exHash1 exSpotifyPlaylist exSnapshotEntries exImport).2) None [] 10 tt)).1 =
  Ok (MkPlaylist ProviderSpotify "pl" "Mix" "" "v1", fromSpotifyEntry <$> exSnapshotEntries).
Proof.
  assert ((saveSnapshot "imp1" exHash1 exSpotifyPlaylist exSnapshotEntries exImport).1 = Ok tt) as Hrun by (vm_compute; reflexivity).
  destruct (spotify_imports (w_db exImport) !! "imp1") as [imp|] eqn:Himp; [|exfalso; revert Himp; vm_compute; discriminate].
  destruct (spotify_connections (w_db exImport) !! exHash1) as [conn|] eqn:Hconn; [|exfalso; revert Hconn; vm_compute; discriminate].
  assert (imp_session_hash imp = exHash1) as Hhash.
  { assert (imp_session_hash <$> spotify_imports (w_db exImport) !! "imp1" = Some exHash1) as H by (vm_compute; reflexivity).
    rw Himp in H. by injection H. }
  assert (conn_expires_at conn = 1000) as Hexp.
  { assert (conn_expires_at <$> spotify_connections (w_db exImport) !! exHash1 = Some 1000) as H by (vm_compute; reflexivity).
    rw Hconn in H. by injection H. }
  apply (saveSnapshot_LoadSpotifySnapshot "imp1" exHash1 exSpotifyPlaylist exSnapshotEntries exImport
    (saveSnapshot "imp1" exHash1 exSpotifyPlaylist exSnapshotEntries exImport).2 imp conn 10 eq_refl Himp Hhash Hconn);
    [lia|vm_compute; reflexivity|vm_compute; reflexivity|vm_compute; reflexivity|apply exSnapshotEntries_wf|exact (run_pair _ _ _ Hrun)].
Defined.

Lemma ImportWork_published_noop_witness :
  ImportWork exNet (λ _, 0) exClient "imp1" (MkWorld (w_db exImported) None [] 10 tt) =
  (WorkDone, MkWorld (w_db exImported) None [] 10 tt).
Proof.
  destruct (selectImport "imp1" 10 (w_db exImported)) as [imp|] eqn:Himp; [|exfalso; revert Himp; vm_compute; discriminate].
  destruct (spotify_snapshots (w_db exImported) !! "imp1") as [snap|] eqn:Hsnap; [|exfalso; revert Hsnap; vm_compute; discriminate].
  exact (ImportWork_published_noop exNet (λ _, 0) exClient "imp1" (w_db exImported) 10 tt imp snap Himp Hsnap).
Defined.

(** When the reply to the commit of a snapshot is lost, the import is completed
    and says that it has failed; the next delivery of the job, which reports
    success, leaves it at that. *)
Definition exLost : world unit :=
  (ImportWork exNet (λ _, 0) exClient "imp1" (MkWorld exImportDB None (replicate 23 Healthy ++ [LosesReply "reset"]) 9 tt)).2.

Example ImportWork_lost_reply :
  let '(res, w) := ImportWork exNet (λ _, 0) exClient "imp1" (MkWorld (w_db exLost) None [] 10 tt) in
  res = WorkDone ∧
  (Status exHash1 "imp1" (MkWorld (w_db w) None [] 11 tt)).1 = Ok (MkImportStatus "imp1" "pl" "completed" "import_failed").
Proof. vm_compute. done. Qed.
