(* ===== verification/Importing.v ===== *)
(** The import job with a working database and a Spotify that answers: the
    playlist is read to its end through as many refreshes of the tokens as it
    takes, and published.  SpotifyClient and Imports say what holds of a snapshot
    that is returned and published; here is that one is. *)
From S2P Require Import Prelude GoStrings Errors Json Http Models SpotifyTypes Database TransferStore SpotifyStore SpotifyClient Imports.
Local Open Scope string_scope.
Local Open Scope list_scope.
Local Open Scope Z_scope.

(** ** Reading a playlist that is served as it is *)

Section reading.
Context {W : Type} (http_Do : Request → M W error Response) (clock : W → Z) `{!Store W} (c : Client).
Context (J U : W → Prop) (hash id : string) (p : SpotifyPlaylist) (all : list playlistOccurrence).
Abbreviation L := (len all ≤ maxSnapshotItems).
Context (Hid : validPlaylistID id = true) (Hpid : SpotifyPlaylist_ID p = id) (Hversion : SpotifyPlaylist_SnapshotID p ≠ "").
Context (Hcount : count p = Ok (len all)).
Context (Hmeta : runs J U L
  (playlistGET http_Do clock c hash ("/playlists/" +:+ id) [] emptyPlaylist unmarshalSpotifyPlaylist) (λ p', p' = p)).
Context (Hitems : ∀ offset, 0 ≤ offset < len all → runs J U L
  (playlistGET http_Do clock c hash ("/playlists/" +:+ id +:+ "/items") (itemsQuery offset) emptyPage
    (unmarshalProviderPage unmarshalOccurrence))
  (λ page, providerPage_Total page = len all ∧ providerPage_Offset page = offset ∧
     ∃ n, elems (providerPage_Items page) = take n (drop (Z.to_nat offset) all) ∧ (0 < n ≤ 50)%nat)).

Lemma runs_playlist : runs J U L (playlist http_Do clock c hash id) (λ p', p' = p).
Proof.
  rw /playlist Hid. eapply runs_bind; [exact Hmeta|]. intros p' ->.
  destruct (_ || _) eqn:Hbad; [|by apply runs_ret].
  apply orb_true_iff in Hbad as [Hbad|Hbad]; apply bool_decide_eq_true in Hbad; naive_solver.
Qed.

Lemma runs_readItems fuel os :
  os = take (length os) all → (length os ≤ length all)%nat → (length all - length os ≤ fuel)%nat →
  runs J U L (readItems http_Do clock c fuel hash id (len all) (len os) (snapshotOf os)) (λ es, es = snapshotOf all).
Proof.
  revert os. induction fuel as [|fuel IH]; intros os Hos Hle Hfuel; cbn [readItems];
    (destruct (Z.ltb_spec (len os) (len all)) as [Hlt|Hge];
      [|apply runs_ret; enough (os = all) as -> by done; rewrite Hos; apply firstn_all2; lia]); [lia|].
  eapply runs_bind; [by apply (Hitems (len os)); lia|]. intros page (Htotal & Hoff & n & Helems & Hn).
  cbv zeta. rw Htotal Hoff Z.eqb_refl Z.eqb_refl Helems Nat2Z.id. cbn [negb orb].
  set (items := take n (drop (length os) all)).
  assert (0 < length items ≤ 50)%nat as Hitem by (rw /items length_take length_drop; lia).
  assert (length os + length items ≤ length all)%nat as Hsum by (rw /items length_take length_drop; lia).
  match goal with |- context [if ?b then _ else _] => destruct b eqn:Hvalid end; [lia|].
  assert (len os + len items = len (os ++ items)) as -> by (rw length_app; lia).
  rw -snapshotOf_app. apply IH; [|rw length_app; lia|rw length_app; lia].
  rw length_app -take_take_drop -Hos. f_equal. rw /items length_take length_drop.
  destruct (decide (n ≤ length all - length os)%nat).
  - by rw Nat.min_l.
  - rw Nat.min_r; [lia|]. rw !firstn_all2 // length_drop; lia.
Qed.

(** The whole playlist is read, entry by entry. *)
Lemma runs_ReadSnapshot :
  runs J U L (ReadSnapshot http_Do clock c hash id) (λ read, read = (p, snapshotOf all)).
Proof.
  eapply runs_bind; [apply runs_playlist|]. intros ? ->. rw Hcount.
  destruct (Z.ltb_spec (len all) 0); [lia|]. destruct (Z.ltb_spec maxSnapshotItems (len all)); [apply runs_raise; lia|].
  eapply runs_bind; [apply (runs_readItems _ []); [done|cbn; lia|cbn; lia]|]. intros ? ->.
  eapply runs_bind; [apply runs_playlist|]. intros ? ->. rw Hcount Z.eqb_refl bool_decide_false; [naive_solver|].
  by apply runs_ret.
Qed.
End reading.

(** ** A Spotify that answers *)

Section spotify.
Context `{AEAD} `{!AEADLaws} {R : Type} (net : Request → M R error Response) (clk : R → Z) (c : Client).
Context (J : R → Prop) (good : Tokens → Prop).

(** With good tokens the request is answered with a document that decodes to a
    value in [Q]. *)
Definition answers {A} (path : string) (q : list (string * string)) (decode : json → result A) (Q : A → Prop) : Prop :=
  ∀ t r, good t → J r → ∃ retry j a r',
    net (MkRequest "GET" (apiURL c +:+ path) q (bearer (Tokens_AccessToken t)) NoBody) r = (Ok (MkResponse 200 retry (Some j)), r') ∧
    decode j = Ok a ∧ J r' ∧ Q a.

(** Good tokens can be refreshed, and the playlist [id], with the metadata [p]
    and the occurrences [all], not too many, is served from every offset in pages
    of any size. *)
Record serves (id : string) (p : SpotifyPlaylist) (all : list playlistOccurrence) : Prop := {
  serves_id : validPlaylistID id = true ∧ SpotifyPlaylist_ID p = id ∧ SpotifyPlaylist_SnapshotID p ≠ "";
  serves_total : count p = Ok (len all) ∧ len all ≤ maxSnapshotItems;
  serves_strings t : good t → valid_string (Tokens_AccessToken t) ∧ valid_string (Tokens_RefreshToken t) ∧ valid_string (Tokens_Scope t);
  serves_refresh t r : good t → J r → ∃ t' r', Refresh net clk c t r = (Ok t', r') ∧ good t' ∧ J r';
  serves_playlist : answers ("/playlists/" +:+ id) [] unmarshalSpotifyPlaylist (λ p', p' = p);
  serves_items offset : 0 ≤ offset < len all →
    answers ("/playlists/" +:+ id +:+ "/items") (itemsQuery offset) (unmarshalProviderPage unmarshalOccurrence)
      (λ page, providerPage_Total page = len all ∧ providerPage_Offset page = offset ∧
         ∃ n, elems (providerPage_Items page) = take n (drop (Z.to_nat offset) all) ∧ (0 < n ≤ 50)%nat);
}.

Context (id : string) (p : SpotifyPlaylist) (all : list playlistOccurrence) (Hserves : serves id p all).

Lemma useConnection_succeeds {A} (call : Connection → M R error A) (Q : A → Prop) conn r :
  (∀ conn r, good (Connection_Tokens conn) → J r → ∃ a r', call conn r = (Ok a, r') ∧ J r' ∧ Q a) →
  good (Connection_Tokens conn) → J r →
  ∃ conn' a r', useConnection net clk c unchanged call conn r = (Ok (conn', Ok a), r') ∧ J r' ∧ Q a ∧
    good (Connection_Tokens conn') ∧ Connection_Profile conn' = Connection_Profile conn.
Proof.
  intros Hcall Hgood Hr. rw /useConnection bind_unfold /Now. destruct (_ <=? _).
  - destruct (serves_refresh _ _ _ Hserves _ _ Hgood Hr) as (t & r1 & Hrun & Ht & Hr1).
    destruct (Hcall (setTokens t conn) r1 Ht Hr1) as (a & r2 & Ha & Hr2 & HQ).
    exists (setTokens t conn), a, r2. split; [|done]. rw bind_unfold bind_unfold Hrun /=. by rw bind_unfold /try Ha.
  - destruct (Hcall conn r Hgood Hr) as (a & r1 & Ha & Hr1 & HQ).
    exists conn, a, r1. split; [|done]. by rw bind_unfold /= bind_unfold /try Ha.
Qed.

(** The state during the import: nothing has failed, and of the database [D]
    only the tokens of the session may have changed. *)
Definition importing (hash : string) (now : Z) (D : DB) (w : world R) : Prop :=
  ∃ row conn r, w = MkWorld (set_connections <[hash := row]> D) None [] now r ∧ J r ∧
    now < conn_expires_at row ∧ open hash (conn_encrypted_credentials row) = Ok conn ∧ wf_connection conn ∧
    good (Connection_Tokens conn).

Lemma runs_playlistGET {A} L hash now D path q (zero : A) decode (Q : A → Prop) :
  answers path q decode Q →
  runs (importing hash now D) (λ _, True) L (playlistGET (netDo net) (netClock clk) c hash path q zero decode) Q.
Proof.
  intros Hans w (row & conn & r & -> & HJ & Hlive & Hopen & Hwf & Hgood).
  pose (call conn := request net (MkRequest "GET" (apiURL c +:+ path) q (bearer (Tokens_AccessToken (Connection_Tokens conn))) NoBody) zero decode).
  destruct (useConnection_succeeds call Q conn r) as (conn' & a & r' & Hrun & Hr' & HQ & Hgood' & Hprofile); [|done..|].
  { intros conn1 r1 Hgood1 Hr1. destruct (Hans _ _ Hgood1 Hr1) as (retry & j & a & r' & Hnet & Hdec & Hr' & HQ).
    exists a, r'. split; [|done]. rw /call /request /requestWithStatus bind_unfold /try Hnet. cbn. by rw Hdec. }
  assert (wf_connection conn') as Hwf'.
  { destruct (serves_strings _ _ _ Hserves _ Hgood') as (?&?&?). destruct Hwf as (?&?&?&_). by rw /wf_connection Hprofile. }
  assert (selectConnection hash now (set_connections <[hash:=row]> D) = Some row) as Hsel.
  { rw /selectConnection /= lookup_insert_eq /=. by rw (proj2 (Z.ltb_lt _ _) Hlive). }
  set (row' := setCredentials (seal hash conn') now row).
  assert (playlistGET (netDo net) (netClock clk) c hash path q zero decode (MkWorld (set_connections <[hash:=row]> D) None [] now r) =
    (Ok a, MkWorld (set_connections <[hash := row']> D) None [] now r')) as Hget.
  { rw /playlistGET /withConnection /withConnectionChanged bind_unfold. cbn [store_Update PostgresStore].
    rw (Update_healthy hash _ _ _ now _ row conn
      (λ conn, is_remote_useConnection net clk c unchanged _ call conn (λ conn, is_remote_requestWithStatus net _ zero (Some decode) [200])) Hsel Hopen) Hrun /lift.
    do 3 f_equal. rw /restored /set_connections /=. by rw alter_insert_eq. }
  rw /wp Hget. split; [|split; [done|by intros ? [= <-]]].
  exists row', conn', r'. split_and!; try done. cbn. by apply open_seal.
Qed.

Lemma importing_reads hash now D w :
  importing hash now D w →
  ∃ w', ReadSnapshot (netDo net) (netClock clk) c hash id w = (Ok (p, snapshotOf all), w') ∧ importing hash now D w'.
Proof.
  destruct (serves_id _ _ _ Hserves) as (Hid & Hpid & Hversion), (serves_total _ _ _ Hserves) as [Hcount Hlimit].
  intros Hw. pose proof (runs_ReadSnapshot (netDo net) (netClock clk) c (importing hash now D) (λ _, True) hash id p all
    Hid Hpid Hversion Hcount (runs_playlistGET _ hash now D _ _ _ _ _ (serves_playlist _ _ _ Hserves))
    (λ offset Hoff, runs_playlistGET _ hash now D _ _ _ _ _ (serves_items _ _ _ Hserves offset Hoff)) w Hw) as H'.
  rw /wp in H'. destruct (ReadSnapshot _ _ _ _ _ w) as [[read|e] w'].
  - destruct H' as (Hw' & _ & Hread). rw (Hread read eq_refl). by exists w'.
  - destruct H' as (_ & Hup & _). by destruct (Hup I) as [_ []].
Qed.
End spotify.

(** ** Publishing with a working database *)

Lemma applyEntries_succeeds id es now db :
  NoDup (Entry_Position <$> es) → Forall (λ e, check_position (Entry_Position e) = true) es →
  is_Some (spotify_snapshots db !! id) →
  (∀ e, e ∈ es → default ∅ (spotify_snapshot_entries db !! id) !! Entry_Position e = None) →
  ∃ db', applyEntries id es now db = Ok db'.
Proof.
  revert db. induction es as [|e es IH]; intros db Hnd Hpos [snap Hsnap] Hnew; cbn [applyEntries]; [by eexists|].
  rw fmap_cons in Hnd. apply NoDup_cons in Hnd as [Hnin Hnd]. apply Forall_cons in Hpos as [He Hpos].
  rw /insertSnapshotEntry He Hsnap (Hnew e (list_elem_of_here _ _)). cbn [negb res_bind].
  apply IH; [done..|by eexists|]. intros e' He'. cbn. rw lookup_insert_eq /=.
  rw lookup_insert_ne; [|by apply Hnew, list_elem_of_further].
  intros Heq. apply Hnin. rw Heq. by apply list_elem_of_fmap_2.
Qed.

Lemma published_succeeds id playlist os now db :
  is_Some (spotify_imports db !! id) → spotify_snapshots db !! id = None → spotify_snapshot_entries db !! id = None →
  len os ≤ maxSnapshotItems → ∃ db', published id playlist (snapshotOf os) now db = Ok db'.
Proof.
  intros [row Hrow] Hsnap Hent Hlen. rw /published /insertSnapshot Hsnap Hrow. cbn [snap_item_count snapshotRow].
  destruct (Z.ltb_spec (len (snapshotOf os)) 0); [lia|]. cbn.
  destruct (applyEntries_succeeds id (snapshotOf os) now
    (set_snapshots <[id:=snapshotRow playlist (snapshotOf os) now]> db)) as [db' ->]; [..|by eexists].
  - rw snapshotOf_positions. apply NoDup_seqZ.
  - apply Forall_forall. intros e He. apply (list_elem_of_fmap_2 Entry_Position) in He.
    rw snapshotOf_positions in He. apply elem_of_seqZ in He. rw /check_position. rw /maxSnapshotItems in Hlen. lia.
  - cbn. rw lookup_insert_eq. by eexists.
  - intros e _. cbn. by rw Hent.
Qed.

Lemma sendEntries_healthy {R} id es D d d' now (r : R) :
  applyEntries id es now d = Ok d' →
  sendEntries id es (MkWorld D (Some (d, false)) [] now r) = (Ok tt, MkWorld D (Some (d', false)) [] now r).
Proof.
  revert d. induction es as [|e es IH]; intros d; cbn [applyEntries sendEntries]; [by intros [= ->]|].
  destruct (insertSnapshotEntry id e now d) as [d1|] eqn:He; [|done]. cbn [res_bind]. intros Hes.
  rw bind_unfold /tx_exec /tx_stmt /= He. by apply IH.
Qed.

Lemma saveSnapshot_healthy {R} id hash playlist es D D' now (r : R) :
  is_Some (selectConnection hash now D) → spotify_snapshots D !! id = None →
  published id playlist es now D = Ok D' →
  saveSnapshot id hash playlist es (MkWorld D None [] now r) = (Ok tt, MkWorld D' None [] now r).
Proof.
  intros [conn Hconn] Hnone Hp. rw /saveSnapshot /with_tx bind_unfold /begin /= /defer_rollback bind_unfold /tx_query /tx_stmt /=.
  rw Hconn bind_unfold /=. rw /published /insertSnapshot Hnone in Hp. rw /insertSnapshot Hnone.
  cbn [snap_item_count snapshotRow] in *. destruct (len es <? 0); [done|].
  destruct (spotify_imports D !! id); [|done]. cbn in Hp |- *.
  destruct (applyEntries _ _ _ _) as [d|] eqn:Hes in Hp; [|done]. injection Hp as <-.
  rw bind_unfold (sendEntries_healthy _ _ _ _ _ _ _ Hes). by rw bind_unfold.
Qed.

(** ** Properties *)

(** C5: an import completes: once Spotify serves the playlist, in pages of
    whatever size and however often it wants the tokens refreshed, and the
    database works, one attempt of the job publishes the snapshot, and the
    transfer service loads from it every occurrence of the playlist in order. *)
Theorem ImportWork_completes `{AEAD, !AEADLaws} {R} (net : Request → M R error Response) clk c (J : R → Prop) (good : Tokens → Prop)
    importID p all D now (r : R) imp row conn :
  serves net clk c J good (imp_playlist_id imp) p all → Forall wf_spotify_entry (snapshotOf all) → J r →
  spotify_imports D !! importID = Some imp → spotify_snapshots D !! importID = None →
  spotify_snapshot_entries D !! importID = None →
  spotify_connections D !! imp_session_hash imp = Some row → now < conn_expires_at row →
  open (imp_session_hash imp) (conn_encrypted_credentials row) = Ok conn → wf_connection conn → good (Connection_Tokens conn) →
  let '(res, w') := ImportWork net clk c importID (MkWorld D None [] now r) in
  res = WorkDone ∧ J (w_remote w') ∧
  (LoadSpotifySnapshot (imp_session_hash imp) importID (MkWorld (w_db w') None [] now (w_remote w'))).1 =
  Ok (MkPlaylist ProviderSpotify (imp_playlist_id imp) (SpotifyPlaylist_Name p) (SpotifyPlaylist_URL p) (SpotifyPlaylist_SnapshotID p),
      fromSpotifyEntry <$> snapshotOf all).
Proof.
  intros Hserves Hentries HJ Himp Hnone Hempty Hrow Hlive Hopen Hwf Hgood.
  assert (importing J good (imp_session_hash imp) now D (MkWorld D None [] now r)) as Hstart.
  { exists row, conn, r. split_and!; try done. f_equal. destruct D. rw /set_connections /=. cbn in Hrow. by rw insert_id. }
  destruct (importing_reads net clk c J good _ p all Hserves _ now D _ Hstart) as (w1 & Hread & row1 & conn1 & r1 & -> & HJ1 & Hlive1 & _).
  set (D1 := set_connections <[imp_session_hash imp := row1]> D) in *.
  destruct (published_succeeds importID p all now D1) as [D2 Hp]; [by rw Himp|done..|apply (serves_total _ _ _ _ _ _ _ _ Hserves)|].
  assert (is_Some (selectConnection (imp_session_hash imp) now D1)) as Hsel.
  { rw /selectConnection /= lookup_insert_eq /= (proj2 (Z.ltb_lt _ _) Hlive1). by eexists. }
  assert (Run net clk c importID (MkWorld D None [] now r) = (Ok tt, MkWorld D2 None [] now r1)) as Hrun.
  { rw /Run bind_unfold /try /pool_query /= /selectImport Himp /= Hrow /= (proj2 (Z.ltb_lt _ _) Hlive) /= Hnone.
    rw bind_unfold Hread. rw bind_unfold /try. by rw (saveSnapshot_healthy _ _ _ _ _ _ _ _ Hsel Hnone Hp). }
  rw /ImportWork Hrun. split; [done|]. split; [done|]. cbn [w_db w_remote].
  rewrite -(proj1 (proj2 (serves_id _ _ _ _ _ _ _ _ Hserves))).
  apply (published_load importID _ p (snapshotOf all) now D1 D2 imp row1); try done.
  - by rw /= lookup_insert_eq.
  - by rw snapshotOf_positions snapshotOf_length.
Qed.

(** ** Concrete inputs *)

(** The rig of SpotifyClient with the import of Imports.v; the tokens have
    expired, and Spotify gives new ones. *)
Definition exGood (t : Tokens) : Prop :=
  valid_string (Tokens_AccessToken t) ∧ valid_string (Tokens_RefreshToken t) ∧ valid_string (Tokens_Scope t).

Definition exServed : SpotifyPlaylist := MkSpotifyPlaylist "pl" "Mix" "v1" "" None (Some 2).

Lemma exNet_answers {A} path q decode (Q : A → Prop) (a : A) :
  (∀ t, ∃ j, rig_respond (MkRequest "GET" (apiURL exClient +:+ path) q (bearer (Tokens_AccessToken t)) NoBody) = MkResponse 200 "" (Some j) ∧
    decode j = Ok a) → Q a → answers exNet exClient (λ _, True) exGood path q decode Q.
Proof.
  intros Hans HQ t r _ _. destruct (Hans t) as (j & Hj & Hdec). exists "", j, a, r. split_and!; try done.
  rw /exNet bool_decide_false //. by rw Hj.
Qed.

Lemma exServes :
  serves exNet (λ _, 0) exClient (λ _, True) exGood "pl" exServed [exOccurrence "a"; exOccurrence "b"].
Proof.
  split.
  - split_and!; [vm_compute; reflexivity|reflexivity|discriminate].
  - split; [reflexivity|]. vm_compute. discriminate.
  - done.
  - intros t r Ht _. eexists _, r. split; [vm_compute; reflexivity|]. split; [|done].
    split_and!; cbn; [vm_compute; reflexivity| |]; try apply Ht; vm_compute; reflexivity.
  - eapply exNet_answers; [|reflexivity]. intros t. eexists. split; [reflexivity|vm_compute; reflexivity].
  - intros offset Hoff. assert (offset = 0 ∨ offset = 1) as [-> | ->] by (cbn in Hoff; lia).
    + eapply exNet_answers; [intros t; eexists; split; [vm_compute; reflexivity|vm_compute; reflexivity]|].
      split_and!; [reflexivity..|]. exists 1%nat. split; [vm_compute; reflexivity|lia].
    + eapply exNet_answers; [intros t; eexists; split; [vm_compute; reflexivity|vm_compute; reflexivity]|].
      split_and!; [reflexivity..|]. exists 1%nat. split; [vm_compute; reflexivity|lia].
Qed.

Lemma ImportWork_completes_witness :
  let '(res, w') := ImportWork exNet (λ _, 0) exClient "imp1" exImport in
  res = WorkDone ∧
  (LoadSpotifySnapshot exHash1 "imp1" (MkWorld (w_db w') None [] 9 (w_remote w'))).1 =
  Ok (MkPlaylist ProviderSpotify "pl" "Mix" "" "v1", fromSpotifyEntry <$> exSnapshotEntries).
Proof.
  destruct (spotify_imports exImportDB !! "imp1") as [imp|] eqn:Himp; [|exfalso; revert Himp; vm_compute; discriminate].
  destruct (spotify_connections exImportDB !! exHash1) as [row|] eqn:Hrow; [|exfalso; revert Hrow; vm_compute; discriminate].
  assert (imp = MkImportRow exHash1 "pl" 1 "" 8) as ->.
  { assert (spotify_imports exImportDB !! "imp1" = Some (MkImportRow exHash1 "pl" 1 "" 8)) as H by (vm_compute; reflexivity).
    rw Himp in H. by injection H. }
  assert (conn_expires_at row = 1000 ∧ open exHash1 (conn_encrypted_credentials row) = Ok exConnection) as [Hexp Hopen].
  { assert ((λ row, (conn_expires_at row, open exHash1 (conn_encrypted_credentials row))) <$> spotify_connections exImportDB !! exHash1
      = Some (1000, Ok exConnection)) as H by (vm_compute; reflexivity).
    rw Hrow in H. by injection H. }
  pose proof (ImportWork_completes exNet (λ _, 0) exClient (λ _, True) exGood "imp1" exServed [exOccurrence "a"; exOccurrence "b"]
    exImportDB 9 tt (MkImportRow exHash1 "pl" 1 "" 8) row exConnection exServes exSnapshotEntries_wf I Himp
    ltac:(vm_compute; reflexivity) ltac:(vm_compute; reflexivity) Hrow ltac:(lia) Hopen exConnection_wf
    ltac:(split_and!; vm_compute; reflexivity)) as H.
  change (MkWorld exImportDB None [] 9 tt) with exImport in H. destruct (ImportWork _ _ _ _ exImport) as [res w'].
  destruct H as (H1 & _ & H2). by split.
Defined.
