(* ===== verification/AppleClient.v ===== *)
(** internal/applemusic/client.go and search.go: the requests to Apple Music.
    The signing of developer tokens (JWT, ES256) is a parameter. *)
From S2P Require Import Prelude GoStrings Errors Json Http.
Local Open Scope string_scope.
Local Open Scope list_scope.
Local Open Scope Z_scope.
Local Open Scope go_scope.

Record ApplePlaylist : Type := MkApplePlaylist {
  ApplePlaylist_ID : string;
  ApplePlaylist_Name : string;
  ApplePlaylist_Description : string;
  ApplePlaylist_URL : string;
}.

Record Song : Type := MkSong {
  Song_ID : string;
  Song_Name : string;
  Song_ArtistName : string;
  Song_AlbumName : string;
  Song_DurationMS : Z;
  Song_ISRC : string;
  Song_URL : string;
}.

Record ApplePage (T : Type) : Type := MkApplePage {
  ApplePage_Data : slice T;
  ApplePage_Next : string;
}.
Arguments MkApplePage {T}.
Arguments ApplePage_Data {T}.
Arguments ApplePage_Next {T}.

(** What a connected account gives: [Connection] of store.go. *)
Record AppleConnection : Type := MkAppleConnection {
  AppleConnection_UserToken : string;
  AppleConnection_Storefront : string;
}.

(** ** Decoding *)

Definition unmarshalApplePlaylist (j : json) : result ApplePlaylist :=
  let* fs := fieldsOf j in
  let* id := unmarshalString (getField fs "id") in
  let* attributes := fieldsOf (getField fs "attributes") in
  let* name := unmarshalString (getField attributes "name") in
  let* description := fieldsOf (getField attributes "description") in
  let* standard := unmarshalString (getField description "standard") in
  let* url := unmarshalString (getField attributes "url") in
  Ok (MkApplePlaylist id name standard url).

(** The listing decodes no description. *)
Definition unmarshalListedPlaylist (j : json) : result ApplePlaylist :=
  let* fs := fieldsOf j in
  let* id := unmarshalString (getField fs "id") in
  let* attributes := fieldsOf (getField fs "attributes") in
  let* name := unmarshalString (getField attributes "name") in
  let* url := unmarshalString (getField attributes "url") in
  Ok (MkApplePlaylist id name "" url).

Definition unmarshalSong (j : json) : result Song :=
  let* fs := fieldsOf j in
  let* id := unmarshalString (getField fs "id") in
  let* attributes := fieldsOf (getField fs "attributes") in
  let* name := unmarshalString (getField attributes "name") in
  let* artistName := unmarshalString (getField attributes "artistName") in
  let* albumName := unmarshalString (getField attributes "albumName") in
  let* durationMS := unmarshalInt (getField attributes "durationInMillis") in
  let* isrc := unmarshalString (getField attributes "isrc") in
  let* url := unmarshalString (getField attributes "url") in
  Ok (MkSong id name artistName albumName durationMS isrc url).

Definition unmarshalApplePage {T} (f : json → result T) (j : json) : result (ApplePage T) :=
  let* fs := fieldsOf j in
  let* data := unmarshalSlice f (getField fs "data") in
  let* next := unmarshalString (getField fs "next") in
  Ok (MkApplePage data next).

(** [results.songs.data]. *)
Definition unmarshalAppleSearch (j : json) : result (slice Song) :=
  let* fs := fieldsOf j in
  let* results := fieldsOf (getField fs "results") in
  let* songs := fieldsOf (getField results "songs") in
  unmarshalSlice unmarshalSong (getField songs "data").

(** ** Developer tokens *)

(** The key and the signature are golang-jwt's and the crypto packages': parsing
    a PEM block and a PKCS#8 key, whether it is an ECDSA key on P-256, and the
    ES256 signature of a header and claims. *)
Class AppleKeys : Type := {
  PrivateKey : Type;
  pem_Decode : string → option string;
  ParsePKCS8PrivateKey : string → option PrivateKey;
  isP256 : PrivateKey → bool;
  SignES256 : PrivateKey → json → json → option string;   (* key, header, claims *)
}.

Record AppleClient `{AppleKeys} : Type := MkAppleClient {
  AppleClient_teamID : string;
  AppleClient_keyID : string;
  AppleClient_privateKey : PrivateKey;
  AppleClient_baseURL : string;
}.

Definition NewAppleClient `{AppleKeys} (teamID keyID privateKeyPEM : string) : result AppleClient :=
  match pem_Decode privateKeyPEM with
  | None => Err (ErrorString "APPLE_PRIVATE_KEY is not PEM")
  | Some block =>
      match ParsePKCS8PrivateKey block with
      | None => Err (ErrorString "APPLE_PRIVATE_KEY is not a PKCS#8 key")
      | Some key =>
          if negb (isP256 key) then Err (ErrorString "APPLE_PRIVATE_KEY must be an ES256 P-256 key")
          else Ok (MkAppleClient _ teamID keyID key "https://api.music.apple.com/v1")
      end
  end.

(** [now] is an instant in nanoseconds; the claims are in seconds, and a token
    is valid for 180 days. *)
Definition developerToken `{AppleKeys} (c : AppleClient) (now : Z) : option string :=
  SignES256 (AppleClient_privateKey c)
    (JObject [("alg", JString "ES256"); ("kid", marshalString (AppleClient_keyID c)); ("typ", JString "JWT")])
    (JObject [("exp", JInt ((now + 180 * 24 * 60 * Minute) / Second)); ("iat", JInt (now / Second));
              ("iss", marshalString (AppleClient_teamID c))]).

(** ** The client *)

(** [ContainsAny(s, "/?&")]. *)
Definition slashQueryAmp : list Z := [47; 63; 38].
Definition validResourceID (id : string) : bool :=
  (0 <? slen id) && (slen id <=? 128) && negb (ContainsAny id slashQueryAmp).
Definition validStorefront (storefront : string) : bool :=
  negb (bool_decide (storefront = "")) && (slen storefront <=? 16) && negb (ContainsAny storefront slashQueryAmp).

Definition Contains (s sub : string) : bool :=
  match String.index 0 sub s with Some _ => true | None => false end.

Section client.
Context {W : Type} (http_Do : Request → M W error Response) (DeveloperToken : W → option string) (baseURL : string).
Abbreviation Mw := (M W error).

Definition requestMethod {A} (method userToken path : string) (query : list (string * string)) (body : option json)
    (zero : A) (destination : option (json → result A)) (accepted : list Z) : Mw A := λ w,
  match DeveloperToken w with
  | None => (Err (ErrorString "could not sign Apple developer token"), w)
  | Some developerToken =>
      let req := MkRequest method (baseURL +:+ path) query
        ([("Authorization", "Bearer " +:+ developerToken); ("Music-User-Token", userToken)] ++
         match body with Some _ => [("Content-Type", "application/json")] | None => [] end)
        match body with Some j => JsonBody j | None => NoBody end in
      (r ← try (http_Do req);
       match r with
       | Err _ => raise (ErrorString "Apple Music request failed")
       | Ok resp =>
           if negb (bool_decide (resp_status resp ∈ accepted)) then
             raise (AppleProviderError (resp_status resp) (retryAfter (resp_retry_after resp)))
           else match destination with
           | None => mret zero
           | Some decode =>
               if resp_status resp =? 204 then mret zero
               else match resp_body resp with
                    | None => raise (ErrorString "invalid Apple Music response")
                    | Some j => match decode j with
                                | Ok a => mret a
                                | Err _ => raise (ErrorString "invalid Apple Music response")
                                end
                    end
           end
       end) w
  end.

Definition appleRequest {A} (userToken path : string) (query : list (string * string)) (zero : A) (decode : json → result A) : Mw A :=
  requestMethod "GET" userToken path query None zero (Some decode) [200].

Definition AppleCreatePlaylist (userToken storefront name description : string) : Mw ApplePlaylist :=
  let name := TrimSpace name in
  let description := TrimSpace description in
  if negb (validStorefront storefront) || bool_decide (name = "") || (255 <? slen name) || (1000 <? slen description)
  then raise (ErrorString "invalid Apple Music playlist input") else
  let body := JObject [("attributes", JObject ([("name", marshalString name)] ++
                omitempty (bool_decide (description = "")) "description" (marshalString description)))] in
  data ← requestMethod "POST" userToken "/me/library/playlists" [("l", storefront)] (Some body) None
           (Some (λ j, let* fs := fieldsOf j in unmarshalSlice unmarshalApplePlaylist (getField fs "data"))) [201];
  match elems data with
  | [p] => if validResourceID (ApplePlaylist_ID p) then mret p else raise (ErrorString "invalid Apple Music playlist response")
  | _ => raise (ErrorString "invalid Apple Music playlist response")
  end.

Definition AppleAddTracks (userToken storefront playlistID : string) (trackIDs : list string) : Mw unit :=
  if negb (validStorefront storefront) || negb (validResourceID playlistID) || (len trackIDs =? 0) || (100 <? len trackIDs)
  then raise (ErrorString "invalid Apple Music playlist tracks request") else
  if negb (forallb validResourceID trackIDs) then raise (ErrorString "invalid Apple Music track ID") else
  let body := JObject [("data", JArray ((λ id, JObject [("id", marshalString id); ("type", JString "songs")]) <$> trackIDs))] in
  requestMethod "POST" userToken ("/me/library/playlists/" +:+ playlistID +:+ "/tracks") [("l", storefront)] (Some body)
    tt None [204].

Definition pageQuery (storefront : string) (offset limit : Z) : list (string * string) :=
  [("offset", Itoa offset); ("limit", Itoa limit); ("l", storefront)].

(** The copied slice is never nil. *)
Definition ApplePlaylists (userToken storefront : string) (offset limit : Z) : Mw (ApplePage ApplePlaylist) :=
  if negb (validStorefront storefront) || (offset <? 0) || (limit <? 1) || (100 <? limit)
  then raise (ErrorString "invalid Apple Music playlist pagination") else
  page ← appleRequest userToken "/me/library/playlists" (pageQuery storefront offset limit) (MkApplePage None "")
           (unmarshalApplePage unmarshalListedPlaylist);
  mret (MkApplePage (Some (elems (ApplePage_Data page))) (ApplePage_Next page)).

Definition PlaylistSongs (userToken storefront playlistID : string) (offset limit : Z) : Mw (ApplePage Song) :=
  if bool_decide (storefront = "") || (slen playlistID =? 0) || (128 <? slen playlistID) ||
     ContainsAny playlistID slashQueryAmp || (offset <? 0) || (limit <? 1) || (100 <? limit)
  then raise (ErrorString "invalid Apple Music playlist request") else
  appleRequest userToken ("/me/library/playlists/" +:+ playlistID +:+ "/tracks") (pageQuery storefront offset limit)
    (MkApplePage None "") (unmarshalApplePage unmarshalSong).

Definition SearchSongs (userToken storefront term : string) (limit : Z) : Mw (list Song) :=
  if bool_decide (storefront = "") || bool_decide (term = "") || (limit <? 1) || (25 <? limit)
  then raise (ErrorString "invalid Apple Music search request") else
  r ← try (appleRequest userToken ("/catalog/" +:+ storefront +:+ "/search")
             [("term", term); ("types", "songs"); ("limit", Itoa limit); ("l", storefront)] None unmarshalAppleSearch);
  match r with
  | Err err => if Contains (errorText err) "HTTP 404" then mret [] else raise err
  | Ok data => mret (elems data)
  end.
End client.
