(* ===== verification/AppleConnections.v ===== *)
(** internal/applemusic/store.go: the encrypted Apple Music connections, one
    per browser session, and the interface through which the adapter and the
    handlers use them.  The cipher is the class [AEAD] of SpotifyStore.v: both
    stores are given the same key. *)
From S2P Require Import Prelude GoStrings Errors Json Models Database SpotifyStore AppleClient.
Local Open Scope string_scope.
Local Open Scope list_scope.
Local Open Scope Z_scope.
Local Open Scope go_scope.

(** The Go interface [applemusic.Store]. *)
Class AppleStore (W : Type) : Type := {
  apple_Save : string → string → AppleConnection → Z → M W error unit;
  apple_Load : string → M W error AppleConnection;
  apple_Delete : string → M W error unit;
}.

Definition marshalAppleConnection (c : AppleConnection) : json := JObject
  [("user_token", marshalString (AppleConnection_UserToken c)); ("storefront", marshalString (AppleConnection_Storefront c))].
Definition unmarshalAppleConnection (j : json) : result AppleConnection :=
  let* fs := fieldsOf j in
  let* userToken := unmarshalString (getField fs "user_token") in
  let* storefront := unmarshalString (getField fs "storefront") in
  Ok (MkAppleConnection userToken storefront).

Definition deleteAppleConnections (doomed : string → ConnectionRow → bool) (db : DB) : DB :=
  set_apple_connections (filter (λ kv : string * ConnectionRow, doomed kv.1 kv.2 = false)) db.

Definition insertAppleConnection (hash encrypted : string) (expires now : Z) (db : DB) : result DB :=
  if negb (check_hash hash) then Err (DatabaseError "check_violation") else
  match apple_connections db !! hash with
  | Some _ => Err (DatabaseError "unique_violation")
  | None => Ok (set_apple_connections <[hash := MkConnectionRow encrypted expires now now]> db)
  end.

(** [... WHERE session_hash=$1 AND expires_at>now()]. *)
Definition selectAppleConnection (hash : string) (now : Z) (db : DB) : option ConnectionRow :=
  row ← apple_connections db !! hash;
  if now <? conn_expires_at row then Some row else None.

Section postgres.
Context `{AEAD} {R : Type}.
Abbreviation Mw := (M (world R) error).

Definition appleSeal (hash : string) (c : AppleConnection) : string := Seal (marshalAppleConnection c) hash.

Definition appleOpen (hash encrypted : string) : result AppleConnection :=
  match Open encrypted hash with
  | None => Err (ErrorString "cannot decrypt Apple Music connection")
  | Some plain => unmarshalAppleConnection plain
  end.

Definition AppleSave (hash old : string) (c : AppleConnection) (expires : Z) : Mw unit :=
  let encrypted := appleSeal hash c in
  with_tx (
    tx_exec (λ now db, Ok (deleteAppleConnections (λ h row, bool_decide (h = old) || (conn_expires_at row <=? now)) db)) ;;
    tx_exec (insertAppleConnection hash encrypted expires) ;;
    commit).

Definition AppleLoad (hash : string) : Mw AppleConnection :=
  row ← pool_query (selectAppleConnection hash);
  match row with
  | None => raise AppleErrNoConnection
  | Some row => lift (appleOpen hash (conn_encrypted_credentials row))
  end.

Definition AppleDelete (hash : string) : Mw unit :=
  pool_exec (λ now db, Ok (deleteAppleConnections (λ h _, bool_decide (h = hash)) db)).

#[export] Instance ApplePostgresStore : AppleStore (world R) := {|
  apple_Save := AppleSave;
  apple_Load := AppleLoad;
  apple_Delete := AppleDelete;
|}.
End postgres.

Definition wf_apple_connection (c : AppleConnection) : Prop :=
  valid_string (AppleConnection_UserToken c) ∧ valid_string (AppleConnection_Storefront c).

Lemma AppleConnection_roundtrip c :
  wf_apple_connection c → unmarshalAppleConnection (marshalAppleConnection c) = Ok c.
Proof.
  intros [H1 H2]. destruct c. cbn in *. rw /unmarshalAppleConnection /marshalAppleConnection.
  cbn [fieldsOf]. by decode_fields.
Qed.

Lemma appleOpen_seal `{AEAD, !AEADLaws} hash c : wf_apple_connection c → appleOpen hash (appleSeal hash c) = Ok c.
Proof. intros Hc. by rw /appleOpen /appleSeal Open_Seal AppleConnection_roundtrip. Qed.

Section facts.
Context `{AEAD} {R : Type}.
Implicit Types (D : DB) (fs : list fault) (r : R).

Definition appleSaved (hash old : string) (c : AppleConnection) (expires now : Z) D : result DB :=
  insertAppleConnection hash (appleSeal hash c) expires now
    (deleteAppleConnections (λ h row, bool_decide (h = old) || (conn_expires_at row <=? now)) D).

Lemma wp_AppleSave hash old c expires D fs now r Q :
  (∀ fs' D', appleSaved hash old c expires now D = Ok D' → Q (Ok tt) (MkWorld D' None fs' now r)) →
  (∀ fs' e D', D' = D ∨ appleSaved hash old c expires now D = Ok D' → Q (Err e) (MkWorld D' None fs' now r)) →
  wp (AppleSave hash old c expires) Q (MkWorld D None fs now r).
Proof.
  intros Hok Herr. apply wp_with_tx; [|auto]. intros fs1.
  apply wp_bind, wp_tx_exec; [|intros; apply Herr; auto]. intros fs2 d1 _ [= <-].
  apply wp_bind, wp_tx_exec; [|intros; apply Herr; auto]. intros fs3 d2 _ Hd2.
  apply wp_commit; [intros; by apply Hok|]. intros fs4 D' t [->|[_ ->]]; apply Herr; auto.
Qed.

(** Without a live row there is no connection, whatever else goes wrong. *)
Lemma AppleLoad_none hash D tx fs now r :
  selectAppleConnection hash now D = None →
  ∃ e fs', AppleLoad hash (MkWorld D tx fs now r) = (Err e, MkWorld D tx fs' now r) ∧
    (fs = [] → e = AppleErrNoConnection).
Proof.
  intros Hnone. rw /AppleLoad bind_unfold /pool_query /next_fault /=.
  destruct fs as [|[] fs]; cbn; rw ?Hnone; eexists _, _; (split; [reflexivity|done]).
Qed.

Lemma insertAppleConnection_inv hash enc expires now db db' :
  insertAppleConnection hash enc expires now db = Ok db' →
  db' = set_apple_connections <[hash := MkConnectionRow enc expires now now]> db ∧ apple_connections db !! hash = None.
Proof. rw /insertAppleConnection. destruct (negb _); [done|]. destruct (apple_connections db !! hash) eqn:E; naive_solver. Qed.
End facts.
