(* ===== verification/Providers.v ===== *)
(** internal/transfer/providers.go: the two clients behind the provider
    interface of the transfer package, with the mapping of their errors. *)
From S2P Require Import Prelude GoStrings Errors Json Http Models Matcher SpotifyTypes Database TransferStore Service Worker SpotifyStore SpotifyClient AppleClient AppleConnections.
Local Open Scope string_scope.
Local Open Scope list_scope.
Local Open Scope Z_scope.

(** ** Errors *)

Definition rateLimited (retry : Z) : error :=
  let retry := wrap64 (retry * Second) in
  RateLimitError (if retry <=? 0 then 30 * Second else retry).

Definition mapSpotifyError (err : error) : error :=
  if errors_Is err SpotifyErrNoConnection then ErrPreviewNotFound else
  match errors_As_Spotify err with
  | Some (status, retry, _) => if status =? 429 then rateLimited retry else err
  | None => err
  end.

Definition mapAppleError (err : error) : error :=
  if errors_Is err AppleErrNoConnection then ErrPreviewNotFound else
  match errors_As_Apple err with
  | Some (status, retry) => if status =? 429 then rateLimited retry else Wrapped "apple_music" err
  | None => Wrapped "apple_music" err
  end.

(** [if err != nil { return ..., mapError(err) }]. *)
Definition mapErr {W A} (mapError : error → error) (m : M W error A) : M W error A := λ w,
  match m w with
  | (Ok a, w') => (Ok a, w')
  | (Err err, w') => (Err (mapError err), w')
  end.

Definition zeroTrack : Track := MkTrack "" "" "" None "" 0 "" ∅ "".
Definition TrackValue (e : PlaylistEntry) : Track :=
  match PlaylistEntry_Track e with None => zeroTrack | Some t => t end.

(** [for start := 0; start < len(ids); start += 100]; the fuel is the number of
    IDs left. *)
Fixpoint batches (fuel : nat) (ids : list string) : list (list string) :=
  match fuel, ids with
  | _, [] => []
  | O, _ => []
  | S fuel, _ => take 100 ids :: batches fuel (drop 100 ids)
  end.

Fixpoint addBatches {W} (add : list string → M W error unit) (bs : list (list string)) : M W error unit :=
  match bs with
  | [] => mret tt
  | b :: bs => add b ;; addBatches add bs
  end.

(** The search term: name and artists, else the ISRC behind [prefix]. *)
Definition searchTerm (prefix : string) (query : TrackQuery) : string :=
  let term := TrimSpace (TrackQuery_Name query +:+ " " +:+ Join (elems (TrackQuery_Artists query)) " ") in
  if bool_decide (term = "") && negb (bool_decide (TrackQuery_ISRC query = "")) then prefix +:+ TrackQuery_ISRC query
  else term.

(** ** Spotify *)

Section spotify.
Context {W : Type} (http_Do : Request → M W error Response) (clock : W → Z) `{!Store W} (client : Client).
Abbreviation Mw := (M W error).

Definition fromSpotifyPlaylist (p : SpotifyPlaylist) : Playlist :=
  MkPlaylist ProviderSpotify (SpotifyPlaylist_ID p) (SpotifyPlaylist_Name p) (SpotifyPlaylist_URL p) (SpotifyPlaylist_SnapshotID p).

Definition Spotify_ListPlaylists (hash : string) (offset limit : Z) : Mw PlaylistPage :=
  page ← mapErr mapSpotifyError (Playlists http_Do clock client hash offset limit);
  mret (MkPlaylistPage (fromSpotifyPlaylist <$> Page_Items page) (Page_Total page) (Page_Offset page) (Page_NextOffset page)).

(** Bounds outside the entries would be a panic. *)
Definition Spotify_ReadPlaylistEntries (hash playlistID : string) (offset limit : Z) : Mw EntryPage :=
  read ← mapErr mapSpotifyError (ReadSnapshot http_Do clock client hash playlistID);
  let '(_, entries) := read in
  let offset := if len entries <? offset then len entries else offset in
  let end_ := wrap64 (offset + limit) in
  let end_ := if len entries <? end_ then len entries else end_ in
  if (offset <? 0) || (end_ <? offset) then raise (ErrorString "slice bounds out of range") else
  let items := fromSpotifyEntry <$> take (Z.to_nat (end_ - offset)) (drop (Z.to_nat offset) entries) in
  mret (MkEntryPage items (len entries) offset (if end_ <? len entries then Some end_ else None)).

Definition Spotify_SearchTracks (hash : string) (query : TrackQuery) (limit : Z) : Mw (list Track) :=
  let limit := if (limit <? 1) || (50 <? limit) then 10 else limit in
  let term := searchTerm "isrc:" query in
  if bool_decide (term = "") then mret [] else
  tracks ← mapErr mapSpotifyError (SearchTracks http_Do clock client hash term limit);
  mret ((λ item, TrackValue (fromSpotifyEntry item)) <$> tracks).

Definition Spotify_CreatePlaylist (hash : string) (input : CreatePlaylistInput) : Mw Playlist :=
  p ← mapErr mapSpotifyError
        (CreatePlaylist http_Do clock client hash (CreatePlaylistInput_Name input) (CreatePlaylistInput_Description input));
  mret (fromSpotifyPlaylist p).

Definition Spotify_AddTracksToPlaylist (hash playlistID : string) (trackIDs : list string) : Mw unit :=
  mapErr mapSpotifyError
    (addBatches (AddTracksToPlaylist http_Do clock client hash playlistID) (batches (length trackIDs) trackIDs)).

Definition SpotifyProvider : Provider W :=
  MkProvider W ProviderSpotify Spotify_ListPlaylists Spotify_ReadPlaylistEntries Spotify_SearchTracks
    Spotify_CreatePlaylist Spotify_AddTracksToPlaylist.
End spotify.

(** ** Apple Music *)

Section apple.
Context {W : Type} (http_Do : Request → M W error Response) (DeveloperToken : W → option string) (baseURL : string).
Context `{!AppleStore W}.
Abbreviation Mw := (M W error).

Definition withAccount {A} (hash : string) (use : AppleConnection → Mw A) : Mw A :=
  mapErr mapAppleError (connection ← apple_Load hash; use connection).

(** [next] names where the listing goes on, but the page says how far it got. *)
Definition applePlaylistPage (offset : Z) (page : ApplePage ApplePlaylist) : PlaylistPage :=
  let items := (λ p, MkPlaylist ProviderAppleMusic (ApplePlaylist_ID p) (ApplePlaylist_Name p) (ApplePlaylist_URL p) "") <$>
                 elems (ApplePage_Data page) in
  MkPlaylistPage items (offset + len items) offset
    (if bool_decide (ApplePage_Next page ≠ "") then Some (offset + len items) else None).

Definition Apple_ListPlaylists (hash : string) (offset limit : Z) : Mw PlaylistPage :=
  withAccount hash (λ connection,
    page ← ApplePlaylists http_Do DeveloperToken baseURL (AppleConnection_UserToken connection) (AppleConnection_Storefront connection) offset limit;
    mret (applePlaylistPage offset page)).

Definition appleTrack (song : Song) : Track :=
  MkTrack ProviderAppleMusic (Song_ID song) (Song_Name song) (Some [Song_ArtistName song]) (Song_AlbumName song)
    (Song_DurationMS song) (Song_ISRC song) {[ ProviderAppleMusic := Song_ID song ]} (Song_URL song).

Definition Apple_ReadPlaylistEntries (hash playlistID : string) (offset limit : Z) : Mw EntryPage :=
  withAccount hash (λ connection,
    page ← PlaylistSongs http_Do DeveloperToken baseURL (AppleConnection_UserToken connection) (AppleConnection_Storefront connection)
             playlistID offset limit;
    let items := imap (λ idx song, MkPlaylistEntry (offset + Z.of_nat idx) (Some (appleTrack song)) None false false 0)
                   (elems (ApplePage_Data page)) in
    mret (MkEntryPage items (offset + len items) offset
            (if bool_decide (ApplePage_Next page ≠ "") then Some (offset + len items) else None))).

Definition Apple_SearchTracks (hash : string) (query : TrackQuery) (limit : Z) : Mw (list Track) :=
  withAccount hash (λ connection,
    let term := searchTerm "" query in
    if bool_decide (term = "") then mret [] else
    songs ← SearchSongs http_Do DeveloperToken baseURL (AppleConnection_UserToken connection) (AppleConnection_Storefront connection)
              term limit;
    mret (appleTrack <$> songs)).

Definition Apple_CreatePlaylist (hash : string) (input : CreatePlaylistInput) : Mw Playlist :=
  withAccount hash (λ connection,
    p ← AppleCreatePlaylist http_Do DeveloperToken baseURL (AppleConnection_UserToken connection) (AppleConnection_Storefront connection)
          (CreatePlaylistInput_Name input) (CreatePlaylistInput_Description input);
    mret (MkPlaylist ProviderAppleMusic (ApplePlaylist_ID p) (ApplePlaylist_Name p) (ApplePlaylist_URL p) "")).

Definition Apple_AddTracksToPlaylist (hash playlistID : string) (trackIDs : list string) : Mw unit :=
  withAccount hash (λ connection,
    addBatches (AppleAddTracks http_Do DeveloperToken baseURL (AppleConnection_UserToken connection)
                  (AppleConnection_Storefront connection) playlistID)
      (batches (length trackIDs) trackIDs)).

Definition AppleMusicProvider : Provider W :=
  MkProvider W ProviderAppleMusic Apple_ListPlaylists Apple_ReadPlaylistEntries Apple_SearchTracks
    Apple_CreatePlaylist Apple_AddTracksToPlaylist.
End apple.

(** ** Proofs *)

Lemma batches_spec fuel ids : (length ids ≤ fuel)%nat →
  mjoin (batches fuel ids) = ids ∧ Forall (λ b, (0 < length b ≤ 100)%nat) (batches fuel ids).
Proof.
  revert ids. induction fuel as [|fuel IH]; intros ids Hlen.
  { destruct ids; [by split; [|constructor]|cbn in Hlen; lia]. }
  destruct ids as [|id ids]; [by split; [|constructor]|].
  change (batches (S fuel) (id :: ids)) with (take 100 (id :: ids) :: batches fuel (drop 100 (id :: ids))).
  destruct (IH (drop 100 (id :: ids))) as [Hjoin Hsizes]; [rw length_drop; cbn in *; lia|].
  split; [|constructor; [rw length_take; cbn [length]; lia|done]].
  cbn [mjoin list_join]. by rw Hjoin take_drop.
Qed.

Lemma rateLimited_delay retry : 0 ≤ retry ≤ 86400 →
  rateLimited retry = RateLimitError ((if retry =? 0 then 30 else retry) * Second).
Proof.
  intros Hr. rw /rateLimited (seconds_no_overflow _ Hr) /Second. f_equal.
  destruct (Z.leb_spec (retry * 1000000000) 0), (Z.eqb_spec retry 0); lia.
Qed.

(** ** Properties *)

(** C36: a rate limit reaches the queue as the provider meant it: whichever
    provider answers 429, the transfer job is snoozed for its Retry-After, or
    for 30 seconds when it names none, without 64-bit overflow. *)
Theorem rate_limit_snoozes retry reconnect :
  0 ≤ retry ≤ 86400 →
  let delay := (if retry =? 0 then 30 else retry) * Second in
  workError (mapSpotifyError (SpotifyProviderError 429 retry reconnect)) = WorkSnooze delay ∧
  workError (mapAppleError (AppleProviderError 429 retry)) = WorkSnooze delay ∧
  Second ≤ delay ≤ 86400 * Second ∧ is_int delay.
Proof.
  intros Hr delay.
  assert (Second ≤ delay ≤ 86400 * Second) as Hd by (rw /delay /Second; destruct (Z.eqb_spec retry 0); lia).
  assert (workError (rateLimited retry) = WorkSnooze delay) as Hw.
  { rw rateLimited_delay // -/delay /workError /=. destruct (Z.leb_spec delay 0); [|done]. rw /Second in Hd. lia. }
  split_and!; [exact Hw|exact Hw|lia..|]. rw /Second in Hd. rw /is_int /min_int /max_int. lia.
Qed.

(** Tracks are added in requests of at most 100, in order and without
    gaps, for both providers. *)
Theorem AddTracks_batches {W} (http_Do : Request → M W error Response) clock `{!Store W} client
    `{!AppleStore W} DeveloperToken baseURL hash playlistID trackIDs :
  ∃ bs, mjoin bs = trackIDs ∧ Forall (λ b, (0 < length b ≤ 100)%nat) bs ∧
    Models.AddTracksToPlaylist (SpotifyProvider http_Do clock client) hash playlistID trackIDs =
      mapErr mapSpotifyError (addBatches (SpotifyClient.AddTracksToPlaylist http_Do clock client hash playlistID) bs) ∧
    Models.AddTracksToPlaylist (AppleMusicProvider http_Do DeveloperToken baseURL) hash playlistID trackIDs =
      mapErr mapAppleError (connection ← apple_Load hash;
        addBatches (AppleAddTracks http_Do DeveloperToken baseURL (AppleConnection_UserToken connection)
          (AppleConnection_Storefront connection) playlistID) bs).
Proof.
  exists (batches (length trackIDs) trackIDs). destruct (batches_spec (length trackIDs) trackIDs) as [Hj Hs]; [done|].
  by split_and!.
Qed.

(** A page of a Spotify playlist is the slice of its snapshot that was
    asked for: the entries from [offset] on, at most [limit], with a next
    offset exactly when entries are left; beyond the end it is empty. *)
Theorem Spotify_ReadPlaylistEntries_slice {W} (http_Do : Request → M W error Response) clock `{!Store W} client
    hash playlistID offset limit w p entries w' :
  0 ≤ offset ≤ 1000000 → 1 ≤ limit ≤ 1000 →
  ReadSnapshot http_Do clock client hash playlistID w = (Ok (p, entries), w') →
  Spotify_ReadPlaylistEntries http_Do clock client hash playlistID offset limit w =
  (Ok (MkEntryPage (take (Z.to_nat limit) (drop (Z.to_nat offset) (fromSpotifyEntry <$> entries)))
         (len entries) (Z.min offset (len entries))
         (if offset + limit <? len entries then Some (offset + limit) else None)), w').
Proof.
  intros Ho Hl Hread. rw /Spotify_ReadPlaylistEntries bind_unfold /mapErr Hread.
  apply ReadSnapshot_entries in Hread as (os & -> & _ & Hmax). rw /maxSnapshotItems in Hmax.
  set (entries := snapshotOf os) in *. assert (len entries ≤ 10000) as Hlen by (rw snapshotOf_length; lia). cbv zeta.
  assert ((if len entries <? offset then len entries else offset) = Z.min offset (len entries)) as ->
    by (destruct (Z.ltb_spec (len entries) offset); lia).
  rw wrap64_id; [rw /is_int /min_int /max_int; lia|].
  set (o := Z.min offset (len entries)).
  assert ((if len entries <? o + limit then len entries else o + limit) = Z.min (o + limit) (len entries)) as ->
    by (destruct (Z.ltb_spec (len entries) (o + limit)); lia).
  assert ((o <? 0) || (Z.min (o + limit) (len entries) <? o) = false) as -> by lia.
  assert (take (Z.to_nat (Z.min (o + limit) (len entries) - o)) (drop (Z.to_nat o) entries) =
    take (Z.to_nat limit) (drop (Z.to_nat offset) entries)) as ->.
  { destruct (decide (offset ≤ len entries)).
    - assert (o = offset) as -> by lia. destruct (decide (offset + limit ≤ len entries)); [f_equal; lia|].
      rw !take_ge // length_drop; lia.
    - rw !drop_ge; [lia|lia|]. by rw !take_nil. }
  assert ((if Z.min (o + limit) (len entries) <? len entries then Some (Z.min (o + limit) (len entries)) else None) =
    (if offset + limit <? len entries then Some (offset + limit) else None)) as ->.
  { destruct (Z.ltb_spec (offset + limit) (len entries)), (Z.ltb_spec (Z.min (o + limit) (len entries)) (len entries));
      [f_equal; lia|lia..|done]. }
  by rw -fmap_drop -fmap_take.
Qed.

(** A listing of Apple Music that is empty but names a next page stalls the
    search for the destination playlist: the next offset is the same again, so
    that the search goes on until the job's time is up, whatever the budget. *)
Theorem Apple_empty_page_stalls {R} `{!AppleStore R} DeveloperToken baseURL hash name connection next tokenText (w : world R) budget :
  next ≠ "" → validStorefront (AppleConnection_Storefront connection) = true →
  (∀ r, DeveloperToken r = Some tokenText) → (∀ r, apple_Load hash r = (Ok connection, r)) →
  let response := MkResponse 200 "" (Some (JObject [("data", JArray []); ("next", JString next)])) in
  findPlaylistByName (AppleMusicProvider (always response) DeveloperToken baseURL) budget hash name w =
  (Err DeadlineExceeded, w).
Proof.
  intros Hnext Hstore Hsign Hload response.
  assert (∀ w : world R, remote (Apple_ListPlaylists (always response) DeveloperToken baseURL hash 0 50) w =
    (Ok (MkPlaylistPage [] 0 0 (Some 0)), w)) as Hpage.
  { intros [D tx fs now r]. rw /remote /Apple_ListPlaylists /withAccount /mapErr bind_unfold Hload bind_unfold.
    rw /ApplePlaylists Hstore. cbn [negb orb].
    change ((0 <? 0) || (50 <? 1) || (100 <? 50)) with false. cbv iota.
    assert (unmarshalApplePage unmarshalListedPlaylist (JObject [("data", JArray []); ("next", JString next)]) =
      Ok (MkApplePage (Some []) next)) as Hdecode by reflexivity.
    rw bind_unfold /appleRequest /requestMethod Hsign bind_unfold /try /always /response.
    cbv beta iota zeta. cbn [resp_status resp_body w_remote].
    change (bool_decide (200 ∈ [200])) with true. change (200 =? 204) with false. cbn [negb]. rw Hdecode.
    rw /applePlaylistPage /set_remote. cbn -[bool_decide]. by rw bool_decide_true. }
  rw /findPlaylistByName. induction budget as [|budget IH]; [done|].
  cbn [findPlaylistFrom]. rw bind_unfold. cbn [ListPlaylists AppleMusicProvider]. rw Hpage. exact IH.
Qed.

(** ** Concrete inputs *)

Lemma rate_limit_snoozes_witness :
  workError (mapSpotifyError (SpotifyProviderError 429 7 false)) = WorkSnooze (7 * Second) ∧
  workError (mapAppleError (AppleProviderError 429 0)) = WorkSnooze (30 * Second).
Proof.
  split.
  - apply (rate_limit_snoozes 7 false). lia.
  - apply (rate_limit_snoozes 0 false). lia.
Defined.

Lemma Spotify_ReadPlaylistEntries_slice_witness :
  ∃ w', Spotify_ReadPlaylistEntries rig_Do (λ _, 0) exClient "hash" "pl" 1 1 exRig =
    (Ok (MkEntryPage [fromSpotifyEntry (entry (exOccurrence "b") 1)] 2 1 None), w').
Proof.
  destruct (ReadSnapshot rig_Do (λ _, 0) exClient "hash" "pl" exRig) as [[[p entries]|e] w'] eqn:Hrun;
    [|exfalso; revert Hrun; vm_compute; discriminate].
  exists w'. rw (Spotify_ReadPlaylistEntries_slice rig_Do (λ _, 0) exClient "hash" "pl" 1 1 exRig p entries w' ltac:(lia) ltac:(lia) Hrun).
  assert (entries = [entry (exOccurrence "a") 0; entry (exOccurrence "b") 1]) as ->
    by (revert Hrun; vm_compute; by intros [= _ <- _]).
  reflexivity.
Defined.

#[local] Instance exAppleStore : AppleStore unit := {|
  apple_Save _ _ _ _ := mret tt;
  apple_Load _ := mret (MkAppleConnection "token" "es");
  apple_Delete _ := mret tt;
|}.

Lemma Apple_empty_page_stalls_witness :
  findPlaylistByName (AppleMusicProvider (always (MkResponse 200 "" (Some (JObject [("data", JArray []); ("next", JString "/p")]))))
    (λ _ : unit, Some "jwt") "https://api.music.apple.com/v1") 3 "hash" "Mix" (MkWorld emptyDB None [] 0 tt) =
  (Err DeadlineExceeded, MkWorld emptyDB None [] 0 tt).
Proof.
  apply (Apple_empty_page_stalls (λ _ : unit, Some "jwt") "https://api.music.apple.com/v1" "hash" "Mix"
    (MkAppleConnection "token" "es") "/p" "jwt"); [discriminate|vm_compute; reflexivity|done|done].
Defined.

(** Names that the Spotify client changes or refuses, although the worker looks
    for, or asks for, the name as it is: leading space is trimmed, and 90 bytes
    with the transfer's suffix exceed the limit of 100. *)
Lemma Spotify_name_trimmed {W} (http_Do : Request → M W error Response) clock `{!Store W} client hash description :
  CreatePlaylist http_Do clock client hash " Mix (transfer 01234567)" description =
  CreatePlaylist http_Do clock client hash "Mix (transfer 01234567)" description.
Proof. reflexivity. Qed.

Lemma Spotify_name_too_long {W} (http_Do : Request → M W error Response) clock `{!Store W} client hash w :
  CreatePlaylist http_Do clock client hash (Nat.iter 90 (String.append "a") " (transfer 01234567)") "" w =
  (Err (ErrorString "invalid_playlist_input"), w).
Proof. reflexivity. Qed.
