(* ===== verification/SpotifyAccount.v ===== *)
(** A Spotify account as the destination of transfers: the adapter of
    internal/transfer/providers.go, the client of internal/spotify and the
    database connection that holds the tokens, put together over the network.

    Worker states what it relies on as [Destination].  Here the same is derived
    from what Spotify documents of the requests themselves ([SpotifyAPI]), through
    refreshed tokens, repeated requests, the transaction around each of them and
    the paging; so that a transfer is carried over exactly once by the code that
    talks to Spotify, and not only by an ideal provider. *)
From S2P Require Import Prelude GoStrings Errors Json Http Models SpotifyTypes Database TransferStore Service Worker SpotifyStore SpotifyClient Imports Importing AppleClient Providers.
Local Open Scope string_scope.
Local Open Scope list_scope.
Local Open Scope Z_scope.

(** ** Requests *)

(** The answer [res] is accepted, and its document decodes to [a]. *)
Definition decoded {A} (decode : json → result A) (accepted : list Z) (res : result Response) (a : A) : Prop :=
  ∃ resp j, res = Ok resp ∧ resp_status resp ∈ accepted ∧ resp_status resp ≠ 204 ∧ resp_body resp = Some j ∧ decode j = Ok a.
(** The answer is one with the status [s]. *)
Definition has_status (s : Z) (res : result Response) : Prop := ∃ resp, res = Ok resp ∧ resp_status resp = s.

Section requests.
Context {R : Type} (net : Request → M R error Response).

Lemma unauthorized_status status retry reconnect :
  unauthorized (Err (SpotifyProviderError status retry reconnect)) = true → status = 401.
Proof. cbn. lia. Qed.

(** The value of a request is what its answer decodes to; an error that asks for
    new tokens is an answer with the status 401. *)
Lemma wp_requestWithStatus {A} req (zero : A) decode accepted Q r :
  204 ∉ accepted →
  wp (net req) (λ res r',
    (∀ a, decoded decode accepted res a → Q (Ok a) r') ∧
    ((∀ a, ¬ decoded decode accepted res a) → ∀ e, (unauthorized (Err e) = true → has_status 401 res) → Q (Err e) r')) r →
  wp (requestWithStatus net req zero (Some decode) accepted) Q r.
Proof.
  intros H204 Hnet. rw /requestWithStatus. apply wp_bind, wp_try. eapply wp_mono; [exact Hnet|]. clear Hnet.
  intros [resp|e] r' [Hok Herr]; [|apply wp_raise, Herr; [by intros a (?&?&[=]&_)|done]].
  destruct (negb _) eqn:Hacc.
  { apply negb_true_iff, bool_decide_eq_false in Hacc. apply wp_raise, Herr.
    - by intros a (? & ? & [= <-] & ? & _).
    - intros ?%unauthorized_status. by exists resp. }
  apply negb_false_iff, bool_decide_eq_true in Hacc.
  assert (resp_status resp ≠ 204) as Hn by (intros Hs; apply H204; by rewrite -Hs).
  rw (proj2 (Z.eqb_neq _ _) Hn). destruct (resp_body resp) as [j|] eqn:Hbody.
  2: { apply wp_raise, Herr; [|done]. intros a (? & j & [= <-] & _ & _ & Hb & _). congruence. }
  destruct (decode j) as [a|] eqn:Hdec.
  - apply wp_ret, Hok. by exists resp, j.
  - apply wp_raise, Herr; [|done]. intros a (? & j' & [= <-] & _ & _ & Hb & Hd). congruence.
Qed.

(** A request without a document. *)
Lemma wp_requestWithStatus_none req accepted Q r :
  wp (net req) (λ res r',
    ((∃ resp, res = Ok resp ∧ resp_status resp ∈ accepted) → Q (Ok tt) r') ∧
    ((∀ resp, res = Ok resp → resp_status resp ∉ accepted) → ∀ e, (unauthorized (Err e) = true → has_status 401 res) → Q (Err e) r')) r →
  wp (requestWithStatus net req tt None accepted) Q r.
Proof.
  intros Hnet. rw /requestWithStatus. apply wp_bind, wp_try. eapply wp_mono; [exact Hnet|]. clear Hnet.
  intros [resp|e] r' [Hok Herr]; [|by apply wp_raise, Herr].
  destruct (negb _) eqn:Hacc.
  - apply negb_true_iff, bool_decide_eq_false in Hacc. apply wp_raise, Herr; [by intros ? [= <-]|].
    intros ?%unauthorized_status. by exists resp.
  - apply negb_false_iff, bool_decide_eq_true in Hacc. apply wp_ret, Hok. by exists resp.
Qed.
End requests.

Lemma wp_mapErr {W B} g (m : M W error B) Q (s : W) :
  wp m (λ res s', Q (match res with Ok a => Ok a | Err e => Err (g e) end) s') s → wp (mapErr g m) Q s.
Proof. rw /wp /mapErr. by destruct (m s) as [[]]. Qed.

(** ** What Spotify documents *)

(** A playlist of the account: its metadata and the occurrences in it. *)
Record SpPlaylist : Type := MkSp {
  sp_meta : SpotifyPlaylist;
  sp_items : list playlistOccurrence;
}.
Definition sp_id (p : SpPlaylist) : string := SpotifyPlaylist_ID (sp_meta p).
Definition occurrenceID (o : playlistOccurrence) : string := Entry_ID (entry o 0).

Lemma entryTrackID_occurrence o position : entryTrackID (fromSpotifyEntry (entry o position)) = occurrenceID o.
Proof.
  assert (Entry_ID (entry o position) = occurrenceID o) as Hid
    by (rw /occurrenceID /entry; by destruct (match playlistOccurrence_Item o with Some m => Some m | None => _ end)).
  rw /entryTrackID /fromSpotifyEntry -Hid. cbn. destruct (bool_decide (Entry_ID _ = "")) eqn:He; cbn; [|done].
  apply bool_decide_eq_true in He. rw He. by destruct (bool_decide (Entry_Name _ = "")).
Qed.

(** The same as a destination. *)
Definition sp_dest (p : SpPlaylist) : DestPlaylist :=
  MkDest (sp_id p) (SpotifyPlaylist_Name (sp_meta p)) (occurrenceID <$> sp_items p).

Definition apiGet (c : Client) (t : Tokens) (path : string) (q : list (string * string)) : Request :=
  MkRequest "GET" (apiURL c +:+ path) q (bearer (Tokens_AccessToken t)) NoBody.
Definition apiPost (c : Client) (t : Tokens) (path : string) (body : json) : Request :=
  MkRequest "POST" (apiURL c +:+ path) [] (bearer (Tokens_AccessToken t) ++ [("Content-Type", "application/json")]) (JsonBody body).

Definition createBody (name description : string) : json :=
  JObject ([("name", marshalString name); ("public", JBool false); ("collaborative", JBool false)] ++
    omitempty (bool_decide (description = "")) "description" (marshalString description)).
Definition addBody (track : string) : json := JObject [("uris", JArray [marshalString ("spotify:track:" +:+ track)])].

(** Inputs that the client neither refuses nor changes. *)
Definition acceptedInput (input : CreatePlaylistInput) : Prop :=
  TrimSpace (CreatePlaylistInput_Name input) = CreatePlaylistInput_Name input ∧
  CreatePlaylistInput_Name input ≠ "" ∧ slen (CreatePlaylistInput_Name input) ≤ 100 ∧
  TrimSpace (CreatePlaylistInput_Description input) = CreatePlaylistInput_Description input ∧
  slen (CreatePlaylistInput_Description input) ≤ 300.

(** The account behind the tokens [api_good], seen through single requests.  Any
    of them may fail, and one that writes may fail after it took effect, unless
    it is refused for its token; where Spotify is up for some tokens, requests
    with these succeed. *)
Class SpotifyAPI {R} (net : Request → M R error Response) (clk : R → Z) (c : Client) : Type := {
  api_playlists : R → list SpPlaylist;
  api_inv : R → Prop;
  api_up : R → Tokens → Prop;
  api_good : Tokens → Prop;

  api_ids r : api_inv r → NoDup (sp_id <$> api_playlists r);
  api_playlist_ok r : api_inv r → Forall (λ p, validPlaylistID (sp_id p) = true ∧ SpotifyPlaylist_SnapshotID (sp_meta p) ≠ "" ∧
    count (sp_meta p) = Ok (len (sp_items p))) (api_playlists r);
  api_strings t : api_good t →
    valid_string (Tokens_AccessToken t) ∧ valid_string (Tokens_RefreshToken t) ∧ valid_string (Tokens_Scope t);

  (* POST /api/token *)
  api_refresh t r : api_inv r → api_good t →
    wp (Refresh net clk c t) (λ res r',
      api_inv r' ∧ api_playlists r' = api_playlists r ∧ (∀ t', res = Ok t' → api_good t') ∧
      (api_up r t → ∃ t', res = Ok t' ∧ api_up r' t')) r;

  (* GET /me/playlists: a page has its offset and the total, and what it lists
     begins at the offset *)
  api_list t offset r : api_inv r → api_good t → 0 ≤ offset ≤ len (api_playlists r) →
    wp (net (apiGet c t "/me/playlists" [("offset", Itoa offset); ("limit", "50")])) (λ res r',
      let page := decoded (unmarshalProviderPage unmarshalSpotifyPlaylist) [200] res in
      api_inv r' ∧ api_playlists r' = api_playlists r ∧ (api_up r t → api_up r' t ∧ ∃ p, page p) ∧
      ∀ p, page p → providerPage_Total p = len (api_playlists r) ∧ providerPage_Offset p = offset ∧
        ∃ n, elems (providerPage_Items p) = take n (drop (Z.to_nat offset) (sp_meta <$> api_playlists r)) ∧
          (n ≤ 50)%nat ∧ (offset < len (api_playlists r) → (0 < n)%nat)) r;

  (* GET /playlists/{id} *)
  api_get t p r : api_inv r → api_good t → p ∈ api_playlists r →
    wp (net (apiGet c t ("/playlists/" +:+ sp_id p) [])) (λ res r',
      let document := decoded unmarshalSpotifyPlaylist [200] res in
      api_inv r' ∧ api_playlists r' = api_playlists r ∧ (api_up r t → api_up r' t ∧ ∃ m, document m) ∧
      ∀ m, document m → m = sp_meta p) r;

  (* GET /playlists/{id}/items *)
  api_items t p offset r : api_inv r → api_good t → p ∈ api_playlists r → 0 ≤ offset < len (sp_items p) →
    wp (net (apiGet c t ("/playlists/" +:+ sp_id p +:+ "/items") (itemsQuery offset))) (λ res r',
      let page := decoded (unmarshalProviderPage unmarshalOccurrence) [200] res in
      api_inv r' ∧ api_playlists r' = api_playlists r ∧ (api_up r t → api_up r' t ∧ ∃ pg, page pg) ∧
      ∀ pg, page pg → providerPage_Total pg = len (sp_items p) ∧ providerPage_Offset pg = offset ∧
        ∃ n, elems (providerPage_Items pg) = take n (drop (Z.to_nat offset) (sp_items p)) ∧ (0 < n ≤ 50)%nat) r;

  (* POST /me/playlists *)
  api_create t input r : api_inv r → api_good t → acceptedInput input →
    wp (net (apiPost c t "/me/playlists" (createBody (CreatePlaylistInput_Name input) (CreatePlaylistInput_Description input))))
      (λ res r',
      let document := decoded unmarshalSpotifyPlaylist [201; 200] res in
      let created id := ∃ p l1 l2, api_playlists r = l1 ++ l2 ∧ api_playlists r' = l1 ++ p :: l2 ∧
        sp_dest p = MkDest id (CreatePlaylistInput_Name input) [] in
      api_inv r' ∧ (api_up r t → api_up r' t ∧ ∃ m, document m) ∧
      (∀ m, document m → created (SpotifyPlaylist_ID m)) ∧
      (sp_dest <$> api_playlists r' = sp_dest <$> api_playlists r ∨ ∃ id, created id) ∧
      (has_status 401 res → sp_dest <$> api_playlists r' = sp_dest <$> api_playlists r)) r;

  (* POST /playlists/{id}/items *)
  api_add t p track r : api_inv r → api_good t → p ∈ api_playlists r → validPlaylistID track = true →
    wp (net (apiPost c t ("/playlists/" +:+ sp_id p +:+ "/items") (addBody track))) (λ res r',
      let accepted := ∃ resp, res = Ok resp ∧ resp_status resp ∈ [201; 200; 204] in
      let same := sp_dest <$> api_playlists r' = sp_dest <$> api_playlists r in
      let added := sp_dest <$> api_playlists r' = appendTo (sp_id p) [track] <$> (sp_dest <$> api_playlists r) in
      api_inv r' ∧ (api_up r t → api_up r' t ∧ accepted) ∧ (accepted → added) ∧ (same ∨ added) ∧
      (has_status 401 res → same)) r;
}.

(** ** Requests through the connection of a session *)

Section session.
Context `{AEAD} `{!AEADLaws} {R : Type} (net : Request → M R error Response) (clk : R → Z) (c : Client).
Context {api : SpotifyAPI net clk c} (hash : string).
Implicit Types (r : R) (w : world R).

(** The tokens that are stored for the session, if any, are the account's. *)
Definition session_inv w : Prop :=
  w_tx w = None ∧ api_inv (w_remote w) ∧
  ∀ row conn, spotify_connections (w_db w) !! hash = Some row → open hash (conn_encrypted_credentials row) = Ok conn →
    wf_connection conn ∧ api_good (Connection_Tokens conn).
(** The database works, the session lives, and Spotify is up for its tokens. *)
Definition session_up w : Prop :=
  w_faults w = [] ∧ ∃ row conn, spotify_connections (w_db w) !! hash = Some row ∧ w_now w < conn_expires_at row ∧
    open hash (conn_encrypted_credentials row) = Ok conn ∧ api_up (w_remote w) (Connection_Tokens conn).

Lemma session_restored D tx fs now r r' conn :
  session_inv (MkWorld D tx fs now r) → api_inv r' → wf_connection conn → api_good (Connection_Tokens conn) →
  session_inv (MkWorld (restored hash conn now D) None fs now r').
Proof.
  intros (_ & _ & Hd) Hr' Hwf Hgood. split; [done|]. split; [done|]. cbn. intros row conn'.
  rw lookup_alter_eq. destruct (spotify_connections D !! hash) as [row0|]; [|done]. cbn. intros [= <-]. cbn.
  rw open_seal //. by intros [= <-].
Qed.

(** An operation on the account, as a single call ([call']) and through the
    connection ([call]): what it may do to the [f] of the playlists, which is
    [v0], is [E], and within the limits [L] it succeeds. *)
Section operation.
Context {A O : Type} (f : list SpPlaylist → O) (v0 : O) (E : result A → O → O → Prop) (L : Prop).
Context (call : Connection → M (world R) error A) (call' : Connection → M R error A).
Context (Hremote : ∀ conn, is_remote (call conn) (call' conn)).
Context (HEnone : ∀ e v, E (Err e) v v) (HElost : ∀ x e v v', E x v v' → E (Err e) v v').
Abbreviation obs r := (f (api_playlists r)).
Context (Hcall : ∀ conn r, api_inv r → api_good (Connection_Tokens conn) → obs r = v0 →
  wp (call' conn) (λ res r', api_inv r' ∧ E res (obs r) (obs r') ∧ (unauthorized (dropValue res) = true → obs r' = obs r) ∧
    (api_up r (Connection_Tokens conn) → api_up r' (Connection_Tokens conn) ∧ (L → succeeds res))) r).

(** What [useConnection] leaves: an error of its own has done nothing. *)
Definition used r (conn : Connection) (res : result (Connection * result A)) r' : Prop :=
  api_inv r' ∧
  (api_up r (Connection_Tokens conn) → ∃ conn' x, res = Ok (conn', x) ∧ api_up r' (Connection_Tokens conn') ∧ (L → succeeds x)) ∧
  match res with
  | Ok (conn', x) => E x (obs r) (obs r') ∧ wf_connection conn' ∧ api_good (Connection_Tokens conn')
  | Err _ => obs r' = obs r
  end.

Lemma wf_setTokens t conn : wf_connection conn → api_good t → wf_connection (setTokens t conn).
Proof. intros (? & ? & ? & _) (? & ? & ?)%api_strings. by split_and!. Qed.

Lemma wp_useConnection conn r :
  api_inv r → wf_connection conn → api_good (Connection_Tokens conn) → obs r = v0 →
  wp (useConnection net clk c unchanged call' conn) (used r conn) r.
Proof.
  intros Hr Hwf Hgood Hv. rw /useConnection. apply wp_bind. rw /wp /Now. cbn [fst snd].
  destruct (_ <=? _).
  - apply wp_bind, wp_bind. eapply wp_mono; [by apply api_refresh|].
    intros [t|e] r1 (Hr1 & Hsame & Ht & Hup); [|split; [done|]; split; [|by rw Hsame]; intros (? & [=] & _)%Hup].
    specialize (Ht t eq_refl). apply wp_ret, wp_bind, wp_try. eapply wp_mono; [by apply (Hcall (setTokens t conn)); rw ?Hsame|].
    intros x r2 (Hr2 & HE & _ & Hup2). cbn [negb andb].
    apply wp_ret. split; [done|]. split.
    + intros (? & [= <-] & Hup1)%Hup. apply Hup2 in Hup1 as [??]. exists (setTokens t conn), x. by destruct x.
    + rw Hsame in HE. split; [done|]. destruct x; (split; [by apply wf_setTokens|done]).
  - apply wp_bind, wp_ret, wp_bind, wp_try. eapply wp_mono; [by apply (Hcall conn)|].
    intros x r1 (Hr1 & HE & Hnone & Hup). cbn [negb andb].
    destruct (unauthorized (dropValue x)) eqn:Hun.
    + apply wp_bind. eapply wp_mono; [by apply api_refresh|].
      intros [t|e] r2 (Hr2 & Hsame & Ht & Hup2).
      2: { split; [done|]. split; [|by rw Hsame Hnone]. by intros [(? & [=] & _)%Hup2 _]%Hup. }
      specialize (Ht t eq_refl). cbv zeta. apply wp_bind, wp_try. eapply wp_mono; [by apply (Hcall (setTokens t conn)); rw ?Hsame ?Hnone|].
      intros x2 r3 (Hr3 & HE3 & _ & Hup3). apply wp_ret. split; [done|]. split.
      * intros [(? & [= <-] & [??]%Hup3)%Hup2 _]%Hup. exists (setTokens t conn), x2. by destruct x2.
      * rw Hsame Hnone // in HE3. split; [done|]. destruct x2; (split; [by apply wf_setTokens|done]).
    + apply wp_ret. split; [done|]. split; [|by destruct x]. intros [??]%Hup. exists conn, x. by destruct x.
Qed.

(** Whatever the database does, the operation has its effect, or none. *)
Lemma wp_session_safe w :
  session_inv w → obs (w_remote w) = v0 →
  wp (withConnection (netDo net) (netClock clk) c hash call)
    (λ res w', session_inv w' ∧ E res (obs (w_remote w)) (obs (w_remote w'))) w.
Proof.
  destruct w as [D tx fs now r]. intros Hw Hv. pose proof Hw as (Htx & Hr & Hstored). cbn in Htx, Hr, Hstored. subst tx.
  cbn [w_remote]. apply wp_bind. cbn [store_Update PostgresStore]. rw /wp.
  rw (Update_ext hash _ _ _ (λ conn, is_remote_useConnection net clk c unchanged call call' conn Hremote)).
  apply (wp_Update hash (useConnection net clk c unchanged call') D fs now r (λ res w1, match res with
    | Ok x => wp (lift x) (λ res w', session_inv w' ∧ E res (obs r) (obs (w_remote w'))) w1
    | Err e => session_inv w1 ∧ E (Err e) (obs r) (obs (w_remote w1)) end)).
  - intros fs' e. split; [by split_and!|apply HEnone].
  - intros row conn Hsel Hopen. rw /selectConnection in Hsel. apply bind_Some in Hsel as (row' & Hrow & Hlive).
    destruct (_ <? _); [|done]. injection Hlive as ->. destruct (Hstored row conn Hrow Hopen) as [Hwf Hgood].
    eapply wp_mono; [by apply wp_useConnection|]. intros [[conn' x]|e] r' (Hr' & _ & Hused).
    + destruct Hused as (HE & Hwf' & Hgood'). intros fs'.
      assert (session_inv (MkWorld (restored hash conn' now D) None fs' now r')) as Hinv by by eapply session_restored.
      split; [by destruct x|]. intros e D' [->| ->]; (split; [|by eapply HElost]); [by split_and!|done].
    + intros fs'. split; [by split_and!|]. cbn. rw Hused. apply HEnone.
Qed.

(** Where everything works, it goes on working, and the operation succeeds. *)
Lemma wp_session_up w :
  session_inv w → obs (w_remote w) = v0 → session_up w →
  wp (withConnection (netDo net) (netClock clk) c hash call) (λ res w', session_up w' ∧ (L → succeeds res)) w.
Proof.
  destruct w as [D tx fs now r]. intros (Htx & Hr & Hstored) Hv (Hfs & row & conn & Hrow & Hlive & Hopen & Hup).
  cbn in Htx, Hr, Hstored, Hfs, Hrow, Hlive, Hup. subst tx fs. destruct (Hstored row conn Hrow Hopen) as [Hwf Hgood].
  assert (selectConnection hash now D = Some row) as Hsel.
  { rw /selectConnection Hrow /=. by rw (proj2 (Z.ltb_lt _ _) Hlive). }
  apply wp_bind. cbn [store_Update PostgresStore]. rw /wp.
  rw (Update_healthy hash _ _ D now r row conn (λ conn, is_remote_useConnection net clk c unchanged call call' conn Hremote) Hsel Hopen).
  pose proof (wp_useConnection conn r Hr Hwf Hgood Hv) as Hused. rw /wp in Hused.
  destruct (useConnection net clk c unchanged call' conn r) as [res r']. cbn in Hused.
  destruct Hused as (Hr' & Hup' & Hres). destruct (Hup' Hup) as (conn' & x & -> & Hup2 & Hx).
  destruct Hres as (_ & Hwf' & Hgood'). cbn. rw /lift /=. split; [|done].
  split; [done|]. exists (setCredentials (seal hash conn') now row), conn'. cbn. rw lookup_alter_eq Hrow /=.
  split_and!; [done|done|by apply open_seal|done].
Qed.

Lemma wp_session w :
  session_inv w → obs (w_remote w) = v0 →
  wp (withConnection (netDo net) (netClock clk) c hash call)
    (λ res w', session_inv w' ∧ E res (obs (w_remote w)) (obs (w_remote w')) ∧ (session_up w → session_up w' ∧ (L → succeeds res))) w.
Proof.
  intros Hw Hv. destruct (wp_session_safe w Hw Hv) as [H1 H2]. split; [done|]. split; [done|]. intros Hup.
  by apply (wp_session_up w).
Qed.
End operation.

(** *** Reading *)

(** The account has the playlists [ps]. *)
Definition session_at (ps : list SpPlaylist) w : Prop := session_inv w ∧ api_playlists (w_remote w) = ps.

Lemma runs_get {A} L ps path q (zero : A) decode (Q : A → Prop) :
  (∀ t r, api_inv r → api_good t → api_playlists r = ps →
    wp (net (apiGet c t path q)) (λ res r', api_inv r' ∧ api_playlists r' = api_playlists r ∧
      (api_up r t → api_up r' t ∧ ∃ a, decoded decode [200] res a) ∧ ∀ a, decoded decode [200] res a → Q a) r) →
  runs (session_at ps) session_up L (playlistGET (netDo net) (netClock clk) c hash path q zero decode) Q.
Proof.
  intros Hget w [Hw Hps].
  pose (call conn := request net (apiGet c (Connection_Tokens conn) path q) zero decode).
  eapply wp_mono; [apply (wp_session Datatypes.id ps (λ res v v', v' = v ∧ ∀ a, res = Ok a → Q a) L _ call)|..]; try done.
  - intros conn. apply is_remote_requestWithStatus.
  - by intros x e v v' [-> _].
  - intros conn r Hr Hgood Hv. apply wp_requestWithStatus; [set_solver +|].
    eapply wp_mono; [by apply Hget|]. intros res r' (Hr' & Hsame & Hup & HQ). split.
    + intros a Ha. split_and!; [done|done|by intros ? [= <-]; apply HQ|done|]. by intros [??]%Hup.
    + intros Hno e _. split_and!; [done|done|done|done|]. intros [_ [a Ha]]%Hup. by destruct (Hno a).
  - intros res w' (Hw' & [Hsame HQ] & Hup). split; [split; [done|]; by rw -Hps|by split].
Qed.

Abbreviation provider := (SpotifyProvider (netDo net) (netClock clk) c).
Definition account_view w : list DestPlaylist := sp_dest <$> api_playlists (w_remote w).

Lemma account_list w offset :
  session_inv w → 0 ≤ offset ≤ len (account_view w) →
  wp (ListPlaylists provider hash offset 50) (λ res w',
    session_inv w' ∧ account_view w' = account_view w ∧ (session_up w → session_up w' ∧ (offset ≤ 100000 → succeeds res)) ∧
    match res with
    | Ok page => ∃ n, let rest := drop (Z.to_nat offset) (account_view w) in
        (λ p, (Playlist_ID p, Playlist_Name p)) <$> PlaylistPage_Items page =
          (λ d, (dest_id d, dest_name d)) <$> take n rest ∧
        match PlaylistPage_NextOffset page with
        | None => (length rest ≤ n)%nat
        | Some next => next = offset + Z.of_nat n ∧ (0 < n ≤ length rest)%nat
        end
    | Err _ => True
    end) w.
Proof.
  intros Hw Hoff. rw /account_view length_fmap in Hoff. set (ps := api_playlists (w_remote w)) in *.
  cbn [ListPlaylists SpotifyProvider]. rw /Spotify_ListPlaylists. apply wp_bind, wp_mapErr.
  pose (Q (page : Page SpotifyPlaylist) := Page_Offset page = offset ∧ ∃ n,
    Page_Items page = take n (drop (Z.to_nat offset) (sp_meta <$> ps)) ∧
    match Page_NextOffset page with
    | None => (length (drop (Z.to_nat offset) ps) ≤ n)%nat
    | Some next => next = offset + Z.of_nat n ∧ (0 < n ≤ length (drop (Z.to_nat offset) ps))%nat
    end).
  assert (runs (session_at ps) session_up (offset ≤ 100000) (Playlists (netDo net) (netClock clk) c hash offset 50) Q) as Hruns.
  { rw /Playlists. destruct (_ || _) eqn:Hlim; [apply runs_raise; lia|].
    eapply runs_bind.
    { apply (runs_get _ _ _ _ _ _ (λ p, providerPage_Total p = len ps ∧ providerPage_Offset p = offset ∧
        ∃ n, elems (providerPage_Items p) = take n (drop (Z.to_nat offset) (sp_meta <$> ps)) ∧
          (n ≤ 50)%nat ∧ (offset < len ps → (0 < n)%nat))).
      intros t r Hr Hgood Hps. eapply wp_mono; [by apply api_list; [..|rw Hps]|]. cbv zeta. by rw Hps. }
    intros page (Htotal & Hoffset & n & Hitems & Hn & Hpos). cbv zeta. rw Htotal Hoffset Hitems.
    set (items := take n _). assert (length items = n `min` (length ps - Z.to_nat offset))%nat as Hlen
      by by rw /items length_take length_drop length_fmap.
    match goal with |- context [if ?b then raise _ else _] => destruct b eqn:Hvalid end; [lia|].
    apply runs_ret. split; [done|]. cbn. exists (length items). split.
    - by rw /items length_take -{1}(firstn_all (drop _ _)) take_take.
    - rw length_drop. destruct (Z.ltb_spec (offset + len items) (len ps)); [split; [done|lia]|lia]. }
  eapply wp_mono; [by apply Hruns|]. intros [page|e] w' ([Hw' Hps] & Hup & HQ); cbn [fst snd].
  - destruct (HQ page eq_refl) as (_ & n & Hitems & Hnext). apply wp_ret. rw /account_view Hps.
    split_and!; [done|done|intros [??]%Hup; by split|]. exists n. cbv zeta. cbn [PlaylistPage_Items PlaylistPage_NextOffset].
    rw -fmap_drop -fmap_take -!list_fmap_compose Hitems -fmap_drop -fmap_take -!list_fmap_compose. split; [done|].
    by rw length_fmap.
  - rw /account_view Hps. split_and!; [done|done| |done]. intros [? Hs]%Hup. by split.
Qed.

Lemma account_read w d position :
  session_inv w → d ∈ account_view w → 0 ≤ position ≤ len (dest_tracks d) →
  wp (ReadPlaylistEntries provider hash (dest_id d) position 1) (λ res w',
    session_inv w' ∧ account_view w' = account_view w ∧
    (session_up w → session_up w' ∧ (len (dest_tracks d) ≤ maxSnapshotItems → succeeds res)) ∧
    match res with
    | Ok page =>
        match dest_tracks d !! Z.to_nat position with
        | None => EntryPage_Items page = []
        | Some id => ∃ e es, EntryPage_Items page = e :: es ∧ entryTrackID e = id
        end
    | Err _ => True
    end) w.
Proof.
  intros Hw (p & -> & Hp)%list_elem_of_fmap Hpos. set (ps := api_playlists (w_remote w)) in *.
  cbn [dest_id dest_tracks sp_dest] in *. rw length_fmap in Hpos. rw length_fmap list_lookup_fmap.
  pose proof (api_playlist_ok _ (proj1 (proj2 Hw))) as Hok. rw Forall_forall in Hok. destruct (Hok p Hp) as (Hid & Hversion & Hcount).
  assert (runs (session_at ps) session_up (len (sp_items p) ≤ maxSnapshotItems)
    (ReadSnapshot (netDo net) (netClock clk) c hash (sp_id p)) (λ read, read = (sp_meta p, snapshotOf (sp_items p)))) as Hread.
  { apply runs_ReadSnapshot; try done.
    - apply runs_get. intros t r Hr Hgood Hps. apply api_get; [done..|by rw Hps].
    - intros offset Hoff. apply runs_get. intros t r Hr Hgood Hps. apply api_items; [done..|by rw Hps|done]. }
  pose proof (Hread w (conj Hw eq_refl)) as Hrun. rw /wp in Hrun. rw /wp /account_view. cbn [ReadPlaylistEntries SpotifyProvider].
  destruct (ReadSnapshot _ _ _ _ _ w) as [[[m entries]|e] w'] eqn:Hres; cbn [fst snd] in Hrun; destruct Hrun as ([Hw' Hps] & Hup & HQ).
  - injection (HQ _ eq_refl) as -> ->. pose proof (ReadSnapshot_entries _ _ _ _ _ _ _ _ _ Hres) as (os & _ & Hc & Hmax).
    rewrite Hcount in Hc. injection Hc as Hc.
    rw (Spotify_ReadPlaylistEntries_slice _ _ _ _ _ position 1 _ _ _ _ ltac:(rw /maxSnapshotItems in Hmax; lia) ltac:(lia) Hres).
    cbn [fst snd EntryPage_Items]. rw Hps. split_and!; [done|done|intros [??]%Hup; by split|].
    rw -fmap_drop -fmap_take /snapshotOf. destruct (sp_items p !! Z.to_nat position) as [o|] eqn:Ho; cbn.
    + rw (drop_S _ (entry o (Z.of_nat (Z.to_nat position))) (Z.to_nat position)); [by rw list_lookup_imap Ho|].
      eexists _, []. split; [reflexivity|]. apply entryTrackID_occurrence.
    + rw drop_ge ?take_nil //. rw length_imap. by apply lookup_ge_None.
  - rw /Spotify_ReadPlaylistEntries bind_unfold /mapErr Hres. cbn [fst snd]. rw Hps.
    split_and!; [done|done|intros [? Hs]%Hup; by split|done].
Qed.
End session.
