(* ===== verification/SpotifyAuth.v ===== *)
(** internal/spotify/auth.go: the browser's authorization flow (PKCE, state and
    cookie), the connection endpoints and the answers to failures.

    The pending authorizations are the only state that a server process keeps
    in memory.  A mutex makes each access to them one atomic step, [register]
    or [consume]; everything else of a handler runs outside the mutex, so that
    the properties of the flow are stated over arbitrary interleavings of these
    steps.  The random strings that a handler draws are its arguments. *)
From S2P Require Import Prelude GoStrings Errors Json Http Sha256 WebServer Models Database SpotifyStore SpotifyClient.
Local Open Scope string_scope.
Local Open Scope list_scope.
Local Open Scope Z_scope.

Definition flowCookie : string := "spotify_oauth_state".
Definition sessionLifetime : Z := 30 * 24 * 60 * Minute.

Record attempt : Type := Mkattempt {
  attempt_verifier : string;
  attempt_expires : Z;
}.

(** The fixed part of [Auth]; the store is the state's. *)
Record Auth : Type := MkAuth {
  Auth_client : Client;
  Auth_origin : string;
  Auth_secure : bool;
}.

(** [url] is what url.Parse makes of the validated redirect URI: its scheme and
    its host. *)
Definition NewAuth (client : Client) (url : string * string) : Auth :=
  MkAuth client (url.1 +:+ "://" +:+ url.2) (bool_decide (url.1 = "https")).

(** ** The pending authorizations *)

Definition maxPending : Z := 1024.

(** The critical section of [start]: the expired attempts go, and the new one
    is added unless there are too many. *)
Definition register (now : Z) (state verifier : string) (pending : gmap string attempt) : bool * gmap string attempt :=
  let live := filter (λ kv : string * attempt, now < attempt_expires kv.2) pending in
  if maxPending <=? Z.of_nat (size live) then (false, live)
  else (true, <[state := Mkattempt verifier (now + 10 * Minute)]> live).

(** The critical section of [callback]. *)
Definition consume (state : string) (pending : gmap string attempt) : option attempt * gmap string attempt :=
  (pending !! state, delete state pending).

(** A server process: what it keeps in memory, and the rest. *)
Record server (W : Type) : Type := MkServer {
  s_pending : gmap string attempt;
  s_rest : W;
}.
Arguments MkServer {W}.
Arguments s_pending {W}.
Arguments s_rest {W}.

Definition onRest {W A} (m : M W error A) : M (server W) error A := λ s,
  let '(r, w) := m (s_rest s) in (r, MkServer (s_pending s) w).

(** ** Answers *)

(** [a.failure(w, err)]. *)
Definition failure (err : error) : HttpResponse :=
  if errors_Is err SpotifyErrNoConnection then http_Error "Connect Spotify first" 401 else
  let unchecked := http_Error "Spotify connection could not be checked" 502 in
  match errors_As_Spotify err with
  | None => unchecked
  | Some (status, retry, reconnect) =>
      if reconnect || (status =? 401) then http_Error "Reconnect Spotify" 401
      else if status =? 429 then
        let limited := http_Error "Spotify rate limit reached; try again later" 429 in
        if 0 <? retry then withHeader "Retry-After" (Itoa retry) limited else limited
      else if status =? 403 then http_Error "Spotify access denied; check app permissions and allowed users" 403
      else unchecked
  end.

(** The headers of [a.wrap]; its deadline of eight seconds is one of the
    reasons for which a call may fail. *)
Definition wrapped (resp : HttpResponse) : HttpResponse :=
  withHeader "Cache-Control" "no-store" (withHeader "Referrer-Policy" "no-referrer"
    (withHeader "X-Content-Type-Options" "nosniff" resp)).

Definition wrap {S} (next : Reply S) : Reply S := mapReply wrapped next.

Definition marshalConnected (p : Profile) : json :=
  JObject [("connected", JBool true); ("profile", marshalProfile p)].

Definition AuthorizationURL (c : Client) (state challenge : string) : string :=
  authorizeURL c +:+ "?" +:+ Encode
    [("client_id", clientID c); ("redirect_uri", redirectURI c); ("response_type", "code"); ("state", state);
     ("code_challenge_method", "S256"); ("code_challenge", challenge);
     ("scope", "playlist-read-private playlist-read-collaborative playlist-modify-private playlist-modify-public")].

Definition setProfile (p : Profile) (c : Connection) : Connection := MkConnection p (Connection_Tokens c).

(** ** Handlers *)

Section auth.
Context {W : Type} (http_Do : Request → M W error Response) (clock : W → Z) `{!Store W} (a : Auth).
Implicit Types (r : HttpRequest).

Definition cookie (name value path : string) (age : Z) : Cookie :=
  MkCookie name value path age true (Auth_secure a) true.

Definition start (state verifier1 verifier2 : string) : Reply (server W) := λ s,
  let verifier := verifier1 +:+ verifier2 in
  let '(registered, pending) := register (clock (s_rest s)) state verifier (s_pending s) in
  let s := MkServer pending (s_rest s) in
  if negb registered then (http_Error "Try connecting again later" 429, s) else
  let challenge := base64RawURL (Sum256 (bytes verifier)) in
  (withCookie (cookie flowCookie state "/auth/spotify" 600)
     (Redirect (AuthorizationURL (Auth_client a) state challenge) 302), s).

(** [callback] once the attempt [flow] is taken and the code is known. *)
Definition authorize (session : string) (flow : attempt) (code : string) r : Reply (server W) :=
  call (onRest (Exchange http_Do clock (Auth_client a) code (attempt_verifier flow))) (λ tokens,
  match tokens with
  | Err err => reply (failure err)
  | Ok tokens =>
      call (onRest (fetchProfile http_Do (Auth_client a) (Tokens_AccessToken tokens))) (λ profile,
      match profile with
      | Err err => reply (failure err)
      | Ok profile =>
          let oldHash := match r_Cookie r sessionCookie with Some value => sessionHash value | None => "" end in
          λ s, call (onRest (store_Save (sessionHash session) oldHash (MkConnection profile tokens)
                              (clock (s_rest s) + sessionLifetime))) (λ saved,
            match saved with
            | Err _ => reply (http_Error "Could not save Spotify connection" 500)
            | Ok _ => reply (withCookie (cookie sessionCookie session "/" (sessionLifetime / Second))
                               (Redirect "/api/connections/spotify" 303))
            end) s
      end)
  end).

(** [callback] after the state and the cookie were found to agree. *)
Definition redeem (session state : string) r : Reply (server W) := λ s,
  let '(flow, pending) := consume state (s_pending s) in
  let s := MkServer pending (s_rest s) in
  match flow with
  | None => (http_Error "Authorization expired or already used" 400, s)
  | Some flow =>
      if attempt_expires flow <=? clock (s_rest s) then (http_Error "Authorization expired or already used" 400, s)
      else if bool_decide (queryGet r "error" ≠ "") then (http_Error "Spotify authorization was not granted" 400, s)
      else let code := queryGet r "code" in
           if bool_decide (code = "") then (http_Error "Missing authorization code" 400, s)
           else authorize session flow code r s
  end.

(** The state of the callback, where the request carries one that its cookie
    confirms. *)
Definition confirmedState r : option string :=
  let state := queryGet r "state" in
  value ← r_Cookie r flowCookie;
  if bool_decide (state = "") || bool_decide (state ≠ value) then None else Some state.

Definition callback (session : string) r : Reply (server W) :=
  match confirmedState r with
  | None => reply (http_Error "Invalid authorization state" 400)
  | Some state => mapReply (withCookie (cookie flowCookie "" "/auth/spotify" (-1))) (redeem session state r)
  end.

Definition connection r : Reply (server W) :=
  match requestSession r with
  | None => reply (failure SpotifyErrNoConnection)
  | Some hash =>
      call (onRest (withConnectionChanged http_Do clock (Auth_client a) setProfile hash (λ connection,
              p ← fetchProfile http_Do (Auth_client a) (Tokens_AccessToken (Connection_Tokens connection));
              if bool_decide (Profile_AccountID p ≠ Profile_AccountID (Connection_Profile connection))
              then raise (ErrorString "Spotify account identity changed")
              else mret p))) (λ profile,
      match profile with
      | Err err => reply (failure err)
      | Ok profile => reply (writeJSON 200 (marshalConnected profile))
      end)
  end.

Definition disconnect r : Reply (server W) :=
  if bool_decide (r_origin r ≠ Auth_origin a) then reply (http_Error "Origin not allowed" 403) else
  let done_ := reply (withCookie (cookie sessionCookie "" "/" (-1)) (WriteHeader 204)) in
  match r_Cookie r sessionCookie with
  | None => done_
  | Some value =>
      call (onRest (store_Delete (sessionHash value))) (λ deleted,
      match deleted with
      | Err _ => reply (http_Error "Could not disconnect Spotify" 500)
      | Ok _ => done_
      end)
  end.
End auth.

(** ** The flow as a state machine *)

(** Any interleaving of the critical sections of all [start] and [callback]
    requests: the attempts registered so far (or turned away), the pending
    ones, and those that a callback took.  States are random and never drawn
    twice. *)
Inductive flow_trace : list (string * attempt) → gmap string attempt → list (string * attempt) → Prop :=
| flow_init : flow_trace [] ∅ []
| flow_register now state verifier started pending taken :
    flow_trace started pending taken → state ∉ started.*1 →
    flow_trace ((state, Mkattempt verifier (now + 10 * Minute)) :: started)
      (register now state verifier pending).2 taken
| flow_consume state started pending taken :
    flow_trace started pending taken →
    flow_trace started (consume state pending).2
      (match (consume state pending).1 with Some flow => (state, flow) :: taken | None => taken end).

(** ** Proofs *)

Lemma register_lookup now state verifier pending st flow :
  (register now state verifier pending).2 !! st = Some flow →
  pending !! st = Some flow ∨ (st = state ∧ flow = Mkattempt verifier (now + 10 * Minute)).
Proof.
  rw /register. destruct (_ <=? _); cbn [snd].
  - intros [H _]%map_lookup_filter_Some. by left.
  - intros [[-> <-]|[_ [H _]%map_lookup_filter_Some]]%lookup_insert_Some; auto.
Qed.

Lemma register_size now state verifier pending :
  Z.of_nat (size pending) ≤ maxPending → Z.of_nat (size (register now state verifier pending).2) ≤ maxPending.
Proof.
  intros Hs. rw /register. set (live := filter _ _). destruct (Z.leb_spec maxPending (Z.of_nat (size live))); cbn [snd].
  - enough (size live ≤ size pending)%nat by lia. apply map_size_filter.
  - rw map_size_insert. destruct (live !! state); cbn; lia.
Qed.

Lemma flow_trace_inv started pending taken :
  flow_trace started pending taken →
  Z.of_nat (size pending) ≤ maxPending ∧ NoDup taken.*1 ∧
  (∀ st flow, pending !! st = Some flow → (st, flow) ∈ started ∧ st ∉ taken.*1) ∧
  (∀ st flow, (st, flow) ∈ taken → (st, flow) ∈ started).
Proof.
  induction 1 as [|now state verifier started pending taken _ (Hsize & Hnd & Hp & Ht) Hfresh
                  |state started pending taken _ (Hsize & Hnd & Hp & Ht)].
  - rw map_size_empty. split_and!; [done|constructor|set_solver|set_solver].
  - split_and!; [by apply register_size|done| |set_solver].
    intros st flow [Hl| [-> ->]]%register_lookup.
    + apply Hp in Hl. set_solver.
    + split; [set_solver|]. intros [[st' flow] [-> Hin]]%list_elem_of_fmap.
      apply Ht in Hin. apply Hfresh. apply list_elem_of_fmap. by exists (st', flow).
  - cbn [consume fst snd]. split_and!.
    + enough (size (delete state pending) ≤ size pending)%nat by lia. rw map_size_delete. destruct (_ !! _); cbn; lia.
    + destruct (pending !! state) eqn:E; [|done]. cbn. constructor; [|done]. by apply Hp in E as [_ E].
    + intros st flow [Hne Hl]%lookup_delete_Some. specialize (Hp _ _ Hl) as [??].
      split; [done|]. destruct (pending !! state); set_solver.
    + intros st flow. destruct (pending !! state) as [f|] eqn:E; [|apply Ht].
      intros [[= -> ->]|Hin]%elem_of_cons; [by apply Hp in E as [E _]|by apply Ht].
Qed.

Definition sets_session (resp : HttpResponse) : Prop := sessionCookie ∈ Cookie_Name <$> w_cookies resp.

Lemma sets_session_cookie c resp :
  Cookie_Name c ≠ sessionCookie → sets_session (withCookie c resp) ↔ sets_session resp.
Proof. intros Hc. rw /sets_session /withCookie. cbn. set_solver. Qed.

Lemma no_session resp : w_cookies resp = [] → ¬ sets_session resp.
Proof. intros Hc. rw /sets_session Hc. set_solver. Qed.

Lemma failure_cookies err : w_cookies (failure err) = [].
Proof. rw /failure. by repeat case_match. Qed.

#[local] Hint Resolve no_session failure_cookies : core.

Section auth_facts.
Context {W : Type} (http_Do : Request → M W error Response) (clock : W → Z) `{!Store W} (a : Auth).

Lemma authorize_session session flow code r s :
  let '(resp, s') := authorize http_Do clock a session flow code r s in
  s_pending s' = s_pending s ∧
  (¬ sets_session resp ∨
   ∃ tokens profile w1 w2,
     Exchange http_Do clock (Auth_client a) code (attempt_verifier flow) (s_rest s) = (Ok tokens, w1) ∧
     fetchProfile http_Do (Auth_client a) (Tokens_AccessToken tokens) w1 = (Ok profile, w2) ∧
     store_Save (sessionHash session) (default "" (sessionHash <$> r_Cookie r sessionCookie)) (MkConnection profile tokens)
       (clock w2 + sessionLifetime) w2 = (Ok tt, s_rest s')).
Proof.
  destruct s as [pending w]. rw /authorize /call /onRest. cbn [s_rest s_pending].
  destruct (Exchange _ _ _ _ _ _) as [[tokens|e] w1] eqn:H1; [|split; [done|left; cbn; auto]].
  cbn [s_rest s_pending]. destruct (fetchProfile _ _ _ _) as [[profile|e] w2] eqn:H2; [|split; [done|left; cbn; auto]].
  cbn [s_rest s_pending]. replace (match r_Cookie r sessionCookie with Some v => sessionHash v | None => "" end)
    with (default "" (sessionHash <$> r_Cookie r sessionCookie)) by by destruct (r_Cookie _ _).
  destruct (store_Save _ _ _ _ _) as [[[]|e] w3] eqn:H3; (split; [done|]); [right; eauto 10|left; by apply no_session].
Qed.

Lemma redeem_cases session state r s :
  let '(resp, s') := redeem http_Do clock a session state r s in
  (s_rest s' = s_rest s ∧ w_status resp = 400 ∧ ¬ sets_session resp) ∨
  ∃ flow,
    consume state (s_pending s) = (Some flow, s_pending s') ∧
    clock (s_rest s) < attempt_expires flow ∧ queryGet r "code" ≠ "" ∧
    (resp, s') = authorize http_Do clock a session flow (queryGet r "code") r (MkServer (s_pending s') (s_rest s)).
Proof.
  destruct s as [pending w]. rw /redeem /consume. cbn [s_rest s_pending].
  destruct (pending !! state) as [flow|]; [|by left; auto].
  destruct (Z.leb_spec (attempt_expires flow) (clock w)); [by left; auto|].
  case_bool_decide; [by left; auto|]. case_bool_decide; [by left; auto|].
  pose proof (authorize_session session flow (queryGet r "code") r (MkServer (delete state pending) w)) as Ha.
  destruct (authorize _ _ _ _ _ _ _ _) as [resp s'] eqn:E. destruct Ha as [Hp _]. cbn in Hp.
  right. exists flow. rw Hp. by split_and!.
Qed.
End auth_facts.

Lemma confirmedState_Some r state : confirmedState r = Some state →
  queryGet r "state" = state ∧ r_Cookie r flowCookie = Some state ∧ state ≠ "".
Proof.
  rw /confirmedState. destruct (r_Cookie r flowCookie) as [value|]; [|done]. cbn [mbind option_bind].
  destruct (_ || _) eqn:E; [done|]. apply orb_false_iff in E as [E1%bool_decide_eq_false E2%bool_decide_eq_false].
  intros [= <-]. split_and!; [done| |done]. f_equal. symmetry. by apply dec_stable.
Qed.

(** ** Properties *)


(** C11: a callback opens a session only for the browser that started the flow:
    its state is the one in the browser's cookie and names a pending attempt
    that has not expired, the attempt is gone afterwards, the code was
    exchanged with that attempt's verifier, and the connection was stored under
    the hash of the new session.  In every other case nothing is sent or stored
    and the answer is 400. *)
Theorem callback_authorized {W} (http_Do : Request → M W error Response) clock `{!Store W} a session r s :
  let '(resp, s') := callback http_Do clock a session r s in
  (s_rest s' = s_rest s ∧ w_status resp = 400 ∧ ¬ sets_session resp) ∨
  ∃ state flow,
    queryGet r "state" = state ∧ r_Cookie r flowCookie = Some state ∧ state ≠ "" ∧
    s_pending s !! state = Some flow ∧ s_pending s' = delete state (s_pending s) ∧
    clock (s_rest s) < attempt_expires flow ∧ queryGet r "code" ≠ "" ∧
    (¬ sets_session resp ∨
     ∃ tokens profile w1 w2,
       Exchange http_Do clock (Auth_client a) (queryGet r "code") (attempt_verifier flow) (s_rest s) = (Ok tokens, w1) ∧
       fetchProfile http_Do (Auth_client a) (Tokens_AccessToken tokens) w1 = (Ok profile, w2) ∧
       store_Save (sessionHash session) (default "" (sessionHash <$> r_Cookie r sessionCookie)) (MkConnection profile tokens)
         (clock w2 + sessionLifetime) w2 = (Ok tt, s_rest s')).
Proof.
  rw /callback. destruct (confirmedState r) as [state|] eqn:Hconf; [|by left; auto].
  apply confirmedState_Some in Hconf as (Hq & Hk & Hne). rw /mapReply. pose proof (redeem_cases http_Do clock a session state r s) as Hr.
  destruct (redeem _ _ _ _ _ _ _) as [resp s']. cbv beta iota in Hr |- *.
  pose proof (sets_session_cookie (cookie a flowCookie "" "/auth/spotify" (-1)) resp) as Hs.
  destruct Hr as [(Hw & Hc & Hn)|(flow & Hc & Hexp & Hcode & Ha)]; [left; split_and!; [done..|by rw Hs]|].
  right. exists state, flow. injection Hc as Hflow Hdel. split_and!; [done..|].
  pose proof (authorize_session http_Do clock a session flow (queryGet r "code") r (MkServer (s_pending s') (s_rest s))) as H.
  rw -Ha in H. destruct H as [_ [H|H]]; [left; by rw Hs|by right].
Qed.

(** ** Witnesses *)


(** Disconnecting without a session succeeds, and does nothing. *)
Lemma disconnect_anonymous {W} `{!Store W} a r (s : server W) :
  r_origin r = Auth_origin a → r_Cookie r sessionCookie = None →
  let '(resp, s') := disconnect a r s in w_status resp = 204 ∧ s' = s.
Proof. intros Ho Hc. by rw /disconnect Hc bool_decide_false ?Ho; [naive_solver|]. Qed.
