(* ===== verification/ImportHttp.v ===== *)
(** internal/spotify/import_http.go: the authenticated endpoints for listing
    playlists, requesting imports and reading them.  They share the session,
    the failures and the wrapper of SpotifyAuth.v. *)
From S2P Require Import Prelude GoStrings Errors Json Http WebServer Models SpotifyTypes Database SpotifyStore SpotifyClient SpotifyAuth Imports.
Local Open Scope string_scope.
Local Open Scope list_scope.
Local Open Scope Z_scope.

(** ** Documents *)

Definition marshalCount (total : Z) : json := JObject [("total", JInt total)].
Definition marshalSpotifyPlaylist (p : SpotifyPlaylist) : json := JObject (
  [("id", marshalString (SpotifyPlaylist_ID p)); ("name", marshalString (SpotifyPlaylist_Name p));
   ("snapshot_id", marshalString (SpotifyPlaylist_SnapshotID p));
   ("external_urls", JObject [("spotify", marshalString (SpotifyPlaylist_URL p))])] ++
  omitempty (bool_decide (SpotifyPlaylist_Items p = None)) "items" (marshalPtr marshalCount (SpotifyPlaylist_Items p)) ++
  omitempty (bool_decide (SpotifyPlaylist_Tracks p = None)) "tracks" (marshalPtr marshalCount (SpotifyPlaylist_Tracks p))).

Definition marshalPage {T} (f : T → json) (p : Page T) : json := JObject
  [("items", JArray (f <$> Page_Items p)); ("total", JInt (Page_Total p)); ("offset", JInt (Page_Offset p));
   ("next_offset", marshalPtr JInt (Page_NextOffset p))].

Definition marshalImportStatus (s : ImportStatus) : json := JObject (
  [("id", marshalString (ImportStatus_ID s)); ("playlist_id", marshalString (ImportStatus_PlaylistID s));
   ("state", marshalString (ImportStatus_State s))] ++
  omitempty (bool_decide (ImportStatus_ErrorCode s = "")) "error_code" (marshalString (ImportStatus_ErrorCode s))).

Definition marshalSnapshot (s : Snapshot) : json := JObject
  [("import_id", marshalString (Snapshot_ImportID s)); ("playlist_id", marshalString (Snapshot_PlaylistID s));
   ("snapshot_id", marshalString (Snapshot_SnapshotID s)); ("name", marshalString (Snapshot_Name s));
   ("spotify_url", marshalString (Snapshot_SpotifyURL s)); ("total", JInt (Snapshot_Total s));
   ("created_at", JTime (Snapshot_CreatedAt s)); ("offset", JInt (Snapshot_Offset s));
   ("next_offset", marshalPtr JInt (Snapshot_NextOffset s)); ("items", JArray (marshalEntry <$> Snapshot_Items s))].

(** The answer to a request for an import; the map's keys are written in order. *)
Definition marshalImportLocation (importID : string) : json :=
  let location := "/api/spotify/imports/" +:+ importID in
  JObject [("import_id", marshalString importID); ("snapshot_url", marshalString (location +:+ "/snapshot"));
           ("status_url", marshalString location)].

(** ** Handlers *)

(** [hash, ok := a.session(w, r); if !ok { return }]. *)
Definition withSession {S} (r : HttpRequest) (next : string → Reply S) : Reply S :=
  match requestSession r with
  | None => reply (failure SpotifyErrNoConnection)
  | Some hash => next hash
  end.

(** [offset, limit, ok := pagination(w, r, max); if !ok { return }]. *)
Definition withPagination {S} (defaultLimit max : Z) (r : HttpRequest) (next : Z → Z → Reply S) : Reply S :=
  match pagination defaultLimit max r with
  | inl resp => reply resp
  | inr (offset, limit) => next offset limit
  end.

Section import_http.
Context {R : Type} (http_Do : Request → M (world R) error Response) (clock : world R → Z) `{!Store (world R)} (a : Auth).
Implicit Types (r : HttpRequest).

Definition listPlaylists r : Reply (world R) :=
  withSession r (λ hash, withPagination 50 50 r (λ offset limit,
    call (Playlists http_Do clock (Auth_client a) hash offset limit) (λ page,
    match page with
    | Err err => reply (failure err)
    | Ok page => reply (writeJSON 200 (marshalPage marshalSpotifyPlaylist page))
    end))).

Definition requestImport (freshID : string) r : Reply (world R) :=
  if bool_decide (r_origin r ≠ Auth_origin a) then reply (http_Error "Origin not allowed" 403) else
  withSession r (λ hash,
    if negb (validPlaylistID (r_id r)) then reply (http_Error "Invalid playlist ID" 400) else
    call (Enqueue freshID hash (r_id r)) (λ importID,
    match importID with
    | Err err => if errors_Is err ErrTooManyImports then reply (http_Error "Too many active imports" 429)
                 else reply (failure err)
    | Ok importID =>
        reply (withHeader "Location" ("/api/spotify/imports/" +:+ importID)
                 (writeJSON 202 (marshalImportLocation importID)))
    end)).

Definition getImport r : Reply (world R) :=
  withSession r (λ hash,
    call (Status hash (r_id r)) (λ status,
    match status with
    | Err err => if errors_Is err ErrImportNotFound then reply NotFound else reply (http_Error "Could not read import" 500)
    | Ok status => reply (writeJSON 200 (marshalImportStatus status))
    end)).

Definition getSnapshot r : Reply (world R) :=
  withSession r (λ hash, withPagination 50 100 r (λ offset limit,
    call (ReadPage hash (r_id r) offset limit) (λ snapshot,
    match snapshot with
    | Err err => if errors_Is err ErrImportNotFound then reply NotFound else reply (http_Error "Could not read snapshot" 500)
    | Ok snapshot => reply (writeJSON 200 (marshalSnapshot snapshot))
    end))).
End import_http.
