(* ===== verification/AppleHttp.v ===== *)
(** internal/applemusic/http.go: connecting and disconnecting an Apple Music
    account, and the listing of its playlists.  The random session
    is an argument. *)
From S2P Require Import Prelude GoStrings Errors Json Http WebServer Models Database SpotifyStore AppleClient AppleConnections.
Local Open Scope string_scope.
Local Open Scope list_scope.
Local Open Scope Z_scope.
Local Open Scope go_scope.

(** The input of a connection request. *)
Definition unmarshalConnect (j : json) : result (string * string) :=
  let* fs := fieldsOf j in
  let* userToken := unmarshalString (getField fs "user_token") in
  let* storefront := unmarshalString (getField fs "storefront") in
  Ok (userToken, storefront).

Definition marshalApplePlaylist (p : ApplePlaylist) : json := JObject
  [("id", marshalString (ApplePlaylist_ID p));
   ("attributes", JObject
      [("name", marshalString (ApplePlaylist_Name p));
       ("description", JObject [("standard", marshalString (ApplePlaylist_Description p))]);
       ("url", marshalString (ApplePlaylist_URL p))])].
Definition marshalApplePage (p : ApplePage ApplePlaylist) : json := JObject
  [("data", marshalSlice marshalApplePlaylist (ApplePage_Data p)); ("next", marshalString (ApplePage_Next p))].

Section apple_http.
Context {W : Type} (http_Do : Request → M W error Response) (clock : W → Z) (DeveloperToken : W → option string)
  (baseURL : string) `{!AppleStore W} (origin : string).
Implicit Types (r : HttpRequest).

Definition appleCookie r (value : string) (age : Z) : Cookie :=
  MkCookie "music_session" value "/" age true (r_TLS r) true.

(** What is connected: the token and storefront of an acceptable input. *)
Definition connectInput r : HttpResponse + string * string :=
  match decodeBody 8192 unmarshalConnect r with
  | Err _ => inl (http_Error "user_token and storefront are required" 400)
  | Ok (userToken, storefront) =>
      if bool_decide (userToken = "") || bool_decide (storefront = "")
      then inl (http_Error "user_token and storefront are required" 400)
      else if (4096 <? slen userToken) || (16 <? slen storefront)
      then inl (http_Error "invalid Apple Music connection" 400)
      else inr (userToken, storefront)
  end.

Definition connectApple (session : string) r : Reply W :=
  if bool_decide (r_origin r ≠ origin) then reply (http_Error "Origin not allowed" 403) else
  match connectInput r with
  | inl resp => reply resp
  | inr (userToken, storefront) =>
      call (ApplePlaylists http_Do DeveloperToken baseURL userToken storefront 0 1) (λ checked,
      match checked with
      | Err _ => reply (http_Error "Apple Music authorization failed" 502)
      | Ok _ =>
          let hash := sessionHash session in
          let oldHash := match r_Cookie r "music_session" with Some value => sessionHash value | None => "" end in
          λ w, call (apple_Save hash oldHash (MkAppleConnection userToken storefront) (clock w + 30 * 24 * 60 * Minute)) (λ saved,
            match saved with
            | Err _ => reply (http_Error "Could not save Apple Music connection" 500)
            | Ok _ =>
                reply (withCookie (appleCookie r session (30 * 24 * 60 * 60))
                         (writeJSON 201 (JObject [("connected", JBool true); ("storefront", marshalString storefront)])))
            end) w
      end)
  end.

Definition listApplePlaylists r : Reply W :=
  match r_Cookie r "music_session" with
  | None => reply (http_Error "Connect Apple Music first" 401)
  | Some value =>
      call (apple_Load (sessionHash value)) (λ connection,
      match connection with
      | Err err => if errors_Is err AppleErrNoConnection then reply (http_Error "Connect Apple Music first" 401)
                   else reply (http_Error "Could not load Apple Music connection" 500)
      | Ok connection =>
          call (ApplePlaylists http_Do DeveloperToken baseURL (AppleConnection_UserToken connection)
                  (AppleConnection_Storefront connection) 0 50) (λ page,
          match page with
          | Err _ => reply (http_Error "Could not list Apple Music playlists" 502)
          | Ok page => reply (writeJSON 200 (marshalApplePage page))
          end)
      end)
  end.

(** An error of the deletion is ignored. *)
Definition disconnectApple r : Reply W :=
  if bool_decide (r_origin r ≠ origin) then reply (http_Error "Origin not allowed" 403) else
  let done_ := reply (withCookie (appleCookie r "" (-1)) (WriteHeader 204)) in
  match r_Cookie r "music_session" with
  | None => done_
  | Some value => call (apple_Delete (sessionHash value)) (λ _, done_)
  end.
End apple_http.
