(* ===== verification/TransferHttp.v ===== *)
(** internal/transfer/http.go: the endpoints that create, read and run transfer
    previews. *)
From S2P Require Import Prelude GoStrings Errors Json Http WebServer Models Matcher SpotifyTypes Database TransferStore Service.
Local Open Scope string_scope.
Local Open Scope list_scope.
Local Open Scope Z_scope.
Local Open Scope go_scope.

(** ** Documents *)

Definition matchStatusText (s : MatchStatus) : string :=
  match s with
  | MatchStatusMatched => "matched" | MatchStatusAmbiguous => "ambiguous"
  | MatchStatusMissing => "missing" | MatchStatusUnsupported => "unsupported"
  end.

Definition marshalPreviewEntry (e : PreviewEntry) : json := JObject (
  [("position", JInt (PreviewEntry_Position e)); ("source", marshalPlaylistEntry (PreviewEntry_Source e));
   ("status", marshalString (matchStatusText (PreviewEntry_Status e)))] ++
  omitempty (bool_decide (PreviewEntry_Matched e = None)) "matched" (marshalPtr marshalTrack (PreviewEntry_Matched e)) ++
  omitempty (bool_decide (elems (PreviewEntry_Candidates e) = [])) "candidates"
    (marshalSlice marshalTrack (PreviewEntry_Candidates e)) ++
  omitempty (bool_decide (PreviewEntry_Reason e = "")) "reason" (marshalString (PreviewEntry_Reason e))).

Definition marshalTransferPreview (p : TransferPreview) : json := JObject
  [("id", marshalString (TransferPreview_ID p)); ("source", marshalPlaylist (TransferPreview_Source p));
   ("destination_provider", marshalString (TransferPreview_DestinationProvider p));
   ("state", marshalString (TransferPreview_State p)); ("created_at", JTime (TransferPreview_CreatedAt p));
   ("entries", JArray (marshalPreviewEntry <$> TransferPreview_Entries p))].

Definition marshalRunStatus (s : TransferRunStatus) : json := JObject (
  [("id", marshalString (TransferRunStatus_ID s)); ("preview_id", marshalString (TransferRunStatus_PreviewID s));
   ("state", marshalString (TransferRunStatus_State s))] ++
  omitempty (bool_decide (TransferRunStatus_ErrorCode s = "")) "error_code" (marshalString (TransferRunStatus_ErrorCode s)) ++
  omitempty (bool_decide (TransferRunStatus_DestinationPlaylistID s = "")) "destination_playlist_id"
    (marshalString (TransferRunStatus_DestinationPlaylistID s)) ++
  [("next_position", JInt (TransferRunStatus_NextPosition s)); ("created_at", JTime (TransferRunStatus_CreatedAt s));
   ("updated_at", JTime (TransferRunStatus_UpdatedAt s))]).

(** The input of a preview request. *)
Definition unmarshalPreviewInput (j : json) : result (string * string * string) :=
  let* fs := fieldsOf j in
  let* sourceProvider := unmarshalString (getField fs "source_provider") in
  let* sourceSnapshotID := unmarshalString (getField fs "source_snapshot_id") in
  let* destinationProvider := unmarshalString (getField fs "destination_provider") in
  Ok (sourceProvider, sourceSnapshotID, destinationProvider).

(** This package's [writeJSON] also forbids caching. *)
Definition writeTransferJSON (code : Z) (document : json) : HttpResponse :=
  withHeader "Cache-Control" "no-store" (writeJSON code document).

(** ** Handlers *)

(** [hash, ok := sessionHashFromRequest(w, r); if !ok { return }]. *)
Definition sessionHashFromRequest {S} (r : HttpRequest) (next : string → Reply S) : Reply S :=
  match requestSession r with
  | None => reply (http_Error "Connect a music provider first" 401)
  | Some hash => next hash
  end.

Section transfer_http.
Context `{Unicode} {R : Type} (service : Service R) (origin : string).
Implicit Types (r : HttpRequest).

(** [id] and [clock] are the random ID and the time that SavePreview draws. *)
Definition createPreview (id : string) (clock : Z) r : Reply (world R) :=
  if bool_decide (r_origin r ≠ origin) then reply (http_Error "Origin not allowed" 403) else
  sessionHashFromRequest r (λ hash,
    match decodeBody 4096 unmarshalPreviewInput r with
    | Err _ => reply (http_Error "invalid preview request" 400)
    | Ok (sourceProvider, sourceSnapshotID, destinationProvider) =>
        call (CreatePreview service id clock hash sourceProvider sourceSnapshotID destinationProvider) (λ preview,
        match preview with
        | Err err =>
            if errors_Is err ErrInvalidProvider then reply (http_Error "unsupported provider" 400)
            else if errors_Is err ErrSourceSnapshotNotFound then reply NotFound
            else reply (http_Error "could not create transfer preview" 502)
        | Ok preview => reply (writeTransferJSON 201 (marshalTransferPreview preview))
        end)
    end).

Definition getPreview r : Reply (world R) :=
  sessionHashFromRequest r (λ hash,
    match pagination 100 500 r with
    | inl resp => reply resp
    | inr (offset, limit) =>
        call (Preview hash (r_id r) offset limit) (λ preview,
        match preview with
        | Err err => if errors_Is err ErrPreviewNotFound then reply NotFound
                     else reply (http_Error "could not load transfer preview" 500)
        | Ok preview => reply (writeTransferJSON 200 (marshalTransferPreview preview))
        end)
    end).

Definition startRun (freshID : string) r : Reply (world R) :=
  if bool_decide (r_origin r ≠ origin) then reply (http_Error "Origin not allowed" 403) else
  sessionHashFromRequest r (λ hash,
    call (EnqueueRun freshID hash (r_id r)) (λ run,
    match run with
    | Err err => if errors_Is err ErrPreviewNotFound then reply NotFound
                 else reply (http_Error "could not enqueue transfer" 500)
    | Ok run =>
        let location := "/api/transfers/runs/" +:+ TransferRunStatus_ID run in
        reply (withHeader "Location" location (writeTransferJSON 202
          (JObject [("run_id", marshalString (TransferRunStatus_ID run)); ("status_url", marshalString location)])))
    end)).

Definition getRun r : Reply (world R) :=
  sessionHashFromRequest r (λ hash,
    call (RunStatus hash (r_id r)) (λ status,
    match status with
    | Err err => if errors_Is err ErrRunNotFound then reply NotFound
                 else reply (http_Error "could not load transfer run" 500)
    | Ok status => reply (writeTransferJSON 200 (marshalRunStatus status))
    end)).
End transfer_http.
