(* ===== verification/HealthHttp.v ===== *)
(** internal/httpapi/server.go: the liveness and readiness endpoints. *)
From S2P Require Import Prelude GoStrings Errors Json WebServer.
Local Open Scope string_scope.
Local Open Scope list_scope.
Local Open Scope Z_scope.

Definition writeStatus (code : Z) (status : string) : HttpResponse :=
  withHeader "Cache-Control" "no-store" (writeJSON code (JObject [("status", marshalString status)])).

Section health.
Context {W : Type}.

Definition healthz : Reply W := reply (writeStatus 200 "ok").

(** The deadline of two seconds is one of the reasons for which the check may
    fail. *)
Definition readyz (ready : M W error unit) : Reply W :=
  call ready (λ checked,
    match checked with
    | Err _ => reply (writeStatus 503 "unavailable")
    | Ok _ => reply (writeStatus 200 "ready")
    end).
End health.
