(* ===== verification/Config.v ===== *)
(** internal/config: the configuration of the executables, read from the
    environment and checked before anything starts.

    [Getenv] is the process environment.  What net/url, net and log/slog make of
    a string is the class [GoParsers]: the results of parsing, of which this code
    only checks fields.  The base64 encoding of the key is written out. *)
From S2P Require Import Prelude GoStrings Errors Json Http WebServer.
Local Open Scope string_scope.
Local Open Scope list_scope.
Local Open Scope Z_scope.
Local Open Scope go_scope.

(** The fields of a parsed [url.URL] that are looked at. *)
Record URL : Type := MkURL {
  URL_Scheme : string;
  URL_Host : string;
  URL_Hostname : string;      (* u.Hostname() *)
  URL_HasUser : bool;         (* u.User != nil *)
  URL_Path : string;
  URL_RawQuery : string;
  URL_Fragment : string;
}.

Class GoParsers : Type := {
  url_Parse : string → option URL;
  SplitHostPort : string → option (string * string);
  IsLoopbackIP : string → bool;        (* ip := net.ParseIP(s); ip != nil && ip.IsLoopback() *)
  LevelUnmarshalText : string → option Z;
}.

(** ** base64.StdEncoding *)

Definition stdDigit (n : Z) : Z :=
  if n <? 26 then 65 + n else if n <? 52 then 71 + n else if n <? 62 then n - 4 else if n =? 62 then 43 else 47.
Definition stdValue (b : Z) : option Z :=
  if between 65 90 b then Some (b - 65) else if between 97 122 b then Some (b - 71)
  else if between 48 57 b then Some (b + 4) else if b =? 43 then Some 62 else if b =? 47 then Some 63 else None.

Definition padding : Z := 61.

(** [EncodeToString]: groups of three bytes, the last one padded. *)
Fixpoint stdEncode (bs : list Z) : list Z :=
  match bs with
  | a :: b :: c :: rest =>
      [stdDigit (a / 4); stdDigit (16 * (a `mod` 4) + b / 16); stdDigit (4 * (b `mod` 16) + c / 64); stdDigit (c `mod` 64)]
      ++ stdEncode rest
  | [a; b] => [stdDigit (a / 4); stdDigit (16 * (a `mod` 4) + b / 16); stdDigit (4 * (b `mod` 16)); padding]
  | [a] => [stdDigit (a / 4); stdDigit (16 * (a `mod` 4)); padding; padding]
  | [] => []
  end.

(** The decoder on what is left when line breaks are skipped.  Only the last
    group may be padded; the bits that it does not use are ignored. *)
Fixpoint stdDecodeGroups (cs : list Z) : option (list Z) :=
  match cs with
  | [] => Some []
  | c1 :: c2 :: c3 :: c4 :: rest =>
      w ← stdValue c1;
      x ← stdValue c2;
      if (c3 =? padding) && (c4 =? padding) then
        match rest with [] => Some [4 * w + x / 16] | _ => None end
      else
        y ← stdValue c3;
        if c4 =? padding then
          match rest with [] => Some [4 * w + x / 16; 16 * (x `mod` 16) + y / 4] | _ => None end
        else
          z ← stdValue c4;
          bs ← stdDecodeGroups rest;
          Some ([4 * w + x / 16; 16 * (x `mod` 16) + y / 4; 64 * (y `mod` 4) + z] ++ bs)
  | _ => None
  end.

Definition stdDecode (s : string) : option (list Z) :=
  stdDecodeGroups (filter (λ b, b ≠ 10 ∧ b ≠ 13) (bytes s)).

(** ** The configuration *)

Record AppleMusicConfig : Type := MkAppleMusicConfig {
  TeamID : string;
  KeyID : string;
  PrivateKeyPEM : string;
}.

Record Config : Type := MkConfig {
  DatabaseURL : string;
  HTTPAddr : string;
  LogLevel : Z;
  WorkerConcurrency : Z;
  ShutdownTimeout : Z;
}.

Record SpotifyConfig : Type := MkSpotifyConfig {
  ClientID : string;
  RedirectURI : string;
  EncryptionKey : list Z;
}.

Section config.
Context `{GoParsers} (Getenv : string → string).

Definition LoadAppleMusic : result AppleMusicConfig :=
  let c := MkAppleMusicConfig (Getenv "APPLE_TEAM_ID") (Getenv "APPLE_KEY_ID") (Getenv "APPLE_PRIVATE_KEY") in
  if bool_decide (TeamID c = "") && bool_decide (KeyID c = "") && bool_decide (PrivateKeyPEM c = "") then Ok c
  else if bool_decide (TeamID c = "") || bool_decide (KeyID c = "") || bool_decide (PrivateKeyPEM c = "")
  then Err (ErrorString "APPLE_TEAM_ID, APPLE_KEY_ID, and APPLE_PRIVATE_KEY must be set together")
  else Ok c.

(** The scheme and host of the database URL. *)
Definition validDatabaseURL (s : string) : bool :=
  match url_Parse s with
  | None => false
  | Some u => negb (bool_decide (URL_Host u = "")) &&
              (bool_decide (URL_Scheme u = "postgres") || bool_decide (URL_Scheme u = "postgresql"))
  end.

Definition validAddr (addr : string) : bool :=
  match SplitHostPort addr with Some (_, port) => negb (bool_decide (port = "")) | None => false end.

(** An optional variable: [parse] is asked only where it is set. *)
Definition optional {A} (name : string) (default_ : A) (parse : string → option A) (text : string) : result A :=
  let v := Getenv name in
  if bool_decide (v = "") then Ok default_ else
  match parse v with Some a => Ok a | None => Err (ErrorString text) end.

Definition parseConcurrency (v : string) : option Z :=
  n ← AtoiErr v; if (n <? 1) || (100 <? n) then None else Some n.

Definition Load : result Config :=
  let databaseURL := Getenv "DATABASE_URL" in
  if negb (validDatabaseURL databaseURL)
  then Err (ErrorString "DATABASE_URL must be a postgres:// or postgresql:// URL") else
  let* addr := optional "HTTP_ADDR" "127.0.0.1:8080" Some "" in
  if negb (validAddr addr) then Err (ErrorString "HTTP_ADDR must be host:port") else
  let* level := optional "LOG_LEVEL" 0 LevelUnmarshalText "LOG_LEVEL must be debug, info, warn, or error" in
  let* concurrency := optional "WORKER_CONCURRENCY" 4 parseConcurrency "WORKER_CONCURRENCY must be between 1 and 100" in
  Ok (MkConfig databaseURL addr level concurrency (30 * Second)).

Definition LoadTokenEncryptionKey : result (list Z) :=
  match stdDecode (Getenv "TOKEN_ENCRYPTION_KEY") with
  | Some key =>
      if negb (len key =? 32)
      then Err (ErrorString "TOKEN_ENCRYPTION_KEY must be base64 encoding of exactly 32 random bytes")
      else Ok key
  | None => Err (ErrorString "TOKEN_ENCRYPTION_KEY must be base64 encoding of exactly 32 random bytes")
  end.

(** The shape of the redirect URI, before its scheme is looked at. *)
Definition validRedirect (u : URL) : bool :=
  negb (bool_decide (URL_Host u = "") || URL_HasUser u || bool_decide (URL_RawQuery u ≠ "") ||
        bool_decide (URL_Fragment u ≠ "") || bool_decide (URL_Path u ≠ "/auth/spotify/callback") ||
        bool_decide (URL_Hostname u = "localhost")).

Definition LoadSpotify : result SpotifyConfig :=
  let clientID := Getenv "SPOTIFY_CLIENT_ID" in
  let redirectURI := Getenv "SPOTIFY_REDIRECT_URI" in
  if bool_decide (clientID = "") then Ok (MkSpotifyConfig clientID redirectURI []) else
  let badURI := ErrorString "SPOTIFY_REDIRECT_URI must use /auth/spotify/callback, without credentials, query, or fragment" in
  match url_Parse redirectURI with
  | None => Err badURI
  | Some u =>
      if negb (validRedirect u) then Err badURI else
      let loopback := IsLoopbackIP (URL_Hostname u) in
      if bool_decide (URL_Scheme u ≠ "https") && negb (bool_decide (URL_Scheme u = "http") && loopback)
      then Err (ErrorString "SPOTIFY_REDIRECT_URI requires HTTPS, except for an explicit loopback IP")
      else let* key := LoadTokenEncryptionKey in Ok (MkSpotifyConfig clientID redirectURI key)
  end.
End config.

(** ** Proofs *)

Lemma stdValue_digit n : 0 ≤ n < 64 → stdValue (stdDigit n) = Some n ∧ stdDigit n ≠ padding ∧ stdDigit n ≠ 10 ∧ stdDigit n ≠ 13.
Proof.
  intros Hn. rw /stdDigit /stdValue /padding.
  destruct (Z.ltb_spec n 26); [rw between_true; [lia|]; split_and!; [f_equal|..]; lia|].
  destruct (Z.ltb_spec n 52); [rw between_false; [lia|]; rw between_true; [lia|]; split_and!; [f_equal|..]; lia|].
  destruct (Z.ltb_spec n 62); [do 2 (rw between_false; [lia|]); rw between_true; [lia|]; split_and!; [f_equal|..]; lia|].
  destruct (Z.eqb_spec n 62) as [->|]; [done|]. by assert (n = 63) as -> by lia.
Qed.

Lemma stdDecode_digits w x y z rest :
  0 ≤ w < 64 → 0 ≤ x < 64 → 0 ≤ y < 64 → 0 ≤ z < 64 →
  stdDecodeGroups (stdDigit w :: stdDigit x :: stdDigit y :: stdDigit z :: rest) =
  (bs ← stdDecodeGroups rest; Some ([4 * w + x / 16; 16 * (x `mod` 16) + y / 4; 64 * (y `mod` 4) + z] ++ bs)).
Proof.
  intros Hw Hx Hy Hz. cbn [stdDecodeGroups].
  destruct (stdValue_digit w Hw) as [-> _], (stdValue_digit x Hx) as [-> _],
    (stdValue_digit y Hy) as (-> & Hy' & _), (stdValue_digit z Hz) as (-> & Hz' & _). cbn [mbind option_bind].
  by rw (proj2 (Z.eqb_neq _ _) Hy') (proj2 (Z.eqb_neq _ _) Hz').
Qed.

Lemma stdDecode_one w x :
  0 ≤ w < 64 → 0 ≤ x < 64 → stdDecodeGroups [stdDigit w; stdDigit x; padding; padding] = Some [4 * w + x / 16].
Proof.
  intros Hw Hx. cbn [stdDecodeGroups]. by destruct (stdValue_digit w Hw) as [-> _], (stdValue_digit x Hx) as [-> _].
Qed.

Lemma stdDecode_two w x y :
  0 ≤ w < 64 → 0 ≤ x < 64 → 0 ≤ y < 64 →
  stdDecodeGroups [stdDigit w; stdDigit x; stdDigit y; padding] = Some [4 * w + x / 16; 16 * (x `mod` 16) + y / 4].
Proof.
  intros Hw Hx Hy. cbn [stdDecodeGroups].
  destruct (stdValue_digit w Hw) as [-> _], (stdValue_digit x Hx) as [-> _], (stdValue_digit y Hy) as (-> & Hy' & _).
  cbn [mbind option_bind]. by rw (proj2 (Z.eqb_neq _ _) Hy').
Qed.

(** The induction over groups of three. *)
Lemma list_ind3 {A} (P : list A → Prop) :
  P [] → (∀ a, P [a]) → (∀ a b, P [a; b]) → (∀ a b c l, P l → P (a :: b :: c :: l)) → ∀ l, P l.
Proof.
  intros H0 H1 H2 H3. fix IH 1. intros [|a [|b [|c l]]]; [done|apply H1|apply H2|apply H3, IH].
Qed.

(** Arithmetic with divisions by constants. *)
Ltac divlia := Z.to_euclidean_division_equations; lia.

Lemma stdDecodeGroups_encode bs : Forall is_byte bs → stdDecodeGroups (stdEncode bs) = Some bs.
Proof.
  induction bs as [|a|a b|a b c l IH] using list_ind3; intros Hb; repeat apply Forall_cons in Hb as [? Hb]; unfold is_byte in *.
  - done.
  - etrans; [apply stdDecode_one; divlia|]. do 2 f_equal. divlia.
  - etrans; [apply stdDecode_two; divlia|]. do 2 f_equal; [divlia|]. f_equal. divlia.
  - etrans; [apply stdDecode_digits; divlia|]. rw IH //. cbn [mbind option_bind app]. do 2 f_equal; [divlia|].
    f_equal; [divlia|]. f_equal. divlia.
Qed.

Lemma base64_breaks l : Forall (λ b, 0 ≤ b < 256 ∧ b ≠ 10 ∧ b ≠ 13) l → filter (λ b, b ≠ 10 ∧ b ≠ 13) (bytes (of_bytes l)) = l.
Proof.
  intros Hl. rw bytes_of_bytes; [eapply Forall_impl; [exact Hl|]; rw /is_byte; naive_solver|].
  apply list_filter_all. eapply Forall_impl; [exact Hl|]. naive_solver.
Qed.

Lemma stdDigit_plain n : 0 ≤ n < 64 → 0 ≤ stdDigit n < 256 ∧ stdDigit n ≠ 10 ∧ stdDigit n ≠ 13.
Proof. intros Hn. rw /stdDigit. repeat case_match; lia. Qed.

Lemma stdEncode_plain bs : Forall is_byte bs → Forall (λ b, 0 ≤ b < 256 ∧ b ≠ 10 ∧ b ≠ 13) (stdEncode bs).
Proof.
  assert (0 ≤ padding < 256 ∧ padding ≠ 10 ∧ padding ≠ 13) as Hpad by done.
  induction bs as [|a|a b|a b c l IH] using list_ind3; intros Hb; repeat apply Forall_cons in Hb as [? Hb]; unfold is_byte in *;
    rw /stdEncode; repeat (apply Forall_cons; split; [first [exact Hpad|apply stdDigit_plain; divlia]|]); try done.
  by apply IH.
Qed.

Lemma optional_Ok {A} Getenv name (d : A) parse text a :
  optional Getenv name d parse text = Ok a → a = d ∨ parse (Getenv name) = Some a.
Proof. rw /optional. destruct (bool_decide _); [naive_solver|]. destruct (parse _); naive_solver. Qed.

Lemma LoadTokenEncryptionKey_length Getenv key : LoadTokenEncryptionKey Getenv = Ok key → len key = 32.
Proof.
  rw /LoadTokenEncryptionKey. destruct (stdDecode _) as [k|]; [|done].
  destruct (Z.eqb_spec (len k) 32); [|done]. by intros [= <-].
Qed.

(** What an accepted Spotify configuration was checked for. *)
Lemma LoadSpotify_Ok `{GoParsers} Getenv c : LoadSpotify Getenv = Ok c → ClientID c ≠ "" →
  RedirectURI c = Getenv "SPOTIFY_REDIRECT_URI" ∧ len (EncryptionKey c) = 32 ∧
  ∃ u, url_Parse (RedirectURI c) = Some u ∧ validRedirect u = true ∧
    (URL_Scheme u = "https" ∨ (URL_Scheme u = "http" ∧ IsLoopbackIP (URL_Hostname u) = true)).
Proof.
  rw /LoadSpotify. case_bool_decide as Hid; [by intros [= <-]|].
  destruct (url_Parse _) as [u|] eqn:Hu; [|done]. destruct (validRedirect u) eqn:Hv; [|done]. cbn [negb].
  destruct (bool_decide (URL_Scheme u ≠ "https") && _) eqn:Hs; [done|].
  intros (key & Hk%LoadTokenEncryptionKey_length & [= <-])%res_bind_inv _. cbn. split_and!; [done..|].
  exists u. split_and!; [done..|].
  apply andb_false_iff in Hs as [Hs%bool_decide_eq_false|Hs%negb_false_iff]; [left; by apply dec_stable|].
  right. by apply andb_true_iff in Hs as [Hs%bool_decide_eq_true ?].
Qed.

Lemma Load_timeout `{GoParsers} Getenv c : Load Getenv = Ok c → ShutdownTimeout c = 30 * Second.
Proof.
  rw /Load. destruct (negb (validDatabaseURL _)); [done|].
  intros (addr & _ & Hc)%res_bind_inv. destruct (negb (validAddr addr)); [done|].
  by apply res_bind_inv in Hc as (level & _ & (n & _ & [= <-])%res_bind_inv).
Qed.

Lemma Load_concurrency `{GoParsers} Getenv c : Load Getenv = Ok c → 1 ≤ WorkerConcurrency c ≤ 100.
Proof.
  rw /Load. destruct (negb (validDatabaseURL _)); [done|].
  intros (addr & _ & Hc)%res_bind_inv. destruct (negb (validAddr addr)); [done|].
  apply res_bind_inv in Hc as (level & _ & (n & Hn & [= <-])%res_bind_inv). cbn.
  apply optional_Ok in Hn as [->|Hn]; [done|]. rw /parseConcurrency in Hn.
  destruct (AtoiErr _) as [m|]; [|done]. cbn in Hn. destruct ((m <? 1) || _) eqn:E; [done|]. injection Hn as ->. lia.
Qed.

(** ** Properties *)

(** The base64 text of any 32 bytes is accepted as the encryption key and
    gives these bytes back. *)
Theorem LoadTokenEncryptionKey_roundtrip Getenv key :
  Forall is_byte key → len key = 32 → Getenv "TOKEN_ENCRYPTION_KEY" = of_bytes (stdEncode key) →
  LoadTokenEncryptionKey Getenv = Ok key.
Proof.
  intros Hb Hlen Henv. rw /LoadTokenEncryptionKey Henv /stdDecode base64_breaks; [by apply stdEncode_plain|].
  by rw stdDecodeGroups_encode // Hlen.
Qed.

(** C38: an enabled Spotify configuration is safe: the redirect URI is the
    callback of this server, over HTTPS or on a loopback address, without
    credentials, query or fragment, and the key has 32 bytes. *)
Theorem LoadSpotify_safe `{GoParsers} Getenv c :
  LoadSpotify Getenv = Ok c → ClientID c ≠ "" →
  len (EncryptionKey c) = 32 ∧
  ∃ u, url_Parse (RedirectURI c) = Some u ∧ URL_Path u = "/auth/spotify/callback" ∧ URL_HasUser u = false ∧
    URL_RawQuery u = "" ∧ URL_Fragment u = "" ∧ URL_Host u ≠ "" ∧
    (URL_Scheme u = "https" ∨ (URL_Scheme u = "http" ∧ IsLoopbackIP (URL_Hostname u) = true)).
Proof.
  intros Hl Hid. destruct (LoadSpotify_Ok _ _ Hl Hid) as (_ & Hkey & u & Hu & Hv & Hs). split; [done|]. exists u.
  rw /validRedirect in Hv. apply negb_true_iff in Hv. rw !orb_false_iff !bool_decide_eq_false in Hv.
  split_and!; try done; try (apply dec_stable; naive_solver); naive_solver.
Qed.

(** A loaded configuration is complete: a PostgreSQL URL with a host, an
    address with a port, between 1 and 100 workers (4 by default), and thirty
    seconds for shutting down. *)
Theorem Load_valid `{GoParsers} Getenv c :
  Load Getenv = Ok c →
  validDatabaseURL (DatabaseURL c) = true ∧ validAddr (HTTPAddr c) = true ∧ 1 ≤ WorkerConcurrency c ≤ 100 ∧
  ShutdownTimeout c = 30 * Second ∧ (Getenv "WORKER_CONCURRENCY" = "" → WorkerConcurrency c = 4).
Proof.
  intros Hl. apply Load_concurrency in Hl as Hn. revert Hl.
  rw /Load. destruct (validDatabaseURL _) eqn:Hdb; [|done]. cbn [negb].
  intros (addr & _ & Hc)%res_bind_inv. destruct (validAddr addr) eqn:Ha; [|done]. cbn [negb] in Hc.
  apply res_bind_inv in Hc as (level & _ & (n & Hd & [= <-])%res_bind_inv).
  split_and!; try done; try apply Hn. cbn. intros Hempty. rw /optional Hempty bool_decide_true // in Hd. by injection Hd as ->.
Qed.

(** ** A concrete environment *)

#[local] Instance exParsers : GoParsers := {|
  url_Parse s :=
    if bool_decide (s = "postgres://localhost/music") then Some (MkURL "postgres" "localhost" "localhost" false "/music" "" "")
    else if bool_decide (s = "http://127.0.0.1:8080/auth/spotify/callback") then
      Some (MkURL "http" "127.0.0.1:8080" "127.0.0.1" false "/auth/spotify/callback" "" "")
    else None;
  SplitHostPort s := if bool_decide (s = "127.0.0.1:8080") then Some ("127.0.0.1", "8080") else None;
  IsLoopbackIP s := bool_decide (s = "127.0.0.1");
  LevelUnmarshalText _ := None;
|}.

Definition exKey : list Z := replicate 32 7.
Definition exGetenv (name : string) : string :=
  if bool_decide (name = "TOKEN_ENCRYPTION_KEY") then of_bytes (stdEncode exKey)
  else if bool_decide (name = "SPOTIFY_CLIENT_ID") then "client"
  else if bool_decide (name = "SPOTIFY_REDIRECT_URI") then "http://127.0.0.1:8080/auth/spotify/callback"
  else if bool_decide (name = "DATABASE_URL") then "postgres://localhost/music"
  else "".

Lemma LoadTokenEncryptionKey_roundtrip_witness : LoadTokenEncryptionKey exGetenv = Ok exKey.
Proof.
  apply (LoadTokenEncryptionKey_roundtrip exGetenv exKey); [|reflexivity|reflexivity].
  apply Forall_replicate. by rw /is_byte.
Defined.

Lemma LoadSpotify_safe_witness :
  LoadSpotify exGetenv = Ok (MkSpotifyConfig "client" "http://127.0.0.1:8080/auth/spotify/callback" exKey) ∧ len exKey = 32.
Proof.
  assert (LoadSpotify exGetenv = Ok (MkSpotifyConfig "client" "http://127.0.0.1:8080/auth/spotify/callback" exKey)) as Hc
    by (vm_compute; reflexivity).
  split; [exact Hc|]. exact (proj1 (LoadSpotify_safe exGetenv _ Hc ltac:(discriminate))).
Defined.

Lemma Load_valid_witness :
  Load exGetenv = Ok (MkConfig "postgres://localhost/music" "127.0.0.1:8080" 0 4 (30 * Second)) ∧ 1 ≤ 4 ≤ 100.
Proof.
  assert (Load exGetenv = Ok (MkConfig "postgres://localhost/music" "127.0.0.1:8080" 0 4 (30 * Second))) as Hc
    by (vm_compute; reflexivity).
  split; [exact Hc|]. exact (proj1 (proj2 (proj2 (Load_valid exGetenv _ Hc)))).
Defined.
