(* ===== verification/Migrations.v ===== *)
(** internal/platform/migrations.go: the numbered migrations of the application,
    applied once each in one transaction, with checksums of what was applied.

    What the SQL of a migration does to the schema is PostgreSQL's business: the
    parameter [execSQL].  The embedded files are a parameter too: their names in
    order, with their bodies.  The advisory lock makes concurrent calls
    sequential, as they are here. *)
From S2P Require Import Prelude GoStrings Errors Sha256 Database.
Local Open Scope string_scope.
Local Open Scope list_scope.
Local Open Scope Z_scope.

(** The database as this code sees it; [app_migrations] is [None] before the
    table exists. *)
Record AppDB (Schema : Type) : Type := MkAppDB {
  schema : Schema;
  app_migrations : option (gmap string string);
}.
Arguments MkAppDB {Schema}.
Arguments schema {Schema}.
Arguments app_migrations {Schema}.

Definition checksum (body : string) : string := hexEncode (Sum256 (bytes body)).
Arguments checksum : simpl never.

Section migrations.
Context {Schema : Type} (execSQL : string → Schema → result Schema).
Implicit Types (db : AppDB Schema).

(** The working copy of the transaction, and what its next calls do. *)
Abbreviation Mw := (M (AppDB Schema * list fault) error).

Definition nextFault (fs : list fault) : fault * list fault :=
  match fs with [] => (Healthy, []) | f :: fs => (f, fs) end.

(** One statement of the transaction. *)
Definition statement {A} (u : AppDB Schema → result (A * AppDB Schema)) : Mw A := λ '(db, fs),
  let '(f, fs) := nextFault fs in
  match f with
  | Healthy => match u db with Ok (a, db') => (Ok a, (db', fs)) | Err e => (Err e, (db, fs)) end
  | Fails t | LosesReply t => (Err (DatabaseError t), (db, fs))
  end.

Definition createTable db : AppDB Schema := MkAppDB (schema db) (Some (default ∅ (app_migrations db))).

Definition selectChecksum (name : string) db : option string := m ← app_migrations db; m !! name.

(** The body of a migration. *)
Definition execute (body : string) db : result (unit * AppDB Schema) :=
  match execSQL body (schema db) with
  | Ok s => Ok (tt, MkAppDB s (app_migrations db))
  | Err e => Err e
  end.

Definition insertMigration (name sum : string) db : result (unit * AppDB Schema) :=
  match selectChecksum name db with
  | Some _ => Err (DatabaseError "unique_violation")
  | None => Ok (tt, MkAppDB (schema db) (Some (<[name := sum]> (default ∅ (app_migrations db)))))
  end.

(** [fmt.Errorf(text + ": %w", err)]. *)
Definition wrapping {A} (text : string) (m : Mw A) : Mw A := λ s,
  match m s with (Ok a, s') => (Ok a, s') | (Err e, s') => (Err (Wrapped text e), s') end.

(** The loop over the embedded files. *)
Fixpoint applyMigrations (files : list (string * string)) : Mw unit :=
  match files with
  | [] => mret tt
  | (name, body) :: rest =>
      previous ← statement (λ db, Ok (selectChecksum name db, db));
      match previous with
      | Some previous =>
          if bool_decide (previous ≠ checksum body) then raise (ErrorString ("applied migration was modified: " +:+ name))
          else applyMigrations rest
      | None =>
          wrapping ("apply " +:+ name) (statement (execute body)) ;;
          statement (insertMigration name (checksum body)) ;;
          applyMigrations rest
      end
  end.

Definition migrationBody (files : list (string * string)) : Mw unit :=
  statement (λ db, Ok (tt, db)) ;;     (* SELECT pg_advisory_xact_lock(260041) *)
  statement (λ db, Ok (tt, createTable db)) ;;
  applyMigrations files.

(** Begin, the body, and commit; without a commit the deferred rollback leaves
    the database as it was. *)
Definition MigrateApp (files : list (string * string)) (fs : list fault) db : result unit * AppDB Schema :=
  let '(f, fs) := nextFault fs in
  match f with
  | Fails t | LosesReply t => (Err (DatabaseError t), db)
  | Healthy =>
      let '(r, (db', fs)) := migrationBody files (db, fs) in
      match r with
      | Err e => (Err e, db)
      | Ok _ =>
          match (nextFault fs).1 with
          | Healthy => (Ok tt, db')
          | Fails t => (Err (DatabaseError t), db)
          | LosesReply t => (Err (DatabaseError t), db')
          end
      end
  end.

(** ** What migrating promises *)

(** Every applied migration is the one of the embedded files. *)
Definition unmodified (files : list (string * string)) db : Prop :=
  ∀ name body sum, (name, body) ∈ files → selectChecksum name db = Some sum → sum = checksum body.

(** The files that were not applied yet. *)
Definition pendingFiles (files : list (string * string)) db : list (string * string) :=
  filter (λ f, selectChecksum f.1 db = None) files.

Fixpoint runAll (files : list (string * string)) (s : Schema) : result Schema :=
  match files with
  | [] => Ok s
  | (_, body) :: rest => match execSQL body s with Ok s' => runAll rest s' | Err e => Err e end
  end.

Definition record (files : list (string * string)) (m : gmap string string) : gmap string string :=
  foldl (λ m f, <[f.1 := checksum f.2]> m) m files.

(** The database after a migration: the pending bodies ran in order, each once,
    and all of them are recorded. *)
Definition migrated (files : list (string * string)) db db' : Prop :=
  unmodified files db ∧ runAll (pendingFiles files db) (schema db) = Ok (schema db') ∧
  app_migrations db' = Some (record (pendingFiles files db) (default ∅ (app_migrations db))).

(** ** Proofs *)

Lemma statement_Ok {A} (u : AppDB Schema → result (A * AppDB Schema)) db fs a s :
  statement u (db, fs) = (Ok a, s) → u db = Ok (a, s.1).
Proof.
  rw /statement. destruct (nextFault fs) as [[] fs']; try done. destruct (u db) as [[a' db']|e]; naive_solver.
Qed.

Lemma selectChecksum_insert name sum db db' name' :
  insertMigration name sum db = Ok (tt, db') →
  schema db' = schema db ∧ selectChecksum name db = None ∧
  app_migrations db' = Some (<[name := sum]> (default ∅ (app_migrations db))) ∧
  selectChecksum name' db' = (if bool_decide (name' = name) then Some sum else selectChecksum name' db).
Proof.
  rw /insertMigration /selectChecksum. destruct db as [s m]. cbn.
  case_match; [done|]. intros [= <-]. split_and!; [done..|]. cbn.
  case_bool_decide as Hn; [rw Hn lookup_insert_eq //|]. rw lookup_insert_ne; [by apply not_eq_sym|]. by destruct m.
Qed.

Lemma pendingFiles_ext files db1 db2 :
  (∀ f, f ∈ files → selectChecksum f.1 db1 = selectChecksum f.1 db2) → pendingFiles files db1 = pendingFiles files db2.
Proof.
  rw /pendingFiles. induction files as [|f files IH]; [done|]. intros Hf. rw !filter_cons.
  rw (Hf f (list_elem_of_here _ _)) IH //. intros g Hg. apply Hf. set_solver.
Qed.

Lemma pendingFiles_cons name body files db :
  pendingFiles ((name, body) :: files) db =
  match selectChecksum name db with
  | Some _ => pendingFiles files db
  | None => (name, body) :: pendingFiles files db
  end.
Proof. rw /pendingFiles filter_cons. cbn [fst]. by destruct (selectChecksum name db). Qed.

Lemma pendingFiles_NoDup files db : NoDup files.*1 → NoDup (pendingFiles files db).*1.
Proof.
  induction files as [|[name body] files IH]; [done|]. rw fmap_cons pendingFiles_cons. intros [Hn Hnd]%NoDup_cons.
  destruct (selectChecksum name db); [by apply IH|]. rw fmap_cons. constructor; [|by apply IH].
  intros (f & Hf & [_ Hin]%list_elem_of_filter)%list_elem_of_fmap. apply Hn. rw Hf. apply list_elem_of_fmap. by exists f.
Qed.

Lemma applyMigrations_Ok files db fs s :
  NoDup files.*1 → is_Some (app_migrations db) →
  applyMigrations files (db, fs) = (Ok tt, s) → migrated files db s.1.
Proof.
  revert db fs. induction files as [|[name body] files IH]; intros db fs; cbn [applyMigrations].
  { intros _ [m Hm] [= <-]. rw /migrated /pendingFiles /= Hm. split_and!; [|done..]. by intros ??? ?%elem_of_nil. }
  rw fmap_cons. intros [Hn Hnd]%NoDup_cons Hsome. intros (previous & [db1 fs1] & Hsel%statement_Ok & Hrun)%bind_inv.
  injection Hsel as <- <-.
  assert (∀ f, f ∈ files → f.1 ≠ name) as Hne.
  { intros f Hf Heq. apply Hn. rw -Heq. apply list_elem_of_fmap. by exists f. }
  destruct (selectChecksum name db) as [sum|] eqn:Hsum.
  - case_bool_decide as Hb; [done|]. destruct (IH db fs1 Hnd Hsome Hrun) as (Hu & Hr & Ha).
    rw /migrated pendingFiles_cons Hsum. split_and!; [|done..].
    intros n b c [[= -> ->]|Hin]%elem_of_cons; [naive_solver|by apply Hu].
  - apply bind_inv in Hrun as ([] & [db2 fs2] & Hexec & Hrun). apply bind_inv in Hrun as ([] & [db3 fs3] & Hins%statement_Ok & Hrun).
    rw /wrapping in Hexec. destruct (statement (execute body) (db, fs1)) as [[[]|e] s2] eqn:Hs; [|done].
    injection Hexec as ->. apply statement_Ok in Hs. rw /execute in Hs. cbn [fst] in Hs, Hins.
    destruct (execSQL body (schema db)) as [schema'|e] eqn:Hsql; [|done]. injection Hs as <-.
    pose proof (selectChecksum_insert _ _ _ _ name Hins) as (Hschema & _ & Hmig & _). cbn in Hschema, Hmig.
    assert (∀ f, f ∈ files → selectChecksum f.1 db3 = selectChecksum f.1 db) as Hsame.
    { intros f Hf. pose proof (selectChecksum_insert _ _ _ _ f.1 Hins) as (_ & _ & _ & ->).
      by rw bool_decide_false; [apply Hne|]. }
    destruct (IH db3 fs3 Hnd ltac:(by rw Hmig) Hrun) as (Hu & Hr & Ha).
    rw (pendingFiles_ext files db3 db Hsame) in Hr Ha. rw Hschema in Hr. rw Hmig in Ha.
    rw /migrated pendingFiles_cons Hsum /= Hsql. split_and!; [|done..].
    intros n b c [[= -> ->]|Hin]%elem_of_cons; [by rw Hsum|]. rw -(Hsame (n, b) Hin). by apply Hu.
Qed.

Lemma migrationBody_Ok files db fs s :
  NoDup files.*1 → migrationBody files (db, fs) = (Ok tt, s) → migrated files db s.1.
Proof.
  intros Hnd. rw /migrationBody. intros ([] & [db1 fs1] & H1%statement_Ok & Hrun)%bind_inv.
  apply bind_inv in Hrun as ([] & [db2 fs2] & H2%statement_Ok & Hrun). cbn [fst] in H1, H2.
  injection H1 as <-. injection H2 as <-.
  apply applyMigrations_Ok in Hrun as (Hu & Hr & Ha); [|done|by rw /createTable].
  assert (∀ name, selectChecksum name (createTable db) = selectChecksum name db) as Hsame.
  { intros name. rw /selectChecksum /createTable. destruct db as [s' [m|]]; [done|]. apply lookup_empty. }
  rw (pendingFiles_ext files (createTable db) db (λ f _, Hsame f.1)) in Hr Ha. split_and!; [|done..].
  intros name body sum Hin Hs. apply (Hu name body sum Hin). by rw Hsame.
Qed.

Lemma record_lookup files m name :
  NoDup files.*1 →
  record files m !! name = match List.find (λ f, bool_decide (f.1 = name)) files with
                           | Some f => Some (checksum f.2)
                           | None => m !! name
                           end.
Proof.
  revert m. induction files as [|f files IH]; intros m; [done|]. rw fmap_cons. intros [Hn Hnd]%NoDup_cons.
  rw /record /= -/(record files _) IH //. case_bool_decide as Hf.
  - destruct (List.find _ files) as [g|] eqn:Hg.
    + apply List.find_some in Hg as [Hin%list_elem_of_In Hg%bool_decide_eq_true].
      destruct Hn. rw Hf -Hg. apply list_elem_of_fmap. by exists g.
    + by rw Hf lookup_insert_eq.
  - destruct (List.find _ files); [done|]. by rw lookup_insert_ne.
Qed.

(** After migrating, every file is recorded with its checksum. *)
Lemma migrated_recorded files db db' name body :
  NoDup files.*1 → migrated files db db' → (name, body) ∈ files → selectChecksum name db' = Some (checksum body).
Proof.
  intros Hnd (Hu & _ & Ha) Hin. rw /selectChecksum Ha /= record_lookup.
  { by apply pendingFiles_NoDup. }
  destruct (List.find _ _) as [f|] eqn:Hf.
  - apply List.find_some in Hf as [Hpend%list_elem_of_In Hname%bool_decide_eq_true].
    apply list_elem_of_filter in Hpend as [_ Hf]. destruct f as [n b]. cbn in Hname. rw Hname in Hf.
    apply list_elem_of_lookup in Hf as [i Hi], Hin as [j Hj].
    assert (i = j) as ->.
    { apply (NoDup_lookup files.*1 i j name Hnd); by rw list_lookup_fmap ?Hi ?Hj. }
    rw Hi in Hj. by injection Hj as ->.
  - destruct (selectChecksum name db) as [sum|] eqn:Hs.
    + pose proof (Hu name body sum Hin Hs) as <-. rw /selectChecksum in Hs.
      by destruct (app_migrations db) as [m|].
    + assert ((name, body) ∈ pendingFiles files db) as Hp by (apply list_elem_of_filter; by split).
      apply list_elem_of_In in Hp. apply (List.find_none _ _ Hf) in Hp. cbn in Hp. by rw bool_decide_true in Hp.
Qed.

Lemma applyMigrations_noop files db fs :
  (∀ name body, (name, body) ∈ files → selectChecksum name db = Some (checksum body)) →
  ∃ r fs', applyMigrations files (db, fs) = (r, (db, fs')) ∧ (fs = [] → r = Ok tt ∧ fs' = []).
Proof.
  revert fs. induction files as [|[name body] files IH]; intros fs Hall; cbn [applyMigrations]; [by eexists _, _|].
  rw bind_unfold /statement. destruct fs as [|[] fs]; cbn [nextFault].
  1, 2: rw (Hall name body (list_elem_of_here _ _)) bool_decide_false; [intros Hn; by apply Hn|].
  - by apply (IH []); intros n b Hin; apply Hall; set_solver.
  - destruct (IH fs) as (r & fs' & -> & _); [intros n b Hin; apply Hall; set_solver|]. by eexists _, _.
  - by eexists _, _.
  - by eexists _, _.
Qed.

(** The body on a migrated database. *)
Lemma migrationBody_noop files db fs :
  is_Some (app_migrations db) →
  (∀ name body, (name, body) ∈ files → selectChecksum name db = Some (checksum body)) →
  ∃ r fs', migrationBody files (db, fs) = (r, (db, fs')) ∧ (fs = [] → r = Ok tt ∧ fs' = []).
Proof.
  intros [m Hm] Hall. assert (createTable db = db) as Hc by (destruct db; cbn in Hm |- *; by rw /createTable /= Hm).
  rw /migrationBody bind_unfold {1}/statement.
  destruct fs as [|[] fs]; cbn [nextFault]; rw ?bind_unfold /statement ?Hc; [..|by eexists _, _|by eexists _, _].
  - cbn [nextFault]. rw ?Hc. apply (applyMigrations_noop files db []), Hall.
  - destruct fs as [|[] fs]; cbn [nextFault]; rw ?Hc; [| |by eexists _, _|by eexists _, _].
    + destruct (applyMigrations_noop files db [] Hall) as (r & fs' & -> & _). by eexists _, _.
    + destruct (applyMigrations_noop files db fs Hall) as (r & fs' & -> & _). by eexists _, _.
Qed.
End migrations.

(** ** Properties *)

(** C14: migrating is atomic and exact: when it reports success, the pending
    migrations ran in order, each once, and are recorded, and none of the
    applied ones was modified; when it reports an error, the database is as
    before, or (where only the reply of the commit was lost) fully migrated. *)
Theorem MigrateApp_atomic {Schema} (execSQL : string → Schema → result Schema) files fs db :
  NoDup files.*1 →
  let '(r, db') := MigrateApp execSQL files fs db in
  (r = Ok tt ∧ migrated execSQL files db db') ∨ (r ≠ Ok tt ∧ (db' = db ∨ migrated execSQL files db db')).
Proof.
  intros Hnd. rw /MigrateApp. destruct (nextFault fs) as [[] fs1]; [|by right; auto..].
  destruct (migrationBody execSQL files (db, fs1)) as [[[]|e] [db' fs2]] eqn:Hrun; [|by right; auto].
  apply migrationBody_Ok in Hrun; [|done]. destruct (nextFault fs2).1; [by left|by right; auto..].
Qed.

(** Running it again changes nothing, whatever the faults, and without
    faults it succeeds. *)
Theorem MigrateApp_idempotent {Schema} (execSQL : string → Schema → result Schema) files fs1 fs2 db db1 :
  NoDup files.*1 → MigrateApp execSQL files fs1 db = (Ok tt, db1) →
  let '(r, db2) := MigrateApp execSQL files fs2 db1 in db2 = db1 ∧ (fs2 = [] → r = Ok tt).
Proof.
  intros Hnd Hrun. rw /MigrateApp in Hrun. destruct (nextFault fs1) as [[] fs]; [|done..].
  destruct (migrationBody execSQL files (db, fs)) as [[[]|e] [db' fs']] eqn:Hbody; [|done].
  apply migrationBody_Ok in Hbody; [|done]. cbn [fst] in Hbody. destruct (nextFault fs').1; [|done..].
  injection Hrun as <-. assert (is_Some (app_migrations db')) as Hsome by (destruct Hbody as (_ & _ & ->); eauto).
  pose proof (λ name body, migrated_recorded execSQL files db db' name body Hnd Hbody) as Hall.
  rw /MigrateApp. destruct fs2 as [|[] fs2]; cbn [nextFault]; [| |done..].
  - destruct (migrationBody_noop execSQL files db' [] Hsome Hall) as (r & fs'' & -> & Hr). by destruct (Hr eq_refl) as [-> ->].
  - destruct (migrationBody_noop execSQL files db' fs2 Hsome Hall) as (r & fs'' & -> & _). destruct r; [|done].
    by destruct (nextFault fs'').1.
Qed.

(** ** A concrete schema *)

(** The schema as the list of what was executed. *)
Definition exSQL (body : string) (s : list string) : result (list string) := Ok (s ++ [body]).
Definition exFiles : list (string * string) := [("migrations/001.sql", "CREATE a"); ("migrations/002.sql", "CREATE b")].
Definition exEmpty : AppDB (list string) := MkAppDB [] None.
Definition exMigrated : AppDB (list string) := (MigrateApp exSQL exFiles [] exEmpty).2.

Lemma exFiles_NoDup : NoDup exFiles.*1.
Proof. by apply (bool_decide_unpack _). Qed.

Lemma MigrateApp_atomic_witness :
  schema exMigrated = ["CREATE a"; "CREATE b"] ∧
  (((MigrateApp exSQL exFiles [] exEmpty).1 = Ok tt ∧ migrated exSQL exFiles exEmpty exMigrated) ∨
   ((MigrateApp exSQL exFiles [] exEmpty).1 ≠ Ok tt ∧ (exMigrated = exEmpty ∨ migrated exSQL exFiles exEmpty exMigrated))).
Proof.
  split; [vm_compute; reflexivity|]. rw /exMigrated.
  pose proof (MigrateApp_atomic exSQL exFiles [] exEmpty exFiles_NoDup) as H.
  destruct (MigrateApp exSQL exFiles [] exEmpty) as [r db']. exact H.
Defined.

Lemma MigrateApp_idempotent_witness : (MigrateApp exSQL exFiles [] exMigrated) = (Ok tt, exMigrated).
Proof.
  assert (MigrateApp exSQL exFiles [] exEmpty = (Ok tt, exMigrated)) as Hrun.
  { rw /exMigrated. rewrite (surjective_pairing (MigrateApp exSQL exFiles [] exEmpty)).
    f_equal. }
  pose proof (MigrateApp_idempotent exSQL exFiles [] [] exEmpty exMigrated exFiles_NoDup Hrun) as H.
  destruct (MigrateApp exSQL exFiles [] exMigrated) as [r db2]. destruct H as [-> H]. by rw H.
Defined.
