(* ===== verification/Admin.v ===== *)
(** internal/jobs/jobs.go and cmd/admin/main.go: the set-up of the job queue, and
    the administrative command that migrates the database or sends a probe
    through the queue.

    What the command uses of the other parts and of River is the interface
    [AdminEnv]. *)
From S2P Require Import Prelude GoStrings Errors Database.
Local Open Scope string_scope.
Local Open Scope list_scope.
Local Open Scope Z_scope.

(** ** The queue *)

Definition probeKind : string := "system_probe".

(** The parts of [river.Config] that the program sets. *)
Record QueueConfig : Type := MkQueueConfig {
  JobTimeout : Z;
  MaxAttempts : Z;
  MaxWorkers : option Z;      (* of the default queue; none: only insertion *)
  JobKinds : list string;     (* the kinds that have a worker *)
}.

(** [NewClient]: [registered] are the kinds that the other parts add. *)
Definition clientConfig (concurrency : Z) (registered : list string) : QueueConfig :=
  MkQueueConfig Minute 5 (if 0 <? concurrency then Some concurrency else None) (probeKind :: registered).

(** The probe's worker only logs. *)
Definition probeWork : work_result := WorkDone.

(** ** The command *)

Class AdminEnv (W : Type) : Type := {
  env_Load : M W error unit;              (* config.Load *)
  env_OpenDatabase : M W error unit;      (* platform.OpenDatabase *)
  env_Close : M W error unit;             (* pool.Close *)
  env_migrateRiver : M W error unit;      (* rivermigrate *)
  env_MigrateApp : M W error unit;        (* platform.MigrateApp *)
  env_NewClient : M W error unit;         (* jobs.NewClient, insert-only *)
  env_Insert : string → M W error Z;      (* client.Insert: the job's ID *)
  env_JobGet : Z → M W error JobState;    (* client.JobGet, a tick later *)
}.

Definition JobStateText (s : JobState) : string :=
  match s with
  | JobAvailable => "available" | JobPending => "pending" | JobRunning => "running" | JobRetryable => "retryable"
  | JobScheduled => "scheduled" | JobCancelled => "cancelled" | JobCompleted => "completed" | JobDiscarded => "discarded"
  end.

(** The ticks of 250 ms within the minute of the command's context. *)
Definition probeTicks : nat := 240.

Section admin.
Context {W : Type} `{!AdminEnv W}.

(** The loop that waits for the probe; [ticks] are left before the deadline. *)
Fixpoint awaitProbe (ticks : nat) (job : Z) : M W error unit :=
  match ticks with
  | O => raise (Wrapped "waiting for probe completion (is the worker running?)" DeadlineExceeded)
  | S ticks =>
      state ← env_JobGet job;
      match state with
      | JobCompleted => mret tt
      | JobCancelled | JobDiscarded => raise (ErrorString ("queue probe ended in state " +:+ JobStateText state))
      | _ => awaitProbe ticks job
      end
  end.

(** [args] is [os.Args]. *)
Definition adminRun (args : list string) : M W error unit :=
  match args with
  | [_; command] =>
      if bool_decide (command ≠ "migrate") && bool_decide (command ≠ "probe")
      then raise (ErrorString "usage: admin migrate|probe") else
      env_Load ;;
      env_OpenDatabase ;;
      defer env_Close (
        if bool_decide (command = "migrate") then
          env_migrateRiver ;;
          env_MigrateApp
        else
          env_NewClient ;;
          job ← env_Insert probeKind;
          awaitProbe probeTicks job)
  | _ => raise (ErrorString "usage: admin migrate|probe")
  end.

(** The command reports success only for a probe that was seen completed. *)
Lemma awaitProbe_Ok ticks job w w' :
  awaitProbe ticks job w = (Ok tt, w') → ∃ w1, env_JobGet job w1 = (Ok JobCompleted, w').
Proof.
  revert w. induction ticks as [|ticks IH]; intros w; cbn [awaitProbe]; [done|].
  intros (state & w1 & Hget & Hrun)%bind_inv. destruct state; try done; try by apply (IH w1).
  injection Hrun as <-. by exists w.
Qed.
End admin.

(** ** A concrete environment *)

(** The states that the following calls of JobGet see. *)
#[local] Instance exAdmin : AdminEnv (list JobState) := {|
  env_Load := mret tt; env_OpenDatabase := mret tt; env_Close := mret tt; env_migrateRiver := mret tt; env_MigrateApp := mret tt;
  env_NewClient := mret tt; env_Insert _ := mret 1;
  env_JobGet _ := λ w, match w with s :: w => (Ok s, w) | [] => (Ok JobRunning, []) end;
|}.

Example adminRun_examples :
  (adminRun ["admin"; "probe"] [JobAvailable; JobRunning; JobCompleted]).1 = Ok tt ∧
  (adminRun ["admin"; "probe"] [JobAvailable; JobDiscarded]).1 = Err (ErrorString "queue probe ended in state discarded") ∧
  (adminRun ["admin"; "probe"] []).1 = Err (Wrapped "waiting for probe completion (is the worker running?)" DeadlineExceeded) ∧
  (adminRun ["admin"; "drop"] []).1 = Err (ErrorString "usage: admin migrate|probe") ∧
  (adminRun ["admin"] []).1 = Err (ErrorString "usage: admin migrate|probe").
Proof. vm_compute. by split_and!. Qed.
