(* ===== verification/Api.v ===== *)
(** cmd/api/main.go and cmd/worker/main.go: the whole program as the requests
    of its HTTP server and the jobs of its worker, over one database.

    A request runs in the state [server (world R)]: the pending authorizations
    of the process and the world with the database.  The transfer service uses
    the database through its own connection while its providers use theirs; the
    two write different tables, and [onTransfer] puts the two together. *)
From S2P Require Import Prelude GoStrings Errors Json Http WebServer Models Matcher SpotifyTypes Database TransferStore Service Worker SpotifyStore SpotifyClient Imports AppleClient AppleConnections Providers SpotifyAuth ImportHttp AppleHttp TransferHttp HealthHttp Admin.
Local Open Scope string_scope.
Local Open Scope list_scope.
Local Open Scope Z_scope.

(** ** Putting the parts together *)

Definition onWorld {W} (h : Reply W) : Reply (server W) := λ s,
  let '(resp, w) := h (s_rest s) in (resp, MkServer (s_pending s) w).

(** The connection tables as the providers left them, the others as the
    transfer store left them. *)
Definition mergeDB (transfer provider : DB) : DB :=
  set_apple_connections (λ _, apple_connections provider) (set_connections (λ _, spotify_connections provider) transfer).

Definition merged {R} (o : world (world R)) : world R :=
  let i := w_remote o in
  MkWorld (mergeDB (w_db o) (w_db i)) None (w_faults i) (w_now i) (w_remote i).

(** Transfer code on the world [w]; [fs] is what happens to the transfer
    store's own statements. *)
Definition transferWorld {R} (fs : list fault) (w : world R) : world (world R) :=
  MkWorld (w_db w) None fs (w_now w) w.
Definition onTransfer {R} (fs : list fault) (h : Reply (world (world R))) : Reply (world R) := λ w,
  let '(resp, o) := h (transferWorld fs w) in (resp, merged o).

(** The routes of the server, each with the random strings that its handler
    draws. *)
Inductive route : Type :=
| GetHealthz
| GetReadyz
| GetAuthSpotify (state verifier1 verifier2 : string)
| GetAuthCallback (session : string)
| GetSpotifyConnection
| DeleteSpotifyConnection
| GetSpotifyPlaylists
| PostImport (freshID : string)
| GetImport
| GetImportSnapshot
| PostAppleConnection (session : string)
| GetApplePlaylists
| DeleteAppleConnection
| PostPreview (id : string) (clock : Z) (faults : list fault)
| GetPreview (faults : list fault)
| PostRun (freshID : string) (faults : list fault)
| GetRun (faults : list fault).

(** What the configuration enables: Spotify where a client ID is set, Apple
    Music where a team ID is. *)
Record Enabled : Type := MkEnabled {
  spotify_enabled : bool;
  apple_enabled : bool;
}.

(** The routes that main registers.  The transfer routes need the importer, and
    so Spotify. *)
Definition registered (cfg : Enabled) (q : route) : bool :=
  match q with
  | GetHealthz | GetReadyz => true
  | PostAppleConnection _ | GetApplePlaylists | DeleteAppleConnection => apple_enabled cfg
  | _ => spotify_enabled cfg
  end.

Section api.
Context `{AEAD, Unicode} {R : Type} (net : Request → M R error Response) (clk : R → Z).
Context (cfg : Enabled) (spotify : Auth) (token : R → option string) (appleURL : string) (origin : string).
Abbreviation Mw := (M (world R) error).

Definition appleToken : world R → option string := λ w, token (w_remote w).

(** The providers of the transfer service. *)
Definition spotifyProvider : Provider (world R) := SpotifyProvider (netDo net) (netClock clk) (Auth_client spotify).
Definition appleProvider : Provider (world R) := AppleMusicProvider (netDo net) appleToken appleURL.
Definition transferProviders : list (Provider (world R)) :=
  (if spotify_enabled cfg then [spotifyProvider] else []) ++ (if apple_enabled cfg then [appleProvider] else []).
Definition transferService : Service (world R) := NewService transferProviders.

(** Readiness: one query of each group of tables. *)
Definition ready : Mw unit :=
  pool_query (λ _ _, tt) ;; pool_query (λ _ _, tt) ;; pool_query (λ _ _, tt) ;; pool_query (λ _ _, tt).

Definition serve (q : route) (r : HttpRequest) : Reply (server (world R)) :=
  match q with
  | GetHealthz => onWorld healthz
  | GetReadyz => onWorld (readyz ready)
  | GetAuthSpotify state v1 v2 => wrap (start (netClock clk) spotify state v1 v2)
  | GetAuthCallback session => wrap (callback (netDo net) (netClock clk) spotify session r)
  | GetSpotifyConnection => wrap (connection (netDo net) (netClock clk) spotify r)
  | DeleteSpotifyConnection => wrap (disconnect spotify r)
  | GetSpotifyPlaylists => onWorld (wrap (listPlaylists (netDo net) (netClock clk) spotify r))
  | PostImport freshID => onWorld (wrap (requestImport spotify freshID r))
  | GetImport => onWorld (wrap (getImport r))
  | GetImportSnapshot => onWorld (wrap (getSnapshot r))
  | PostAppleConnection session =>
      onWorld (connectApple (netDo net) (netClock clk) appleToken appleURL origin session r)
  | GetApplePlaylists => onWorld (listApplePlaylists (netDo net) appleToken appleURL r)
  | DeleteAppleConnection => onWorld (disconnectApple origin r)
  | PostPreview id clock fs => onWorld (onTransfer fs (createPreview transferService origin id clock r))
  | GetPreview fs => onWorld (onTransfer fs (getPreview r))
  | PostRun freshID fs => onWorld (onTransfer fs (startRun origin freshID r))
  | GetRun fs => onWorld (onTransfer fs (getRun r))
  end.

(** The server's answer to a request for [q]. *)
Definition mux (q : route) (r : HttpRequest) : Reply (server (world R)) :=
  if registered cfg q then serve q r else reply NotFound.

(** The two jobs of the worker. *)
Definition importJob (id : string) (w : world R) : world R :=
  (ImportWork net clk (Auth_client spotify) id w).2.
Definition transferJob (fs : list fault) (budget : nat) (runID : string) (w : world R) : world R :=
  merged (Work transferService budget runID (transferWorld fs w)).2.

(** ** Every run of the program *)

(** The session that a route issues, under the provider it connects. *)
Definition spotifySession (q : route) : gset string :=
  match q with GetAuthCallback session => {[ sessionHash session ]} | _ => ∅ end.
Definition appleSession (q : route) : gset string :=
  match q with PostAppleConnection session => {[ sessionHash session ]} | _ => ∅ end.

(** What the queue does to the jobs: it works on them and in the end deletes
    their rows, and never starts a finished one again. *)
Definition riverStep (db db' : DB) : Prop :=
  ∃ f, db' = set_jobs f db ∧
    ∀ n job', f (river_job db) !! n = Some job' →
      ∃ job, river_job db !! n = Some job ∧ job_kind job' = job_kind job ∧ job_args job' = job_args job ∧
        (job_active (job_state job') = true → job_active (job_state job) = true).

(** The states to which the program can go on from a given one: the pending
    authorizations, the committed database, and the hashes of the sessions
    issued so far for Spotify and for Apple Music.  Sessions are random: no hash
    is issued twice.  Requests and jobs meet any state of the network, any time
    and any faults of the database; a restart forgets the pending
    authorizations.  Between them the queue moves its jobs on, and the admin
    command inserts probes. *)
Inductive onward (p0 : gmap string attempt) (D0 : DB) (S0 A0 : gset string) :
    gmap string attempt → DB → gset string → gset string → Prop :=
| reach_init : onward p0 D0 S0 A0 p0 D0 S0 A0
| reach_serve q r pending D S A fs now rest :
    onward p0 D0 S0 A0 pending D S A →
    (spotifySession q ∪ appleSession q) ## (S ∪ A) →
    let s := (mux q r (MkServer pending (MkWorld D None fs now rest))).2 in
    onward p0 D0 S0 A0 (s_pending s) (w_db (s_rest s)) (spotifySession q ∪ S) (appleSession q ∪ A)
| reach_import id pending D S A fs now rest :
    spotify_enabled cfg = true → onward p0 D0 S0 A0 pending D S A →
    onward p0 D0 S0 A0 pending (w_db (importJob id (MkWorld D None fs now rest))) S A
| reach_transfer tfs budget runID pending D S A fs now rest :
    spotify_enabled cfg || apple_enabled cfg = true → onward p0 D0 S0 A0 pending D S A →
    onward p0 D0 S0 A0 pending (w_db (transferJob tfs budget runID (MkWorld D None fs now rest))) S A
| reach_river D' pending D S A :
    onward p0 D0 S0 A0 pending D S A → riverStep D D' → onward p0 D0 S0 A0 pending D' S A
| reach_probe pending D S A :
    onward p0 D0 S0 A0 pending D S A → onward p0 D0 S0 A0 pending (insert_job probeKind "" 5 D).2 S A
| reach_restart pending D S A :
    onward p0 D0 S0 A0 pending D S A → onward p0 D0 S0 A0 ∅ D S A.

(** The reachable states: those after the empty database. *)
Definition reachable : gmap string attempt → DB → gset string → gset string → Prop := onward ∅ emptyDB ∅ ∅.
End api.

(** ** Who may do what *)

(** The routes that change something for the browser's session. *)
Definition mutating (q : route) : bool :=
  match q with
  | DeleteSpotifyConnection | PostImport _ | PostAppleConnection _ | DeleteAppleConnection
  | PostPreview _ _ _ | PostRun _ _ => true
  | _ => false
  end.

(** The routes that act for a session. *)
Definition needs_session (q : route) : bool :=
  match q with
  | GetSpotifyConnection | GetSpotifyPlaylists | PostImport _ | GetImport | GetImportSnapshot
  | GetApplePlaylists | PostPreview _ _ _ | GetPreview _ | PostRun _ _ | GetRun _ => true
  | _ => false
  end.

(** The origin that a route's mutations must come from. *)
Definition allowedOrigin (spotify : Auth) (origin : string) (q : route) : string :=
  match q with DeleteSpotifyConnection | PostImport _ => Auth_origin spotify | _ => origin end.

Lemma mergeDB_same D : mergeDB D D = D.
Proof. by destruct D. Qed.

Lemma merged_same {R} fs (w : world R) : w_tx w = None → merged (transferWorld fs w) = w.
Proof. destruct w as [D tx fs' now r]. cbn. intros ->. by rw /merged /transferWorld /= mergeDB_same. Qed.

Lemma onTransfer_reply {R} fs resp (w : world R) : w_tx w = None → onTransfer fs (reply resp) w = (resp, w).
Proof. intros Hw. by rw /onTransfer /reply merged_same. Qed.

Lemma wrap_reply {S} resp (s : S) : wrap (reply resp) s = (wrapped resp, s).
Proof. done. Qed.

Lemma onWorld_reply {W} (h : Reply W) s resp : h (s_rest s) = (resp, s_rest s) → onWorld h s = (resp, s).
Proof. rw /onWorld. intros ->. by destruct s. Qed.

Section refusals.
Context `{AEAD, Unicode} {R : Type} (net : Request → M R error Response) (clk : R → Z).
Context (cfg : Enabled) (spotify : Auth) (token : R → option string) (appleURL origin : string).

Lemma foreign_refused q r (s : server (world R)) :
  w_tx (s_rest s) = None → mutating q = true → r_origin r ≠ allowedOrigin spotify origin q →
  let '(resp, s') := serve net clk cfg spotify token appleURL origin q r s in w_status resp = 403 ∧ s' = s.
Proof.
  intros Htx Hm Ho. destruct q; try done; cbn [allowedOrigin] in Ho; cbn [serve];
    rw /disconnect /requestImport /connectApple /disconnectApple /createPreview /startRun;
    rewrite (bool_decide_eq_true_2 (r_origin r ≠ _) Ho);
    first [done | erewrite onWorld_reply; [|first [by apply onTransfer_reply|done]]; done].
Qed.

Lemma anonymous_refused q r (s : server (world R)) :
  w_tx (s_rest s) = None → needs_session q = true →
  (mutating q = true → r_origin r = allowedOrigin spotify origin q) → r_Cookie r sessionCookie = None →
  let '(resp, s') := serve net clk cfg spotify token appleURL origin q r s in w_status resp = 401 ∧ s' = s.
Proof.
  intros Htx Hs Ho Hc. assert (requestSession r = None) as Hr by by rw /requestSession Hc.
  destruct q; try done; cbn [allowedOrigin mutating] in Ho; cbn [serve];
    rw /connection /listPlaylists /requestImport /getImport /getSnapshot /listApplePlaylists /createPreview /getPreview
      /startRun /getRun /withSession /sessionHashFromRequest ?Hr ?Hc;
    try rewrite (bool_decide_eq_false_2 (r_origin r ≠ _)); try (intros Hn; by apply Hn, Ho);
    first [done | erewrite onWorld_reply; [|first [by apply onTransfer_reply|done]]; done].
Qed.
End refusals.

(** C10: the server refuses before it does anything: a mutation from a foreign
    origin is answered with 403, a request that acts for a session but carries
    no session cookie with 401, and neither changes the state or sends
    anything. *)
Theorem access_control `{AEAD, Unicode} {R} (net : Request → M R error Response) clk cfg spotify token appleURL origin q r
    (s : server (world R)) :
  w_tx (s_rest s) = None →
  (mutating q = true → r_origin r ≠ allowedOrigin spotify origin q →
    let '(resp, s') := serve net clk cfg spotify token appleURL origin q r s in w_status resp = 403 ∧ s' = s) ∧
  (needs_session q = true → (mutating q = true → r_origin r = allowedOrigin spotify origin q) →
   r_Cookie r sessionCookie = None →
    let '(resp, s') := serve net clk cfg spotify token appleURL origin q r s in w_status resp = 401 ∧ s' = s).
Proof.
  intros Htx. split; [by apply foreign_refused|]. intros Hs Ho Hc. by apply anonymous_refused.
Qed.

(** ** A concrete request *)

Definition exForeign : HttpRequest := MkHttpRequest "http://elsewhere" [("music_session", "s1")] [] "p1" None false.
Definition exIdle : server (world unit) := MkServer ∅ (MkWorld emptyDB None [] 0 tt).

Lemma access_control_witness :
  let '(resp, s') := @serve idealAEAD latin1 unit (λ _ w, (Err DeadlineExceeded, w)) (λ _, 0) (MkEnabled true true)
    (NewAuth (NewClient "c" "http://127.0.0.1/auth/spotify/callback") ("http", "127.0.0.1")) (λ _, None) "" "http://127.0.0.1"
    (PostRun "r1" []) exForeign exIdle in
  w_status resp = 403 ∧ s' = exIdle.
Proof.
  match goal with |- let '(_, _) := serve ?net ?clk ?cfg ?a ?t ?u ?o ?q ?r ?s in _ =>
    pose proof (proj1 (@access_control idealAEAD latin1 unit net clk cfg a t u o q r s eq_refl) eq_refl) as H end.
  apply H. vm_compute. discriminate.
Defined.
