(* ===== verification/Routes.v ===== *)
(** The [Register] functions of the HTTP packages and net/http's ServeMux: from
    the request line to the handler.

    The patterns are the strings of the source.  A ServeMux cleans the path and
    then takes the pattern that matches; [patterns_disjoint] shows that there is
    at most one besides "/", so that neither the order of the registrations nor
    the mux's precedence matters.  The answer to a path that is not clean, a
    redirect to the clean one, is a parameter. *)
From S2P Require Import Prelude Database GoStrings Errors Json Http WebServer SpotifyStore SpotifyClient SpotifyAuth ImportHttp TransferHttp HealthHttp Api.
Local Open Scope string_scope.
Local Open Scope list_scope.
Local Open Scope Z_scope.

(** ** Paths *)

Definition slash : Z := 47.

Fixpoint splitOn (sep : Z) (l : list Z) : list (list Z) :=
  match l with
  | [] => [[]]
  | b :: l => if b =? sep then [] :: splitOn sep l else
      match splitOn sep l with w :: ws => (b :: w) :: ws | [] => [[b]] end
  end.

(** [url.PathUnescape], or the text itself where an escape is broken. *)
Definition hexValue (b : Z) : option Z :=
  if between 48 57 b then Some (b - 48) else if between 65 70 b then Some (b - 55)
  else if between 97 102 b then Some (b - 87) else None.
Fixpoint percentDecode (l : list Z) : option (list Z) :=
  match l with
  | [] => Some []
  | 37 :: l =>
      match l with
      | h1 :: h2 :: l =>
          v1 ← hexValue h1;
          v2 ← hexValue h2;
          rest ← percentDecode l;
          Some (16 * v1 + v2 :: rest)
      | _ => None
      end
  | b :: l => rest ← percentDecode l; Some (b :: rest)
  end.
Definition pathUnescape (l : list Z) : list Z := default l (percentDecode l).

(** [url.PathEscape]. *)
Definition pathSafe (b : Z) : bool := unreserved b || bool_decide (b ∈ [36; 38; 43; 58; 61; 64]).
Definition PathEscape (s : string) : list Z :=
  bytes s ≫= λ b, if pathSafe b then [b] else [37; upperHexDigit (b / 16); upperHexDigit (b `mod` 16)].

(** The segments of a path: what is between its slashes, the first slash aside. *)
Definition segmentsOf (path : list Z) : list (list Z) :=
  match path with 47 :: rest => splitOn slash rest | _ => splitOn slash path end.
Definition pathOf (segs : list (list Z)) : list Z := slash :: intercalate [slash] segs.

(** [cleanPath]: [path.Clean] of the rooted path, and the trailing slash that it
    loses. *)
Definition push (stack : list (list Z)) (seg : list Z) : list (list Z) :=
  if bool_decide (seg = []) || bool_decide (seg = [46]) then stack
  else if bool_decide (seg = [46; 46]) then tail stack else seg :: stack.
Definition cleanSegments (segs : list (list Z)) : list (list Z) :=
  match reverse (foldl push [] segs) with
  | [] => [[]]
  | kept => kept ++ (if bool_decide (last segs = Some []) then [[]] else [])
  end.
Definition cleanPath (path : list Z) : list Z := pathOf (cleanSegments (segmentsOf path)).

(** ** Patterns *)

Inductive segment : Type := Literal (text : string) | Wildcard.

#[export] Instance segment_eq_dec : EqDecision segment.
Proof. solve_decision. Defined.

Record pattern : Type := MkPattern {
  pat_method : string;
  pat_segments : list segment;
}.

Definition isWildcard (seg : list Z) : bool :=
  bool_decide (head seg = Some 123) && bool_decide (last seg = Some 125).
Definition parsePattern (text : string) : option pattern :=
  match splitOn 32 (bytes text) with
  | [method; 47 :: path] =>
      Some (MkPattern (of_bytes method)
        ((λ seg, if isWildcard seg then Wildcard else Literal (of_bytes seg)) <$> splitOn slash path))
  | _ => None
  end.

(** A pattern for GET serves HEAD too. *)
Definition methodMatches (pat method : string) : bool :=
  bool_decide (method = pat) || (bool_decide (method = "HEAD") && bool_decide (pat = "GET")).

(** [firstSegment]: the text of the segment [seg] in front of [rest]; the empty
    one at the end is the trailing slash. *)
Definition segmentText (seg : list Z) (rest : list (list Z)) : string :=
  if bool_decide (seg = []) && bool_decide (rest = []) then "/" else of_bytes (pathUnescape seg).

(** [matchPath]: the texts that the wildcards stand for. *)
Fixpoint matchSegments (pats : list segment) (segs : list (list Z)) : option (list string) :=
  match pats, segs with
  | [], [] => Some []
  | Literal text :: pats, seg :: segs =>
      if bool_decide (segmentText seg segs = text) then matchSegments pats segs else None
  | Wildcard :: pats, seg :: segs =>
      if bool_decide (segmentText seg segs = "/") then None else
      values ← matchSegments pats segs;
      Some (segmentText seg segs :: values)
  | _, _ => None
  end.

Definition matchPattern (pat : pattern) (method : string) (segs : list (list Z)) : option (list string) :=
  if methodMatches (pat_method pat) method then matchSegments (pat_segments pat) segs else None.

(** ** The registrations *)

Inductive endpoint : Type :=
| Healthz | Readyz
| AuthSpotify | AuthCallback | SpotifyConnection | SpotifyDisconnect
| AppleConnect | ApplePlaylists | AppleDisconnect
| SpotifyPlaylists | SpotifyImport | ImportStatus | ImportSnapshot
| PreviewCreate | PreviewPage | RunStart | RunState.

#[export] Instance endpoint_eq_dec : EqDecision endpoint.
Proof. solve_decision. Defined.

Abbreviation registrations := (list (string * endpoint)).

(** [NewHandler] of internal/httpapi. *)
Definition healthPatterns : registrations := [("GET /healthz", Healthz); ("GET /readyz", Readyz)].
(** [Auth.Register]. *)
Definition authPatterns : registrations :=
  [("GET /auth/spotify", AuthSpotify);
   ("GET /auth/spotify/callback", AuthCallback);
   ("GET /api/connections/spotify", SpotifyConnection);
   ("DELETE /api/connections/spotify", SpotifyDisconnect)].
(** [Client.Register] of the applemusic package. *)
Definition applePatterns : registrations :=
  [("POST /api/connections/apple-music", AppleConnect);
   ("GET /api/apple-music/playlists", ApplePlaylists);
   ("DELETE /api/connections/apple-music", AppleDisconnect)].
(** [Auth.RegisterImports]. *)
Definition importPatterns : registrations :=
  [("GET /api/spotify/playlists", SpotifyPlaylists);
   ("POST /api/spotify/playlists/{id}/imports", SpotifyImport);
   ("GET /api/spotify/imports/{id}", ImportStatus);
   ("GET /api/spotify/imports/{id}/snapshot", ImportSnapshot)].
(** [RegisterHTTP] of the transfer package. *)
Definition transferPatterns : registrations :=
  [("POST /api/transfers/previews", PreviewCreate);
   ("GET /api/transfers/previews/{id}", PreviewPage);
   ("POST /api/transfers/previews/{id}/runs", RunStart);
   ("GET /api/transfers/runs/{id}", RunState)].

(** What main registers besides "/". *)
Definition apiPatterns (cfg : Enabled) : registrations :=
  (if spotify_enabled cfg then authPatterns else []) ++
  (if apple_enabled cfg then applePatterns else []) ++
  (if spotify_enabled cfg then importPatterns ++ transferPatterns else []).

Fixpoint findRoute (table : registrations) (method : string) (segs : list (list Z)) : option (endpoint * list string) :=
  match table with
  | [] => None
  | (text, e) :: table =>
      match pat ← parsePattern text; matchPattern pat method segs with
      | Some values => Some (e, values)
      | None => findRoute table method segs
      end
  end.

(** [matchingMethods], for the Allow header. *)
Definition allowedMethods (table : registrations) (segs : list (list Z)) : list string :=
  let methods := remove_dups (omap (λ '(text, _),
    pat ← parsePattern text; _ ← matchSegments (pat_segments pat) segs; Some (pat_method pat)) table) in
  sort_by str_ltb id (if bool_decide ("GET" ∈ methods) then "HEAD" :: methods else methods).

Inductive dispatched : Type :=
| Redirected                              (* to the clean path *)
| Routed (e : endpoint) (id : string)
| MethodNotAllowed (allow : list string)
| NoRoute.

#[export] Instance dispatched_eq_dec : EqDecision dispatched.
Proof. solve_decision. Defined.

(** The muxes of the process: main's, and under its "/" the one of
    internal/httpapi.  [path] is the escaped path of the request. *)
Definition dispatch (cfg : Enabled) (method : string) (path : list Z) : dispatched :=
  if negb (bool_decide (method = "CONNECT")) && negb (bool_decide (cleanPath path = path)) then Redirected else
  let segs := segmentsOf path in
  let routed '(e, values) := Routed e (default "" (head values)) in
  match findRoute (apiPatterns cfg) method segs with
  | Some found => routed found
  | None =>
      match findRoute healthPatterns method segs with
      | Some found => routed found
      | None => match allowedMethods healthPatterns segs with [] => NoRoute | allow => MethodNotAllowed allow end
      end
  end.

Example dispatch_examples :
  let cfg := MkEnabled true false in
  dispatch cfg "GET" (bytes "/api/spotify/imports/abc/snapshot") = Routed ImportSnapshot "abc" ∧
  dispatch cfg "POST" (bytes "/api/spotify/playlists/a%20b/imports") = Routed SpotifyImport "a b" ∧
  dispatch cfg "HEAD" (bytes "/auth/spotify") = Routed AuthSpotify "" ∧
  dispatch cfg "GET" (bytes "/api/apple-music/playlists") = NoRoute ∧
  dispatch cfg "PUT" (bytes "/api/spotify/playlists") = NoRoute ∧
  dispatch cfg "POST" (bytes "/healthz") = MethodNotAllowed ["GET"; "HEAD"] ∧
  dispatch cfg "GET" (bytes "/api/transfers/runs/") = NoRoute ∧
  dispatch cfg "GET" (bytes "/api/transfers/runs/%2F") = NoRoute ∧
  dispatch cfg "GET" (bytes "/api/transfers/runs/..") = Redirected ∧
  dispatch cfg "GET" (bytes "//healthz") = Redirected ∧
  dispatch cfg "GET" (bytes "/a/../readyz") = Redirected ∧
  dispatch cfg "GET" (bytes "/") = NoRoute.
Proof. vm_compute. by split_and!. Qed.

(** ** The request *)

(** What the handlers draw or meet, besides the request. *)
Record Draws : Type := MkDraws {
  d_state : string;
  d_verifier1 : string;
  d_verifier2 : string;
  d_session : string;
  d_id : string;
  d_clock : Z;
  d_faults : list fault;
}.

Definition routeOf (d : Draws) (e : endpoint) : route :=
  match e with
  | Healthz => GetHealthz
  | Readyz => GetReadyz
  | AuthSpotify => GetAuthSpotify (d_state d) (d_verifier1 d) (d_verifier2 d)
  | AuthCallback => GetAuthCallback (d_session d)
  | SpotifyConnection => GetSpotifyConnection
  | SpotifyDisconnect => DeleteSpotifyConnection
  | AppleConnect => PostAppleConnection (d_session d)
  | ApplePlaylists => GetApplePlaylists
  | AppleDisconnect => DeleteAppleConnection
  | SpotifyPlaylists => GetSpotifyPlaylists
  | SpotifyImport => PostImport (d_id d)
  | ImportStatus => GetImport
  | ImportSnapshot => GetImportSnapshot
  | PreviewCreate => PostPreview (d_id d) (d_clock d) (d_faults d)
  | PreviewPage => GetPreview (d_faults d)
  | RunStart => PostRun (d_id d) (d_faults d)
  | RunState => GetRun (d_faults d)
  end.

(** [r.SetPathValue]. *)
Definition withPathValue (r : HttpRequest) (id : string) : HttpRequest :=
  MkHttpRequest (r_origin r) (r_cookies r) (r_query r) id (r_body r) (r_TLS r).

(** The handler of the process on a request with its request line; a response to
    HEAD has no body. *)
Definition serveHTTP {W} (mux : route → HttpRequest → Reply W) (redirect : HttpResponse) (cfg : Enabled) (method : string)
    (path : list Z) (d : Draws) (r : HttpRequest) : Reply W :=
  let headed resp := if bool_decide (method = "HEAD")
    then MkHttpResponse (w_status resp) (w_headers resp) (w_cookies resp) EmptyBody else resp in
  mapReply headed
    match dispatch cfg method path with
    | Redirected => reply redirect
    | Routed e id => mux (routeOf d e) (withPathValue r id)
    | MethodNotAllowed allow => reply (withHeader "Allow" (Join allow ", ") (http_Error "Method Not Allowed" 405))
    | NoRoute => reply NotFound
    end.

(** ** No two patterns match one request *)

Definition everyPattern : registrations := apiPatterns (MkEnabled true true) ++ healthPatterns.
Definition everyEnabled : Enabled := MkEnabled true true.

(** Patterns of one length that differ in a literal, or of different lengths. *)
Fixpoint apart (p q : list segment) : bool :=
  match p, q with
  | [], [] => false
  | Literal s :: p, Literal t :: q => bool_decide (s ≠ t) || apart p q
  | _ :: p, _ :: q => apart p q
  | _, _ => true
  end.

Lemma apart_sound p q segs v : apart p q = true → matchSegments p segs = Some v → matchSegments q segs = None.
Proof.
  revert q segs v. induction p as [|[s|] p IH]; intros [|[t|] q] [|seg segs] v Ha; try done; cbn in Ha |- *;
    repeat (case_bool_decide; subst; try done); cbn in Ha.
  - by apply IH.
  - intros Hm. by rw (IH _ _ _ Ha Hm).
  - destruct (matchSegments p segs) as [v'|] eqn:Hm; [|done]. intros _. by apply (IH _ _ v').
  - destruct (matchSegments p segs) as [v'|] eqn:Hm; [|done]. intros _. by rw (IH _ _ v').
Qed.

(** The methods of the patterns are never HEAD. *)
Definition patternsApart (p q : pattern) : bool :=
  (bool_decide (pat_method p ≠ pat_method q) && bool_decide (pat_method p ≠ "HEAD") && bool_decide (pat_method q ≠ "HEAD"))
  || apart (pat_segments p) (pat_segments q).

Lemma methodMatches_same p q method :
  methodMatches p method = true → methodMatches q method = true → p ≠ "HEAD" → q ≠ "HEAD" → p = q.
Proof. rw /methodMatches. repeat case_bool_decide; naive_solver. Qed.

Lemma patternsApart_sound p q method segs v w :
  patternsApart p q = true → matchPattern p method segs = Some v → matchPattern q method segs = Some w → False.
Proof.
  rw /patternsApart /matchPattern. destruct (methodMatches (pat_method p) method) eqn:Hp; [|done].
  destruct (methodMatches (pat_method q) method) eqn:Hq; [|done].
  intros [[[H1%bool_decide_eq_true H2%bool_decide_eq_true]%andb_true_iff H3%bool_decide_eq_true]%andb_true_iff|H]%orb_true_iff Hv.
  - by destruct H1; apply (methodMatches_same _ _ method).
  - by rw (apart_sound _ _ _ _ H Hv).
Qed.

(** The entries of a table with their patterns. *)
Definition parsed (table : registrations) : list (pattern * endpoint) :=
  omap (λ '(text, e), pat ← parsePattern text; Some (pat, e)) table.

Lemma elem_of_parsed pat e table :
  (pat, e) ∈ parsed table ↔ ∃ text, (text, e) ∈ table ∧ parsePattern text = Some pat.
Proof.
  rw /parsed list_elem_of_omap. split.
  - intros ([text e'] & Hin & Hp). destruct (parsePattern text) as [pat'|] eqn:E; [|done].
    injection Hp as -> ->. by exists text.
  - intros (text & Hin & Hp). exists (text, e). split; [done|]. by rw Hp.
Qed.

Lemma everyPattern_apart x y : x ∈ parsed everyPattern → y ∈ parsed everyPattern → x.2 ≠ y.2 → patternsApart x.1 y.1 = true.
Proof.
  assert (forallb (λ x, forallb (λ y, bool_decide (x.2 = y.2) || patternsApart x.1 y.1) (parsed everyPattern))
    (parsed everyPattern) = true) as H by by vm_compute.
  intros Hx Hy Hne. rewrite forallb_forall in H. specialize (H x (proj1 (list_elem_of_In _ _) Hx)).
  rewrite forallb_forall in H. specialize (H y (proj1 (list_elem_of_In _ _) Hy)).
  by rewrite bool_decide_false in H.
Qed.

(** An endpoint has one pattern. *)
Lemma everyPattern_one pat1 pat2 e : (pat1, e) ∈ parsed everyPattern → (pat2, e) ∈ parsed everyPattern → pat1 = pat2.
Proof.
  assert (NoDup (parsed everyPattern).*2) as Hnd by by apply (bool_decide_unpack _); vm_compute.
  intros [i Hi]%list_elem_of_lookup [j Hj]%list_elem_of_lookup.
  assert (i = j) as ->; [|congruence].
  apply (NoDup_lookup _ _ _ e Hnd); by rw list_lookup_fmap ?Hi ?Hj.
Qed.

Lemma apiPatterns_subset cfg : apiPatterns cfg ++ healthPatterns ⊆ everyPattern.
Proof. destruct cfg as [[] []]; apply (bool_decide_unpack _); by vm_compute. Qed.
Lemma parsed_subset table1 table2 : table1 ⊆ table2 → parsed table1 ⊆ parsed table2.
Proof. intros Hs [pat e] (text & Hin & Hp)%elem_of_parsed. apply elem_of_parsed. exists text. auto. Qed.

Lemma same_pattern pat1 e1 pat2 e2 method segs v w :
  (pat1, e1) ∈ parsed everyPattern → (pat2, e2) ∈ parsed everyPattern →
  matchPattern pat1 method segs = Some v → matchPattern pat2 method segs = Some w →
  pat1 = pat2 ∧ e1 = e2 ∧ v = w.
Proof.
  intros H1 H2 Hv Hw. destruct (decide (e1 = e2)) as [->|Hne].
  - assert (pat1 = pat2) as -> by by apply (everyPattern_one _ _ e2). split_and!; [done..|congruence].
  - exfalso. apply (patternsApart_sound pat1 pat2 method segs v w); [|done..].
    by apply (everyPattern_apart (pat1, e1) (pat2, e2)).
Qed.

(** A request matches at most one pattern: neither the order of the
    registrations nor the precedence of the mux decides which handler runs, and
    no registration conflicts with another. *)
Theorem patterns_disjoint pat1 e1 pat2 e2 method segs v w :
  (pat1, e1) ∈ parsed everyPattern → (pat2, e2) ∈ parsed everyPattern →
  matchPattern pat1 method segs = Some v → matchPattern pat2 method segs = Some w →
  pat1 = pat2 ∧ e1 = e2 ∧ v = w.
Proof. by apply same_pattern. Qed.

(** What a table finds is what matches. *)
Lemma findRoute_Some table method segs e v :
  findRoute table method segs = Some (e, v) → ∃ pat, (pat, e) ∈ parsed table ∧ matchPattern pat method segs = Some v.
Proof.
  induction table as [|[text e'] table IH]; [done|]. cbn [findRoute].
  assert (parsed table ⊆ parsed ((text, e') :: table)) as Hsub by (apply parsed_subset; set_solver).
  destruct (parsePattern text) as [pat|] eqn:Hp; cbn [mbind option_bind]; [|naive_solver].
  destruct (matchPattern pat method segs) as [v'|] eqn:Hm; [|naive_solver].
  intros [= -> ->]. exists pat. split; [|done]. apply elem_of_parsed. exists text. set_solver.
Qed.

Lemma findRoute_None table method segs pat e :
  findRoute table method segs = None → (pat, e) ∈ parsed table → matchPattern pat method segs = None.
Proof.
  intros Hf (text & Hin & Hp)%elem_of_parsed. induction table as [|[text' e'] table IH]; [set_solver|].
  cbn [findRoute] in Hf. apply elem_of_cons in Hin as [[= -> ->]|Hin].
  - rw Hp in Hf. cbn in Hf. by destruct (matchPattern pat method segs).
  - apply IH; [|done]. by destruct (pat ← parsePattern text'; matchPattern pat method segs).
Qed.

Lemma findRoute_match table method segs pat e v :
  table ⊆ everyPattern → (pat, e) ∈ parsed table → matchPattern pat method segs = Some v →
  findRoute table method segs = Some (e, v).
Proof.
  intros Hsub Hin Hm. destruct (findRoute table method segs) as [[e' v']|] eqn:Hf.
  - apply findRoute_Some in Hf as (pat' & Hin' & Hm').
    destruct (same_pattern pat e pat' e' method segs v v') as (_ & -> & ->); try done; by apply (parsed_subset table).
  - by rw (findRoute_None _ _ _ _ _ Hf Hin) in Hm.
Qed.

(** The pattern of every routed request. *)
Lemma dispatch_Routed cfg method path e id :
  dispatch cfg method path = Routed e id →
  ∃ pat v, (pat, e) ∈ parsed (apiPatterns cfg ++ healthPatterns) ∧
    matchPattern pat method (segmentsOf path) = Some v ∧ id = default "" (head v).
Proof.
  assert (∀ table, table ⊆ apiPatterns cfg ++ healthPatterns → ∀ v, findRoute table method (segmentsOf path) = Some (e, v) →
    ∃ pat v', (pat, e) ∈ parsed (apiPatterns cfg ++ healthPatterns) ∧
      matchPattern pat method (segmentsOf path) = Some v' ∧ default "" (head v) = default "" (head v')) as H.
  { intros table Hs v (pat & Hin & Hm)%findRoute_Some. exists pat, v. split_and!; try done. by apply (parsed_subset table). }
  rw /dispatch. destruct (_ && _); [done|].
  destruct (findRoute (apiPatterns cfg) _ _) as [[e1 v1]|] eqn:E1.
  - intros [= -> <-]. apply (H _) in E1; [done|set_solver].
  - destruct (findRoute healthPatterns _ _) as [[e1 v1]|] eqn:E2; [|by destruct (allowedMethods _ _)].
    intros [= -> <-]. apply (H _) in E2; [done|set_solver].
Qed.

(** ** Methods *)

(** What an endpoint changes does not depend on what its handler draws. *)
Definition changes (e : endpoint) : bool := mutating (routeOf (MkDraws "" "" "" "" "" 0 []) e).
Lemma changes_route d e : mutating (routeOf d e) = changes e.
Proof. by destruct e. Qed.

Lemma everyPattern_methods pat e : (pat, e) ∈ parsed everyPattern →
  if changes e then pat_method pat = "POST" ∨ pat_method pat = "DELETE" else pat_method pat = "GET".
Proof.
  assert (forallb (λ x : pattern * endpoint, if changes x.2
    then bool_decide (pat_method x.1 = "POST" ∨ pat_method x.1 = "DELETE") else bool_decide (pat_method x.1 = "GET"))
    (parsed everyPattern) = true) as H by by vm_compute.
  intros Hin. rewrite forallb_forall in H. specialize (H _ (proj1 (list_elem_of_In _ _) Hin)). cbn in H.
  by destruct (changes e); apply bool_decide_eq_true in H.
Qed.

Lemma methodMatches_spec pat method : methodMatches pat method = true ↔ method = pat ∨ (method = "HEAD" ∧ pat = "GET").
Proof. rw /methodMatches. repeat case_bool_decide; naive_solver. Qed.

Lemma dispatch_method cfg method path e id d :
  dispatch cfg method path = Routed e id →
  if mutating (routeOf d e) then method = "POST" ∨ method = "DELETE" else method = "GET" ∨ method = "HEAD".
Proof.
  intros (pat & v & Hin & Hm & _)%dispatch_Routed. rw changes_route.
  apply (parsed_subset _ _ (apiPatterns_subset cfg)), everyPattern_methods in Hin.
  rw /matchPattern in Hm. destruct (methodMatches _ _) eqn:E; [|done]. apply methodMatches_spec in E.
  destruct (changes e); [|naive_solver]. destruct E as [->|[_ E]]; [done|]. destruct Hin; congruence.
Qed.


(** ** Links *)

(** The path of a pattern for an ID. *)
Definition linkTo (pat : pattern) (id : string) : list Z :=
  pathOf ((λ seg, match seg with Literal text => bytes text | Wildcard => PathEscape id end) <$> pat_segments pat).

(** An ID that a path can carry: "." and ".." are steps of the path itself, and
    neither nothing nor a lone slash matches a wildcard. *)
Definition linkable (id : string) : Prop := id ∉ [""; "."; ".."; "/"].

Lemma splitOn_intercalate sep ws :
  ws ≠ [] → Forall (λ w, sep ∉ w) ws → splitOn sep (intercalate [sep] ws) = ws.
Proof.
  assert (∀ w l, sep ∉ w → splitOn sep (w ++ l) =
    match splitOn sep l with x :: xs => (w ++ x) :: xs | [] => [w] end) as Happ.
  { induction w as [|b w IH]; intros l Hw; cbn [app splitOn].
    - by destruct l as [|b l]; cbn [splitOn]; [|destruct (b =? sep); [|destruct (splitOn sep l)]].
    - apply not_elem_of_cons in Hw as [Hb Hw]. rw (proj2 (Z.eqb_neq _ _)); [congruence|]. rw IH //.
      by destruct (splitOn sep l). }
  intros Hne Hws. induction Hws as [|w ws Hw Hws IH]; [done|]. destruct ws as [|w' ws'].
  - rw -(app_nil_r (intercalate _ _)) Happ //= app_nil_r. done.
  - change (intercalate [sep] (w :: w' :: ws')) with (w ++ sep :: intercalate [sep] (w' :: ws')).
    rw Happ // /= Z.eqb_refl app_nil_r -/intercalate. f_equal. by apply IH.
Qed.

Lemma segmentsOf_pathOf segs : segs ≠ [] → Forall (λ w, slash ∉ w) segs → segmentsOf (pathOf segs) = segs.
Proof. intros. by apply splitOn_intercalate. Qed.

(** A path without empty segments and steps is clean. *)
Definition proper (seg : list Z) : Prop := seg ∉ [[]; [46]; [46; 46]] ∧ slash ∉ seg.

Lemma push_proper stack segs : Forall proper segs → foldl push stack segs = reverse segs ++ stack.
Proof.
  intros Hs. revert stack. induction Hs as [|seg segs [Hp _] _ IH]; intros stack; [done|]. cbn [foldl].
  rw IH reverse_cons -app_assoc. f_equal. rw /push.
  rewrite !bool_decide_false; try (intros ->; apply Hp; set_solver). done.
Qed.

Lemma cleanPath_proper segs : segs ≠ [] → Forall proper segs → cleanPath (pathOf segs) = pathOf segs.
Proof.
  intros Hne Hs. rw /cleanPath segmentsOf_pathOf //; [by eapply Forall_impl; [exact Hs|intros ? []]|].
  rw /cleanSegments (push_proper []) // app_nil_r reverse_involutive.
  destruct segs as [|seg segs]; [done|]. rewrite bool_decide_false ?app_nil_r //.
  intros Hl%last_Some_elem_of. apply (proj1 (Forall_forall _ _) Hs) in Hl as [Hl _]. apply Hl. set_solver.
Qed.

Lemma hexValue_digit n : 0 ≤ n < 16 → hexValue (upperHexDigit n) = Some n ∧ upperHexDigit n ≠ slash.
Proof.
  intros Hn. assert (n ∈ seqZ 0 16) as Hin by (apply elem_of_seqZ; lia).
  assert (Forall (λ n, hexValue (upperHexDigit n) = Some n ∧ upperHexDigit n ≠ slash) (seqZ 0 16)) as H
    by (cbn; repeat constructor; by vm_compute).
  by apply (proj1 (Forall_forall _ _) H).
Qed.

Lemma percentDecode_escape bs : Forall is_byte bs →
  percentDecode (bs ≫= λ b, if pathSafe b then [b] else [37; upperHexDigit (b / 16); upperHexDigit (b `mod` 16)]) = Some bs.
Proof.
  induction 1 as [|b bs Hb _ IH]; [done|]. rw bind_cons.
  destruct (pathSafe b) eqn:Hs; cbn [app].
  - assert (b ≠ 37) as H37 by (intros ->; by vm_compute in Hs).
    assert (∀ l, percentDecode (b :: l) = rest ← percentDecode l; Some (b :: rest)) as ->.
    { intros l. cbn. repeat case_match; congruence. }
    by rw IH.
  - assert (0 ≤ b / 16 < 16) as H1 by (split; [apply Z.div_pos|apply Z.div_lt_upper_bound]; rw /is_byte in Hb; lia).
    assert (0 ≤ b `mod` 16 < 16) as H2 by by apply Z.mod_pos_bound.
    cbn [percentDecode]. rw (proj1 (hexValue_digit _ H1)) (proj1 (hexValue_digit _ H2)) /= IH /=.
    by rewrite <- (Z.div_mod b 16).
Qed.

Lemma pathSafe_not_slash b : pathSafe b = true → b ≠ slash ∧ b ≠ 37.
Proof. intros Hb; split; intros ->; by vm_compute in Hb. Qed.

Lemma PathEscape_no_slash id : slash ∉ PathEscape id.
Proof.
  rw /PathEscape list_elem_of_bind. intros (b & Hin & Hb). destruct (pathSafe b) eqn:Hs.
  - apply list_elem_of_singleton in Hin as <-. by apply pathSafe_not_slash in Hs as [].
  - pose proof (proj1 (Forall_forall _ _) (bytes_are_bytes id) b Hb) as Hbyte. rw /is_byte in Hbyte.
    destruct (hexValue_digit (b / 16)) as [_ H1]; [split; [apply Z.div_pos|apply Z.div_lt_upper_bound]; lia|].
    destruct (hexValue_digit (b `mod` 16)) as [_ H2]; [by apply Z.mod_pos_bound|]. set_solver.
Qed.

Lemma pathUnescape_escape id : of_bytes (pathUnescape (PathEscape id)) = id.
Proof. rw /pathUnescape (percentDecode_escape _ (bytes_are_bytes id)) /= of_bytes_bytes. done. Qed.

Lemma proper_escape id : linkable id → proper (PathEscape id).
Proof.
  intros Hl. split; [|apply PathEscape_no_slash]. intros Hin. apply Hl. rw -(pathUnescape_escape id).
  repeat (apply elem_of_cons in Hin as [->|Hin]; [by vm_compute; set_solver|]). set_solver.
Qed.

Lemma segmentText_escape id rest : linkable id → segmentText (PathEscape id) rest = id.
Proof.
  intros Hl. rw /segmentText. assert (PathEscape id ≠ []) as Hne.
  { intros E. apply (proper_escape id) in Hl as [Hl _]. rewrite E in Hl. set_solver. }
  rw bool_decide_false //. apply pathUnescape_escape.
Qed.

(** The literals of the patterns are proper segments and stand for themselves. *)
Definition plain (seg : segment) : bool :=
  match seg with
  | Wildcard => true
  | Literal text => bool_decide (proper (bytes text)) && bool_decide (percentDecode (bytes text) = Some (bytes text))
  end.

Lemma everyPattern_plain pat e : (pat, e) ∈ parsed everyPattern → pat_segments pat ≠ [] ∧ Forall plain (pat_segments pat).
Proof.
  assert (forallb (λ x : pattern * endpoint, bool_decide (pat_segments x.1 ≠ []) && forallb plain (pat_segments x.1))
    (parsed everyPattern) = true) as H by by vm_compute.
  intros Hin. rewrite forallb_forall in H. specialize (H _ (proj1 (list_elem_of_In _ _) Hin)). cbn in H.
  apply andb_true_iff in H as [H1%bool_decide_eq_true H2]. split; [done|].
  apply Forall_forall. intros seg Hs. rewrite forallb_forall in H2. by rewrite (H2 seg (proj1 (list_elem_of_In _ _) Hs)).
Qed.

Lemma matchSegments_link segs id : linkable id → Forall plain segs →
  matchSegments segs ((λ seg, match seg with Literal text => bytes text | Wildcard => PathEscape id end) <$> segs) =
    Some ((λ _, id) <$> filter (Wildcard =.) segs).
Proof.
  intros Hid. induction 1 as [|seg segs Hp _ IH]; [done|]. rw fmap_cons filter_cons. destruct seg as [text|].
  - cbn [matchSegments]. cbn in Hp. apply andb_prop_elim in Hp as [[Hp1 _]%bool_decide_unpack Hp2%bool_decide_unpack].
    assert (∀ rest, segmentText (bytes text) rest = text) as Ht.
    { intros rest. assert (bytes text ≠ []) as Hne by (intros E; rewrite E in Hp1; set_solver).
      rw /segmentText bool_decide_false //. by rw /pathUnescape Hp2 /= of_bytes_bytes. }
    by rw bool_decide_true // IH decide_False.
  - assert (id ≠ "/") as Hne by (intros ->; apply Hid; set_solver).
    cbn [matchSegments]. rw segmentText_escape // bool_decide_false // IH. by destruct (decide (Wildcard = Wildcard)).
Qed.

Lemma dispatch_pattern cfg text e pat method id :
  (text, e) ∈ apiPatterns cfg ++ healthPatterns → parsePattern text = Some pat →
  methodMatches (pat_method pat) method = true → linkable id →
  dispatch cfg method (linkTo pat id) = Routed e (if bool_decide (Wildcard ∈ pat_segments pat) then id else "").
Proof.
  intros Hin Hparse Hmethod Hid.
  assert ((pat, e) ∈ parsed (apiPatterns cfg ++ healthPatterns)) as Hp by (apply elem_of_parsed; by exists text).
  destruct (everyPattern_plain pat e) as [Hne Hplain]; [by apply (parsed_subset _ _ (apiPatterns_subset cfg))|].
  set (segs := (λ seg, match seg with Literal text => bytes text | Wildcard => PathEscape id end) <$> pat_segments pat).
  assert (segs ≠ []) as Hsne by by rw /segs; destruct (pat_segments pat).
  assert (Forall proper segs) as Hproper.
  { apply Forall_fmap. eapply Forall_impl; [exact Hplain|]. intros [t|] Ht; [|by apply proper_escape].
    cbn in Ht. by apply andb_prop_elim in Ht as [Ht%bool_decide_unpack _]. }
  assert (segmentsOf (linkTo pat id) = segs) as Hsegs.
  { apply segmentsOf_pathOf; [done|]. by eapply Forall_impl; [exact Hproper|intros ? []]. }
  assert (matchPattern pat method segs = Some ((λ _, id) <$> filter (Wildcard =.) (pat_segments pat))) as Hm
    by (rw /matchPattern Hmethod; by apply matchSegments_link).
  assert (default "" (head ((λ _, id) <$> filter (Wildcard =.) (pat_segments pat))) =
    if bool_decide (Wildcard ∈ pat_segments pat) then id else "") as Hhead.
  { destruct (filter (Wildcard =.) (pat_segments pat)) as [|seg l] eqn:E; cbn.
    - rw bool_decide_false //. intros Hw. by apply (list_filter_nil _ _ E Wildcard Hw).
    - rw bool_decide_true //. assert (seg ∈ filter (Wildcard =.) (pat_segments pat)) as [<- Hs]%list_elem_of_filter
        by (rw E; apply list_elem_of_here). done. }
  rw /dispatch. rewrite (bool_decide_true (cleanPath _ = _)) ?andb_false_r; [by apply cleanPath_proper|].
  rw Hsegs -Hhead.
  assert (apiPatterns cfg ⊆ everyPattern) as H1 by (pose proof (apiPatterns_subset cfg); set_solver).
  assert (healthPatterns ⊆ everyPattern) as H2 by (pose proof (apiPatterns_subset cfg); set_solver).
  apply elem_of_app in Hin as [Hin|Hin].
  - by rw (findRoute_match _ _ _ pat e _ H1 _ Hm); [apply elem_of_parsed; by exists text|].
  - destruct (findRoute (apiPatterns cfg) method segs) as [[e' v']|] eqn:E.
    + apply findRoute_Some in E as (pat' & Hin' & Hm').
      destruct (same_pattern pat e pat' e' method segs _ v' ltac:(by apply (parsed_subset _ _ (apiPatterns_subset cfg)))
        ltac:(by apply (parsed_subset _ _ H1)) Hm Hm') as (_ & -> & ->). done.
    + rw (findRoute_match healthPatterns _ _ pat e _ H2 _ Hm); [apply elem_of_parsed; by exists text|done].
Qed.


(** The links in the answers: a new run and a new import are found at the
    Location that the browser is given. *)
Definition plainID (id : string) : Prop := linkable id ∧ Forall (λ b, pathSafe b = true) (bytes id).

Lemma PathEscape_plain id : Forall (λ b, pathSafe b = true) (bytes id) → PathEscape id = bytes id.
Proof. rw /PathEscape. induction 1 as [|b bs Hb _ IH]; [done|]. by rw bind_cons Hb IH. Qed.

Lemma bytes_app s t : bytes (s +:+ t) = bytes s ++ bytes t.
Proof. induction s as [|c s IH]; [done|]. cbn. by rw -IH. Qed.

Lemma links_resolve cfg id : spotify_enabled cfg = true → plainID id →
  dispatch cfg "GET" (bytes ("/api/transfers/runs/" +:+ id)) = Routed RunState id ∧
  dispatch cfg "GET" (bytes ("/api/spotify/imports/" +:+ id)) = Routed ImportStatus id.
Proof.
  intros Hs [Hl Hp]. destruct cfg as [sp apple]. cbn in Hs. subst sp.
  pose proof (λ text e kind, dispatch_pattern (MkEnabled true apple) text e
    (MkPattern "GET" [Literal "api"; Literal kind.1; Literal kind.2; Wildcard]) "GET" id) as H.
  rewrite !bytes_app -(PathEscape_plain id Hp). split.
  - apply (H "GET /api/transfers/runs/{id}" RunState ("transfers", "runs")); [|by vm_compute|done..].
    destruct apple; cbn; set_solver.
  - apply (H "GET /api/spotify/imports/{id}" ImportStatus ("spotify", "imports")); [|by vm_compute|done..].
    destruct apple; cbn; set_solver.
Qed.

(** ** Requests of other sites *)

(** C19: a foreign page changes nothing: a request of any method but GET and HEAD
    whose origin is neither Spotify's nor the public one leaves the whole state
    as it was, whatever its path, cookies and body, and its answer is a refusal
    or the redirect to a clean path. *)
Theorem foreign_requests_inert `{AEAD, Unicode} {R} (net : Request → M R error Response) clk cfg spotify token appleURL origin
    redirect method path d r (s : server (world R)) :
  w_tx (s_rest s) = None → method ≠ "GET" → method ≠ "HEAD" →
  r_origin r ≠ Auth_origin spotify → r_origin r ≠ origin →
  let '(resp, s') := serveHTTP (mux net clk cfg spotify token appleURL origin) redirect cfg method path d r s in
  s' = s ∧ (resp = redirect ∨ w_status resp = 403 ∨ w_status resp = 404 ∨ w_status resp = 405).
Proof.
  intros Htx Hget Hhead Hs Ho. rw /serveHTTP /mapReply. rewrite (bool_decide_false (method = "HEAD") Hhead).
  destruct (dispatch cfg method path) as [|e id|allow|] eqn:E;
    [by split; [|left]| |by split; [|right; right; right]|by split; [|right; right; left]].
  apply (dispatch_method _ _ _ _ _ d) in E. destruct (mutating (routeOf d e)) eqn:Hm; [|naive_solver].
  rw /mux. destruct (registered cfg (routeOf d e)); [|by split; [|right; right; left]].
  pose proof (foreign_refused net clk cfg spotify token appleURL origin (routeOf d e) (withPathValue r id) s Htx Hm) as H1.
  destruct (serve _ _ _ _ _ _ _ _ _ s) as [resp s']. destruct H1 as [H1 ->]; [by destruct e|].
  by split; [|right; left].
Qed.

(** ** Concrete requests *)

Lemma patterns_disjoint_witness :
  ∃ pat, parsePattern "GET /api/transfers/previews/{id}" = Some pat ∧
    matchPattern pat "HEAD" (segmentsOf (bytes "/api/transfers/previews/p%31")) = Some ["p1"] ∧
    PreviewPage = PreviewPage.
Proof.
  set (pat := MkPattern "GET" [Literal "api"; Literal "transfers"; Literal "previews"; Wildcard]).
  assert ((pat, PreviewPage) ∈ parsed everyPattern) as Hin by (apply (list_elem_of_lookup_2 _ 12); vm_compute; reflexivity).
  exists pat. refine (conj eq_refl (conj eq_refl _)).
  exact (proj1 (proj2 (patterns_disjoint pat PreviewPage pat PreviewPage "HEAD" (segmentsOf (bytes "/api/transfers/previews/p%31"))
    ["p1"] ["p1"] Hin Hin eq_refl eq_refl))).
Defined.



(** A page of another site starts a run with the cookies of the browser. *)
Lemma foreign_requests_inert_witness :
  let h := @serveHTTP _ (@mux idealAEAD latin1 unit (λ _ w, (Err DeadlineExceeded, w)) (λ _, 0) (MkEnabled true true)
    (NewAuth (NewClient "c" "http://127.0.0.1/auth/spotify/callback") ("http", "127.0.0.1")) (λ _, None) "" "http://127.0.0.1")
    NotFound (MkEnabled true true) "POST" (bytes "/api/transfers/previews/p1/runs") (MkDraws "" "" "" "" "r1" 0 [])
    exForeign exIdle in
  h.2 = exIdle ∧ w_status h.1 = 403.
Proof.
  split; [|vm_compute; reflexivity].
  match goal with |- (serveHTTP (mux ?net ?clk ?cfg ?a ?t ?u ?o) ?rd _ ?m ?p ?d ?r ?s).2 = _ =>
    pose proof (@foreign_requests_inert idealAEAD latin1 unit net clk cfg a t u o rd m p d r s eq_refl) as H;
    destruct (serveHTTP (mux net clk cfg a t u o) rd cfg m p d r s) as [resp s'] end.
  apply H; vm_compute; discriminate.
Defined.
