(* ===== verification/Wiring.v ===== *)
(** cmd/api/main.go and cmd/worker/main.go up to the point where they serve:
    from the environment to the routes and the job kinds of the two processes.

    Opening the pool and River's own checks are parameters, the environment is
    [Getenv].  The theorems here compose the configuration with the handlers of
    Api.v: what a process that came up can be relied on. *)
From S2P Require Import Prelude GoStrings Errors Json Http WebServer Models Matcher SpotifyTypes Database Service SpotifyStore SpotifyClient AppleClient AppleConnections SpotifyAuth ImportHttp AppleHttp TransferHttp HealthHttp Config Admin Api.
Local Open Scope string_scope.
Local Open Scope list_scope.
Local Open Scope Z_scope.
Local Open Scope go_scope.

(** ** The processes *)

(** [NewPostgresStore] of both packages: the cipher of a key of 32 bytes is the
    class [AEAD]. *)
Definition NewPostgresStore (key : list Z) : result unit :=
  if negb (len key =? 32) then Err (ErrorString "token encryption key must contain 32 bytes") else Ok tt.

Definition importKind : string := "spotify_playlist_import".
Definition runKind : string := "transfer_run".

(** What the API process serves with. *)
Record api_process `{AppleKeys} : Type := Mkapi_process {
  api_config : Config;
  api_origin : string;
  api_spotify : option Auth;
  api_apple : option AppleClient;
  api_queue : option QueueConfig;
}.

Section wiring.
Context `{GoParsers, AppleKeys} (Getenv : string → string).
Context (OpenDatabase : string → result unit) (riverNewClient : QueueConfig → result unit).

(** The Spotify client of an enabled configuration. *)
Definition spotifyClient (c : SpotifyConfig) : result (option Client) :=
  if bool_decide (ClientID c = "") then Ok None else
  let* _ := NewPostgresStore (EncryptionKey c) in
  Ok (Some (NewClient (ClientID c) (RedirectURI c))).

(** [NewAuth] parses the redirect URI of its client once more, and would
    dereference nil if that failed. *)
Definition authOf (client : Client) : result Auth :=
  match url_Parse (redirectURI client) with
  | Some u => Ok (NewAuth client (URL_Scheme u, URL_Host u))
  | None => Err (ErrorString "runtime error: invalid memory address or nil pointer dereference")
  end.

Definition appleClient (c : AppleMusicConfig) : result (option AppleClient) :=
  if bool_decide (TeamID c = "") then Ok None else
  let* key := LoadTokenEncryptionKey Getenv in
  let* _ := NewPostgresStore key in
  let* client := NewAppleClient (TeamID c) (KeyID c) (PrivateKeyPEM c) in
  Ok (Some client).

(** The number of transfer providers. *)
Definition providerCount {A B} (spotify : option A) (apple : option B) : nat :=
  (if spotify is Some _ then 1 else 0) + (if apple is Some _ then 1 else 0).

(** [run] of cmd/api between the opening of the pool and the start of the
    server. *)
Definition apiWire (cfg : Config) (spotifyConfig : SpotifyConfig) (appleConfig : AppleMusicConfig) : result api_process :=
  let origin := if bool_decide (Getenv "PUBLIC_ORIGIN" = "") then "http://" +:+ HTTPAddr cfg else Getenv "PUBLIC_ORIGIN" in
  let* client := spotifyClient spotifyConfig in
  let* auth := match client with None => Ok None | Some client => let* a := authOf client in Ok (Some a) end in
  let* apple := appleClient appleConfig in
  match auth with
  | None => Ok (Mkapi_process _ cfg origin None apple None)
  | Some a =>
      let register := [importKind] ++ (if (0 <? providerCount auth apple)%nat then [runKind] else []) in
      let queue := clientConfig 0 register in
      let* _ := riverNewClient queue in
      Ok (Mkapi_process _ cfg origin (Some a) apple (Some queue))
  end.

(** [run] of cmd/api up to the start of the server. *)
Definition apiRun : result api_process :=
  let* cfg := Load Getenv in
  let* spotifyConfig := LoadSpotify Getenv in
  let* appleConfig := LoadAppleMusic Getenv in
  let* _ := OpenDatabase (DatabaseURL cfg) in
  apiWire cfg spotifyConfig appleConfig.

(** The same of cmd/worker, up to the start of its client. *)
Definition workerWire (cfg : Config) (spotifyConfig : SpotifyConfig) (appleConfig : AppleMusicConfig) : result QueueConfig :=
  let* client := spotifyClient spotifyConfig in
  let* apple := appleClient appleConfig in
  let register := (if client is Some _ then [importKind] else []) ++
                  (if (0 <? providerCount client apple)%nat then [runKind] else []) in
  let queue := clientConfig (WorkerConcurrency cfg) register in
  let* _ := riverNewClient queue in
  Ok queue.

Definition workerRun : result QueueConfig :=
  let* cfg := Load Getenv in
  let* spotifyConfig := LoadSpotify Getenv in
  let* appleConfig := LoadAppleMusic Getenv in
  let* _ := OpenDatabase (DatabaseURL cfg) in
  workerWire cfg spotifyConfig appleConfig.

(** The server of an API process.  Where Spotify is not enabled no route uses
    its [Auth]. *)
Definition noAuth : Auth := NewAuth (NewClient "" "") ("", "").
Definition apiMux `{AEAD, Unicode} {R} (net : Request → M R error Response) (clk : R → Z) (app : api_process)
    (q : route) (r : HttpRequest) : Reply (server (world R)) :=
  mux net clk (MkEnabled (bool_decide (is_Some (api_spotify app))) (bool_decide (is_Some (api_apple app))))
    (default noAuth (api_spotify app)) (λ w, client ← api_apple app; developerToken client (clk w))
    "https://api.music.apple.com/v1" (api_origin app) q r.
End wiring.

(** ** A process that came up *)

Section started.
Context `{GoParsers, AppleKeys} (Getenv : string → string).

Lemma spotifyClient_Ok c client : spotifyClient c = Ok client →
  (client = None ∧ ClientID c = "") ∨
  (client = Some (NewClient (ClientID c) (RedirectURI c)) ∧ ClientID c ≠ "" ∧ len (EncryptionKey c) = 32).
Proof.
  rw /spotifyClient /NewPostgresStore. case_bool_decide; [intros [= <-]; by left|].
  destruct (Z.eqb_spec (len (EncryptionKey c)) 32); [|done]. intros [= <-]. by right.
Qed.

Lemma apiWire_config river1 cfg sc ac app : apiWire Getenv river1 cfg sc ac = Ok app → cfg = api_config app.
Proof.
  rw /apiWire. intros (client & _ & (auth & _ & (apple & _ & H1)%res_bind_inv)%res_bind_inv)%res_bind_inv.
  destruct auth as [a|]; [|by injection H1 as <-]. by apply res_bind_inv in H1 as (_ & _ & [= <-]).
Qed.

(** The two processes read one environment alike: what one enables, the other
    does. *)
Lemma apiRun_Ok open1 river1 app : apiRun Getenv open1 river1 = Ok app →
  ∃ spotifyConfig appleConfig client,
    Load Getenv = Ok (api_config app) ∧ LoadSpotify Getenv = Ok spotifyConfig ∧ LoadAppleMusic Getenv = Ok appleConfig ∧
    spotifyClient spotifyConfig = Ok client ∧ appleClient Getenv appleConfig = Ok (api_apple app) ∧
    match client with
    | None => api_spotify app = None ∧ api_queue app = None
    | Some client =>
        ∃ a, authOf client = Ok a ∧ api_spotify app = Some a ∧ api_queue app = Some (clientConfig 0 [importKind; runKind])
    end.
Proof.
  rw /apiRun /apiWire. intros (cfg & Hcfg & (sc & Hs & (ac & Ha & (_ & _ & H1)%res_bind_inv)%res_bind_inv)%res_bind_inv)%res_bind_inv.
  apply res_bind_inv in H1 as (client & Hc & (auth & Hauth & (apple & Hap & H1)%res_bind_inv)%res_bind_inv).
  exists sc, ac, client. destruct client as [client|].
  - apply res_bind_inv in Hauth as (a & Hof & [= <-]). apply res_bind_inv in H1 as (_ & _ & [= <-]). split_and!; try done. by exists a.
  - injection Hauth as <-. injection H1 as <-. by split_and!.
Qed.

Lemma workerRun_Ok open1 river1 queue : workerRun Getenv open1 river1 = Ok queue →
  ∃ cfg spotifyConfig appleConfig client apple,
    Load Getenv = Ok cfg ∧ LoadSpotify Getenv = Ok spotifyConfig ∧ LoadAppleMusic Getenv = Ok appleConfig ∧
    spotifyClient spotifyConfig = Ok client ∧ appleClient Getenv appleConfig = Ok apple ∧
    queue = clientConfig (WorkerConcurrency cfg)
      ((if client is Some _ then [importKind] else []) ++ (if (0 <? providerCount client apple)%nat then [runKind] else [])).
Proof.
  rw /workerRun /workerWire. intros (cfg & Hcfg & (sc & Hs & (ac & Ha & (_ & _ & H1)%res_bind_inv)%res_bind_inv)%res_bind_inv)%res_bind_inv.
  apply res_bind_inv in H1 as (client & Hc & (apple & Hap & (_ & _ & [= <-])%res_bind_inv)%res_bind_inv).
  by exists cfg, sc, ac, client, apple.
Qed.
End started.

(** ** Cookies *)

(** Every cookie of a response is hidden from scripts and from cross-site
    requests, and [good] for its Secure flag. *)
Definition protected (good : bool → Prop) (resp : HttpResponse) : Prop :=
  Forall (λ c, Cookie_HttpOnly c = true ∧ Cookie_SameSiteLax c = true ∧ good (Cookie_Secure c)) (w_cookies resp).

Section cookies.
Context (good : bool → Prop).
Implicit Types (resp : HttpResponse).

Lemma protected_none resp : w_cookies resp = [] → protected good resp.
Proof. rw /protected. by intros ->. Qed.
Lemma protected_cookie c resp :
  Cookie_HttpOnly c = true → Cookie_SameSiteLax c = true → good (Cookie_Secure c) → protected good resp →
  protected good (withCookie c resp).
Proof. intros. by apply Forall_cons. Qed.
Lemma protected_header k v resp : protected good resp → protected good (withHeader k v resp).
Proof. done. Qed.
Lemma protected_wrapped resp : protected good resp → protected good (wrapped resp).
Proof. done. Qed.
Lemma protected_failure err : protected good (failure err).
Proof. by apply protected_none, failure_cookies. Qed.
End cookies.
#[export] Hint Resolve protected_none protected_wrapped protected_failure : answers.
#[export] Hint Extern 2 (protected _ (withHeader _ _ _)) => apply protected_header : answers.
#[export] Hint Extern 2 (protected _ (withCookie _ _)) => apply protected_cookie; [reflexivity|reflexivity| |] : answers.

Ltac answers_steps := repeat match goal with
  | |- ∀ _, _ => intro
  | |- answers _ (reply _) => apply answers_reply
  | |- answers _ (mapReply _ _) => apply answers_map
  | |- answers _ (wrap _) => apply answers_map
  | |- answers _ (call _ _) => apply answers_call
  | |- answers _ (match ?x with _ => _ end) => destruct x
  | |- protected _ _ => solve [auto with answers]
  end.

Lemma answers_onWorld {W} P (h : Reply W) : answers P h → answers P (onWorld h).
Proof. intros Hh s. specialize (Hh (s_rest s)). rw /onWorld. by destruct (h (s_rest s)). Qed.

Lemma answers_onTransfer {R} P fs (h : Reply (world (world R))) : answers P h → answers P (onTransfer fs h).
Proof. intros Hh w. specialize (Hh (transferWorld fs w)). rw /onTransfer. by destruct (h (transferWorld fs w)). Qed.

(** The Secure flag of the cookies that a route sets; the health endpoints set
    none. *)
Definition cookieSecure (a : Auth) (r : HttpRequest) (q : route) : bool :=
  match q with GetHealthz | GetReadyz => true | PostAppleConnection _ | GetApplePlaylists | DeleteAppleConnection => r_TLS r | _ => Auth_secure a end.

Section routes.
Context `{AEAD, Unicode} {R : Type} (net : Request → M R error Response) (clk : R → Z).
Context (cfg : Enabled) (a : Auth) (token : R → option string) (appleURL origin : string).

#[local] Hint Resolve eq_refl : answers.

Lemma pagination_refused defaultLimit max r resp : pagination defaultLimit max r = inl resp → w_cookies resp = [].
Proof. rw /pagination. repeat case_match; by intros [= <-]. Qed.

Lemma connectInput_refused r resp : connectInput r = inl resp → w_cookies resp = [].
Proof. rw /connectInput. repeat case_match; by intros [= <-]. Qed.

Lemma callback_cookies session r :
  answers (protected (eq (Auth_secure a))) (callback (netDo net) (netClock clk) a session r).
Proof.
  rw /callback. destruct (confirmedState r) as [state|]; answers_steps.
  apply (answers_mono _ (protected (eq (Auth_secure a)))); [answers_steps|].
  intros s. rw /redeem /consume. repeat case_match; try solve [cbn [fst]; auto with answers].
  enough (answers (protected (eq (Auth_secure a))) (authorize (netDo net) (netClock clk) a session a0 (queryGet r "code") r))
    as Ha by apply Ha.
  rw /authorize. answers_steps. intros s'. apply (answers_call _ _ _). answers_steps.
Qed.

Lemma serve_cookies q r :
  answers (protected (eq (cookieSecure a r q))) (serve net clk cfg a token appleURL origin q r).
Proof.
  destruct q; cbn [serve cookieSecure]; try apply answers_onWorld; try apply answers_onTransfer; try apply answers_map.
  - rw /healthz. answers_steps.
  - rw /readyz. answers_steps.
  - apply (answers_mono _ (protected (eq (Auth_secure a)))); [answers_steps|].
    intros s. rw /start. destruct (register _ _ _ _) as [[] pending]; cbn [negb fst]; auto with answers.
  - apply (answers_mono _ (protected (eq (Auth_secure a)))); [answers_steps|apply callback_cookies].
  - rw /connection. answers_steps.
  - rw /disconnect. answers_steps.
  - rw /listPlaylists /withSession /withPagination. destruct (pagination _ _ _) as [resp|[]] eqn:Hp;
      [apply pagination_refused in Hp|]; answers_steps.
  - rw /requestImport /withSession. answers_steps.
  - rw /getImport /withSession. answers_steps.
  - rw /getSnapshot /withSession /withPagination. destruct (pagination _ _ _) as [resp|[]] eqn:Hp;
      [apply pagination_refused in Hp|]; answers_steps.
  - rw /connectApple. destruct (connectInput r) as [resp|[userToken storefront]] eqn:Hinput.
    + answers_steps. apply connectInput_refused in Hinput. auto with answers.
    + answers_steps. intros s. apply answers_call. answers_steps.
  - rw /listApplePlaylists. answers_steps.
  - rw /disconnectApple. answers_steps.
  - rw /createPreview /sessionHashFromRequest. answers_steps.
  - rw /getPreview /sessionHashFromRequest. destruct (pagination _ _ _) as [resp|[]] eqn:Hp;
      [apply pagination_refused in Hp|]; answers_steps.
  - rw /startRun /sessionHashFromRequest. answers_steps.
  - rw /getRun /sessionHashFromRequest. answers_steps.
Qed.
End routes.

(** The routes of the applemusic package. *)
Definition appleRoute (q : route) : bool :=
  match q with PostAppleConnection _ | GetApplePlaylists | DeleteAppleConnection => true | _ => false end.

Lemma cookieSecure_spotify a r q : appleRoute q = false → Auth_secure a = true → cookieSecure a r q = true.
Proof. by destruct q. Qed.

(** The redirect URI that was accepted is parsed again without failure. *)
Lemma authOf_defined `{GoParsers} Getenv c : LoadSpotify Getenv = Ok c → ClientID c ≠ "" →
  ∃ u, url_Parse (RedirectURI c) = Some u ∧
    authOf (NewClient (ClientID c) (RedirectURI c)) = Ok (NewAuth (NewClient (ClientID c) (RedirectURI c)) (URL_Scheme u, URL_Host u)) ∧
    (URL_Scheme u = "https" ∨ (URL_Scheme u = "http" ∧ IsLoopbackIP (URL_Hostname u) = true)).
Proof.
  intros Hl Hid. destruct (LoadSpotify_Ok _ _ Hl Hid) as (_ & _ & u & Hu & _ & Hs).
  exists u. rw /authOf. cbn [redirectURI NewClient]. by rw Hu.
Qed.

(** C21: in an API process that came up, every cookie of every answer is hidden
    from scripts and from cross-site requests, and it is restricted to HTTPS
    unless the Spotify redirect URI is plain HTTP on a loopback address or the
    cookie is one of the Apple Music routes, answered without TLS. *)
Theorem started_cookies_protected `{GoParsers, AppleKeys, AEAD, Unicode} {R} Getenv open_ river
    (net : Request → M R error Response) clk app q r s c :
  apiRun Getenv open_ river = Ok app →
  c ∈ w_cookies (apiMux net clk app q r s).1 →
  Cookie_HttpOnly c = true ∧ Cookie_SameSiteLax c = true ∧
  (Cookie_Secure c = true ∨
   (appleRoute q = true ∧ r_TLS r = false) ∨
   (appleRoute q = false ∧ ∃ u, url_Parse (Getenv "SPOTIFY_REDIRECT_URI") = Some u ∧ URL_Scheme u = "http" ∧
      IsLoopbackIP (URL_Hostname u) = true)).
Proof.
  intros (sc & ac & client & _ & Hs & _ & Hc & _ & Happ)%apiRun_Ok. rw /apiMux /mux.
  destruct (registered _ q) eqn:Hreg; [|cbn; set_solver].
  match goal with |- context [serve net clk ?cfg ?a ?t ?u ?o q r s] =>
    pose proof (serve_cookies net clk cfg a t u o q r s) as Hp end.
  intros (Hh & Hl & Hsec)%(proj1 (Forall_forall _ _) Hp). split_and!; [done..|]. rw -Hsec.
  destruct (appleRoute q) eqn:Hq.
  - replace (cookieSecure _ r q) with (r_TLS r) by by destruct q. destruct (r_TLS r); naive_solver.
  - destruct client as [client|]; [|destruct Happ as [Hn _]; rw Hn in Hreg; left; by destruct q].
    destruct Happ as (a & Hof & -> & _). apply spotifyClient_Ok in Hc as [[??]|([= ->] & Hid & _)]; [done|].
    destruct (authOf_defined _ _ Hs Hid) as (u & Hu & Hof' & Hscheme). rw Hof' in Hof. injection Hof as <-. cbn [default].
    destruct (LoadSpotify_Ok _ _ Hs Hid) as [Henv _]. rw Henv in Hu.
    destruct Hscheme as [Hsch|Hsch]; [left|right; right; naive_solver].
    apply cookieSecure_spotify; [done|]. cbn. by rw Hsch.
Qed.

Lemma workers_complete `{GoParsers, AppleKeys} Getenv open1 river1 open2 river2 app worker :
  apiRun Getenv open1 river1 = Ok app → workerRun Getenv open2 river2 = Ok worker → is_Some (api_spotify app) →
  probeKind ∈ JobKinds worker ∧ importKind ∈ JobKinds worker ∧ runKind ∈ JobKinds worker.
Proof.
  intros (sc & ac & client & _ & Hs & _ & Hc & _ & Happ)%apiRun_Ok.
  intros (cfg & sc' & ac' & client' & apple' & _ & Hs' & _ & Hc' & _ & ->)%workerRun_Ok.
  rewrite Hs in Hs'. simplify_eq. rewrite Hc in Hc'. simplify_eq.
  intros [a Ha]. destruct client' as [client'|]; [|by destruct Happ as [Hn _]; rewrite Hn in Ha].
  cbn. split_and!; set_solver.
Qed.

(** Every job has a worker: where the API and the worker came up in the
    same environment, the kinds that the API's queue accepts are kinds that the
    worker works on, those of its routes included, the API itself works on
    none, and the worker runs between 1 and 100 jobs at a time. *)
Theorem started_jobs_have_workers `{GoParsers, AppleKeys} Getenv open1 river1 open2 river2 app worker :
  apiRun Getenv open1 river1 = Ok app → workerRun Getenv open2 river2 = Ok worker →
  (∃ n, MaxWorkers worker = Some n ∧ 1 ≤ n ≤ 100) ∧ probeKind ∈ JobKinds worker ∧
  match api_queue app with
  | None => api_spotify app = None
  | Some queue => MaxWorkers queue = None ∧ importKind ∈ JobKinds queue ∧ runKind ∈ JobKinds queue ∧
                  JobKinds queue ⊆ JobKinds worker
  end.
Proof.
  intros (sc & ac & client & Hcfg & Hs & Ha & Hc & Hap & Happ)%apiRun_Ok.
  intros (cfg & sc' & ac' & client' & apple' & Hcfg' & Hs' & Ha' & Hc' & Hap' & ->)%workerRun_Ok.
  rewrite Hs in Hs'. rewrite Ha in Ha'. simplify_eq. rewrite Hc in Hc'. simplify_eq.
  apply Load_concurrency in Hcfg' as Hn. rw /clientConfig. cbn [MaxWorkers JobKinds].
  assert (0 <? WorkerConcurrency cfg = true) as Hpos by lia. rw Hpos.
  split_and!; [by exists (WorkerConcurrency cfg)|set_solver|].
  destruct client' as [client|]; [|by destruct Happ as [-> ->]].
  destruct Happ as (a & _ & _ & ->). cbn. split_and!; set_solver.
Qed.

(** Cookies of the Apple Music routes follow the connection of the request and
    not the configured origin: the server listens without TLS, so behind a
    proxy that terminates it the session cookie is not restricted to HTTPS. *)
Lemma apple_session_insecure `{GoParsers, AppleKeys, AEAD, Unicode} {R} (net : Request → M R error Response) clk app q r s c :
  appleRoute q = true → r_TLS r = false → c ∈ w_cookies (apiMux net clk app q r s).1 → Cookie_Secure c = false.
Proof.
  intros Hq Ht. rw /apiMux /mux. destruct (registered _ q); [|cbn; set_solver].
  match goal with |- context [serve net clk ?cfg ?a ?t ?u ?o q r s] =>
    pose proof (serve_cookies net clk cfg a t u o q r s) as Hp end.
  intros (_ & _ & <-)%(proj1 (Forall_forall _ _) Hp). by destruct q.
Qed.

(** ** A concrete environment *)

#[export] Instance exParsers : GoParsers := {|
  url_Parse s :=
    if bool_decide (s = "postgres://localhost/music") then Some (MkURL "postgres" "localhost" "localhost" false "/music" "" "")
    else if bool_decide (s = "https://music.example/auth/spotify/callback") then
      Some (MkURL "https" "music.example" "music.example" false "/auth/spotify/callback" "" "")
    else None;
  SplitHostPort s := if bool_decide (s = "127.0.0.1:8080") then Some ("127.0.0.1", "8080") else None;
  IsLoopbackIP s := bool_decide (s = "127.0.0.1");
  LevelUnmarshalText _ := None;
|}.
#[export] Instance exKeys : AppleKeys := {|
  PrivateKey := string; pem_Decode := Some; ParsePKCS8PrivateKey := Some; isP256 _ := true; SignES256 _ _ _ := Some "jwt";
|}.

Definition exGetenv (name : string) : string :=
  if bool_decide (name = "TOKEN_ENCRYPTION_KEY") then of_bytes (stdEncode (replicate 32 7))
  else if bool_decide (name = "SPOTIFY_CLIENT_ID") then "client"
  else if bool_decide (name = "SPOTIFY_REDIRECT_URI") then "https://music.example/auth/spotify/callback"
  else if bool_decide (name = "DATABASE_URL") then "postgres://localhost/music"
  else if bool_decide (name = "PUBLIC_ORIGIN") then "https://music.example"
  else if bool_decide (name = "APPLE_TEAM_ID") then "team"
  else if bool_decide (name = "APPLE_KEY_ID") then "key"
  else if bool_decide (name = "APPLE_PRIVATE_KEY") then "pem"
  else "".

Definition exOpen (_ : string) : result unit := Ok tt.
Definition exRiver (_ : QueueConfig) : result unit := Ok tt.

Definition exApp : api_process :=
  match apiRun exGetenv exOpen exRiver with Ok app => app | Err _ => Mkapi_process _ (MkConfig "" "" 0 0 0) "" None None None end.
Definition exWorker : QueueConfig :=
  match workerRun exGetenv exOpen exRiver with Ok w => w | Err _ => clientConfig 0 [] end.

Lemma started_jobs_have_workers_witness :
  MaxWorkers exWorker = Some 4 ∧ JobKinds exWorker = ["system_probe"; "spotify_playlist_import"; "transfer_run"] ∧
  probeKind ∈ JobKinds exWorker.
Proof.
  refine (conj eq_refl (conj eq_refl _)).
  exact (proj1 (proj2 (started_jobs_have_workers exGetenv exOpen exRiver exOpen exRiver exApp exWorker eq_refl eq_refl))).
Defined.

(** Starting the authorization sets a Secure cookie. *)
Definition exStart : HttpResponse :=
  (@apiMux exKeys idealAEAD latin1 unit (λ _ w, (Err DeadlineExceeded, w)) (λ _, 0) exApp (GetAuthSpotify "st" "v" "w")
     (MkHttpRequest "" [] [] "" None false) (MkServer ∅ (MkWorld emptyDB None [] 0 tt))).1.

Lemma started_cookies_protected_witness :
  ∃ c, w_cookies exStart = [c] ∧ Cookie_HttpOnly c = true ∧ Cookie_SameSiteLax c = true ∧ Cookie_Secure c = true.
Proof.
  exists (MkCookie "spotify_oauth_state" "st" "/auth/spotify" 600 true true true).
  split; [vm_compute; reflexivity|].
  destruct (@started_cookies_protected _ exKeys idealAEAD latin1 unit exGetenv exOpen exRiver (λ _ w, (Err DeadlineExceeded, w))
    (λ _, 0) exApp (GetAuthSpotify "st" "v" "w") (MkHttpRequest "" [] [] "" None false)
    (MkServer ∅ (MkWorld emptyDB None [] 0 tt)) (MkCookie "spotify_oauth_state" "st" "/auth/spotify" 600 true true true))
    as (H1 & H2 & _).
  - vm_compute. reflexivity.
  - apply list_elem_of_here.
  - exact (conj H1 (conj H2 eq_refl)).
Defined.

(** With the same environment the session of a connected Apple Music account
    is not. *)
Example exInsecure :
  Cookie_Secure <$> w_cookies
    (@apiMux exKeys idealAEAD latin1 unit
       (λ _ w, (Ok (MkResponse 200 "" (Some (JObject [("data", JArray []); ("next", JString "")]))), w)) (λ _, 0) exApp
       (PostAppleConnection "s1")
       (MkHttpRequest "https://music.example" [] [] "" (Some (40, JObject [("user_token", JString "t"); ("storefront", JString "es")])) false)
       (MkServer ∅ (MkWorld emptyDB None [] 0 tt))).1 = [false].
Proof. vm_compute. reflexivity. Qed.
