(* ===== verification/Lifecycle.v ===== *)
(** internal/platform/database.go, and the [main] functions of cmd/api and
    cmd/worker: the connection pool, the start of the server and of the queue's
    client, and what a signal does.

    What one run of a process meets outside is the record [Host]: the results of
    pgx, of the listener and of River's client.  The effects of a run are its
    trace of [event]s, and a process that has to stop in order is one whose trace
    the [monitor] accepts.  Info and warning lines of the log are left out. *)
From S2P Require Import Prelude GoStrings Errors Json AppleClient Config Admin Wiring.
Local Open Scope string_scope.
Local Open Scope list_scope.
Local Open Scope Z_scope.
Local Open Scope go_scope.

(** ** What the processes meet, and what they do *)

(** [pgxpool.Config]: the two fields that the program sets and the rest, which
    is pgx's. *)
Record PoolConfig (C : Type) : Type := MkPoolConfig {
  ConnConfig : C;
  MaxConns : Z;
  ConnectTimeout : Z;
}.
Arguments MkPoolConfig {C} _ _ _.
Arguments ConnConfig {C} _.

(** What the [select] of the API meets first. *)
Inductive ServeEnd : Type :=
| ListenReturned (err : error)
| Signalled.

Record Host (C : Type) : Type := MkHost {
  h_ParseConfig : string → result (PoolConfig C);
  h_NewWithConfig : PoolConfig C → result unit;
  h_Ping : result unit;
  h_serving : ServeEnd;                (* errs <- server.ListenAndServe(), or ctx.Done() *)
  h_Shutdown : result unit;            (* server.Shutdown *)
  h_Start : result unit;               (* client.Start *)
  h_Stop : result unit;                (* client.Stop *)
  h_StopAndCancel : result unit;
}.
Arguments h_ParseConfig {C} _ _.
Arguments h_NewWithConfig {C} _ _.
Arguments h_Ping {C} _.
Arguments h_serving {C} _.
Arguments h_Shutdown {C} _.
Arguments h_Start {C} _.
Arguments h_Stop {C} _.
Arguments h_StopAndCancel {C} _.

(** The limits of [http.Server]. *)
Record HttpServer : Type := MkHttpServer {
  Addr : string;
  ReadHeaderTimeout : Z;
  ReadTimeout : Z;
  WriteTimeout : Z;
  IdleTimeout : Z;
  MaxHeaderBytes : Z;
}.

Inductive event : Type :=
| SignalsCaught                          (* signal.NotifyContext *)
| SignalsRestored                        (* stop(): the next signal kills the process *)
| PoolCreated (maxConns connectTimeout : Z)
| PoolPinged (timeout : Z)
| PoolClosed
| Listening (server : HttpServer)
| ListenEnded
| ServerShutdown (timeout : Z) (drained : bool)
| ServerClosed
| WorkStarted (queue : QueueConfig)
| WorkStopped (timeout : Z) (drained : bool)
| WorkCancelled (timeout : Z)            (* client.StopAndCancel *)
| WorkContextCancelled                   (* cancelWork() *)
| ErrorLogged (message : string) (err : error)
| Exited (code : Z).

Abbreviation Process := (M (list event) error).
Definition emit (e : event) : Process unit := λ t, (Ok tt, t ++ [e]).

Definition succeeded {A} (r : result A) : bool := match r with Ok _ => true | Err _ => false end.

(** ** The pool *)

Section pool.
Context {C : Type} (host : Host C).

Definition OpenDatabase (databaseURL : string) : Process unit :=
  match h_ParseConfig host databaseURL with
  | Err _ => raise (ErrorString "invalid database configuration")
  | Ok cfg =>
      let cfg := MkPoolConfig (ConnConfig cfg) 10 (5 * Second) in
      match h_NewWithConfig host cfg with
      | Err _ => raise (ErrorString "cannot create database pool")
      | Ok _ =>
          emit (PoolCreated (MaxConns _ cfg) (ConnectTimeout _ cfg)) ;;
          emit (PoolPinged (5 * Second)) ;;
          match h_Ping host with
          | Err _ =>
              emit PoolClosed ;;
              raise (ErrorString "database unavailable; check DATABASE_URL and PostgreSQL")
          | Ok _ => mret tt
          end
      end
  end.

(** Its result alone, as Wiring uses it. *)
Definition opened (databaseURL : string) : result unit := (OpenDatabase databaseURL []).1.

(** ** The API *)

Definition httpServer (cfg : Config) : HttpServer :=
  MkHttpServer (HTTPAddr cfg) (5 * Second) (10 * Second) (10 * Second) (60 * Second) (16 * 2 ^ 10).

(** From the start of the server to the end of [run]. *)
Definition serveUntilDone (cfg : Config) : Process unit :=
  emit (Listening (httpServer cfg)) ;;
  match h_serving host with
  | ListenReturned err =>
      emit ListenEnded ;;
      if errors_Is err ErrServerClosed then mret tt else raise err
  | Signalled =>
      emit SignalsRestored ;;
      emit (ServerShutdown (ShutdownTimeout cfg) (succeeded (h_Shutdown host))) ;;
      match h_Shutdown host with
      | Err err => emit ServerClosed ;; raise err
      | Ok _ => mret tt
      end
  end.

(** ** The worker *)

(** From the start of the client to the end of [run]; the only way on from a
    started client is a signal. *)
Definition workUntilDone (cfg : Config) (queue : QueueConfig) : Process unit :=
  defer (emit WorkContextCancelled)
    match h_Start host with
    | Err err => raise err
    | Ok _ =>
        emit (WorkStarted queue) ;;
        emit SignalsRestored ;;
        emit (WorkStopped (ShutdownTimeout cfg) (succeeded (h_Stop host))) ;;
        match h_Stop host with
        | Err _ => emit (WorkCancelled (5 * Second)) ;; lift (h_StopAndCancel host)
        | Ok _ => mret tt
        end
    end.

(** ** The processes *)

Context `{GoParsers, AppleKeys} (Getenv : string → string) (riverNewClient : QueueConfig → result unit).

(** [body] with the pool of the configured database, and between the two
    [defer]s of both [run]s. *)
Definition withDatabase (cfg : Config) (body : Process unit) : Process unit :=
  emit SignalsCaught ;;
  defer (emit SignalsRestored) (
    OpenDatabase (DatabaseURL cfg) ;;
    defer (emit PoolClosed) body).

(** [run] of cmd/api. *)
Definition runAPI : Process unit :=
  cfg ← lift (Load Getenv);
  spotifyConfig ← lift (LoadSpotify Getenv);
  appleConfig ← lift (LoadAppleMusic Getenv);
  withDatabase cfg (
    _ ← lift (apiWire Getenv riverNewClient cfg spotifyConfig appleConfig);
    serveUntilDone cfg).

(** [run] of cmd/worker. *)
Definition runWorker : Process unit :=
  cfg ← lift (Load Getenv);
  spotifyConfig ← lift (LoadSpotify Getenv);
  appleConfig ← lift (LoadAppleMusic Getenv);
  withDatabase cfg (
    queue ← lift (workerWire Getenv riverNewClient cfg spotifyConfig appleConfig);
    workUntilDone cfg queue).

(** [main] around either of them: the trace of the process. *)
Definition mainOf (message : string) (run : Process unit) : list event :=
  match run [] with
  | (Ok _, t) => t ++ [Exited 0]
  | (Err err, t) => t ++ [ErrorLogged message err; Exited 1]
  end.
Definition apiMain : list event := mainOf "api stopped" runAPI.
Definition workerMain : list event := mainOf "worker stopped" runWorker.
End pool.

(** ** The protocol of a process *)

(** What a process does: nothing, serve or work, or that after it was asked to
    stop and did not in time. *)
Inductive activity : Type := Idle | Active | Overdue.

#[export] Instance activity_eq_dec : EqDecision activity.
Proof. solve_decision. Defined.

(** What a process holds, besides: the signals and the pool. *)
Record phase : Type := MkPhase {
  p_signals : bool;
  p_pool : bool;
  p_activity : activity;
}.
Definition bare : phase := MkPhase false false Idle.

#[export] Instance phase_eq_dec : EqDecision phase.
Proof. solve_decision. Defined.

Definition allow {A} (guard : bool) (a : A) : option A := if guard then Some a else None.

(** A process serves or works only while it has a pool, of at most ten
    connections, and starts to only while a signal can stop it.  It is then given
    30 seconds to finish, and only what did not finish in time is cut off.  The
    pool is given back only when the process has stopped, and it exits holding
    nothing. *)
Definition monitor (p : phase) (e : event) : option phase :=
  let '(MkPhase signals pool activity) := p in
  let idle := bool_decide (activity = Idle) in
  let active := bool_decide (activity = Active) in
  let overdue := bool_decide (activity = Overdue) in
  match e with
  | SignalsCaught => allow (negb signals) (MkPhase true pool activity)
  | SignalsRestored => Some (MkPhase false pool activity)
  | PoolCreated n timeout =>
      allow (negb pool && (n =? 10) && (timeout =? 5 * Second)) (MkPhase signals true activity)
  | PoolPinged _ => allow pool p
  | PoolClosed => allow (pool && idle) (MkPhase signals false Idle)
  | Listening _ | WorkStarted _ => allow (signals && pool && idle) (MkPhase signals pool Active)
  | ListenEnded => allow active (MkPhase signals pool Idle)
  | ServerShutdown timeout drained | WorkStopped timeout drained =>
      allow (active && negb signals && (timeout =? 30 * Second)) (MkPhase signals pool (if drained then Idle else Overdue))
  | ServerClosed | WorkCancelled _ => allow overdue (MkPhase signals pool Idle)
  | WorkContextCancelled => allow idle p
  | ErrorLogged _ _ | Exited _ => allow (negb signals && negb pool && idle) p
  end.

Fixpoint follow (p : phase) (t : list event) : option phase :=
  match t with
  | [] => Some p
  | e :: t => p ← monitor p e; follow p t
  end.

Lemma follow_app p t1 t2 : follow p (t1 ++ t2) = p1 ← follow p t1; follow p1 t2.
Proof. revert p. induction t1 as [|e t1 IH]; intros p; [done|]. cbn. destruct (monitor p e); [apply IH|done]. Qed.

(** [moves p m Q]: from phase [p] the events of [m] are accepted and lead to a
    phase that [Q] relates to the result. *)
Definition moves {A} (p : phase) (m : Process A) (Q : result A → phase → Prop) : Prop :=
  ∀ t, follow bare t = Some p → wp m (λ r t', ∃ p', follow bare t' = Some p' ∧ Q r p') t.

Section moves.
Context {A B : Type}.
Implicit Types (p : phase) (Q : result A → phase → Prop).

Lemma moves_lift p (r : result A) Q : Q r p → moves p (lift r) Q.
Proof. intros HQ t Ht. by exists p. Qed.
Lemma moves_emit p p' e (Q : result unit → phase → Prop) :
  monitor p e = Some p' → Q (Ok tt) p' → moves p (emit e) Q.
Proof. intros He HQ t Ht. exists p'. rw follow_app Ht. cbn. by rw He. Qed.
Lemma moves_bind p (m : Process B) (k : B → Process A) Q :
  moves p m (λ r p1, match r with Ok b => moves p1 (k b) Q | Err e => Q (Err e) p1 end) → moves p (m ≫= k) Q.
Proof.
  intros Hm t Ht. apply wp_bind. apply (wp_mono _ _ _ _ (Hm t Ht)).
  intros [b|e] t' (p' & Hp' & HQ); [by apply HQ|by exists p'].
Qed.
Lemma moves_defer p (cleanup : Process unit) (m : Process A) Q :
  moves p m (λ r p1, moves p1 cleanup (λ _, Q r)) → moves p (defer cleanup m) Q.
Proof.
  intros Hm t Ht. apply wp_defer. apply (wp_mono _ _ _ _ (Hm t Ht)).
  intros r t' (p' & Hp' & HQ). apply (HQ t' Hp').
Qed.
Lemma moves_mono p (m : Process A) Q Q' : moves p m Q → (∀ r p', Q r p' → Q' r p') → moves p m Q'.
Proof. intros Hm HQ t Ht. apply (wp_mono _ _ _ _ (Hm t Ht)). naive_solver. Qed.
End moves.

Ltac moves_steps := repeat match goal with
  | |- moves _ (_ ≫= _) _ => apply moves_bind
  | |- moves _ (emit _) _ => eapply moves_emit; [reflexivity|]
  | |- moves _ (defer _ _) _ => apply moves_defer
  | |- moves _ (raise ?e) _ => apply (moves_lift _ (Err e))
  | |- moves _ (mret ?a) _ => apply (moves_lift _ (Ok a))
  | |- moves _ (lift _) _ => apply moves_lift
  end.

Section processes.
Context {C : Type} (host : Host C).

(** The pool is there where the caller has no error, and not where it has. *)
Lemma moves_OpenDatabase url :
  moves (MkPhase true false Idle) (OpenDatabase host url) (λ r p, p = MkPhase true (succeeded r) Idle).
Proof.
  rw /OpenDatabase. destruct (h_ParseConfig host url) as [cfg|]; moves_steps; [|done].
  destruct (h_NewWithConfig host _); moves_steps; [|done].
  destruct (h_Ping host); by moves_steps.
Qed.

Lemma moves_serve cfg : ShutdownTimeout cfg = 30 * Second →
  moves (MkPhase true true Idle) (serveUntilDone host cfg) (λ _ p, p_pool p = true ∧ p_activity p = Idle).
Proof.
  intros Ht. rw /serveUntilDone Ht. moves_steps. destruct (h_serving host) as [err|]; moves_steps.
  - destruct (errors_Is err ErrServerClosed); by moves_steps.
  - destruct (h_Shutdown host); cbn [succeeded]; by moves_steps.
Qed.

Lemma moves_work cfg queue : ShutdownTimeout cfg = 30 * Second →
  moves (MkPhase true true Idle) (workUntilDone host cfg queue) (λ _ p, p_pool p = true ∧ p_activity p = Idle).
Proof.
  intros Ht. rw /workUntilDone Ht. moves_steps.
  destruct (h_Start host); moves_steps; [|done]. destruct (h_Stop host); cbn [succeeded]; by moves_steps.
Qed.

Lemma moves_withDatabase cfg body :
  moves (MkPhase true true Idle) body (λ _ p, p_pool p = true ∧ p_activity p = Idle) →
  moves bare (withDatabase host cfg body) (λ _, eq bare).
Proof.
  intros Hb. rw /withDatabase. moves_steps.
  apply (moves_mono _ _ _ _ (moves_OpenDatabase (DatabaseURL cfg))). intros [[]|] p ->; moves_steps; [|done].
  apply (moves_mono _ _ _ _ Hb). intros r [signals pool activity] [Hp Ha]. cbn in Hp, Ha. subst.
  by moves_steps.
Qed.

Lemma follow_main message run : moves bare run (λ _, eq bare) → follow bare (mainOf message run) = Some bare.
Proof.
  intros Hm. destruct (Hm [] eq_refl) as (p' & Hp & <-). rw /mainOf.
  destruct (run []) as [[[]|] t]; cbn in Hp; by rw follow_app Hp.
Qed.
End processes.

(** ** The two processes *)

Section mains.
Context {C : Type} (host : Host C) `{GoParsers, AppleKeys}.
Context (Getenv : string → string) (riverNewClient : QueueConfig → result unit).


(** The opening of the pool, as a result and a trace. *)
Lemma OpenDatabase_run url t : OpenDatabase host url t = (opened host url, t ++ (OpenDatabase host url []).2).
Proof.
  rw /opened /OpenDatabase. destruct (h_ParseConfig host url); [|by rw /raise /= app_nil_r].
  destruct (h_NewWithConfig host _); [|by rw /raise /= app_nil_r].
  destruct (h_Ping host) as [[]|]; cbv [mbind M_bind emit raise mret M_ret]; by rw /= -!app_assoc.
Qed.

(** How the API's server and the worker's client end. *)
Definition servedWell : result unit :=
  match h_serving host with
  | ListenReturned err => if errors_Is err ErrServerClosed then Ok tt else Err err
  | Signalled => h_Shutdown host
  end.
Definition workedWell : result unit :=
  let* _ := h_Start host in
  match h_Stop host with Ok _ => Ok tt | Err _ => h_StopAndCancel host end.

Lemma serveUntilDone_result cfg t : (serveUntilDone host cfg t).1 = servedWell.
Proof.
  rw /serveUntilDone /servedWell. destruct (h_serving host) as [err|]; [by destruct (errors_Is err ErrServerClosed)|].
  by destruct (h_Shutdown host) as [[]|].
Qed.
Lemma workUntilDone_result cfg queue t : (workUntilDone host cfg queue t).1 = workedWell.
Proof.
  rw /workUntilDone /workedWell. destruct (h_Start host) as [[]|]; [|done].
  destruct (h_Stop host) as [[]|]; [done|]. by destruct (h_StopAndCancel host).
Qed.

Lemma withDatabase_result cfg body r :
  (∀ t, (body t).1 = r) → (withDatabase host cfg body []).1 = let* _ := opened host (DatabaseURL cfg) in r.
Proof.
  intros Hr. rw /withDatabase bind_unfold /emit. cbn [app]. rw /defer bind_unfold OpenDatabase_run.
  destruct (opened host (DatabaseURL cfg)) as [[]|]; [|done].
  match goal with |- context [body ?t] => specialize (Hr t); by destruct (body t) end.
Qed.
Lemma runAPI_result :
  (runAPI host Getenv riverNewClient []).1 = let* _ := apiRun Getenv (opened host) riverNewClient in servedWell.
Proof.
  rw /runAPI /apiRun !bind_unfold /lift. destruct (Load Getenv) as [cfg|]; [|done].
  destruct (LoadSpotify Getenv) as [sc|]; [|done]. destruct (LoadAppleMusic Getenv) as [ac|]; [|done]. cbn.
  rewrite (withDatabase_result _ _ (let* _ := apiWire Getenv riverNewClient cfg sc ac in servedWell)).
  - intros t. rw bind_unfold. destruct (apiWire _ _ _ _ _); [apply serveUntilDone_result|done].
  - by destruct (opened host (DatabaseURL cfg)).
Qed.
Lemma runWorker_result :
  (runWorker host Getenv riverNewClient []).1 = let* _ := workerRun Getenv (opened host) riverNewClient in workedWell.
Proof.
  rw /runWorker /workerRun !bind_unfold /lift. destruct (Load Getenv) as [cfg|]; [|done].
  destruct (LoadSpotify Getenv) as [sc|]; [|done]. destruct (LoadAppleMusic Getenv) as [ac|]; [|done]. cbn.
  rewrite (withDatabase_result _ _ (let* _ := workerWire Getenv riverNewClient cfg sc ac in workedWell)).
  - intros t. rw bind_unfold. destruct (workerWire _ _ _ _ _); [apply workUntilDone_result|done].
  - by destruct (opened host (DatabaseURL cfg)).
Qed.

Lemma mainOf_last message run : last (mainOf message run) = Some (Exited (if succeeded (run []).1 then 0 else 1)).
Proof. rw /mainOf. destruct (run []) as [[[]|] t]; [by rw last_snoc|]. by rw (last_app_cons t). Qed.

(** C39: the exit status is the result of the run: 0 exactly where the process
    came up and then its server was closed or drained in time, or its jobs were
    drained or at least cancelled in time; and 1 otherwise. *)
Theorem exit_status :
  last (apiMain host Getenv riverNewClient) =
    Some (Exited (if succeeded (let* _ := apiRun Getenv (opened host) riverNewClient in servedWell) then 0 else 1)) ∧
  last (workerMain host Getenv riverNewClient) =
    Some (Exited (if succeeded (let* _ := workerRun Getenv (opened host) riverNewClient in workedWell) then 0 else 1)).
Proof. by rw /apiMain /workerMain !mainOf_last runAPI_result runWorker_result. Qed.

(** *** What is served is what came up *)

Definition served_only (P : Config → Prop) (Q : QueueConfig → Prop) (e : event) : Prop :=
  match e with
  | Listening server => ∃ cfg, P cfg ∧ server = httpServer cfg
  | WorkStarted queue => Q queue
  | _ => True
  end.
Definition says (P : Config → Prop) (Q : QueueConfig → Prop) : list event → Prop := Forall (served_only P Q).

Lemma says_emit P Q e : served_only P Q e → keeps (says P Q) (emit e).
Proof. intros He t Ht. apply Forall_app. by split; [|apply Forall_singleton]. Qed.
Lemma says_defer P Q {A} (cleanup : Process unit) (m : Process A) :
  keeps (says P Q) cleanup → keeps (says P Q) m → keeps (says P Q) (defer cleanup m).
Proof. intros Hc Hm t Ht. specialize (Hm t Ht). rw /defer. destruct (m t). by apply Hc. Qed.
#[local] Hint Resolve says_emit says_defer : keeps.
Ltac says_steps := repeat first
  [ apply keeps_bind; [|intros ?] | apply says_defer | apply says_emit; try exact I
  | apply keeps_lift | apply keeps_raise | apply keeps_ret
  | match goal with |- keeps _ (match ?x with _ => _ end) => destruct x eqn:? end ].

Lemma says_OpenDatabase P Q url : keeps (says P Q) (OpenDatabase host url).
Proof. rw /OpenDatabase. says_steps. Qed.
Lemma says_withDatabase P Q cfg (body : Process unit) :
  (opened host (DatabaseURL cfg) = Ok tt → keeps (says P Q) body) → keeps (says P Q) (withDatabase host cfg body).
Proof.
  intros Hb. rw /withDatabase. apply keeps_bind; [says_steps|intros _]. apply says_defer; [says_steps|].
  intros t Ht. rw bind_unfold OpenDatabase_run. destruct (opened host (DatabaseURL cfg)) as [[]|] eqn:Ho.
  - apply (says_defer P Q); [says_steps|auto|].
    pose proof (says_OpenDatabase P Q (DatabaseURL cfg) t Ht) as H1. by rw OpenDatabase_run in H1.
  - pose proof (says_OpenDatabase P Q (DatabaseURL cfg) t Ht) as H1. by rw OpenDatabase_run in H1.
Qed.
Lemma says_main P Q message run : keeps (says P Q) run → says P Q (mainOf message run).
Proof.
  intros Hr. specialize (Hr [] (Forall_nil_2 _)). rw /mainOf. destruct (run []) as [[[]|] t]; cbn in Hr;
    apply Forall_app; (split; [done|]); repeat constructor.
Qed.

(** Only a process that came up serves.  Where the API listens, or the
    worker starts to work, its configuration was accepted, its database was
    opened and answered, and every part was put together: what the theorems of
    Wiring say of [apiRun] and [workerRun] holds of every process that serves, on
    the address and for the kinds of job that were configured. *)
Theorem serves_what_came_up :
  (∀ server, Listening server ∈ apiMain host Getenv riverNewClient →
    ∃ app, apiRun Getenv (opened host) riverNewClient = Ok app ∧ server = httpServer (api_config app)) ∧
  (∀ queue, WorkStarted queue ∈ workerMain host Getenv riverNewClient →
    workerRun Getenv (opened host) riverNewClient = Ok queue).
Proof.
  set (P cfg := ∃ app, apiRun Getenv (opened host) riverNewClient = Ok app ∧ cfg = api_config app).
  set (Q queue := workerRun Getenv (opened host) riverNewClient = Ok queue).
  enough (says P Q (apiMain host Getenv riverNewClient) ∧ says P Q (workerMain host Getenv riverNewClient)) as [H1 H2].
  { split; [intros server Hin%(proj1 (Forall_forall _ _) H1)|intros queue Hin%(proj1 (Forall_forall _ _) H2)];
      [destruct Hin as (? & (app & Ha & ->) & ->); by exists app|done]. }
  split; apply says_main; rw /runAPI /runWorker; apply keeps_lift_bind; intros cfg Hcfg;
    apply keeps_lift_bind; intros sc Hs; apply keeps_lift_bind; intros ac Ha; apply says_withDatabase; intros Hopen;
    apply keeps_lift_bind.
  - intros app Happ. assert (P cfg) as HP.
    { exists app. rw /apiRun Hcfg Hs Ha /= Hopen /=. split; [done|]. by apply apiWire_config in Happ. }
    rw /serveUntilDone. says_steps. by exists cfg.
  - intros queue Hqueue. assert (Q queue) as HQ by by rw /Q /workerRun Hcfg Hs Ha /= Hopen /=.
    rw /workUntilDone. says_steps. done.
Qed.
End mains.

(** The errors of opening the database are three fixed texts: whatever pgx
    reports, with whatever credentials in it, the process returns nothing of it.
    What the caller gets is a pool of at most ten connections that answered
    within five seconds; in every other case there is no pool, or it is closed
    again. *)
Theorem OpenDatabase_opaque {C} (host : Host C) url t :
  OpenDatabase host url t ∈
    [ (Err (ErrorString "invalid database configuration"), t);
      (Err (ErrorString "cannot create database pool"), t);
      (Err (ErrorString "database unavailable; check DATABASE_URL and PostgreSQL"),
       t ++ [PoolCreated 10 (5 * Second); PoolPinged (5 * Second); PoolClosed]);
      (Ok tt, t ++ [PoolCreated 10 (5 * Second); PoolPinged (5 * Second)]) ].
Proof.
  rw OpenDatabase_run /opened /OpenDatabase. destruct (h_ParseConfig host url); [|rw app_nil_r; set_solver].
  destruct (h_NewWithConfig host _); [|rw app_nil_r; set_solver].
  destruct (h_Ping host) as [[]|]; cbv [mbind M_bind emit raise mret M_ret]; cbn; set_solver.
Qed.

(** ** Concrete runs *)

Definition exHost (serving : ServeEnd) (ping shutdown stop : result unit) : Host string :=
  MkHost _ (λ url, Ok (MkPoolConfig url 4 0)) (λ _, Ok tt) ping serving shutdown (Ok tt) stop (Ok tt).
Definition exLate : result unit := Err DeadlineExceeded.

(** A graceful stop of the API, one whose requests take too long, an address in
    use, and a database that does not answer. *)
Example apiMain_examples :
  let served := MkHttpServer "127.0.0.1:8080" (5 * Second) (10 * Second) (10 * Second) (60 * Second) 16384 in
  let up := [SignalsCaught; PoolCreated 10 (5 * Second); PoolPinged (5 * Second)] in
  let inUse := ErrorString "listen tcp 127.0.0.1:8080: bind: address already in use" in
  apiMain (exHost Signalled (Ok tt) (Ok tt) (Ok tt)) exGetenv exRiver =
    up ++ [Listening served; SignalsRestored; ServerShutdown (30 * Second) true; PoolClosed; SignalsRestored; Exited 0] ∧
  apiMain (exHost Signalled (Ok tt) exLate (Ok tt)) exGetenv exRiver =
    up ++ [Listening served; SignalsRestored; ServerShutdown (30 * Second) false; ServerClosed; PoolClosed; SignalsRestored;
           ErrorLogged "api stopped" DeadlineExceeded; Exited 1] ∧
  apiMain (exHost (ListenReturned inUse) (Ok tt) (Ok tt) (Ok tt)) exGetenv exRiver =
    up ++ [Listening served; ListenEnded; PoolClosed; SignalsRestored; ErrorLogged "api stopped" inUse; Exited 1] ∧
  apiMain (exHost Signalled exLate (Ok tt) (Ok tt)) exGetenv exRiver =
    up ++ [PoolClosed; SignalsRestored;
           ErrorLogged "api stopped" (ErrorString "database unavailable; check DATABASE_URL and PostgreSQL"); Exited 1].
Proof. vm_compute. by split_and!. Qed.

(** The worker with jobs that end in time, with jobs that have to be cancelled,
    and without a configuration. *)
Example workerMain_examples :
  let up := [SignalsCaught; PoolCreated 10 (5 * Second); PoolPinged (5 * Second); WorkStarted exWorker; SignalsRestored] in
  workerMain (exHost Signalled (Ok tt) (Ok tt) (Ok tt)) exGetenv exRiver =
    up ++ [WorkStopped (30 * Second) true; WorkContextCancelled; PoolClosed; SignalsRestored; Exited 0] ∧
  workerMain (exHost Signalled (Ok tt) (Ok tt) exLate) exGetenv exRiver =
    up ++ [WorkStopped (30 * Second) false; WorkCancelled (5 * Second); WorkContextCancelled; PoolClosed; SignalsRestored;
           Exited 0] ∧
  workerMain (exHost Signalled (Ok tt) (Ok tt) (Ok tt)) (λ _, "") exRiver =
    [ErrorLogged "worker stopped" (ErrorString "DATABASE_URL must be a postgres:// or postgresql:// URL"); Exited 1].
Proof. vm_compute. by split_and!. Qed.

Definition exUp : list event := apiMain (exHost Signalled (Ok tt) (Ok tt) (Ok tt)) exGetenv exRiver.

Lemma serves_what_came_up_witness :
  Listening (httpServer (api_config exApp)) ∈ exUp ∧
  ∃ app, apiRun exGetenv (opened (exHost Signalled (Ok tt) (Ok tt) (Ok tt))) exRiver = Ok app ∧
    httpServer (api_config exApp) = httpServer (api_config app).
Proof.
  assert (Listening (httpServer (api_config exApp)) ∈ exUp) as Hin.
  { apply (list_elem_of_lookup_2 _ 3). vm_compute. reflexivity. }
  exact (conj Hin (proj1 (serves_what_came_up (exHost Signalled (Ok tt) (Ok tt) (Ok tt)) exGetenv exRiver) _ Hin)).
Defined.
