(* ===== verification/Responses.v ===== *)
(** What the answers of the server disclose: an error answer is one of a fixed
    list of texts, whatever the providers, the database or the request said.

    The handlers of all routes and of the mux are gone through once with the rules
    of WebServer.answers. *)
From S2P Require Import Prelude GoStrings Errors Json Http WebServer Models Matcher SpotifyTypes Database Service SpotifyStore SpotifyClient AppleClient AppleConnections SpotifyAuth ImportHttp AppleHttp TransferHttp HealthHttp Api Routes Wiring.
Local Open Scope string_scope.
Local Open Scope list_scope.
Local Open Scope Z_scope.

(** The error texts of the HTTP packages, with their codes. *)
Definition errorTexts : list (Z * string) :=
  [ (400, "Authorization expired or already used"); (400, "Invalid authorization state");
    (400, "Missing authorization code"); (400, "Spotify authorization was not granted");
    (400, "Invalid limit"); (400, "Invalid offset"); (400, "Invalid playlist ID");
    (400, "invalid Apple Music connection"); (400, "user_token and storefront are required");
    (400, "invalid preview request"); (400, "unsupported provider");
    (401, "Connect Spotify first"); (401, "Reconnect Spotify"); (401, "Connect Apple Music first");
    (401, "Connect a music provider first");
    (403, "Origin not allowed"); (403, "Spotify access denied; check app permissions and allowed users");
    (404, "404 page not found"); (405, "Method Not Allowed");
    (429, "Spotify rate limit reached; try again later"); (429, "Too many active imports");
    (429, "Try connecting again later");
    (500, "Could not disconnect Spotify"); (500, "Could not save Spotify connection");
    (500, "Could not load Apple Music connection"); (500, "Could not save Apple Music connection");
    (500, "Could not read import"); (500, "Could not read snapshot");
    (500, "could not enqueue transfer"); (500, "could not load transfer preview"); (500, "could not load transfer run");
    (502, "Apple Music authorization failed"); (502, "Could not list Apple Music playlists");
    (502, "Spotify connection could not be checked"); (502, "could not create transfer preview") ].

(** An error has no body, one of these texts, or the answer of the readiness check; and
    the only header with a value of a provider's is a number of seconds. *)
Definition controlledBody (resp : HttpResponse) : Prop :=
  w_status resp < 400 ∨
  match w_body resp with
  | TextBody text => (w_status resp, text) ∈ errorTexts
  | JsonDocument document => w_status resp = 503 ∧ document = JObject [("status", marshalString "unavailable")]
  | EmptyBody => True
  | LinkBody _ => False
  end.
Definition controlled (resp : HttpResponse) : Prop :=
  controlledBody resp ∧ ∀ v, w_headers resp !! "Retry-After" = Some v → ∃ n, 0 < n ∧ v = Itoa n.

Section controlled.
Implicit Types resp : HttpResponse.

Lemma controlled_header k v resp : k ≠ "Retry-After" → controlled resp → controlled (withHeader k v resp).
Proof.
  intros Hk [Hb Hr]. split; [done|]. intros v'. cbn.
  intros [Hl|[_ Hl%lookup_singleton_Some]]%lookup_union_Some_raw; [by apply Hr|by destruct Hl].
Qed.
Lemma controlled_retry n resp : 0 < n → controlled resp → controlled (withHeader "Retry-After" (Itoa n) resp).
Proof.
  intros Hn [Hb Hr]. split; [done|]. intros v'. cbn.
  intros [Hl|[_ Hl%lookup_singleton_Some]]%lookup_union_Some_raw; [by apply Hr|]. exists n. by destruct Hl.
Qed.
Lemma controlled_cookie c resp : controlled resp → controlled (withCookie c resp).
Proof. done. Qed.
Lemma controlled_Error code text : bool_decide ((code, text) ∈ errorTexts) = true → controlled (http_Error text code).
Proof.
  intros Ht. split; [right; by apply (bool_decide_eq_true_1 _ Ht)|]. intros v. cbn.
  by rw !lookup_insert_ne // lookup_empty.
Qed.
Lemma controlled_JSON code document : code < 400 → controlled (writeJSON code document).
Proof. intros Hc. split; [by left|]. intros v. by rw lookup_singleton_ne. Qed.
Lemma controlled_empty code : code < 400 → controlled (WriteHeader code).
Proof. intros Hc. split; [by left|]. intros v. by rw lookup_empty. Qed.
Lemma controlled_Redirect url code : code < 400 → controlled (Redirect url code).
Proof.
  intros Hc. split; [by left|]. intros v. cbn. by rw !lookup_insert_ne // lookup_empty.
Qed.
End controlled.

Lemma controlled_unavailable : controlled (writeStatus 503 "unavailable").
Proof. split; [by right|]. intros v. cbn. rw lookup_union_l; [by rw lookup_singleton_ne|by rw lookup_singleton_ne]. Qed.

Lemma controlled_NotFound : controlled NotFound.
Proof. by apply controlled_Error, bool_decide_eq_true_2; set_solver. Qed.
Lemma controlled_ready code text : code < 400 → controlled (writeStatus code text).
Proof. intros Hc. by apply controlled_header, controlled_JSON. Qed.

#[local] Ltac fixed_text := apply controlled_Error; vm_compute; reflexivity.

Lemma controlled_failure err : controlled (failure err).
Proof.
  rw /failure. destruct (errors_Is _ _); [fixed_text|]. destruct (errors_As_Spotify err) as [[[status retry] reconnect]|]; [|fixed_text].
  repeat case_match; try fixed_text. apply controlled_retry; [lia|fixed_text].
Qed.

Lemma controlled_wrapped resp : controlled resp → controlled (wrapped resp).
Proof. intros Hr. rw /wrapped. by do 3 (apply controlled_header; [done|]). Qed.

Lemma controlled_pagination defaultLimit max r resp : pagination defaultLimit max r = inl resp → controlled resp.
Proof. rw /pagination. repeat case_match; intros [= <-]; fixed_text. Qed.
Lemma controlled_connectInput r resp : connectInput r = inl resp → controlled resp.
Proof. rw /connectInput. repeat case_match; intros [= <-]; fixed_text. Qed.

(** One step of a handler, down to the response. *)
Ltac controlled_steps := repeat match goal with
  | H : controlled ?resp |- controlled ?resp => exact H
  | |- ∀ _, _ => intro
  | |- answers _ (reply _) => apply answers_reply
  | |- answers _ (mapReply _ _) => apply answers_map
  | |- answers _ (wrap _) => apply (answers_map _ wrapped), (answers_mono _ controlled); [exact controlled_wrapped|]
  | |- answers _ (call _ _) => apply answers_call
  | H : pagination _ _ _ = inl ?resp |- controlled ?resp => by eapply controlled_pagination
  | H : connectInput _ = inl ?resp |- controlled ?resp => by eapply controlled_connectInput
  | |- answers _ (match ?x with _ => _ end) => destruct x eqn:?
  | |- controlled (http_Error _ _) => fixed_text
  | |- controlled (writeJSON _ _) => by apply controlled_JSON
  | |- controlled (WriteHeader _) => by apply controlled_empty
  | |- controlled (Redirect _ _) => by apply controlled_Redirect
  | |- controlled (failure _) => apply controlled_failure
  | |- controlled NotFound => apply controlled_NotFound
  | |- controlled (withHeader _ _ _) => apply controlled_header; [done|]
  | |- controlled (withCookie _ _) => apply controlled_cookie
  | |- controlled (writeTransferJSON _ _) => apply controlled_header; [done|]
  end.

Section routes.
Context `{AEAD, Unicode} {R : Type} (net : Request → M R error Response) (clk : R → Z).
Context (cfg : Enabled) (a : Auth) (token : R → option string) (appleURL origin : string).

Lemma authorize_controlled session flow code r :
  answers controlled (authorize (netDo net) (netClock clk) a session flow code r).
Proof. rw /authorize. controlled_steps. intros s. apply (answers_call _ _ _). controlled_steps. Qed.

Lemma callback_controlled session r : answers controlled (callback (netDo net) (netClock clk) a session r).
Proof.
  rw /callback. destruct (confirmedState r) as [state|]; controlled_steps.
  apply (answers_mono _ controlled); [controlled_steps|].
  intros s. rw /redeem /consume. repeat case_match; try (cbn [fst]; fixed_text).
  apply authorize_controlled.
Qed.

Lemma start_controlled state v1 v2 : answers controlled (start (netClock clk) a (W := world R) state v1 v2).
Proof. intros s. rw /start. destruct (register _ _ _ _) as [[] pending]; cbn [negb fst]; controlled_steps. Qed.

Lemma serve_controlled q r : answers controlled (serve net clk cfg a token appleURL origin q r).
Proof.
  destruct q; cbn [serve]; try apply answers_onWorld; try apply answers_onTransfer;
    try (apply (answers_map _ wrapped), (answers_mono _ controlled); [exact controlled_wrapped|]).
  - apply answers_reply. by apply controlled_ready.
  - rw /readyz. controlled_steps; [by apply controlled_ready|apply controlled_unavailable].
  - apply start_controlled.
  - apply callback_controlled.
  - rw /connection. controlled_steps.
  - rw /disconnect. controlled_steps.
  - rw /listPlaylists /withSession /withPagination. controlled_steps.
  - rw /requestImport /withSession. controlled_steps.
  - rw /getImport /withSession. controlled_steps.
  - rw /getSnapshot /withSession /withPagination. controlled_steps.
  - rw /connectApple. controlled_steps. intros w0. apply answers_call. controlled_steps.
  - rw /listApplePlaylists. controlled_steps.
  - rw /disconnectApple. controlled_steps.
  - rw /createPreview /sessionHashFromRequest. controlled_steps.
  - rw /getPreview /sessionHashFromRequest. controlled_steps.
  - rw /startRun /sessionHashFromRequest. controlled_steps.
  - rw /getRun /sessionHashFromRequest. controlled_steps.
Qed.
End routes.

(** C29: errors disclose nothing: whatever the request, its path and method, the
    state, the providers' answers and the failures of the database, the server's
    answer, unless it is the redirect to a clean path, is controlled: with a
    status of 400 or more its body is empty, one of the fixed texts for this
    status, or the fixed document of the readiness check, and a Retry-After is a
    number of seconds.  No text of a provider, of pgx or of a credential gets into
    it. *)
Theorem error_answers_controlled `{AEAD, Unicode} {R} (net : Request → M R error Response) clk cfg spotify token appleURL origin
    redirect method path d r (s : server (world R)) :
  dispatch cfg method path = Redirected ∨
  controlled (serveHTTP (mux net clk cfg spotify token appleURL origin) redirect cfg method path d r s).1.
Proof.
  assert (∀ resp, controlled resp → controlled (if bool_decide (method = "HEAD")
    then MkHttpResponse (w_status resp) (w_headers resp) (w_cookies resp) EmptyBody else resp)) as Hhead.
  { intros resp [Hb Hr]. case_bool_decide; [|done]. split; [by right|done]. }
  rw /serveHTTP /mapReply. destruct (dispatch cfg method path) as [|e id|allow|]; [by left|right..].
  - rw /mux. destruct (registered cfg (routeOf d e)); [|apply Hhead, controlled_NotFound].
    pose proof (serve_controlled net clk cfg spotify token appleURL origin (routeOf d e) (withPathValue r id) s) as H1.
    destruct (serve _ _ _ _ _ _ _ _ _ s). by apply Hhead.
  - apply Hhead, controlled_header; [done|fixed_text].
  - apply Hhead, controlled_NotFound.
Qed.

(** An import whose answer from Spotify is an error with a long body. *)
Example exError :
  controlledBody (failure (SpotifyProviderError 500 0 false)) ∧
  (w_status (failure (SpotifyProviderError 429 7 false)), w_headers (failure (SpotifyProviderError 429 7 false)) !! "Retry-After")
    = (429, Some "7").
Proof. split; [right; vm_compute; set_solver|vm_compute; reflexivity]. Qed.
