(* ===== verification/Invariants.v ===== *)
(** Invariants of the whole program.

    A property of the database that the statements of every component keep is
    kept by every request, every job and every step of the queue, and so holds
    in every state that the program reaches.  What a property has to be closed
    under is an interface, [program_keeps]; the components' operations are
    proved once against it, and each invariant of the program (Sessions.v,
    Consistency.v) is an instance. *)
From S2P Require Import Prelude GoStrings Errors Json Http WebServer Models Matcher SpotifyTypes Database TransferStore Service Worker SpotifyStore SpotifyClient Imports AppleClient AppleConnections Providers SpotifyAuth ImportHttp AppleHttp TransferHttp HealthHttp Admin Api.
Local Open Scope string_scope.
Local Open Scope list_scope.
Local Open Scope Z_scope.

(** ** The interface *)

(** On whose behalf the program acts: for which sessions, and on which of the
    previews, imports and runs. *)
Record scope : Type := MkScope {
  acts : string → Prop;
  acts_preview : string → Prop;
  acts_import : string → Prop;
  acts_run : string → Prop;
}.
Definition everyone : scope := MkScope (λ _, True) (λ _, True) (λ _, True) (λ _, True).

(** What the worker writes into the row of a run: that it is completed, or that
    it has failed for one of the reasons that no retry mends. *)
Definition failureCodes : list string :=
  ["destination_provider_unavailable"; "destination_playlist_create_unsupported"; "destination_reconciliation_unsupported"].
Definition run_outcome (state code : string) : Prop :=
  (state = "completed" ∧ code = "") ∨ (state = "failed" ∧ code ∈ failureCodes).

(** Closed under the statements of the transfer store at time [T], in the scope
    [X]: the preview that is written and the session of a run stay in it. *)
Record transfers_keep (X : scope) (T : Z) (P : DB → Prop) : Prop := {
  keeps_upsertPreview id row d a d' :
    acts X (prev_session_hash row) → P d → upsertPreview id row T d = Ok (a, d') → P d' ∧ acts_preview X a.1.1;
  keeps_upsertPreviewEntry id e d d' : acts_preview X id → P d → upsertPreviewEntry id e T d = Ok d' → P d';
  keeps_enqueued freshID hash id d d' st : acts X hash → P d → enqueued freshID hash id T d d' st → P d';
  keeps_setRunState runID state code playlistID next d :
    acts_run X runID → run_outcome state code → P d → P (set_runs (alter (setRunState state code playlistID next T) runID) d);
  keeps_runOwner runID d run preview :
    acts_run X runID → P d → selectRunForUpdate runID T d = Some (run, preview) → acts X (prev_session_hash preview);
}.

(** Closed under everything that the program does to the database at time [T]
    in the scope [X], where connections are only added for the sessions [S] of
    Spotify and [A] of Apple Music, and only those in scope and expired ones are
    deleted. *)
Record program_keeps `{AEAD} (X : scope) (T : Z) (S A : gset string) (P : DB → Prop) : Prop := {
  keeps_restored hash conn now d : acts X hash → P d → P (restored hash conn now d);
  keeps_deleteConnections doomed d :
    (∀ h row, doomed h row = true → acts X h ∨ conn_expires_at row ≤ T) → P d → P (deleteConnections doomed d);
  keeps_insertConnection hash conn expires d d' :
    hash ∈ S → P d → insertConnection hash (seal hash conn) expires T d = Ok d' → P d';
  keeps_deleteAppleConnections doomed d :
    (∀ h row, doomed h row = true → acts X h ∨ conn_expires_at row ≤ T) → P d → P (deleteAppleConnections doomed d);
  keeps_insertAppleConnection hash conn expires d d' :
    hash ∈ A → P d → insertAppleConnection hash (appleSeal hash conn) expires T d = Ok d' → P d';
  keeps_enqueuedImport freshID hash id d d' importID :
    acts X hash → P d → enqueuedImport freshID hash id T d d' importID → P d';
  keeps_published id playlist os d d' : acts_import X id → P d → published id playlist (snapshotOf os) T d = Ok d' → P d';
  keeps_setErrorCode id code d d' : acts_import X id → code ∈ importCodes → P d → setErrorCode id code T d = Ok d' → P d';
  keeps_importOwner id row d : acts_import X id → P d → spotify_imports d !! id = Some row → acts X (imp_session_hash row);
  keeps_transfers : transfers_keep X T P;
  keeps_mergeDB t p : P t → P p → dom (spotify_connections t) = dom (spotify_connections p) → P (mergeDB t p);
  keeps_river d d' : P d → riverStep d d' → P d';
  keeps_probe d : P d → P (insert_job probeKind "" 5 d).2;
}.

(** Splits a computation into its steps, and leaves those that no hint knows. *)
Ltac keeps_steps := repeat match goal with
  | |- ∀ _, _ => intro
  | |- keeps _ (mbind _ _) => apply keeps_bind
  | |- keeps _ (match ?x with _ => _ end) => destruct x
  | |- keeps _ _ => solve [eauto with keeps]
  | |- keeps _ (try _) => apply keeps_try
  end.

(** A provider whose operations keep [J] where they act for a session in scope. *)
Record provider_keeps {W} (X : scope) (J : W → Prop) (p : Provider W) : Prop := {
  keeps_ListPlaylists hash offset limit : acts X hash → keeps J (ListPlaylists p hash offset limit);
  keeps_ReadPlaylistEntries hash id offset limit : acts X hash → keeps J (ReadPlaylistEntries p hash id offset limit);
  keeps_SearchTracks hash query limit : acts X hash → keeps J (Models.SearchTracks p hash query limit);
  keeps_CreatePlaylist hash input : acts X hash → keeps J (Models.CreatePlaylist p hash input);
  keeps_AddTracks hash id ids : acts X hash → keeps J (Models.AddTracksToPlaylist p hash id ids);
}.

(** ** Transfers *)

(** What the statements of the transfer store and the operations of the
    providers keep, the operations of the service and the worker keep. *)
Section transfers.
Context `{Unicode} {W : Type} (X : scope) (T : Z) (P : DB → Prop) (J : W → Prop) (s : Service W).
Context (Htr : transfers_keep X T P).
Context (Hproviders : ∀ name p, providers s !! name = Some p → provider_keeps X J p).
Implicit Types (p : Provider W).

#[local] Hint Resolve keeps_ListPlaylists keeps_ReadPlaylistEntries keeps_SearchTracks keeps_CreatePlaylist keeps_AddTracks : keeps.

Lemma between_matchEntries p hash dest cache sources :
  provider_keeps X J p → acts X hash → keeps (between T P J) (matchEntries p hash dest cache sources).
Proof.
  intros Hp Hh. revert cache. induction sources as [|e todo IH]; intros cache; cbn [matchEntries]; [auto with keeps|].
  rw /searchAndMatch. keeps_steps.
Qed.

Lemma during_sendBatch id entries : acts_preview X id → keeps (during T P J) (sendBatch id entries).
Proof.
  intros Hid. induction entries as [|e entries IH]; cbn [sendBatch]; keeps_steps.
  apply during_tx_exec. intros d d'. by apply (keeps_upsertPreviewEntry _ _ _ Htr).
Qed.

Lemma between_SavePreview id clock hash snapshot dest source entries :
  acts X hash → keeps (between T P J) (SavePreview id clock hash snapshot dest source entries).
Proof.
  intros Hh. rw /SavePreview. cbv zeta. apply between_with_tx.
  eapply yields_keeps_bind; [eapply (yields_tx_stmt _ _ _ (λ a : string * string * Z, acts_preview X a.1.1))|].
  - intros d a d'. by apply (keeps_upsertPreview _ _ _ Htr).
  - intros [[id' state] createdAt] Hid. apply keeps_bind; [by apply during_sendBatch|keeps_steps].
Qed.
#[local] Hint Resolve between_matchEntries between_SavePreview : keeps.

Lemma between_CreatePreview id clock hash source snapshot dest :
  acts X hash → keeps (between T P J) (CreatePreview s id clock hash source snapshot dest).
Proof.
  intros Hh. rw /CreatePreview. destruct (bool_decide _); [auto with keeps|].
  destruct (providers s !! dest) as [p|] eqn:Hp; [|auto with keeps]. apply Hproviders in Hp.
  apply keeps_bind; [rw /LoadSpotifySnapshot; apply between_with_tx; cbv zeta; keeps_steps|].
  intros [source' entries]. keeps_steps.
Qed.

Lemma between_Preview hash id offset limit : keeps (between T P J) (Preview hash id offset limit).
Proof. rw /Preview /LoadPreview. keeps_steps. Qed.
Lemma between_RunStatus hash id : keeps (between T P J) (RunStatus hash id).
Proof. rw /RunStatus /LoadRunStatus. keeps_steps. Qed.
Lemma between_EnqueueRun freshID hash id : acts X hash → keeps (between T P J) (EnqueueRun freshID hash id).
Proof.
  intros Hh [D tx fs now r] (Htx & HD & HJ & HT). cbn in Htx, HD, HT. subst tx now.
  apply (wp_EnqueueRun freshID hash id D fs T r (λ _ w, between T P J w)).
  - intros fs' st D' He. split_and!; [done|by eapply (keeps_enqueued _ _ _ Htr)|done..].
  - intros fs' e D' [->|[st He]]; split_and!; try done. by eapply (keeps_enqueued _ _ _ Htr).
Qed.

(** The updates of the run [runID]. *)
Section run.
Context (runID : string) (Hrun : acts_run X runID).

Lemma during_updateRunState state code playlistID next :
  run_outcome state code → keeps (during T P J) (updateRunState runID state code playlistID next).
Proof.
  intros Ho. rw /updateRunState. keeps_steps. apply during_tx_exec. intros d d' Hd [= <-]. by apply (keeps_setRunState _ _ _ Htr).
Qed.
#[local] Hint Resolve during_updateRunState : keeps.

Lemma during_failRun {A} code playlistID next : code ∈ failureCodes → keeps (A := A) (during T P J) (failRun runID code playlistID next).
Proof.
  intros Hc. rw /failRun. apply keeps_bind; [|keeps_steps]. apply keeps_ignore, during_updateRunState. by right.
Qed.
#[local] Hint Resolve during_failRun : keeps.
#[local] Hint Extern 1 (run_outcome "completed" "") => by left : keeps.
#[local] Hint Extern 1 (_ ∈ failureCodes) => (rw /failureCodes; set_solver +) : keeps.

Lemma during_findPlaylist p hash name offset budget :
  provider_keeps X J p → acts X hash → keeps (during T P J) (findPlaylistFrom p hash name offset budget).
Proof.
  intros Hp Hh. revert offset. induction budget as [|budget IH]; intros offset; cbn [findPlaylistFrom]; keeps_steps.
Qed.
Lemma during_ensureEntryState p hash id position trackID :
  provider_keeps X J p → acts X hash → keeps (during T P J) (ensureEntryState p hash id position trackID).
Proof. intros Hp Hh. rw /ensureEntryState. keeps_steps. Qed.
#[local] Hint Resolve during_findPlaylist during_ensureEntryState : keeps.

Lemma during_reconcile p hash id next todo :
  provider_keeps X J p → acts X hash → keeps (during T P J) (reconcile p hash runID id next todo).
Proof. intros Hp Hh. revert next. induction todo as [|t todo IH]; intros next; cbn [reconcile]; keeps_steps. Qed.

Lemma during_obtainPlaylist p budget hash status preview :
  provider_keeps X J p → acts X hash → keeps (during T P J) (obtainPlaylist p budget hash runID status preview).
Proof. intros Hp Hh. rw /obtainPlaylist /findPlaylistByName. cbv zeta. keeps_steps. Qed.
#[local] Hint Resolve during_reconcile during_obtainPlaylist : keeps.

Lemma during_loadRunForUpdate : yields (during T P J) (λ loaded, acts X loaded.2) (loadRunForUpdate runID).
Proof.
  rw /loadRunForUpdate. eapply yields_bind.
  { apply (yields_tx_query _ _ _ (λ r : option (RunRow * PreviewRow),
      match r with Some (_, preview) => acts X (prev_session_hash preview) | None => True end)).
    intros d Hd. destruct (selectRunForUpdate runID T d) as [[run preview]|] eqn:Hsel; [|done].
    by apply (keeps_runOwner _ _ _ Htr runID d run). }
  intros [[run preview]|] Hacts; [|by intros w Hw]. rw /loadPreviewEntriesTx.
  do 2 (apply (yields_bind _ (λ _, True)); [apply keeps_yields; keeps_steps|intros ? _]).
  by apply yields_ret.
Qed.

Lemma between_runOnce budget : keeps (between T P J) (runOnce s budget runID).
Proof.
  rw /runOnce. apply between_with_tx. eapply yields_keeps_bind; [apply during_loadRunForUpdate|].
  intros [[status preview] hash] Hh. destruct (bool_decide _); [auto with keeps|].
  destruct (providers s !! _) as [p|] eqn:Hp; [|auto with keeps]. apply Hproviders in Hp. cbv zeta. keeps_steps.
Qed.

Lemma between_Work budget o : between T P J o → between T P J (Work s budget runID o).2.
Proof. intros Ho%(between_runOnce budget). rw /Work. by destruct (runOnce s budget runID o) as [[]]. Qed.
End run.
End transfers.

(** ** The requests to the providers *)

(** Requests change the world outside only; a connection is updated where its
    tokens were refreshed. *)
Section requests.
Context `{AEAD} {R : Type} (net : Request → M R error Response) (clk : R → Z) (spotify : Auth).
Context (token : R → option string) (appleURL : string) (X : scope) (T : Z) (P : DB → Prop).
Context (Hrestored : ∀ hash conn now D, acts X hash → P D → P (restored hash conn now D)).
Abbreviation I := (between (R := R) T P (λ _, True)).
Abbreviation c := (Auth_client spotify).

Lemma idle_remote {B} (m : M R error B) : keeps I (remote m).
Proof. by apply between_remote. Qed.
Lemma idle_is_remote {B} (m : M (world R) error B) m' : is_remote m m' → keeps I m.
Proof. intros Hm w. rw Hm. apply idle_remote. Qed.
Lemma idle_Now : keeps I (Now (netClock clk)).
Proof. by intros w Hw. Qed.
#[local] Hint Resolve idle_remote idle_Now : keeps.

Lemma idle_requestWithStatus {B} req (zero : B) destination accepted :
  keeps I (requestWithStatus (netDo net) req zero destination accepted).
Proof. eapply idle_is_remote, is_remote_requestWithStatus. Qed.
#[local] Hint Resolve idle_requestWithStatus : keeps.

Lemma idle_Exchange code verifier : keeps I (Exchange (netDo net) (netClock clk) c code verifier).
Proof. rw /Exchange /SpotifyClient.token /request. keeps_steps. Qed.
Lemma idle_fetchProfile t : keeps I (fetchProfile (netDo net) c t).
Proof. eapply idle_is_remote, is_remote_fetchProfile. Qed.

Lemma idle_withConnectionChanged {B} effect hash (call : Connection → M (world R) error B) call' :
  acts X hash → (∀ conn, is_remote (call conn) (call' conn)) →
  keeps I (withConnectionChanged (netDo net) (netClock clk) c effect hash call).
Proof. intros Hh Hcall. by eapply keeps_withConnectionChanged; [intros; apply Hrestored|]. Qed.

Lemma idle_withRequest {B} hash (req : Connection → Request) (zero : B) destination accepted :
  acts X hash → keeps I (withConnection (netDo net) (netClock clk) c hash (λ conn, requestWithStatus (netDo net) (req conn) zero destination accepted)).
Proof. intros Hh. by apply keeps_withRequest; intros; apply Hrestored. Qed.

Lemma idle_playlistGET {B} hash path q (zero : B) decode :
  acts X hash → keeps I (playlistGET (netDo net) (netClock clk) c hash path q zero decode).
Proof. apply idle_withRequest. Qed.
#[local] Hint Resolve idle_playlistGET idle_withRequest : keeps.

Lemma idle_Playlists hash offset limit : acts X hash → keeps I (Playlists (netDo net) (netClock clk) c hash offset limit).
Proof. rw /Playlists. keeps_steps. Qed.
Lemma idle_readSnapshot hash id : acts X hash → keeps I (ReadSnapshot (netDo net) (netClock clk) c hash id).
Proof. apply (idle_ReadSnapshot net clk c (acts X)). auto. Qed.
Lemma idle_SearchTracks hash query limit : acts X hash → keeps I (SpotifyClient.SearchTracks (netDo net) (netClock clk) c hash query limit).
Proof. rw /SpotifyClient.SearchTracks. keeps_steps. Qed.
Lemma idle_CreatePlaylist hash name description :
  acts X hash → keeps I (SpotifyClient.CreatePlaylist (netDo net) (netClock clk) c hash name description).
Proof. rw /SpotifyClient.CreatePlaylist. keeps_steps. Qed.
Lemma idle_AddTracks hash id ids :
  acts X hash → keeps I (SpotifyClient.AddTracksToPlaylist (netDo net) (netClock clk) c hash id ids).
Proof. rw /SpotifyClient.AddTracksToPlaylist. keeps_steps. Qed.

Lemma idle_requestMethod {B} method userToken path query body (zero : B) destination accepted :
  keeps I (requestMethod (netDo net) (appleToken token) appleURL method userToken path query body zero destination accepted).
Proof.
  intros w. rw /requestMethod. destruct (appleToken token w); [|done]. revert w.
  match goal with |- ∀ w, _ → idle T P (?m w).2 => change (keeps I m) end. rw /netDo. keeps_steps.
Qed.
#[local] Hint Resolve idle_requestMethod : keeps.

Lemma idle_ApplePlaylists userToken storefront offset limit :
  keeps I (ApplePlaylists (netDo net) (appleToken token) appleURL userToken storefront offset limit).
Proof. rw /ApplePlaylists /appleRequest. keeps_steps. Qed.

Lemma idle_AppleLoad hash : keeps I (AppleLoad hash).
Proof. rw /AppleLoad. keeps_steps. Qed.
#[local] Hint Resolve idle_Playlists idle_readSnapshot idle_SearchTracks idle_CreatePlaylist idle_AddTracks
  idle_ApplePlaylists idle_AppleLoad : keeps.

(** *** The adapters *)

Lemma keeps_mapErr {W B} (K : W → Prop) f (m : M W error B) : keeps K m → keeps K (mapErr f m).
Proof. intros Hm w Hw%Hm. rw /mapErr. by destruct (m w) as [[]]. Qed.

Lemma keeps_addBatches {W} (K : W → Prop) add bs : (∀ b, keeps K (add b)) → keeps K (addBatches add bs).
Proof. intros Hadd. induction bs as [|b bs IH]; cbn [addBatches]; keeps_steps. Qed.

#[local] Hint Resolve keeps_mapErr keeps_addBatches : keeps.

Lemma spotifyProvider_keeps : provider_keeps X I (spotifyProvider net clk spotify).
Proof.
  split; intros; cbn -[Playlists ReadSnapshot SpotifyClient.SearchTracks SpotifyClient.CreatePlaylist].
  - rw /Spotify_ListPlaylists. keeps_steps.
  - rw /Spotify_ReadPlaylistEntries. cbv zeta. keeps_steps.
  - rw /Spotify_SearchTracks. cbv zeta. keeps_steps.
  - rw /Spotify_CreatePlaylist. keeps_steps.
  - rw /Spotify_AddTracksToPlaylist. apply keeps_mapErr, keeps_addBatches. intros b. by apply idle_AddTracks.
Qed.

Lemma idle_withAccount {B} hash (use : AppleConnection → M (world R) error B) :
  (∀ conn, keeps I (use conn)) → keeps I (withAccount hash use).
Proof. intros Huse. apply keeps_mapErr. cbn [apple_Load ApplePostgresStore]. keeps_steps. Qed.

Lemma appleProvider_keeps : provider_keeps X I (appleProvider net token appleURL).
Proof.
  split; intros; cbn -[withAccount].
  - apply idle_withAccount. intros conn. keeps_steps.
  - apply idle_withAccount. intros conn. rw /PlaylistSongs /appleRequest. keeps_steps.
  - apply idle_withAccount. intros conn. rw /SearchSongs /appleRequest. cbv zeta. keeps_steps.
  - apply idle_withAccount. intros conn. rw /AppleCreatePlaylist. cbv zeta. keeps_steps.
  - apply idle_withAccount. intros conn. apply keeps_addBatches. intros b. rw /AppleAddTracks. cbv zeta. keeps_steps.
Qed.
End requests.

(** ** The handlers *)

(** As [keeps_steps], for handlers. *)
Ltac preserves_steps := repeat match goal with
  | |- ∀ _, _ => intro
  | |- preserves _ (reply _) => apply preserves_reply
  | |- preserves _ (mapReply _ _) => apply preserves_map
  | |- preserves _ (wrap _) => apply preserves_map
  | |- preserves _ (call _ _) => apply preserves_call
  | |- preserves _ (match ?x with _ => _ end) => destruct x
  | |- keeps _ _ => solve [eauto with keeps]
  end.

(** Transfers leave the set of connected sessions alone. *)
Definition withSessions (P : DB → Prop) (C : gset string) (d : DB) : Prop := P d ∧ dom (spotify_connections d) = C.

Lemma withSessions_transfers X T P C : transfers_keep X T P → transfers_keep X T (withSessions P C).
Proof.
  intros [H1 H2 H3 H4 H5]. split.
  - intros id row d a d' Hh [Hd HC] Hu. destruct (H1 _ _ _ _ _ Hh Hd Hu) as [Hd' Hid]. split; [|done]. split; [done|].
    rw /upsertPreview in Hu. repeat case_match; naive_solver.
  - intros id e d d' Hid [Hd HC] Hu. split; [by eapply H2|].
    rw /upsertPreviewEntry in Hu. repeat case_match; naive_solver.
  - intros freshID hash id d d' st Hh [Hd HC] He. split; [by eapply H3|].
    destruct He as [_ He]. destruct (selectRunOfPreview _ _ _ _) as [[]|]; [by destruct He as [-> _]|].
    by apply insertRun_inv in He as (_ & -> & _).
  - intros runID st code pl next d Hr Ho [Hd HC]. split; [by apply H4|done].
  - intros runID d run preview Hr [Hd _]. by apply H5.
Qed.

Lemma withSessions_restored `{AEAD} (X : scope) (P : DB → Prop) C :
  (∀ hash conn now D, acts X hash → P D → P (restored hash conn now D)) →
  ∀ hash conn now D, acts X hash → withSessions P C D → withSessions P C (restored hash conn now D).
Proof. intros Hres hash conn now D Hh [HD HC]. split; [by apply Hres|]. by rw /restored /= dom_alter_L. Qed.

Section handlers.
Context `{AEAD, Unicode} {R : Type} (net : Request → M R error Response) (clk : R → Z).
Context (cfg : Enabled) (spotify : Auth) (token : R → option string) (appleURL origin : string).

Lemma transferService_keeps X T P name p :
  (∀ hash conn now D, acts X hash → P D → P (restored hash conn now D)) →
  providers (transferService net clk cfg spotify token appleURL) !! name = Some p → provider_keeps X (idle T P) p.
Proof.
  intros Hres [Hp _]%NewService_provider. rw /transferProviders in Hp.
  destruct (spotify_enabled cfg), (apple_enabled cfg); cbn in Hp; repeat apply elem_of_cons in Hp as [->|Hp];
    try by apply elem_of_nil in Hp.
  all: first [by apply spotifyProvider_keeps|by apply appleProvider_keeps].
Qed.

Context (X : scope) (T : Z) (S A : gset string) (P : DB → Prop) (Hprog : program_keeps X T S A P).
Abbreviation I := (between (R := R) T P (λ _, True)).

Definition safe (s : server (world R)) : Prop := I (s_rest s).

Lemma preserves_onWorld h : preserves I h → preserves safe (onWorld h).
Proof. intros Hh s Hs%Hh. rw /onWorld. by destruct (h (s_rest s)). Qed.

Lemma keeps_onRest {B} (m : M (world R) error B) : keeps I m → keeps safe (onRest m).
Proof. intros Hm s Hs%Hm. rw /onRest. by destruct (m (s_rest s)). Qed.

(** The state of a transfer that started with the sessions [C]. *)
Abbreviation transferring C :=
  (between T (withSessions P C) (between (R := R) T (withSessions P C) (λ _, True))).

Lemma transferring_merged C o : transferring C o → I (merged o).
Proof.
  intros (_ & [Ht HCt] & (_ & [Hp HCp] & _ & HT) & _). split_and!; [done| |done..].
  apply (keeps_mergeDB _ _ _ _ _ Hprog); [done..|]. by rw HCt HCp.
Qed.

Lemma transferring_start fs w : I w → transferring (dom (spotify_connections (w_db w))) (transferWorld fs w).
Proof. intros (Htx & HP & _ & HT). by split_and!. Qed.

Lemma preserves_onTransfer fs h : (∀ C, preserves (transferring C) h) → preserves I (onTransfer fs h).
Proof.
  intros Hh w Hw%(transferring_start fs). apply Hh in Hw. rw /onTransfer.
  destruct (h (transferWorld fs w)). by eapply transferring_merged.
Qed.

Lemma idle_Save hash oldHash conn expires : hash ∈ S → acts X oldHash → keeps I (Save hash oldHash conn expires).
Proof.
  intros Hh Hold. rw /Save. apply between_with_tx. keeps_steps; apply during_tx_exec.
  - intros d d' Hd [= <-]. apply (keeps_deleteConnections _ _ _ _ _ Hprog); [|done].
    intros h row [->%bool_decide_eq_true|?%Z.leb_le]%orb_true_iff; auto.
  - intros d d'. by apply (keeps_insertConnection _ _ _ _ _ Hprog).
Qed.
Lemma idle_Delete hash : acts X hash → keeps I (Delete hash).
Proof.
  intros Hh. apply between_pool_exec. intros d d' Hd [= <-]. apply (keeps_deleteConnections _ _ _ _ _ Hprog); [|done].
  intros h row ->%bool_decide_eq_true. auto.
Qed.
Lemma idle_AppleSave hash old conn expires : hash ∈ A → acts X old → keeps I (AppleSave hash old conn expires).
Proof.
  intros Hh Hold. rw /AppleSave. apply between_with_tx. keeps_steps; apply during_tx_exec.
  - intros d d' Hd [= <-]. apply (keeps_deleteAppleConnections _ _ _ _ _ Hprog); [|done].
    intros h row [->%bool_decide_eq_true|?%Z.leb_le]%orb_true_iff; auto.
  - intros d d'. by apply (keeps_insertAppleConnection _ _ _ _ _ Hprog).
Qed.
Lemma idle_AppleDelete hash : acts X hash → keeps I (AppleDelete hash).
Proof.
  intros Hh. apply between_pool_exec. intros d d' Hd [= <-]. apply (keeps_deleteAppleConnections _ _ _ _ _ Hprog); [|done].
  intros h row ->%bool_decide_eq_true. auto.
Qed.

Lemma idle_Enqueue freshID hash playlistID : acts X hash → keeps I (Enqueue freshID hash playlistID).
Proof.
  intros Hh [D tx fs now r] (Htx & HD & _ & HT). cbn in Htx, HD, HT. subst tx now.
  apply (wp_Enqueue freshID hash playlistID D fs T r (λ _ w, I w)).
  - intros fs' id D' He. split_and!; [done|by eapply (keeps_enqueuedImport _ _ _ _ _ Hprog)|done..].
  - intros fs' e D' [->|[id He]]; split_and!; try done. by eapply (keeps_enqueuedImport _ _ _ _ _ Hprog).
Qed.
Lemma idle_Status hash id : keeps I (Status hash id).
Proof. rw /Status. keeps_steps. Qed.
Lemma idle_ReadPage hash id offset limit : keeps I (ReadPage hash id offset limit).
Proof. rw /ReadPage. apply between_with_tx. cbv zeta. keeps_steps. Qed.

Lemma restored_prog hash conn now D : acts X hash → P D → P (restored hash conn now D).
Proof. apply (keeps_restored _ _ _ _ _ Hprog). Qed.

#[local] Hint Resolve restored_prog keeps_onRest idle_Delete idle_AppleDelete idle_Enqueue idle_Status idle_ReadPage
  idle_Exchange idle_fetchProfile idle_Playlists idle_ApplePlaylists idle_AppleLoad : keeps.
#[local] Hint Resolve between_Preview between_RunStatus : keeps.

(** A request [r] whose session is in scope. *)
Section request.
Context (r : HttpRequest) (Hr : acts X (requestHash r)).

Lemma acts_session hash : requestSession r = Some hash → acts X hash.
Proof. by intros ->%requestSession_hash. Qed.
Lemma acts_cookie value : r_Cookie r sessionCookie = Some value → acts X (sessionHash value).
Proof. intros Hc. pose proof Hr as Ha. by rw /requestHash Hc in Ha. Qed.
#[local] Hint Resolve acts_session acts_cookie : keeps.

Lemma preserves_withSession {W} (K : W → Prop) next :
  (∀ hash, acts X hash → preserves K (next hash)) → preserves K (withSession r next).
Proof.
  intros Hn. rw /withSession. destruct (requestSession r) as [hash|] eqn:E; [by apply Hn, acts_session|apply preserves_reply].
Qed.
Lemma preserves_sessionHashFromRequest {W} (K : W → Prop) next :
  (∀ hash, acts X hash → preserves K (next hash)) → preserves K (sessionHashFromRequest r next).
Proof.
  intros Hn. rw /sessionHashFromRequest.
  destruct (requestSession r) as [hash|] eqn:E; [by apply Hn, acts_session|apply preserves_reply].
Qed.

Lemma preserves_start state v1 v2 : preserves safe (start (netClock clk) spotify state v1 v2).
Proof. intros s Hs. rw /start. destruct (register _ _ _ _) as [[] pending]; exact Hs. Qed.

Lemma preserves_authorize session flow code :
  sessionHash session ∈ S → preserves safe (authorize (netDo net) (netClock clk) spotify session flow code r).
Proof.
  intros Hin. rw /authorize. preserves_steps. intros s Hs.
  apply preserves_call; [by apply keeps_onRest, idle_Save|preserves_steps|exact Hs].
Qed.

Lemma preserves_callback session :
  sessionHash session ∈ S → preserves safe (callback (netDo net) (netClock clk) spotify session r).
Proof.
  intros Hin. rw /callback. destruct (confirmedState r) as [state|]; [|apply preserves_reply].
  apply preserves_map. intros s Hs. rw /redeem /consume.
  repeat case_match; try exact Hs. by apply preserves_authorize.
Qed.

Lemma preserves_connection : preserves safe (connection (netDo net) (netClock clk) spotify r).
Proof.
  rw /connection. destruct (requestSession r) as [hash|] eqn:Hs; [|apply preserves_reply].
  apply preserves_call; [|preserves_steps]. apply keeps_onRest.
  eapply (idle_withConnectionChanged _ _ _ X _ _ restored_prog) with (call' := λ conn,
    p ← fetchProfile net (Auth_client spotify) (Tokens_AccessToken (Connection_Tokens conn));
    if bool_decide (Profile_AccountID p ≠ Profile_AccountID (Connection_Profile conn))
    then raise (ErrorString "Spotify account identity changed") else mret p); [by apply acts_session|].
  intros conn. apply is_remote_bind; [apply is_remote_fetchProfile|]. intros p.
  destruct (bool_decide _); [apply is_remote_raise|apply is_remote_ret].
Qed.

Lemma preserves_disconnect : preserves safe (disconnect (W := world R) spotify r).
Proof.
  rw /disconnect. cbn [store_Delete PostgresStore]. destruct (bool_decide _); [apply preserves_reply|]. cbv zeta.
  destruct (r_Cookie r sessionCookie) as [value|] eqn:Hc; preserves_steps.
Qed.

Lemma preserves_connectApple session :
  sessionHash session ∈ A →
  preserves I (connectApple (netDo net) (netClock clk) (appleToken token) appleURL origin session r).
Proof.
  intros Hin. rw /connectApple. preserves_steps. intros w Hw.
  apply preserves_call; [| |exact Hw]; [by apply idle_AppleSave|preserves_steps].
Qed.

Lemma preserves_disconnectApple : preserves I (disconnectApple (W := world R) origin r).
Proof.
  rw /disconnectApple. cbn [apple_Delete ApplePostgresStore]. destruct (bool_decide _); [apply preserves_reply|]. cbv zeta.
  destruct (r_Cookie r "music_session") as [value|] eqn:Hc; preserves_steps.
Qed.

Lemma preserves_createPreview C id clock :
  preserves (transferring C) (createPreview (transferService net clk cfg spotify token appleURL) origin id clock r).
Proof.
  rw /createPreview. destruct (bool_decide _); [apply preserves_reply|].
  apply preserves_sessionHashFromRequest. intros hash Hh. preserves_steps. apply (between_CreatePreview X); [| |done].
  - apply withSessions_transfers, (keeps_transfers _ _ _ _ _ Hprog).
  - intros name p. apply transferService_keeps, withSessions_restored, restored_prog.
Qed.

Lemma preserves_startRun C freshID : preserves (transferring C) (startRun (R := world R) origin freshID r).
Proof.
  rw /startRun. destruct (bool_decide _); [apply preserves_reply|].
  apply preserves_sessionHashFromRequest. intros hash Hh. preserves_steps. apply (between_EnqueueRun X); [|done].
  apply withSessions_transfers, (keeps_transfers _ _ _ _ _ Hprog).
Qed.

(** Every route keeps [P] where the sessions that it may issue are allowed. *)
Lemma preserves_serve q :
  spotifySession q ⊆ S → appleSession q ⊆ A →
  preserves safe (serve net clk cfg spotify token appleURL origin q r).
Proof.
  intros HS HA. destruct q; cbn [serve spotifySession appleSession] in *;
    try apply preserves_onWorld; try (apply preserves_onTransfer; intros C); try apply preserves_map.
  - rw /healthz. preserves_steps.
  - rw /readyz /ready. preserves_steps. keeps_steps.
  - apply preserves_start.
  - apply preserves_callback. set_solver.
  - apply preserves_connection.
  - apply preserves_disconnect.
  - apply preserves_withSession. intros hash Hh. rw /withPagination. preserves_steps.
  - rw /requestImport. preserves_steps. apply preserves_withSession. intros hash Hh. preserves_steps.
  - apply preserves_withSession. preserves_steps.
  - apply preserves_withSession. intros hash Hh. rw /withPagination. preserves_steps.
  - apply preserves_connectApple. set_solver.
  - rw /listApplePlaylists. cbn [apple_Load ApplePostgresStore]. preserves_steps.
  - apply preserves_disconnectApple.
  - apply preserves_createPreview.
  - rw /getPreview. apply preserves_sessionHashFromRequest. preserves_steps.
  - apply preserves_startRun.
  - rw /getRun. apply preserves_sessionHashFromRequest. preserves_steps.
Qed.

Lemma preserves_mux q :
  spotifySession q ⊆ S → appleSession q ⊆ A → preserves safe (mux net clk cfg spotify token appleURL origin q r).
Proof. intros HS HA. rw /mux. destruct (registered cfg q); [by apply preserves_serve|apply preserves_reply]. Qed.
End request.

Lemma idle_importJob id w : acts_import X id → I w → I (importJob net clk spotify id w).
Proof.
  intros Hid. apply (idle_ImportWork net clk (Auth_client spotify) (acts X) T P id restored_prog).
  - intros row d. by apply (keeps_importOwner _ _ _ _ _ Hprog).
  - intros *. by apply (keeps_published _ _ _ _ _ Hprog).
  - intros *. by apply (keeps_setErrorCode _ _ _ _ _ Hprog).
Qed.

Lemma idle_transferJob fs budget runID w :
  acts_run X runID → I w → I (transferJob net clk cfg spotify token appleURL fs budget runID w).
Proof.
  intros Hrun Hw%(transferring_start fs). eapply transferring_merged, (between_Work X); [| |done|exact Hw].
  - apply withSessions_transfers, (keeps_transfers _ _ _ _ _ Hprog).
  - intros name p. apply transferService_keeps, withSessions_restored, restored_prog.
Qed.
End handlers.

(** ** Reachable states *)

(** The principle of invariants: what holds at the start, does not mind more
    sessions, and is closed under the program, holds wherever the program goes
    on to. *)
Lemma onward_keeps `{AEAD, Unicode} {R} (net : Request → M R error Response) clk cfg spotify token appleURL origin
    (P : gset string → gset string → DB → Prop) p0 D0 S0 A0 pending D S A :
  P S0 A0 D0 → (∀ T S A, program_keeps everyone T S A (P S A)) →
  (∀ S A S' A' d, S ⊆ S' → A ⊆ A' → P S A d → P S' A' d) →
  onward net clk cfg spotify token appleURL origin p0 D0 S0 A0 pending D S A → P S A D.
Proof.
  intros Hstart Hprog Hmono.
  induction 1 as [|q r pending D S A fs now rest _ HP Hfresh s|id pending D S A fs now rest _ _ HP
                  |tfs budget runID pending D S A fs now rest _ _ HP|D' pending D S A _ HP Hriver
                  |pending D S A _ HP|pending D S A _ HP].
  - done.
  - assert (safe now (P (spotifySession q ∪ S) (appleSession q ∪ A)) (MkServer pending (MkWorld D None fs now rest))) as Hs.
    { split_and!; [done| |done..]. eapply Hmono; [..|exact HP]; set_solver. }
    apply (preserves_mux net clk cfg spotify token appleURL origin everyone now (spotifySession q ∪ S) (appleSession q ∪ A) _
      (Hprog _ _ _) r I q) in Hs as (_ & Hs & _); [done|set_solver..].
  - assert (idle now (P S A) (MkWorld D None fs now rest)) as Hw by by split_and!.
    by apply (idle_importJob net clk spotify everyone now S A _ (Hprog now S A) id) in Hw as (_ & Hw & _).
  - assert (idle now (P S A) (MkWorld D None fs now rest)) as Hw by by split_and!.
    by apply (idle_transferJob net clk cfg spotify token appleURL everyone now S A _ (Hprog now S A) tfs budget runID) in Hw as (_ & Hw & _).
  - by eapply (keeps_river _ _ _ _ _ (Hprog 0 S A)).
  - by apply (keeps_probe _ _ _ _ _ (Hprog 0 S A)).
  - done.
Qed.

Lemma reachable_keeps `{AEAD, Unicode} {R} (net : Request → M R error Response) clk cfg spotify token appleURL origin
    (P : gset string → gset string → DB → Prop) pending D S A :
  P ∅ ∅ emptyDB → (∀ T S A, program_keeps everyone T S A (P S A)) →
  (∀ S A S' A' d, S ⊆ S' → A ⊆ A' → P S A d → P S' A' d) →
  reachable net clk cfg spotify token appleURL origin pending D S A → P S A D.
Proof. apply onward_keeps. Qed.
