(* ===== verification/Sessions.v ===== *)
(** Sessions and connections over whole runs of the program: which sessions the
    connection tables can hold, and what follows for transfers between the two
    providers. *)
From S2P Require Import Prelude GoStrings Errors Json Http WebServer Models Matcher SpotifyTypes Database TransferStore Service Worker SpotifyStore SpotifyClient Imports AppleClient AppleConnections Providers SpotifyAuth ImportHttp AppleHttp TransferHttp HealthHttp Api Invariants.
Local Open Scope string_scope.
Local Open Scope list_scope.
Local Open Scope Z_scope.

(** The connections of the database belong to sessions of [S] and [A]. *)
Definition within (S A : gset string) (db : DB) : Prop :=
  dom (spotify_connections db) ⊆ S ∧ dom (apple_connections db) ⊆ A.

Lemma within_mono S A S' A' db : S ⊆ S' → A ⊆ A' → within S A db → within S' A' db.
Proof. rw /within. set_solver. Qed.

Lemma within_connections S A f db :
  dom (f (spotify_connections db)) ⊆ S → within S A db → within S A (set_connections f db).
Proof. intros Hf [_ HA]. by split. Qed.

Lemma within_restored `{AEAD} S A hash c now db : within S A db → within S A (restored hash c now db).
Proof. intros Hw. apply within_connections; [|done]. rw dom_alter. apply Hw. Qed.

Lemma within_deleteConnections S A doomed db : within S A db → within S A (deleteConnections doomed db).
Proof.
  intros [HS HA]. split; [|done]. cbn. etrans; [|exact HS]. apply dom_filter_subseteq.
Qed.

Lemma within_insertConnection S A hash encrypted expires now db db' :
  hash ∈ S → within S A db → insertConnection hash encrypted expires now db = Ok db' → within S A db'.
Proof.
  intros Hh [HS HA] [-> _]%insertConnection_inv. split; [|done]. cbn. rw dom_insert. set_solver.
Qed.

Lemma within_deleteAppleConnections S A doomed db : within S A db → within S A (deleteAppleConnections doomed db).
Proof.
  intros [HS HA]. split; [done|]. cbn. etrans; [|exact HA]. apply dom_filter_subseteq.
Qed.

Lemma within_insertAppleConnection S A hash encrypted expires now db db' :
  hash ∈ A → within S A db → insertAppleConnection hash encrypted expires now db = Ok db' → within S A db'.
Proof.
  intros Hh [HS HA] [-> _]%insertAppleConnection_inv. split; [done|]. cbn. rw dom_insert. set_solver.
Qed.

Lemma within_program `{AEAD} T S A : program_keeps everyone T S A (within S A).
Proof.
  split.
  - intros hash conn now d _. apply within_restored.
  - intros doomed d _. apply within_deleteConnections.
  - intros hash enc expires d d'. apply within_insertConnection.
  - intros doomed d _. apply within_deleteAppleConnections.
  - intros hash enc expires d d'. apply within_insertAppleConnection.
  - intros freshID hash id d d' importID _ Hd [_ He]. destruct (selectActiveImport _ _ _ _); [by destruct He as [-> _]|].
    destruct He as (_ & _ & [-> _]%insertImport_inv). exact Hd.
  - intros id playlist os d d' _ Hd [->|(snap & f & _ & ->)]%published_tables; exact Hd.
  - intros id code d d' _ _ Hd [= <-]. exact Hd.
  - done.
  - split; try done.
    + intros id row d a d' _ Hd Hu. rw /upsertPreview in Hu. repeat case_match; simplify_eq; by split.
    + intros id e d d' _ Hd Hu. rw /upsertPreviewEntry in Hu. repeat case_match; simplify_eq; exact Hd.
    + intros freshID hash id d d' st _ Hd [_ He]. destruct (selectRunOfPreview _ _ _ _) as [[]|]; [by destruct He as [-> _]|].
      apply insertRun_inv in He as (_ & -> & _). exact Hd.
  - intros t p _ Hp _. exact Hp.
  - intros d d' Hd (f & -> & _). exact Hd.
  - intros d Hd. exact Hd.
Qed.

(** ** Reachable states *)

Section runs.
Context `{AEAD, Unicode} {R : Type} (net : Request → M R error Response) (clk : R → Z).
Context (cfg : Enabled) (spotify : Auth) (token : R → option string) (appleURL origin : string).

Lemma reachable_within pending D S A :
  reachable net clk cfg spotify token appleURL origin pending D S A → within S A D.
Proof.
  apply (reachable_keeps net clk cfg spotify token appleURL origin within).
  - by rw /within /= !dom_empty.
  - intros S' A'. apply within_program.
  - intros *. apply within_mono.
Qed.

(** No session is issued twice, so none is issued for both providers. *)
Lemma reachable_fresh pending D S A :
  reachable net clk cfg spotify token appleURL origin pending D S A → S ## A.
Proof.
  induction 1 as [|q r pending D S A fs now rest _ Hd Hfresh s| | | | |]; [done|destruct q; set_solver|done..].
Qed.

Lemma reachable_disjoint pending D S A hash :
  reachable net clk cfg spotify token appleURL origin pending D S A →
  spotify_connections D !! hash = None ∨ apple_connections D !! hash = None.
Proof.
  intros Hr. destruct (reachable_within _ _ _ _ Hr) as [HS HA]. apply reachable_fresh in Hr as Hd. destruct (apple_connections D !! hash) as [row|] eqn:Ea; [|by right].
  left. apply eq_None_not_Some. intros [row' Es]. apply elem_of_dom_2 in Ea, Es. set_solver.
Qed.

(** A session whose snapshot can be read has no Apple Music connection. *)
Lemma snapshot_without_apple D hash snapshotID now :
  spotify_connections D !! hash = None ∨ apple_connections D !! hash = None →
  is_Some (selectSnapshot snapshotID hash now D) → selectAppleConnection hash now D = None.
Proof.
  intros Hdisj [snap Hsel]. rw /selectSnapshot in Hsel.
  destruct (spotify_snapshots D !! snapshotID), (spotify_imports D !! snapshotID) as [imp|]; try done.
  cbn in Hsel. case_bool_decide as Hh; [|done]. rw Hh in Hsel.
  destruct Hdisj as [Hs|Ha]; [by rw Hs in Hsel|]. by rw /selectAppleConnection Ha.
Qed.

Lemma apple_registered p :
  providers (transferService net clk cfg spotify token appleURL) !! ProviderAppleMusic = Some p →
  p = appleProvider net token appleURL.
Proof.
  intros [Hp Hn]%NewService_provider. rw /transferProviders in Hp.
  destruct (spotify_enabled cfg), (apple_enabled cfg); cbn in Hp; repeat apply elem_of_cons in Hp as [->|Hp];
    done || by apply elem_of_nil in Hp.
Qed.

(** Without a connection every search of Apple Music fails, and never because
    searching is not supported. *)
Lemma apple_search_refused D hash now q limit fs rest :
  selectAppleConnection hash now D = None →
  ∃ e r', Models.SearchTracks (appleProvider net token appleURL) hash q limit (MkWorld D None fs now rest) = (Err e, r') ∧
    errors_Is e ErrUnsupportedOperation = false.
Proof.
  intros Hnone. cbn. rw /Apple_SearchTracks /withAccount /mapErr bind_unfold. cbn [apple_Load ApplePostgresStore].
  rw /AppleLoad bind_unfold /pool_query /next_fault.
  destruct fs as [|[] fs]; cbn; rw ?Hnone; cbn; eexists _, _; (split; [reflexivity|]); vm_compute; reflexivity.
Qed.
End runs.

(** ** Properties *)

(** C22: in no run of the program does a session hold a connection of both
    providers: connecting an account always issues a session of its own, and
    neither callback adds to the session that the browser has. *)
Theorem sessions_disjoint `{AEAD, Unicode} {R} (net : Request → M R error Response) clk cfg spotify token appleURL origin
    pending D S A hash :
  reachable net clk cfg spotify token appleURL origin pending D S A →
  spotify_connections D !! hash = None ∨ apple_connections D !! hash = None.
Proof. apply reachable_disjoint. Qed.

(** C37: so a transfer from Spotify to Apple Music can never be previewed: in no
    run of the program does CreatePreview give a preview with an entry that
    Apple Music was searched for; it fails at the first such entry. *)
Theorem no_transfer_between_providers `{AEAD, Unicode} {R} (net : Request → M R error Response) clk cfg spotify token
    appleURL origin pending D S A id clock hash snapshotID fs tfs now rest preview o :
  reachable net clk cfg spotify token appleURL origin pending D S A →
  CreatePreview (transferService net clk cfg spotify token appleURL) id clock hash ProviderSpotify snapshotID ProviderAppleMusic
    (transferWorld tfs (MkWorld D None fs now rest)) = (Ok preview, o) →
  Forall (λ e, PreviewEntry_Status e = MatchStatusUnsupported) (TransferPreview_Entries preview).
Proof.
  intros Hreach Hrun. rw /CreatePreview (bool_decide_eq_false_2 (ProviderSpotify ≠ ProviderSpotify) (λ Hn, Hn eq_refl)) in Hrun.
  destruct (providers _ !! _) as [p|] eqn:Hp; [|done]. apply apple_registered in Hp as ->.
  apply bind_inv in Hrun as ([source entries] & w1 & Hload & Hrun).
  apply LoadSpotifySnapshot_Ok in Hload as [Hsel [fs' ->]].
  apply (snapshot_without_apple D hash snapshotID now (reachable_disjoint _ _ _ _ _ _ _ _ _ _ _ hash Hreach)) in Hsel.
  apply bind_inv in Hrun as (results & w2 & Hmatch & ->%SavePreview_entries).
  eapply matchEntries_refused; [|exact Hmatch]. intros q. by apply apple_search_refused.
Qed.

(** ** A concrete run *)

(** A network with one Spotify account, whose playlist "pl" holds two episodes,
    and an empty Apple Music library. *)
Definition exEpisode (id : string) : json := JObject [("track", JObject [("type", JString "episode"); ("id", JString id)])].
Definition exApiDocument (req : Request) : json :=
  if bool_decide (req_url req = tokenURL exClient) then
    JObject [("access_token", JString "new"); ("refresh_token", JString "r"); ("token_type", JString "bearer"); ("expires_in", JInt 3600)]
  else if bool_decide (req_url req = profileURL exClient) then
    JObject [("id", JString "u"); ("account_id", JString "acc"); ("display_name", JString "U")]
  else if bool_decide (req_url req = apiURL exClient +:+ "/playlists/pl") then exMeta
  else if bool_decide (req_url req = apiURL exClient +:+ "/playlists/pl/items") then exPage 0 [exEpisode "a"; exEpisode "b"]
  else JObject [("data", JArray [])].
Definition exApiNet (req : Request) : M unit error Response := λ w, (Ok (MkResponse 200 "" (Some (exApiDocument req))), w).

Definition exOrigin : string := "http://127.0.0.1:8080".
Definition exConfig : Enabled := MkEnabled true true.
Definition exAuth : Auth := NewAuth exClient ("http", "127.0.0.1:8080").
Definition exRequest : HttpRequest :=
  MkHttpRequest exOrigin [("spotify_oauth_state", "st"); ("music_session", "s1")] [("state", "st"); ("code", "c")] "pl"
    (Some (40, JObject [("user_token", JString "t"); ("storefront", JString "es")])) false.

Definition exServe (q : route) (s : server (world unit)) : server (world unit) :=
  (@mux idealAEAD latin1 unit exApiNet (λ _, 0) exConfig exAuth (λ _, Some "jwt") "" exOrigin q exRequest
     (MkServer (s_pending s) (MkWorld (w_db (s_rest s)) None [] 10 tt))).2.

(** The browser connects Spotify, then Apple Music; then it asks for an import,
    and the worker runs it. *)
Definition exPending := exServe (GetAuthSpotify "st" "v" "w") (MkServer ∅ (MkWorld emptyDB None [] 10 tt)).
Definition exSpotify := exServe (GetAuthCallback "s1") exPending.
Definition exBoth := exServe (PostAppleConnection "a1") exSpotify.
Definition exRequested := exServe (PostImport "imp1") exBoth.
Definition exDone : DB :=
  w_db (@importJob idealAEAD unit exApiNet (λ _, 0) exAuth "imp1" (MkWorld (w_db (s_rest exRequested)) None [] 10 tt)).

Definition exReachable := @reachable idealAEAD latin1 unit exApiNet (λ _, 0) exConfig exAuth (λ _, Some "jwt") "" exOrigin.

Lemma exReachable_serve q s S A S' A' :
  exReachable (s_pending s) (w_db (s_rest s)) S A → (spotifySession q ∪ appleSession q) ## (S ∪ A) →
  S' = spotifySession q ∪ S → A' = appleSession q ∪ A →
  exReachable (s_pending (exServe q s)) (w_db (s_rest (exServe q s))) S' A'.
Proof. intros Hs Hd -> ->. by apply reach_serve. Qed.

Lemma exReachable_both :
  exReachable (s_pending exBoth) (w_db (s_rest exBoth)) {[ sessionHash "s1" ]} {[ sessionHash "a1" ]}.
Proof.
  assert (sessionHash "a1" ≠ sessionHash "s1") as Hne by (vm_compute; discriminate).
  unfold exBoth. refine (exReachable_serve _ _ {[ sessionHash "s1" ]} ∅ _ _ _ _ _ _);
    [|cbn [spotifySession appleSession]; revert Hne; generalize (sessionHash "s1") (sessionHash "a1"); set_solver +..].
  unfold exSpotify. refine (exReachable_serve _ _ ∅ ∅ _ _ _ _ _ _);
    [|cbn [spotifySession appleSession]; generalize (sessionHash "s1"); set_solver +..].
  unfold exPending. refine (exReachable_serve _ _ ∅ ∅ _ _ _ _ _ _); [apply reach_init|set_solver +..].
Qed.

Lemma exReachable_done :
  exReachable (s_pending exRequested) exDone {[ sessionHash "s1" ]} {[ sessionHash "a1" ]}.
Proof.
  apply reach_import; [done|]. unfold exRequested. refine (exReachable_serve _ _ _ _ _ _ exReachable_both _ _ _);
    cbn [spotifySession appleSession]; generalize (sessionHash "s1") (sessionHash "a1"); set_solver +.
Qed.

Lemma sessions_disjoint_witness :
  is_Some (spotify_connections (w_db (s_rest exBoth)) !! sessionHash "s1") ∧
  is_Some (apple_connections (w_db (s_rest exBoth)) !! sessionHash "a1") ∧
  ∀ hash, spotify_connections (w_db (s_rest exBoth)) !! hash = None ∨ apple_connections (w_db (s_rest exBoth)) !! hash = None.
Proof.
  split; [vm_compute; eauto|]. split; [vm_compute; eauto|]. intros hash.
  exact (sessions_disjoint _ _ _ _ _ _ _ _ _ _ _ hash exReachable_both).
Defined.

Definition exCreated : result TransferPreview * world (world unit) :=
  @CreatePreview latin1 _ (@transferService idealAEAD unit exApiNet (λ _, 0) exConfig exAuth (λ _, Some "jwt") "") "p1" 0
    (sessionHash "s1") ProviderSpotify "imp1" ProviderAppleMusic (transferWorld [] (MkWorld exDone None [] 10 tt)).

Lemma exCreated_entries :
  match exCreated.1 with Ok preview => length (TransferPreview_Entries preview) = 2%nat | Err _ => False end.
Proof. vm_compute. reflexivity. Qed.

Lemma no_transfer_between_providers_witness :
  match exCreated.1 with
  | Ok preview =>
      length (TransferPreview_Entries preview) = 2%nat ∧
      Forall (λ e, PreviewEntry_Status e = MatchStatusUnsupported) (TransferPreview_Entries preview)
  | Err _ => False
  end.
Proof.
  pose proof exCreated_entries as Hlen. destruct exCreated as [[preview|e] o] eqn:Hrun; [|exact Hlen].
  split; [exact Hlen|].
  exact (no_transfer_between_providers _ _ _ _ _ _ _ _ _ _ _ _ _ _ _ _ _ _ _ _ _ exReachable_done Hrun).
Defined.
