(* ===== verification/Consistency.v ===== *)
(** The consistency of the database over whole runs of the program: the
    references between its tables, the completeness of snapshots, the limits on
    imports, and the jobs of imports and runs. *)
From S2P Require Import Prelude GoStrings Errors Json Http WebServer Models Matcher SpotifyTypes Database TransferStore Service SpotifyStore SpotifyClient Imports AppleClient AppleConnections SpotifyAuth Config Admin Api Wiring Invariants Sessions.
Local Open Scope string_scope.
Local Open Scope list_scope.
Local Open Scope Z_scope.

(** A run belongs to a preview of its session, an import to a connected
    session; each names a job that was inserted for it, and while the queue
    still has that job's row it is of the right kind and names the run or the
    import.  Every job has one of the program's three kinds. *)
Record jobs_ok (db : DB) : Prop := {
  jobs_ids n job : river_job db !! n = Some job → n < river_next_id db ∧ job_kind job ∈ [probeKind; importKind; runKind];
  jobs_import id row job : spotify_imports db !! id = Some row → river_job db !! imp_river_job_id row = Some job →
    job_kind job = importKind ∧ job_args job = id;
  jobs_run id run : transfer_runs db !! id = Some run →
    run_river_job_id run < river_next_id db ∧
    ∀ job, river_job db !! run_river_job_id run = Some job → job_kind job = runKind ∧ job_args job = id;
}.

Record previews_ok (db : DB) : Prop := {
  previews_run id run : transfer_runs db !! id = Some run →
    ∃ preview, transfer_previews db !! run_preview_id run = Some preview ∧ prev_session_hash preview = run_session_hash run;
  previews_one id1 id2 run1 run2 :
    transfer_runs db !! id1 = Some run1 → transfer_runs db !! id2 = Some run2 →
    run_preview_id run1 = run_preview_id run2 → id1 = id2;
}.

Record consistent (db : DB) : Prop := {
  ok_refs : refs_ok db;
  ok_snapshots : snapshots_ok db;
  ok_imports : imports_ok db;
  ok_previews : previews_ok db;
  ok_jobs : jobs_ok db;
}.

(** ** Imports *)

(** The imports of [db'] are some of [db]'s, and none of their jobs has become
    active. *)
Definition fewer_imports (db db' : DB) : Prop :=
  river_next_id db ≤ river_next_id db' ∧
  (∀ id row', spotify_imports db' !! id = Some row' →
    ∃ row, spotify_imports db !! id = Some row ∧ imp_session_hash row' = imp_session_hash row ∧
      imp_playlist_id row' = imp_playlist_id row ∧ imp_river_job_id row' = imp_river_job_id row) ∧
  (∀ n job', n < river_next_id db → river_job db' !! n = Some job' →
    ∃ job, river_job db !! n = Some job ∧ job_kind job' = job_kind job ∧ job_args job' = job_args job ∧
      (job_active (job_state job') = true → job_active (job_state job) = true)).

Lemma NoDup_fst_filter {A} (P : string * A → Prop) `{∀ x, Decision (P x)} (l : list (string * A)) :
  NoDup l.*1 → NoDup (filter P l).*1.
Proof. intros Hl. eapply sublist_NoDup; [exact Hl|]. apply fmap_sublist, sublist_filter. Qed.

Lemma keys_shorter {A B} (l : list (string * A)) (k : list (string * B)) :
  NoDup l.*1 → (∀ x, x ∈ l.*1 → x ∈ k.*1) → (length l ≤ length k)%nat.
Proof.
  intros Hl Hsub. apply (NoDup_submseteq _ k.*1) in Hl; [|done]. apply submseteq_length in Hl. by rw !length_fmap in Hl.
Qed.

Lemma activeImports_elem hash db id row :
  (id, row) ∈ activeImports hash db ↔
  spotify_imports db !! id = Some row ∧ imp_session_hash row = hash ∧
  ∃ job, river_job db !! imp_river_job_id row = Some job ∧ job_active (job_state job) = true.
Proof.
  rw /activeImports list_elem_of_filter elem_of_map_to_list /importActive. cbn.
  destruct (river_job db !! imp_river_job_id row); naive_solver.
Qed.

Lemma activeImports_NoDup hash db : NoDup (activeImports hash db).*1.
Proof. apply NoDup_fst_filter, NoDup_fst_map_to_list. Qed.

Lemma active_fewer hash db db' id row' : imports_ok db → fewer_imports db db' →
  (id, row') ∈ activeImports hash db' →
  ∃ row, (id, row) ∈ activeImports hash db ∧ imp_playlist_id row' = imp_playlist_id row.
Proof.
  intros [_ _ Hids] (Hnext & Hrows & Hjobs) (Hrow' & Hhash & job' & Hjob' & Hact)%activeImports_elem.
  destruct (Hrows id row' Hrow') as (row & Hrow & Hh & Hp & Hj). rw Hj in Hjob'.
  destruct (Hjobs _ _ (Hids _ _ Hrow) Hjob') as (job & Hjob & _ & _ & Hact').
  exists row. split; [|done]. apply activeImports_elem. split_and!; [done|congruence|eauto].
Qed.

Lemma imports_fewer db db' : imports_ok db → fewer_imports db db' → imports_ok db'.
Proof.
  intros Hok Hf. split.
  - intros hash. etrans; [|apply (imports_limit db Hok hash)]. apply inj_le, keys_shorter; [apply activeImports_NoDup|].
    intros id ([? row'] & -> & (row & Hin & _)%(active_fewer _ _ _ _ _ Hok Hf))%list_elem_of_fmap.
    apply list_elem_of_fmap. by eexists (_, row).
  - intros hash pl. etrans; [|apply (imports_one db Hok hash pl)]. apply keys_shorter; [apply NoDup_fst_filter, activeImports_NoDup|].
    intros id ([? row'] & -> & [Hpl Hin]%list_elem_of_filter)%list_elem_of_fmap.
    apply (active_fewer _ _ _ _ _ Hok Hf) in Hin as (row & Hin & Hp).
    apply list_elem_of_fmap. eexists (_, row). split; [done|]. apply list_elem_of_filter. split; [cbn in *; congruence|done].
  - intros id row' Hrow'. destruct Hf as (Hnext & Hrows & _). destruct (Hrows id row' Hrow') as (row & Hrow & _ & _ & ->).
    apply (imports_jobs db Hok) in Hrow. lia.
Qed.

(** ** Every statement *)

(** An update that leaves the tables of a part alone. *)
Ltac same_tables := match goal with
  | H : refs_ok _ |- refs_ok _ => destruct H; split; assumption
  | H : snapshots_ok _ |- snapshots_ok _ => destruct H; split; assumption
  | H : imports_ok _ |- imports_ok _ => destruct H; split; assumption
  | H : previews_ok _ |- previews_ok _ => destruct H; split; assumption
  | H : jobs_ok _ |- jobs_ok _ => destruct H; split; assumption
  end.

Lemma consistent_connections f db :
  (∀ h, is_Some (spotify_connections db !! h) → is_Some (f (spotify_connections db) !! h)) →
  consistent db → consistent (set_connections f db).
Proof. intros Hf []. split; [by apply set_connections_refs|same_tables..]. Qed.

Lemma consistent_restored `{AEAD} hash conn now db : consistent db → consistent (restored hash conn now db).
Proof. apply consistent_connections. intros h. by rw lookup_alter_is_Some. Qed.

Lemma consistent_apple f db : consistent db → consistent (set_apple_connections f db).
Proof. intros []. split; same_tables. Qed.

Lemma consistent_deleteConnections doomed db : consistent db → consistent (deleteConnections doomed db).
Proof.
  intros [Hrefs Hsnaps Himps Hprevs Hjobs]. split.
  - apply deleteConnections_refs.
  - split; cbn.
    + intros id snap Hsnap. pose proof Hsnap as [Hold _]%map_lookup_filter_Some.
      destruct (snapshots_whole _ Hsnaps id snap Hold) as (es & Hpos & Hes). exists es. split; [done|].
      rw -Hes map_lookup_filter. destruct (spotify_snapshot_entries db !! id); [|done]. cbn.
      by rw option_guard_True.
    + by intros id m [_ ?]%map_lookup_filter_Some.
  - eapply imports_fewer; [exact Himps|]. split; [done|split]; cbn.
    + intros id row [Hrow _]%map_lookup_filter_Some. by exists row.
    + intros n job _ Hjob. by exists job.
  - same_tables.
  - destruct Hjobs as [H1 H2 H3]. split; [done| |done]. cbn. intros id row job [Hrow _]%map_lookup_filter_Some. by apply H2.
Qed.

Lemma consistent_setCode code id db : consistent db → consistent (set_imports (alter (setCode code) id) db).
Proof.
  intros [Hrefs Hsnaps Himps Hprevs Hjobs].
  assert (∀ id' row', alter (setCode code) id (spotify_imports db) !! id' = Some row' →
    ∃ row, spotify_imports db !! id' = Some row ∧ imp_session_hash row' = imp_session_hash row ∧
      imp_playlist_id row' = imp_playlist_id row ∧ imp_river_job_id row' = imp_river_job_id row) as Hrows.
  { intros id' row' [(<- & row & Hrow & ->)|[_ Hrow]]%lookup_alter_Some; by eexists. }
  split; [|same_tables| |same_tables|].
  - destruct Hrefs as [H1 H2 H3]. split; cbn; [| |done].
    + intros id' row' (row & Hrow & -> & _)%Hrows. by apply (H1 id').
    + intros id' snap Hsnap%H2. by rw lookup_alter_is_Some.
  - eapply imports_fewer; [exact Himps|]. split; [done|split]; [exact Hrows|]. intros n job _ Hjob. by exists job.
  - destruct Hjobs as [H1 H2 H3]. split; [done| |done]. cbn. intros id' row' job (row & Hrow & _ & _ & ->)%Hrows. by apply H2.
Qed.

Lemma consistent_enqueuedImport freshID hash id now db db' importID :
  consistent db → enqueuedImport freshID hash id now db db' importID → consistent db'.
Proof.
  intros [Hrefs Hsnaps Himps Hprevs Hjobs] He.
  apply (enqueuedImport_ok _ _ _ _ _ _ _ Himps) in He as Himps'. destruct He as [Hconn He].
  destruct (selectActiveImport _ _ _ _); [by destruct He as [-> _]|]. destruct He as (_ & _ & [-> Hfresh]%insertImport_inv).
  rw /selectConnection in Hconn. destruct Hconn as [row (row' & Hrow & _)%bind_Some]. cbn in Hfresh.
  split; [|same_tables|done|same_tables|].
  - destruct Hrefs as [H1 H2 H3]. split; cbn; [| |done].
    + intros id' imp [[_ <-]|[_ Himp]]%lookup_insert_Some; [by exists row'|by apply (H1 id')].
    + intros id' snap Hsnap%H2. destruct (decide (freshID = id')) as [<-|Hne]; [by rw lookup_insert_eq|by rw lookup_insert_ne].
  - destruct Hjobs as [H1 H2 H3]. split; cbn.
    + intros n job [[<- <-]|[_ Hjob]]%lookup_insert_Some; [cbn; split; [lia|set_solver]|].
      apply H1 in Hjob as [??]. split; [lia|done].
    + intros id' imp job [[<- <-]|[_ Himp]]%lookup_insert_Some; cbn.
      * rw lookup_insert_eq. by intros [= <-].
      * apply (imports_jobs db Himps) in Himp as Hlt. rw lookup_insert_ne; [lia|]. by apply H2.
    + intros id' run [Hlt Hrun]%H3. split; [lia|]. rw lookup_insert_ne; [lia|done].
Qed.

Lemma consistent_published id playlist os now db db' :
  consistent db → published id playlist (snapshotOf os) now db = Ok db' → consistent db'.
Proof.
  intros Hc Hp. apply snapshots_ok_published in Hp as Hsnaps'; [|apply Hc].
  apply published_tables in Hp as [->|(snap & f & Himp & ->)]; [done|].
  set (db1 := set_snapshot_entries f (set_snapshots <[id:=snap]> db)).
  (* the new snapshot alone, then the code of its import *)
  assert (consistent db1 → consistent (set_imports (alter (setCode "") id) db1)) as Hcode by apply consistent_setCode.
  apply Hcode. destruct Hc as [Hrefs Hsnaps Himps Hprevs Hjobs]. split; [|by destruct Hsnaps'; split|same_tables..].
  destruct Hrefs as [H1 H2 H3]. split; [done| |].
  - intros id' snap'. cbn. intros [[<- _]|[_ Hsnap]]%lookup_insert_Some; [done|by eapply H2].
  - intros id' m Hm. by apply (snapshots_only _ Hsnaps' id' m).
Qed.

Lemma consistent_upsertPreview id row now db a db' : consistent db → upsertPreview id row now db = Ok (a, db') → consistent db'.
Proof.
  intros [Hrefs Hsnaps Himps Hprevs Hjobs] Hu.
  assert (∃ id' row', db' = set_previews <[id' := row']> db ∧
    ∀ old, transfer_previews db !! id' = Some old → prev_session_hash row' = prev_session_hash old) as (id' & row' & -> & Hsame).
  { rw /upsertPreview in Hu. destruct (negb _); [done|]. destruct (findPreview _ _) as [[id' old]|] eqn:Hfind.
    - injection Hu as <- <-. eexists _, _. split; [reflexivity|]. cbn. intros old' Hold'.
      apply head_Some_elem_of, list_elem_of_filter in Hfind as [_ Hin%elem_of_map_to_list]. congruence.
    - destruct (transfer_previews db !! id) eqn:Hfresh; [done|]. injection Hu as <- <-. eexists _, _. split; [reflexivity|]. congruence. }
  split; [same_tables..| |same_tables]. destruct Hprevs as [H1 H2]. split; [|done]. cbn.
  intros rid run (preview & Hprev & Hhash)%H1. destruct (decide (id' = run_preview_id run)) as [->|Hne].
  - exists row'. rw lookup_insert_eq (Hsame _ Hprev). by split.
  - exists preview. by rw lookup_insert_ne.
Qed.

Lemma consistent_enqueued freshID hash id now db db' st : consistent db → enqueued freshID hash id now db db' st → consistent db'.
Proof.
  intros [Hrefs Hsnaps Himps Hprevs Hjobs] [[prev Hsel] He].
  destruct (selectRunOfPreview _ _ _ _) as [[]|]; [by destruct He as [-> _]|].
  apply insertRun_inv in He as (_ & -> & Hfresh & _ & Hother). cbn in Hfresh, Hother.
  rw /selectPreview in Hsel. apply bind_Some in Hsel as (row & Hrow & Hhash). case_bool_decide as Hh; [|done].
  destruct Hprevs as [P1 P2], Hjobs as [J1 J2 J3].
  split; [same_tables..| | |].
  - eapply imports_fewer; [exact Himps|]. split; [cbn; lia|split].
    + intros id' row' Hr. by exists row'.
    + cbn. intros n job Hn. rw lookup_insert_ne; [lia|]. intros Hjob. by exists job.
  - split; cbn.
    + intros rid run [[_ <-]|[_ Hrun]]%lookup_insert_Some; [by exists row|by apply (P1 rid)].
    + intros id1 id2 run1 run2 [[<- <-]|[_ H1]]%lookup_insert_Some [[<- <-]|[_ H2]]%lookup_insert_Some Hp; cbn in Hp;
        [done|by destruct (Hother id2 run2)|by destruct (Hother id1 run1)|by eapply P2].
  - split; cbn.
    + intros n job [[<- <-]|[_ Hjob]]%lookup_insert_Some; [cbn; split; [lia|set_solver]|].
      apply J1 in Hjob as [??]. split; [lia|done].
    + intros iid imp job Himp. apply (imports_jobs db Himps) in Himp as Hlt. rw lookup_insert_ne; [lia|]. by apply J2.
    + intros rid run [[<- <-]|[_ Hrun]]%lookup_insert_Some; cbn.
      * split; [lia|]. rw lookup_insert_eq. by intros job [= <-].
      * apply J3 in Hrun as [Hlt Hj]. split; [lia|]. rw lookup_insert_ne; [lia|done].
Qed.

Lemma consistent_setRunState runID state code playlistID next now db :
  consistent db → consistent (set_runs (alter (setRunState state code playlistID next now) runID) db).
Proof.
  intros [Hrefs Hsnaps Himps [P1 P2] [J1 J2 J3]].
  assert (∀ id' run', alter (setRunState state code playlistID next now) runID (transfer_runs db) !! id' = Some run' →
    ∃ run, transfer_runs db !! id' = Some run ∧ run_preview_id run' = run_preview_id run ∧
      run_session_hash run' = run_session_hash run ∧ run_river_job_id run' = run_river_job_id run) as Hruns.
  { intros id' run' [(<- & run & Hrun & ->)|[_ Hrun]]%lookup_alter_Some; by eexists. }
  split; [same_tables..| |]; split; cbn; try done.
  - intros id' run' (run & Hrun & -> & -> & _)%Hruns. by apply (P1 id').
  - intros id1 id2 run1' run2' (run1 & H1 & -> & _)%Hruns (run2 & H2 & -> & _)%Hruns. by eapply P2.
  - intros id' run' (run & Hrun & _ & _ & ->)%Hruns. by apply J3.
Qed.

Lemma consistent_mergeDB t p :
  consistent t → dom (spotify_connections t) = dom (spotify_connections p) → consistent (mergeDB t p).
Proof.
  intros Hc Hdom. apply consistent_apple, consistent_connections; [|done]. intros h. by rw -!elem_of_dom Hdom.
Qed.

Lemma consistent_river db db' : consistent db → riverStep db db' → consistent db'.
Proof.
  intros [Hrefs Hsnaps Himps Hprevs [J1 J2 J3]] (f & -> & Hf).
  split; [same_tables..| |same_tables|].
  - eapply imports_fewer; [exact Himps|]. split; [done|split].
    + intros id row Hrow. by exists row.
    + intros n job' _ Hjob'. by apply Hf.
  - split; cbn.
    + intros n job' (job & Hjob & -> & _)%Hf. by apply J1.
    + intros id row job' Hrow (job & Hjob & -> & -> & _)%Hf. by apply (J2 id row).
    + intros id run [Hlt Hjobs]%J3. split; [done|]. intros job' (job & Hjob & -> & -> & _)%Hf. by apply Hjobs.
Qed.

Lemma consistent_probe db : consistent db → consistent (insert_job probeKind "" 5 db).2.
Proof.
  intros [Hrefs Hsnaps Himps Hprevs [J1 J2 J3]]. split; [same_tables..| |same_tables|].
  - eapply imports_fewer; [exact Himps|]. split; [cbn; lia|split].
    + intros id row Hrow. by exists row.
    + cbn. intros n job' Hn. rw lookup_insert_ne; [lia|]. intros Hjob. by exists job'.
  - split; cbn.
    + intros n job [[<- <-]|[_ Hjob]]%lookup_insert_Some; [cbn; split; [lia|set_solver]|].
      apply J1 in Hjob as [??]. split; [lia|done].
    + intros id row job Hrow. apply (imports_jobs db Himps) in Hrow as Hlt. rw lookup_insert_ne; [lia|]. by apply J2.
    + intros id run [Hlt Hrun]%J3. split; [lia|]. rw lookup_insert_ne; [lia|done].
Qed.

Lemma consistent_program `{AEAD} T S A : program_keeps everyone T S A consistent.
Proof.
  split.
  - intros hash conn now d _. apply consistent_restored.
  - intros doomed d _. apply consistent_deleteConnections.
  - intros hash enc expires d d' _ Hd [-> _]%insertConnection_inv. apply consistent_connections; [|done].
    intros h Hh. destruct (decide (hash = h)) as [->|]; [by rw lookup_insert_eq|by rw lookup_insert_ne].
  - intros doomed d _. apply consistent_apple.
  - intros hash enc expires d d' _ Hd [-> _]%insertAppleConnection_inv. by apply consistent_apple.
  - intros freshID hash id d d' importID _. apply consistent_enqueuedImport.
  - intros id playlist os d d' _. apply consistent_published.
  - intros id code d d' _ _ Hd [= <-]. by apply consistent_setCode.
  - done.
  - split.
    + intros id row d a d' _ Hd Hu. split; [by eapply consistent_upsertPreview|done].
    + intros id e d d' _ [] Hu. rw /upsertPreviewEntry in Hu. destruct (negb _); [done|]. destruct (transfer_previews _ !! _); [|done].
      injection Hu as <-. split; same_tables.
    + intros freshID hash id d d' st _. apply consistent_enqueued.
    + intros *. intros _ _. apply consistent_setRunState.
    + done.
  - intros t p Ht _. by apply consistent_mergeDB.
  - intros *. apply consistent_river.
  - intros *. apply consistent_probe.
Qed.

Lemma consistent_empty : consistent emptyDB.
Proof.
  split; [by split|by split|by apply empty_imports_ok|by split|by split].
Qed.

Lemma consistent_reachable `{AEAD, Unicode} {R} (net : Request → M R error Response) clk cfg spotify token appleURL origin
    pending D S A :
  reachable net clk cfg spotify token appleURL origin pending D S A → consistent D.
Proof.
  apply (reachable_keeps net clk cfg spotify token appleURL origin (λ _ _, consistent)).
  - apply consistent_empty.
  - intros T S' A'. apply consistent_program.
  - done.
Qed.

(** ** Properties *)

(** C4: in every state that the program reaches, whatever the requests, jobs,
    answers of the providers, failures of the database and steps of the queue,
    the database is consistent: imports belong to connected sessions and
    snapshots to imports; every published snapshot has exactly the entries it
    announces; no session has more than ten active imports, or two of one
    playlist; runs belong to previews of their session, one at most for each;
    and the job of an import or a run is its own. *)
Theorem reachable_consistent `{AEAD, Unicode} {R} (net : Request → M R error Response) clk cfg spotify token appleURL origin
    pending D S A :
  reachable net clk cfg spotify token appleURL origin pending D S A → consistent D.
Proof. apply consistent_reachable. Qed.

(** C23: no job waits for ever for want of a worker: where the API, with Spotify
    enabled, and the worker came up in the same environment, every job that is
    ever in the queue has a kind that the worker works on. *)
Theorem reachable_jobs_have_workers `{GoParsers, AppleKeys, AEAD, Unicode} {R} Getenv open1 river1 open2 river2 app worker
    (net : Request → M R error Response) clk cfg spotify token appleURL origin pending D S A (n : Z) job :
  apiRun Getenv open1 river1 = Ok app → workerRun Getenv open2 river2 = Ok worker → is_Some (api_spotify app) →
  reachable net clk cfg spotify token appleURL origin pending D S A →
  river_job D !! n = Some job → job_kind job ∈ JobKinds worker.
Proof.
  intros Happ Hworker Hspotify Hreach Hjob.
  apply consistent_reachable in Hreach as [_ _ _ _ Hjobs]. apply (jobs_ids _ Hjobs) in Hjob as [_ Hkind].
  destruct (workers_complete _ _ _ _ _ _ _ Happ Hworker Hspotify) as (Hp & Hi & Hr).
  repeat apply elem_of_cons in Hkind as [->|Hkind]; [done..|by apply elem_of_nil in Hkind].
Qed.

(** ** Concrete runs *)

(** After an import in the run of Sessions.v. *)
Lemma reachable_consistent_witness : is_Some (spotify_snapshots exDone !! "imp1") ∧ consistent exDone.
Proof. split; [vm_compute; eauto|]. exact (reachable_consistent _ _ _ _ _ _ _ _ _ _ _ exReachable_done). Defined.

Lemma reachable_jobs_have_workers_witness :
  ∃ job, river_job exDone !! 1 = Some job ∧ job_kind job ∈ JobKinds exWorker.
Proof.
  exists (MkJobRow "spotify_playlist_import" "imp1" JobAvailable 5).
  assert (river_job exDone !! 1 = Some (MkJobRow "spotify_playlist_import" "imp1" JobAvailable 5)) as Hjob by (vm_compute; reflexivity).
  split; [exact Hjob|].
  exact (@reachable_jobs_have_workers Wiring.exParsers exKeys _ _ _ Wiring.exGetenv exOpen exRiver exOpen exRiver exApp exWorker _ _ _ _ _ _ _ _ _ _ _ 1 _
    eq_refl eq_refl ltac:(vm_compute; eauto) exReachable_done Hjob).
Defined.
