(* ===== verification/Records.v ===== *)
(** What the rows of the database say, over whole runs of the program: the
    credentials are sealed for the session they belong to, the outcomes of
    imports and runs are among the documented ones, and a published snapshot is
    never changed. *)
From S2P Require Import Prelude GoStrings Errors Json Http WebServer Models Matcher SpotifyTypes Database TransferStore Service SpotifyStore SpotifyClient Imports AppleClient AppleConnections SpotifyAuth Admin Api Wiring Invariants Sessions Consistency.
Local Open Scope string_scope.
Local Open Scope list_scope.
Local Open Scope Z_scope.

(** ** Credentials and outcomes *)

(** Every connection is sealed for its session; an import has failed with one
    of its codes or not at all; a run waits, is completed, or has failed for one
    of the reasons that no retry mends. *)
Record records_ok `{AEAD} (db : DB) : Prop := {
  rec_spotify hash row : spotify_connections db !! hash = Some row →
    ∃ conn, conn_encrypted_credentials row = seal hash conn;
  rec_apple hash row : apple_connections db !! hash = Some row →
    ∃ conn, conn_encrypted_credentials row = appleSeal hash conn;
  rec_import id row : spotify_imports db !! id = Some row → imp_error_code row ∈ "" :: importCodes;
  rec_run id run : transfer_runs db !! id = Some run →
    (run_state run = "queued" ∧ run_error_code run = "") ∨ run_outcome (run_state run) (run_error_code run);
}.

(** A table after a change, where its rows satisfied [P] before. *)
Lemma insert_rows `{Countable K} {A} (P : K → A → Prop) (m : gmap K A) k a :
  P k a → (∀ i x, m !! i = Some x → P i x) → ∀ i x, <[k:=a]> m !! i = Some x → P i x.
Proof. intros Hk Hm i x [[<- <-]|[_ ?]]%lookup_insert_Some; [done|by apply Hm]. Qed.
Lemma alter_rows `{Countable K} {A} (P : K → A → Prop) f (m : gmap K A) k :
  (∀ x, P k x → P k (f x)) → (∀ i x, m !! i = Some x → P i x) → ∀ i x, alter f k m !! i = Some x → P i x.
Proof. intros Hf Hm i x [(<- & y & Hy & ->)|[_ ?]]%lookup_alter_Some; [by apply Hf, Hm|by apply Hm]. Qed.
Lemma filter_rows `{Countable K} {A} (P : K → A → Prop) (Q : K * A → Prop) `{∀ x, Decision (Q x)} (m : gmap K A) :
  (∀ i x, m !! i = Some x → P i x) → ∀ i x, filter Q m !! i = Some x → P i x.
Proof. intros Hm i x [? _]%map_lookup_filter_Some. by apply Hm. Qed.

Lemma records_empty `{AEAD} : records_ok emptyDB.
Proof. by split. Qed.

Lemma records_program `{AEAD} T S A : program_keeps everyone T S A records_ok.
Proof.
  split.
  - intros hash conn now d _ [H1 H2 H3 H4]. split; try done. apply alter_rows; [|done]. intros row _. by eexists.
  - intros doomed d _ [H1 H2 H3 H4]. by split; [apply filter_rows| |apply filter_rows|].
  - intros hash conn expires d d' _ [H1 H2 H3 H4] [-> _]%insertConnection_inv. split; try done.
    apply insert_rows; [by eexists|done].
  - intros doomed d _ [H1 H2 H3 H4]. by split; [|apply filter_rows|..].
  - intros hash conn expires d d' _ [H1 H2 H3 H4] [-> _]%insertAppleConnection_inv. split; try done.
    apply insert_rows; [by eexists|done].
  - intros freshID hash id d d' importID _ [H1 H2 H3 H4] [_ He].
    destruct (selectActiveImport _ _ _ _); [by destruct He as [-> _]|]. destruct He as (_ & _ & [-> _]%insertImport_inv).
    split; try done. apply (insert_rows (λ _ row, imp_error_code row ∈ _)); [apply list_elem_of_here|done].
  - intros id playlist os d d' _ [H1 H2 H3 H4] [->|(snap & f & _ & ->)]%published_tables; split; try done.
    apply (alter_rows (λ _ row, imp_error_code row ∈ _)); [intros; apply list_elem_of_here|done].
  - intros id code d d' _ Hcode [H1 H2 H3 H4] [= <-]. split; try done.
    apply (alter_rows (λ _ row, imp_error_code row ∈ _)); [intros; by apply list_elem_of_further|done].
  - done.
  - split; [..|done].
    + intros id row d a d' _ [] Hu. rw /upsertPreview in Hu. by repeat case_match; simplify_eq; split.
    + intros id e d d' _ [] Hu. rw /upsertPreviewEntry in Hu. by repeat case_match; simplify_eq; split.
    + intros freshID hash id d d' st _ [H1 H2 H3 H4] [_ He]. destruct (selectRunOfPreview _ _ _ _) as [[]|]; [by destruct He as [-> _]|].
      apply insertRun_inv in He as (_ & -> & _). split; try done.
      apply (insert_rows (λ _ run, _ ∨ run_outcome (run_state run) _)); [by left|done].
    + intros runID st code pl next d _ Ho [H1 H2 H3 H4]. split; try done.
      apply (alter_rows (λ _ run, _ ∨ run_outcome (run_state run) _)); [by right|done].
  - intros t p [] [] _. by split.
  - intros d d' [] (f & -> & _). by split.
  - intros d []. by split.
Qed.

Lemma reachable_records `{AEAD, Unicode} {R} (net : Request → M R error Response) clk cfg spotify token appleURL origin
    pending D S A :
  reachable net clk cfg spotify token appleURL origin pending D S A → records_ok D.
Proof.
  apply (reachable_keeps net clk cfg spotify token appleURL origin (λ _ _, records_ok)).
  - apply records_empty.
  - intros *. apply records_program.
  - done.
Qed.

(** Sealed for one session, credentials open for no other. *)
Lemma open_other `{AEAD, !AEADLaws} hash other conn :
  other ≠ hash → open other (seal hash conn) = Err (ErrorString "cannot decrypt Spotify connection").
Proof. intros Hne. by rw /open /seal Open_other. Qed.
Lemma appleOpen_other `{AEAD, !AEADLaws} hash other conn :
  other ≠ hash → appleOpen other (appleSeal hash conn) = Err (ErrorString "cannot decrypt Apple Music connection").
Proof. intros Hne. by rw /appleOpen /appleSeal Open_other. Qed.

(** What the status queries read. *)
Lemma Status_row {R} hash id D tx fs now (r : R) st :
  (Status hash id (MkWorld D tx fs now r)).1 = Ok st →
  ∃ row, spotify_imports D !! id = Some row ∧ ImportStatus_ErrorCode st = imp_error_code row ∧
    ImportStatus_State st ∈ "completed" :: "expired" :: (jobStateText <$> [JobAvailable; JobPending; JobRunning; JobRetryable;
      JobScheduled; JobCancelled; JobCompleted; JobDiscarded]).
Proof.
  rw /Status bind_unfold /pool_query /next_fault. destruct fs as [|[] fs]; cbn [w_faults fst]; try done.
  all: cbn; destruct (importStatus hash id now D) as [st'|] eqn:Hst; [|done]; intros [= ->].
  all: rw /importStatus in Hst; apply bind_Some in Hst as (row & Hrow & Hst); rw /selectImport in Hrow.
  all: apply bind_Some in Hrow as (row' & Himp & (conn & _ & Hlive)%bind_Some).
  all: destruct (_ <? _); [|done]; injection Hlive as ->; case_bool_decide; [|done]; injection Hst as <-.
  all: exists row; split; [done|]; split; [done|]; cbn.
  all: destruct (spotify_snapshots D !! id); [set_solver +|].
  all: destruct (river_job D !! imp_river_job_id row) as [job|]; [destruct (job_state job)|]; cbn; set_solver +.
Qed.

Lemma LoadRunStatus_row {R} hash id D tx fs now (r : R) st :
  (LoadRunStatus hash id (MkWorld D tx fs now r)).1 = Ok st →
  ∃ run, transfer_runs D !! id = Some run ∧ st = runStatus id run.
Proof.
  rw /LoadRunStatus bind_unfold /pool_query /next_fault. destruct fs as [|[] fs]; cbn; try done.
  all: destruct (transfer_runs D !! id) as [run|]; cbn; [|done]; case_bool_decide; [|done]; cbn; intros [= <-]; by eexists.
Qed.

(** ** Snapshots are immutable *)

(** The import [id] with the job [job] has the snapshot [snap] with the entries
    [m], as long as it exists; another import of the same name would have a later
    job. *)
Definition imported (id : string) (job : Z) (hash : string) (snap : SnapshotRow) (m : option (gmap Z json)) (db : DB) : Prop :=
  job < river_next_id db ∧
  ∀ row, spotify_imports db !! id = Some row → imp_river_job_id row = job →
    imp_session_hash row = hash ∧ spotify_snapshots db !! id = Some snap ∧ spotify_snapshot_entries db !! id = m.

Section imported.
Context (id : string) (job : Z) (hash : string) (snap : SnapshotRow) (m : option (gmap Z json)).
Abbreviation kept := (imported id job hash snap m).

(** Changes that keep the snapshots and the names of imports. *)
Lemma imported_same d d' :
  kept d → river_next_id d ≤ river_next_id d' →
  (∀ row', spotify_imports d' !! id = Some row' → imp_river_job_id row' = job →
    (∃ row, spotify_imports d !! id = Some row ∧ imp_river_job_id row = job ∧ imp_session_hash row' = imp_session_hash row) ∧
    spotify_snapshots d' !! id = spotify_snapshots d !! id ∧
    spotify_snapshot_entries d' !! id = spotify_snapshot_entries d !! id) →
  kept d'.
Proof.
  intros [Hlt Hd] Hid Hrow. split; [lia|]. intros row' Hr' Hj'.
  destruct (Hrow row' Hr' Hj') as ((row & Hr & Hj & ->) & -> & ->). by apply Hd.
Qed.

Lemma imported_untouched d d' :
  kept d → river_next_id d ≤ river_next_id d' → spotify_imports d' = spotify_imports d →
  spotify_snapshots d' = spotify_snapshots d → spotify_snapshot_entries d' = spotify_snapshot_entries d → kept d'.
Proof.
  intros Hd Hid Hi Hs He. apply (imported_same d); [done..|]. rw Hi Hs He. intros row Hr Hj. split; [by exists row|done].
Qed.

Lemma imported_deleteConnections doomed d : kept d → kept (deleteConnections doomed d).
Proof.
  intros Hd. apply (imported_same d); [done..|]. intros row Hrow Hj.
  destruct Hd as [Hlt Hd]. apply deleteConnections_imports in Hrow as Himp. destruct Himp as [Himp _].
  destruct (Hd row Himp Hj) as (_ & Hs & He). split; [by exists row|].
  assert (spotify_snapshots (deleteConnections doomed d) !! id = spotify_snapshots d !! id) as Hsnap.
  { rw Hs. cbn in Hrow |- *. apply map_lookup_filter_Some. split; [done|]. cbn. by rw Hrow. }
  split; [done|]. cbn in Hsnap |- *. rw map_lookup_filter. destruct (spotify_snapshot_entries d !! id); [|done]. cbn.
  rw Hsnap Hs. by rw option_guard_True.
Qed.

Lemma imported_setCode code id' d : kept d → kept (set_imports (alter (setCode code) id') d).
Proof.
  intros Hd. apply (imported_same d); [done..|]. cbn. intros row' [(-> & row & Hr & ->)|[_ Hr]]%lookup_alter_Some Hj.
  - split; [by exists row|done].
  - split; [by exists row'|done].
Qed.

Lemma imported_published id' playlist os now d d' :
  kept d → published id' playlist (snapshotOf os) now d = Ok d' → kept d'.
Proof.
  intros Hd Hp. pose proof (published_tables _ _ _ _ _ _ Hp) as [->|(s & f & [row Hrow] & Heq)]; [done|].
  assert (river_next_id d' = river_next_id d) as Hid by by rw Heq.
  apply (imported_same d); [done|lia|]. intros row' Hr' Hj'. destruct (decide (id = id')) as [<-|Hne].
  - rw Heq in Hr'. cbn in Hr'. rw lookup_alter_eq Hrow in Hr'. injection Hr' as <-. cbn in Hj'.
    destruct Hd as [_ Hd]. destruct (Hd row Hrow Hj') as (_ & Hs & _).
    rw (published_again _ _ _ _ _ _ _ Hp Hs). split; [by exists row|done].
  - destruct (published_others _ _ _ _ _ _ id Hp Hne) as (Hi & Hs & He). rw Hi in Hr'. split; [by exists row'|done].
Qed.

Lemma imported_enqueuedImport freshID h playlistID now d d' importID :
  kept d → enqueuedImport freshID h playlistID now d d' importID → kept d'.
Proof.
  intros Hd [_ He]. destruct (selectActiveImport _ _ _ _); [by destruct He as [-> _]|].
  destruct He as (_ & _ & [-> Hfresh]%insertImport_inv). apply (imported_same d); [done|cbn; lia|]. cbn.
  intros row' [[<- <-]|[_ Hr]]%lookup_insert_Some Hj; [|split; [by exists row'|done]].
  cbn in Hj. destruct Hd. lia.
Qed.

Lemma imported_program `{AEAD} T S A : program_keeps everyone T S A kept.
Proof.
  split.
  - intros h conn now d _ Hd. by apply (imported_untouched d).
  - intros doomed d _. apply imported_deleteConnections.
  - intros h conn expires d d' _ Hd [-> _]%insertConnection_inv. by apply (imported_untouched d).
  - intros doomed d _ Hd. by apply (imported_untouched d).
  - intros h conn expires d d' _ Hd [-> _]%insertAppleConnection_inv. by apply (imported_untouched d).
  - intros freshID h id' d d' importID _. apply imported_enqueuedImport.
  - intros id' playlist os d d' _. apply imported_published.
  - intros id' code d d' _ _ Hd [= <-]. by apply imported_setCode.
  - done.
  - split; [..|done].
    + intros id' row d a d' _ Hd Hu. split; [|done]. rw /upsertPreview in Hu.
      repeat case_match; simplify_eq; by apply (imported_untouched d).
    + intros id' e d d' _ Hd Hu. rw /upsertPreviewEntry in Hu. repeat case_match; simplify_eq; by apply (imported_untouched d).
    + intros freshID h id' d d' st _ Hd [_ He]. destruct (selectRunOfPreview _ _ _ _) as [[]|]; [by destruct He as [-> _]|].
      apply insertRun_inv in He as (_ & -> & _). apply (imported_untouched d); [done|cbn; lia|done..].
    + intros runID st code pl next d _ _ Hd. by apply (imported_untouched d).
  - intros t p Ht _ _. by apply (imported_untouched t).
  - intros d d' Hd (f & -> & _). by apply (imported_untouched d).
  - intros d Hd. apply (imported_untouched d); [done|cbn; lia|done..].
Qed.
End imported.

(** ** Properties *)

(** C27: in every reachable state the stored credentials are sealed for the
    session of their row: neither a Spotify nor an Apple Music connection can be
    opened in the name of another session, whoever moves its row there. *)
Theorem credentials_sealed `{AEAD, !AEADLaws, Unicode} {R} (net : Request → M R error Response) clk cfg spotify token
    appleURL origin pending D S A hash other row :
  reachable net clk cfg spotify token appleURL origin pending D S A → other ≠ hash →
  (spotify_connections D !! hash = Some row →
     (∃ conn, conn_encrypted_credentials row = seal hash conn) ∧
     open other (conn_encrypted_credentials row) = Err (ErrorString "cannot decrypt Spotify connection")) ∧
  (apple_connections D !! hash = Some row →
     (∃ conn, conn_encrypted_credentials row = appleSeal hash conn) ∧
     appleOpen other (conn_encrypted_credentials row) = Err (ErrorString "cannot decrypt Apple Music connection")).
Proof.
  intros [Hs Ha _ _]%reachable_records Hne. split; intros Hrow.
  - apply Hs in Hrow as [conn ->]. split; [by eexists|by apply open_other].
  - apply Ha in Hrow as [conn ->]. split; [by eexists|by apply appleOpen_other].
Qed.

(** C28: in every reachable state the status of an import or a run, whenever it
    can be read, is one of the documented ones: an import is completed, expired
    or in a state of its job, and its error code is one of the eight or none; a
    run is queued or completed without an error code, or has failed with one of
    three.  Text of the database or of a provider never becomes a code. *)
Theorem statuses_documented `{AEAD, Unicode} {R} (net : Request → M R error Response) clk cfg spotify token
    appleURL origin pending D S A hash id tx fs now (r : R) :
  reachable net clk cfg spotify token appleURL origin pending D S A →
  (∀ st, (Status hash id (MkWorld D tx fs now r)).1 = Ok st →
     ImportStatus_ErrorCode st ∈ "" :: importCodes ∧
     ImportStatus_State st ∈ ["completed"; "expired"; "available"; "pending"; "running"; "retryable"; "scheduled"; "cancelled";
       "completed"; "discarded"]) ∧
  (∀ st, (LoadRunStatus hash id (MkWorld D tx fs now r)).1 = Ok st →
     (TransferRunStatus_State st ∈ ["queued"; "completed"] ∧ TransferRunStatus_ErrorCode st = "") ∨
     (TransferRunStatus_State st = "failed" ∧ TransferRunStatus_ErrorCode st ∈ failureCodes)).
Proof.
  intros [_ _ Hi Hr]%reachable_records. split; intros st.
  - intros (row & Hrow & -> & Hst)%Status_row. split; [by eapply Hi|done].
  - intros (run & Hrun & ->)%LoadRunStatus_row. cbn. destruct (Hr id run Hrun) as [[-> ->]|[[-> ->]|[-> ?]]].
    + left. split; [set_solver +|done].
    + left. split; [set_solver +|done].
    + by right.
Qed.

(** C6: snapshots are immutable: once published, a snapshot and its entries
    stay exactly as they are, and its owner too, wherever the program goes on to,
    until the import itself is removed with its connection; no retry of the job,
    second delivery or later import changes them. *)
Theorem snapshots_immutable `{AEAD, Unicode} {R} (net : Request → M R error Response) clk cfg spotify token appleURL origin
    pending D S A pending' D' S' A' id imp imp' snap :
  reachable net clk cfg spotify token appleURL origin pending D S A →
  onward net clk cfg spotify token appleURL origin pending D S A pending' D' S' A' →
  spotify_imports D !! id = Some imp → spotify_snapshots D !! id = Some snap →
  spotify_imports D' !! id = Some imp' → imp_river_job_id imp' = imp_river_job_id imp →
  imp_session_hash imp' = imp_session_hash imp ∧ spotify_snapshots D' !! id = Some snap ∧
  spotify_snapshot_entries D' !! id = spotify_snapshot_entries D !! id.
Proof.
  intros Hreach Hon Himp Hsnap Himp' Hjob.
  apply (onward_keeps net clk cfg spotify token appleURL origin (λ _ _, imported id (imp_river_job_id imp) (imp_session_hash imp)
    snap (spotify_snapshot_entries D !! id))) in Hon as [_ Hkept]; [by apply Hkept| |intros; apply imported_program|done].
  apply consistent_reachable in Hreach as [_ _ Himps _ _]. split; [by apply (imports_jobs _ Himps id)|].
  intros row Hrow _. rewrite Himp in Hrow. by injection Hrow as <-.
Qed.

(** ** Concrete runs *)

Definition exAccount (row : ConnectionRow) : result string :=
  match open (H := idealAEAD) (sessionHash "s1") (conn_encrypted_credentials row) with
  | Ok conn => Ok (Profile_AccountID (Connection_Profile conn))
  | Err e => Err e
  end.

Lemma credentials_sealed_witness :
  match spotify_connections (w_db (s_rest exBoth)) !! sessionHash "s1",
        apple_connections (w_db (s_rest exBoth)) !! sessionHash "a1" with
  | Some row, Some row' =>
      exAccount row = Ok "acc" ∧
      open (H := idealAEAD) "other" (conn_encrypted_credentials row) = Err (ErrorString "cannot decrypt Spotify connection") ∧
      appleOpen (H := idealAEAD) "other" (conn_encrypted_credentials row') = Err (ErrorString "cannot decrypt Apple Music connection")
  | _, _ => False
  end.
Proof.
  destruct (spotify_connections _ !! _) as [row|] eqn:Hs; [|exfalso; revert Hs; vm_compute; discriminate].
  destruct (apple_connections _ !! _) as [row'|] eqn:Ha; [|exfalso; revert Ha; vm_compute; discriminate].
  assert ("other" ≠ sessionHash "s1" ∧ "other" ≠ sessionHash "a1") as [Hne Hne'] by (vm_compute; split; discriminate).
  split; [|split].
  - assert (exAccount <$> spotify_connections (w_db (s_rest exBoth)) !! sessionHash "s1" = Some (Ok "acc")) as H
      by (vm_compute; reflexivity).
    rw Hs in H. by injection H.
  - exact (proj2 (proj1 (credentials_sealed _ _ _ _ _ _ _ _ _ _ _ _ _ row exReachable_both Hne) Hs)).
  - exact (proj2 (proj2 (credentials_sealed _ _ _ _ _ _ _ _ _ _ _ _ _ row' exReachable_both Hne') Ha)).
Defined.

Lemma statuses_documented_witness :
  match (Status (sessionHash "s1") "imp1" (MkWorld exDone None [] 20 tt)).1 with
  | Ok st => ImportStatus_State st = "completed" ∧ ImportStatus_ErrorCode st ∈ "" :: importCodes
  | Err _ => False
  end.
Proof.
  destruct (Status _ _ _).1 as [st|e] eqn:Hst; [|exfalso; revert Hst; vm_compute; discriminate].
  split; [revert Hst; vm_compute; intros [= <-]; reflexivity|].
  exact (proj1 (proj1 (statuses_documented _ _ _ _ _ _ _ _ _ _ _ _ _ _ _ _ _ exReachable_done) st Hst)).
Defined.

(** The queue finishes the job of the import; the browser asks for the same
    playlist again and that import is worked too. *)
Definition exFinish (jobs : gmap Z JobRow) : gmap Z JobRow :=
  (λ job, MkJobRow (job_kind job) (job_args job) JobCompleted (job_max_attempts job)) <$> jobs.
Definition exAgain (pending : gmap string attempt) (D : DB) : server (world unit) :=
  exServe (PostImport "imp2") (MkServer pending (MkWorld (set_jobs exFinish D) None [] 10 tt)).
Definition exSecond (pending : gmap string attempt) (D : DB) : DB :=
  w_db (@importJob idealAEAD unit exApiNet (λ _, 0) exAuth "imp2" (MkWorld (w_db (s_rest (exAgain pending D))) None [] 10 tt)).
Abbreviation exLater := (exSecond (s_pending exRequested) exDone).

Lemma exFinish_step D : riverStep D (set_jobs exFinish D).
Proof.
  exists exFinish. split; [done|]. intros n job'. rw /exFinish lookup_fmap.
  destruct (river_job D !! n) as [job|]; [|done]. intros [= <-]. by exists job.
Qed.

Lemma exOnward_second pending D S A :
  @onward idealAEAD latin1 unit exApiNet (λ _, 0) exConfig exAuth (λ _, Some "jwt") "" exOrigin pending D S A
    (s_pending (exAgain pending D)) (exSecond pending D) (∅ ∪ S) (∅ ∪ A).
Proof.
  apply reach_import; [done|]. apply (reach_serve _ _ _ _ _ _ _ _ _ _ _ (PostImport "imp2")); [|cbn [spotifySession appleSession]; set_solver +].
  eapply reach_river; [apply reach_init|apply exFinish_step].
Qed.

Lemma snapshots_immutable_witness :
  is_Some (spotify_snapshots exLater !! "imp2") ∧
  match spotify_snapshots exDone !! "imp1" with
  | Some snap => snap_item_count snap = 2 ∧ spotify_snapshots exLater !! "imp1" = Some snap ∧
      spotify_snapshot_entries exLater !! "imp1" = spotify_snapshot_entries exDone !! "imp1"
  | None => False
  end.
Proof.
  split; [vm_compute; eauto|].
  destruct (spotify_imports exDone !! "imp1") as [imp|] eqn:Himp; [|exfalso; revert Himp; vm_compute; discriminate].
  destruct (spotify_imports exLater !! "imp1") as [imp'|] eqn:Himp'; [|exfalso; revert Himp'; vm_compute; discriminate].
  destruct (spotify_snapshots exDone !! "imp1") as [snap|] eqn:Hsnap; [|exfalso; revert Hsnap; vm_compute; discriminate].
  split; [revert Hsnap; vm_compute; intros [= <-]; reflexivity|].
  assert (imp_river_job_id imp' = imp_river_job_id imp) as Hjob.
  { revert Himp Himp'. vm_compute. by intros [= <-] [= <-]. }
  exact (proj2 (snapshots_immutable _ _ _ _ _ _ _ _ _ _ _ _ _ _ _ _ imp imp' snap exReachable_done (exOnward_second _ _ _ _) Himp Hsnap Himp' Hjob)).
Defined.
