(* ===== verification/Isolation.v ===== *)
(** The isolation of sessions: what one session does leaves the rows of every
    other one as they are.

    TransferStore shows that the reads of a session depend on its own rows only
    ([session_view]); here is the other half.  A request acts for the session of
    its cookie and the one that it issues, a job for the session of its import or
    run; [unchanged] says that the rows of another session are the same after it,
    and it is the instance of the interface of Invariants.v in the scope of all
    the others. *)
From S2P Require Import Prelude GoStrings Errors Json Http WebServer Models Matcher SpotifyTypes Database TransferStore Service SpotifyStore SpotifyClient Imports AppleClient AppleConnections SpotifyAuth Config Admin Api Wiring Invariants Sessions Consistency.
Local Open Scope string_scope.
Local Open Scope list_scope.
Local Open Scope Z_scope.

(** ** The rows of a session *)

(** A row that belongs to the session before or after. *)
Definition owned (own : DB → string → bool) (d d' : DB) (id : string) : bool := own d id || own d' id.

(** From [d] to [d'] nothing of the session [h] has changed. *)
Record unchanged (h : string) (d d' : DB) : Prop := {
  un_spotify : spotify_connections d' !! h = spotify_connections d !! h;
  un_apple : apple_connections d' !! h = apple_connections d !! h;
  un_imports id : owned (owns_import h) d d' id = true →
    spotify_imports d' !! id = spotify_imports d !! id ∧ spotify_snapshots d' !! id = spotify_snapshots d !! id ∧
    spotify_snapshot_entries d' !! id = spotify_snapshot_entries d !! id;
  un_previews id : owned (owns_preview h) d d' id = true →
    transfer_previews d' !! id = transfer_previews d !! id ∧
    transfer_preview_entries d' !! id = transfer_preview_entries d !! id;
  un_runs id run : run_session_hash run = h → transfer_runs d' !! id = Some run ↔ transfer_runs d !! id = Some run;
}.

Lemma owns_import_eq h d d' id : spotify_imports d' !! id = spotify_imports d !! id → owns_import h d' id = owns_import h d id.
Proof. rw /owns_import. by intros ->. Qed.
Lemma owns_preview_eq h d d' id :
  transfer_previews d' !! id = transfer_previews d !! id → owns_preview h d' id = owns_preview h d id.
Proof. rw /owns_preview. by intros ->. Qed.

Section unchanged.
Context (h : string).
Implicit Types d : DB.

Lemma unchanged_owns_import d d' id : unchanged h d d' → owns_import h d' id = owns_import h d id.
Proof.
  intros Hu. destruct (owned (owns_import h) d d' id) eqn:E; [by apply owns_import_eq, (un_imports _ _ _ Hu)|].
  by apply orb_false_iff in E as [-> ->].
Qed.
Lemma unchanged_owns_preview d d' id : unchanged h d d' → owns_preview h d' id = owns_preview h d id.
Proof.
  intros Hu. destruct (owned (owns_preview h) d d' id) eqn:E; [by apply owns_preview_eq, (un_previews _ _ _ Hu)|].
  by apply orb_false_iff in E as [-> ->].
Qed.

#[export] Instance unchanged_preorder : PreOrder (unchanged h).
Proof.
  split; [by intros d; split|]. intros d1 d2 d3 H12 H23. split.
  - by rw (un_spotify _ _ _ H23) (un_spotify _ _ _ H12).
  - by rw (un_apple _ _ _ H23) (un_apple _ _ _ H12).
  - intros id Ho. rw /owned (unchanged_owns_import _ _ id H23) (unchanged_owns_import _ _ id H12) orb_diag in Ho.
    destruct (un_imports _ _ _ H12 id) as (H1 & H2 & H3); [by rw /owned Ho|].
    destruct (un_imports _ _ _ H23 id) as (H4 & H5 & H6); [by rw /owned (unchanged_owns_import _ _ id H12) Ho|].
    by rw H4 H5 H6.
  - intros id Ho. rw /owned (unchanged_owns_preview _ _ id H23) (unchanged_owns_preview _ _ id H12) orb_diag in Ho.
    destruct (un_previews _ _ _ H12 id) as (H1 & H2); [by rw /owned Ho|].
    destruct (un_previews _ _ _ H23 id) as (H4 & H5); [by rw /owned (unchanged_owns_preview _ _ id H12) Ho|].
    by rw H4 H5.
  - intros id run Hrun. by rw (un_runs _ _ _ H23 id run Hrun) (un_runs _ _ _ H12 id run Hrun).
Qed.

Lemma restrict_unchanged {A} (own own' : string → bool) (m m' : gmap string A) :
  (∀ id, own' id = own id) → (∀ id, own id = true → m' !! id = m !! id) → restrict own' m' = restrict own m.
Proof.
  intros Hown Hm. apply map_eq. intros id. rw !restrict_lookup Hown. destruct (own id) eqn:E; [by apply Hm|done].
Qed.

(** What the session reads has not changed either. *)
Lemma unchanged_view d d' : unchanged h d d' → session_view h d' = session_view h d.
Proof.
  intros Hu. rw /session_view (un_spotify _ _ _ Hu).
  pose proof (λ id, unchanged_owns_import _ _ id Hu) as Hi. pose proof (λ id, unchanged_owns_preview _ _ id Hu) as Hp.
  assert (∀ id, owns_import h d id = true → owned (owns_import h) d d' id = true) as Hi' by by intros id Ho; rw /owned Ho.
  assert (∀ id, owns_preview h d id = true → owned (owns_preview h) d d' id = true) as Hp' by by intros id Ho; rw /owned Ho.
  repeat match goal with |- (_, _) = (_, _) => f_equal end; try (apply restrict_unchanged; [done|]; intros id Ho;
    first [by apply (un_imports _ _ _ Hu id (Hi' id Ho)) | by apply (un_previews _ _ _ Hu id (Hp' id Ho))]).
  apply map_eq. intros id. apply option_eq. intros run. rw !map_lookup_filter_Some. cbn.
  split; intros [H1 H2]; (split; [|done]); by apply (un_runs _ _ _ Hu).
Qed.
End unchanged.

(** ** Every statement *)

(** The statements that act for somebody else than [h]. *)
Section statements.
Context (h : string).
Implicit Types d : DB.

(** A statement on the connections, and one on the rows of one import. *)
Lemma unchanged_connections f d :
  f (spotify_connections d) !! h = spotify_connections d !! h → unchanged h d (set_connections f d).
Proof. by split. Qed.
Lemma unchanged_apple f d :
  f (apple_connections d) !! h = apple_connections d !! h → unchanged h d (set_apple_connections f d).
Proof. by split. Qed.

Lemma unchanged_import id d d' :
  spotify_connections d' = spotify_connections d → apple_connections d' = apple_connections d →
  transfer_previews d' = transfer_previews d → transfer_preview_entries d' = transfer_preview_entries d →
  transfer_runs d' = transfer_runs d →
  owned (owns_import h) d d' id = false →
  (∀ id', id' ≠ id → spotify_imports d' !! id' = spotify_imports d !! id' ∧
    spotify_snapshots d' !! id' = spotify_snapshots d !! id' ∧
    spotify_snapshot_entries d' !! id' = spotify_snapshot_entries d !! id') →
  unchanged h d d'.
Proof.
  intros H1 H2 H3 H4 H5 Hid Hothers. split; rw ?H1 ?H2 ?H3 ?H4 ?H5; try done.
  intros id' Ho. apply Hothers. intros ->. congruence.
Qed.

Lemma unchanged_preview id d d' :
  spotify_connections d' = spotify_connections d → apple_connections d' = apple_connections d →
  spotify_imports d' = spotify_imports d → spotify_snapshots d' = spotify_snapshots d →
  spotify_snapshot_entries d' = spotify_snapshot_entries d → transfer_runs d' = transfer_runs d →
  owned (owns_preview h) d d' id = false →
  (∀ id', id' ≠ id → transfer_previews d' !! id' = transfer_previews d !! id' ∧
    transfer_preview_entries d' !! id' = transfer_preview_entries d !! id') →
  unchanged h d d'.
Proof.
  intros H1 H2 H3 H4 H5 H6 Hid Hothers. split; rw ?H1 ?H2 ?H3 ?H4 ?H5 ?H6; try done.
  intros id' Ho. apply Hothers. intros ->. congruence.
Qed.

Lemma unchanged_restored `{AEAD} hash conn now d : hash ≠ h → unchanged h d (restored hash conn now d).
Proof. intros Hne. apply unchanged_connections. by rw lookup_alter_ne. Qed.

(** Deleting connections, that of [h] not among them, cascades to the imports of
    others only. *)
Lemma unchanged_deleteConnections doomed d :
  refs_ok d → (∀ row, spotify_connections d !! h = Some row → doomed h row = false) → unchanged h d (deleteConnections doomed d).
Proof.
  intros [Himp Hsnap Hent] Hkeep. pose proof (deleteConnections_lookup doomed d h) as Hconn.
  assert (spotify_connections (deleteConnections doomed d) !! h = spotify_connections d !! h) as Hh.
  { rw Hconn. destruct (spotify_connections d !! h) as [row|]; [|done]. cbn. by rw Hkeep. }
  split; [done|done| |done|done]. intros id Ho.
  (* an import of [h] stays, and so does everything below it *)
  assert (owns_import h d id = true) as Hown.
  { apply orb_true_iff in Ho as [Ho|Ho]; [done|]. rw /owns_import in Ho |- *.
    destruct (spotify_imports (deleteConnections doomed d) !! id) as [row|] eqn:E; [|done].
    apply deleteConnections_imports in E as [-> _]. done. }
  rw /owns_import in Hown. destruct (spotify_imports d !! id) as [row|] eqn:Hrow; [|done].
  apply bool_decide_eq_true in Hown.
  assert (spotify_imports (deleteConnections doomed d) !! id = Some row) as Hrow'.
  { apply deleteConnections_imports. split; [done|]. rw Hown Hh -Hown. by apply (Himp id). }
  rw Hrow'. split_and!; [done| |].
  - cbn in Hrow' |- *. rw map_lookup_filter. destruct (spotify_snapshots d !! id) as [snap|]; [|done]. cbn.
    by rw Hrow' option_guard_True.
  - cbn in Hrow' |- *. rw map_lookup_filter. destruct (spotify_snapshot_entries d !! id) as [m|] eqn:Hm; [|done]. cbn.
    rw map_lookup_filter. apply Hent in Hm as [snap Hs]. rw Hs /= Hrow'. by rw !option_guard_True.
Qed.
End statements.

(** ** The whole program *)

(** Everything but the session [h] and what it owns in [D]. *)
Definition others (h : string) (D : DB) : scope :=
  MkScope (λ hash, hash ≠ h) (λ id, owns_preview h D id = false) (λ id, owns_import h D id = false)
    (λ id, ∀ run, transfer_runs D !! id = Some run → run_session_hash run ≠ h).

(** The connections of [h] have not expired at time [T]. *)
Definition live (h : string) (T : Z) (D : DB) : Prop :=
  (∀ row, spotify_connections D !! h = Some row → T < conn_expires_at row) ∧
  (∀ row, apple_connections D !! h = Some row → T < conn_expires_at row).

Section others.
Context `{AEAD} (h : string) (D : DB) (T : Z) (S A : gset string).
Context (Hlive : live h T D) (HS : h ∉ S) (HA : h ∉ A).

Definition aside (d : DB) : Prop := unchanged h D d ∧ consistent d.

Lemma aside_step d d' : aside d → unchanged h d d' → consistent d' → aside d'.
Proof. intros [Hu _] Hu' Hc. split; [by etrans|done]. Qed.

Lemma aside_import d id : aside d → owns_import h D id = false → owns_import h d id = false.
Proof. intros [Hu _] Hid. by rw (unchanged_owns_import _ _ _ id Hu). Qed.
Lemma aside_preview d id : aside d → owns_preview h D id = false → owns_preview h d id = false.
Proof. intros [Hu _] Hid. by rw (unchanged_owns_preview _ _ _ id Hu). Qed.
Lemma aside_run d id run :
  aside d → acts_run (others h D) id → transfer_runs d !! id = Some run → run_session_hash run ≠ h.
Proof.
  intros [Hu _] Hid Hrun Hh. apply (Hid run); [|done]. by apply (un_runs _ _ _ Hu).
Qed.

Lemma aside_upsertPreview id row d a d' :
  prev_session_hash row ≠ h → aside d → upsertPreview id row T d = Ok (a, d') →
  aside d' ∧ owns_preview h D a.1.1 = false.
Proof.
  intros Hne Hd Hu. pose proof (consistent_upsertPreview _ _ _ _ _ _ (proj2 Hd) Hu) as Hc'.
  assert (∃ row', d' = set_previews <[a.1.1 := row']> d ∧ prev_session_hash row' ≠ h ∧ owns_preview h d a.1.1 = false)
    as (row' & -> & Hrow' & Hown).
  { rw /upsertPreview in Hu. destruct (negb _); [done|]. destruct (findPreview _ _) as [[id' old]|] eqn:Hfind.
    - apply head_Some_elem_of, list_elem_of_filter in Hfind as [Hkey Hin%elem_of_map_to_list].
      cbn in Hkey. assert (prev_session_hash old ≠ h) as Hold by by rw /previewKey in Hkey; injection Hkey as ->.
      injection Hu as <- <-. eexists. split; [reflexivity|]. split; [done|]. by rw /owns_preview /= Hin bool_decide_false.
    - destruct (transfer_previews d !! id) eqn:Hfresh; [done|]. injection Hu as <- <-.
      eexists. split; [reflexivity|]. split; [done|]. by rw /owns_preview /= Hfresh. }
  split; [|by rw -(unchanged_owns_preview _ _ _ a.1.1 (proj1 Hd))].
  apply (aside_step d); [done| |done]. apply (unchanged_preview h a.1.1); try done.
  - rw /owned Hown /owns_preview /= lookup_insert_eq. by rw bool_decide_false.
  - intros id' Hid'. cbn. by rw lookup_insert_ne.
Qed.

Lemma aside_upsertPreviewEntry id e d d' :
  owns_preview h D id = false → aside d → upsertPreviewEntry id e T d = Ok d' → aside d'.
Proof.
  intros Hid Hd Hu. pose proof (keeps_upsertPreviewEntry _ _ _ (keeps_transfers _ _ _ _ _ (consistent_program T S A))
    id e d d' I (proj2 Hd) Hu) as Hc'. apply (aside_step d); [done| |done].
  rw /upsertPreviewEntry in Hu. destruct (negb _); [done|]. destruct (transfer_previews d !! id) eqn:Hrow; [|done].
  injection Hu as <-. apply (unchanged_preview h id); try done.
  - apply (aside_preview d) in Hid; [|done]. rw /owned Hid. exact Hid.
  - intros id' Hne. cbn. by rw lookup_insert_ne.
Qed.

Lemma aside_enqueued freshID hash id d d' st :
  hash ≠ h → aside d → enqueued freshID hash id T d d' st → aside d'.
Proof.
  intros Hne Hd He. pose proof (consistent_enqueued _ _ _ _ _ _ _ (proj2 Hd) He) as Hc'.
  apply (aside_step d); [done| |done]. destruct He as [_ He].
  destruct (selectRunOfPreview _ _ _ _) as [[]|]; [by destruct He as [-> _]|].
  apply insertRun_inv in He as (_ & -> & Hfresh & _). cbn in Hfresh. split; try done. cbn. intros rid run Hrun.
  rw lookup_insert_Some. split; [intros [[<- <-]|[_ ?]]; [by destruct Hne|done]|].
  intros Hr. right. split; [congruence|done].
Qed.

Lemma aside_setRunState runID st code pl next d :
  acts_run (others h D) runID → run_outcome st code → aside d → aside (set_runs (alter (setRunState st code pl next T) runID) d).
Proof.
  intros Hid _ Hd. apply (aside_step d); [done| |by apply consistent_setRunState, Hd].
  split; try done. cbn. intros id run Hrun. rw lookup_alter_Some. split.
  - intros [(<- & run0 & H0 & ->)|[_ ?]]; [|done]. by destruct (aside_run d runID run0 Hd Hid H0).
  - intros Hr. right. split; [|done]. intros <-. by destruct (aside_run d runID run Hd Hid Hr).
Qed.

Lemma aside_published id playlist os d d' :
  owns_import h D id = false → aside d → published id playlist (snapshotOf os) T d = Ok d' → aside d'.
Proof.
  intros Hid Hd Hp. pose proof (consistent_published _ _ _ _ _ _ (proj2 Hd) Hp) as Hc'.
  apply (aside_step d); [done| |done]. apply (aside_import d) in Hid; [|done].
  pose proof (λ id', published_others _ _ _ _ _ _ id' Hp) as Hothers.
  destruct (published_tables _ _ _ _ _ _ Hp) as [->|(snap & f & [row Hrow] & ->)]; [done|].
  apply (unchanged_import h id); try done. rw /owned Hid /owns_import /= lookup_alter_eq Hrow /=.
  by rw /owns_import Hrow in Hid.
Qed.

Lemma aside_setErrorCode id code d : owns_import h D id = false → aside d → aside (set_imports (alter (setCode code) id) d).
Proof.
  intros Hid Hd. apply (aside_step d); [done| |by apply consistent_setCode, Hd].
  apply (aside_import d) in Hid; [|done]. apply (unchanged_import h id); try done.
  - rw /owned Hid /owns_import /= lookup_alter_eq. rw /owns_import in Hid. by destruct (spotify_imports d !! id).
  - intros id' Hne. cbn. by rw lookup_alter_ne.
Qed.

Lemma aside_enqueuedImport freshID hash id d d' importID :
  hash ≠ h → aside d → enqueuedImport freshID hash id T d d' importID → aside d'.
Proof.
  intros Hne Hd He. pose proof (consistent_enqueuedImport _ _ _ _ _ _ _ (proj2 Hd) He) as Hc'.
  apply (aside_step d); [done| |done]. destruct He as [_ He].
  destruct (selectActiveImport _ _ _ _); [by destruct He as [-> _]|].
  destruct He as (_ & _ & [-> Hfresh]%insertImport_inv). cbn in Hfresh. apply (unchanged_import h freshID); try done.
  - rw /owned /owns_import /= Hfresh lookup_insert_eq. by rw bool_decide_false.
  - intros id' Hid. cbn. by rw lookup_insert_ne.
Qed.

(** A connection of [h] is neither in scope nor expired. *)
Lemma aside_kept (f : DB → gmap string ConnectionRow) doomed d row :
  (∀ x row, doomed x row = true → x ≠ h ∨ conn_expires_at row ≤ T) →
  (∀ row, f D !! h = Some row → T < conn_expires_at row) → f d !! h = f D !! h →
  f d !! h = Some row → doomed h row = false.
Proof.
  intros Hd Hl Hf Hrow. apply not_true_iff_false. intros [|]%Hd; [done|]. rw Hf in Hrow. apply Hl in Hrow. lia.
Qed.

Lemma aside_program : program_keeps (others h D) T S A aside.
Proof.
  pose proof (consistent_program T S A) as Hc. destruct Hlive as [Hls Hla]. split.
  - intros hash conn now d Hne Hd. apply (aside_step d); [done|by apply unchanged_restored|].
    by apply (keeps_restored _ _ _ _ _ Hc), Hd.
  - intros doomed d Hdoom Hd. apply (aside_step d); [done| |by apply consistent_deleteConnections, Hd].
    apply unchanged_deleteConnections; [apply Hd|]. intros row.
    apply (aside_kept spotify_connections); [done..|]. apply Hd.
  - intros hash enc expires d d' Hin Hd Hi. pose proof (keeps_insertConnection _ _ _ _ _ Hc _ _ _ _ _ Hin (proj2 Hd) Hi).
    apply (aside_step d); [done| |done]. apply insertConnection_inv in Hi as [-> _].
    apply unchanged_connections. rw lookup_insert_ne; [set_solver|done].
  - intros doomed d Hdoom Hd. apply (aside_step d); [done| |by apply consistent_apple, Hd].
    apply unchanged_apple. rw map_lookup_filter. destruct (apple_connections d !! h) as [row|] eqn:Hrow; [|done]. cbn.
    rw option_guard_True //. eapply (aside_kept apple_connections); [done..|apply Hd|done].
  - intros hash enc expires d d' Hin Hd Hi. pose proof (keeps_insertAppleConnection _ _ _ _ _ Hc _ _ _ _ _ Hin (proj2 Hd) Hi).
    apply (aside_step d); [done| |done]. apply insertAppleConnection_inv in Hi as [-> _].
    apply unchanged_apple. rw lookup_insert_ne; [set_solver|done].
  - intros *. apply aside_enqueuedImport.
  - intros *. apply aside_published.
  - intros id code d d' Hid _ Hd [= <-]. by apply aside_setErrorCode.
  - intros id row d Hid Hd Hrow. apply (aside_import d) in Hid; [|done]. rw /owns_import Hrow in Hid.
    by apply bool_decide_eq_false in Hid.
  - split; intros *; [apply aside_upsertPreview|apply aside_upsertPreviewEntry|apply aside_enqueued|apply aside_setRunState|].
    intros Hrun Hd Hsel. rw /selectRunForUpdate in Hsel.
    apply bind_Some in Hsel as (r & Hr & (p & Hp & [= <- <-])%bind_Some).
    destruct (previews_run _ (ok_previews _ (proj2 Hd)) _ _ Hr) as (p' & Hp' & Hh). rewrite Hp in Hp'. injection Hp' as <-.
    cbn. rw Hh. by apply (aside_run d runID r Hd Hrun Hr).
  - intros t p [Ht Hct] [Hp Hcp] Hdom. split; [|by apply (keeps_mergeDB _ _ _ _ _ Hc)]. destruct Ht, Hp. by split.
  - intros d d' Hd Hr. apply (aside_step d); [done| |by apply (keeps_river _ _ _ _ _ Hc d); [apply Hd|]].
    destruct Hr as (f & -> & _). by split.
  - intros d Hd. apply (aside_step d); [done|by split|]. apply (keeps_probe _ _ _ _ _ Hc), Hd.
Qed.
End others.

(** ** Requests and jobs of others *)

Section program.
Context `{AEAD, Unicode} {R : Type} (net : Request → M R error Response) (clk : R → Z).
Context (cfg : Enabled) (spotify : Auth) (token : R → option string) (appleURL origin : string).
Implicit Types (d D : DB).

(** One step of the program that does not act for [h]: a request with another
    cookie or none, that issues another session; the job of another session's
    import or run; or a step of the queue.  Every step meets its own time, state
    of the network, faults and pending authorizations. *)
Inductive foreign (h : string) : DB → DB → Prop :=
| foreign_request q r pending D fs now rest :
    live h now D → requestHash r ≠ h → h ∉ spotifySession q ∪ appleSession q →
    foreign h D (w_db (s_rest (mux net clk cfg spotify token appleURL origin q r (MkServer pending (MkWorld D None fs now rest))).2))
| foreign_import id D fs now rest :
    live h now D → owns_import h D id = false →
    foreign h D (w_db (importJob net clk spotify id (MkWorld D None fs now rest)))
| foreign_transfer tfs budget runID D fs now rest :
    live h now D → (∀ run, transfer_runs D !! runID = Some run → run_session_hash run ≠ h) →
    foreign h D (w_db (transferJob net clk cfg spotify token appleURL tfs budget runID (MkWorld D None fs now rest)))
| foreign_river D D' : riverStep D D' → foreign h D D'
| foreign_probe D : foreign h D (insert_job probeKind "" 5 D).2.

Lemma aside_start h D : consistent D → aside h D D.
Proof. by split. Qed.

Lemma foreign_aside h D D' : consistent D → foreign h D D' → aside h D D'.
Proof.
  intros HD. destruct 1 as [q r pending D fs now rest Hlive Hr Hq|id D fs now rest Hlive Hid
                             |tfs budget runID D fs now rest Hlive Hrun|D D' Hriver|D].
  - pose proof (aside_program h D now (spotifySession q) (appleSession q) Hlive ltac:(set_solver) ltac:(set_solver)) as Hprog.
    assert (safe now (aside h D) (MkServer pending (MkWorld D None fs now rest))) as Hs
      by by split_and!; [|apply aside_start|..].
    by apply (preserves_mux net clk cfg spotify token appleURL origin _ now _ _ _ Hprog r Hr q) in Hs as (_ & Hs & _).
  - pose proof (aside_program h D now ∅ ∅ Hlive ltac:(set_solver) ltac:(set_solver)) as Hprog.
    assert (idle now (aside h D) (MkWorld D None fs now rest)) as Hw by by split_and!; [|apply aside_start|..].
    by apply (idle_importJob net clk spotify _ now _ _ _ Hprog id) in Hw as (_ & Hw & _).
  - pose proof (aside_program h D now ∅ ∅ Hlive ltac:(set_solver) ltac:(set_solver)) as Hprog.
    assert (idle now (aside h D) (MkWorld D None fs now rest)) as Hw by by split_and!; [|apply aside_start|..].
    by apply (idle_transferJob net clk cfg spotify token appleURL _ now _ _ _ Hprog tfs budget runID) in Hw as (_ & Hw & _).
  - split; [|by eapply consistent_river]. destruct Hriver as (f & -> & _). by split.
  - split; [by split|by apply consistent_probe].
Qed.

Lemma foreign_steps_aside h D D' : consistent D → rtc (foreign h) D D' → aside h D D'.
Proof.
  intros HD Hsteps. revert HD. induction Hsteps as [D|D1 D2 D3 H12 _ IH]; intros HD; [by apply aside_start|].
  apply foreign_aside in H12 as [H12 HD2]; [|done]. destruct (IH HD2) as [H23 HD3]. split; [by etrans|done].
Qed.
End program.

(** C3: sessions are isolated: whatever the others do, in any order and number,
    with their requests, with the jobs of their imports and transfers and
    whatever these meet outside, the connections, imports, snapshots, previews
    and runs of a session whose connections have not expired stay exactly as they
    are, and so do the answers that its reads give. *)
Theorem sessions_isolated `{AEAD, Unicode} {R} (net : Request → M R error Response) clk cfg spotify token appleURL origin h D D' :
  consistent D → rtc (foreign net clk cfg spotify token appleURL origin h) D D' →
  unchanged h D D' ∧ session_view h D' = session_view h D ∧
  ∀ fs now (rest : R),
    (∀ previewID offset limit, (LoadPreview h previewID offset limit (MkWorld D' None fs now rest)).1 =
                               (LoadPreview h previewID offset limit (MkWorld D None fs now rest)).1) ∧
    (∀ runID, (LoadRunStatus h runID (MkWorld D' None fs now rest)).1 =
              (LoadRunStatus h runID (MkWorld D None fs now rest)).1) ∧
    (∀ importID, (LoadSpotifySnapshot h importID (MkWorld D' None fs now rest)).1 =
                 (LoadSpotifySnapshot h importID (MkWorld D None fs now rest)).1).
Proof.
  intros HD [Hu _]%foreign_steps_aside; [|done]. apply unchanged_view in Hu as Hview.
  split; [done|]. split; [done|]. intros fs now rest. by apply reads_view.
Qed.

(** ** A concrete run *)

(** After the run of Sessions.v, the session of the Apple Music account
    disconnects, and a browser without a session starts an authorization. *)
Definition exApple : HttpRequest := MkHttpRequest exOrigin [("music_session", "a1")] [] "" None false.
Definition exForeignStep (q : route) (r : HttpRequest) (D : DB) : DB :=
  w_db (s_rest (@mux idealAEAD latin1 unit exApiNet (λ _, 0) exConfig exAuth (λ _, Some "jwt") "" exOrigin q r
    (MkServer ∅ (MkWorld D None [] 20 tt))).2).
Definition exAfter : DB := exForeignStep DeleteAppleConnection exApple exDone.

Lemma live_check h T D :
  match spotify_connections D !! h with Some row => T <? conn_expires_at row | None => true end = true →
  match apple_connections D !! h with Some row => T <? conn_expires_at row | None => true end = true →
  live h T D.
Proof. intros H1 H2. split; intros row Hrow; [rewrite Hrow in H1|rewrite Hrow in H2]; lia. Qed.

Lemma exForeign :
  rtc (@foreign idealAEAD latin1 unit exApiNet (λ _, 0) exConfig exAuth (λ _, Some "jwt") "" exOrigin (sessionHash "s1")) exDone exAfter.
Proof.
  apply rtc_once. apply (foreign_request _ _ _ _ _ _ _ _ DeleteAppleConnection exApple ∅ exDone [] 20 tt).
  - apply live_check; vm_compute; reflexivity.
  - vm_compute. discriminate.
  - cbn [spotifySession appleSession]. set_solver +.
Qed.

Lemma sessions_isolated_witness :
  is_Some (apple_connections exDone !! sessionHash "a1") ∧ apple_connections exAfter !! sessionHash "a1" = None ∧
  is_Some (spotify_snapshots exAfter !! "imp1") ∧
  session_view (sessionHash "s1") exAfter = session_view (sessionHash "s1") exDone.
Proof.
  split; [vm_compute; eauto|]. split; [vm_compute; reflexivity|]. split; [vm_compute; eauto|].
  exact (proj1 (proj2 (sessions_isolated _ _ _ _ _ _ _ _ _ _ (consistent_reachable _ _ _ _ _ _ _ _ _ _ _ exReachable_done)
    exForeign))).
Defined.
